(* ===== verification/_CoqProject ===== *)
-Q . S2P
Prelude.v
SexpTypes.v
CMem.v
SepLogic.v
SexpMemory.v
FastStack.v
FastStackSpec.v
CLib.v
CString.v
ElementPool.v
Trees.v
Layout.v
SexpOps.v
SexpOpsSpec.v
SexpSearch.v
Sexp.v
Print.v
ParserStates.v
EventParser.v
Parser.v
PrintCont.v
Io.v
Vis.v
Binmode.v
Callbacks.v
SimpleInterp.v
Continuations.v
Machine.v
Events.v
Simulation.v
InlineStates.v
Refinement.v
ParserSpec.v
ParseSexp.v
ParserClient.v
IoSpec.v
EventSpec.v
WatchSpec.v
Syntax.v
PrintSpec.v
RoundTrip.v
PrintContSpec.v
Resume.v
PrintCstrSpec.v
InlineSpec.v
BinmodeSpec.v
Frozen.v
DictSpec.v
SimpleInterpSpec.v
InterpMain.v
CallbacksSpec.v
ContinuationsSpec.v
VisSpec.v
Defects.v
