(* ===== verification/Prelude.v ===== *)
(** * A verification of the sfsexp library

    sfsexp reads, builds, prints and searches s-expressions.  This
    development models the C code of [src/src/] and proves what it does,
    memory included: no access outside a block, no double free, no leak.

    ** The program

    An expression is a chain of [sexp_t] elements: a value has a string (or
    binary data), a list points to its first element, [next] leads to the
    successor.  The parts of the program, each calling those above it:

    - memory accounting (sexp_memory.c, sexp_memory.h): [sexp_malloc],
      [sexp_calloc], [sexp_realloc], [sexp_free], with or without a limit;
    - a stack (faststack.c) whose popped levels stay allocated;
    - growable strings (cstring.c);
    - pools that hand released elements and parse records out again
      (parser.c, lines 66-313), kept on two such stacks;
    - construction and destruction (sexp.c), searches, length and copy
      (sexp_ops.c), two printers (sexp.c), Graphviz output (sexp_vis.c);
    - a parser (parser.c): a machine of fifteen states that reads a text in
      pieces; between calls its state is in a [pcont_t], its open lists are
      levels of a stack, the atom that is being read is in a buffer;
    - an event parser (event_temp.c): the same machine, which builds nothing
      and calls handlers;
    - a reader (io.c) that feeds the parser from a file descriptor, and
      [print_pcont] (parser.c) that shows what a continuation has read;
    - four programs on top of it (src/examples/): binmode.c copies a file by
      way of inline binary data, simple_interp.c evaluates the expressions
      of a file under a dictionary of definitions, callbacks.c lists the
      edges in a file from the parser's event handlers, continuations.c
      parses a file sixteen bytes at a time.

    ** How the code is modelled

    [CMem]: a heap maps locations to cells, a cell is a struct, a block of
    characters or a global variable.  A C function is a computation in a
    state and error monad [M]; its body follows the code statement by
    statement.  NULL and dangling dereferences, accesses outside a block,
    reads of indeterminate values, bad [free]s, overflow of an [int] and
    failed asserts are faults.  [malloc] leaves fields of type [fld]
    indeterminate.  [size_t] and [unsigned int] are [Z] with the wrap-around
    written out ([u64], [u32]); characters are [Z].  The system's allocator
    answers from an arbitrary list ([g_answers]), so a theorem about an
    arbitrary list covers every pattern of failures; the functions are
    written against the interfaces [MemApi] and [PoolApi], which have one
    instance per build option, with the laws [MemLaws] and [PoolLaws].

    [SepLogic]: triples [⦃ P ⦄ m ⟪ r, Q ⟫] of a separation logic over these
    heaps, in the Iris proof mode.  The logic is linear: a cell that the
    postcondition does not mention was freed.  A triple promises that [m]
    runs to completion without a fault and leaves all other cells alone.

    ** The files

    - [Prelude]: machine integers, lists, notations, hint databases;
      [SexpTypes]: the structs and enumerations; [CMem], [SepLogic]: memory
      and logic; [CLib]: what the code uses of the C library.
    - [SexpMemory]: both builds of the allocator (module [Limit] is
      sexp_memory.c) and their laws.
    - [FastStack], [FastStackSpec]: the stack, and its contract as a list.
    - [CString]: the growable strings.
    - [ElementPool]: the pools, modules [Cached] (default) and [Plain]
      ([_NO_MEMORY_MANAGEMENT_]).
    - [Trees]: expressions as values, and [tree_at], [forest_at], the chains
      of elements that represent them; [Layout]: concrete memories.
    - [SexpOps], [SexpOpsSpec], [SexpSearch]: sexp_ops.c, its copy and its
      searches.  [Sexp]: constructors and [destroy_sexp].
    - [Print], [PrintSpec], [PrintCstrSpec]: the two printers and what they
      write.
    - [ParserStates], [Parser]: the states of [cparse_sexp] ([ParserStates]
      has those that event_temp.c repeats), its wrappers and continuations.
      [EventParser]: event_temp.c.  [PrintCont], [PrintContSpec], [Resume]:
      print_pcont, what it writes, and that a parser can go on from it.
    - [Io], [IoSpec]: io.c and the loop that reads a file.  [Vis], [VisSpec]:
      sexp_vis.c and what it draws.
    - The programs: [Binmode], [BinmodeSpec] are binmode.c and what it
      copies.  [SimpleInterp] is simple_interp.c; [Frozen] has heaps that a
      call leaves alone, [DictSpec] the dictionary as a map,
      [SimpleInterpSpec] and [InterpMain] the evaluator and the program
      against an interpreter of trees.  [Callbacks], [CallbacksSpec]:
      callbacks.c and the edges in a list of events.  [Continuations],
      [ContinuationsSpec]: continuations.c and the text it shows.
    - [Machine]: an abstract machine, the specification of the parser: a
      total function from texts to expressions and error codes.
      [Simulation], [InlineStates], [Refinement]: every iteration of
      [cparse_sexp] is a step of it ([InlineStates] has the states of the
      inline binary mode).  [ParserSpec], [ParseSexp], [ParserClient]: the
      functions that a caller uses, and callers.  [Events]: the events of an
      expression in the order of its text; [WatchSpec]: the calls of the
      handlers by [cparse_sexp]; [EventSpec]: the steps of the event parser
      are steps of the same machine.
    - [Syntax], [RoundTrip], [InlineSpec]: the text of an expression; parsing
      and printing are inverse, in both modes of the parser.
    - [Defects]: runs on which the code does not do what it means to do.

    ** What is proved

    Parser: [parse_sexp] and [cparse_sexp] compute what the machine says, on
    any text at any offset of a block ([parse_sexp_correct],
    [cparse_sexp_refines]); a text cut anywhere is read as a whole
    ([pieces_parse_as_one]); the loop over [iparse_sexp] reads all
    expressions and ends ([read_session_reads_all]); a result comes exactly
    with no error and is well-formed ([parse_sexp_typed]); the same holds in
    the mode that reads inline binary data ([inline_parse_refines],
    [inline_pieces_parse_as_one]), within the domain that the machine gives
    for such data (below); refused arguments
    and failing allocations of continuations are covered.  A parse that is
    given up leaks nothing ([parse_given_up_leaks_nothing]).

    Events: the handler calls are those for the expression that the machine
    finds, in the mode that only reports ([events_describe_expression]), in
    two pieces as in one ([event_pieces_report_as_one]), and in the mode that
    builds it too ([watched_parser_reports]).  Reader: a file
    that arrives in pieces is read expression by expression
    ([read_file_correct]).

    Continuations: [print_pcont] writes the open lists with what was read of
    them, and as much of the atom as there is room for, when none of their
    elements is an empty list, which it would take for an open one
    ([print_pcont_correct]); a new parser that reads this text and the rest
    ends as the old one would ([print_pcont_resumes]).

    Printers: [print_sexp] writes the text or the part that fits, and never
    past the size it was given ([print_sexp_correct]); [print_sexp_cstr]
    appends the whole text, binary data included
    ([print_sexp_cstr_correct]); parsing what was printed gives the
    expression back ([print_parse_round_trip],
    [print_parse_inline_round_trip]).  [sexp_to_dotfile] draws every element
    and every link ([sexp_to_dotfile_draws]).

    Programs: binmode.c returns the bytes of the file it was given
    ([binmode_copies_file]); simple_interp.c prints what the commands in its
    file mean ([simple_interp_prints]); callbacks.c prints the names and the
    edges of its file in the order of the text ([callbacks_prints_edges]);
    continuations.c shows the pieces of its file and the expressions that
    end in them ([continuations_prints]).

    Expressions: destruction, construction, deep copy, both searches and the
    length, each against a function on values.  The search that is meant to
    find the lowest depth does so where no list has the name lower down than
    the first list beside it that has it ([bfs_find_sexp_lowest]); in other
    expressions it need not ([bfs_find_sexp_not_lowest]).  A program that parses,
    prints, destroys and cleans up leaves no memory behind
    ([whole_session_leaks_nothing]).

    Containers and memory: the stack refines a list for every sequence of
    operations, strings grow when they must, elements are recycled, the
    limit of the accounting is never exceeded, and failed allocations leave
    the structures as they were.

    Defects: evaluations of the modelled code on single inputs, on which it
    leaves its buffers, leaks, gets stuck or writes the wrong text.  They say
    nothing about other inputs.

    ** Bounds and fuel

    A C loop is [while fuel body] or a [Fixpoint] on fuel; running out is the
    fault [OutOfFuel], which the triples exclude, so the fuel is proved
    enough and every triple proves termination.  Loops over linked cells have
    the size of the heap ([heap_fuel]); loops over a string the length of its
    block ([string_fuel]); the parser's loop four iterations per character of
    the block and five ([parse_fuel]); the printers' twice the heap and one
    ([print_fuel]).  The recursion of [eval] in simple_interp.c has a bound
    that is an argument: the theorem holds for every bound at which the
    interpreter of trees has a result.  Theorems bound the number of elements, list nesting
    included, by [int_max], because the stack and the printers count in an
    [int], and sizes by [2 ^ 64].

    ** Not modelled

    Messages to [stderr] and, but for the programs, [stdout]; [fopen],
    [open] and the files, whose text is modelled; [read], whose results are a
    list; the bytes of structs (a cell is typed, a cast to another type is a
    fault).  The machine has no result (it is stuck) where the code reads or
    writes outside its buffers or leaves the format: an escape that ends the
    text, a backslash left over from an earlier atom, inline binary data
    outside of a list or with a size that is not between 1 and [int_max], and
    a NUL that is not part of such data; [Defects] has concrete runs of the
    first and of such data.  The theorems about the event parser cover texts
    without a string behind a ['], which it gets wrong, and without binary
    data, which it never reads; the text must hold a whole expression or an
    error, because at the end of any other text it leaves [SEXP_ERR_OK] where
    [SEXP_ERR_INCOMPLETE] is meant.  [print_sexp] is covered for binary data only
    in lists and in a buffer that is large enough; [Defects] has runs with
    others.  The theorems about the parser and the printers assume that the
    allocator grants every request; failures are covered for the containers,
    the continuations and the pools, and [Defects] has runs of [print_sexp].

    The programs can open and read their files; in callbacks.c the numbers
    that [strtod] reads and [%f] shows are arguments; the handlers of the
    parser are recorded calls, on which those of callbacks.c run.

    Not at all: the other programs under src/examples/, which use the same
    functions on fixed texts; the scheme interpreter under
    src/examples/slisp/, which no makefile builds and whose functions are
    unfinished (they return fields and results that were never set); the
    drivers under src/tests/, which call the library and print; the python
    and ruby bindings, which are calls to the interpreters' C interfaces. *)
From stdpp Require Export base numbers list gmap.
From Stdlib Require Export ZArith Lia.
From Stdlib Require Import Ascii.
From Stdlib Require String.
Import String (string(..)).

#[global] Open Scope Z_scope.
#[global] Set Default Goal Selector "!".

Declare Scope sfsexp_scope.
Delimit Scope sfsexp_scope with sfsexp.
#[global] Open Scope sfsexp_scope.

(** ** Hint databases of the development *)

Create HintDb sfsexp discriminated.
Create Rewrite HintDb sfsexp_rw.

(** ** Machine integers

    [size_t] and [unsigned int] are [Z] with their wrap-around written
    out; [int] counters are [Z] and the operations that would overflow them
    are undefined behaviour (see [CMem]). *)

Definition u32 (z : Z) : Z := z mod 2 ^ 32.
Definition u64 (z : Z) : Z := z mod 2 ^ 64.
Definition int_max : Z := 2 ^ 31 - 1.

(** [(int) x] for a [size_t] [x], two's complement. *)
Definition int_of_size (z : Z) : Z := (z + 2 ^ 31) mod 2 ^ 32 - 2 ^ 31.

Lemma u64_small z : 0 <= z < 2 ^ 64 -> u64 z = z.
Proof. apply Z.mod_small. Qed.

Lemma u32_small z : 0 <= z < 2 ^ 32 -> u32 z = z.
Proof. apply Z.mod_small. Qed.

Lemma u64_range z : 0 <= u64 z < 2 ^ 64.
Proof. by apply Z.mod_pos_bound. Qed.

Lemma u32_range z : 0 <= u32 z < 2 ^ 32.
Proof. by apply Z.mod_pos_bound. Qed.

Lemma int_of_size_small z : 0 <= z < 2 ^ 31 -> int_of_size z = z.
Proof. intros ?. unfold int_of_size. rewrite Z.mod_small; lia. Qed.

#[export] Hint Rewrite u64_small u32_small using lia : sfsexp_rw.

(** ** Characters

    A [char] of a buffer is its byte value, a [Z] in [0, 256). *)

Abbreviation c_nul := 0%Z (only parsing).
Abbreviation c_tab := 9%Z (only parsing).
Abbreviation c_lf := 10%Z (only parsing).
Abbreviation c_cr := 13%Z (only parsing).
Abbreviation c_space := 32%Z (only parsing).
Abbreviation c_bang := 33%Z (only parsing).
Abbreviation c_dquote := 34%Z (only parsing).
Abbreviation c_hash := 35%Z (only parsing).
Abbreviation c_amp := 38%Z (only parsing).
Abbreviation c_squote := 39%Z (only parsing).
Abbreviation c_lparen := 40%Z (only parsing).
Abbreviation c_rparen := 41%Z (only parsing).
Abbreviation c_star := 42%Z (only parsing).
Abbreviation c_semi := 59%Z (only parsing).
Abbreviation c_bslash := 92%Z (only parsing).
Abbreviation c_b := 98%Z (only parsing).
Abbreviation c_tilde := 126%Z (only parsing).

(** The value of a byte read through a (signed) [char], and through an
    [unsigned char]. *)
Definition schar (c : Z) : Z := if c <? 128 then c else c - 256.
Definition uchar (c : Z) : Z := c.

Definition is_byte (c : Z) : Prop := 0 <= c < 256.

#[export] Instance is_byte_dec c : Decision (is_byte c).
Proof. unfold is_byte. apply _. Defined.

Definition byte_of_ascii (a : ascii) : Z := Z.of_N (N_of_ascii a).

Fixpoint bytes_of_string (s : string) : list Z :=
  match s with
  | EmptyString => []
  | String a s => byte_of_ascii a :: bytes_of_string s
  end.

(** ** Blocks: lists indexed by a [Z] offset *)

Definition blk_get {A} (b : list A) (i : Z) : option A :=
  if 0 <=? i then b !! Z.to_nat i else None.

Definition blk_set {A} (i : Z) (x : A) (b : list A) : option (list A) :=
  if (0 <=? i) && (i <? Z.of_nat (length b))
  then Some (<[Z.to_nat i := x]> b) else None.

Lemma blk_get_app {A} (b1 b2 : list A) x i :
  i = Z.of_nat (length b1) -> blk_get (b1 ++ x :: b2) i = Some x.
Proof.
  intros ->. unfold blk_get. destruct (Z.leb_spec 0 (Z.of_nat (length b1))); [|lia].
  rewrite Nat2Z.id. by apply list_lookup_middle.
Qed.

Lemma blk_set_app {A} (b1 b2 : list A) x y i :
  i = Z.of_nat (length b1) -> blk_set i y (b1 ++ x :: b2) = Some (b1 ++ y :: b2).
Proof.
  intros ->. unfold blk_set. rewrite length_app; simpl.
  destruct (Z.leb_spec 0 (Z.of_nat (length b1))); [|lia].
  destruct (Z.ltb_spec (Z.of_nat (length b1)) (Z.of_nat (length b1 + S (length b2)))); [|lia].
  simpl. rewrite Nat2Z.id, insert_app_r_alt, Nat.sub_diag; [done|lia].
Qed.

Lemma blk_set_length {A} i (x : A) b b' : blk_set i x b = Some b' -> length b' = length b.
Proof.
  unfold blk_set. intros H. case_match; simplify_eq. apply length_insert.
Qed.

(** A list longer than [n] is [n] elements, one more, and the others. *)
Lemma list_split {A} (n : nat) (l : list A) :
  (n < length l)%nat -> exists l1 x l2, l = l1 ++ x :: l2 /\ length l1 = n.
Proof.
  intros Hn. destruct (lookup_lt_is_Some_2 l n Hn) as [x Hx].
  exists (take n l), x, (drop (S n) l). split; [by rewrite take_drop_middle|].
  rewrite length_take. lia.
Qed.

Lemma drop_S_app {A} (l1 l2 : list A) x n :
  length l1 = n -> drop (S n) (l1 ++ x :: l2) = l2.
Proof.
  intros <-. rewrite cons_middle, (assoc_L app). apply drop_app_length'.
  rewrite length_app. simpl. lia.
Qed.

(** ** Record update: [r <| field := v |>] *)

Class Setter {R T : Type} (p : R -> T) := setf : T -> R -> R.
Arguments setf {R T} p {_} _ _.

Notation "r <| p := v |>" := (setf p v r)
  (at level 1, p at level 0, v at level 200, left associativity,
   format "r  <| p  :=  v |>") : sfsexp_scope.

(** [setter eta p] builds the setter of field [p] from the eta-expansion
    [eta] of the record type, by abstracting the one occurrence of [p r]. *)
Ltac setter eta p :=
  let v := fresh "v" in
  let r := fresh "r" in
  intros v r;
  let t := eval cbv beta delta [eta] in (eta r) in
  let t' := eval pattern (p r) in t in
  match t' with
  | ?f _ => let b := eval cbv beta in (f v) in exact b
  end.
