(* ===== verification/SexpTypes.v ===== *)
(** Data types of the library: the enumerations of [src/src/sexp_errors.h]
    and [src/src/sexp.h], and the structs of [sexp.h], [faststack.h],
    [cstring.h] and [parser.c].  A field that a function may leave
    uninitialised after [malloc] has type [fld]: its value is [Indet] until
    it is assigned. *)
From S2P Require Import Prelude.

(** ** Pointers

    A struct or block pointer is [None] (NULL) or the location of a heap
    cell; a cursor into a block of characters is a block and an offset. *)

Abbreviation loc := positive.
Abbreviation ptr := (option positive).
Abbreviation cptr := (option (positive * Z)).

(** [p + k] for a base pointer [p] to a block. *)
Definition cursor (p : ptr) (k : Z) : cptr :=
  match p with Some l => Some (l, k) | None => None end.

(** [t + k] for a cursor [t]. *)
Definition cadd (t : cptr) (k : Z) : cptr :=
  match t with Some (l, i) => Some (l, i + k) | None => None end.

(** A value that may be indeterminate. *)
Inductive fld (A : Type) : Type :=
  | Indet
  | Det (a : A).
Arguments Indet {A}.
Arguments Det {A} a.

(** ** Enumerations *)

Inductive sexp_errcode_t : Type :=
  | SEXP_ERR_OK
  | SEXP_ERR_MEMORY
  | SEXP_ERR_BADFORM
  | SEXP_ERR_BADCONTENT
  | SEXP_ERR_NULLSTRING
  | SEXP_ERR_IO
  | SEXP_ERR_IO_EMPTY
  | SEXP_ERR_MEM_LIMIT
  | SEXP_ERR_BUFFER_FULL
  | SEXP_ERR_BAD_PARAM
  | SEXP_ERR_BAD_STACK
  | SEXP_ERR_UNKNOWN_STATE
  | SEXP_ERR_INCOMPLETE
  | SEXP_ERR_BAD_CONSTRUCTOR.

Inductive elt_t : Type := SEXP_VALUE | SEXP_LIST.

Inductive atom_t : Type := SEXP_BASIC | SEXP_SQUOTE | SEXP_DQUOTE | SEXP_BINARY.

Inductive parsermode_t : Type :=
  | PARSER_NORMAL
  | PARSER_INLINE_BINARY
  | PARSER_EVENTS_ONLY.

#[export] Instance sexp_errcode_eq_dec : EqDecision sexp_errcode_t.
Proof. solve_decision. Defined.
#[export] Instance elt_eq_dec : EqDecision elt_t.
Proof. solve_decision. Defined.
#[export] Instance atom_eq_dec : EqDecision atom_t.
Proof. solve_decision. Defined.
#[export] Instance parsermode_eq_dec : EqDecision parsermode_t.
Proof. solve_decision. Defined.
#[export] Instance fld_eq_dec `{EqDecision A} : EqDecision (fld A).
Proof. solve_decision. Defined.

(** ** Structs *)

(** [sexp_t].  [list] and [next] are set by every path of the allocator. *)
Record sexp_t := mk_sexp {
  elt_ty : fld elt_t;
  elt_val : fld ptr;
  elt_val_allocated : fld Z;
  elt_val_used : fld Z;
  elt_list : ptr;
  elt_next : ptr;
  elt_aty : fld atom_t;
  elt_bindata : fld ptr;
  elt_binlength : fld Z
}.

(** [parser_event_handlers_t]: which of the four function pointers are not
    NULL.  The handlers are user code; a call is recorded in the trace. *)
Record parser_event_handlers := mk_handlers {
  eh_start_sexpr : bool;
  eh_end_sexpr : bool;
  eh_characters : bool;
  eh_binary : bool
}.

(** A handler call, with the characters its arguments designate. *)
Inductive event : Type :=
  | EvStart
  | EvEnd
  | EvCharacters (data : list (fld Z)) (len : Z) (aty : atom_t)
  | EvBinary (data : list (fld Z)) (len : Z).

(** [stack_lvl_t] and [faststack_t]. *)
Record stack_lvl_t := mk_lvl {
  lvl_above : ptr;
  lvl_below : ptr;
  lvl_data : ptr
}.

Record faststack_t := mk_stack {
  stk_top : ptr;
  stk_bottom : ptr;
  stk_height : Z
}.

(** [CSTRING]. *)
Record CSTRING := mk_cstring {
  cs_base : ptr;
  cs_len : Z;
  cs_curlen : Z
}.

(** [parse_data_t] of parser.c. *)
Record parse_data_t := mk_pd {
  pd_fst : fld ptr;
  pd_lst : fld ptr
}.

(** [pcont_t].  [init_continuation] leaves [last_sexp] and [error]
    uninitialised, and [eparse_sexp] may leave [squoted] so. *)
Record pcont_t := mk_pcont {
  pc_stack : ptr;
  pc_last_sexp : fld ptr;
  pc_val : ptr;
  pc_val_allocated : Z;
  pc_val_used : Z;
  pc_vcur : cptr;
  pc_lastPos : cptr;
  pc_sbuffer : cptr;
  pc_depth : Z;
  pc_qdepth : Z;
  pc_state : Z;
  pc_esc : Z;
  pc_squoted : fld Z;
  pc_error : fld sexp_errcode_t;
  pc_mode : parsermode_t;
  pc_binexpected : Z;
  pc_binread : Z;
  pc_bindata : ptr;
  pc_event_handlers : ptr
}.

(** [sexp_iowrap_t]; its buffer [buf] is the block [iow_buf]. *)
Record sexp_iowrap_t := mk_iowrap {
  iow_cc : ptr;
  iow_fd : Z;
  iow_buf : positive;
  iow_cnt : Z
}.

(** [dict_t] of the example simple_interp.c; the array [varname] is the
    block [dict_varname]. *)
Record dict_t := mk_dict {
  dict_varname : positive;
  dict_valexp : ptr;
  dict_next : ptr
}.

(** ** Field update *)

Definition eta_sexp r := mk_sexp (elt_ty r) (elt_val r) (elt_val_allocated r)
  (elt_val_used r) (elt_list r) (elt_next r) (elt_aty r) (elt_bindata r) (elt_binlength r).
#[export] Instance set_elt_ty : Setter elt_ty := ltac:(setter eta_sexp elt_ty).
#[export] Instance set_elt_val : Setter elt_val := ltac:(setter eta_sexp elt_val).
#[export] Instance set_elt_val_allocated : Setter elt_val_allocated :=
  ltac:(setter eta_sexp elt_val_allocated).
#[export] Instance set_elt_val_used : Setter elt_val_used := ltac:(setter eta_sexp elt_val_used).
#[export] Instance set_elt_list : Setter elt_list := ltac:(setter eta_sexp elt_list).
#[export] Instance set_elt_next : Setter elt_next := ltac:(setter eta_sexp elt_next).
#[export] Instance set_elt_aty : Setter elt_aty := ltac:(setter eta_sexp elt_aty).
#[export] Instance set_elt_bindata : Setter elt_bindata := ltac:(setter eta_sexp elt_bindata).
#[export] Instance set_elt_binlength : Setter elt_binlength := ltac:(setter eta_sexp elt_binlength).

Definition eta_lvl r := mk_lvl (lvl_above r) (lvl_below r) (lvl_data r).
#[export] Instance set_lvl_above : Setter lvl_above := ltac:(setter eta_lvl lvl_above).
#[export] Instance set_lvl_below : Setter lvl_below := ltac:(setter eta_lvl lvl_below).
#[export] Instance set_lvl_data : Setter lvl_data := ltac:(setter eta_lvl lvl_data).

Definition eta_stack r := mk_stack (stk_top r) (stk_bottom r) (stk_height r).
#[export] Instance set_stk_top : Setter stk_top := ltac:(setter eta_stack stk_top).
#[export] Instance set_stk_bottom : Setter stk_bottom := ltac:(setter eta_stack stk_bottom).
#[export] Instance set_stk_height : Setter stk_height := ltac:(setter eta_stack stk_height).

Definition eta_cstring r := mk_cstring (cs_base r) (cs_len r) (cs_curlen r).
#[export] Instance set_cs_base : Setter cs_base := ltac:(setter eta_cstring cs_base).
#[export] Instance set_cs_len : Setter cs_len := ltac:(setter eta_cstring cs_len).
#[export] Instance set_cs_curlen : Setter cs_curlen := ltac:(setter eta_cstring cs_curlen).

Definition eta_pd r := mk_pd (pd_fst r) (pd_lst r).
#[export] Instance set_pd_fst : Setter pd_fst := ltac:(setter eta_pd pd_fst).
#[export] Instance set_pd_lst : Setter pd_lst := ltac:(setter eta_pd pd_lst).

Definition eta_pcont r := mk_pcont (pc_stack r) (pc_last_sexp r) (pc_val r)
  (pc_val_allocated r) (pc_val_used r) (pc_vcur r) (pc_lastPos r) (pc_sbuffer r)
  (pc_depth r) (pc_qdepth r) (pc_state r) (pc_esc r) (pc_squoted r) (pc_error r)
  (pc_mode r) (pc_binexpected r) (pc_binread r) (pc_bindata r) (pc_event_handlers r).
#[export] Instance set_pc_stack : Setter pc_stack := ltac:(setter eta_pcont pc_stack).
#[export] Instance set_pc_squoted : Setter pc_squoted := ltac:(setter eta_pcont pc_squoted).
#[export] Instance set_pc_last_sexp : Setter pc_last_sexp := ltac:(setter eta_pcont pc_last_sexp).
#[export] Instance set_pc_val : Setter pc_val := ltac:(setter eta_pcont pc_val).
#[export] Instance set_pc_lastPos : Setter pc_lastPos := ltac:(setter eta_pcont pc_lastPos).
#[export] Instance set_pc_sbuffer : Setter pc_sbuffer := ltac:(setter eta_pcont pc_sbuffer).
#[export] Instance set_pc_error : Setter pc_error := ltac:(setter eta_pcont pc_error).
#[export] Instance set_pc_mode : Setter pc_mode := ltac:(setter eta_pcont pc_mode).
#[export] Instance set_pc_bindata : Setter pc_bindata := ltac:(setter eta_pcont pc_bindata).
#[export] Instance set_pc_event_handlers : Setter pc_event_handlers :=
  ltac:(setter eta_pcont pc_event_handlers).

Definition eta_iowrap r := mk_iowrap (iow_cc r) (iow_fd r) (iow_buf r) (iow_cnt r).
#[export] Instance set_iow_cc : Setter iow_cc := ltac:(setter eta_iowrap iow_cc).
#[export] Instance set_iow_cnt : Setter iow_cnt := ltac:(setter eta_iowrap iow_cnt).
Definition eta_dict r := mk_dict (dict_varname r) (dict_valexp r) (dict_next r).
#[export] Instance set_dict_valexp : Setter dict_valexp := ltac:(setter eta_dict dict_valexp).
#[export] Instance set_dict_next : Setter dict_next := ltac:(setter eta_dict dict_next).

Example set_elt_next_ex p :
  (mk_sexp Indet (Det None) Indet Indet None None Indet Indet Indet) <| elt_next := p |>
  = mk_sexp Indet (Det None) Indet Indet None p Indet Indet Indet.
Proof. reflexivity. Qed.

(** [fields] reduces field accesses and updates of struct values. *)
Ltac fields := cbn beta iota zeta delta [setf cursor cadd
  elt_ty elt_val elt_val_allocated elt_val_used elt_list elt_next elt_aty elt_bindata
  elt_binlength set_elt_ty set_elt_val set_elt_val_allocated set_elt_val_used
  set_elt_list set_elt_next set_elt_aty set_elt_bindata set_elt_binlength
  eh_start_sexpr eh_end_sexpr eh_characters eh_binary
  lvl_above lvl_below lvl_data set_lvl_above set_lvl_below set_lvl_data
  stk_top stk_bottom stk_height set_stk_top set_stk_bottom set_stk_height
  cs_base cs_len cs_curlen set_cs_base set_cs_len set_cs_curlen
  pd_fst pd_lst set_pd_fst set_pd_lst
  pc_stack pc_last_sexp pc_val pc_val_allocated pc_val_used pc_vcur pc_lastPos
  pc_sbuffer pc_depth pc_qdepth pc_state pc_esc pc_squoted pc_error pc_mode
  pc_binexpected pc_binread pc_bindata pc_event_handlers
  set_pc_stack set_pc_squoted set_pc_last_sexp set_pc_val set_pc_lastPos set_pc_sbuffer
  set_pc_error set_pc_mode set_pc_bindata set_pc_event_handlers
  iow_cc iow_fd iow_buf iow_cnt set_iow_cc set_iow_cnt
  dict_varname dict_valexp dict_next set_dict_valexp set_dict_next].
