(* ===== verification/CMem.v ===== *)
(** The C memory the library runs on, and the monad its functions are
    written in.

    A heap maps locations to cells; a cell is one allocated object: a
    struct, a block of characters or a global variable.  A computation
    returns a value and a heap, or stops with the undefined behaviour it
    ran into ([Fault]): a NULL or dangling dereference, an access outside a
    block, a read of an indeterminate value, a bad [free], a signed overflow
    or a failed [assert].  [OutOfFuel] is the fault of a loop that exceeds
    its bound; the triples of the development exclude every fault, so they
    also prove termination. *)
From S2P Require Import Prelude SexpTypes.

(** ** Cells and heaps *)

Inductive cell : Type :=
  | CSexp (s : sexp_t)
  | CChars (b : list (fld Z))
  | CLvl (l : stack_lvl_t)
  | CStack (s : faststack_t)
  | CCstring (s : CSTRING)
  | CPd (p : parse_data_t)
  | CPcont (c : pcont_t)
  | CIowrap (w : sexp_iowrap_t)
  | CDict (d : dict_t)
  | CHandlers (h : parser_event_handlers)
  | CRaw                              (* a struct no field of which is set yet *)
  | CErrno (e : sexp_errcode_t)       (* sexp_errno *)
  | CSize (z : Z)                     (* a size_t variable *)
  | CPtr (p : ptr)                    (* a pointer variable *)
  | CAnswers (l : list bool)          (* the answers of the system allocator *)
  | CTrace (l : list event)           (* handler calls, latest first *)
  | CReads (l : list (option (list Z))) (* the results of the next read()s *)
  | CText (s : list Z).               (* what was written to, or is left of, a FILE *)

Abbreviation heap := (gmap positive cell).

(** [A] is the type of the contents of one kind of cell. *)
Class CType (A : Type) := {
  inj : A -> cell;
  prj : cell -> option A;
  prj_inj a : prj (inj a) = Some a
}.
#[export] Hint Mode CType ! : typeclass_instances.

#[export] Instance sexp_ctype : CType sexp_t :=
  {| inj := CSexp;
     prj c := match c with CSexp a => Some a | _ => None end; prj_inj _ := eq_refl |}.
#[export] Instance chars_ctype : CType (list (fld Z)) :=
  {| inj := CChars;
     prj c := match c with CChars a => Some a | _ => None end; prj_inj _ := eq_refl |}.
#[export] Instance lvl_ctype : CType stack_lvl_t :=
  {| inj := CLvl;
     prj c := match c with CLvl a => Some a | _ => None end; prj_inj _ := eq_refl |}.
#[export] Instance stack_ctype : CType faststack_t :=
  {| inj := CStack;
     prj c := match c with CStack a => Some a | _ => None end; prj_inj _ := eq_refl |}.
#[export] Instance cstring_ctype : CType CSTRING :=
  {| inj := CCstring;
     prj c := match c with CCstring a => Some a | _ => None end; prj_inj _ := eq_refl |}.
#[export] Instance pd_ctype : CType parse_data_t :=
  {| inj := CPd;
     prj c := match c with CPd a => Some a | _ => None end; prj_inj _ := eq_refl |}.
#[export] Instance pcont_ctype : CType pcont_t :=
  {| inj := CPcont;
     prj c := match c with CPcont a => Some a | _ => None end; prj_inj _ := eq_refl |}.
#[export] Instance iowrap_ctype : CType sexp_iowrap_t :=
  {| inj := CIowrap;
     prj c := match c with CIowrap a => Some a | _ => None end; prj_inj _ := eq_refl |}.
#[export] Instance dict_ctype : CType dict_t :=
  {| inj := CDict;
     prj c := match c with CDict a => Some a | _ => None end; prj_inj _ := eq_refl |}.
#[export] Instance handlers_ctype : CType parser_event_handlers :=
  {| inj := CHandlers;
     prj c := match c with CHandlers a => Some a | _ => None end; prj_inj _ := eq_refl |}.
#[export] Instance raw_ctype : CType unit :=
  {| inj _ := CRaw; prj c := match c with CRaw => Some () | _ => None end;
     prj_inj a := match a with () => eq_refl end |}.
#[export] Instance errno_ctype : CType sexp_errcode_t :=
  {| inj := CErrno;
     prj c := match c with CErrno a => Some a | _ => None end; prj_inj _ := eq_refl |}.
#[export] Instance size_ctype : CType Z :=
  {| inj := CSize;
     prj c := match c with CSize a => Some a | _ => None end; prj_inj _ := eq_refl |}.
#[export] Instance ptr_ctype : CType ptr :=
  {| inj := CPtr;
     prj c := match c with CPtr a => Some a | _ => None end; prj_inj _ := eq_refl |}.
#[export] Instance answers_ctype : CType (list bool) :=
  {| inj := CAnswers;
     prj c := match c with CAnswers a => Some a | _ => None end; prj_inj _ := eq_refl |}.
#[export] Instance trace_ctype : CType (list event) :=
  {| inj := CTrace;
     prj c := match c with CTrace a => Some a | _ => None end; prj_inj _ := eq_refl |}.
#[export] Instance reads_ctype : CType (list (option (list Z))) :=
  {| inj := CReads;
     prj c := match c with CReads a => Some a | _ => None end; prj_inj _ := eq_refl |}.
#[export] Instance text_ctype : CType (list Z) :=
  {| inj := CText;
     prj c := match c with CText a => Some a | _ => None end; prj_inj _ := eq_refl |}.

(** ** Global variables: fixed locations below every allocated one *)

Definition g_sexp_errno : loc := 1%positive.
Definition g_val_start_size : loc := 2%positive.
Definition g_val_grow_size : loc := 3%positive.
Definition g_pd_cache : loc := 4%positive.
Definition g_sexp_t_cache : loc := 5%positive.
Definition g_cstring_growsize : loc := 6%positive.
Definition g_max_memory : loc := 7%positive.
Definition g_used_memory : loc := 8%positive.
Definition g_answers : loc := 9%positive.
Definition g_trace : loc := 10%positive.
Definition g_reads : loc := 11%positive.
Definition g_stdout : loc := 12%positive.
Definition g_file : loc := 13%positive.

(** ** The monad *)

Inductive fault : Type :=
  | NullDeref
  | BadAccess
  | OutOfBounds
  | Indeterminate
  | BadFree
  | IntOverflow
  | AssertFailed
  | OutOfFuel.

Inductive outcome (A : Type) : Type :=
  | Done (a : A) (h : heap)
  | Fault (f : fault).
Arguments Done {A} a h.
Arguments Fault {A} f.

Definition M (A : Type) : Type := heap -> outcome A.

#[export] Instance M_ret : MRet M := fun A a h => Done a h.
#[export] Instance M_bind : MBind M := fun A B k m h =>
  match m h with
  | Done a h' => k a h'
  | Fault f => Fault f
  end.

Definition fail {A} (f : fault) : M A := fun _ => Fault f.

(** ** Primitive operations *)

Definition max_loc (h : heap) : loc := map_fold (fun l _ m => Pos.max l m) 1%positive h.
Definition fresh_loc (h : heap) : loc := Pos.max 64 (Pos.succ (max_loc h)).

Definition alloc `{CType A} (a : A) : M loc := fun h =>
  let l := fresh_loc h in Done l (<[l := inj a]> h).

Definition load `{CType A} (p : ptr) : M A := fun h =>
  match p with
  | None => Fault NullDeref
  | Some l =>
      match h !! l ≫= prj with
      | Some a => Done a h
      | None => Fault BadAccess
      end
  end.

(** Overwrites a cell of the same type. *)
Definition store `{CType A} (p : ptr) (a : A) : M unit := fun h =>
  match p with
  | None => Fault NullDeref
  | Some l =>
      match (h !! l ≫= prj) : option A with
      | Some _ => Done () (<[l := inj a]> h)
      | None => Fault BadAccess
      end
  end.

(** Gives its first contents to a struct that was just allocated. *)
Definition init `{CType A} (p : ptr) (a : A) : M unit := fun h =>
  match p with
  | None => Fault NullDeref
  | Some l =>
      match h !! l with
      | Some CRaw => Done () (<[l := inj a]> h)
      | _ => Fault BadAccess
      end
  end.

Definition modify `{CType A} (p : ptr) (f : A -> A) : M unit :=
  a ← load p; store p (f a).

(** [free]; the program frees structs and blocks only by their base. *)
Definition dealloc (p : ptr) : M unit := fun h =>
  match p with
  | None => Done () h
  | Some l =>
      match h !! l with
      | Some _ => Done () (delete l h)
      | None => Fault BadFree
      end
  end.

(** Reads a value that must not be indeterminate. *)
Definition det {A} (x : fld A) : M A :=
  match x with
  | Det a => mret a
  | Indet => fail Indeterminate
  end.

(** Characters of a block through a cursor. *)
Definition load_char (t : cptr) : M Z :=
  match t with
  | None => fail NullDeref
  | Some (l, i) =>
      b ← load (A := list (fld Z)) (Some l);
      match blk_get b i with
      | Some c => det c
      | None => fail OutOfBounds
      end
  end.

Definition store_char (t : cptr) (c : Z) : M unit :=
  match t with
  | None => fail NullDeref
  | Some (l, i) =>
      b ← load (Some l);
      match blk_set i (Det c) b with
      | Some b' => store (Some l) b'
      | None => fail OutOfBounds
      end
  end.

(** [i++] on an [int]. *)
Definition int_incr (i : Z) : M Z :=
  if i =? int_max then fail IntOverflow else mret (i + 1).

(** Global variables. *)
Definition gget `{CType A} (v : loc) : M A := load (Some v).
Definition gset_ `{CType A} (v : loc) (a : A) : M unit := store (Some v) a.

Definition set_errno (e : sexp_errcode_t) : M unit := gset_ g_sexp_errno e.

Definition emit (e : event) : M unit :=
  tr ← gget (A := list event) g_trace; gset_ g_trace (e :: tr).

(** A bounded [while]: the state is returned by the body, [None] leaves the
    loop. *)
Fixpoint while {A} (fuel : nat) (body : A -> M (A + A)) (a : A) : M A :=
  match fuel with
  | O => fail OutOfFuel
  | S n =>
      r ← body a;
      match r with
      | inl a' => while n body a'
      | inr a' => mret a'
      end
  end.

(** The number of cells bounds a walk along distinct cells. *)
Definition heap_fuel : M nat := fun h => Done (S (size h)) h.

(** Runs from a heap; used by the examples. *)
Definition result {A} (o : outcome A) : option A :=
  match o with Done a _ => Some a | Fault _ => None end.
Definition final {A} (o : outcome A) : heap :=
  match o with Done _ h => h | Fault _ => ∅ end.

#[global] Arguments load_char : simpl never.
#[global] Arguments store_char : simpl never.
#[global] Arguments det : simpl never.
#[global] Arguments modify : simpl never.
#[global] Arguments int_incr : simpl never.

(** An early [return r] in the middle of a function is [inl r]; [x ←? m; k]
    goes on with [k] only when [m] did not return. *)
Definition early_bind {R A B} (m : M (R + A)) (k : A -> M (R + B)) : M (R + B) :=
  r ← m; match r with inl e => mret (inl e) | inr a => k a end.
Notation "x ←? m ; k" := (early_bind m (fun x => k))
  (at level 20, m at level 100, k at level 200, right associativity) : sfsexp_scope.
#[global] Arguments early_bind : simpl never.
