(* ===== verification/SepLogic.v ===== *)
(** A separation logic over the heaps of [CMem].

    Assertions are predicates on heaps; [P ∗ Q] splits the heap.  The logic
    is linear: [emp] is the empty heap, so a triple whose postcondition does
    not mention a cell shows that the cell was freed.  [wp m Φ] says that
    [m] runs to completion from any heap that contains the owned part,
    without a fault, and leaves the rest of the heap alone. *)
From iris.bi Require Export bi.
From iris.proofmode Require Export proofmode.
From S2P Require Import Prelude SexpTypes CMem.

(** ** The assertions form a BI *)

Record hprop : Type := HProp { hholds :> heap -> Prop }.
Add Printing Constructor hprop.

Section hprop_ofe.
Record hequiv (P Q : hprop) : Prop := { hequiv_at h : P h <-> Q h }.
#[local] Instance hprop_equiv : Equiv hprop := hequiv.
#[local] Instance hprop_equivalence : Equivalence (≡@{hprop}).
Proof.
  split.
  - intros P. split. done.
  - intros P Q [H]. split. intros h. by rewrite H.
  - intros P Q R [H1] [H2]. split. intros h. by rewrite H1 H2.
Qed.
Canonical Structure hpropO : ofe := discreteO hprop.
End hprop_ofe.

Record hentails (P Q : hprop) : Prop := HEntails { hentails_at h : P h -> Q h }.

Definition hemp : hprop := HProp (fun h => h = ∅).
Definition hpure (φ : Prop) : hprop := HProp (fun _ => φ).
Definition hand (P Q : hprop) : hprop := HProp (fun h => P h /\ Q h).
Definition hor (P Q : hprop) : hprop := HProp (fun h => P h \/ Q h).
Definition himpl (P Q : hprop) : hprop := HProp (fun h => P h -> Q h).
Definition hforall A (Ψ : A -> hprop) : hprop := HProp (fun h => forall a, Ψ a h).
Definition hexist A (Ψ : A -> hprop) : hprop := HProp (fun h => exists a, Ψ a h).
Definition hsep (P Q : hprop) : hprop :=
  HProp (fun h => exists h1 h2, h = h1 ∪ h2 /\ h1 ##ₘ h2 /\ P h1 /\ Q h2).
Definition hwand (P Q : hprop) : hprop :=
  HProp (fun h => forall h', h ##ₘ h' -> P h' -> Q (h ∪ h')).
Definition hpersistently (P : hprop) : hprop := hpure (hentails hemp P).
Definition hlater (P : hprop) : hprop := P.

#[local] Ltac unfold_hprop :=
  unfold hemp, hpure, hand, hor, himpl, hforall, hexist, hsep, hwand in *; simpl in *.

Lemma hprop_bi_mixin :
  BiMixin hentails hemp hpure hand hor himpl hforall hexist hsep hwand.
Proof.
  split.
  - split; [by intros P; split|]. intros P Q R [H1] [H2]. split. auto.
  - intros P Q. split.
    + intros [H]. split; split; intros h; apply H.
    + intros [[H1] [H2]]. split. intros h. split; auto.
  - intros n φ ψ H. split. intros h. apply H.
  - intros n P P' [HP] Q Q' [HQ]. split. intros h. unfold_hprop. by rewrite HP HQ.
  - intros n P P' [HP] Q Q' [HQ]. split. intros h. unfold_hprop. by rewrite HP HQ.
  - intros n P P' [HP] Q Q' [HQ]. split. intros h. unfold_hprop. by rewrite HP HQ.
  - intros A n Ψ Ψ' H. split. intros h. unfold_hprop.
    split; intros HΨ a; apply (H a), HΨ.
  - intros A n Ψ Ψ' H. split. intros h. unfold_hprop.
    split; intros [a Ha]; exists a; apply (H a), Ha.
  - intros n P P' [HP] Q Q' [HQ]. split. intros h. unfold_hprop.
    by setoid_rewrite HP; setoid_rewrite HQ.
  - intros n P P' [HP] Q Q' [HQ]. split. intros h. unfold_hprop.
    by setoid_rewrite HP; setoid_rewrite HQ.
  - intros φ P H. by split.
  - intros φ P H. split. intros h Hφ. by apply (hentails_at _ _ (H Hφ) h).
  - intros P Q. split. by intros h [??].
  - intros P Q. split. by intros h [??].
  - intros P Q R [H1] [H2]. split. intros h ?. split; auto.
  - intros P Q. split. by left.
  - intros P Q. split. by right.
  - intros P Q R [H1] [H2]. split. intros h [?|?]; auto.
  - intros P Q R [H]. split. intros h ??. by apply H.
  - intros P Q R [H]. split. intros h [??]. by apply H.
  - intros A P Ψ H. split. intros h ? a. by apply (hentails_at _ _ (H a)).
  - intros A Ψ a. split. intros h H. apply H.
  - intros A Ψ a. split. intros h H. by exists a.
  - intros A Φ Q H. split. intros h [a Ha]. by apply (hentails_at _ _ (H a)).
  - intros P P' Q Q' [HP] [HQ]. split. intros h (h1&h2&->&?&?&?).
    exists h1, h2. auto.
  - intros P. split. intros h ?. exists ∅, h. unfold_hprop. split_and!; try done.
    + by rewrite left_id_L.
    + apply map_disjoint_empty_l.
  - intros P. split. intros h (h1&h2&->&?&->&?). by rewrite left_id_L.
  - intros P Q. split. intros h (h1&h2&->&?&?&?). exists h2, h1.
    split_and!; try done. by apply map_union_comm.
  - intros P Q R. split. intros h (h1&h2&->&Hd&(h3&h4&->&?&?&?)&?).
    apply map_disjoint_union_l in Hd as [??]. exists h3, (h4 ∪ h2).
    split_and!; try done.
    + by rewrite assoc_L.
    + by apply map_disjoint_union_r.
    + by exists h4, h2.
  - intros P Q R [H]. split. intros h ? h' ??. apply H. by exists h, h'.
  - intros P Q R [H]. split. intros h (h1&h2&->&?&?&?). by apply H.
Qed.

Lemma hprop_persistently_mixin :
  BiPersistentlyMixin hentails hemp hand hexist hsep hpersistently.
Proof.
  eapply bi_persistently_mixin_discrete, hprop_bi_mixin; [done| |done].
  intros A Φ [H]. destruct (H ∅ eq_refl) as [a Ha].
  exists a. split. by intros h ->.
Qed.

Lemma hprop_later_mixin :
  BiLaterMixin hentails hpure hor himpl hforall hexist hsep hpersistently hlater.
Proof. eapply bi_later_mixin_id; [done|apply hprop_bi_mixin]. Qed.

Canonical Structure hpropI : bi :=
  {| bi_ofe_mixin := ofe_mixin_of hprop;
     bi_bi_mixin := hprop_bi_mixin;
     bi_bi_persistently_mixin := hprop_persistently_mixin;
     bi_bi_later_mixin := hprop_later_mixin |}.

#[export] Instance hprop_pure_forall : BiPureForall hpropI.
Proof. intros A φ. by split. Qed.

(** A pure fact that owns nothing. *)
Notation "⌈ φ ⌉" := (bi_affinely (bi_pure φ%type%stdpp))
  (at level 0, φ at level 200, format "⌈ φ ⌉") : bi_scope.

(** ** Points-to *)

Definition points_to `{CType A} (l : loc) (a : A) : hprop :=
  HProp (fun h => h = {[l := inj a]}).
Notation "l ↦ a" := (points_to l a) (at level 20, format "l  ↦  a") : bi_scope.

Lemma points_to_excl `{CType A, CType B} l (a : A) (b : B) : l ↦ a ∗ l ↦ b ⊢ False.
Proof.
  split. intros h (h1&h2&->&Hd&->&->). exfalso. rewrite map_disjoint_spec in Hd.
  eapply (Hd l); apply lookup_singleton_eq.
Qed.

(** ** Weakest preconditions *)

Definition wp {A} (m : M A) (Φ : A -> hprop) : hprop :=
  HProp (fun h => forall hf, h ##ₘ hf ->
    match m (h ∪ hf) with
    | Done a h2 => exists h', h2 = h' ∪ hf /\ h' ##ₘ hf /\ Φ a h'
    | Fault _ => False
    end).

(** Total-correctness triples. *)
Notation "⦃ P ⦄ m ⟪ x , Q ⟫" := (bi_entails P%I (wp m (fun x => Q%I)))
  (at level 0, m at level 200, x name, Q at level 200, P at level 200,
   format "⦃  P  ⦄  m  ⟪  x ,  Q  ⟫") : sfsexp_scope.

(** Running a computation whose precondition holds. *)
Lemma wp_adequate {A} (m : M A) Φ P h :
  (P ⊢ wp m Φ) -> P h -> exists a h', m h = Done a h' /\ Φ a h'.
Proof.
  intros [Hwp] HP. specialize (Hwp h HP ∅ (map_disjoint_empty_r _)).
  rewrite right_id_L in Hwp. destruct (m h) as [a h2|]; [|done].
  destruct Hwp as (h'&->&_&HΦ). rewrite right_id_L. eauto.
Qed.

Lemma wp_ret {A} (a : A) Φ : Φ a ⊢ wp (mret a) Φ.
Proof. split. intros h HΦ hf ?. simpl. eauto. Qed.

Lemma wp_bind {A B} (m : M A) (k : A -> M B) Φ :
  wp m (fun a => wp (k a) Φ) ⊢ wp (m ≫= k) Φ.
Proof.
  split. intros h Hm hf Hd. specialize (Hm hf Hd). unfold mbind, M_bind.
  destruct (m (h ∪ hf)); [|done]. destruct Hm as (h'&->&?&Hk). by apply Hk.
Qed.

Lemma wp_frame_wand {A} (m : M A) Φ Ψ :
  wp m Φ -∗ (∀ a, Φ a -∗ Ψ a) -∗ wp m Ψ.
Proof.
  apply bi.entails_wand, bi.wand_intro_r. split.
  intros h (h1&h2&->&Hd&Hm&HΨ) hf Hf.
  apply map_disjoint_union_l in Hf as [??].
  specialize (Hm (h2 ∪ hf)). rewrite assoc_L in Hm.
  destruct (m (h1 ∪ h2 ∪ hf)).
  - destruct Hm as (h'&->&?&HΦ); [by apply map_disjoint_union_r|].
    assert (h' ##ₘ h2 /\ h' ##ₘ hf) as [??] by (by apply map_disjoint_union_r).
    exists (h' ∪ h2). split_and!.
    + by rewrite assoc_L.
    + by apply map_disjoint_union_l.
    + rewrite map_union_comm; [|done]. by apply (HΨ a).
  - apply Hm. by apply map_disjoint_union_r.
Qed.

Lemma wp_mono {A} (m : M A) Φ Ψ : (forall a, Φ a ⊢ Ψ a) -> wp m Φ ⊢ wp m Ψ.
Proof.
  intros H. iIntros "Hm". iApply (wp_frame_wand with "Hm").
  iIntros (a). iApply H.
Qed.

(** ** Rules of the primitive operations *)

Section rules.
Context `{CType A}.
Implicit Types (l : loc) (a : A).

Lemma max_loc_bound h l c : h !! l = Some c -> (l <= max_loc h)%positive.
Proof.
  unfold max_loc. revert l c. generalize 1%positive. intros p.
  apply (map_fold_weak_ind (fun m h =>
    forall l c, h !! l = Some c -> (l <= m)%positive)); [done|].
  intros i x m r _ IH l c. rewrite lookup_insert. case_decide; [lia|].
  intros Hl. apply IH in Hl. lia.
Qed.

Lemma fresh_loc_fresh h : h !! fresh_loc h = None.
Proof.
  destruct (h !! fresh_loc h) eqn:E; [|done].
  apply max_loc_bound in E. unfold fresh_loc in E. lia.
Qed.

Lemma wp_alloc a Φ : (∀ l, l ↦ a -∗ Φ l) ⊢ wp (alloc a) Φ.
Proof.
  split. intros h HΦ hf Hd. unfold alloc. set (l := fresh_loc (h ∪ hf)).
  destruct (lookup_union_None h hf l) as [[Hh Hhf] _];
    [apply fresh_loc_fresh|].
  exists (h ∪ {[l := inj a]}). split_and!.
  - rewrite insert_union_singleton_l.
    rewrite (map_union_comm h {[l := inj a]}) ?assoc_L //.
    by apply map_disjoint_singleton_r.
  - apply map_disjoint_union_l. split; [done|]. by apply map_disjoint_singleton_l.
  - apply (HΦ l); [|done]. by apply map_disjoint_singleton_r.
Qed.

Lemma wp_load l a Φ : l ↦ a -∗ (l ↦ a -∗ Φ a) -∗ wp (load (Some l)) Φ.
Proof.
  apply bi.entails_wand, bi.wand_intro_r. split.
  intros h (h1&h2&->&Hd&->&HΦ) hf Hf. unfold load.
  rewrite -assoc_L lookup_union_l'; [|by rewrite lookup_singleton_eq].
  rewrite lookup_singleton_eq /= prj_inj.
  exists ({[l := inj a]} ∪ h2). split_and!; [by rewrite assoc_L|done|].
  rewrite map_union_comm; [|done]. by apply HΦ.
Qed.

Lemma insert_singleton_union l (c c' : cell) (h : heap) :
  <[l := c']> ({[l := c]} ∪ h) = {[l := c']} ∪ h.
Proof. by rewrite insert_union_l insert_singleton_eq. Qed.

Lemma wp_store l a a' Φ : l ↦ a -∗ (l ↦ a' -∗ Φ ()) -∗ wp (store (Some l) a') Φ.
Proof.
  apply bi.entails_wand, bi.wand_intro_r. split.
  intros h (h1&h2&->&Hd&->&HΦ) hf Hf. unfold store.
  rewrite -assoc_L lookup_union_l'; [|by rewrite lookup_singleton_eq].
  rewrite lookup_singleton_eq /= prj_inj insert_singleton_union.
  apply map_disjoint_union_l in Hf as [Hf1 Hf2].
  apply map_disjoint_singleton_l in Hd, Hf1.
  exists ({[l := inj a']} ∪ h2). split_and!.
  - by rewrite assoc_L.
  - apply map_disjoint_union_l. split; [|done]. by apply map_disjoint_singleton_l.
  - rewrite map_union_comm; [|by apply map_disjoint_singleton_l].
    apply HΦ; [|done]. by apply map_disjoint_singleton_r.
Qed.

Lemma wp_init l a Φ : l ↦ () -∗ (l ↦ a -∗ Φ ()) -∗ wp (init (Some l) a) Φ.
Proof.
  apply bi.entails_wand, bi.wand_intro_r. split.
  intros h (h1&h2&->&Hd&->&HΦ) hf Hf. unfold init.
  rewrite -assoc_L lookup_union_l'; [|by rewrite lookup_singleton_eq].
  rewrite lookup_singleton_eq /= insert_singleton_union.
  apply map_disjoint_union_l in Hf as [Hf1 Hf2].
  apply map_disjoint_singleton_l in Hd, Hf1.
  exists ({[l := inj a]} ∪ h2). split_and!.
  - by rewrite assoc_L.
  - apply map_disjoint_union_l. split; [|done]. by apply map_disjoint_singleton_l.
  - rewrite map_union_comm; [|by apply map_disjoint_singleton_l].
    apply HΦ; [|done]. by apply map_disjoint_singleton_r.
Qed.

Lemma wp_dealloc l a Φ : l ↦ a -∗ Φ () -∗ wp (dealloc (Some l)) Φ.
Proof.
  apply bi.entails_wand, bi.wand_intro_r. split.
  intros h (h1&h2&->&Hd&->&HΦ) hf Hf. unfold dealloc.
  rewrite -assoc_L lookup_union_l'; [|by rewrite lookup_singleton_eq].
  rewrite lookup_singleton_eq.
  apply map_disjoint_union_l in Hf as [Hf1 Hf2].
  apply map_disjoint_singleton_l in Hd, Hf1.
  exists h2. split_and!; [|done..].
  rewrite delete_union delete_singleton_eq left_id_L.
  rewrite delete_id //. by apply lookup_union_None.
Qed.
End rules.

(** ** Derived rules *)

Lemma wp_modify `{CType A} l (a : A) f Φ :
  l ↦ a -∗ (l ↦ f a -∗ Φ ()) -∗ wp (modify (Some l) f) Φ.
Proof.
  iIntros "Hl HΦ". iApply wp_bind. iApply (wp_load with "Hl"). iIntros "Hl".
  iApply (wp_store with "Hl HΦ").
Qed.

Lemma wp_det {A} (a : A) Φ : Φ a ⊢ wp (det (Det a)) Φ.
Proof. apply wp_ret. Qed.

Lemma wp_int_incr i Φ : i < int_max -> Φ (i + 1) ⊢ wp (int_incr i) Φ.
Proof.
  intros ?. unfold int_incr. destruct (Z.eqb_spec i int_max); [lia|]. apply wp_ret.
Qed.

Lemma wp_load_char l b i c Φ :
  blk_get b i = Some (Det c) ->
  l ↦ b -∗ (l ↦ b -∗ Φ c) -∗ wp (load_char (Some (l, i))) Φ.
Proof.
  iIntros (Hi) "Hl HΦ". iApply wp_bind. iApply (wp_load with "Hl"). iIntros "Hl".
  rewrite Hi. iApply wp_det. by iApply "HΦ".
Qed.

Lemma wp_store_char l b b' i c Φ :
  blk_set i (Det c) b = Some b' ->
  l ↦ b -∗ (l ↦ b' -∗ Φ ()) -∗ wp (store_char (Some (l, i)) c) Φ.
Proof.
  iIntros (Hi) "Hl HΦ". iApply wp_bind. iApply (wp_load with "Hl"). iIntros "Hl".
  rewrite Hi. iApply (wp_store with "Hl HΦ").
Qed.

Lemma wp_gget `{CType A} v (a : A) Φ : v ↦ a -∗ (v ↦ a -∗ Φ a) -∗ wp (gget v) Φ.
Proof. apply wp_load. Qed.

Lemma wp_gset `{CType A} v (a a' : A) Φ : v ↦ a -∗ (v ↦ a' -∗ Φ ()) -∗ wp (gset_ v a') Φ.
Proof. apply wp_store. Qed.

(** Assignment to [sexp_errno], whatever its value was. *)
Definition errno_own : hprop := (∃ e : sexp_errcode_t, g_sexp_errno ↦ e)%I.

Lemma wp_set_errno e Φ :
  errno_own -∗ (g_sexp_errno ↦ e -∗ Φ ()) -∗ wp (set_errno e) Φ.
Proof. iIntros "[%e' He] HΦ". iApply (wp_gset with "He HΦ"). Qed.

Lemma wp_emit e (tr : list event) Φ :
  g_trace ↦ tr -∗ (g_trace ↦ (e :: tr) -∗ Φ ()) -∗ wp (emit e) Φ.
Proof.
  iIntros "Ht HΦ". iApply wp_bind. iApply (wp_gget with "Ht"). iIntros "Ht".
  iApply (wp_gset with "Ht HΦ").
Qed.

(** Early returns. *)
Lemma wp_early {R A B} (m : M (R + A)) (k : A -> M (R + B)) Φ :
  wp m (fun r => match r with inl e => Φ (inl e) | inr a => wp (k a) Φ end) ⊢
  wp (x ←? m; k x) Φ.
Proof.
  iIntros "H". unfold early_bind. iApply wp_bind. iApply (wp_frame_wand with "H").
  iIntros ([e|a]) "H"; [by iApply wp_ret|done].
Qed.

(** Owning at least [n] cells; it bounds the fuel of a walk. *)
Definition cells (n : nat) : hprop := HProp (fun h => (n <= size h)%nat).

Lemma cells_points_to `{CType A} l (a : A) : l ↦ a ⊢ cells 1.
Proof. split. intros h ->. simpl. by rewrite map_size_singleton. Qed.

Lemma cells_sep n m : cells n ∗ cells m ⊢ cells (n + m).
Proof.
  split. intros h (h1&h2&->&?&H1&H2). simpl in *.
  rewrite map_size_disj_union //. lia.
Qed.

Lemma cells_le n m : (m <= n)%nat -> cells n ⊢ cells m.
Proof. intros ?. split. intros h Hn. simpl in *. lia. Qed.

Lemma cells_any P : P ⊢ cells 0.
Proof. split. intros h _. simpl. lia. Qed.

Lemma cells_big_sepL2 `{CType A} {B} (f : nat -> B -> A) (ls : list loc) (xs : list B) :
  ([∗ list] i ↦ l;x ∈ ls;xs, l ↦ f i x) ⊢ cells (length ls).
Proof.
  revert xs f. induction ls as [|l ls IH]; intros [|x xs] f; simpl.
  - apply cells_any.
  - apply bi.False_elim.
  - apply bi.False_elim.
  - rewrite (IH xs (fun i => f (S i))) cells_points_to cells_sep. by apply cells_le.
Qed.

Lemma wp_heap_fuel n P Φ :
  (P ⊢ cells n) -> P -∗ (∀ f, ⌈(n < f)%nat⌉ -∗ P -∗ Φ f) -∗ wp heap_fuel Φ.
Proof.
  intros [Hn]. apply bi.entails_wand, bi.wand_intro_r. split.
  intros h (h1&h2&->&Hd&HP&HΦ) hf Hf. unfold heap_fuel.
  exists (h1 ∪ h2). split_and!; [done..|].
  specialize (Hn _ HP). simpl in Hn.
  assert (n < S (size (h1 ∪ h2 ∪ hf)))%nat as Hlt
    by (rewrite !map_size_disj_union //; lia).
  revert Hlt. generalize (S (size (h1 ∪ h2 ∪ hf))). intros f Hlt.
  specialize (HΦ f ∅). rewrite right_id_L in HΦ.
  rewrite map_union_comm; [|done].
  apply HΦ; [apply map_disjoint_empty_r|by split|done|done].
Qed.

(** ** Tactics

    [wp_pures] reduces the head of the program; [wp_load], [wp_store] ...
    execute one primitive at the head, framing the cell it needs. *)

Ltac wp_bind_head :=
  lazymatch goal with
  | |- environments.envs_entails _ (wp (_ ≫= _) _) => iApply wp_bind; wp_bind_head
  | _ => idtac
  end.
Ltac wp_ret := wp_bind_head; iApply wp_ret; fields.
Ltac wp_det := wp_bind_head; iApply wp_det; fields.
Ltac wp_head tac :=
  wp_bind_head;
  lazymatch goal with |- environments.envs_entails _ (wp ?m _) => tac m end.
Ltac wp_get := iIntros "?"; fields.
Tactic Notation "wp_load" := wp_head ltac:(fun m =>
  lazymatch m with load (Some ?l) => iApply (wp_load l with "[$]"); wp_get end).
Tactic Notation "wp_gget" := wp_head ltac:(fun m =>
  lazymatch m with gget ?l => iApply (wp_gget l with "[$]"); wp_get end).
Tactic Notation "wp_gset" := wp_head ltac:(fun m =>
  lazymatch m with gset_ ?l ?a => iApply (wp_gset l _ a with "[$]"); wp_get end).
Tactic Notation "wp_store" := wp_head ltac:(fun m =>
  lazymatch m with store (Some ?l) ?a => iApply (wp_store l _ a with "[$]"); wp_get end).
Tactic Notation "wp_init" := wp_head ltac:(fun m =>
  lazymatch m with init (Some ?l) ?a => iApply (wp_init l a with "[$]"); wp_get end).
Tactic Notation "wp_modify" := wp_head ltac:(fun m =>
  lazymatch m with modify (Some ?l) ?f => iApply (wp_modify l _ f with "[$]"); wp_get end).
Tactic Notation "wp_free" := wp_head ltac:(fun m =>
  lazymatch m with
  | dealloc (Some ?l) => iApply (wp_dealloc l with "[$]"); fields end).
Tactic Notation "wp_alloc" ident(l) "as" constr(H) :=
  wp_bind_head; iApply wp_alloc; iIntros (l) H; fields.
Tactic Notation "wp_set_errno" :=
  wp_bind_head; iApply (wp_set_errno with "[$]"); wp_get.
Tactic Notation "wp_emit" :=
  wp_bind_head; iApply (wp_emit with "[$]"); wp_get.

#[global] Open Scope Z_scope.

(** ** Concrete heaps

    [cells_at cs] owns exactly the cells of [cs]; it holds of the heap made
    of them. *)
Definition cell_at (c : loc * cell) : hprop := HProp (fun h => h = {[c.1 := c.2]}).
Definition cells_at (cs : list (loc * cell)) : hprop := ([∗ list] c ∈ cs, cell_at c)%I.
Definition heap_of (cs : list (loc * cell)) : heap := list_to_map cs.

Lemma heap_of_cells cs : NoDup cs.*1 -> cells_at cs (heap_of cs).
Proof.
  unfold cells_at, heap_of. induction cs as [|[l c] cs IH]; simpl; [done|].
  intros [Hl Hnd]%NoDup_cons. exists {[l := c]}, (list_to_map cs).
  rewrite -insert_union_singleton_l. split_and!; [done| |done|by apply IH].
  apply map_disjoint_singleton_l. by apply not_elem_of_list_to_map.
Qed.

Lemma cell_at_points_to `{CType A} l (a : A) : cell_at (l, inj a) = (l ↦ a)%I.
Proof. done. Qed.

(** A triple at a concrete heap: the program runs to its postcondition. *)
Lemma run_triple {A} (m : M A) P Φ cs :
  (P ⊢ wp m Φ) -> NoDup cs.*1 -> (cells_at cs ⊢ P) ->
  exists a h, m (heap_of cs) = Done a h /\ Φ a h.
Proof.
  intros Hm Hnd [HP]. apply (wp_adequate m Φ P); [done|]. by apply HP, heap_of_cells.
Qed.

(** The same with cells that the program does not touch. *)
Lemma run_frame {A} (m : M A) P R Φ cs :
  (P ⊢ wp m Φ) -> NoDup cs.*1 -> (cells_at cs ⊢ P ∗ R) ->
  exists a h, m (heap_of cs) = Done a h /\ (Φ a ∗ R)%I h.
Proof.
  intros Hm. apply (run_triple m (P ∗ R)%I (fun a => (Φ a ∗ R)%I)).
  iIntros "[HP HR]". iApply (wp_frame_wand with "[HP]"); [by iApply Hm|].
  iIntros (a) "HΦ". iFrame.
Qed.
