(* ===== verification/SexpMemory.v ===== *)
(** Memory management of [src/src/sexp_memory.c] and [sexp_memory.h].

    The library allocates through [sexp_malloc], [sexp_calloc],
    [sexp_realloc] and [sexp_free].  In the default build these are the
    system's functions; with [_SEXP_LIMIT_MEMORY_] they keep a counter and
    refuse a request above the limit.  [MemApi] is the interface the rest of
    the library is written against, with one instance per build. *)
From S2P Require Import Prelude SexpTypes CMem SepLogic.

(** Does the system's allocator answer with memory?  The answers are an
    arbitrary list in [g_answers]; after them it always does. *)
Definition sys_answer : M bool :=
  l ← gget (A := list bool) g_answers;
  match l with
  | [] => mret true
  | b :: l' => gset_ g_answers l';; mret b
  end.

(** ** The limited-memory build *)
Module Limit.
Definition get_sexp_max_memory : M Z := gget g_max_memory.
Definition get_sexp_used_memory : M Z := gget g_used_memory.

Definition set_sexp_max_memory (newsize : Z) : M Z :=
  used ← gget g_used_memory;
  if 0 <? newsize then
    if newsize <? used then
      set_errno SEXP_ERR_BAD_PARAM;; mret (-1)
    else
      gset_ g_max_memory newsize;; mret (int_of_size newsize)
  else
    set_errno SEXP_ERR_BAD_PARAM;; mret (-1).

(** [sexp_malloc] up to the block it returns: is there memory? *)
Definition sexp_malloc (size : Z) : M bool :=
  used ← gget g_used_memory;
  max ← gget g_max_memory;
  if max <? u64 (used + size) then
    set_errno SEXP_ERR_MEM_LIMIT;; mret false
  else
    ok ← sys_answer;
    (if ok : bool then gset_ g_used_memory (u64 (used + size)) else mret ());;
    mret ok.

Definition sexp_calloc (count size : Z) : M bool :=
  used ← gget g_used_memory;
  max ← gget g_max_memory;
  if max <? u64 (used + u64 (size * count)) then
    set_errno SEXP_ERR_MEM_LIMIT;; mret false
  else
    ok ← sys_answer;
    (if ok : bool then gset_ g_used_memory (u64 (used + u64 (size * count))) else mret ());;
    mret ok.

(** The accounting of [sexp_free]; the message to [stderr] is not
    modelled. *)
Definition sexp_free (size : Z) : M unit :=
  used ← gget g_used_memory;
  if used <? size then mret ()
  else gset_ g_used_memory (u64 (used - size)).

Definition sexp_realloc (size oldsize : Z) : M bool :=
  used ← gget g_used_memory;
  max ← gget g_max_memory;
  if max <? u64 (used + u64 (size - oldsize)) then
    set_errno SEXP_ERR_MEM_LIMIT;; mret false
  else
    ok ← sys_answer;
    (if ok : bool then gset_ g_used_memory (u64 (used + u64 (size - oldsize))) else mret ());;
    mret ok.
End Limit.

(** ** The interface *)

Class MemApi := {
  mem_malloc : Z -> M bool;
  mem_calloc : Z -> Z -> M bool;
  mem_free : Z -> M unit;
  mem_realloc : Z -> Z -> M bool
}.

(** The default build: the macros of sexp_memory.h. *)
Definition default_mem : MemApi := {|
  mem_malloc _ := sys_answer;
  mem_calloc _ _ := sys_answer;
  mem_free _ := mret ();
  mem_realloc _ _ := sys_answer
|}.

(** The build with [_SEXP_LIMIT_MEMORY_]. *)
Definition limit_mem : MemApi := {|
  mem_malloc := Limit.sexp_malloc;
  mem_calloc := Limit.sexp_calloc;
  mem_free := Limit.sexp_free;
  mem_realloc := Limit.sexp_realloc
|}.

(** ** Laws of the interface

    [mem_ok] is a state of the allocator in which every request is
    granted, [mem_own] any state at all. *)
Class MemLaws (api : MemApi) := {
  mem_ok : hprop;
  mem_own : hprop;
  mem_ok_own : mem_ok ⊢ mem_own;
  wp_mem_malloc_ok n Φ : mem_ok -∗ (mem_ok -∗ Φ true) -∗ wp (mem_malloc n) Φ;
  wp_mem_calloc_ok n m Φ : mem_ok -∗ (mem_ok -∗ Φ true) -∗ wp (mem_calloc n m) Φ;
  wp_mem_free_ok n Φ : mem_ok -∗ (mem_ok -∗ Φ ()) -∗ wp (mem_free n) Φ;
  wp_mem_realloc_ok n m Φ : mem_ok -∗ (mem_ok -∗ Φ true) -∗ wp (mem_realloc n m) Φ;
  wp_mem_malloc n Φ :
    mem_own -∗ errno_own -∗ (∀ b, mem_own ∗ errno_own -∗ Φ b) -∗ wp (mem_malloc n) Φ;
  wp_mem_calloc n m Φ :
    mem_own -∗ errno_own -∗ (∀ b, mem_own ∗ errno_own -∗ Φ b) -∗ wp (mem_calloc n m) Φ;
  wp_mem_free n Φ : mem_own -∗ (mem_own -∗ Φ ()) -∗ wp (mem_free n) Φ;
  wp_mem_realloc n m Φ :
    mem_own -∗ errno_own -∗ (∀ b, mem_own ∗ errno_own -∗ Φ b) -∗ wp (mem_realloc n m) Φ
}.
#[export] Hint Mode MemLaws ! : typeclass_instances.

Lemma wp_sys_answer_ok Φ :
  g_answers ↦ ([] : list bool) -∗ (g_answers ↦ ([] : list bool) -∗ Φ true) -∗
  wp sys_answer Φ.
Proof. iIntros "Ha HΦ". unfold sys_answer. wp_gget. wp_ret. by iApply "HΦ". Qed.

Lemma wp_sys_answer Φ :
  (∃ l : list bool, g_answers ↦ l) -∗
  (∀ b, (∃ l : list bool, g_answers ↦ l) -∗ Φ b) -∗ wp sys_answer Φ.
Proof.
  iIntros "[%l Ha] HΦ". unfold sys_answer. wp_gget. destruct l as [|b l].
  - wp_ret. iApply "HΦ". by iExists [].
  - wp_gset. wp_ret. iApply "HΦ". by iExists l.
Qed.

#[export] Instance default_mem_laws : MemLaws default_mem.
Proof.
  refine {| mem_ok := (g_answers ↦ ([] : list bool))%I;
            mem_own := (∃ l : list bool, g_answers ↦ l)%I |}.
  - iIntros "H". by iExists [].
  - intros n Φ. apply wp_sys_answer_ok.
  - intros n m Φ. apply wp_sys_answer_ok.
  - iIntros (n Φ) "H HΦ". iApply wp_ret. by iApply "HΦ".
  - intros n m Φ. apply wp_sys_answer_ok.
  - iIntros (n Φ) "H He HΦ". iApply (wp_sys_answer with "H"). iIntros (b) "H".
    iApply "HΦ". iFrame.
  - iIntros (n m Φ) "H He HΦ". iApply (wp_sys_answer with "H"). iIntros (b) "H".
    iApply "HΦ". iFrame.
  - iIntros (n Φ) "H HΦ". iApply wp_ret. by iApply "HΦ".
  - iIntros (n m Φ) "H He HΦ". iApply (wp_sys_answer with "H"). iIntros (b) "H".
    iApply "HΦ". iFrame.
Defined.

(** With the limit raised to [SIZE_MAX] the counters refuse nothing. *)
Definition limit_ok : hprop :=
  (g_max_memory ↦ (2 ^ 64 - 1) ∗ (∃ u : Z, g_used_memory ↦ u) ∗
   g_answers ↦ ([] : list bool))%I.
Definition limit_own : hprop :=
  ((∃ m : Z, g_max_memory ↦ m) ∗ (∃ u : Z, g_used_memory ↦ u) ∗
   (∃ l : list bool, g_answers ↦ l))%I.

(** The three allocating functions differ in the amount they charge. *)
Definition limit_request (amount : Z -> Z) : M bool :=
  used ← gget g_used_memory;
  max ← gget g_max_memory;
  if max <? amount used then
    set_errno SEXP_ERR_MEM_LIMIT;; mret false
  else
    ok ← sys_answer;
    (if ok : bool then gset_ g_used_memory (amount used) else mret ());;
    mret ok.

Lemma wp_limit_request_ok amount Φ :
  (forall u, amount u < 2 ^ 64) ->
  limit_ok -∗ (limit_ok -∗ Φ true) -∗ wp (limit_request amount) Φ.
Proof.
  iIntros (Hlt) "(Hm & [%u Hu] & Ha) HΦ". unfold limit_request. wp_gget. wp_gget.
  destruct (Z.ltb_spec (2 ^ 64 - 1) (amount u)); [specialize (Hlt u); lia|].
  iApply wp_bind. iApply (wp_sys_answer_ok with "[$]"). iIntros "?".
  wp_gset. wp_ret. iApply "HΦ". iFrame.
Qed.

Lemma wp_limit_request amount Φ :
  limit_own -∗ errno_own -∗ (∀ b, limit_own ∗ errno_own -∗ Φ b) -∗
  wp (limit_request amount) Φ.
Proof.
  iIntros "([%m Hm] & [%u Hu] & Ha) He HΦ". unfold limit_request. wp_gget. wp_gget.
  case_match.
  - wp_set_errno. wp_ret. iApply "HΦ". unfold limit_own, errno_own. iFrame.
  - iApply wp_bind. iApply (wp_sys_answer with "[$]"). iIntros ([]) "?".
    + wp_gset. wp_ret. iApply "HΦ". unfold limit_own. iFrame.
    + wp_ret. wp_ret. iApply "HΦ". unfold limit_own. iFrame.
Qed.

Lemma wp_limit_free (own : hprop) n Φ :
  (own ⊢ ∃ u : Z, g_used_memory ↦ u ∗ ∀ u' : Z, g_used_memory ↦ u' -∗ own) ->
  own -∗ (own -∗ Φ ()) -∗ wp (Limit.sexp_free n) Φ.
Proof.
  iIntros (Hown) "H HΦ". iDestruct (Hown with "H") as (u) "[Hu Hown]".
  unfold Limit.sexp_free. wp_gget. case_match.
  - wp_ret. iApply "HΦ". by iApply "Hown".
  - iApply (wp_gset with "[$]"). iIntros "?". iApply "HΦ". by iApply "Hown".
Qed.

#[export] Instance limit_mem_laws : MemLaws limit_mem.
Proof.
  assert (forall (f : Z -> Z) u, u64 (f u) < 2 ^ 64) by (intros; apply u64_range).
  refine {| mem_ok := limit_ok; mem_own := limit_own |}.
  - iIntros "(Hm & Hu & Ha)". unfold limit_own. iFrame.
  - intros n Φ. by apply (wp_limit_request_ok (fun u => u64 (u + n))).
  - intros n m Φ. by apply (wp_limit_request_ok (fun u => u64 (u + u64 (m * n)))).
  - intros n Φ. apply wp_limit_free. iIntros "(Hm & [%u $] & Ha)".
    iIntros (u') "?". unfold limit_ok. iFrame.
  - intros n m Φ. by apply (wp_limit_request_ok (fun u => u64 (u + u64 (n - m)))).
  - intros n Φ. apply (wp_limit_request (fun u => u64 (u + n))).
  - intros n m Φ. apply (wp_limit_request (fun u => u64 (u + u64 (m * n)))).
  - intros n Φ. apply wp_limit_free. iIntros "(Hm & [%u $] & Ha)".
    iIntros (u') "?". unfold limit_own. iFrame.
  - intros n m Φ. apply (wp_limit_request (fun u => u64 (u + u64 (n - m)))).
Defined.

(** ** Allocation of structs and of blocks of characters *)

Section alloc.
Context `{api : MemApi}.

(** [sexp_malloc(size)] for an object whose contents are then [a]. *)
Definition sexp_malloc `{CType A} (size : Z) (a : A) : M ptr :=
  ok ← mem_malloc size;
  if ok : bool then l ← alloc a; mret (Some l) else mret None.

Definition sexp_calloc `{CType A} (count size : Z) (a : A) : M ptr :=
  ok ← mem_calloc count size;
  if ok : bool then l ← alloc a; mret (Some l) else mret None.

Definition malloc_chars (size : Z) : M ptr :=
  sexp_malloc size (replicate (Z.to_nat size) (Indet : fld Z)).

Definition calloc_chars (count size : Z) : M ptr :=
  sexp_calloc count size (replicate (Z.to_nat (u64 (count * size))) (Det 0)).

Definition sexp_free (p : ptr) (size : Z) : M unit := mem_free size;; dealloc p.

(** The new block: the old contents up to the new size, then
    indeterminate bytes. *)
Definition resize (n : nat) (b : list (fld Z)) : list (fld Z) :=
  take n b ++ replicate (n - length b) Indet.

(** [sexp_realloc] of a block of characters; on failure the old block
    stays. *)
Definition sexp_realloc (p : ptr) (size oldsize : Z) : M ptr :=
  ok ← mem_realloc size oldsize;
  if ok : bool then
    match p with
    | None => l ← alloc (replicate (Z.to_nat size) (Indet : fld Z)); mret (Some l)
    | Some _ =>
        b ← load p;
        l ← alloc (resize (Z.to_nat size) b);
        dealloc p;;
        mret (Some l)
    end
  else mret None.
End alloc.

(** ** Rules *)

(** The result of an allocation that may fail. *)
Definition own_opt `{CType A} (p : ptr) (a : A) : hprop :=
  match p with Some l => (l ↦ a)%I | None => emp%I end.

Section rules.
Context {api : MemApi} {laws : MemLaws api}.

Lemma wp_malloc_ok `{CType A} n (a : A) Φ :
  mem_ok -∗ (∀ l, l ↦ a -∗ mem_ok -∗ Φ (Some l)) -∗ wp (sexp_malloc n a) Φ.
Proof.
  iIntros "Hm HΦ". iApply wp_bind. iApply (wp_mem_malloc_ok with "Hm"). iIntros "Hm".
  wp_alloc l as "Hl". wp_ret. iApply ("HΦ" with "Hl Hm").
Qed.

Lemma wp_calloc_ok `{CType A} n m (a : A) Φ :
  mem_ok -∗ (∀ l, l ↦ a -∗ mem_ok -∗ Φ (Some l)) -∗ wp (sexp_calloc n m a) Φ.
Proof.
  iIntros "Hm HΦ". iApply wp_bind. iApply (wp_mem_calloc_ok with "Hm"). iIntros "Hm".
  wp_alloc l as "Hl". wp_ret. iApply ("HΦ" with "Hl Hm").
Qed.

Lemma wp_malloc `{CType A} n (a : A) Φ :
  mem_own -∗ errno_own -∗ (∀ p, own_opt p a -∗ mem_own ∗ errno_own -∗ Φ p) -∗
  wp (sexp_malloc n a) Φ.
Proof.
  iIntros "Hm He HΦ". iApply wp_bind. iApply (wp_mem_malloc with "Hm He").
  iIntros ([]) "Hm".
  - wp_alloc l as "Hl". wp_ret. iApply ("HΦ" $! (Some l) with "Hl Hm").
  - wp_ret. by iApply ("HΦ" $! None with "[] Hm").
Qed.

Lemma wp_calloc `{CType A} n m (a : A) Φ :
  mem_own -∗ errno_own -∗ (∀ p, own_opt p a -∗ mem_own ∗ errno_own -∗ Φ p) -∗
  wp (sexp_calloc n m a) Φ.
Proof.
  iIntros "Hm He HΦ". iApply wp_bind. iApply (wp_mem_calloc with "Hm He").
  iIntros ([]) "Hm".
  - wp_alloc l as "Hl". wp_ret. iApply ("HΦ" $! (Some l) with "Hl Hm").
  - wp_ret. by iApply ("HΦ" $! None with "[] Hm").
Qed.

Lemma wp_sexp_free_ok `{CType A} l (a : A) n Φ :
  l ↦ a -∗ mem_ok -∗ (mem_ok -∗ Φ ()) -∗ wp (sexp_free (Some l) n) Φ.
Proof.
  iIntros "Hl Hm HΦ". iApply wp_bind. iApply (wp_mem_free_ok with "Hm"). iIntros "Hm".
  iApply (wp_dealloc with "Hl"). by iApply "HΦ".
Qed.

Lemma wp_sexp_free `{CType A} l (a : A) n Φ :
  l ↦ a -∗ mem_own -∗ (mem_own -∗ Φ ()) -∗ wp (sexp_free (Some l) n) Φ.
Proof.
  iIntros "Hl Hm HΦ". iApply wp_bind. iApply (wp_mem_free with "Hm"). iIntros "Hm".
  iApply (wp_dealloc with "Hl"). by iApply "HΦ".
Qed.

Lemma wp_realloc_ok l (b : list (fld Z)) n m Φ :
  l ↦ b -∗ mem_ok -∗
  (∀ l', l' ↦ resize (Z.to_nat n) b -∗ mem_ok -∗ Φ (Some l')) -∗
  wp (sexp_realloc (Some l) n m) Φ.
Proof.
  iIntros "Hl Hm HΦ". iApply wp_bind. iApply (wp_mem_realloc_ok with "Hm").
  iIntros "Hm". wp_load. wp_alloc l' as "Hl'". wp_free. wp_ret.
  iApply ("HΦ" with "Hl' Hm").
Qed.

(** Reallocation that may fail: the old block is kept when it does. *)
Lemma wp_realloc l (b : list (fld Z)) n m Φ :
  l ↦ b -∗ mem_own -∗ errno_own -∗
  (∀ p, match p with
        | Some l' => l' ↦ resize (Z.to_nat n) b
        | None => l ↦ b
        end -∗ mem_own ∗ errno_own -∗ Φ p) -∗
  wp (sexp_realloc (Some l) n m) Φ.
Proof.
  iIntros "Hl Hm He HΦ". iApply wp_bind. iApply (wp_mem_realloc with "Hm He").
  iIntros ([]) "Hm".
  - wp_load. wp_alloc l' as "Hl'". wp_free. wp_ret. iApply ("HΦ" $! (Some l') with "Hl' Hm").
  - wp_ret. iApply ("HΦ" $! None with "Hl Hm").
Qed.
End rules.

Lemma resize_grow n b :
  (length b <= n)%nat -> resize n b = b ++ replicate (n - length b) Indet.
Proof. intros ?. unfold resize. by rewrite take_ge. Qed.

Lemma resize_length n b : length (resize n b) = n.
Proof. unfold resize. rewrite length_app length_take length_replicate. lia. Qed.

(** [sizeof] of the structs (LP64). *)
Definition sizeof_sexp_t : Z := 72.
Definition sizeof_stack_lvl_t : Z := 24.
Definition sizeof_faststack_t : Z := 24.
Definition sizeof_parse_data_t : Z := 16.
Definition sizeof_pcont_t : Z := 136.
Definition sizeof_CSTRING : Z := 24.
Definition sizeof_sexp_iowrap_t : Z := 8216.

(** ** The limited-memory build keeps its limit *)
Module LimitProps.
Import Limit.

(** The calls a program makes to the allocator. *)
Inductive op : Type :=
  | OMalloc (size : Z)
  | OCalloc (count size : Z)
  | OFree (size : Z)
  | ORealloc (size oldsize : Z)
  | OSetMax (newsize : Z).

(** The arguments are converted to [size_t]. *)
Definition exec (o : op) : M unit :=
  match o with
  | OMalloc n => sexp_malloc (u64 n);; mret ()
  | OCalloc c n => sexp_calloc (u64 c) (u64 n);; mret ()
  | OFree n => sexp_free (u64 n)
  | ORealloc n m => sexp_realloc (u64 n) (u64 m);; mret ()
  | OSetMax n => set_sexp_max_memory (u64 n);; mret ()
  end.

Fixpoint exec_all (os : list op) : M unit :=
  match os with
  | [] => mret ()
  | o :: os => exec o;; exec_all os
  end.

Definition counters (max used : Z) : hprop :=
  (g_max_memory ↦ max ∗ g_used_memory ↦ used)%I.
Definition environment : hprop :=
  ((∃ l : list bool, g_answers ↦ l) ∗ errno_own)%I.
Definition within_limit : hprop :=
  (∃ max used : Z, counters max used ∗ ⌈0 <= used <= max⌉)%I.

#[local] Ltac open_limit := unfold within_limit, environment, counters, errno_own.

(** What each of the three allocating functions does. *)
Lemma wp_request amount max used Φ :
  counters max used -∗ environment -∗
  (∀ ok : bool,
     environment ∗ counters max (if ok then amount used else used) ∗
     ⌈ok = true -> amount used <= max⌉ -∗ Φ ok) -∗
  wp (limit_request amount) Φ.
Proof.
  open_limit. iIntros "[Hm Hu] [Ha [%e He]] HΦ". unfold limit_request. wp_gget. wp_gget.
  destruct (Z.ltb_spec max (amount used)).
  - iApply wp_bind. iApply (wp_set_errno with "[He]"); [by iExists e|]. iIntros "He".
    wp_ret. iApply "HΦ". iFrame. by iPureIntro.
  - iApply wp_bind. iApply (wp_sys_answer with "Ha"). iIntros (ok) "Ha". destruct ok.
    + wp_gset. wp_ret. iApply "HΦ". iFrame. by iPureIntro.
    + wp_ret. wp_ret. iApply "HΦ". iFrame. by iPureIntro.
Qed.

Lemma exec_request amount :
  (forall u, 0 <= amount u) ->
  ⦃ within_limit ∗ environment ⦄ limit_request amount;; mret ()
  ⟪ _, within_limit ∗ environment ⟫.
Proof.
  iIntros (Hpos) "[(%max & %used & Hc & %Hle) He]".
  iApply wp_bind. iApply (wp_request with "Hc He"). iIntros (ok) "(He & Hc & %Hok)".
  iApply wp_ret. iFrame "He". iExists max, _. iFrame. iPureIntro.
  destruct ok; [|done]. split; [done|by apply Hok].
Qed.

Lemma exec_within_limit o :
  ⦃ within_limit ∗ environment ⦄ exec o ⟪ _, within_limit ∗ environment ⟫.
Proof.
  assert (forall z, 0 <= u64 z) by (intros; apply u64_range).
  destruct o as [n|c n|n|n m|n]; simpl.
  - by apply (exec_request (fun u => u64 (u + u64 n))).
  - by apply (exec_request (fun u => u64 (u + u64 (u64 n * u64 c)))).
  - iIntros "[(%max & %used & [Hm Hu] & %Hle) He]". unfold sexp_free. wp_gget.
    pose proof (u64_range n). destruct (Z.ltb_spec used (u64 n)).
    + wp_ret. iFrame "He". iExists max, used. iFrame. by iPureIntro.
    + iApply (wp_gset with "[$]"). iIntros "?". iFrame "He". iExists max, _. iFrame.
      iPureIntro. split; [apply u64_range|].
      trans (used - u64 n); [apply Z.mod_le; lia|]. lia.
  - by apply (exec_request (fun u => u64 (u + u64 (u64 n - u64 m)))).
  - iIntros "[(%max & %used & [Hm Hu] & %Hle) [Ha He]]". unfold set_sexp_max_memory.
    wp_gget. destruct (Z.ltb_spec 0 (u64 n)); [destruct (Z.ltb_spec (u64 n) used)|].
    1,3: wp_bind_head; iApply (wp_set_errno with "He"); iIntros "He"; wp_ret;
      wp_ret; iFrame "Ha"; iSplitR "He"; [iExists max, used; by iFrame|by iExists _].
    wp_gset. wp_ret. wp_ret. iFrame "Ha He". iExists (u64 n), used. iFrame.
    iPureIntro. lia.
Qed.

(** C23: in the limited-memory build no sequence of allocations, frees,
    reallocations and changes of the limit ever drives the memory
    accounted for above the limit, whatever the sizes (the amount that is
    compared is the amount that is added, so a wrap-around cannot slip
    past the test) and whatever the system's allocator answers. *)
Theorem limit_never_exceeded os :
  ⦃ within_limit ∗ environment ⦄ exec_all os ⟪ _, within_limit ∗ environment ⟫.
Proof.
  induction os as [|o os IH]; simpl.
  - iIntros "H". by iApply wp_ret.
  - iIntros "H". iApply wp_bind. iApply (wp_mono with "[H]"); [|by iApply exec_within_limit].
    intros []. apply IH.
Qed.
End LimitProps.
