(* ===== verification/FastStack.v ===== *)
(** The stack of [src/src/faststack.c]: a doubly linked chain of levels of
    which only the lower [height] are in use; levels above the top stay
    allocated and are used again by later pushes.  The parser keeps its open
    lists on such stacks, the printers their path, and the element pools
    their free elements. *)
From S2P Require Import Prelude SexpTypes CMem SepLogic SexpMemory.

Section FastStack.
Context {api : MemApi}.

Definition make_stack : M ptr :=
  s ← sexp_malloc sizeof_faststack_t (mk_stack None None 0);
  match s with
  | None => set_errno SEXP_ERR_MEMORY;; mret None
  | Some _ => mret s
  end.

Definition stack_height_incr (s : ptr) : M unit :=
  st ← load s;
  h ← int_incr (stk_height st);
  store s (st <| stk_height := h |>).

Definition push (cur_stack : ptr) (data : ptr) : M ptr :=
  match cur_stack with
  | None => set_errno SEXP_ERR_BAD_STACK;; mret None
  | Some _ =>
      st ← load (A := faststack_t) cur_stack;
      match stk_top st with
      | Some top =>
          lv ← load (A := stack_lvl_t) (Some top);
          match lvl_above lv with
          | Some above =>
              modify cur_stack (fun s => s <| stk_top := Some above |>);;
              modify (Some above) (fun l => l <| lvl_data := data |>);;
              stack_height_incr cur_stack;;
              mret cur_stack
          | None =>
              tmp ← sexp_malloc sizeof_stack_lvl_t (mk_lvl None (Some top) data);
              modify (Some top) (fun l => l <| lvl_above := tmp |>);;
              match tmp with
              | None => set_errno SEXP_ERR_MEMORY;; mret None
              | Some _ =>
                  modify cur_stack (fun s => s <| stk_top := tmp |>);;
                  stack_height_incr cur_stack;;
                  mret cur_stack
              end
          end
      | None =>
          match stk_bottom st with
          | Some bottom =>
              modify cur_stack (fun s => s <| stk_top := Some bottom |>);;
              modify (Some bottom) (fun l => l <| lvl_data := data |>);;
              stack_height_incr cur_stack;;
              mret cur_stack
          | None =>
              tmp ← sexp_malloc sizeof_stack_lvl_t (mk_lvl None None data);
              modify cur_stack (fun s => s <| stk_top := tmp |>);;
              match tmp with
              | None => set_errno SEXP_ERR_MEMORY;; mret None
              | Some _ =>
                  modify cur_stack (fun s => s <| stk_bottom := tmp |>);;
                  stack_height_incr cur_stack;;
                  mret cur_stack
              end
          end
      end
  end.

Definition pop (s : ptr) : M ptr :=
  match s with
  | None => set_errno SEXP_ERR_BAD_STACK;; mret None
  | Some _ =>
      st ← load (A := faststack_t) s;
      match stk_top st with
      | Some top =>
          if 0 <? stk_height st then
            lv ← load (A := stack_lvl_t) (Some top);
            store s (st <| stk_top := lvl_below lv |>
                        <| stk_height := stk_height st - 1 |>);;
            mret (Some top)
          else mret None
      | None => mret None
      end
  end.

(** The macros [top_data] and [empty_stack]. *)
Definition top_data (s : ptr) : M ptr :=
  st ← load (A := faststack_t) s;
  lv ← load (A := stack_lvl_t) (stk_top st);
  mret (lvl_data lv).

Definition empty_stack (s : ptr) : M bool :=
  st ← load (A := faststack_t) s;
  mret (match stk_top st with None => true | Some _ => false end).

(** The two loops of [destroy_stack]: up to the last allocated level, then
    down again freeing the level above. *)
Definition climb_body (sl : ptr) : M (ptr + ptr) :=
  lv ← load (A := stack_lvl_t) sl;
  match lvl_above lv with
  | Some a => mret (inl (Some a))
  | None => mret (inr sl)
  end.

Definition unwind_body (sl : ptr) : M (ptr + ptr) :=
  lv ← load (A := stack_lvl_t) sl;
  match lvl_below lv with
  | Some b =>
      lb ← load (A := stack_lvl_t) (Some b);
      sexp_free (lvl_above lb) sizeof_stack_lvl_t;;
      mret (inl (Some b))
  | None => mret (inr sl)
  end.

Definition destroy_stack (s : ptr) : M unit :=
  match s with
  | None => mret ()
  | Some _ =>
      st ← load (A := faststack_t) s;
      match stk_bottom st with
      | None => sexp_free s sizeof_faststack_t
      | Some _ =>
          fuel ← heap_fuel;
          sl ← while fuel climb_body (stk_bottom st);
          sl ← while fuel unwind_body sl;
          sexp_free sl sizeof_stack_lvl_t;;
          sexp_free s sizeof_faststack_t
      end
  end.
End FastStack.

#[global] Arguments make_stack : simpl never.
#[global] Arguments push : simpl never.
#[global] Arguments pop : simpl never.
#[global] Arguments top_data : simpl never.
#[global] Arguments empty_stack : simpl never.
#[global] Arguments destroy_stack : simpl never.
#[global] Arguments stack_height_incr : simpl never.

(** ** The stack a client sees *)

(** Level [i] of the chain [ls] with data [d]. *)
Definition lvl_before (ls : list loc) (i : nat) : ptr :=
  match i with O => None | S j => ls !! j end.

Definition lvl_at (ls : list loc) (i : nat) (d : ptr) : stack_lvl_t :=
  mk_lvl (ls !! S i) (lvl_before ls i) d.

Definition levels (ls : list loc) (ds : list ptr) : hprop :=
  ([∗ list] i ↦ l;d ∈ ls;ds, l ↦ lvl_at ls i d)%I.

(** The struct at [s] with [n] levels of the chain in use. *)
Definition stack_at (s : loc) (ls : list loc) (ds : list ptr) (n : nat) : hprop :=
  (s ↦ mk_stack (lvl_before ls n) (ls !! 0%nat) (Z.of_nat n) ∗ levels ls ds ∗
   ⌈(n <= length ls)%nat⌉)%I.

(** A stack holding [xs], the top first; the data in the levels that are not
    in use satisfy [R]. *)
Definition stack_with (R : ptr -> Prop) (s : loc) (xs : list ptr) : hprop :=
  (∃ ls ds, stack_at s ls ds (length xs) ∗
     ⌈take (length xs) ds = reverse xs /\ Forall R (drop (length xs) ds)⌉)%I.

(** ... whatever they hold, and when they are cleared. *)
Definition anything (d : ptr) : Prop := True.
Abbreviation is_stack := (stack_with anything).
Abbreviation clear_stack := (stack_with (eq None)).

(** The same stack, whose level [l] was just popped and still holds [d]. *)
Definition popped (R : ptr -> Prop) (s : loc) (xs : list ptr) (l : loc) (d : ptr) : hprop :=
  (∃ ls ds, stack_at s ls ds (length xs) ∗
     ⌈take (length xs) ds = reverse xs /\
      ls !! length xs = Some l /\ ds !! length xs = Some d /\
      Forall R (drop (S (length xs)) ds)⌉)%I.

Lemma forall_anything ds : Forall anything ds.
Proof. by apply Forall_forall. Qed.

(** ** Chains of levels *)

Lemma levels_length ls ds : levels ls ds ⊢ ⌜length ls = length ds⌝.
Proof. apply big_sepL2_length. Qed.

Lemma levels_acc ls ds i l d :
  ls !! i = Some l -> ds !! i = Some d ->
  levels ls ds ⊢ l ↦ lvl_at ls i d ∗
    (∀ d', l ↦ lvl_at ls i d' -∗ levels ls (<[i:=d']> ds)).
Proof.
  intros Hl Hd. unfold levels.
  rewrite (big_sepL2_insert_acc _ _ _ i l d) //.
  iIntros "[$ H]". iIntros (d') "Hl". iSpecialize ("H" $! l d' with "Hl").
  by rewrite list_insert_id.
Qed.

Lemma lvl_at_app ls ls' i d :
  (S i < length ls)%nat -> lvl_at (ls ++ ls') i d = lvl_at ls i d.
Proof.
  intros Hi. unfold lvl_at. f_equal; [by rewrite lookup_app_l|].
  destruct i; simpl; [done|]. rewrite lookup_app_l //. lia.
Qed.

(** The chain without its last level, seen from a longer chain. *)
Lemma levels_snoc ls ds t rest :
  length ls = length ds ->
  ([∗ list] i ↦ l';d' ∈ ls;ds, l' ↦ lvl_at (ls ++ t :: rest) i d') ⊣⊢
  ([∗ list] i ↦ l';d' ∈ ls;ds, l' ↦ lvl_at (ls ++ [t]) i d').
Proof.
  intros Hlen. apply big_sepL2_proper. intros i l' d' Hl _.
  apply lookup_lt_Some in Hl.
  rewrite (app_assoc ls [t] rest : ls ++ t :: rest = _).
  rewrite lvl_at_app; [done|]. rewrite length_app /=. lia.
Qed.

Lemma lvl_before_app ls ls' n :
  (n <= length ls)%nat -> lvl_before (ls ++ ls') n = lvl_before ls n.
Proof. destruct n; simpl; [done|]. intros ?. rewrite lookup_app_l //. Qed.

Lemma levels_grow ls ds t dt :
  length ls = length ds ->
  levels (ls ++ [t]) (ds ++ [dt]) ⊢
    t ↦ mk_lvl None (lvl_before ls (length ls)) dt ∗
    ((∀ l d, t ↦ mk_lvl (Some l) (lvl_before ls (length ls)) dt -∗
      l ↦ mk_lvl None (Some t) d -∗ levels (ls ++ [t; l]) (ds ++ [dt; d])) ∧
     (t ↦ mk_lvl None (lvl_before ls (length ls)) dt -∗ levels (ls ++ [t]) (ds ++ [dt]))).
Proof.
  intros Hlen. unfold levels. rewrite big_sepL2_app_same_length; [|by left].
  iIntros "[Hpre [Ht _]]".
  assert (forall k, lvl_before (ls ++ k) (length ls) = lvl_before ls (length ls)) as Hb
    by (intros; by apply lvl_before_app).
  assert (lvl_at (ls ++ [t]) (length ls + 0) dt =
    mk_lvl None (lvl_before ls (length ls)) dt) as Ht.
  { unfold lvl_at. rewrite Nat.add_0_r Hb.
    by rewrite (lookup_ge_None_2 (ls ++ [t])); [|rewrite length_app /=; lia]. }
  rewrite Ht. iFrame "Ht". iSplit; [|iIntros "Ht"; simpl; rewrite Ht; by iFrame].
  iIntros (l d) "Ht Hl"; rewrite big_sepL2_app_same_length; [|by left];
    rewrite (levels_snoc _ _ t [l]) //; iFrame "Hpre"; iSplitL "Ht"; [|iSplitL; [|done]].
  - unfold lvl_at. rewrite Nat.add_0_r Hb.
    by rewrite lookup_app_r ?Nat.sub_succ_l ?Nat.sub_diag; [|lia..].
  - unfold lvl_at, lvl_before. rewrite Nat.add_1_r.
    rewrite (lookup_ge_None_2 (ls ++ [t; l])); [|rewrite length_app /=; lia].
    by rewrite list_lookup_middle.
Qed.

Lemma is_stack_nil R s : s ↦ mk_stack None None 0 ⊢ stack_with R s [].
Proof.
  iIntros "Hs". iExists [], []. iSplitL; [|by iPureIntro].
  iFrame "Hs". unfold levels. simpl. iSplitL; [done|]. iPureIntro. lia.
Qed.

Section specs.
Context {api : MemApi} {laws : MemLaws api}.
Implicit Types (s l : loc) (xs ds : list ptr) (ls : list loc) (d : ptr).

Lemma wp_stack_height_incr s t b h Φ :
  h < int_max ->
  s ↦ mk_stack t b h -∗ (s ↦ mk_stack t b (h + 1) -∗ Φ ()) -∗
  wp (stack_height_incr (Some s)) Φ.
Proof.
  iIntros (?) "Hs HΦ". unfold stack_height_incr. wp_load. iApply wp_bind.
  iApply wp_int_incr; [done|]. by iApply (wp_store with "[$]").
Qed.

Lemma wp_make_stack_fresh Φ :
  mem_ok -∗ (∀ s, s ↦ mk_stack None None 0 -∗ mem_ok -∗ Φ (Some s)) -∗ wp make_stack Φ.
Proof.
  iIntros "Hm HΦ". iApply wp_bind. iApply (wp_malloc_ok with "Hm").
  iIntros (s) "Hs Hm". iApply wp_ret. by iApply ("HΦ" with "Hs Hm").
Qed.

Lemma wp_make_stack_ok R Φ :
  mem_ok -∗ (∀ s, stack_with R s [] -∗ mem_ok -∗ Φ (Some s)) -∗ wp make_stack Φ.
Proof.
  iIntros "Hm HΦ". iApply (wp_make_stack_fresh with "Hm"). iIntros (s) "Hs Hm".
  iApply ("HΦ" with "[Hs] Hm"). by iApply is_stack_nil.
Qed.

(** When memory runs out [make_stack] returns NULL and says so. *)
Lemma wp_make_stack R Φ :
  mem_own -∗ errno_own -∗
  (∀ p, match p with
        | Some s => stack_with R s [] ∗ errno_own
        | None => g_sexp_errno ↦ SEXP_ERR_MEMORY
        end -∗ mem_own -∗ Φ p) -∗
  wp make_stack Φ.
Proof.
  iIntros "Hm He HΦ". iApply wp_bind. iApply (wp_malloc with "Hm He").
  iIntros ([s|]) "Hs [Hm He]"; simpl.
  - iApply wp_ret. iApply ("HΦ" $! (Some s) with "[Hs He] Hm"). iFrame "He".
    by iApply is_stack_nil.
  - wp_set_errno. iApply wp_ret. iApply ("HΦ" $! None with "[$] Hm").
Qed.

(** Pushing onto a level that is still allocated. *)
Lemma wp_push_reuse s ls ds n d Φ :
  (n < length ls)%nat -> Z.of_nat n < int_max ->
  stack_at s ls ds n -∗ (stack_at s ls (<[n := d]> ds) (S n) -∗ Φ (Some s)) -∗
  wp (push (Some s) d) Φ.
Proof.
  iIntros (Hn Hmax) "(Hs & Hl & _) HΦ".
  iDestruct (levels_length with "Hl") as %Hlen.
  destruct (lookup_lt_is_Some_2 ls n Hn) as [l Hl].
  destruct (lookup_lt_is_Some_2 ds n) as [d0 Hd0]; [lia|].
  assert (Z.of_nat n + 1 = Z.of_nat (S n)) as Hz by lia.
  unfold push. wp_load. destruct n as [|m]; simpl lvl_before.
  - iDestruct (levels_acc _ _ 0 l d0 with "Hl") as "[Hln Hl]"; [done..|].
    rewrite Hl. wp_modify. wp_modify. iApply wp_bind.
    iApply (wp_stack_height_incr with "[$]"); [done|]. iIntros "Hs". wp_ret.
    iApply "HΦ". rewrite Hz /stack_at /= Hl. iFrame "Hs".
    iSplitL; [by iApply "Hl"|done].
  - destruct (lookup_lt_is_Some_2 ls m) as [t Ht]; [lia|].
    destruct (lookup_lt_is_Some_2 ds m) as [dt Hdt]; [lia|].
    iDestruct (levels_acc _ _ m t dt with "Hl") as "[Hlt Hl]"; [done..|].
    rewrite Ht. wp_load. cbn [lvl_at lvl_above]. rewrite Hl. iDestruct ("Hl" with "[$]") as "Hl".
    rewrite (list_insert_id ds m dt) //.
    iDestruct (levels_acc _ _ (S m) l d0 with "Hl") as "[Hln Hl]"; [done..|].
    wp_modify. wp_modify. iApply wp_bind.
    iApply (wp_stack_height_incr with "[$]"); [done|]. iIntros "Hs". wp_ret.
    iApply "HΦ". rewrite Hz /stack_at /= Hl. iFrame "Hs".
    iSplitL; [by iApply "Hl"|done].
Qed.

(** An allocator that answers from the state [own], or refuses and leaves
    [bad]. *)
Definition grants (own bad : hprop) : Prop :=
  forall n (a : stack_lvl_t) Ψ,
    own -∗ (∀ l, l ↦ a -∗ own -∗ Ψ (Some l)) ∧ (bad -∗ Ψ None) -∗
    wp (sexp_malloc n a) Ψ.

Lemma grants_ok : grants mem_ok ⌈False⌉%I.
Proof.
  iIntros (n a Ψ) "Hm HΨ". iDestruct "HΨ" as "[HΨ _]".
  by iApply (wp_malloc_ok with "Hm").
Qed.

Lemma grants_any : grants (mem_own ∗ errno_own)%I (mem_own ∗ errno_own)%I.
Proof.
  iIntros (n a Ψ) "[Hm He] HΨ". iApply (wp_malloc with "Hm He"). iIntros ([l|]) "Hl H".
  - iDestruct "HΨ" as "[HΨ _]". iApply ("HΨ" with "Hl H").
  - iDestruct "HΨ" as "[_ HΨ]". iApply ("HΨ" with "H").
Qed.

(** Pushing when every level is in use allocates one. *)
Lemma wp_push_grow s ls ds d own bad Φ :
  grants own bad -> Z.of_nat (length ls) < int_max ->
  stack_at s ls ds (length ls) -∗ own -∗
  (∀ l, stack_at s (ls ++ [l]) (ds ++ [d]) (S (length ls)) -∗ own -∗ Φ (Some s)) ∧
  (stack_at s ls ds (length ls) -∗ bad -∗ wp (set_errno SEXP_ERR_MEMORY;; mret None) Φ) -∗
  wp (push (Some s) d) Φ.
Proof.
  iIntros (Hgr Hmax) "(Hs & Hl & _) Hm HΦ".
  iDestruct (levels_length with "Hl") as %Hlen.
  assert (Z.of_nat (length ls) + 1 = Z.of_nat (S (length ls))) as Hz by lia.
  unfold push. wp_load. destruct ls as [|t ls _] using rev_ind; simpl lvl_before.
  - simpl. wp_bind_head. iApply (Hgr with "Hm"). iSplit.
    + iIntros (l) "Hln Hm". iDestruct "HΦ" as "[HΦ _]".
      wp_modify. wp_modify. iApply wp_bind.
      iApply (wp_stack_height_incr with "[$]"); [done|]. iIntros "Hs". wp_ret.
      iApply ("HΦ" $! l with "[-Hm] Hm"). destruct ds; [|done].
      iFrame "Hs". unfold levels. simpl. iFrame. iPureIntro. lia.
    + iIntros "Hb". iDestruct "HΦ" as "[_ HΦ]". wp_modify.
      iApply ("HΦ" with "[-Hb] Hb"). iFrame. done.
  - destruct ds as [|dt ds _] using rev_ind; [rewrite length_app /= in Hlen; lia|].
    rewrite !length_app /= !Nat.add_1_r in Hlen Hz Hmax |- *.
    assert (length ls = length ds) as Hlen' by lia. simpl lvl_before.
    rewrite list_lookup_middle //.
    iDestruct (levels_grow with "Hl") as "[Ht Hl]"; [done|].
    wp_load. wp_bind_head. iApply (Hgr with "Hm"). iSplit.
    + iIntros (l) "Hln Hm". iDestruct "HΦ" as "[HΦ _]".
      wp_modify. wp_modify. iApply wp_bind.
      iApply (wp_stack_height_incr with "[$]"); [done|]. iIntros "Hs". wp_ret.
      iApply ("HΦ" $! l with "[-Hm] Hm"). rewrite Hz -!app_assoc /=.
      unfold stack_at. simpl lvl_before.
      rewrite (lookup_app_r _ [t; l]) ?Nat.sub_succ_l ?Nat.sub_diag; [|lia..]. simpl.
      assert ((ls ++ [t; l]) !! 0%nat = (ls ++ [t]) !! 0%nat) as -> by by destruct ls.
      iFrame "Hs". iSplitL; [iDestruct "Hl" as "[Hl _]"; iApply ("Hl" with "[$] [$]")|].
      iPureIntro. rewrite length_app /=. lia.
    + iIntros "Hb". iDestruct "HΦ" as "[_ HΦ]". wp_modify.
      iDestruct "Hl" as "[_ Hl]". iApply ("HΦ" with "[-Hb] Hb").
      unfold stack_at. rewrite length_app /= Nat.add_1_r. simpl lvl_before.
      rewrite (list_lookup_middle ls [] t (length ls)) //. iFrame. iSplitL; [by iApply "Hl"|].
      iPureIntro. lia.
Qed.

Lemma wp_push_with R s xs d own bad Φ :
  grants own bad -> Z.of_nat (length xs) < int_max ->
  stack_with R s xs -∗ own -∗
  (stack_with R s (d :: xs) -∗ own -∗ Φ (Some s)) ∧
  (bad -∗ stack_with R s xs -∗ wp (set_errno SEXP_ERR_MEMORY;; mret None) Φ) -∗
  wp (push (Some s) d) Φ.
Proof.
  iIntros (Hgr Hmax) "(%ls & %ds & (Hs & Hl & %Hn) & %Hds) Hm HΦ".
  destruct Hds as [Hds HR]. iDestruct (levels_length with "Hl") as %Hlen.
  destruct (decide (length xs < length ls)%nat).
  - iDestruct "HΦ" as "[HΦ _]".
    iApply (wp_push_reuse with "[Hs Hl]"); [done..|by iFrame|]. iIntros "Hs".
    iApply ("HΦ" with "[Hs] Hm"). iExists _, _. iFrame. iPureIntro. split.
    + rewrite reverse_cons -Hds /= (take_S_r _ _ d) ?take_insert_ge //.
      rewrite list_lookup_insert_eq //. lia.
    + rewrite drop_insert_lt; [|simpl; lia]. simpl. rewrite -Nat.add_1_r -drop_drop.
      by apply Forall_drop.
  - assert (length xs = length ls) as Hxs by lia.
    iApply (wp_push_grow _ ls ds _ own bad with "[Hs Hl] Hm"); [done|lia| |iSplit].
    { rewrite -Hxs. by iFrame. }
    + iIntros (l) "Hs Hm". iDestruct "HΦ" as "[HΦ _]".
      iApply ("HΦ" with "[Hs] Hm"). iExists _, _.
      assert (length (d :: xs) = S (length ls)) as -> by by rewrite /= Hxs.
      iFrame. iPureIntro. split.
      * rewrite reverse_cons -Hds (take_S_r _ _ d).
        -- by rewrite Hxs Hlen take_app_length (take_ge ds).
        -- by rewrite Hlen list_lookup_middle.
      * rewrite drop_ge ?length_app /=; [constructor|lia].
    + iIntros "Hs Hb". iDestruct "HΦ" as "[_ HΦ]". iApply ("HΦ" with "Hb").
      iExists ls, ds. rewrite Hxs. iFrame. by rewrite -Hxs.
Qed.

Lemma wp_push_ok R s xs d Φ :
  Z.of_nat (length xs) < int_max ->
  stack_with R s xs -∗ mem_ok -∗ (stack_with R s (d :: xs) -∗ mem_ok -∗ Φ (Some s)) -∗
  wp (push (Some s) d) Φ.
Proof.
  iIntros (Hmax) "Hs Hm HΦ".
  iApply (wp_push_with with "Hs Hm"); [apply grants_ok|done|]. iSplit; [done|].
  iIntros "%Hf". done.
Qed.

Lemma wp_pop_cons R s x xs Φ :
  stack_with R s (x :: xs) -∗ (∀ l, popped R s xs l x -∗ Φ (Some l)) -∗ wp (pop (Some s)) Φ.
Proof.
  iIntros "(%ls & %ds & (Hs & Hl & %Hn) & %Hds) HΦ". destruct Hds as [Hds HR]. simpl in *.
  iDestruct (levels_length with "Hl") as %Hlen.
  destruct (lookup_lt_is_Some_2 ls (length xs)) as [l Hl]; [lia|].
  assert (ds !! length xs = Some x /\ take (length xs) ds = reverse xs) as [Hd Hx].
  { rewrite reverse_cons in Hds.
    destruct (lookup_lt_is_Some_2 ds (length xs)) as [y Hy]; [lia|].
    rewrite (take_S_r _ _ y) // in Hds. by apply app_inj_tail in Hds as [-> ->]. }
  iDestruct (levels_acc _ _ _ l x with "Hl") as "[Hln Hl]"; [done..|].
  unfold pop. wp_load. simpl lvl_before. rewrite Hl.
  destruct (Z.ltb_spec 0 (Z.of_nat (S (length xs)))); [|lia].
  wp_load. wp_store. wp_ret. iApply "HΦ". iExists ls, ds. unfold stack_at.
  cbn [lvl_at lvl_below].
  replace (Z.of_nat (S (length xs)) - 1) with (Z.of_nat (length xs)) by lia.
  iFrame. iDestruct ("Hl" with "[$]") as "Hl". rewrite list_insert_id //. iFrame.
  iPureIntro. split; [lia|done].
Qed.

Lemma wp_pop_nil s Φ : is_stack s [] -∗ (is_stack s [] -∗ Φ None) -∗ wp (pop (Some s)) Φ.
Proof.
  iIntros "(%ls & %ds & (Hs & Hl & %Hn) & %Hds) HΦ". unfold pop. wp_load. wp_ret.
  iApply "HΦ". iExists ls, ds. unfold stack_at. iFrame. done.
Qed.

(** The popped level can still be read and written until the next push. *)
Lemma popped_acc R s xs l d :
  popped R s xs l d ⊢ ∃ lv, l ↦ lv ∗ ⌈lvl_data lv = d⌉ ∗
    (∀ d', l ↦ lv <| lvl_data := d' |> -∗ popped R s xs l d').
Proof.
  iIntros "(%ls & %ds & (Hs & Hl & %Hn) & %Hds & %Hl & %Hd & %HR)".
  iDestruct (levels_acc with "Hl") as "[Hln Hl]"; [done..|].
  iExists _. iFrame "Hln". iSplitR; [done|]. iIntros (d') "Hln".
  iExists ls, (<[length xs:=d']> ds). iFrame "Hs". iSplitL; [iSplitL|].
  - by iApply "Hl".
  - done.
  - iPureIntro. rewrite take_insert_ge // list_lookup_insert_eq //; [|by eapply lookup_lt_Some].
    split_and!; try done. rewrite drop_insert_lt //. lia.
Qed.

Lemma popped_stack_with (R : ptr -> Prop) s xs l d : R d -> popped R s xs l d ⊢ stack_with R s xs.
Proof.
  iIntros (Hd) "(%ls & %ds & H & %Hds & %Hl & %Hl2 & %HR)". iExists ls, ds. iFrame "H".
  iPureIntro. split; [done|]. rewrite (drop_S _ d) //. by constructor.
Qed.

Lemma popped_is_stack s xs l d : popped anything s xs l d ⊢ is_stack s xs.
Proof. by apply popped_stack_with. Qed.

Lemma clear_is_stack R s xs : stack_with R s xs ⊢ is_stack s xs.
Proof.
  iIntros "(%ls & %ds & H & %Hds)". iExists ls, ds. iFrame "H". iPureIntro.
  split; [tauto|apply forall_anything].
Qed.

(** The first loop of [destroy_stack] reaches the last level. *)
Lemma wp_climb ls ds fuel i Φ :
  (i < length ls)%nat -> (length ls <= fuel + i)%nat ->
  levels ls ds -∗ (levels ls ds -∗ Φ (last ls)) -∗ wp (while fuel climb_body (ls !! i)) Φ.
Proof.
  revert i. induction fuel as [|fuel IH]; intros i Hi Hf; [lia|].
  iIntros "Hl HΦ". iDestruct (levels_length with "Hl") as %Hlen.
  destruct (lookup_lt_is_Some_2 ls i Hi) as [l Hl].
  destruct (lookup_lt_is_Some_2 ds i) as [d Hd]; [lia|].
  iDestruct (levels_acc with "Hl") as "[Hli Hl]"; [done..|].
  rewrite Hl. simpl. unfold climb_body at 2. wp_load. cbn [lvl_at lvl_above].
  iDestruct ("Hl" with "[$]") as "Hl". rewrite (list_insert_id ds) //.
  destruct (decide (S i < length ls)%nat).
  - destruct (lookup_lt_is_Some_2 ls (S i)) as [l' Hl']; [done|].
    rewrite Hl'. wp_ret. rewrite -Hl'. iApply (IH with "Hl HΦ"); lia.
  - rewrite lookup_ge_None_2; [|lia]. wp_ret. iApply wp_ret.
    rewrite last_lookup (_ : pred (length ls) = i); [|lia]. rewrite Hl. by iApply "HΦ".
Qed.

(** The lowest [n] levels of the chain. *)
Definition levels_upto ls ds (n : nat) : hprop :=
  ([∗ list] j ↦ l;d ∈ take n ls;take n ds, l ↦ lvl_at ls j d)%I.

Lemma levels_upto_S ls ds n l d :
  ls !! n = Some l -> ds !! n = Some d ->
  levels_upto ls ds (S n) ⊣⊢ levels_upto ls ds n ∗ l ↦ lvl_at ls n d.
Proof.
  intros Hl Hd. unfold levels_upto.
  rewrite (take_S_r ls _ l) // (take_S_r ds _ d) // big_sepL2_snoc length_take.
  apply lookup_lt_Some in Hl. by rewrite Nat.min_l; [|lia].
Qed.

(** The second one frees every level but the bottom one. *)
Lemma wp_unwind ls ds fuel i Φ :
  (i < length ls)%nat -> length ls = length ds -> (i < fuel)%nat ->
  levels_upto ls ds (S i) -∗ mem_ok -∗
  (levels_upto ls ds 1 -∗ mem_ok -∗ Φ (ls !! 0%nat)) -∗
  wp (while fuel unwind_body (ls !! i)) Φ.
Proof.
  revert i. induction fuel as [|fuel IH]; intros i Hi Hlen Hf; [lia|].
  iIntros "Hl Hm HΦ". simpl. unfold unwind_body at 2.
  destruct (lookup_lt_is_Some_2 ls i Hi) as [l Hl].
  destruct (lookup_lt_is_Some_2 ds i) as [d Hd]; [lia|].
  rewrite (levels_upto_S _ _ _ l d) //. iDestruct "Hl" as "[Hl Hli]".
  rewrite Hl. wp_load. cbn [lvl_at lvl_below]. destruct i as [|i]; simpl lvl_before.
  - wp_ret. iApply wp_ret. rewrite -Hl. iApply ("HΦ" with "[-Hm] Hm").
    rewrite (levels_upto_S _ _ _ l d) //. iFrame.
  - destruct (lookup_lt_is_Some_2 ls i) as [b Hb]; [lia|].
    destruct (lookup_lt_is_Some_2 ds i) as [db Hdb]; [lia|].
    rewrite Hb (levels_upto_S _ _ _ b db) //. iDestruct "Hl" as "[Hl Hlb]".
    wp_load. cbn [lvl_at lvl_above]. rewrite Hl. wp_bind_head.
    iApply (wp_sexp_free_ok l with "[$] Hm"). iIntros "Hm". wp_ret. rewrite -Hb.
    iApply (IH with "[-Hm HΦ] Hm HΦ"); [lia..|].
    rewrite (levels_upto_S _ _ _ b db) //. iFrame.
Qed.

(** [destroy_stack] gives every level and the struct back; the data are
    the client's. *)
Lemma wp_destroy_stack_ok R s xs Φ :
  stack_with R s xs -∗ mem_ok -∗ (mem_ok -∗ Φ ()) -∗ wp (destroy_stack (Some s)) Φ.
Proof.
  iIntros "(%ls & %ds & (Hs & Hl & _) & _) Hm HΦ".
  iDestruct (levels_length with "Hl") as %Hlen.
  unfold destroy_stack. wp_load. destruct ls as [|l0 ls']; simpl.
  { destruct ds; [|done]. iApply (wp_sexp_free_ok s with "[$] Hm"). by iApply "HΦ". }
  remember (l0 :: ls') as ls eqn:Els.
  assert (0 < length ls)%nat as Hpos by (rewrite Els /=; lia).
  assert (ls !! 0%nat = Some l0) as Hl0 by by rewrite Els.
  wp_bind_head. iApply (wp_heap_fuel (length ls) with "Hl").
  { apply cells_big_sepL2. }
  iIntros (fuel) "%Hfuel Hl". iApply wp_bind.
  rewrite -Hl0. iApply (wp_climb ls ds fuel 0 with "Hl"); [lia..|]. iIntros "Hl". iApply wp_bind.
  rewrite last_lookup.
  iApply (wp_unwind ls ds fuel (pred (length ls)) with "[Hl] Hm"); [lia..| |].
  { unfold levels_upto. rewrite !take_ge //; lia. }
  iIntros "Hl Hm". rewrite Hl0. destruct (lookup_lt_is_Some_2 ds 0) as [d0 Hd0]; [lia|].
  rewrite (levels_upto_S ls ds 0 l0 d0) //. iDestruct "Hl" as "[Hnil Hl]".
  iAssert emp%I with "[Hnil]" as "_"; [by unfold levels_upto|].
  wp_bind_head. iApply (wp_sexp_free_ok l0 with "[$] Hm"). iIntros "Hm".
  iApply (wp_sexp_free_ok s with "[$] Hm"). by iApply "HΦ".
Qed.

Lemma wp_top_data R s x xs Φ :
  stack_with R s (x :: xs) -∗ (stack_with R s (x :: xs) -∗ Φ x) -∗ wp (top_data (Some s)) Φ.
Proof.
  iIntros "(%ls & %ds & (Hs & Hl & %Hn) & %Hds) HΦ". destruct Hds as [Hds HR]. simpl in *.
  iDestruct (levels_length with "Hl") as %Hlen.
  destruct (lookup_lt_is_Some_2 ls (length xs)) as [l Hl]; [lia|].
  assert (ds !! length xs = Some x) as Hd.
  { rewrite reverse_cons in Hds.
    destruct (lookup_lt_is_Some_2 ds (length xs)) as [y Hy]; [lia|].
    rewrite (take_S_r _ _ y) // in Hds. by apply app_inj_tail in Hds as [_ ->]. }
  iDestruct (levels_acc _ _ _ l x with "Hl") as "[Hln Hl]"; [done..|].
  unfold top_data. wp_load. simpl lvl_before. rewrite Hl. wp_load. wp_ret.
  iApply "HΦ". iExists ls, ds. unfold stack_at. simpl lvl_before. rewrite Hl. iFrame.
  iDestruct ("Hl" with "[$]") as "Hl". rewrite list_insert_id //. by iFrame.
Qed.

Lemma wp_empty_stack R s xs Φ :
  stack_with R s xs -∗ (stack_with R s xs -∗ Φ (bool_decide (xs = []))) -∗
  wp (empty_stack (Some s)) Φ.
Proof.
  iIntros "(%ls & %ds & (Hs & Hl & %Hn) & %Hds) HΦ".
  unfold empty_stack. wp_load. wp_ret.
  assert ((match lvl_before ls (length xs) with Some _ => false | None => true end)
          = bool_decide (xs = [])) as ->.
  { destruct xs as [|x xs]; simpl; [done|].
    destruct (lookup_lt_is_Some_2 ls (length xs)) as [l ->]; [simpl in *; lia|done]. }
  iApply "HΦ". iExists ls, ds. unfold stack_at. by iFrame.
Qed.
(** A stack whose top level is [l]. *)
Definition is_stack_top s l x xs : hprop :=
  (∃ ls ds, stack_at s ls ds (S (length xs)) ∗
     ⌈take (S (length xs)) ds = reverse (x :: xs) /\ ls !! length xs = Some l⌉)%I.

Lemma is_stack_top_intro s x xs : is_stack s (x :: xs) ⊢ ∃ l, is_stack_top s l x xs.
Proof.
  iIntros "(%ls & %ds & Hs & %Hds)". destruct Hds as [Hds _]. simpl in Hds.
  iAssert (⌜is_Some (ls !! length xs)⌝)%I as %[l Hl].
  { iDestruct "Hs" as "(_ & _ & %Hn)". iPureIntro. by apply lookup_lt_is_Some_2. }
  iExists l, ls, ds. iFrame "Hs". by iPureIntro.
Qed.

Lemma is_stack_top_elim s l x xs : is_stack_top s l x xs ⊢ is_stack s (x :: xs).
Proof.
  iIntros "(%ls & %ds & Hs & %Hds & _)". iExists ls, ds. iFrame "Hs". iPureIntro.
  split; [done|apply forall_anything].
Qed.

(** Reading the top pointer, and reading and writing the top level. *)
Lemma wp_stack_top s l x xs Φ :
  is_stack_top s l x xs -∗
  (∀ st, ⌈stk_top st = Some l⌉ -∗ is_stack_top s l x xs -∗ Φ st) -∗ wp (load (Some s)) Φ.
Proof.
  iIntros "(%ls & %ds & (Hs & Hl & Hn) & %Hds & %Htop) HΦ". wp_bind_head.
  iApply (wp_load with "Hs"). iIntros "Hs". iApply ("HΦ" with "[]"); [by iPureIntro|].
  iExists ls, ds. iFrame. by iPureIntro.
Qed.

Lemma is_stack_top_acc s l x xs :
  is_stack_top s l x xs ⊢ ∃ lv, l ↦ lv ∗ ⌈lvl_data lv = x⌉ ∗
    (∀ x', l ↦ lv <| lvl_data := x' |> -∗ is_stack_top s l x' xs).
Proof.
  iIntros "(%ls & %ds & (Hs & Hl & %Hn) & %Hds & %Htop)".
  iDestruct (levels_length with "Hl") as %Hlen.
  assert (ds !! length xs = Some x /\ take (length xs) ds = reverse xs) as [Hd Hx].
  { rewrite reverse_cons in Hds.
    destruct (lookup_lt_is_Some_2 ds (length xs)) as [y Hy]; [lia|].
    rewrite (take_S_r _ _ y) // in Hds. by apply app_inj_tail in Hds as [-> ->]. }
  iDestruct (levels_acc with "Hl") as "[Hli Hl]"; [done..|].
  iExists _. iFrame "Hli". iSplit; [by iPureIntro|].
  iIntros (x') "Hli". iExists ls, (<[length xs := x']> ds).
  iSplitL; [iFrame "Hs"; iSplitL; [|by iPureIntro]|].
  - by iApply "Hl".
  - iPureIntro. rewrite reverse_cons -Hx (take_S_r _ _ x') ?take_insert_ge //.
    rewrite list_lookup_insert_eq //. lia.
Qed.

Lemma wp_stack_empty s Φ :
  is_stack s [] -∗ (∀ st, ⌈stk_top st = None⌉ -∗ is_stack s [] -∗ Φ st) -∗
  wp (load (Some s)) Φ.
Proof.
  iIntros "(%ls & %ds & (Hs & Hl) & Hds) HΦ". iApply (wp_load with "Hs"). iIntros "Hs".
  iApply ("HΦ" with "[]"); [done|]. iExists ls, ds. iFrame.
Qed.
End specs.
