(* ===== verification/FastStackSpec.v ===== *)
(** The contract of the stack of [src/src/faststack.c]: sequences of
    operations act on it as they act on a list. *)
From S2P Require Import Prelude SexpTypes CMem SepLogic SexpMemory FastStack.

(** What a client does with a stack, and what it sees. *)
Inductive stack_op : Type :=
  | Push (d : ptr)
  | Pop
  | Top.

Section client.
Context {api : MemApi}.

(** [pop] returns the level, whose [data] the client reads; [top_data] is
    used on a stack that is not empty. *)
Definition do_op (s : ptr) (o : stack_op) : M (option ptr) :=
  match o with
  | Push d => push s d;; mret None
  | Pop =>
      l ← pop s;
      match l with
      | None => mret None
      | Some _ => lv ← load (A := stack_lvl_t) l; mret (Some (lvl_data lv))
      end
  | Top =>
      e ← empty_stack s;
      if e : bool then mret None else d ← top_data s; mret (Some d)
  end.

Fixpoint do_ops (s : ptr) (os : list stack_op) : M (list (option ptr)) :=
  match os with
  | [] => mret []
  | o :: os => x ← do_op s o; r ← do_ops s os; mret (x :: r)
  end.

(** The life of a stack. *)
Definition stack_session (os : list stack_op) : M (list (option ptr)) :=
  s ← make_stack;
  r ← do_ops s os;
  destroy_stack s;;
  mret r.
End client.

(** The same operations on a list. *)
Definition list_op (xs : list ptr) (o : stack_op) : list ptr * option ptr :=
  match o with
  | Push d => (d :: xs, None)
  | Pop => (tl xs, hd_error xs)
  | Top => (xs, hd_error xs)
  end.

Fixpoint list_ops (xs : list ptr) (os : list stack_op) : list (option ptr) :=
  match os with
  | [] => []
  | o :: os => let '(xs, x) := list_op xs o in x :: list_ops xs os
  end.

Section contract.
Context {api : MemApi} {laws : MemLaws api}.

Lemma wp_do_op s xs o Φ :
  Z.of_nat (length xs) < int_max ->
  is_stack s xs -∗ mem_ok -∗
  (is_stack s (list_op xs o).1 -∗ mem_ok -∗ Φ (list_op xs o).2) -∗
  wp (do_op (Some s) o) Φ.
Proof.
  iIntros (Hmax) "Hs Hm HΦ". destruct o as [d| |]; simpl.
  - wp_bind_head. iApply (wp_push_ok with "Hs Hm"); [done|]. iIntros "Hs Hm". wp_ret.
    iApply ("HΦ" with "Hs Hm").
  - destruct xs as [|x xs]; simpl; wp_bind_head.
    + iApply (wp_pop_nil with "Hs"). iIntros "Hs". wp_ret. iApply ("HΦ" with "Hs Hm").
    + iApply (wp_pop_cons with "Hs"). iIntros (l) "Hs".
      iDestruct (popped_acc with "Hs") as ([a b d]) "(Hl & %Hd & Hs)". simpl in Hd. subst d.
      wp_load. wp_ret. iDestruct ("Hs" $! x with "[$]") as "Hs".
      iDestruct (popped_is_stack with "Hs") as "Hs". iApply ("HΦ" with "Hs Hm").
  - wp_bind_head. iApply (wp_empty_stack with "Hs"). iIntros "Hs".
    destruct xs as [|x xs]; simpl; [wp_ret; iApply ("HΦ" with "Hs Hm")|].
    wp_bind_head. iApply (wp_top_data with "Hs"). iIntros "Hs". wp_ret.
    iApply ("HΦ" with "Hs Hm").
Qed.

Lemma list_op_length xs o : (length (list_op xs o).1 <= S (length xs))%nat.
Proof. destruct o; simpl; [lia| |lia]. destruct xs; simpl; lia. Qed.

Lemma wp_do_ops os : forall s xs Φ,
  Z.of_nat (length xs + length os) <= int_max ->
  is_stack s xs -∗ mem_ok -∗
  (∀ ys, is_stack s ys -∗ mem_ok -∗ Φ (list_ops xs os)) -∗ wp (do_ops (Some s) os) Φ.
Proof.
  induction os as [|o os IH]; intros s xs Φ Hmax; iIntros "Hs Hm HΦ"; simpl.
  - wp_ret. iApply ("HΦ" with "Hs Hm").
  - simpl in Hmax. wp_bind_head. iApply (wp_do_op with "Hs Hm"); [lia|]. iIntros "Hs Hm".
    wp_bind_head. pose proof (list_op_length xs o). iApply (IH with "Hs Hm"); [lia|].
    iIntros (ys) "Hs Hm". wp_ret. destruct (list_op xs o). iApply ("HΦ" with "Hs Hm").
Qed.

(** C31. A stack is a list: whatever a client pushes, pops and looks at, it
    sees what it would see with a list, [pop] of an empty stack included,
    and [destroy_stack] gives back everything the session allocated, the
    levels that were popped and kept for reuse included. *)
Theorem stack_refines_list os :
  Z.of_nat (length os) <= int_max ->
  ⦃ mem_ok ⦄ stack_session os ⟪ r, ⌈r = list_ops [] os⌉ ∗ mem_ok ⟫.
Proof.
  iIntros (Hos) "Hm". unfold stack_session. wp_bind_head.
  iApply (wp_make_stack_ok with "Hm"). iIntros (s) "Hs Hm".
  wp_bind_head. iApply (wp_do_ops with "Hs Hm"); [simpl; lia|]. iIntros (ys) "Hs Hm".
  wp_bind_head. iApply (wp_destroy_stack_ok with "Hs Hm"). iIntros "Hm". wp_ret.
  by iFrame.
Qed.

(** C32. Without memory [push] returns NULL, says so in [sexp_errno], and
    leaves the stack as it was; otherwise the datum is on top. *)
Theorem push_fails_cleanly s xs d :
  Z.of_nat (length xs) < int_max ->
  ⦃ is_stack s xs ∗ mem_own ∗ errno_own ⦄ push (Some s) d
  ⟪ r, mem_own ∗
       match r with
       | Some s' => ⌈s' = s⌉ ∗ is_stack s (d :: xs) ∗ errno_own
       | None => is_stack s xs ∗ g_sexp_errno ↦ SEXP_ERR_MEMORY
       end ⟫.
Proof.
  iIntros (Hmax) "(Hs & Hm & He)".
  iApply (wp_push_with _ _ _ _ (mem_own ∗ errno_own)%I with "Hs [$Hm $He]");
    [apply grants_any|done|]. iSplit.
  - iIntros "Hs [$ $]". by iFrame.
  - iIntros "[Hm He] Hs". wp_set_errno. wp_ret. iFrame.
Qed.
End contract.

(** A stack allocates, and a popped level is used again. *)
Lemma stack_refines_list_witness :
  let os := [Push (Some 50%positive); Push None; Pop; Top; Push (Some 51%positive); Pop; Pop; Pop] in
  exists r h,
    @stack_session default_mem os (heap_of [(g_answers, CAnswers [])]) = Done r h /\
    (⌈r = list_ops [] os⌉ ∗ @mem_ok default_mem _)%I h.
Proof.
  intros os. refine (run_triple _ _ _ [(g_answers, CAnswers [])]
    (stack_refines_list os _) _ _).
  - by vm_compute.
  - apply (bool_decide_unpack _). by vm_compute.
  - iIntros "[Ha _]". iExact "Ha".
Defined.

(** The allocator refuses the first level. *)
Lemma push_fails_cleanly_witness :
  let cs := [(50%positive, CStack (mk_stack None None 0)); (g_answers, CAnswers [false]);
             (g_sexp_errno, CErrno SEXP_ERR_OK)] in
  exists r h,
    @push default_mem (Some 50%positive) None (heap_of cs) = Done r h /\
    (@mem_own default_mem _ ∗
       match r with
       | Some s' => ⌈s' = 50%positive⌉ ∗ is_stack 50 [None] ∗ errno_own
       | None => is_stack 50 [] ∗ g_sexp_errno ↦ SEXP_ERR_MEMORY
       end)%I h.
Proof.
  intros cs. refine (run_triple _ _ _ cs (push_fails_cleanly 50 [] None _) _ _).
  - by vm_compute.
  - apply (bool_decide_unpack _). by vm_compute.
  - iIntros "(Hs & Ha & He & _)". iSplitL "Hs"; [by iApply is_stack_nil|].
    iSplitL "Ha"; [by iExists [false]|by iExists SEXP_ERR_OK].
Defined.
