(* ===== verification/CLib.v ===== *)
(** The functions of the C library that sfsexp calls on characters:
    [strlen], [strcmp], [strcpy], [memcpy], [atoi] and the decimal
    conversion of [snprintf].  A string is the characters of a block up to
    its first NUL. *)
From S2P Require Import Prelude SexpTypes CMem SepLogic.

(** The string at the start of [b]; a scan that meets an indeterminate byte
    or leaves the block is undefined. *)
Fixpoint scan (b : list (fld Z)) : fault + list Z :=
  match b with
  | [] => inl OutOfBounds
  | Indet :: _ => inl Indeterminate
  | Det c :: b' =>
      if c =? 0 then inr []
      else match scan b' with inl f => inl f | inr s => inr (c :: s) end
  end.

(** The string a [char *] points to. *)
Definition load_string (t : cptr) : M (list Z) :=
  match t with
  | None => fail NullDeref
  | Some (l, i) =>
      b ← load (A := list (fld Z)) (Some l);
      if (0 <=? i) && (i <=? Z.of_nat (length b)) then
        match scan (drop (Z.to_nat i) b) with
        | inl f => fail f
        | inr s => mret s
        end
      else fail OutOfBounds
  end.

Definition strlen (t : cptr) : M Z := s ← load_string t; mret (Z.of_nat (length s)).

(** [strcmp (a, b) == 0] *)
Definition strcmp_eq (a b : cptr) : M bool :=
  s1 ← load_string a; s2 ← load_string b; mret (bool_decide (s1 = s2)).

(** [n] bytes of a block from offset [i]. *)
Definition slice (i n : Z) (b : list (fld Z)) : option (list (fld Z)) :=
  if (0 <=? i) && (0 <=? n) && (i + n <=? Z.of_nat (length b))
  then Some (take (Z.to_nat n) (drop (Z.to_nat i) b)) else None.

(** [b] with [xs] written over it at offset [i]. *)
Definition splice (i : Z) (xs b : list (fld Z)) : option (list (fld Z)) :=
  if (0 <=? i) && (i + Z.of_nat (length xs) <=? Z.of_nat (length b))
  then Some (take (Z.to_nat i) b ++ xs ++ drop (Z.to_nat i + length xs) b) else None.

Definition load_bytes (t : cptr) (n : Z) : M (list (fld Z)) :=
  match t with
  | None => fail NullDeref
  | Some (l, i) =>
      b ← load (A := list (fld Z)) (Some l);
      match slice i n b with Some xs => mret xs | None => fail OutOfBounds end
  end.

Definition store_bytes (t : cptr) (xs : list (fld Z)) : M unit :=
  match t with
  | None => fail NullDeref
  | Some (l, i) =>
      b ← load (A := list (fld Z)) (Some l);
      match splice i xs b with Some b' => store (Some l) b' | None => fail OutOfBounds end
  end.

Definition memcpy (dst src : cptr) (n : Z) : M unit :=
  xs ← load_bytes src n; store_bytes dst xs.

Definition strcpy (dst src : cptr) : M unit :=
  s ← load_string src; store_bytes dst ((Det <$> s) ++ [Det 0]).

(** What [strncpy] writes: the string, at most [n] characters of it, then
    zeros. *)
Fixpoint copied (n : nat) (b : list (fld Z)) : fault + list (fld Z) :=
  match n, b with
  | O, _ => inr []
  | S _, [] => inl OutOfBounds
  | S _, Indet :: _ => inl Indeterminate
  | S m, Det c :: b' =>
      if c =? 0 then inr (replicate n (Det 0))
      else match copied m b' with inl f => inl f | inr s => inr (Det c :: s) end
  end.

Definition strncpy (dst src : cptr) (n : Z) : M unit :=
  match src with
  | None => fail NullDeref
  | Some (l, i) =>
      b ← load (A := list (fld Z)) (Some l);
      if (0 <=? i) && (i <=? Z.of_nat (length b)) then
        match copied (Z.to_nat n) (drop (Z.to_nat i) b) with
        | inl f => fail f
        | inr xs => store_bytes dst xs
        end
      else fail OutOfBounds
  end.

(** [atoi]: leading white space, a sign, digits. *)
Definition is_space (c : Z) : bool := (c =? 32) || ((9 <=? c) && (c <=? 13)).
Definition is_digit (c : Z) : bool := (48 <=? c) && (c <=? 57).

Fixpoint skip_space (s : list Z) : list Z :=
  match s with
  | c :: s' => if is_space c then skip_space s' else s
  | [] => []
  end.

Fixpoint digits_value (acc : Z) (s : list Z) : Z :=
  match s with
  | c :: s' => if is_digit c then digits_value (10 * acc + (c - 48)) s' else acc
  | [] => acc
  end.

Definition atoi_value (s : list Z) : Z :=
  match skip_space s with
  | 45 :: s' => - digits_value 0 s'
  | 43 :: s' => digits_value 0 s'
  | s' => digits_value 0 s'
  end.

(** A value that is not an [int] is undefined behaviour. *)
Definition atoi (s : list Z) : M Z :=
  let v := atoi_value s in
  if (- int_max - 1 <=? v) && (v <=? int_max) then mret v else fail IntOverflow.

(** The digits of [%lu]. *)
Fixpoint digits_aux (fuel : nat) (n : Z) (acc : list Z) : list Z :=
  match fuel with
  | O => acc
  | S f =>
      let acc' := (48 + n mod 10) :: acc in
      if n <? 10 then acc' else digits_aux f (n / 10) acc'
  end.

(** Twenty digits hold any [unsigned long]. *)
Definition digits (n : Z) : list Z := digits_aux 20 n [].

Example digits_ex : digits 1024 = bytes_of_string "1024".
Proof. reflexivity. Qed.
Example atoi_ex : atoi_value (bytes_of_string "  -12x") = -12.
Proof. reflexivity. Qed.

#[global] Arguments load_string : simpl never.
#[global] Arguments load_bytes : simpl never.
#[global] Arguments store_bytes : simpl never.
#[global] Arguments strlen : simpl never.
#[global] Arguments strcmp_eq : simpl never.
#[global] Arguments memcpy : simpl never.
#[global] Arguments strcpy : simpl never.

(** ** Rules *)

(** [atoi] reads what [%lu] writes. *)
Lemma digits_aux_value fuel : forall n acc,
  0 <= n < 10 ^ Z.of_nat fuel -> (0 < fuel)%nat ->
  digits_value 0 (digits_aux fuel n acc) = digits_value n acc.
Proof.
  induction fuel as [|fuel IH]; intros n acc Hn Hf; [lia|]. cbn [digits_aux].
  assert (is_digit (48 + n mod 10) = true) as Hd.
  { unfold is_digit. pose proof (Z.mod_pos_bound n 10). apply andb_true_iff.
    rewrite !Z.leb_le. lia. }
  pose proof (Z.div_mod n 10).
  destruct (Z.ltb_spec n 10).
  - cbn [digits_value]. rewrite Hd. f_equal. rewrite Z.mod_small; lia.
  - rewrite Nat2Z.inj_succ Z.pow_succ_r in Hn; [|lia].
    assert (0 < fuel)%nat by (destruct fuel; simpl in Hn; lia).
    rewrite IH; [|split; [apply Z.div_pos|apply Z.div_lt_upper_bound]; lia|done].
    cbn [digits_value]. rewrite Hd. f_equal. lia.
Qed.

Lemma digits_aux_digits fuel : forall n acc,
  0 <= n -> forallb is_digit acc = true -> forallb is_digit (digits_aux fuel n acc) = true.
Proof.
  induction fuel as [|fuel IH]; intros n acc Hn Ha; [done|]. cbn [digits_aux].
  assert (forallb is_digit ((48 + n mod 10) :: acc) = true) as Ha'.
  { simpl. rewrite Ha andb_true_r. unfold is_digit. pose proof (Z.mod_pos_bound n 10).
    apply andb_true_iff. rewrite !Z.leb_le. lia. }
  case_match; [done|]. apply IH; [by apply Z.div_pos|done].
Qed.

Lemma digits_digits n : 0 <= n -> forallb is_digit (digits n) = true.
Proof. intros Hn. by apply digits_aux_digits. Qed.

Lemma digits_aux_length fuel : forall n acc,
  (length (digits_aux fuel n acc) <= fuel + length acc)%nat.
Proof.
  induction fuel as [|fuel IH]; intros n acc; [done|]. cbn [digits_aux].
  case_match; simpl; [lia|]. etransitivity; [apply IH|]. simpl. lia.
Qed.

Lemma digits_length n : (length (digits n) <= 20)%nat.
Proof. apply (digits_aux_length 20 n []). Qed.

Lemma is_digit_range c : is_digit c = true -> 48 <= c <= 57.
Proof. unfold is_digit. rewrite andb_true_iff !Z.leb_le. done. Qed.

Lemma atoi_digits n : 0 <= n < 10 ^ 20 -> atoi_value (digits n) = n.
Proof.
  intros Hn. transitivity (digits_value 0 (digits n)).
  2:{ unfold digits. rewrite digits_aux_value //; lia. }
  pose proof (digits_digits n) as Hd. unfold atoi_value.
  destruct (digits n) as [|c s]; [done|]. simpl in Hd.
  destruct (proj1 (andb_true_iff _ _) (Hd ltac:(lia))) as [Hc%is_digit_range _].
  cbn [skip_space]. replace (is_space c) with false.
  2:{ unfold is_space. symmetry. rewrite orb_false_iff andb_false_iff Z.eqb_neq !Z.leb_gt. lia. }
  assert (c <> 45 /\ c <> 43) as [H1 H2] by lia.
  destruct c as [|p|p]; [done| |done]. do 6 (destruct p as [p|p|]; try done).
Qed.

Lemma scan_string s rest :
  Forall (fun c => c <> 0) s -> scan ((Det <$> s) ++ Det 0 :: rest) = inr s.
Proof.
  induction 1 as [|c s Hc _ IH]; simpl; [done|].
  destruct (Z.eqb_spec c 0); [done|]. by rewrite IH.
Qed.

Lemma wp_load_string l s rest Φ :
  Forall (fun c => c <> 0) s ->
  l ↦ ((Det <$> s) ++ Det 0 :: rest) -∗ (l ↦ ((Det <$> s) ++ Det 0 :: rest) -∗ Φ s) -∗
  wp (load_string (Some (l, 0))) Φ.
Proof.
  iIntros (Hs) "Hl HΦ". unfold load_string. wp_load. simpl.
  destruct (Z.leb_spec 0 (Z.of_nat (length ((Det <$> s) ++ Det 0 :: rest)))); [|lia].
  rewrite drop_0 scan_string //. iApply wp_ret. by iApply "HΦ".
Qed.

Lemma wp_strlen l s rest Φ :
  Forall (fun c => c <> 0) s ->
  l ↦ ((Det <$> s) ++ Det 0 :: rest) -∗
  (l ↦ ((Det <$> s) ++ Det 0 :: rest) -∗ Φ (Z.of_nat (length s))) -∗
  wp (strlen (Some (l, 0))) Φ.
Proof.
  iIntros (Hs) "Hl HΦ". iApply wp_bind. iApply (wp_load_string with "Hl"); [done|].
  iIntros "Hl". iApply wp_ret. by iApply "HΦ".
Qed.

Lemma slice_app xs ys zs i n :
  i = Z.of_nat (length xs) -> n = Z.of_nat (length ys) ->
  slice i n (xs ++ ys ++ zs) = Some ys.
Proof.
  intros -> ->. unfold slice. rewrite !length_app.
  rewrite !(proj2 (Z.leb_le _ _)); [|lia..]. simpl.
  by rewrite !Nat2Z.id drop_app_length take_app_length.
Qed.

Lemma slice_start n (b : list (fld Z)) :
  (n <= length b)%nat -> slice 0 (Z.of_nat n) b = Some (take n b).
Proof.
  intros Hn. unfold slice. rewrite (proj2 (Z.leb_le 0 (Z.of_nat n))); [|lia].
  rewrite (proj2 (Z.leb_le (0 + Z.of_nat n) (Z.of_nat (length b)))); [|lia]. simpl.
  by rewrite Nat2Z.id drop_0.
Qed.

Lemma splice_app xs ys ys' zs i :
  i = Z.of_nat (length xs) -> length ys' = length ys ->
  splice i ys' (xs ++ ys ++ zs) = Some (xs ++ ys' ++ zs).
Proof.
  intros -> Hlen. unfold splice. rewrite !length_app Hlen.
  rewrite !(proj2 (Z.leb_le _ _)); [|lia..]. simpl. rewrite !Nat2Z.id take_app_length.
  by rewrite (assoc_L (++) xs ys zs) drop_app_length' ?length_app.
Qed.

Lemma splice_start xs b :
  (length xs <= length b)%nat -> splice 0 xs b = Some (xs ++ drop (length xs) b).
Proof.
  intros Hlen. unfold splice.
  by destruct (Z.leb_spec (0 + Z.of_nat (length xs)) (Z.of_nat (length b))); [|lia].
Qed.

Lemma wp_load_bytes l i n b xs Φ :
  slice i n b = Some xs ->
  l ↦ b -∗ (l ↦ b -∗ Φ xs) -∗ wp (load_bytes (Some (l, i)) n) Φ.
Proof.
  iIntros (Hs) "Hl HΦ". unfold load_bytes. wp_load. rewrite Hs. iApply wp_ret.
  by iApply "HΦ".
Qed.

Lemma wp_store_bytes l i b b' xs Φ :
  splice i xs b = Some b' ->
  l ↦ b -∗ (l ↦ b' -∗ Φ ()) -∗ wp (store_bytes (Some (l, i)) xs) Φ.
Proof.
  iIntros (Hs) "Hl HΦ". unfold store_bytes. wp_load. rewrite Hs.
  by iApply (wp_store with "[$]").
Qed.

Lemma wp_memcpy ld i ls j n bd bs xs bd' Φ :
  slice j n bs = Some xs -> splice i xs bd = Some bd' ->
  ld ↦ bd -∗ ls ↦ bs -∗ (ld ↦ bd' -∗ ls ↦ bs -∗ Φ ()) -∗
  wp (memcpy (Some (ld, i)) (Some (ls, j)) n) Φ.
Proof.
  iIntros (Hs Hd) "Hd Hs HΦ". iApply wp_bind.
  iApply (wp_load_bytes with "Hs"); [done|]. iIntros "Hs".
  iApply (wp_store_bytes with "Hd"); [done|]. iIntros "Hd". iApply ("HΦ" with "Hd Hs").
Qed.

Lemma wp_strcpy ld ls s rest bd Φ :
  Forall (fun c => c <> 0) s -> (length s < length bd)%nat ->
  ld ↦ bd -∗ ls ↦ ((Det <$> s) ++ Det 0 :: rest) -∗
  (ld ↦ ((Det <$> s) ++ Det 0 :: drop (S (length s)) bd) -∗
   ls ↦ ((Det <$> s) ++ Det 0 :: rest) -∗ Φ ()) -∗
  wp (strcpy (Some (ld, 0)) (Some (ls, 0))) Φ.
Proof.
  iIntros (Hs Hlen) "Hd Hs HΦ". unfold strcpy. iApply wp_bind.
  iApply (wp_load_string with "Hs"); [done|]. iIntros "Hs".
  iApply (wp_store_bytes with "Hd").
  { apply splice_start. rewrite length_app length_fmap /=. lia. }
  rewrite length_app length_fmap Nat.add_1_r -assoc_L. iIntros "Hd".
  iApply ("HΦ" with "Hd Hs").
Qed.
