(* ===== verification/CString.v ===== *)
(** The growable strings of [src/src/cstring.c], into which
    [print_sexp_cstr] prints. *)
From S2P Require Import Prelude SexpTypes CMem SepLogic SexpMemory CLib.

(** A [char *] argument: a string literal, or a pointer. *)
Inductive cstr_arg : Type :=
  | Literal (s : list Z)
  | At (p : cptr).

Definition is_null_arg (a : cstr_arg) : bool :=
  match a with At None => true | _ => false end.

Definition arg_string (a : cstr_arg) : M (list Z) :=
  match a with
  | Literal s => mret s
  | At p => load_string p
  end.

Section CString.
Context {api : MemApi}.

Definition sgrowsize (s : Z) : M unit :=
  if s <? 1 then mret () else gset_ g_cstring_growsize s.

Definition snew (s : Z) : M ptr :=
  cs ← sexp_malloc sizeof_CSTRING ();
  match cs with
  | None => set_errno SEXP_ERR_MEMORY;; mret None
  | Some _ =>
      base ← calloc_chars 1 s;
      match base with
      | None =>
          sexp_free cs sizeof_CSTRING;;
          set_errno SEXP_ERR_MEMORY;;
          mret None
      | Some _ => init cs (mk_cstring base s 0);; mret cs
      end
  end.

(** [s->base] reallocated to [newlen] bytes; [k] goes on with the string
    whose new base and length are recorded. *)
Definition regrow (s : ptr) (newlen : Z) (k : M ptr) : M ptr :=
  c ← load (A := CSTRING) s;
  newbase ← sexp_realloc (cs_base c) newlen (cs_len c);
  match newbase with
  | None => set_errno SEXP_ERR_MEMORY;; mret None
  | Some _ => store s (c <| cs_len := newlen |> <| cs_base := newbase |>);; k
  end.

(** The copy at the end of [sadd]: [memcpy], the new length, the NUL. *)
Definition sadd_copy (s : ptr) (str : list Z) : M ptr :=
  c ← load (A := CSTRING) s;
  store_bytes (cursor (cs_base c) (cs_curlen c)) (Det <$> str);;
  let curlen := u64 (cs_curlen c + Z.of_nat (length str)) in
  store s (c <| cs_curlen := curlen |>);;
  store_char (cursor (cs_base c) curlen) 0;;
  mret s.

Definition sadd (s : ptr) (a : cstr_arg) : M ptr :=
  match s with
  | None => mret None
  | Some _ =>
      if is_null_arg a then mret s
      else
        str ← arg_string a;
        let alen := Z.of_nat (length str) in
        c ← load (A := CSTRING) s;
        growsize ← gget (A := Z) g_cstring_growsize;
        if cs_len c <=? u64 (cs_curlen c + alen) then
          regrow s (u64 (cs_len c + growsize + alen)) (sadd_copy s str)
        else sadd_copy s str
  end.

Definition saddch_put (s : ptr) (a : Z) : M ptr :=
  c ← load (A := CSTRING) s;
  store_char (cursor (cs_base c) (cs_curlen c)) a;;
  let curlen := u64 (cs_curlen c + 1) in
  store s (c <| cs_curlen := curlen |>);;
  store_char (cursor (cs_base c) curlen) 0;;
  mret s.

Definition saddch (s : ptr) (a : Z) : M ptr :=
  match s with
  | None => mret None
  | Some _ =>
      c ← load (A := CSTRING) s;
      growsize ← gget (A := Z) g_cstring_growsize;
      if cs_len c <=? u64 (cs_curlen c + 1) then
        regrow s (u64 (cs_len c + growsize + 1)) (saddch_put s a)
      else saddch_put s a
  end.

Definition strim (s : ptr) : M ptr :=
  match s with
  | None => mret None
  | Some _ =>
      c ← load (A := CSTRING) s;
      if cs_len c =? u64 (cs_curlen c + 1) then mret s
      else regrow s (u64 (cs_curlen c + 1)) (mret s)
  end.

Definition toCharPtr (s : ptr) : M ptr :=
  match s with
  | None => mret None
  | Some _ => c ← load (A := CSTRING) s; mret (cs_base c)
  end.

Definition sempty (s : ptr) : M unit :=
  match s with
  | None => mret ()
  | Some _ => modify s (fun c => c <| cs_curlen := 0 |>)
  end.

Definition sdestroy (s : ptr) : M unit :=
  match s with
  | None => mret ()
  | Some _ =>
      c ← load (A := CSTRING) s;
      sexp_free (cs_base c) (cs_len c);;
      sexp_free s sizeof_CSTRING
  end.
End CString.

#[global] Arguments arg_string : simpl never.
#[global] Arguments snew : simpl never.
#[global] Arguments sadd : simpl never.
#[global] Arguments saddch : simpl never.
#[global] Arguments strim : simpl never.
#[global] Arguments sempty : simpl never.
#[global] Arguments sdestroy : simpl never.

(** ** The string a client sees

    The string at [s] is [str], followed in its block by [rest]. *)
Definition cstring_at (s : loc) (str : list Z) (rest : list (fld Z)) : hprop :=
  (∃ base, s ↦ mk_cstring (Some base) (Z.of_nat (length str + length rest))
                 (Z.of_nat (length str)) ∗
     base ↦ ((Det <$> str) ++ rest))%I.

(** The C string an argument designates. *)
Definition arg_at (a : cstr_arg) (str : list Z) : hprop :=
  match a with
  | Literal s => ⌈s = str⌉
  | At (Some (l, i)) =>
      ∃ rest, l ↦ ((Det <$> str) ++ Det 0 :: rest) ∗ ⌈i = 0 /\ Forall (fun c => c <> 0) str⌉
  | At None => False
  end%I.

Section specs.
Context {api : MemApi} {laws : MemLaws api}.
Implicit Types (s : loc) (str a : list Z) (rest : list (fld Z)) (g n : Z).

Lemma wp_snew_ok n Φ :
  0 <= n < 2 ^ 64 ->
  mem_ok -∗
  (∀ s, cstring_at s [] (replicate (Z.to_nat n) (Det 0)) -∗ mem_ok -∗ Φ (Some s)) -∗
  wp (snew n) Φ.
Proof.
  iIntros (Hn) "Hm HΦ". unfold snew. wp_bind_head.
  iApply (wp_malloc_ok with "Hm"). iIntros (s) "Hs Hm". wp_bind_head.
  iApply (wp_calloc_ok with "Hm"). iIntros (b) "Hb Hm". wp_init. wp_ret.
  rewrite Z.mul_1_l u64_small //.
  iApply ("HΦ" with "[-Hm] Hm"). iExists b. iFrame. rewrite length_replicate /=.
  by rewrite Z2Nat.id; [iFrame|lia].
Qed.

(** The block after a successful regrowth has room behind the string. *)
Lemma resize_string str rest k :
  resize (length str + length rest + k) ((Det <$> str) ++ rest) =
  (Det <$> str) ++ rest ++ replicate k Indet.
Proof.
  rewrite resize_grow ?length_app ?length_fmap; [|lia].
  rewrite (_ : (length str + length rest + k - (length str + length rest) = k)%nat);
    [by rewrite assoc_L|lia].
Qed.

Lemma wp_regrow_ok s str rest k m kont Φ :
  m = Z.of_nat (length str + length rest + k) ->
  cstring_at s str rest -∗ mem_ok -∗
  (cstring_at s str (rest ++ replicate k Indet) -∗ mem_ok -∗ wp kont Φ) -∗
  wp (regrow (Some s) m kont) Φ.
Proof.
  iIntros (->) "(%b & Hs & Hb) Hm HΦ". unfold regrow. wp_load. wp_bind_head.
  iApply (wp_realloc_ok with "Hb Hm"). iIntros (b') "Hb Hm".
  wp_store. iApply ("HΦ" with "[-Hm] Hm"). iExists b'.
  rewrite Nat2Z.id resize_string length_app length_replicate Nat.add_assoc. iFrame.
Qed.

(** Out of memory the string stays as it was. *)
Lemma wp_regrow s str rest k m kont Φ :
  m = Z.of_nat (length str + length rest + k) ->
  cstring_at s str rest -∗ mem_own -∗ errno_own -∗
  (cstring_at s str (rest ++ replicate k Indet) -∗ mem_own -∗ errno_own -∗ wp kont Φ) ∧
  (g_sexp_errno ↦ SEXP_ERR_MEMORY -∗ mem_own -∗ cstring_at s str rest -∗ Φ None) -∗
  wp (regrow (Some s) m kont) Φ.
Proof.
  iIntros (->) "(%b & Hs & Hb) Hm He HΦ". unfold regrow. wp_load. wp_bind_head.
  iApply (wp_realloc with "Hb Hm He"). iIntros ([b'|]) "Hb [Hm He]".
  - iDestruct "HΦ" as "[HΦ _]". wp_store. iApply ("HΦ" with "[-Hm He] Hm He"). iExists b'.
    rewrite Nat2Z.id resize_string length_app length_replicate Nat.add_assoc. iFrame.
  - iDestruct "HΦ" as "[_ HΦ]". wp_set_errno. iApply wp_ret.
    iApply ("HΦ" with "[$] Hm"). iExists b. iFrame.
Qed.

(** Appending where there is room. *)
Lemma wp_sadd_copy s str a rest Φ :
  (length a < length rest)%nat -> Z.of_nat (length str + length rest) < 2 ^ 64 ->
  cstring_at s str rest -∗
  (cstring_at s (str ++ a) (Det 0 :: drop (S (length a)) rest) -∗ Φ (Some s)) -∗
  wp (sadd_copy (Some s) a) Φ.
Proof.
  iIntros (Hroom Hsz) "(%b & Hs & Hb) HΦ". unfold sadd_copy. wp_load.
  destruct (list_split (length a) rest) as (r1 & x & r2 & -> & Hr1); [done|].
  rewrite length_app /= in Hsz |- *.
  wp_bind_head. rewrite u64_small; [|lia]. simpl cursor.
  iApply (wp_store_bytes with "Hb").
  { apply (splice_app _ r1 _ (x :: r2)); rewrite length_fmap //. }
  iIntros "Hb". wp_store. wp_bind_head.
  iApply (wp_store_char with "Hb").
  { rewrite app_assoc. apply blk_set_app. rewrite length_app !length_fmap. lia. }
  iIntros "Hb". wp_ret. iApply "HΦ". iExists b.
  rewrite drop_S_app // fmap_app length_app -Nat2Z.inj_add -assoc_L. iFrame.
  rewrite (_ : (length str + length a + S (length r2) =
                length str + (length r1 + S (length r2)))%nat); [iFrame|lia].
Qed.

Lemma wp_saddch_put s str (a : Z) rest Φ :
  (1 < length rest)%nat -> Z.of_nat (length str + length rest) < 2 ^ 64 ->
  cstring_at s str rest -∗
  (cstring_at s (str ++ [a]) (Det 0 :: drop 2 rest) -∗ Φ (Some s)) -∗
  wp (saddch_put (Some s) a) Φ.
Proof.
  iIntros (Hroom Hsz) "(%b & Hs & Hb) HΦ". unfold saddch_put. wp_load.
  destruct rest as [|x [|y rest]]; simpl in Hroom; [lia..|]. simpl in Hsz.
  wp_bind_head. rewrite u64_small; [|lia].
  iApply (wp_store_char with "Hb"); [apply blk_set_app; by rewrite length_fmap|].
  iIntros "Hb". wp_store. wp_bind_head. iApply (wp_store_char with "Hb").
  { rewrite cons_middle assoc_L. apply blk_set_app. rewrite length_app length_fmap /=. lia. }
  iIntros "Hb". wp_ret. iApply "HΦ". iExists b.
  rewrite fmap_app length_app /= drop_0. iFrame.
  fields. rewrite (_ : (length str + 1 + S (length rest) =
    length str + S (S (length rest)))%nat); [|lia].
  by rewrite (Nat2Z.inj_add (length str) 1).
Qed.

(** The length of the block after appending [n] characters to a string of
    [k] in a block of [cap]. *)
Definition grown (g : Z) (cap k n : nat) : nat :=
  if (cap <=? k + n)%nat then (cap + Z.to_nat g + n)%nat else cap.

Lemma wp_arg_string x a Φ :
  arg_at x a -∗ (arg_at x a -∗ Φ a) -∗ wp (arg_string x) Φ.
Proof.
  iIntros "Hx HΦ". unfold arg_string. destruct x as [l|[[l i]|]]; simpl.
  - iDestruct "Hx" as %->. iApply wp_ret. by iApply "HΦ".
  - iDestruct "Hx" as "(%rest & Hl & %Hi & %Ha)". subst i.
    iApply (wp_load_string with "Hl"); [done|]. iIntros "Hl". iApply "HΦ".
    iExists rest. by iFrame.
  - iDestruct "Hx" as %[].
Qed.

Lemma arg_at_nonnull x a : arg_at x a ⊢ ⌜is_null_arg x = false⌝.
Proof. destruct x as [l|[[l i]|]]; simpl; iIntros "H"; [done..|]. iDestruct "H" as %[]. Qed.

Lemma wp_cstring_load s str rest Φ :
  cstring_at s str rest -∗
  (∀ b, cstring_at s str rest -∗
     Φ (mk_cstring (Some b) (Z.of_nat (length str + length rest)) (Z.of_nat (length str)))) -∗
  wp (load (Some s)) Φ.
Proof.
  iIntros "(%b & Hs & Hb) HΦ". iApply (wp_load with "Hs"). iIntros "Hs".
  iApply "HΦ". iExists b. iFrame.
Qed.

(** [sadd] appends, and keeps a NUL behind the string. *)
Lemma wp_sadd_ok s str rest x a g Φ :
  0 < g -> Z.of_nat (length str + length rest) + g + Z.of_nat (length a) < 2 ^ 64 ->
  cstring_at s str rest -∗ arg_at x a -∗ g_cstring_growsize ↦ g -∗ mem_ok -∗
  (∀ rest', cstring_at s (str ++ a) (Det 0 :: rest') ∗
     ⌈(length (str ++ a) + S (length rest') =
       grown g (length str + length rest) (length str) (length a))%nat⌉ -∗
     arg_at x a -∗ g_cstring_growsize ↦ g -∗ mem_ok -∗ Φ (Some s)) -∗
  wp (sadd (Some s) x) Φ.
Proof.
  iIntros (Hg Hsz) "Hs Hx Hg Hm HΦ". unfold sadd, grown.
  iDestruct (arg_at_nonnull with "Hx") as %->. wp_bind_head.
  iApply (wp_arg_string with "Hx"). iIntros "Hx".
  wp_bind_head. iApply (wp_cstring_load with "Hs"). iIntros (b) "Hs". fields. wp_gget.
  rewrite -Nat2Z.inj_add u64_small; [|lia].
  destruct (Nat.leb_spec (length str + length rest) (length str + length a));
    destruct (Z.leb_spec (Z.of_nat (length str + length rest))
                (Z.of_nat (length str + length a))); try lia.
  - rewrite u64_small; [|lia].
    iApply (wp_regrow_ok _ _ _ (Z.to_nat g + length a) with "Hs Hm"); [lia|].
    iIntros "Hs Hm". iApply (wp_sadd_copy with "Hs");
      [rewrite length_app length_replicate; lia..|].
    iIntros "Hs". iApply ("HΦ" with "[Hs] Hx [$] Hm"). iFrame "Hs". iPureIntro.
    rewrite length_app length_drop length_app length_replicate. lia.
  - iApply (wp_sadd_copy with "Hs"); [lia..|].
    iIntros "Hs". iApply ("HΦ" with "[Hs] Hx [$] Hm"). iFrame "Hs". iPureIntro.
    rewrite length_app length_drop. lia.
Qed.

Lemma wp_saddch_ok s str rest (a g : Z) Φ :
  0 < g -> Z.of_nat (length str + length rest) + g + 1 < 2 ^ 64 ->
  cstring_at s str rest -∗ g_cstring_growsize ↦ g -∗ mem_ok -∗
  (∀ rest', cstring_at s (str ++ [a]) (Det 0 :: rest') ∗
     ⌈(length (str ++ [a]) + S (length rest') =
       grown g (length str + length rest) (length str) 1)%nat⌉ -∗
     g_cstring_growsize ↦ g -∗ mem_ok -∗ Φ (Some s)) -∗
  wp (saddch (Some s) a) Φ.
Proof.
  iIntros (Hg Hsz) "Hs Hg Hm HΦ". unfold saddch, grown.
  wp_bind_head. iApply (wp_cstring_load with "Hs"). iIntros (b) "Hs". fields. wp_gget.
  rewrite u64_small; [|lia].
  destruct (Nat.leb_spec (length str + length rest) (length str + 1));
    destruct (Z.leb_spec (Z.of_nat (length str + length rest))
                (Z.of_nat (length str) + 1)); try lia.
  - rewrite u64_small; [|lia].
    iApply (wp_regrow_ok _ _ _ (Z.to_nat g + 1) with "Hs Hm"); [lia|].
    iIntros "Hs Hm". iApply (wp_saddch_put with "Hs");
      [rewrite length_app length_replicate; lia..|].
    iIntros "Hs". iApply ("HΦ" with "[Hs] [$] Hm"). iFrame "Hs". iPureIntro.
    rewrite length_app length_drop length_app length_replicate /=. lia.
  - iApply (wp_saddch_put with "Hs"); [lia..|].
    iIntros "Hs". iApply ("HΦ" with "[Hs] [$] Hm"). iFrame "Hs". iPureIntro.
    rewrite length_app length_drop /=. lia.
Qed.

(** A failed [sadd] or [saddch] leaves the string alone. *)
Lemma wp_sadd_fail_or_append s str rest x a g Φ :
  0 < g -> Z.of_nat (length str + length rest) + g + Z.of_nat (length a) < 2 ^ 64 ->
  cstring_at s str rest -∗ arg_at x a -∗ g_cstring_growsize ↦ g -∗ mem_own -∗ errno_own -∗
  (∀ p, match p with
        | Some s' => ⌈s' = s⌉ ∗ errno_own ∗ ∃ rest', cstring_at s (str ++ a) (Det 0 :: rest')
        | None => g_sexp_errno ↦ SEXP_ERR_MEMORY ∗ cstring_at s str rest
        end -∗
     arg_at x a ∗ g_cstring_growsize ↦ g ∗ mem_own -∗ Φ p) -∗
  wp (sadd (Some s) x) Φ.
Proof.
  iIntros (Hg Hsz) "Hs Hx Hg Hm He HΦ". unfold sadd.
  iDestruct (arg_at_nonnull with "Hx") as %->. wp_bind_head.
  iApply (wp_arg_string with "Hx"). iIntros "Hx".
  wp_bind_head. iApply (wp_cstring_load with "Hs"). iIntros (b) "Hs". fields. wp_gget.
  rewrite -Nat2Z.inj_add u64_small; [|lia].
  destruct (Z.leb_spec (Z.of_nat (length str + length rest))
              (Z.of_nat (length str + length a))).
  - rewrite u64_small; [|lia].
    iApply (wp_regrow _ _ _ (Z.to_nat g + length a) with "Hs Hm He"); [lia|]. iSplit.
    + iIntros "Hs Hm He". iApply (wp_sadd_copy with "Hs");
        [rewrite length_app length_replicate; lia..|].
      iIntros "Hs". iApply ("HΦ" $! (Some s) with "[Hs He]"); iFrame. done.
    + iIntros "He Hm Hs". iApply ("HΦ" $! None with "[$] [$]").
  - iApply (wp_sadd_copy with "Hs"); [lia..|].
    iIntros "Hs". iApply ("HΦ" $! (Some s) with "[Hs He]"); iFrame. done.
Qed.

(** [strim] gives the room back and keeps the string. *)
Lemma wp_strim_ok s str rest Φ :
  Z.of_nat (length str + length rest) + 1 < 2 ^ 64 ->
  cstring_at s str (Det 0 :: rest) -∗ mem_ok -∗
  (cstring_at s str [Det 0] -∗ mem_ok -∗ Φ (Some s)) -∗
  wp (strim (Some s)) Φ.
Proof.
  iIntros (Hsz) "(%b & Hs & Hb) Hm HΦ". unfold strim. wp_load.
  rewrite u64_small; [|lia]. simpl length.
  destruct (Z.eqb_spec (Z.of_nat (length str + S (length rest)))
              (Z.of_nat (length str) + 1)).
  - wp_ret. iApply ("HΦ" with "[-Hm] Hm"). destruct rest; simpl length in *; [|lia].
    iExists b. iFrame.
  - unfold regrow. wp_load. wp_bind_head. iApply (wp_realloc_ok with "Hb Hm").
    iIntros (b') "Hb Hm". wp_store. iApply wp_ret. iApply ("HΦ" with "[-Hm] Hm").
    iExists b'. rewrite -(Nat2Z.inj_add _ 1) Nat2Z.id Nat.add_1_r /=.
    rewrite (_ : resize _ _ = (Det <$> str) ++ [Det 0]); [iFrame|].
    unfold resize. rewrite length_app length_fmap.
    rewrite (_ : (S (length str) - _ = 0)%nat); [|simpl; lia].
    rewrite app_nil_r -Nat.add_1_r take_app_add' ?length_fmap //.
Qed.

Lemma wp_sempty s str rest Φ :
  cstring_at s str rest -∗
  (cstring_at s [] ((Det <$> str) ++ rest) -∗ Φ ()) -∗ wp (sempty (Some s)) Φ.
Proof.
  iIntros "(%b & Hs & Hb) HΦ". unfold sempty. wp_modify. iApply "HΦ". iExists b.
  rewrite length_app length_fmap. iFrame.
Qed.

Lemma wp_sdestroy_ok s str rest Φ :
  cstring_at s str rest -∗ mem_ok -∗ (mem_ok -∗ Φ ()) -∗ wp (sdestroy (Some s)) Φ.
Proof.
  iIntros "(%b & Hs & Hb) Hm HΦ". unfold sdestroy. wp_load. wp_bind_head.
  iApply (wp_sexp_free_ok with "Hb Hm"). iIntros "Hm".
  by iApply (wp_sexp_free_ok s with "[$] Hm").
Qed.
End specs.

Section theorems.
Context {api : MemApi} {laws : MemLaws api}.

(** C33. [sadd] appends the characters of its argument and a NUL.  The block
    is reallocated exactly when the characters and the NUL do not fit, and
    it then grows by the growth size and the length of the argument; the
    argument may be a literal or a string in memory. *)
Theorem sadd_appends s str rest x a g :
  0 < g -> Z.of_nat (length str + length rest) + g + Z.of_nat (length a) < 2 ^ 64 ->
  ⦃ cstring_at s str rest ∗ arg_at x a ∗ g_cstring_growsize ↦ g ∗ mem_ok ⦄
    sadd (Some s) x
  ⟪ r, ⌈r = Some s⌉ ∗ arg_at x a ∗ g_cstring_growsize ↦ g ∗ mem_ok ∗
       ∃ rest', cstring_at s (str ++ a) (Det 0 :: rest') ∗
         ⌈(length (str ++ a) + S (length rest') =
           grown g (length str + length rest) (length str) (length a))%nat⌉ ⟫.
Proof.
  iIntros (Hg Hsz) "(Hs & Hx & Hg & Hm)".
  iApply (wp_sadd_ok with "Hs Hx Hg Hm"); [done..|].
  iIntros (rest') "H Hx Hg Hm". by iFrame.
Qed.

(** C34. When the allocator refuses, [sadd] returns NULL and reports it, and
    the string is the one it was: nothing is lost, nothing is leaked. *)
Theorem sadd_fails_cleanly s str rest x a g :
  0 < g -> Z.of_nat (length str + length rest) + g + Z.of_nat (length a) < 2 ^ 64 ->
  ⦃ cstring_at s str rest ∗ arg_at x a ∗ g_cstring_growsize ↦ g ∗ mem_own ∗ errno_own ⦄
    sadd (Some s) x
  ⟪ r, arg_at x a ∗ g_cstring_growsize ↦ g ∗ mem_own ∗
       match r with
       | Some s' => ⌈s' = s⌉ ∗ errno_own ∗ ∃ rest', cstring_at s (str ++ a) (Det 0 :: rest')
       | None => g_sexp_errno ↦ SEXP_ERR_MEMORY ∗ cstring_at s str rest
       end ⟫.
Proof.
  iIntros (Hg Hsz) "(Hs & Hx & Hg & Hm & He)".
  iApply (wp_sadd_fail_or_append with "Hs Hx Hg Hm He"); [done..|].
  iIntros (p) "H ($ & $ & $)". iExact "H".
Qed.
End theorems.

(** The string "ab" in a block of four bytes, and "xyz" in memory. *)
Definition demo_cstring (answers : list bool) : list (loc * cell) :=
  [(50%positive, CCstring (mk_cstring (Some 51%positive) 4 2));
   (51%positive, CChars [Det 97; Det 98; Det 0; Indet]);
   (52%positive, CChars [Det 120; Det 121; Det 122; Det 0]);
   (g_cstring_growsize, CSize 8); (g_answers, CAnswers answers);
   (g_sexp_errno, CErrno SEXP_ERR_OK)].

Lemma demo_cstring_cells answers :
  cells_at (demo_cstring answers) ⊢
  cstring_at 50 [97; 98] [Det 0; Indet] ∗ arg_at (At (Some (52%positive, 0))) [120; 121; 122] ∗
  g_cstring_growsize ↦ 8 ∗ g_answers ↦ answers ∗ errno_own.
Proof.
  iIntros "(Hs & Hb & Hx & Hg & Ha & He & _)". iSplitL "Hs Hb".
  { iExists 51%positive. iSplitL "Hs"; [iExact "Hs"|iExact "Hb"]. }
  iSplitL "Hx"; [iExists []; iSplitL; [iExact "Hx"|]|].
  { iPureIntro. split; [done|]. by repeat constructor. }
  iSplitL "Hg"; [iExact "Hg"|]. iSplitL "Ha"; [iExact "Ha"|]. iExists SEXP_ERR_OK. iExact "He".
Qed.

Lemma sadd_appends_witness :
  exists r h,
    @sadd default_mem (Some 50%positive) (At (Some (52%positive, 0)))
      (heap_of ((g_answers, CAnswers []) :: take 4 (demo_cstring []))) = Done r h /\
    (⌈r = Some 50%positive⌉ ∗ arg_at (At (Some (52%positive, 0))) [120; 121; 122] ∗
     g_cstring_growsize ↦ 8 ∗ @mem_ok default_mem _ ∗
     ∃ rest', cstring_at 50 ([97; 98] ++ [120; 121; 122]) (Det 0 :: rest') ∗
       ⌈(length ([97; 98] ++ [120; 121; 122])%Z + S (length rest') = grown 8 4 2 3)%nat⌉)%I h.
Proof.
  refine (run_triple _ _ _ _ (sadd_appends 50 [97; 98] [Det 0; Indet]
    (At (Some (52%positive, 0))) [120; 121; 122] 8 _ _) _ _).
  - done.
  - done.
  - apply (bool_decide_unpack _). by vm_compute.
  - iIntros "(Ha & Hs & Hb & Hx & Hg & _)". iSplitL "Hs Hb".
    { iExists 51%positive. iSplitL "Hs"; [iExact "Hs"|iExact "Hb"]. }
    iSplitL "Hx"; [iExists []; iSplitL; [iExact "Hx"|]|].
    { iPureIntro. split; [done|]. by repeat constructor. }
    iSplitL "Hg"; [iExact "Hg"|iExact "Ha"].
Defined.

Lemma sadd_fails_cleanly_witness :
  exists r h,
    @sadd default_mem (Some 50%positive) (At (Some (52%positive, 0)))
      (heap_of (demo_cstring [false])) = Done r h /\
    (arg_at (At (Some (52%positive, 0))) [120; 121; 122] ∗ g_cstring_growsize ↦ 8 ∗
     @mem_own default_mem _ ∗
     match r with
     | Some s' => ⌈s' = 50%positive⌉ ∗ errno_own ∗
         ∃ rest', cstring_at 50 ([97; 98] ++ [120; 121; 122]) (Det 0 :: rest')
     | None => g_sexp_errno ↦ SEXP_ERR_MEMORY ∗ cstring_at 50 [97; 98] [Det 0; Indet]
     end)%I h.
Proof.
  refine (run_triple _ _ _ _ (sadd_fails_cleanly 50 [97; 98] [Det 0; Indet]
    (At (Some (52%positive, 0))) [120; 121; 122] 8 _ _) _ _).
  - done.
  - done.
  - apply (bool_decide_unpack _). by vm_compute.
  - rewrite demo_cstring_cells. iIntros "($ & $ & $ & Ha & $)". by iExists [false].
Defined.
