(* ===== verification/ElementPool.v ===== *)
(** Allocation of list elements and of the parser's bookkeeping records
    (lines 66-313 of [src/src/parser.c]).

    The default build keeps released elements on two stacks and hands them
    out again; with [_NO_MEMORY_MANAGEMENT_] every element goes to the
    allocator.  [PoolApi] is what the rest of the library calls and
    [PoolLaws] what it relies on; both builds are instances. *)
From S2P Require Import Prelude SexpTypes CMem SepLogic SexpMemory FastStack.

Class PoolApi := {
  sexp_t_allocate : M ptr;
  sexp_t_deallocate : ptr -> M unit;
  pd_allocate : M ptr;
  pd_deallocate : ptr -> M unit;
  sexp_cleanup : M unit
}.

(** The contents of a struct that comes from [malloc] and whose [next] and
    [list] were just cleared, and of one that comes from [calloc]. *)
Definition fresh_sexp : sexp_t :=
  mk_sexp Indet Indet Indet Indet None None Indet Indet Indet.
Definition zero_sexp : sexp_t :=
  mk_sexp (Det SEXP_VALUE) (Det None) (Det 0) (Det 0) None None (Det SEXP_BASIC)
    (Det None) (Det 0).
Definition fresh_pd : parse_data_t := mk_pd Indet Indet.

(** [if (s->ty == SEXP_VALUE && s->val != NULL) sexp_free(s->val, ...)] *)
Definition free_val `{MemApi} (s : sexp_t) : M unit :=
  ty ← det (elt_ty s);
  match ty with
  | SEXP_LIST => mret ()
  | SEXP_VALUE =>
      v ← det (elt_val s);
      match v with
      | None => mret ()
      | Some _ => n ← det (elt_val_allocated s); sexp_free v n
      end
  end.

(** ** The default build *)
Module Cached.
Section defs.
Context `{MemApi}.

Definition new_sexp_t : M ptr :=
  sx ← sexp_malloc sizeof_sexp_t fresh_sexp;
  match sx with
  | None => set_errno SEXP_ERR_MEMORY;; mret None
  | Some _ => mret sx
  end.

Definition new_pd : M ptr :=
  p ← sexp_malloc sizeof_parse_data_t fresh_pd;
  match p with
  | None => set_errno SEXP_ERR_MEMORY;; mret None
  | Some _ => mret p
  end.

(** The common shape of the two allocators: [cache] is the global stack,
    [new] the request that is made when it is absent or empty. *)
Definition cache_get (cache : loc) (new : M ptr) : M ptr :=
  c ← gget (A := ptr) cache;
  match c with
  | None =>
      c ← make_stack;
      gset_ cache c;;
      match c with
      | None => set_errno SEXP_ERR_MEMORY;; mret None
      | Some _ => new
      end
  | Some _ =>
      e ← empty_stack c;
      if e : bool then new
      else
        l ← pop c;
        lv ← load (A := stack_lvl_t) l;
        mret (lvl_data lv)
  end.

Definition sexp_t_allocate : M ptr := cache_get g_sexp_t_cache new_sexp_t.
Definition pd_allocate : M ptr := cache_get g_pd_cache new_pd.

(** The stack a released element goes to, made on first use. *)
Definition cache_stack (cache : loc) : M ptr :=
  c ← gget (A := ptr) cache;
  match c with
  | Some _ => mret c
  | None => c ← make_stack; gset_ cache c;; mret c
  end.

Definition sexp_t_deallocate (s : ptr) : M unit :=
  match s with
  | None => mret ()
  | Some _ =>
      c ← cache_stack g_sexp_t_cache;
      match c with
      | None =>
          set_errno SEXP_ERR_MEMORY;;
          sx ← load (A := sexp_t) s;
          free_val sx;;
          sexp_free s sizeof_sexp_t
      | Some _ =>
          modify s (fun sx => sx <| elt_list := None |> <| elt_next := None |>);;
          sx ← load (A := sexp_t) s;
          free_val sx;;
          modify s (fun sx => sx <| elt_val := Det None |>);;
          c' ← push c s;
          gset_ g_sexp_t_cache c'
      end
  end.

Definition pd_deallocate (p : ptr) : M unit :=
  c ← cache_stack g_pd_cache;
  match c with
  | None => sexp_free p sizeof_parse_data_t;; set_errno SEXP_ERR_MEMORY
  | Some _ => c' ← push c p; gset_ g_pd_cache c'
  end.

(** The loop of [sexp_cleanup]: frees the data of every level in use. *)
Definition free_data_body (size : Z) (l : ptr) : M (ptr + ptr) :=
  match l with
  | None => mret (inr None)
  | Some _ =>
      lv ← load (A := stack_lvl_t) l;
      sexp_free (lvl_data lv) size;;
      mret (inl (lvl_below lv))
  end.

Definition free_cache (cache : loc) (size : Z) : M unit :=
  c ← gget (A := ptr) cache;
  match c with
  | None => mret ()
  | Some _ =>
      st ← load (A := faststack_t) c;
      fuel ← heap_fuel;
      while fuel (free_data_body size) (stk_top st);;
      destroy_stack c;;
      gset_ (A := ptr) cache None
  end.

Definition sexp_cleanup : M unit :=
  free_cache g_pd_cache sizeof_parse_data_t;;
  free_cache g_sexp_t_cache sizeof_sexp_t.
End defs.
End Cached.

(** ** The build with [_NO_MEMORY_MANAGEMENT_] *)
Module Plain.
Section defs.
Context `{MemApi}.

Definition sexp_t_allocate : M ptr :=
  sx ← sexp_calloc 1 sizeof_sexp_t zero_sexp;
  match sx with
  | None => set_errno SEXP_ERR_MEMORY;; mret None
  | Some _ => mret sx
  end.

Definition sexp_t_deallocate (s : ptr) : M unit :=
  sx ← load (A := sexp_t) s;
  free_val sx;;
  sexp_free s sizeof_sexp_t.

Definition pd_allocate : M ptr := sexp_malloc sizeof_parse_data_t fresh_pd.
Definition pd_deallocate (p : ptr) : M unit := sexp_free p sizeof_parse_data_t.
Definition sexp_cleanup : M unit := mret ().
End defs.
End Plain.

Definition cached_pool `{MemApi} : PoolApi := {|
  sexp_t_allocate := Cached.sexp_t_allocate;
  sexp_t_deallocate := Cached.sexp_t_deallocate;
  pd_allocate := Cached.pd_allocate;
  pd_deallocate := Cached.pd_deallocate;
  sexp_cleanup := Cached.sexp_cleanup
|}.

Definition plain_pool `{MemApi} : PoolApi := {|
  sexp_t_allocate := Plain.sexp_t_allocate;
  sexp_t_deallocate := Plain.sexp_t_deallocate;
  pd_allocate := Plain.pd_allocate;
  pd_deallocate := Plain.pd_deallocate;
  sexp_cleanup := Plain.sexp_cleanup
|}.

(** ** The laws *)

(** An element as the allocator hands it out: only its links are known. *)
Definition blank_sexp (s : sexp_t) : Prop := elt_list s = None /\ elt_next s = None.

(** An element that can be released without touching its value: a list, or
    a value whose string was taken away. *)
Definition released_sexp (s : sexp_t) : Prop :=
  elt_ty s = Det SEXP_LIST \/ elt_ty s = Det SEXP_VALUE /\ elt_val s = Det None.

(** An element and what is released with it: the string of a value. *)
Definition owned_val (s : sexp_t) : hprop :=
  (⌈released_sexp s⌉ ∨
   ∃ lv (b : list (fld Z)) k,
     ⌈elt_ty s = Det SEXP_VALUE /\ elt_val s = Det (Some lv) /\ elt_val_allocated s = Det k⌉ ∗
     lv ↦ b)%I.

(** [pool_ok n m]: the pools answer every request; at most [n] elements and
    [m] records wait in them (a stack counts its height in an [int]). *)
Class PoolLaws (api : MemApi) `{laws : !MemLaws api} (pool : PoolApi) := {
  pool_ok : nat -> nat -> hprop;
  pool_ok_mono n n' m m' : (n <= n')%nat -> (m <= m')%nat -> pool_ok n m ⊢ pool_ok n' m';
  wp_sexp_t_allocate_ok n m Φ :
    pool_ok n m -∗ mem_ok -∗
    (∀ l s, l ↦ s -∗ ⌈blank_sexp s⌉ -∗ pool_ok (pred n) m -∗ mem_ok -∗ Φ (Some l)) -∗
    wp sexp_t_allocate Φ;
  wp_sexp_t_deallocate_val n m l s Φ :
    Z.of_nat n < int_max ->
    l ↦ s -∗ owned_val s -∗ pool_ok n m -∗ mem_ok -∗
    (pool_ok (S n) m -∗ mem_ok -∗ Φ ()) -∗
    wp (sexp_t_deallocate (Some l)) Φ;
  wp_pd_allocate_ok n m Φ :
    pool_ok n m -∗ mem_ok -∗
    (∀ l (d : parse_data_t), l ↦ d -∗ pool_ok n (pred m) -∗ mem_ok -∗ Φ (Some l)) -∗
    wp pd_allocate Φ;
  wp_pd_deallocate_ok n m l (d : parse_data_t) Φ :
    Z.of_nat m < int_max ->
    l ↦ d -∗ pool_ok n m -∗ mem_ok -∗
    (pool_ok n (S m) -∗ mem_ok -∗ Φ ()) -∗
    wp (pd_deallocate (Some l)) Φ
}.
#[export] Hint Mode PoolLaws - - ! : typeclass_instances.

Lemma wp_sexp_t_deallocate_ok `{PoolLaws} n m l s Φ :
  Z.of_nat n < int_max -> released_sexp s ->
  l ↦ s -∗ pool_ok n m -∗ mem_ok -∗
  (pool_ok (S n) m -∗ mem_ok -∗ Φ ()) -∗
  wp (sexp_t_deallocate (Some l)) Φ.
Proof.
  iIntros (Hn Hs) "Hl". iApply (wp_sexp_t_deallocate_val with "Hl"); [done|]. by iLeft.
Qed.

Lemma wp_free_val `{MemLaws} s Φ :
  owned_val s -∗ mem_ok -∗ (mem_ok -∗ Φ ()) -∗ wp (free_val s) Φ.
Proof.
  iIntros "[%Hs|(%lv & %b & %k & %Hs & Hv)] Hm HΦ"; unfold free_val.
  - destruct Hs as [Hty|[Hty Hv]]; rewrite Hty; wp_det.
    + iApply wp_ret. by iApply "HΦ".
    + rewrite Hv. wp_det. iApply wp_ret. by iApply "HΦ".
  - destruct Hs as (Hty & Hval & Hk). rewrite Hty. wp_det. rewrite Hval. wp_det.
    rewrite Hk. wp_det. iApply (wp_sexp_free_ok lv with "Hv Hm HΦ").
Qed.

(** ** The caches keep their elements *)
Section Cached_laws.
Context {api : MemApi} {laws : MemLaws api}.
Import Cached.

(** The global stack [cache] is absent or holds at most [n] elements, each
    of which is a cell satisfying [res]. *)
Definition stock (res : loc -> hprop) (xs : list ptr) : hprop :=
  ([∗ list] x ∈ xs, ∃ l, ⌈x = Some l⌉ ∗ res l)%I.

Definition cache_at (cache : loc) (res : loc -> hprop) (n : nat) : hprop :=
  (∃ c, cache ↦ c ∗
     match c with
     | None => emp
     | Some s => ∃ xs, is_stack s xs ∗ stock res xs ∗ ⌈(length xs <= n)%nat⌉
     end)%I.

Lemma cache_at_mono cache res n n' :
  (n <= n')%nat -> cache_at cache res n ⊢ cache_at cache res n'.
Proof.
  iIntros (Hn) "(%c & Hc & H)". iExists c. iFrame "Hc". destruct c; [|done].
  iDestruct "H" as (xs) "(Hs & Hx & %Hl)". iExists xs. iFrame. iPureIntro. lia.
Qed.

(** Getting an element, from the stack or from the allocator. *)
Lemma wp_cache_get cache res n new Φ :
  (forall Ψ, mem_ok -∗ (∀ l, res l -∗ mem_ok -∗ Ψ (Some l)) -∗ wp new Ψ) ->
  cache_at cache res n -∗ mem_ok -∗
  (∀ l, res l -∗ cache_at cache res (pred n) -∗ mem_ok -∗ Φ (Some l)) -∗
  wp (cache_get cache new) Φ.
Proof.
  iIntros (Hnew) "(%c & Hc & H) Hm HΦ". unfold cache_get. wp_gget. destruct c as [s|].
  - iDestruct "H" as (xs) "(Hs & Hx & %Hl)". iApply wp_bind.
    iApply (wp_empty_stack with "Hs"). iIntros "Hs". destruct xs as [|x xs]; simpl.
    + iApply (Hnew with "Hm"). iIntros (l) "Hl Hm". iApply ("HΦ" with "Hl [-Hm] Hm").
      iExists _. iFrame. iFrame. iPureIntro. simpl. lia.
    + wp_bind_head. iApply (wp_pop_cons with "Hs"). iIntros (l) "Hs".
      iDestruct (popped_acc with "Hs") as ([a b d]) "(Hl & %Hd & Hs)". simpl in Hd. subst d.
      wp_load. wp_ret. iDestruct "Hx" as "[(%e & -> & He) Hx]".
      iApply ("HΦ" with "He [-Hm] Hm").
      iDestruct ("Hs" $! (Some e) with "[$]") as "Hs".
      iDestruct (popped_is_stack with "Hs") as "Hs".
      iExists _. iFrame. iFrame. iPureIntro. simpl in *. lia.
  - wp_bind_head. iApply (wp_make_stack_ok with "Hm"). iIntros (s) "Hs Hm". wp_gset.
    iApply (Hnew with "Hm"). iIntros (l) "Hl Hm". iApply ("HΦ" with "Hl [-Hm] Hm").
    iExists _. iFrame. iFrame. iPureIntro. simpl. lia.
Qed.

(** Making sure that the stack exists. *)
Lemma wp_cache_stack cache res n Φ :
  cache_at cache res n -∗ mem_ok -∗
  (∀ s xs, cache ↦ Some s -∗ is_stack s xs -∗ stock res xs -∗ ⌈(length xs <= n)%nat⌉ -∗
     mem_ok -∗ Φ (Some s)) -∗
  wp (cache_stack cache) Φ.
Proof.
  iIntros "(%c & Hc & H) Hm HΦ". unfold cache_stack. wp_gget. destruct c as [s|].
  - iDestruct "H" as (xs) "(Hs & Hx & %Hl)". wp_ret. iApply ("HΦ" with "[$] Hs Hx [] Hm"). by iPureIntro.
  - wp_bind_head. iApply (wp_make_stack_ok with "Hm"). iIntros (s) "Hs Hm".
    wp_gset. wp_ret. iApply ("HΦ" $! s [] with "[$] Hs [] [] Hm"); [by unfold stock|].
    iPureIntro. simpl. lia.
Qed.

(** Putting an element back. *)
Lemma wp_cache_put cache (res : loc -> hprop) n s xs l Φ :
  Z.of_nat n < int_max -> (length xs <= n)%nat ->
  cache ↦ Some s -∗ is_stack s xs -∗ stock res xs -∗ res l -∗ mem_ok -∗
  (cache_at cache res (S n) -∗ mem_ok -∗ Φ ()) -∗
  wp (c' ← push (Some s) (Some l); gset_ cache c') Φ.
Proof.
  iIntros (Hn Hl) "Hc Hs Hx Hres Hm HΦ". iApply wp_bind.
  iApply (wp_push_ok with "Hs Hm"); [lia|]. iIntros "Hs Hm".
  iApply (wp_gset with "Hc"). iIntros "Hc". iApply ("HΦ" with "[-Hm] Hm").
  iExists _. iFrame "Hc". iExists (Some l :: xs). unfold stock. simpl. iFrame.
  iSplit; [done|]. iPureIntro. lia.
Qed.

(** The second half of [sexp_cleanup]'s work on one cache. *)
Lemma wp_free_data fuel size (res : loc -> hprop) ls ds i Φ :
  (forall l Ψ, res l -∗ mem_ok -∗ (mem_ok -∗ Ψ ()) -∗ wp (sexp_free (Some l) size) Ψ) ->
  (i <= length ls)%nat -> (i < fuel)%nat ->
  levels ls ds -∗ stock res (reverse (take i ds)) -∗ mem_ok -∗
  (levels ls ds -∗ mem_ok -∗ Φ None) -∗
  wp (while fuel (free_data_body size) (lvl_before ls i)) Φ.
Proof.
  intros Hfree. revert i. induction fuel as [|fuel IH]; intros i Hi Hf; [lia|].
  iIntros "Hl Hx Hm HΦ". iDestruct (levels_length with "Hl") as %Hlen.
  simpl. destruct i as [|i]; simpl lvl_before.
  - unfold free_data_body at 2. wp_ret. iApply wp_ret.
    iAssert emp%I with "[Hx]" as "_"; [done|]. by iApply ("HΦ" with "Hl").
  - destruct (lookup_lt_is_Some_2 ls i) as [l Hl]; [lia|].
    destruct (lookup_lt_is_Some_2 ds i) as [d Hd]; [lia|].
    iDestruct (levels_acc with "Hl") as "[Hli Hl]"; [done..|].
    rewrite Hl. unfold free_data_body at 2. wp_load. cbn [lvl_at lvl_data lvl_below].
    iDestruct ("Hl" with "[$]") as "Hl". rewrite (list_insert_id ds) //.
    rewrite (take_S_r _ _ d) // reverse_snoc. iDestruct "Hx" as "[(%e & -> & He) Hx]".
    wp_bind_head. iApply (Hfree with "He Hm"). iIntros "Hm". wp_ret.
    iApply (IH with "Hl Hx Hm HΦ"); lia.
Qed.

Lemma wp_free_cache cache (res : loc -> hprop) n size Φ :
  (forall l Ψ, res l -∗ mem_ok -∗ (mem_ok -∗ Ψ ()) -∗ wp (sexp_free (Some l) size) Ψ) ->
  cache_at cache res n -∗ mem_ok -∗
  (cache ↦ (None : ptr) -∗ mem_ok -∗ Φ ()) -∗
  wp (free_cache cache size) Φ.
Proof.
  iIntros (Hfree) "(%c & Hc & H) Hm HΦ". unfold free_cache. wp_bind_head.
  iApply (wp_gget with "Hc"). iIntros "Hc".
  destruct c as [s|].
  - iDestruct "H" as (xs) "((%ls & %ds & (Hs & Hl & %Hn) & %Hds) & Hx & _)".
    wp_load. iDestruct (levels_length with "Hl") as %Hlen.
    wp_bind_head. iApply (wp_heap_fuel (length ls) with "Hl").
    { apply cells_big_sepL2. }
    iIntros (fuel) "%Hfuel Hl". iApply wp_bind.
    iApply (wp_free_data _ _ res with "Hl [Hx] Hm"); [done|lia|lia| |].
    { by rewrite (proj1 Hds) reverse_involutive. }
    iIntros "Hl Hm". iApply wp_bind. iApply (wp_destroy_stack_ok anything s xs with "[-HΦ Hm Hc] Hm").
    { iExists ls, ds. iFrame. done. }
    iIntros "Hm". iApply (wp_gset with "Hc"). iIntros "Hc". by iApply ("HΦ" with "Hc").
  - iDestruct "H" as "_". iApply wp_ret. iApply ("HΦ" with "Hc Hm").
Qed.

(** What waits in the two stacks. *)
Definition blank_at (l : loc) : hprop := (∃ s, l ↦ s ∗ ⌈blank_sexp s⌉)%I.
Definition some_pd (l : loc) : hprop := (∃ d : parse_data_t, l ↦ d)%I.

Lemma wp_new_sexp_t Ψ :
  mem_ok -∗ (∀ l, blank_at l -∗ mem_ok -∗ Ψ (Some l)) -∗ wp new_sexp_t Ψ.
Proof.
  iIntros "Hm HΨ". unfold new_sexp_t. iApply wp_bind. iApply (wp_malloc_ok with "Hm").
  iIntros (l) "Hl Hm". wp_ret. iApply ("HΨ" with "[Hl] Hm"). iExists _. iFrame. done.
Qed.

Lemma wp_new_pd Ψ :
  mem_ok -∗ (∀ l, some_pd l -∗ mem_ok -∗ Ψ (Some l)) -∗ wp new_pd Ψ.
Proof.
  iIntros "Hm HΨ". unfold new_pd. iApply wp_bind. iApply (wp_malloc_ok with "Hm").
  iIntros (l) "Hl Hm". wp_ret. iApply ("HΨ" with "[Hl] Hm"). by iExists _.
Qed.

#[export] Instance cached_laws : PoolLaws api cached_pool.
Proof.
  refine {| pool_ok n m :=
    (cache_at g_sexp_t_cache blank_at n ∗ cache_at g_pd_cache some_pd m)%I |}.
  - intros n n' m m' ??. by rewrite (cache_at_mono _ _ n n') // (cache_at_mono _ _ m m').
  - iIntros (n m Φ) "[Hs Hd] Hm HΦ". iApply (wp_cache_get with "Hs Hm").
    { intros Ψ. apply wp_new_sexp_t. }
    iIntros (l) "(%s & Hl & Hb) Hs Hm". iApply ("HΦ" with "Hl Hb [$] Hm").
  - iIntros (n m l s Φ Hn) "Hl Hv [Hs Hd] Hm HΦ". simpl. unfold Cached.sexp_t_deallocate.
    wp_bind_head. iApply (wp_cache_stack with "Hs Hm").
    iIntros (c xs) "Hc Hs Hx %Hlen Hm". wp_bind_head. iApply (wp_modify with "Hl").
    iIntros "Hl". wp_bind_head. iApply (wp_load with "Hl"). iIntros "Hl". wp_bind_head.
    iApply (wp_free_val with "[Hv] Hm"); [by destruct s|]. iIntros "Hm".
    wp_bind_head. iApply (wp_modify with "Hl"). iIntros "Hl".
    iApply (wp_cache_put _ blank_at with "Hc Hs Hx [Hl] Hm"); [done..| |].
    { iExists _. iFrame. done. }
    iIntros "Hs Hm". iApply ("HΦ" with "[$] Hm").
  - iIntros (n m Φ) "[Hs Hd] Hm HΦ". iApply (wp_cache_get with "Hd Hm").
    { intros Ψ. apply wp_new_pd. }
    iIntros (l) "(%d & Hl) Hd Hm". iApply ("HΦ" with "Hl [$] Hm").
  - iIntros (n m l d Φ Hm') "Hl [Hs Hd] Hm HΦ". simpl. unfold Cached.pd_deallocate.
    wp_bind_head. iApply (wp_cache_stack with "Hd Hm").
    iIntros (c xs) "Hc Hd Hx %Hlen Hm".
    iApply (wp_cache_put _ some_pd with "Hc Hd Hx [Hl] Hm"); [done..|by iExists _|].
    iIntros "Hd Hm". iApply ("HΦ" with "[$] Hm").
Defined.
End Cached_laws.

Section Plain_laws.
Context {api : MemApi} {laws : MemLaws api}.
Import Plain.

#[export] Instance plain_laws : PoolLaws api plain_pool.
Proof.
  refine {| pool_ok n m := emp%I |}.
  - done.
  - iIntros (n m Φ) "_ Hm HΦ". simpl. unfold Plain.sexp_t_allocate. wp_bind_head.
    iApply (wp_calloc_ok with "Hm"). iIntros (l) "Hl Hm". wp_ret.
    by iApply ("HΦ" with "Hl").
  - iIntros (n m l s Φ _) "Hl Hv _ Hm HΦ". simpl. unfold Plain.sexp_t_deallocate.
    wp_bind_head. iApply (wp_load with "Hl"). iIntros "Hl". wp_bind_head.
    iApply (wp_free_val with "Hv Hm"). iIntros "Hm".
    iApply (wp_sexp_free_ok l with "Hl Hm"). by iApply "HΦ".
  - iIntros (n m Φ) "_ Hm HΦ". iApply (wp_malloc_ok with "Hm").
    iIntros (l) "Hl Hm". by iApply ("HΦ" with "Hl").
  - iIntros (n m l d Φ _) "Hl _ Hm HΦ". iApply (wp_sexp_free_ok l with "Hl Hm").
    by iApply "HΦ".
Defined.
End Plain_laws.

(** ** What the pools promise a whole program *)
Section theorems.
Context {api : MemApi} {laws : MemLaws api}.
Import Cached.

Lemma wp_sexp_cleanup n m Φ :
  pool_ok (pool := cached_pool) n m -∗ mem_ok -∗
  (g_sexp_t_cache ↦ (None : ptr) -∗ g_pd_cache ↦ (None : ptr) -∗ mem_ok -∗ Φ ()) -∗
  wp sexp_cleanup Φ.
Proof.
  iIntros "[Hs Hd] Hm HΦ". unfold sexp_cleanup. wp_bind_head.
  iApply (wp_free_cache _ some_pd with "Hd Hm").
  { iIntros (l Ψ) "[%d Hl] Hm HΨ". iApply (wp_sexp_free_ok l with "Hl Hm HΨ"). }
  iIntros "Hd Hm". iApply (wp_free_cache _ blank_at with "Hs Hm").
  { iIntros (l Ψ) "(%s & Hl & _) Hm HΨ". iApply (wp_sexp_free_ok l with "Hl Hm HΨ"). }
  iIntros "Hs Hm". iApply ("HΦ" with "Hs Hd Hm").
Qed.

(** C35. [sexp_cleanup] frees every element and every record that waits in
    the pools, and the pools themselves: the globals are as they were when
    the program started, and the library owns no memory. *)
Theorem sexp_cleanup_frees_all n m :
  ⦃ pool_ok (pool := cached_pool) n m ∗ mem_ok ⦄ sexp_cleanup
  ⟪ _, g_sexp_t_cache ↦ (None : ptr) ∗ g_pd_cache ↦ (None : ptr) ∗ mem_ok ⟫.
Proof.
  iIntros "[Hp Hm]". iApply (wp_sexp_cleanup with "Hp Hm"). iIntros "Hs Hd Hm". iFrame.
Qed.

(** C36. An element that is given back is the next one that is handed out,
    with its links and its value cleared; the string it held is freed, and
    no other element is touched. *)
Theorem sexp_t_recycled n m l s :
  Z.of_nat n < int_max ->
  ⦃ l ↦ s ∗ owned_val s ∗ pool_ok (pool := cached_pool) n m ∗ mem_ok ⦄
    sexp_t_deallocate (Some l);; sexp_t_allocate
  ⟪ p, ⌈p = Some l⌉ ∗ (∃ e, l ↦ e ∗ ⌈blank_sexp e /\ elt_val e = Det None⌉) ∗
       pool_ok (pool := cached_pool) n m ∗ mem_ok ⟫.
Proof.
  iIntros (Hn) "(Hl & Hv & [Hs Hd] & Hm)". wp_bind_head. unfold sexp_t_deallocate.
  wp_bind_head. iApply (wp_cache_stack with "Hs Hm").
  iIntros (c xs) "Hc Hs Hx %Hlen Hm". wp_bind_head. iApply (wp_modify with "Hl").
  iIntros "Hl". wp_bind_head. iApply (wp_load with "Hl"). iIntros "Hl". wp_bind_head.
  iApply (wp_free_val with "[Hv] Hm"); [by destruct s|]. iIntros "Hm".
  wp_bind_head. iApply (wp_modify with "Hl"). iIntros "Hl".
  wp_bind_head. iApply (wp_push_ok with "Hs Hm"); [lia|]. iIntros "Hs Hm".
  iApply (wp_gset with "Hc"). iIntros "Hc". unfold sexp_t_allocate, cache_get.
  wp_bind_head. iApply (wp_gget with "Hc"). iIntros "Hc".
  wp_bind_head. iApply (wp_empty_stack with "Hs"). iIntros "Hs".
  rewrite bool_decide_eq_false_2 //. wp_bind_head.
  iApply (wp_pop_cons with "Hs"). iIntros (t) "Hs".
  iDestruct (popped_acc with "Hs") as (lv) "(Ht & %Hdat & Hs)".
  wp_bind_head. iApply (wp_load with "Ht"). iIntros "Ht". wp_ret. iSplit; [done|].
  iSplitL "Hl"; [iExists _; iFrame; done|]. iFrame "Hm Hd".
  iExists (Some c). iFrame "Hc". iExists xs. iFrame "Hx". iSplit; [|done].
  iDestruct ("Hs" $! (lvl_data lv) with "[Ht]") as "Hs"; [by destruct lv|].
  by iApply (popped_is_stack with "Hs").
Qed.
End theorems.

#[local] Existing Instances default_mem cached_pool.

(** A value with a string, and empty pools. *)
Definition demo_element : sexp_t :=
  mk_sexp (Det SEXP_VALUE) (Det (Some 65%positive)) (Det 2) (Det 2) None (Some 66%positive)
    (Det SEXP_BASIC) Indet Indet.
Definition demo_pool : list (loc * cell) :=
  [(64%positive, CSexp demo_element); (65%positive, CChars [Det 97; Det 0]);
   (g_answers, CAnswers []); (g_sexp_t_cache, CPtr None); (g_pd_cache, CPtr None)].

Lemma sexp_t_recycled_witness :
  exists p h,
    (Cached.sexp_t_deallocate (Some 64%positive);; Cached.sexp_t_allocate) (heap_of demo_pool) =
      Done p h /\
    (⌈p = Some 64%positive⌉ ∗
     (∃ e, 64%positive ↦ e ∗ ⌈blank_sexp e /\ elt_val e = Det None⌉) ∗ pool_ok 0 0 ∗ mem_ok)%I h.
Proof.
  refine (run_triple _ _ _ _ (sexp_t_recycled 0 0 64 demo_element _) _ _).
  - done.
  - apply (bool_decide_unpack _). by vm_compute.
  - iIntros "(He & Hv & Ha & Hs & Hd & _)". iSplitL "He"; [iExact "He"|].
    iSplitL "Hv".
    { iRight. iExists 65%positive, _, 2. iSplit; [by iPureIntro|iExact "Hv"]. }
    iSplitR "Ha"; [|iExact "Ha"].
    iSplitL "Hs"; iExists None; (iSplitL; [|done]); [iExact "Hs"|iExact "Hd"].
Defined.
