(* ===== verification/Trees.v ===== *)
(** Expressions as values, and the linked elements that represent them.

    [tree] is what an expression means; [forest_at ts p] is the chain of
    elements from [p] that means [ts].  Everything in the chain is owned:
    the elements, the strings and the binary data. *)
From S2P Require Import Prelude SexpTypes CMem SepLogic.

(** ** Expressions *)

Inductive tree : Type :=
  | Atom (aty : atom_t) (text : list Z)
  | Binary (data : list Z)
  | Node (ts : list tree).

(** Induction with a hypothesis for every element of a list. *)
Section tree_ind.
Variable P : tree -> Prop.
Hypothesis HAtom : forall aty s, P (Atom aty s).
Hypothesis HBinary : forall d, P (Binary d).
Hypothesis HNode : forall ts, Forall P ts -> P (Node ts).

Fixpoint tree_forest_ind (t : tree) : P t :=
  match t with
  | Atom aty s => HAtom aty s
  | Binary d => HBinary d
  | Node ts =>
      HNode ts ((fix go ts : Forall P ts :=
        match ts with
        | [] => @List.Forall_nil _ P
        | t :: ts => @List.Forall_cons _ P t ts (tree_forest_ind t) (go ts)
        end) ts)
  end.
End tree_ind.

(** The number of elements. *)
Fixpoint tree_size (t : tree) : nat :=
  match t with
  | Node ts => S (foldr (fun t n => tree_size t + n)%nat O ts)
  | _ => 1%nat
  end.
Definition forest_size (ts : list tree) : nat :=
  foldr (fun t n => tree_size t + n)%nat O ts.

Lemma tree_size_pos t : (0 < tree_size t)%nat.
Proof. destruct t; simpl; lia. Qed.

Lemma forest_size_app ts us :
  forest_size (ts ++ us) = (forest_size ts + forest_size us)%nat.
Proof. induction ts as [|t ts IH]; simpl; [done|]. rewrite IH. lia. Qed.

Lemma forest_length ts : (length ts <= forest_size ts)%nat.
Proof.
  induction ts as [|t ts IH]; simpl; [done|]. fold (forest_size ts). pose proof (tree_size_pos t). lia.
Qed.

(** Expressions without binary data. *)
Fixpoint textual (t : tree) : bool :=
  match t with
  | Atom _ _ => true
  | Binary _ => false
  | Node ts => forallb textual ts
  end.

(** Binary data. *)
Definition is_blob (t : tree) : bool := match t with Binary _ => true | _ => false end.

Lemma textual_not_blob t : textual t = true -> is_blob t = false.
Proof. by destruct t. Qed.

(** Induction on forests: the head's list and the tail are smaller. *)
Lemma forest_ind (P : list tree -> Prop) :
  P [] ->
  (forall aty s ts, P ts -> P (Atom aty s :: ts)) ->
  (forall d ts, P ts -> P (Binary d :: ts)) ->
  (forall us ts, P us -> P ts -> P (Node us :: ts)) ->
  forall ts, P ts.
Proof.
  intros Hnil Hatom Hbin Hnode ts.
  assert (forall t ts, P ts -> P (t :: ts)) as Hcons.
  { intros t. induction t as [aty s|d|us IH] using tree_forest_ind; [auto..|].
    intros ts' Hts'. apply Hnode; [|done].
    induction IH as [|u us Hu _ IHus]; [done|]. by apply Hu. }
  induction ts; auto.
Qed.

(** ** Elements *)

(** The element [e] of an atom whose string [s] is in the block [lv] with
    contents [b]. *)
Record atom_elt (e : sexp_t) (aty : atom_t) (s : list Z) (lv : loc) (b : list (fld Z))
    (next : ptr) : Prop := {
  ae_ty : elt_ty e = Det SEXP_VALUE;
  ae_aty : elt_aty e = Det aty;
  ae_text : aty <> SEXP_BINARY;
  ae_val : elt_val e = Det (Some lv);
  ae_allocated : elt_val_allocated e = Det (Z.of_nat (length b));
  ae_used : exists u, elt_val_used e = Det (Z.of_nat u) /\
    (0 < u)%nat /\ (length s <= u <= length b)%nat;
  ae_string : exists rest, b = (Det <$> s) ++ Det 0 :: rest;
  ae_size : Z.of_nat (length b) < 2 ^ 64;
  ae_chars : Forall (fun c => c <> 0) s;
  ae_list : elt_list e = None;
  ae_next : elt_next e = next
}.

(** Binary data: the parser does not set the other fields of such an
    element, its string least of all. *)
Record binary_elt (e : sexp_t) (d : list Z) (lb : loc) (next : ptr) : Prop := {
  be_ty : elt_ty e = Det SEXP_VALUE;
  be_aty : elt_aty e = Det SEXP_BINARY;
  be_bindata : elt_bindata e = Det (Some lb);
  be_binlength : elt_binlength e = Det (Z.of_nat (length d));
  be_list : elt_list e = None;
  be_next : elt_next e = next
}.

Record list_elt (e : sexp_t) (list next : ptr) : Prop := {
  le_ty : elt_ty e = Det SEXP_LIST;
  le_list : elt_list e = list;
  le_next : elt_next e = next
}.

(** The bytes [d] at the start of a block. *)
Definition data_at (lb : loc) (d : list Z) : hprop :=
  (∃ rest : list (fld Z), lb ↦ ((Det <$> d) ++ rest))%I.

Lemma data_at_exact lb d : lb ↦ (Det <$> d : list (fld Z)) ⊢ data_at lb d.
Proof. iIntros "H". iExists []. by rewrite app_nil_r. Qed.

Fixpoint tree_at (t : tree) (l : loc) (next : ptr) : hprop :=
  match t with
  | Atom aty s => ∃ e lv b, ⌈atom_elt e aty s lv b next⌉ ∗ l ↦ e ∗ lv ↦ b
  | Binary d => ∃ e lb, ⌈binary_elt e d lb next⌉ ∗ l ↦ e ∗ data_at lb d
  | Node ts =>
      ∃ e p, ⌈list_elt e p next⌉ ∗ l ↦ e ∗
        (fix go ts p :=
           match ts with
           | [] => ⌈p = None⌉
           | t :: ts => ∃ l nx, ⌈p = Some l⌉ ∗ tree_at t l nx ∗ go ts nx
           end) ts p
  end%I.

(** The elements of a list, from [p] to [q]. *)
Fixpoint seg (ts : list tree) (p q : ptr) : hprop :=
  match ts with
  | [] => ⌈p = q⌉
  | t :: ts => ∃ l nx, ⌈p = Some l⌉ ∗ tree_at t l nx ∗ seg ts nx q
  end%I.
Definition forest_at (ts : list tree) (p : ptr) : hprop := seg ts p None.

Lemma tree_at_node ts l next :
  tree_at (Node ts) l next ⊣⊢ ∃ e p, ⌈list_elt e p next⌉ ∗ l ↦ e ∗ forest_at ts p.
Proof.
  simpl. f_equiv. intros e. f_equiv. intros p. do 2 f_equiv. revert p. unfold forest_at.
  induction ts as [|t ts IH]; intros p; simpl; [done|].
  f_equiv. intros l0. f_equiv. intros nx. do 2 f_equiv. apply IH.
Qed.

Lemma tree_at_atom aty s l next :
  tree_at (Atom aty s) l next ⊣⊢
  ∃ e lv b, ⌈atom_elt e aty s lv b next⌉ ∗ l ↦ e ∗ lv ↦ b.
Proof. done. Qed.

Lemma tree_at_binary d l next :
  tree_at (Binary d) l next ⊣⊢
  ∃ e lb, ⌈binary_elt e d lb next⌉ ∗ l ↦ e ∗ data_at lb d.
Proof. done. Qed.

#[global] Opaque tree_at.

Lemma seg_cons t ts p q :
  seg (t :: ts) p q ⊣⊢ ∃ l nx, ⌈p = Some l⌉ ∗ tree_at t l nx ∗ seg ts nx q.
Proof. done. Qed.

Lemma seg_nil p q : seg [] p q ⊣⊢ ⌈p = q⌉.
Proof. done. Qed.

Lemma seg_app ts us p q :
  seg (ts ++ us) p q ⊣⊢ ∃ r, seg ts p r ∗ seg us r q.
Proof.
  revert p. induction ts as [|t ts IH]; intros p; simpl.
  - iSplit.
    + iIntros "H". iExists p. by iFrame.
    + iIntros "(%r & -> & $)".
  - iSplit.
    + iIntros "(%l & %nx & -> & Ht & H)". rewrite IH. iDestruct "H" as (r) "[H1 H2]".
      iExists r. iFrame. done.
    + iIntros "(%r & (%l & %nx & -> & Ht & H1) & H2)". iExists l, nx. iFrame "Ht".
      iSplit; [done|]. rewrite IH. iExists r. iFrame.
Qed.

Lemma seg_single t p q : seg [t] p q ⊣⊢ ∃ l, ⌈p = Some l⌉ ∗ tree_at t l q.
Proof.
  simpl. iSplit.
  - iIntros "(%l & %nx & -> & Ht & ->)". iExists l. by iFrame.
  - iIntros "(%l & -> & Ht)". iExists l, q. by iFrame.
Qed.

(** The element at the head of a tree, whose successor can be changed. *)
Lemma tree_next_acc t l nx :
  tree_at t l nx ⊢ ∃ e, l ↦ e ∗ ⌈elt_next e = nx⌉ ∗
    (∀ nx', l ↦ e <| elt_next := nx' |> -∗ tree_at t l nx').
Proof.
  destruct t as [aty s|d|ts].
  - rewrite tree_at_atom. iIntros "(%e & %lv & %b & %He & Hl & Hv)". iExists e. iFrame "Hl".
    iSplit; [by destruct He|]. iIntros (nx') "Hl". rewrite tree_at_atom.
    iExists _, lv, b. iFrame. iPureIntro.
    destruct e, He. by split.
  - rewrite tree_at_binary. iIntros "(%e & %lb & %He & Hl & Hv)". iExists e. iFrame "Hl".
    iSplit; [by destruct He|]. iIntros (nx') "Hl". rewrite tree_at_binary.
    iExists _, lb. iFrame. iPureIntro.
    destruct e, He. by split.
  - rewrite tree_at_node. iIntros "(%e & %p & %He & Hl & Hf)". iExists e. iFrame "Hl".
    iSplit; [by destruct He|]. iIntros (nx') "Hl". rewrite tree_at_node.
    iExists _, p. iFrame. iPureIntro. destruct e, He. by split.
Qed.

(** Every element of a forest is a cell. *)
Lemma points_to_tree_cells `{CType A} `{CType B} l (a : A) lv (b : B) : l ↦ a ∗ lv ↦ b ⊢ cells 1.
Proof.
  iIntros "[H1 H2]". iDestruct (cells_points_to with "H1") as "H1".
  iDestruct (cells_any with "H2") as "H2". by iDestruct (cells_sep with "[$H1 $H2]") as "H".
Qed.

Lemma seg_cells ts p q : seg ts p q ⊢ cells (forest_size ts).
Proof.
  revert p q. induction ts as [|aty s ts IH|d ts IH|us ts IHu IH] using forest_ind;
    intros p q; simpl.
  - apply cells_any.
  - iIntros "(%l & %nx & _ & Ht & Hts)". rewrite tree_at_atom.
    iDestruct "Ht" as "(%e & %lv & %b & _ & H)".
    iDestruct (points_to_tree_cells with "H") as "H". iDestruct (IH with "Hts") as "Hts".
    by iDestruct (cells_sep with "[$H $Hts]") as "H".
  - iIntros "(%l & %nx & _ & Ht & Hts)". rewrite tree_at_binary.
    iDestruct "Ht" as "(%e & %lb & _ & Hl & (%r & Hd))".
    iDestruct (points_to_tree_cells with "[$Hl $Hd]") as "H". iDestruct (IH with "Hts") as "Hts".
    by iDestruct (cells_sep with "[$H $Hts]") as "H".
  - iIntros "(%l & %nx & _ & Ht & Hts)". rewrite tree_at_node.
    iDestruct "Ht" as "(%e & %r & _ & Hl & Hus)".
    iDestruct (cells_points_to with "Hl") as "Hl". iDestruct (IH with "Hts") as "Hts".
    iDestruct (IHu with "Hus") as "Hus". iDestruct (cells_sep with "[$Hl $Hus]") as "H".
    by iDestruct (cells_sep with "[$H $Hts]") as "H".
Qed.
