(* ===== verification/Layout.v ===== *)
(** Concrete memories for evaluated examples: the globals of the library as
    a program starts, and expressions laid out from a location on. *)
From S2P Require Import Prelude SexpTypes CMem SepLogic SexpMemory FastStack ElementPool Trees.

(** ** The globals *)

Definition idle : list (loc * cell) :=
  [(g_answers, CAnswers []); (g_sexp_t_cache, CPtr None); (g_pd_cache, CPtr None);
   (g_sexp_errno, CErrno SEXP_ERR_OK)].

Definition idle_env : hprop :=
  (@mem_ok default_mem _ ∗ @pool_ok default_mem _ cached_pool cached_laws 0 0 ∗ errno_own)%I.

Lemma cells_at_app cs cs' : cells_at (cs ++ cs') ⊢ cells_at cs ∗ cells_at cs'.
Proof. unfold cells_at. by rewrite big_sepL_app. Qed.

Lemma idle_cells : cells_at idle ⊢ idle_env.
Proof.
  iIntros "(Ha & Hc & Hd & He & _)". iSplitL "Ha"; [iExact "Ha"|]. iSplitR "He".
  - iSplitL "Hc"; iExists None; (iSplitL; [|done]); [iExact "Hc"|iExact "Hd"].
  - iExists SEXP_ERR_OK. iExact "He".
Qed.

(** ** Expressions

    An element is at an even distance from the start of its expression and
    its string or its data behind it. *)
Fixpoint place (t : tree) (p : positive) (next : ptr) : list (loc * cell) :=
  match t with
  | Atom aty s =>
      let n := Z.of_nat (length s + 1) in
      [(p, CSexp (mk_sexp (Det SEXP_VALUE) (Det (Some (Pos.succ p))) (Det n) (Det n) None next
             (Det aty) Indet Indet));
       (Pos.succ p, CChars ((Det <$> s) ++ [Det 0]))]
  | Binary d =>
      [(p, CSexp (mk_sexp (Det SEXP_VALUE) (Det None) (Det 0) (Det 0) None next
             (Det SEXP_BINARY) (Det (Some (Pos.succ p))) (Det (Z.of_nat (length d)))));
       (Pos.succ p, CChars (Det <$> d))]
  | Node ts =>
      let q := match ts with [] => None | _ => Some (p + 2)%positive end in
      (p, CSexp (mk_sexp (Det SEXP_LIST) Indet Indet Indet q next Indet Indet Indet)) ::
      (fix go ts p :=
         match ts with
         | [] => []
         | t :: ts =>
             let r := (p + 2 * Pos.of_nat (tree_size t))%positive in
             place t p (match ts with [] => None | _ => Some r end) ++ go ts r
         end) ts (p + 2)%positive
  end.

Fixpoint place_forest (ts : list tree) (p : positive) : list (loc * cell) :=
  match ts with
  | [] => []
  | t :: ts =>
      let r := (p + 2 * Pos.of_nat (tree_size t))%positive in
      place t p (match ts with [] => None | _ => Some r end) ++ place_forest ts r
  end.

Definition forest_start (ts : list tree) (p : positive) : ptr :=
  match ts with [] => None | _ => Some p end.

(** Strings without a NUL, of a size that fits. *)
Fixpoint placeable (t : tree) : bool :=
  match t with
  | Atom aty s =>
      bool_decide (aty <> SEXP_BINARY) && forallb (fun c => negb (c =? 0)) s &&
      (Z.of_nat (length s + 1) <? 2 ^ 64)
  | Binary _ => true
  | Node ts => forallb placeable ts
  end.

Lemma place_node ts p next :
  place (Node ts) p next =
  (p, CSexp (mk_sexp (Det SEXP_LIST) Indet Indet Indet (forest_start ts (p + 2)) next
         Indet Indet Indet)) :: place_forest ts (p + 2).
Proof. done. Qed.

Lemma placed_atom aty s p next :
  placeable (Atom aty s) = true ->
  cells_at (place (Atom aty s) p next) ⊢
  ∃ e lv b, ⌈atom_elt e aty s lv b next⌉ ∗ p ↦ e ∗ lv ↦ b.
Proof.
  intros [[Haty%bool_decide_eq_true_1 Hs]%andb_prop Hn%Z.ltb_lt]%andb_prop.
  iIntros "(Hp & Hb & _)".
  iExists (mk_sexp _ _ _ _ _ _ _ _ _), (Pos.succ p), _. iSplit; [|iSplitL "Hp"; [iExact "Hp"|iExact "Hb"]].
  iPureIntro. assert (length ((Det <$> s) ++ [Det 0%Z]) = length s + 1)%nat as Hlen.
  { by rewrite length_app length_fmap. }
  split; try done.
  - by rewrite Hlen.
  - exists (length s + 1)%nat. rewrite Hlen. split; [done|lia].
  - by exists [].
  - by rewrite Hlen.
  - apply List.Forall_forall. intros c Hc. rewrite forallb_forall in Hs.
    apply Hs in Hc. by destruct (Z.eqb_spec c 0).
Qed.

Lemma place_forest_at ts :
  forallb placeable ts = true ->
  forall p, cells_at (place_forest ts p) ⊢ forest_at ts (forest_start ts p).
Proof.
  intros Hok. assert (forall t ts p,
    (forall p, cells_at (place_forest ts p) ⊢ forest_at ts (forest_start ts p)) ->
    (forall p nx, cells_at (place t p nx) ⊢ tree_at t p nx) ->
    cells_at (place_forest (t :: ts) p) ⊢ forest_at (t :: ts) (Some p)) as Hcons.
  { intros t us p Hus Ht. simpl place_forest. rewrite cells_at_app. iIntros "[H1 H2]".
    iExists p, _. iSplit; [done|]. iDestruct (Ht with "H1") as "$".
    iDestruct (Hus with "H2") as "H". by destruct us. }
  revert Hok. induction ts as [|aty s ts IH|d ts IH|us ts IHu IH] using forest_ind;
    intros Hok p; simpl in Hok; try apply andb_prop in Hok as [Ht Hok].
  - iIntros "_". done.
  - apply Hcons; [auto|]. intros. rewrite tree_at_atom. by apply placed_atom.
  - apply Hcons; [auto|]. iIntros (q nx) "(Hp & Hb & _)". rewrite tree_at_binary.
    iExists (mk_sexp _ _ _ _ _ _ _ _ _), (Pos.succ q).
    iSplit; [|iSplitL "Hp"; [iExact "Hp"|iApply data_at_exact; iExact "Hb"]]. by iPureIntro.
  - apply Hcons; [auto|]. intros q nx. rewrite place_node. iIntros "[Hp Hu]".
    rewrite tree_at_node. iExists (mk_sexp _ _ _ _ _ _ _ _ _), (forest_start us (q + 2)).
    iSplit; [|iSplitL "Hp"; [iExact "Hp"|by iApply IHu]]. by iPureIntro.
Qed.

(** The globals and a forest. *)
Lemma idle_forest ts p :
  forallb placeable ts = true ->
  cells_at (idle ++ place_forest ts p) ⊢ idle_env ∗ forest_at ts (forest_start ts p).
Proof.
  intros Hok. rewrite cells_at_app idle_cells. iIntros "[$ H]". by iApply place_forest_at.
Qed.

(** An expression with a string, a list and binary data: [(a 'b ("c" #b#2#..)) d]. *)
Definition demo_forest : list tree :=
  [Node [Atom SEXP_BASIC [97]; Atom SEXP_SQUOTE [98];
         Node [Atom SEXP_DQUOTE [99]; Binary [0; 255]]]; Atom SEXP_BASIC [100]].
