(* ===== verification/SexpOps.v ===== *)
(** The operations on expressions of [src/src/sexp_ops.c]: the two searches,
    the length of a list and the deep copy. *)
From S2P Require Import Prelude SexpTypes CMem SepLogic SexpMemory FastStack CLib ElementPool.

Section SexpOps.
Context {api : MemApi} {pool : PoolApi}.

(** The recursions go down [list] and [next]: on a well-formed expression
    they are never deeper than the number of cells. *)
Fixpoint find_sexp_fuel (fuel : nat) (name : cptr) (start : ptr) : M ptr :=
  match fuel with
  | O => fail OutOfFuel
  | S f =>
      match start with
      | None => mret None
      | Some _ =>
          s ← load (A := sexp_t) start;
          ty ← det (elt_ty s);
          match ty with
          | SEXP_LIST =>
              temp ← find_sexp_fuel f name (elt_list s);
              match temp with
              | None => find_sexp_fuel f name (elt_next s)
              | Some _ => mret temp
              end
          | SEXP_VALUE =>
              v ← det (elt_val s);
              found ← (match v with
                       | None => mret false
                       | Some _ => strcmp_eq (cursor v 0) name
                       end);
              if found : bool then mret start else find_sexp_fuel f name (elt_next s)
          end
      end
  end.

Definition find_sexp (name : cptr) (start : ptr) : M ptr :=
  fuel ← heap_fuel; find_sexp_fuel fuel name start.

(** The first loop of [bfs_find_sexp]: the values of this level.  The
    state is [t] and what was found. *)
Definition bfs_values_body (str : cptr) (x : ptr * ptr) : M (ptr * ptr + ptr * ptr) :=
  let t := x.1 in
  match t with
  | None => mret (inr (None, None))
  | Some _ =>
      s ← load (A := sexp_t) t;
      ty ← det (elt_ty s);
      found ← (match ty with
               | SEXP_VALUE =>
                   v ← det (elt_val s);
                   match v with
                   | None => mret false
                   | Some _ => strcmp_eq (cursor v 0) str
                   end
               | SEXP_LIST => mret false
               end);
      if found : bool then mret (inr (t, t)) else mret (inl (elt_next s, None))
  end.

(** The second one: the lists of this level. *)
Definition bfs_lists_body (rec : ptr -> M ptr) (x : ptr * ptr) : M (ptr * ptr + ptr * ptr) :=
  let t := x.1 in
  match t with
  | None => mret (inr (None, None))
  | Some _ =>
      s ← load (A := sexp_t) t;
      ty ← det (elt_ty s);
      rt ← (match ty with
            | SEXP_LIST => rec (elt_list s)
            | SEXP_VALUE => mret None
            end);
      match rt with
      | Some _ => mret (inr (t, rt))
      | None => mret (inl (elt_next s, None))
      end
  end.

Fixpoint bfs_find_sexp_fuel (fuel : nat) (str : cptr) (sx : ptr) : M ptr :=
  match fuel with
  | O => fail OutOfFuel
  | S f =>
      match sx with
      | None => mret None
      | Some _ =>
          r ← while fuel (bfs_values_body str) (sx, None);
          match r.2 with
          | Some _ => mret r.2
          | None =>
              r ← while fuel (bfs_lists_body (bfs_find_sexp_fuel f str)) (sx, None);
              mret r.2
          end
      end
  end.

Definition bfs_find_sexp (str : cptr) (sx : ptr) : M ptr :=
  fuel ← heap_fuel; bfs_find_sexp_fuel fuel str sx.

(** The state of the loop is [t] and [len]. *)
Definition length_body (x : ptr * Z) : M (ptr * Z + ptr * Z) :=
  let '(t, len) := x in
  match t with
  | None => mret (inr (None, len))
  | Some _ =>
      len ← int_incr len;
      s ← load (A := sexp_t) t;
      mret (inl (elt_next s, len))
  end.

Definition sexp_list_length (sx : ptr) : M Z :=
  match sx with
  | None => mret 0
  | Some _ =>
      s ← load (A := sexp_t) sx;
      ty ← det (elt_ty s);
      match ty with
      | SEXP_VALUE => mret 1
      | SEXP_LIST =>
          fuel ← heap_fuel;
          r ← while fuel length_body (elt_list s, 0);
          mret r.2
      end
  end.

(** An error return of [copy_sexp] after the element was allocated. *)
Definition copy_fail (e : sexp_errcode_t) (s_new : ptr) : M (ptr + unit) :=
  set_errno e;; sexp_t_deallocate s_new;; mret (inl None).

(** The part of [copy_sexp] that copies a binary value ... *)
Definition copy_binary (s : sexp_t) (s_new : ptr) : M (ptr + unit) :=
  bindata ← det (elt_bindata s);
  binlength ← det (elt_binlength s);
  match bindata with
  | None =>
      if 0 <? binlength then copy_fail SEXP_ERR_BADCONTENT s_new
      else
        modify s_new (fun n => n <| elt_binlength := Det binlength |>
                                 <| elt_bindata := Det None |>);;
        copy_fail SEXP_ERR_MEMORY s_new
  | Some _ =>
      modify s_new (fun n => n <| elt_binlength := Det binlength |>);;
      b ← malloc_chars binlength;
      modify s_new (fun n => n <| elt_bindata := Det b |>);;
      match b with
      | None => copy_fail SEXP_ERR_MEMORY s_new
      | Some _ => memcpy (cursor b 0) (cursor bindata 0) binlength;; mret (inr ())
      end
  end.

(** ... and the one that copies a string. *)
Definition copy_value (s : sexp_t) (s_new : ptr) : M (ptr + unit) :=
  v ← det (elt_val s);
  used ← det (elt_val_used s);
  allocated ← det (elt_val_allocated s);
  match v with
  | None =>
      if (0 <? used) || (0 <? allocated) then copy_fail SEXP_ERR_BADCONTENT s_new
      else
        modify s_new (fun n => n <| elt_val_used := Det used |>
                                 <| elt_val_allocated := Det allocated |>
                                 <| elt_val := Det None |>);;
        mret (inr ())
  | Some _ =>
      modify s_new (fun n => n <| elt_val_used := Det used |>
                               <| elt_val_allocated := Det allocated |>);;
      b ← calloc_chars 1 allocated;
      modify s_new (fun n => n <| elt_val := Det b |>);;
      match b with
      | None => copy_fail SEXP_ERR_MEMORY s_new
      | Some _ => memcpy (cursor b 0) (cursor v 0) used;; mret (inr ())
      end
  end.

(** The fields every copy starts with. *)
Definition clear_copy (n : sexp_t) : sexp_t :=
  n <| elt_val_allocated := Det 0 |> <| elt_val_used := Det 0 |>
    <| elt_val := Det None |> <| elt_list := None |> <| elt_next := None |>
    <| elt_bindata := Det None |> <| elt_binlength := Det 0 |>.

Fixpoint copy_sexp_fuel (fuel : nat) (s : ptr) : M ptr :=
  match fuel with
  | O => fail OutOfFuel
  | S f =>
      match s with
      | None => mret None
      | Some _ =>
          s_new ← sexp_t_allocate;
          match s_new with
          | None => set_errno SEXP_ERR_MEMORY;; mret None
          | Some _ =>
              modify s_new clear_copy;;
              sx ← load (A := sexp_t) s;
              modify s_new (fun n => n <| elt_ty := elt_ty sx |>);;
              ty ← det (elt_ty sx);
              r ← (match ty with
                   | SEXP_VALUE =>
                       modify s_new (fun n => n <| elt_aty := elt_aty sx |>);;
                       aty ← det (elt_aty sx);
                       match aty with
                       | SEXP_BINARY => copy_binary sx s_new
                       | _ => copy_value sx s_new
                       end
                   | SEXP_LIST =>
                       l ← copy_sexp_fuel f (elt_list sx);
                       modify s_new (fun n => n <| elt_list := l |>);;
                       mret (inr ())
                   end);
              match r with
              | inl e => mret e
              | inr _ =>
                  sx ← load (A := sexp_t) s;
                  nx ← copy_sexp_fuel f (elt_next sx);
                  modify s_new (fun n => n <| elt_next := nx |>);;
                  mret s_new
              end
          end
      end
  end.

Definition copy_sexp (s : ptr) : M ptr :=
  fuel ← heap_fuel; copy_sexp_fuel fuel s.
End SexpOps.

#[global] Arguments find_sexp : simpl never.
#[global] Arguments bfs_find_sexp : simpl never.
#[global] Arguments sexp_list_length : simpl never.
#[global] Arguments copy_sexp : simpl never.
#[global] Arguments copy_binary : simpl never.
#[global] Arguments copy_value : simpl never.
