(* ===== verification/SexpOpsSpec.v ===== *)
(** What the operations of [SexpOps] do on well-formed expressions. *)
From S2P Require Import Prelude SexpTypes CMem SepLogic SexpMemory FastStack CLib ElementPool.
From S2P Require Import Trees Layout SexpOps.

Section copy.
Context {api : MemApi} {laws : MemLaws api} {pool : PoolApi} {plaws : PoolLaws api pool}.

(** An element whose fields were cleared for the copy. *)
Definition cleared (n : sexp_t) : Prop :=
  elt_list n = None /\ elt_next n = None /\ elt_val n = Det None.

(** The block of a copied string: the bytes in use, then zeros. *)
Lemma copied_string (s : list Z) (rest : list (fld Z)) u :
  (length s <= u <= length ((Det <$> s) ++ Det c_nul :: rest))%nat ->
  exists rest',
    take u ((Det <$> s) ++ Det 0 :: rest) ++
      replicate (length ((Det <$> s) ++ Det 0 :: rest) - u) (Det 0) =
    (Det <$> s) ++ Det 0 :: rest'.
Proof.
  intros Hu. rewrite length_app length_fmap /= in Hu |- *.
  rewrite take_app length_fmap (take_ge (Det <$> s)); [|rewrite length_fmap; lia].
  destruct (decide (u = length s)) as [->|].
  - rewrite Nat.sub_diag /= app_nil_r.
    replace (length s + S (length rest) - length s)%nat with (S (length rest)) by lia.
    by exists (replicate (length rest) (Det 0)).
  - replace (u - length s)%nat with (S (u - length s - 1)) by lia. simpl.
    rewrite -assoc_L. by eexists.
Qed.

Lemma wp_copy_value e aty s lv b nx l n Φ :
  atom_elt e aty s lv b nx -> cleared n -> elt_ty n = Det SEXP_VALUE ->
  elt_aty n = Det aty ->
  lv ↦ b -∗ l ↦ n -∗ mem_ok -∗
  (lv ↦ b -∗ tree_at (Atom aty s) l None -∗ mem_ok -∗ Φ (inr ())) -∗
  wp (copy_value e (Some l)) Φ.
Proof.
  iIntros (He (Hl & Hn & Hval) Hty Haty) "Hv Hl Hm HΦ". unfold copy_value.
  rewrite (ae_val _ _ _ _ _ _ He). wp_det.
  destruct (ae_used _ _ _ _ _ _ He) as (u & Hu & Hpos & Hle). rewrite Hu. wp_det.
  rewrite (ae_allocated _ _ _ _ _ _ He). wp_det. pose proof (ae_size _ _ _ _ _ _ He).
  destruct (ae_string _ _ _ _ _ _ He) as [rest Hb].
  wp_bind_head. iApply (wp_modify with "Hl"). iIntros "Hl". fields.
  wp_bind_head. iApply (wp_calloc_ok with "Hm"). iIntros (lv') "Hv' Hm".
  wp_bind_head. iApply (wp_modify with "Hl"). iIntros "Hl". fields.
  rewrite Z.mul_1_l u64_small; [|lia]. rewrite Nat2Z.id.
  destruct (copied_string s rest u) as [rest' Hrest]; [rewrite -Hb; lia|].
  wp_bind_head. iApply (wp_memcpy _ _ _ _ _ _ _ (take u b) with "Hv' Hv").
  { apply slice_start. lia. }
  { apply splice_start. rewrite length_take length_replicate. lia. }
  iIntros "Hv' Hv". rewrite length_take (Nat.min_l u); [|lia]. rewrite drop_replicate.
  iApply wp_ret. iApply ("HΦ" with "Hv [Hl Hv'] Hm"). rewrite tree_at_atom.
  iExists _, lv', _. iFrame. iPureIntro.
  assert (length (take u b ++ replicate (length b - u) (Det 0)) = length b) as Hlen.
  { rewrite length_app length_take length_replicate. lia. }
  split; try done.
  - apply He.
  - by rewrite Hlen.
  - exists u. by rewrite Hlen.
  - exists rest'. by rewrite Hb.
  - by rewrite Hlen.
  - apply He.
Qed.

Lemma wp_copy_binary e d lb nx l n Φ :
  binary_elt e d lb nx -> cleared n -> elt_ty n = Det SEXP_VALUE ->
  elt_aty n = Det SEXP_BINARY ->
  data_at lb d -∗ l ↦ n -∗ mem_ok -∗
  (data_at lb d -∗ tree_at (Binary d) l None -∗ mem_ok -∗ Φ (inr ())) -∗
  wp (copy_binary e (Some l)) Φ.
Proof.
  iIntros (He (Hl & Hn & Hval) Hty Haty) "(%r & Hb) Hl Hm HΦ". unfold copy_binary.
  rewrite (be_bindata _ _ _ _ He). wp_det. rewrite (be_binlength _ _ _ _ He). wp_det.
  wp_bind_head. iApply (wp_modify with "Hl"). iIntros "Hl". fields.
  wp_bind_head. iApply (wp_malloc_ok with "Hm"). iIntros (lb') "Hb' Hm".
  wp_bind_head. iApply (wp_modify with "Hl"). iIntros "Hl". fields.
  wp_bind_head. iApply (wp_memcpy _ _ _ _ _ _ _ (Det <$> d) with "Hb' Hb").
  { rewrite slice_start; [|rewrite length_app length_fmap; lia].
    by rewrite take_app_length' ?length_fmap. }
  { apply splice_start. rewrite length_fmap length_replicate. lia. }
  iIntros "Hb' Hb". rewrite drop_ge; [|rewrite length_fmap length_replicate; lia].
  rewrite app_nil_r. iApply wp_ret. iApply ("HΦ" with "[Hb] [Hl Hb'] Hm"); [by iExists r|].
  rewrite tree_at_binary data_at_exact. iExists _, lb'. iFrame. iPureIntro. by split.
Qed.

(** The end of [copy_sexp]: the successors are copied. *)
Lemma wp_copy_next R ts l nx t l' f Φ :
  (∀ Ψ, (∀ q, forest_at ts nx -∗ forest_at ts q -∗ R -∗ Ψ q) -∗ wp (copy_sexp_fuel f nx) Ψ) -∗
  tree_at t l nx -∗ tree_at t l' None -∗
  (forest_at (t :: ts) (Some l) -∗ forest_at (t :: ts) (Some l') -∗ R -∗ Φ (Some l')) -∗
  wp (sx ← load (A := sexp_t) (Some l);
      nx ← copy_sexp_fuel f (elt_next sx);
      modify (Some l') (fun n => n <| elt_next := nx |>);;
      mret (Some l')) Φ.
Proof.
  iIntros "Hrec Ht Ht' HΦ". iDestruct (tree_next_acc with "Ht") as (e) "(Hl & %Hnx & Ht)".
  wp_bind_head. iApply (wp_load with "Hl"). iIntros "Hl".
  iDestruct ("Ht" $! nx with "[Hl]") as "Ht".
  { destruct e; simpl in *; by subst. }
  rewrite Hnx. wp_bind_head. iApply "Hrec". iIntros (q) "Hts Hq HR".
  iDestruct (tree_next_acc with "Ht'") as (e') "(Hl' & _ & Ht')".
  wp_bind_head. iApply (wp_modify with "Hl'"). iIntros "Hl'". iApply wp_ret.
  iApply ("HΦ" with "[Ht Hts] [-HR] HR").
  - iExists l, nx. by iFrame.
  - iExists l', q. iFrame "Hq". iSplit; [done|]. by iApply "Ht'".
Qed.

(** The copy of an atom's element, up to its successors. *)
Lemma wp_copy_atom f l e aty s lv b nx n m Φ :
  atom_elt e aty s lv b nx ->
  l ↦ e -∗ lv ↦ b -∗ pool_ok n m -∗ mem_ok -∗
  (∀ l', l ↦ e -∗ lv ↦ b -∗ tree_at (Atom aty s) l' None -∗ pool_ok n m -∗ mem_ok -∗
     wp (sx ← load (A := sexp_t) (Some l);
         nx ← copy_sexp_fuel f (elt_next sx);
         modify (Some l') (fun n => n <| elt_next := nx |>);;
         mret (Some l')) Φ) -∗
  wp (copy_sexp_fuel (S f) (Some l)) Φ.
Proof.
  iIntros (He) "Hl Hv Hp Hm HΦ". cbn [copy_sexp_fuel]. wp_bind_head.
  iApply (wp_sexp_t_allocate_ok with "Hp Hm"). iIntros (l' n0) "Hl' _ Hp Hm".
  iDestruct (pool_ok_mono _ n m m with "Hp") as "Hp"; [lia..|].
  wp_bind_head. iApply (wp_modify with "Hl'"). iIntros "Hl'".
  wp_bind_head. iApply (wp_load with "Hl"). iIntros "Hl". wp_bind_head.
  iApply (wp_modify with "Hl'"). iIntros "Hl'". rewrite (ae_ty _ _ _ _ _ _ He). wp_det.
  wp_bind_head. iApply (wp_modify with "Hl'"). iIntros "Hl'".
  rewrite (ae_aty _ _ _ _ _ _ He). wp_det.
  assert (forall A (x y : A), match aty with SEXP_BINARY => x | _ => y end = y) as Haty.
  { pose proof (ae_text _ _ _ _ _ _ He). by destruct aty. }
  rewrite Haty. unfold clear_copy. fields. wp_bind_head.
  iApply (wp_copy_value with "Hv Hl' Hm"); [done..|]. iIntros "Hv Ht' Hm".
  iApply ("HΦ" with "Hl Hv Ht' Hp Hm").
Qed.

Lemma wp_copy_sexp_fuel ts : forall p n m fuel Φ,
  (forest_size ts < fuel)%nat ->
  forest_at ts p -∗ pool_ok n m -∗ mem_ok -∗
  (∀ q, forest_at ts p -∗ forest_at ts q -∗ pool_ok n m -∗ mem_ok -∗ Φ q) -∗
  wp (copy_sexp_fuel fuel p) Φ.
Proof.
  induction ts as [|aty s ts IH|d ts IH|us ts IHu IH] using forest_ind;
    intros p n m [|fuel] Φ Hf; try lia; simpl in Hf.
  - iIntros "-> Hp Hm HΦ". iApply wp_ret. by iApply ("HΦ" with "[] [] Hp Hm").
  - iIntros "(%l & %nx & -> & Ht & Hts) Hp Hm HΦ". rewrite tree_at_atom.
    iDestruct "Ht" as "(%e & %lv & %b & %He & Hl & Hv)".
    iApply (wp_copy_atom with "Hl Hv Hp Hm"); [done|]. iIntros (l') "Hl Hv Ht' Hp Hm".
    iApply (wp_copy_next (pool_ok n m ∗ mem_ok) ts l nx (Atom aty s) with "[Hts Hp Hm] [Hl Hv] Ht'").
    + iIntros (Ψ) "HΨ". iApply (IH with "Hts Hp Hm"); [lia|]. iIntros (q) "Hts Hq Hp Hm".
      iApply ("HΨ" with "Hts Hq"). iFrame.
    + rewrite tree_at_atom. iExists e, lv, b. by iFrame.
    + iIntros "Hts Hq [Hp Hm]". iApply ("HΦ" with "Hts Hq Hp Hm").
  - iIntros "(%l & %nx & -> & Ht & Hts) Hp Hm HΦ". simpl. wp_bind_head.
    iApply (wp_sexp_t_allocate_ok with "Hp Hm"). iIntros (l' n0) "Hl' _ Hp Hm".
    iDestruct (pool_ok_mono _ n m m with "Hp") as "Hp"; [lia..|].
    wp_bind_head. iApply (wp_modify with "Hl'"). iIntros "Hl'".
    rewrite tree_at_binary. iDestruct "Ht" as "(%e & %lb & %He & Hl & Hb)".
    wp_bind_head. iApply (wp_load with "Hl"). iIntros "Hl". wp_bind_head.
    iApply (wp_modify with "Hl'"). iIntros "Hl'". rewrite (be_ty _ _ _ _ He). wp_det.
    wp_bind_head. iApply (wp_modify with "Hl'"). iIntros "Hl'".
    rewrite (be_aty _ _ _ _ He). wp_det. unfold clear_copy. fields. wp_bind_head.
    iApply (wp_copy_binary with "Hb Hl' Hm"); [done..|]. iIntros "Hb Ht' Hm".
    iApply (wp_copy_next (pool_ok n m ∗ mem_ok) ts l nx (Binary d) with "[Hts Hp Hm] [Hl Hb] Ht'").
    + iIntros (Ψ) "HΨ". iApply (IH with "Hts Hp Hm"); [lia|]. iIntros (q) "Hts Hq Hp Hm".
      iApply ("HΨ" with "Hts Hq"). iFrame.
    + rewrite tree_at_binary. iExists e, lb. by iFrame.
    + iIntros "Hts Hq [Hp Hm]". iApply ("HΦ" with "Hts Hq Hp Hm").
  - fold (forest_size us) in Hf.
    iIntros "(%l & %nx & -> & Ht & Hts) Hp Hm HΦ". simpl. wp_bind_head.
    iApply (wp_sexp_t_allocate_ok with "Hp Hm"). iIntros (l' n0) "Hl' _ Hp Hm".
    iDestruct (pool_ok_mono _ n m m with "Hp") as "Hp"; [lia..|].
    wp_bind_head. iApply (wp_modify with "Hl'"). iIntros "Hl'".
    rewrite tree_at_node. iDestruct "Ht" as "(%e & %q & %He & Hl & Hus)".
    wp_bind_head. iApply (wp_load with "Hl"). iIntros "Hl". wp_bind_head.
    iApply (wp_modify with "Hl'"). iIntros "Hl'". rewrite (le_ty _ _ _ He). wp_det.
    rewrite (le_list _ _ _ He). wp_bind_head.
    iApply (IHu with "Hus Hp Hm"); [lia|]. iIntros (q') "Hus Hus' Hp Hm".
    wp_bind_head. iApply (wp_modify with "Hl'"). iIntros "Hl'". wp_ret.
    iApply (wp_copy_next (pool_ok n m ∗ mem_ok) ts l nx (Node us)
      with "[Hts Hp Hm] [Hl Hus] [Hl' Hus']").
    + iIntros (Ψ) "HΨ". iApply (IH with "Hts Hp Hm"); [lia|]. iIntros (q1) "Hts Hq Hp Hm".
      iApply ("HΨ" with "Hts Hq"). iFrame.
    + rewrite tree_at_node. iExists e, q. by iFrame.
    + rewrite tree_at_node. iExists _, q'. iFrame. iPureIntro. by split.
    + iIntros "Hts Hq [Hp Hm]". iApply ("HΦ" with "Hts Hq Hp Hm").
Qed.

(** [copy_sexp] makes a second, separate expression with the same value. *)
Lemma wp_copy_sexp ts p n m Φ :
  forest_at ts p -∗ pool_ok n m -∗ mem_ok -∗
  (∀ q, forest_at ts p -∗ forest_at ts q -∗ pool_ok n m -∗ mem_ok -∗ Φ q) -∗
  wp (copy_sexp p) Φ.
Proof.
  iIntros "Hts Hp Hm HΦ". unfold copy_sexp. wp_bind_head.
  iApply (wp_heap_fuel (forest_size ts) with "Hts"); [apply seg_cells|].
  iIntros (fuel) "%Hf Hts". by iApply (wp_copy_sexp_fuel with "Hts Hp Hm").
Qed.
End copy.

Section theorems.
Context {api : MemApi} {laws : MemLaws api} {pool : PoolApi} {plaws : PoolLaws api pool}.

(** C25. [copy_sexp] returns an expression with the same value in memory of
    its own: strings, binary data and lists are copied however deep they
    are, and the original is what it was. *)
Theorem copy_sexp_deep ts p n m :
  ⦃ forest_at ts p ∗ pool_ok n m ∗ mem_ok ⦄ copy_sexp p
  ⟪ q, forest_at ts p ∗ forest_at ts q ∗ pool_ok n m ∗ mem_ok ⟫.
Proof.
  iIntros "(Hts & Hp & Hm)". iApply (wp_copy_sexp with "Hts Hp Hm").
  iIntros (q) "Hts Hq Hp Hm". iFrame.
Qed.
End theorems.

#[local] Existing Instances default_mem cached_pool.

(** An empty binary atom has no data to copy, and is taken for a failed
    allocation. *)
Definition empty_binary : sexp_t :=
  mk_sexp (Det SEXP_VALUE) (Det None) (Det 0) (Det 0) None None (Det SEXP_BINARY)
    (Det None) (Det 0).

(** [copy_sexp] of an empty binary atom fails with [SEXP_ERR_MEMORY]
    although the allocator refuses nothing. *)
Theorem copy_sexp_empty_binary_fails :
  exists h,
    copy_sexp (Some 64%positive) (heap_of (idle ++ [(64%positive, CSexp empty_binary)])) =
      Done None h /\
    h !! g_sexp_errno = Some (CErrno SEXP_ERR_MEMORY).
Proof. eexists. split; vm_compute; reflexivity. Qed.
