(* ===== verification/SexpSearch.v ===== *)
(** What the searches of [src/src/sexp_ops.c] find, and what
    [sexp_list_length] counts.  A search returns a pointer into the
    expression, so expressions are taken here with the locations of their
    elements. *)
From S2P Require Import Prelude SexpTypes CMem SepLogic SexpMemory FastStack CLib ElementPool.
From S2P Require Import Trees Layout SexpOps.

(** ** Expressions with locations *)

Inductive ltree : Type :=
  | LAtom (l : loc) (aty : atom_t) (text : list Z)
  | LBinary (l : loc) (data : list Z)
  | LNode (l : loc) (ts : list ltree).

Definition lloc (t : ltree) : loc :=
  match t with LAtom l _ _ => l | LBinary l _ => l | LNode l _ => l end.
Definition lstart (ts : list ltree) : ptr :=
  match ts with [] => None | t :: _ => Some (lloc t) end.

Fixpoint erase (t : ltree) : tree :=
  match t with
  | LAtom _ aty s => Atom aty s
  | LBinary _ d => Binary d
  | LNode _ ts => Node (map erase ts)
  end.

Fixpoint ltree_size (t : ltree) : nat :=
  match t with
  | LNode _ ts => S (foldr (fun t n => ltree_size t + n)%nat O ts)
  | _ => 1%nat
  end.
Definition lforest_size (ts : list ltree) : nat :=
  foldr (fun t n => ltree_size t + n)%nat O ts.

(** Induction as for forests. *)
Section ltree_ind.
Variable P : list ltree -> Prop.
Hypothesis Hnil : P [].
Hypothesis Hatom : forall l aty s ts, P ts -> P (LAtom l aty s :: ts).
Hypothesis Hbinary : forall l d ts, P ts -> P (LBinary l d :: ts).
Hypothesis Hnode : forall l us ts, P us -> P ts -> P (LNode l us :: ts).

Fixpoint ltree_cons (t : ltree) : forall ts, P ts -> P (t :: ts) :=
  match t with
  | LAtom l aty s => Hatom l aty s
  | LBinary l d => Hbinary l d
  | LNode l us => fun ts H =>
      Hnode l us ts ((fix go us : P us :=
        match us with [] => Hnil | u :: us => ltree_cons u us (go us) end) us) H
  end.

Lemma lforest_ind ts : P ts.
Proof. induction ts; [done|]. by apply ltree_cons. Qed.
End ltree_ind.

Fixpoint ltree_at (t : ltree) (next : ptr) : hprop :=
  match t with
  | LAtom l aty s => ∃ e lv b, ⌈atom_elt e aty s lv b next⌉ ∗ l ↦ e ∗ lv ↦ b
  | LBinary l d => ∃ e lb, ⌈binary_elt e d lb next /\ elt_val e = Det None⌉ ∗ l ↦ e ∗ data_at lb d
  | LNode l ts =>
      ∃ e, ⌈list_elt e (lstart ts) next⌉ ∗ l ↦ e ∗
        (fix go ts :=
           match ts with
           | [] => emp
           | t :: ts => ltree_at t (lstart ts) ∗ go ts
           end) ts
  end%I.

Fixpoint lforest_at (ts : list ltree) : hprop :=
  match ts with
  | [] => emp
  | t :: ts => ltree_at t (lstart ts) ∗ lforest_at ts
  end%I.

Lemma ltree_at_node l ts next :
  ltree_at (LNode l ts) next ⊣⊢
  ∃ e, ⌈list_elt e (lstart ts) next⌉ ∗ l ↦ e ∗ lforest_at ts.
Proof.
  simpl. f_equiv. intros e. do 2 f_equiv. clear e.
  induction ts as [|t ts IH]; simpl; [done|]. by rewrite IH.
Qed.

Lemma ltree_at_atom l aty s next :
  ltree_at (LAtom l aty s) next ⊣⊢ ∃ e lv b, ⌈atom_elt e aty s lv b next⌉ ∗ l ↦ e ∗ lv ↦ b.
Proof. done. Qed.

Lemma ltree_at_binary l d next :
  ltree_at (LBinary l d) next ⊣⊢
  ∃ e lb, ⌈binary_elt e d lb next /\ elt_val e = Det None⌉ ∗ l ↦ e ∗ data_at lb d.
Proof. done. Qed.

#[global] Opaque ltree_at.

(** Every expression has locations.  An element with binary data is searched
    only if its string was set to NULL, which the parser does not do. *)
Lemma forest_locations ts : forall p, forallb textual ts = true ->
  forest_at ts p ⊢ ∃ us, ⌈map erase us = ts /\ p = lstart us⌉ ∗ lforest_at us.
Proof.
  induction ts as [|aty s ts IH|d ts IH|us ts IHu IH] using forest_ind; intros p Htx;
    simpl in Htx.
  - iIntros "->". iExists []. by simpl.
  - iIntros "(%l & %nx & -> & Ht & Hts)".
    iDestruct (IH with "Hts") as (us) "([%Hus ->] & Hus)"; [done|].
    iEval (rewrite tree_at_atom) in "Ht". iExists (LAtom l aty s :: us). simpl lforest_at.
    iFrame "Hus". iEval (rewrite ltree_at_atom). iFrame "Ht".
    iPureIntro. simpl. by rewrite Hus.
  - done.
  - apply andb_prop in Htx as [Htu Htx]. iIntros "(%l & %nx & -> & Ht & Hts)".
    iDestruct (IH with "Hts") as (vs) "([%Hvs ->] & Hvs)"; [done|].
    iEval (rewrite tree_at_node) in "Ht". iDestruct "Ht" as "(%e & %q & %He & Hl & Hus)".
    iDestruct (IHu with "Hus") as (ws) "([%Hws ->] & Hws)"; [done|].
    iExists (LNode l ws :: vs). simpl lforest_at. rewrite ltree_at_node. iFrame "Hvs".
    iSplit; [iPureIntro; simpl; by rewrite Hws Hvs|]. iExists e. by iFrame.
Qed.

(** The element at the head. *)
Definition ltree_ty (t : ltree) : elt_t :=
  match t with LNode _ _ => SEXP_LIST | _ => SEXP_VALUE end.

Lemma ltree_acc t next :
  ltree_at t next ⊢ ∃ e, ⌈elt_next e = next /\ elt_ty e = Det (ltree_ty t)⌉ ∗ lloc t ↦ e ∗ (lloc t ↦ e -∗ ltree_at t next).
Proof.
  destruct t as [l aty s|l d|l us].
  - iIntros "Ht". iEval (rewrite ltree_at_atom) in "Ht". iDestruct "Ht" as "(%e & %lv & %b & %He & Hl & Hv)".
    iExists e.
    iFrame "Hl". iSplit; [by destruct He|]. iIntros "Hl". rewrite ltree_at_atom. iExists e, lv, b. by iFrame.
  - iIntros "Ht". iEval (rewrite ltree_at_binary) in "Ht". iDestruct "Ht" as "(%e & %lb & %He & Hl & Hv)". iExists e.
    iFrame "Hl". iSplit; [by destruct He as [[] _]|]. iIntros "Hl". rewrite ltree_at_binary. iExists e, lb. by iFrame.
  - iIntros "Ht". iEval (rewrite ltree_at_node) in "Ht". iDestruct "Ht" as "(%e & %He & Hl & Hus)". iExists e. iFrame "Hl".
    iSplit; [by destruct He|]. iIntros "Hl". rewrite ltree_at_node. iExists e. by iFrame.
Qed.

Lemma lforest_cells ts : lforest_at ts ⊢ cells (lforest_size ts).
Proof.
  induction ts as [|l aty s ts IH|l d ts IH|l us ts IHu IH] using lforest_ind; simpl.
  - apply cells_any.
  - rewrite ltree_at_atom. iIntros "[(%e & %lv & %b & _ & H) Hts]".
    iDestruct (points_to_tree_cells with "H") as "H". iDestruct (IH with "Hts") as "Hts".
    by iDestruct (cells_sep with "[$H $Hts]") as "H".
  - rewrite ltree_at_binary. iIntros "[(%e & %lb & _ & Hl & (%r & Hd)) Hts]".
    iDestruct (points_to_tree_cells with "[$Hl $Hd]") as "H". iDestruct (IH with "Hts") as "Hts".
    by iDestruct (cells_sep with "[$H $Hts]") as "H".
  - fold (lforest_size us). rewrite ltree_at_node. iIntros "[(%e & _ & Hl & Hus) Hts]".
    iDestruct (cells_points_to with "Hl") as "Hl". iDestruct (IH with "Hts") as "Hts".
    iDestruct (IHu with "Hus") as "Hus". iDestruct (cells_sep with "[$Hl $Hus]") as "H".
    by iDestruct (cells_sep with "[$H $Hts]") as "H".
Qed.

(** ** What a search looks at *)

(** The first of the listed elements whose text is [name]. *)
Definition first_named (name : list Z) (ks : list (list Z * loc)) : ptr :=
  snd <$> List.find (fun k => bool_decide (k.1 = name)) ks.

Lemma first_named_cons name s l ks :
  first_named name ((s, l) :: ks) = if decide (s = name) then Some l else first_named name ks.
Proof.
  unfold first_named. simpl. case_decide; [by rewrite bool_decide_eq_true_2|].
  by rewrite bool_decide_eq_false_2.
Qed.

Lemma first_named_app name ks ks' :
  first_named name (ks ++ ks') =
  match first_named name ks with Some l => Some l | None => first_named name ks' end.
Proof.
  induction ks as [|[s l] ks IH]; [done|]. simpl app. rewrite !first_named_cons IH.
  by case_decide.
Qed.

(** The atoms in the order in which they are written. *)
Fixpoint written_order (t : ltree) : list (list Z * loc) :=
  match t with
  | LAtom l _ s => [(s, l)]
  | LBinary _ _ => []
  | LNode _ ts => flat_map written_order ts
  end.

(** The atoms of one list; then, list by list, what is below. *)
Definition own_atom (t : ltree) : list (list Z * loc) :=
  match t with LAtom l _ s => [(s, l)] | _ => [] end.
Fixpoint below_order (t : ltree) : list (list Z * loc) :=
  match t with
  | LNode _ ts => flat_map own_atom ts ++ flat_map below_order ts
  | _ => []
  end.
Definition level_order (ts : list ltree) : list (list Z * loc) :=
  flat_map own_atom ts ++ flat_map below_order ts.

(** *** The lowest depth *)

(** The atoms [n] lists below. *)
Fixpoint atoms_below (n : nat) (t : ltree) : list (list Z * loc) :=
  match n with
  | O => own_atom t
  | S n => match t with LNode _ ts => flat_map (atoms_below n) ts | _ => [] end
  end.
Definition atoms_at_depth (n : nat) (ts : list ltree) : list (list Z * loc) :=
  flat_map (atoms_below n) ts.

(** The first of the atoms with the name at the lowest depth that has one. *)
Definition lowest_named (name : list Z) (ts : list ltree) (r : ptr) : Prop :=
  match r with
  | None => forall d, first_named name (atoms_at_depth d ts) = None
  | Some _ =>
      exists d, first_named name (atoms_at_depth d ts) = r /\
        forall m, (m < d)%nat -> first_named name (atoms_at_depth m ts) = None
  end.

Section lowest.
Variable (name : list Z).

(** The depth of the name, if it is there. *)
Definition omin (a b : option nat) : option nat :=
  match a, b with
  | Some m, Some n => Some (m `min` n)%nat
  | Some m, None => Some m
  | None, b => b
  end.
Fixpoint name_depth (t : ltree) : option nat :=
  match t with
  | LAtom _ _ s => if decide (s = name) then Some O else None
  | LBinary _ _ => None
  | LNode _ ts => S <$> foldr (fun t => omin (name_depth t)) None ts
  end.
Definition name_depths (ts : list ltree) : option nat :=
  foldr (fun t => omin (name_depth t)) None ts.

(** No list behind has the name at a lower depth than the first one that has
    it, and the same holds in that list; what is behind an atom with the name
    does not matter. *)
Definition is_named (t : ltree) : bool :=
  match t with LAtom _ _ s => bool_decide (s = name) | _ => false end.
Definition no_lower (d : nat) (t : ltree) : bool :=
  match name_depth t with Some d' => (d <=? d')%nat | None => true end.
Fixpoint first_lowest (below : ltree -> bool) (ts : list ltree) : bool :=
  match ts with
  | [] => true
  | t :: ts =>
      match name_depth t with
      | None => first_lowest below ts
      | Some d => below t && forallb (no_lower d) ts
      end
  end.
Fixpoint shallow_below (t : ltree) : bool :=
  match t with
  | LNode _ ts => existsb is_named ts || first_lowest shallow_below ts
  | _ => true
  end.
Definition shallow_first (ts : list ltree) : bool :=
  existsb is_named ts || first_lowest shallow_below ts.

(** [o] is the first place at which [f] has a value. *)
Definition is_lowest (f : nat -> ptr) (o : option nat) : Prop :=
  match o with
  | None => forall d, f d = None
  | Some d => is_Some (f d) /\ forall m, (m < d)%nat -> f m = None
  end.
Definition orelse (p q : ptr) : ptr := match p with Some l => Some l | None => q end.

Lemma is_lowest_omin f g a b :
  is_lowest f a -> is_lowest g b -> is_lowest (fun d => orelse (f d) (g d)) (omin a b).
Proof.
  destruct a as [m|], b as [n|]; simpl.
  - intros [[x Hx] Hm] [[y Hy] Hn]. split.
    + destruct (Nat.min_spec m n) as [[? ->]|[? ->]]; [by rewrite Hx|].
      rewrite Hy. by destruct (f n).
    + intros k Hk. rewrite Hm; [|lia]. apply Hn. lia.
  - intros [[x Hx] Hm] Hg. split; [by rewrite Hx|]. intros k Hk. by rewrite Hm // Hg.
  - intros Hf [[y Hy] Hn]. split; [by rewrite Hf Hy|]. intros k Hk. by rewrite Hf Hn.
  - intros Hf Hg d. by rewrite Hf Hg.
Qed.

Lemma is_lowest_S f o :
  f O = None -> is_lowest (fun d => f (S d)) o -> is_lowest f (S <$> o).
Proof.
  intros H0. destruct o as [n|]; simpl.
  - intros [Hn Hm]. split; [done|]. intros [|k] Hk; [done|]. apply Hm. lia.
  - by intros Hf [|d].
Qed.

Lemma is_lowest_ext f g o : (forall d, f d = g d) -> is_lowest f o -> is_lowest g o.
Proof.
  intros Heq. destruct o as [n|]; simpl.
  - intros [Hn Hm]. rewrite -Heq. split; [done|]. intros k Hk. rewrite -Heq. by apply Hm.
  - intros Hf d. by rewrite -Heq.
Qed.

(** ... with the name, at every depth. *)
Definition at_depth (ts : list ltree) (d : nat) : ptr := first_named name (atoms_at_depth d ts).
Definition at_depth_of (t : ltree) (d : nat) : ptr := first_named name (atoms_below d t).

Lemma at_depth_cons t ts d : at_depth (t :: ts) d = orelse (at_depth_of t d) (at_depth ts d).
Proof. unfold at_depth, atoms_at_depth. simpl. by rewrite first_named_app. Qed.

Lemma name_depth_node l us :
  is_lowest (at_depth us) (name_depths us) -> is_lowest (at_depth_of (LNode l us)) (name_depth (LNode l us)).
Proof. intros Hus. by apply is_lowest_S. Qed.

Lemma name_depth_atom l aty s :
  is_lowest (at_depth_of (LAtom l aty s)) (name_depth (LAtom l aty s)).
Proof.
  unfold at_depth_of. simpl. case_decide as Hs; simpl.
  - split; [by rewrite first_named_cons decide_True|]. intros m Hm. lia.
  - intros [|d]; simpl; [|done]. by rewrite first_named_cons decide_False.
Qed.

Lemma name_depth_binary l d : is_lowest (at_depth_of (LBinary l d)) (name_depth (LBinary l d)).
Proof. by intros [|n]. Qed.

Lemma name_depths_lowest ts : is_lowest (at_depth ts) (name_depths ts).
Proof.
  induction ts as [|l aty s ts IH|l d ts IH|l us ts IHu IH] using lforest_ind;
    [intros [|d]; done| | |];
    (eapply is_lowest_ext; [intros d'; symmetry; apply at_depth_cons|]);
    apply is_lowest_omin; try done.
  - apply name_depth_atom.
  - apply name_depth_binary.
  - by apply name_depth_node.
Qed.

Lemma name_depth_lowest t : is_lowest (at_depth_of t) (name_depth t).
Proof.
  destruct t; [apply name_depth_atom|apply name_depth_binary|].
  apply name_depth_node, name_depths_lowest.
Qed.

(** ** The search finds it *)

Definition below_named (ts : list ltree) : ptr := first_named name (flat_map below_order ts).

Lemma below_named_cons t ts :
  below_named (t :: ts) = orelse (first_named name (below_order t)) (below_named ts).
Proof. unfold below_named. simpl. apply first_named_app. Qed.

Lemma level_order_split ts :
  first_named name (level_order ts) = orelse (at_depth ts O) (below_named ts).
Proof. apply first_named_app. Qed.

(** The atoms of a list itself. *)
Lemma is_named_spec t : is_named t = true <-> is_Some (at_depth_of t O).
Proof.
  destruct t as [l aty s|l d|l us]; unfold at_depth_of; simpl; try by split; [|intros [? [=]]].
  rewrite first_named_cons. case_decide; [by rewrite bool_decide_eq_true_2|].
  rewrite bool_decide_eq_false_2 //. by split; [|intros [? [=]]].
Qed.

Lemma existsb_named ts : existsb is_named ts = true <-> is_Some (at_depth ts O).
Proof.
  induction ts as [|t ts IH]; [by split; [|intros [? [=]]]|].
  rewrite at_depth_cons /= orb_true_iff IH is_named_spec.
  destruct (at_depth_of t O); simpl; [by split; [|left]|]. split; [|by right].
  by intros [[? [=]]|].
Qed.

(** Nothing is found where there is nothing. *)
Lemma below_named_absent ts : (forall d, at_depth ts d = None) -> below_named ts = None.
Proof.
  induction ts as [|l aty s ts IH|l b ts IH|l us ts IHu IH] using lforest_ind; intros Hd;
    [done| | |]; rewrite below_named_cons; simpl;
    assert (forall d, at_depth ts d = None) as Hts by
      (intros d; specialize (Hd d); rewrite at_depth_cons in Hd; by destruct (at_depth_of _ d));
    rewrite ?IH //.
  assert (forall d, at_depth us d = None) as Hus.
  { intros d. specialize (Hd (S d)). rewrite at_depth_cons in Hd.
    unfold at_depth_of in Hd. simpl in Hd. by destruct (first_named name _) eqn:? in Hd. }
  fold (level_order us). by rewrite level_order_split Hus IHu.
Qed.

(** The value at a depth. *)
Definition value (f : nat -> ptr) (o : option nat) : ptr := o ≫= f.

Lemma level_order_value ts :
  (existsb is_named ts = false -> first_lowest shallow_below ts = true ->
   below_named ts = value (at_depth ts) (name_depths ts)) ->
  shallow_first ts = true ->
  first_named name (level_order ts) = value (at_depth ts) (name_depths ts).
Proof.
  intros IH Hs. rewrite level_order_split. pose proof (name_depths_lowest ts) as Hl.
  unfold shallow_first in Hs. destruct (existsb is_named ts) eqn:Hn.
  - apply existsb_named in Hn as [x Hx]. rewrite Hx. destruct (name_depths ts) as [n|]; simpl in *.
    + destruct n as [|n]; [by rewrite Hx|]. destruct Hl as [_ Hl]. rewrite Hl in Hx; [done|lia].
    + by rewrite Hl in Hx.
  - destruct (at_depth ts O) as [x|] eqn:Hx; [|by apply IH].
    assert (existsb is_named ts = true) as Ht by (apply existsb_named; by eexists). congruence.
Qed.

Lemma level_order_absent us :
  (forall d, at_depth us d = None) -> first_named name (level_order us) = None.
Proof. intros Hd. by rewrite level_order_split Hd below_named_absent. Qed.

(** An element without the name in it changes nothing. *)
Lemma value_skip t ts :
  name_depth t = None -> value (at_depth ts) (name_depths ts) = value (at_depth (t :: ts)) (name_depths ts).
Proof.
  intros Ht. pose proof (name_depth_lowest t) as Hl. rewrite Ht in Hl.
  destruct (name_depths ts); [|done]. simpl. by rewrite at_depth_cons Hl.
Qed.

Lemma forallb_no_lower d ts :
  forallb (no_lower d) ts = true ->
  match name_depths ts with Some d' => (d <= d')%nat | None => True end.
Proof.
  induction ts as [|t ts IH]; [done|]. simpl. intros [Ht Hts]%andb_prop. apply IH in Hts.
  unfold no_lower in Ht. fold (name_depths ts).
  destruct (name_depth t), (name_depths ts); simpl in *; try done;
    try apply Nat.leb_le in Ht; lia.
Qed.

Lemma below_named_value ts :
  existsb is_named ts = false -> first_lowest shallow_below ts = true ->
  below_named ts = value (at_depth ts) (name_depths ts).
Proof.
  induction ts as [|l aty s ts IH|l b ts IH|l us ts IHu IH] using lforest_ind;
    [done| | |]; cbn [existsb first_lowest]; intros [Hn Hns]%orb_false_iff Hf.
  all: rewrite below_named_cons; cbn [name_depths foldr]; fold (name_depths ts).
  - assert (name_depth (LAtom l aty s) = None) as Hnone.
    { simpl in Hn |- *. by case_decide; [rewrite bool_decide_eq_true_2 in Hn|]. }
    rewrite Hnone in Hf |- *. simpl. rewrite IH //. apply value_skip, Hnone.
  - simpl in Hf |- *. rewrite IH //. by apply value_skip.
  - assert (first_named name (below_order (LNode l us)) =
      first_named name (level_order us)) as -> by done.
    cbn [name_depth shallow_below] in Hf |- *. fold (name_depths us) in Hf |- *.
    fold (shallow_first us) in Hf.
    pose proof (level_order_value us IHu) as Hv. pose proof (name_depths_lowest us) as Hl.
    destruct (name_depths us) as [n|] eqn:Hus; cbn [fmap option_fmap option_map] in Hf |- *.
    + apply andb_prop in Hf as [Hs Hlow]. apply forallb_no_lower in Hlow.
      rewrite Hv //. destruct Hl as [[x Hx] _].
      assert (omin (Some (S n)) (name_depths ts) = Some (S n)) as ->.
      { destruct (name_depths ts); cbn [omin]; [|done]. f_equal. lia. }
      cbn [value mbind option_bind]. rewrite at_depth_cons.
      change (at_depth_of (LNode l us) (S n)) with (at_depth us n). by rewrite Hx.
    + rewrite level_order_absent //=. rewrite IH //. apply value_skip. simpl. fold (name_depths us). by rewrite Hus.
Qed.

(** Where no list has the name lower down than the first one that has it, the
    search returns the header's answer. *)
Lemma level_order_lowest ts :
  shallow_first ts = true -> lowest_named name ts (first_named name (level_order ts)).
Proof.
  intros Hs. rewrite level_order_value //; [|by apply below_named_value].
  pose proof (name_depths_lowest ts) as Hl. unfold lowest_named, is_lowest in *.
  destruct (name_depths ts) as [d|]; simpl; [|done]. destruct Hl as [[x Hx] Hm].
  rewrite Hx. by exists d.
Qed.
End lowest.

Section search.
Context {api : MemApi} {pool : PoolApi}.
(** The name, in its block. *)
Variables (ln : loc) (name : list Z) (nrest : list (fld Z)).
Hypothesis (Hname : Forall (fun c => c <> 0) name).

Definition name_at : hprop := (ln ↦ ((Det <$> name) ++ Det 0 :: nrest))%I.

Lemma wp_strcmp_atom e aty s lv b nx Φ :
  atom_elt e aty s lv b nx ->
  lv ↦ b -∗ name_at -∗ (lv ↦ b -∗ name_at -∗ Φ (bool_decide (s = name))) -∗
  wp (strcmp_eq (cursor (Some lv) 0) (Some (ln, 0))) Φ.
Proof.
  iIntros (He) "Hv Hn HΦ". unfold strcmp_eq. destruct (ae_string _ _ _ _ _ _ He) as [rest ->].
  wp_bind_head. iApply (wp_load_string with "Hv"); [by apply He|]. iIntros "Hv".
  wp_bind_head. iApply (wp_load_string with "Hn"); [done|]. iIntros "Hn". wp_ret.
  iApply ("HΦ" with "Hv Hn").
Qed.

Lemma wp_find_sexp_fuel ts : forall fuel Φ,
  (lforest_size ts < fuel)%nat ->
  lforest_at ts -∗ name_at -∗
  (lforest_at ts -∗ name_at -∗ Φ (first_named name (flat_map written_order ts))) -∗
  wp (find_sexp_fuel fuel (Some (ln, 0)) (lstart ts)) Φ.
Proof.
  induction ts as [|l aty s ts IH|l d ts IH|l us ts IHu IH] using lforest_ind;
    intros [|fuel] Φ Hf; try lia; simpl in Hf; iIntros "Hts Hn HΦ"; simpl.
  - iApply wp_ret. iApply ("HΦ" with "Hts Hn").
  - iDestruct "Hts" as "[Ht Hts]". rewrite first_named_cons.
    iEval (rewrite ltree_at_atom) in "Ht". iDestruct "Ht" as "(%e & %lv & %b & %He & Hl & Hv)".
    wp_bind_head. iApply (wp_load with "Hl"). iIntros "Hl".
    rewrite (ae_ty _ _ _ _ _ _ He). wp_det. rewrite (ae_val _ _ _ _ _ _ He). wp_det.
    wp_bind_head. iApply (wp_strcmp_atom with "Hv Hn"); [done|]. iIntros "Hv Hn".
    iAssert (ltree_at (LAtom l aty s) (lstart ts)) with "[Hl Hv]" as "Ht".
    { rewrite ltree_at_atom. iExists e, lv, b. by iFrame. }
    case_bool_decide.
    + iApply wp_ret. rewrite decide_True //. iApply ("HΦ" with "[$] Hn").
    + rewrite decide_False // (ae_next _ _ _ _ _ _ He).
      iApply (IH with "Hts Hn"); [lia|]. iIntros "Hts". iApply "HΦ". iFrame.
  - iDestruct "Hts" as "[Ht Hts]". iEval (rewrite ltree_at_binary) in "Ht".
    iDestruct "Ht" as "(%e & %lb & %He & Hl & Hv)".
    wp_bind_head. iApply (wp_load with "Hl"). iIntros "Hl".
    destruct He as [He Hval]. rewrite (be_ty _ _ _ _ He). wp_det. rewrite Hval. wp_det. wp_ret.
    rewrite (be_next _ _ _ _ He). iApply (IH with "Hts Hn"); [lia|]. iIntros "Hts".
    iApply "HΦ". iFrame. rewrite ltree_at_binary. iExists e, lb. by iFrame.
  - fold (lforest_size us) in Hf. iDestruct "Hts" as "[Ht Hts]".
    iEval (rewrite ltree_at_node) in "Ht". iDestruct "Ht" as "(%e & %He & Hl & Hus)".
    wp_bind_head. iApply (wp_load with "Hl"). iIntros "Hl".
    rewrite (le_ty _ _ _ He). wp_det. rewrite (le_list _ _ _ He). wp_bind_head.
    iApply (IHu with "Hus Hn"); [lia|]. iIntros "Hus Hn". rewrite first_named_app.
    iAssert (ltree_at (LNode l us) (lstart ts)) with "[Hl Hus]" as "Ht".
    { rewrite ltree_at_node. iExists e. by iFrame. }
    destruct (first_named name (flat_map written_order us)).
    + iApply wp_ret. iApply ("HΦ" with "[$] Hn").
    + rewrite (le_next _ _ _ He). iApply (IH with "Hts Hn"); [lia|]. iIntros "Hts".
      iApply "HΦ". iFrame.
Qed.

Lemma wp_bfs_values ts : forall fuel Φ,
  (length ts < fuel)%nat ->
  lforest_at ts -∗ name_at -∗
  (∀ t, lforest_at ts -∗ name_at -∗ Φ (t, first_named name (flat_map own_atom ts))) -∗
  wp (while fuel (bfs_values_body (Some (ln, 0))) (lstart ts, None)) Φ.
Proof.
  induction ts as [|t ts IH]; intros [|fuel] Φ Hf; simpl in Hf; try lia;
    iIntros "Hts Hn HΦ"; simpl.
  - unfold bfs_values_body at 2. wp_ret. iApply wp_ret. iApply ("HΦ" with "Hts Hn").
  - iDestruct "Hts" as "[Ht Hts]". unfold bfs_values_body at 2. simpl.
    destruct t as [l aty s|l d|l us]; simpl app.
    + iEval (rewrite ltree_at_atom) in "Ht".
      iDestruct "Ht" as "(%e & %lv & %b & %He & Hl & Hv)".
      wp_bind_head. iApply (wp_load with "Hl"). iIntros "Hl".
      rewrite (ae_ty _ _ _ _ _ _ He). wp_det. rewrite (ae_val _ _ _ _ _ _ He). wp_det.
      wp_bind_head. iApply (wp_strcmp_atom with "Hv Hn"); [done|]. iIntros "Hv Hn".
      iAssert (ltree_at (LAtom l aty s) (lstart ts)) with "[Hl Hv]" as "Ht".
      { rewrite ltree_at_atom. iExists e, lv, b. by iFrame. }
      rewrite first_named_cons. case_bool_decide.
      * wp_ret. iApply wp_ret. rewrite decide_True //. iApply ("HΦ" with "[$] Hn").
      * rewrite decide_False //. wp_ret. rewrite (ae_next _ _ _ _ _ _ He).
        iApply (IH with "Hts Hn"); [lia|]. iIntros (t) "Hts". iApply "HΦ". iFrame.
    + iEval (rewrite ltree_at_binary) in "Ht". iDestruct "Ht" as "(%e & %lb & %He & Hl & Hv)".
      wp_bind_head. iApply (wp_load with "Hl"). iIntros "Hl".
      destruct He as [He Hval]. rewrite (be_ty _ _ _ _ He). wp_det. rewrite Hval. wp_det. wp_ret. wp_ret.
      rewrite (be_next _ _ _ _ He). iApply (IH with "Hts Hn"); [lia|]. iIntros (t) "Hts".
      iApply "HΦ". iFrame. rewrite ltree_at_binary. iExists e, lb. by iFrame.
    + iEval (rewrite ltree_at_node) in "Ht". iDestruct "Ht" as "(%e & %He & Hl & Hus)".
      wp_bind_head. iApply (wp_load with "Hl"). iIntros "Hl".
      rewrite (le_ty _ _ _ He). wp_det. wp_ret. wp_ret.
      rewrite (le_next _ _ _ He). iApply (IH with "Hts Hn"); [lia|]. iIntros (t) "Hts".
      iApply "HΦ". iFrame. rewrite ltree_at_node. iExists e. by iFrame.
Qed.

(** What a search of smaller lists promises. *)
Definition bfs_finds (rec : ptr -> M ptr) (n : nat) : Prop :=
  forall ts Φ, (lforest_size ts < n)%nat ->
    lforest_at ts -∗ name_at -∗
    (lforest_at ts -∗ name_at -∗ Φ (first_named name (level_order ts))) -∗
    wp (rec (lstart ts)) Φ.

Lemma wp_bfs_lists rec n ts : bfs_finds rec n -> forall fuel Φ,
  (length ts < fuel)%nat -> (lforest_size ts <= n)%nat ->
  lforest_at ts -∗ name_at -∗
  (∀ t, lforest_at ts -∗ name_at -∗ Φ (t, first_named name (flat_map below_order ts))) -∗
  wp (while fuel (bfs_lists_body rec) (lstart ts, None)) Φ.
Proof.
  intros Hrec. induction ts as [|t ts IH]; intros [|fuel] Φ Hf Hn; simpl in Hf; try lia;
    iIntros "Hts Hn HΦ"; simpl.
  - unfold bfs_lists_body at 2. wp_ret. iApply wp_ret. iApply ("HΦ" with "Hts Hn").
  - simpl in Hn. fold (lforest_size ts) in Hn. iDestruct "Hts" as "[Ht Hts]".
    unfold bfs_lists_body at 2. simpl.
    destruct t as [l aty s|l d|l us]; simpl below_order; simpl app.
    1,2: iDestruct (ltree_acc with "Ht") as (e) "([%Hnx %Hty] & Hl & Ht)"; simpl lloc in *;
      wp_bind_head; iApply (wp_load with "Hl"); iIntros "Hl"; rewrite Hty; wp_det; wp_ret;
      wp_ret; rewrite Hnx; iApply (IH with "Hts Hn"); [lia..|]; iIntros (t) "Hts";
      iApply "HΦ"; iFrame; by iApply "Ht".
    iEval (rewrite ltree_at_node) in "Ht". iDestruct "Ht" as "(%e & %He & Hl & Hus)".
    wp_bind_head. iApply (wp_load with "Hl"). iIntros "Hl".
    rewrite (le_ty _ _ _ He). wp_det. rewrite (le_list _ _ _ He). wp_bind_head.
    simpl in Hn. fold (lforest_size us) in Hn.
    iApply (Hrec with "Hus Hn"); [lia|]. iIntros "Hus Hn".
    iAssert (ltree_at (LNode l us) (lstart ts)) with "[Hl Hus]" as "Ht".
    { rewrite ltree_at_node. iExists e. by iFrame. }
    fold (level_order us). rewrite first_named_app.
    destruct (first_named name (level_order us)) as [l'|].
    + wp_ret. iApply wp_ret. iApply ("HΦ" with "[$] Hn").
    + wp_ret. rewrite (le_next _ _ _ He). iApply (IH with "Hts Hn"); [lia..|].
      iIntros (t) "Hts". iApply "HΦ". iFrame.
Qed.

Lemma lforest_length ts : (length ts <= lforest_size ts)%nat.
Proof.
  induction ts as [|t ts IH]; simpl; [done|]. fold (lforest_size ts).
  assert (1 <= ltree_size t)%nat by (destruct t; simpl; lia). lia.
Qed.

Lemma wp_bfs_find_sexp_fuel fuel : bfs_finds (bfs_find_sexp_fuel fuel (Some (ln, 0))) fuel.
Proof.
  induction fuel as [|fuel IH]; intros ts Φ Hf; [lia|]. iIntros "Hts Hn HΦ".
  pose proof (lforest_length ts). destruct ts as [|t ts].
  { simpl. iApply wp_ret. iApply ("HΦ" with "Hts Hn"). }
  cbn [bfs_find_sexp_fuel lstart]. wp_bind_head.
  iApply (wp_bfs_values (t :: ts) with "Hts Hn"); [lia|]. iIntros (u) "Hts Hn". cbn [snd].
  unfold level_order. rewrite first_named_app.
  destruct (first_named name (flat_map own_atom (t :: ts))).
  { iApply wp_ret. iApply ("HΦ" with "Hts Hn"). }
  wp_bind_head. iApply (wp_bfs_lists _ fuel (t :: ts) with "Hts Hn"); [done|lia..|].
  iIntros (v) "Hts Hn". iApply wp_ret. iApply ("HΦ" with "Hts Hn").
Qed.
End search.

(** ** sexp_list_length *)

Section length.
(** The loop over the elements of a list. *)
Lemma wp_length_loop ts : forall p fuel n Φ,
  (length ts < fuel)%nat -> n + Z.of_nat (length ts) <= int_max ->
  forest_at ts p -∗ (forest_at ts p -∗ Φ (None, n + Z.of_nat (length ts))) -∗
  wp (while fuel length_body (p, n)) Φ.
Proof.
  induction ts as [|t ts IH]; intros p [|fuel] n Φ Hf Hn; simpl in Hf; try lia;
    iIntros "Hts HΦ"; simpl.
  - iDestruct "Hts" as %->. wp_ret. iApply wp_ret.
    rewrite Z.add_0_r. by iApply "HΦ".
  - simpl in Hn. iDestruct "Hts" as "(%l & %nx & -> & Ht & Hts)".
    wp_bind_head. iApply wp_int_incr; [lia|].
    iDestruct (tree_next_acc with "Ht") as (e) "(Hl & %Hnx & Ht)".
    wp_bind_head. iApply (wp_load with "Hl"). iIntros "Hl". wp_ret. rewrite Hnx.
    iApply (IH with "Hts"); [lia..|]. iIntros "Hts".
    rewrite (_ : n + 1 + Z.of_nat (length ts) = n + Z.of_nat (S (length ts))); [|lia].
    iApply "HΦ". iExists l, nx. iFrame "Hts". iSplit; [done|].
    rewrite (_ : e = e <| elt_next := nx |>); [by iApply "Ht"|]. by destruct e; simpl in *; subst.
Qed.

(** What the header promises: nothing has length 0, an atom length 1. *)
Definition list_length (ts : list tree) : Z :=
  match ts with
  | [] => 0
  | Node us :: _ => Z.of_nat (length us)
  | _ :: _ => 1
  end.

(** C28. [sexp_list_length] of an expression is 0 for NULL, 1 for an atom and
    the number of elements of a list, as the header says. *)
Theorem sexp_list_length_correct ts p :
  list_length ts <= int_max ->
  ⦃ forest_at ts p ⦄ sexp_list_length p ⟪ n, ⌈n = list_length ts⌉ ∗ forest_at ts p ⟫.
Proof.
  iIntros (Hn) "Hts". unfold sexp_list_length. destruct ts as [|t ts].
  { iDestruct "Hts" as %->. wp_ret. done. }
  iDestruct "Hts" as "(%l & %nx & -> & Ht & Hts)". destruct t as [aty s|d|us].
  - iEval (rewrite tree_at_atom) in "Ht". iDestruct "Ht" as "(%e & %lv & %b & %He & Hl & Hv)".
    wp_bind_head. iApply (wp_load with "Hl"). iIntros "Hl".
    rewrite (ae_ty _ _ _ _ _ _ He). wp_det. wp_ret. iSplit; [done|].
    iExists l, nx. iFrame "Hts". iSplit; [done|]. rewrite tree_at_atom. iExists e, lv, b. by iFrame.
  - iEval (rewrite tree_at_binary) in "Ht". iDestruct "Ht" as "(%e & %lb & %He & Hl & Hv)".
    wp_bind_head. iApply (wp_load with "Hl"). iIntros "Hl".
    rewrite (be_ty _ _ _ _ He). wp_det. wp_ret. iSplit; [done|].
    iExists l, nx. iFrame "Hts". iSplit; [done|]. rewrite tree_at_binary. iExists e, lb. by iFrame.
  - iEval (rewrite tree_at_node) in "Ht". iDestruct "Ht" as "(%e & %q & %He & Hl & Hus)".
    wp_bind_head. iApply (wp_load with "Hl"). iIntros "Hl".
    rewrite (le_ty _ _ _ He). wp_det. wp_bind_head.
    iApply (wp_heap_fuel (forest_size us) with "Hus"); [apply seg_cells|].
    iIntros (fuel) "%Hf Hus". rewrite (le_list _ _ _ He). pose proof (forest_length us).
    wp_bind_head. simpl in Hn. iApply (wp_length_loop with "Hus"); [lia..|]. iIntros "Hus".
    wp_ret. iSplit; [done|]. iExists l, nx. iFrame "Hts". iSplit; [done|].
    rewrite tree_at_node. iExists e, q. by iFrame.
Qed.
End length.

Section theorems.
Context {api : MemApi} {pool : PoolApi}.

(** C26. [find_sexp] returns the first element, in the order in which the
    expression is written, whose text is the name; binary data and lists
    have none; it changes nothing. *)
Theorem find_sexp_first_written ln name nrest ts :
  Forall (fun c => c <> 0) name ->
  ⦃ lforest_at ts ∗ name_at ln name nrest ⦄ find_sexp (Some (ln, 0)) (lstart ts)
  ⟪ r, ⌈r = first_named name (flat_map written_order ts)⌉ ∗
       lforest_at ts ∗ name_at ln name nrest ⟫.
Proof.
  iIntros (Hname) "[Hts Hn]". unfold find_sexp. wp_bind_head.
  iApply (wp_heap_fuel (lforest_size ts) with "Hts"); [apply lforest_cells|].
  iIntros (fuel) "%Hf Hts". iApply (wp_find_sexp_fuel with "Hts Hn"); [done|lia|].
  iIntros "Hts Hn". by iFrame.
Qed.

(** C27. [bfs_find_sexp] returns the occurrence of the name with the lowest
    depth, the first one at that depth, or NULL when there is none, in an
    expression in which no list has the name lower down than the first list
    beside it that has it ([shallow_first]); it changes nothing. *)
Theorem bfs_find_sexp_lowest ln name nrest ts :
  Forall (fun c => c <> 0) name -> shallow_first name ts = true ->
  ⦃ lforest_at ts ∗ name_at ln name nrest ⦄ bfs_find_sexp (Some (ln, 0)) (lstart ts)
  ⟪ r, ⌈lowest_named name ts r⌉ ∗ lforest_at ts ∗ name_at ln name nrest ⟫.
Proof.
  iIntros (Hname Hs) "[Hts Hn]". unfold bfs_find_sexp. wp_bind_head.
  iApply (wp_heap_fuel (lforest_size ts) with "Hts"); [apply lforest_cells|].
  iIntros (fuel) "%Hf Hts". iApply (wp_bfs_find_sexp_fuel with "Hts Hn"); [done|lia|].
  iIntros "Hts Hn". iFrame. iPureIntro. by apply level_order_lowest.
Qed.
End theorems.

#[local] Existing Instances default_mem cached_pool.

(** [((b)) b] behind the name "b". *)
Definition demo_lforest : list ltree :=
  [LNode 64 [LNode 66 [LAtom 68 SEXP_BASIC [98]]]; LAtom 70 SEXP_BASIC [98]].
Definition demo_search : list (loc * cell) :=
  (60%positive, CChars [Det 98; Det 0]) :: place_forest (map erase demo_lforest) 64.

Lemma demo_search_cells :
  cells_at demo_search ⊢ lforest_at demo_lforest ∗ name_at 60 [98] [].
Proof.
  unfold demo_search, cells_at. simpl.
  iIntros "(Hn & H1 & H2 & H3 & H4 & H5)". iSplitR "Hn"; [|iExact "Hn"].
  iSplitR "H5".
  - rewrite ltree_at_node. iExists (mk_sexp _ _ _ _ _ _ _ _ _).
    iSplit; [|iSplitL "H1"; [iExact "H1"|]]; [by iPureIntro|]. iSplitL; [|done].
    rewrite ltree_at_node. iExists (mk_sexp _ _ _ _ _ _ _ _ _).
    iSplit; [|iSplitL "H2"; [iExact "H2"|]]; [by iPureIntro|]. iSplitL; [|done].
    rewrite ltree_at_atom. iApply placed_atom; [done|]. iSplitL "H3"; [iExact "H3"|].
    iSplitL; [iExact "H4"|done].
  - iSplitL; [|done]. rewrite ltree_at_atom. iApply placed_atom; [done|]. iExact "H5".
Qed.

Lemma find_sexp_first_written_witness :
  exists r h,
    find_sexp (Some (60%positive, 0)) (lstart demo_lforest) (heap_of demo_search) = Done r h /\
    (⌈r = first_named [98] (flat_map written_order demo_lforest)⌉ ∗
     lforest_at demo_lforest ∗ name_at 60 [98] [])%I h.
Proof.
  refine (run_triple _ _ _ _ (find_sexp_first_written 60 [98] [] demo_lforest _) _ demo_search_cells).
  - by repeat constructor.
  - apply (bool_decide_unpack _). by vm_compute.
Defined.

Lemma bfs_find_sexp_lowest_witness :
  exists r h,
    bfs_find_sexp (Some (60%positive, 0)) (lstart demo_lforest) (heap_of demo_search) =
      Done r h /\
    (⌈lowest_named [98] demo_lforest r⌉ ∗
     lforest_at demo_lforest ∗ name_at 60 [98] [])%I h.
Proof.
  refine (run_triple _ _ _ _ (bfs_find_sexp_lowest 60 [98] [] demo_lforest _ _) _
    demo_search_cells).
  - by repeat constructor.
  - by vm_compute.
  - apply (bool_decide_unpack _). by vm_compute.
Defined.

Lemma sexp_list_length_correct_witness :
  exists r h,
    sexp_list_length (Some 64%positive) (heap_of (place_forest demo_forest 64)) = Done r h /\
    (⌈r = list_length demo_forest⌉ ∗ forest_at demo_forest (Some 64%positive))%I h.
Proof.
  refine (run_triple _ _ _ _ (sexp_list_length_correct demo_forest (Some 64%positive) _) _ _).
  - by vm_compute.
  - apply (bool_decide_unpack _). by vm_compute.
  - by apply (place_forest_at demo_forest).
Defined.

(** The expressions [((b)) (b)]. *)
Definition deep_lforest : list ltree :=
  [LNode 64 [LNode 66 [LAtom 68 SEXP_BASIC [98]]]; LNode 70 [LAtom 72 SEXP_BASIC [98]]].

(** In [((b)) (b)] the search returns the "b" two lists down although
    there is one only one list down: it is not breadth first in the sense
    of the header, which promises the lowest depth. *)
Theorem bfs_find_sexp_not_lowest :
  (exists h, bfs_find_sexp (Some (60%positive, 0)) (Some 64%positive)
     (heap_of ((60%positive, CChars [Det 98; Det 0]) :: place_forest (map erase deep_lforest) 64)) =
     Done (Some 68%positive) h) /\
  atoms_at_depth 2 deep_lforest = [([98], 68%positive)] /\
  atoms_at_depth 1 deep_lforest = [([98], 72%positive)].
Proof. split; [|done]. eexists. vm_compute. reflexivity. Qed.
