(* ===== verification/Sexp.v ===== *)
(** Construction and destruction of expressions (lines 38-80 and 469-553 of
    [src/src/sexp.c]). *)
From S2P Require Import Prelude SexpTypes CMem SepLogic SexpMemory FastStack CLib ElementPool.
From S2P Require Import Trees Layout.

Section Sexp.
Context {api : MemApi} {pool : PoolApi}.

Definition reset_sexp_errno : M unit := set_errno SEXP_ERR_OK.

(** What [destroy_sexp] does with the data of a value. *)
Definition free_data (s : sexp_t) : M unit :=
  aty ← det (elt_aty s);
  bindata ← (match aty with SEXP_BINARY => det (elt_bindata s) | _ => mret None end);
  match bindata with
  | Some _ => n ← det (elt_binlength s); sexp_free bindata n
  | None =>
      v ← det (elt_val s);
      match v with
      | Some _ => n ← det (elt_val_allocated s); sexp_free v n
      | None => mret ()
      end
  end.

Fixpoint destroy_sexp_fuel (fuel : nat) (p : ptr) : M unit :=
  match fuel with
  | O => fail OutOfFuel
  | S f =>
      match p with
      | None => mret ()
      | Some _ =>
          s ← load (A := sexp_t) p;
          ty ← det (elt_ty s);
          (match ty with
           | SEXP_LIST => destroy_sexp_fuel f (elt_list s)
           | SEXP_VALUE => free_data s
           end);;
          modify p (fun s => s <| elt_val := Det None |> <| elt_bindata := Det None |>);;
          s ← load (A := sexp_t) p;
          destroy_sexp_fuel f (elt_next s);;
          modify p (fun s => s <| elt_next := None |> <| elt_list := None |>);;
          sexp_t_deallocate p
      end
  end.

Definition destroy_sexp (p : ptr) : M unit :=
  fuel ← heap_fuel; destroy_sexp_fuel fuel p.

Definition new_sexp_list (l : ptr) : M ptr :=
  sx ← sexp_t_allocate;
  match sx with
  | None => set_errno SEXP_ERR_MEMORY;; mret None
  | Some _ =>
      modify sx (fun s => s <| elt_ty := Det SEXP_LIST |> <| elt_list := l |>
        <| elt_next := None |> <| elt_val := Det None |>
        <| elt_val_allocated := Det 0 |> <| elt_val_used := Det 0 |>);;
      mret sx
  end.

Definition new_sexp_binary_atom (data : ptr) (binlength : Z) : M ptr :=
  sx ← sexp_t_allocate;
  match sx with
  | None => set_errno SEXP_ERR_MEMORY;; mret None
  | Some _ =>
      modify sx (fun s => s <| elt_ty := Det SEXP_VALUE |> <| elt_list := None |>
        <| elt_next := None |> <| elt_aty := Det SEXP_BINARY |>
        <| elt_bindata := Det data |> <| elt_binlength := Det binlength |>
        <| elt_val := Det None |>
        <| elt_val_allocated := Det 0 |> <| elt_val_used := Det 0 |>);;
      mret sx
  end.

Definition new_sexp_atom (buf : cptr) (bs : Z) (aty : atom_t) : M ptr :=
  if decide (aty = SEXP_BINARY) then set_errno SEXP_ERR_BAD_CONSTRUCTOR;; mret None
  else
    sx ← sexp_t_allocate;
    match sx with
    | None => set_errno SEXP_ERR_MEMORY;; mret None
    | Some _ =>
        modify sx (fun s => s <| elt_ty := Det SEXP_VALUE |> <| elt_aty := Det aty |>);;
        v ← malloc_chars (u64 (bs + 1));
        modify sx (fun s => s <| elt_val := Det v |>);;
        match v with
        | None => sexp_t_deallocate sx;; set_errno SEXP_ERR_MEMORY;; mret None
        | Some _ =>
            modify sx (fun s => s <| elt_val_allocated := Det (u64 (bs + 1)) |>
                                  <| elt_val_used := Det (u64 (bs + 1)) |>);;
            strcpy (cursor v 0) buf;;
            modify sx (fun s => s <| elt_list := None |> <| elt_next := None |>);;
            mret sx
        end
    end.
End Sexp.

#[global] Arguments destroy_sexp : simpl never.
#[global] Arguments free_data : simpl never.

(** ** Rules *)

Section specs.
Context {api : MemApi} {laws : MemLaws api} {pool : PoolApi} {plaws : PoolLaws api pool}.

Lemma wp_free_string e aty s lv b nx Φ :
  atom_elt e aty s lv b nx ->
  lv ↦ b -∗ mem_ok -∗ (mem_ok -∗ Φ ()) -∗ wp (free_data e) Φ.
Proof.
  iIntros (He) "Hv Hm HΦ". unfold free_data. rewrite (ae_aty _ _ _ _ _ _ He). wp_det.
  assert (forall A (x y : A), match aty with SEXP_BINARY => x | _ => y end = y) as Haty.
  { pose proof (ae_text _ _ _ _ _ _ He). by destruct aty. }
  rewrite Haty. wp_ret. rewrite (ae_val _ _ _ _ _ _ He). wp_det.
  rewrite (ae_allocated _ _ _ _ _ _ He). wp_det.
  iApply (wp_sexp_free_ok lv with "Hv Hm HΦ").
Qed.

Lemma wp_free_bindata e d lb nx Φ :
  binary_elt e d lb nx ->
  data_at lb d -∗ mem_ok -∗ (mem_ok -∗ Φ ()) -∗ wp (free_data e) Φ.
Proof.
  iIntros (He) "(%r & Hv) Hm HΦ". unfold free_data. rewrite (be_aty _ _ _ _ He). wp_det.
  rewrite (be_bindata _ _ _ _ He). wp_det. rewrite (be_binlength _ _ _ _ He). wp_det.
  iApply (wp_sexp_free_ok lb with "Hv Hm HΦ").
Qed.

(** What [destroy_sexp] does with an element once its data is gone. *)
Lemma wp_destroy_rest f l (e : sexp_t) n m k Φ :
  Z.of_nat (n + k) < int_max ->
  (elt_ty e = Det SEXP_LIST \/ elt_ty e = Det SEXP_VALUE) ->
  (∀ Ψ, pool_ok n m -∗ mem_ok -∗ (pool_ok (n + k) m -∗ mem_ok -∗ Ψ ()) -∗
     wp (destroy_sexp_fuel f (elt_next e)) Ψ) -∗
  l ↦ e -∗ pool_ok n m -∗ mem_ok -∗ (pool_ok (S (n + k)) m -∗ mem_ok -∗ Φ ()) -∗
  wp (modify (Some l) (fun s => s <| elt_val := Det None |> <| elt_bindata := Det None |>);;
      s ← load (A := sexp_t) (Some l);
      destroy_sexp_fuel f (elt_next s);;
      modify (Some l) (fun s => s <| elt_next := None |> <| elt_list := None |>);;
      sexp_t_deallocate (Some l)) Φ.
Proof.
  iIntros (Hn Hty) "Hrec Hl Hp Hm HΦ". destruct e as [ty]; simpl in Hty |- *.
  wp_modify. wp_load. wp_bind_head. iApply ("Hrec" with "Hp Hm"). iIntros "Hp Hm".
  wp_modify. iApply (wp_sexp_t_deallocate_ok _ _ l with "[$] Hp Hm HΦ"); [done|].
  destruct Hty as [-> | ->]; [by left|by right].
Qed.

Lemma wp_destroy_sexp_fuel ts : forall p n m fuel Φ,
  (forest_size ts < fuel)%nat -> Z.of_nat (n + forest_size ts) <= int_max ->
  forest_at ts p -∗ pool_ok n m -∗ mem_ok -∗
  (pool_ok (n + forest_size ts) m -∗ mem_ok -∗ Φ ()) -∗
  wp (destroy_sexp_fuel fuel p) Φ.
Proof.
  induction ts as [|aty s ts IH|d ts IH|us ts IHu IH] using forest_ind;
    intros p n m [|fuel] Φ Hf Hn; try lia; simpl in Hf, Hn.
  - iIntros "-> Hp Hm HΦ". iApply wp_ret. simpl. rewrite Nat.add_0_r.
    iApply ("HΦ" with "Hp Hm").
  - iIntros "(%l & %nx & -> & Ht & Hts) Hp Hm HΦ". rewrite tree_at_atom.
    iDestruct "Ht" as "(%e & %lv & %b & %He & Hl & Hv)". simpl.
    wp_bind_head. iApply (wp_load with "Hl"). iIntros "Hl".
    rewrite (ae_ty _ _ _ _ _ _ He). wp_det. wp_bind_head.
    iApply (wp_free_string with "Hv Hm"); [done|]. iIntros "Hm".
    iApply (wp_destroy_rest _ _ _ n m (forest_size ts) with "[Hts] Hl Hp Hm");
      [lia|right; apply He|..].
    + iIntros (Ψ) "Hp Hm HΨ". rewrite (ae_next _ _ _ _ _ _ He).
      iApply (IH with "Hts Hp Hm HΨ"); lia.
    + iIntros "Hp Hm". rewrite Nat.add_succ_r. iApply ("HΦ" with "Hp Hm").
  - iIntros "(%l & %nx & -> & Ht & Hts) Hp Hm HΦ". rewrite tree_at_binary.
    iDestruct "Ht" as "(%e & %lb & %He & Hl & Hb)". simpl.
    wp_bind_head. iApply (wp_load with "Hl"). iIntros "Hl".
    rewrite (be_ty _ _ _ _ He). wp_det. wp_bind_head.
    iApply (wp_free_bindata with "Hb Hm"); [done|]. iIntros "Hm".
    iApply (wp_destroy_rest _ _ _ n m (forest_size ts) with "[Hts] Hl Hp Hm");
      [lia|right; apply He|..].
    + iIntros (Ψ) "Hp Hm HΨ". rewrite (be_next _ _ _ _ He).
      iApply (IH with "Hts Hp Hm HΨ"); lia.
    + iIntros "Hp Hm". rewrite Nat.add_succ_r. iApply ("HΦ" with "Hp Hm").
  - fold (forest_size us) in *.
    iIntros "(%l & %nx & -> & Ht & Hts) Hp Hm HΦ". rewrite tree_at_node.
    iDestruct "Ht" as "(%e & %q & %He & Hl & Hus)". simpl. fold (forest_size us).
    wp_bind_head. iApply (wp_load with "Hl"). iIntros "Hl".
    rewrite (le_ty _ _ _ He). wp_det. rewrite (le_list _ _ _ He). wp_bind_head.
    iApply (IHu with "Hus Hp Hm"); [lia..|]. iIntros "Hp Hm".
    iApply (wp_destroy_rest _ _ _ (n + forest_size us) m (forest_size ts)
             with "[Hts] Hl Hp Hm"); [lia|left; apply He|..].
    + iIntros (Ψ) "Hp Hm HΨ". rewrite (le_next _ _ _ He).
      iApply (IH with "Hts Hp Hm HΨ"); lia.
    + iIntros "Hp Hm". rewrite Nat.add_succ_r Nat.add_assoc. iApply ("HΦ" with "Hp Hm").
Qed.

(** [destroy_sexp] frees the strings and the data of an expression and
    gives its elements to the pool. *)
Lemma wp_destroy_sexp ts p n m Φ :
  Z.of_nat (n + forest_size ts) <= int_max ->
  forest_at ts p -∗ pool_ok n m -∗ mem_ok -∗
  (pool_ok (n + forest_size ts) m -∗ mem_ok -∗ Φ ()) -∗
  wp (destroy_sexp p) Φ.
Proof.
  iIntros (Hn) "Hts Hp Hm HΦ". unfold destroy_sexp. iApply wp_bind.
  iApply (wp_heap_fuel (forest_size ts) with "Hts"); [apply seg_cells|].
  iIntros (fuel) "%Hf Hts".
  iApply (wp_destroy_sexp_fuel with "Hts Hp Hm HΦ"); done.
Qed.

(** The constructors make the trees they are named after. *)
Lemma wp_new_sexp_list ts p n m Φ :
  forest_at ts p -∗ pool_ok n m -∗ mem_ok -∗
  (∀ l, tree_at (Node ts) l None -∗ pool_ok (pred n) m -∗ mem_ok -∗ Φ (Some l)) -∗
  wp (new_sexp_list p) Φ.
Proof.
  iIntros "Hts Hp Hm HΦ". unfold new_sexp_list. iApply wp_bind.
  iApply (wp_sexp_t_allocate_ok with "Hp Hm"). iIntros (l e) "Hl _ Hp Hm".
  wp_modify. wp_ret. iApply ("HΦ" with "[-Hp Hm] Hp Hm"). rewrite tree_at_node.
  iExists _, p. iFrame. iPureIntro. by split.
Qed.

Lemma wp_new_sexp_binary_atom d lb n m Φ :
  data_at lb d -∗ pool_ok n m -∗ mem_ok -∗
  (∀ l, tree_at (Binary d) l None -∗ pool_ok (pred n) m -∗ mem_ok -∗ Φ (Some l)) -∗
  wp (new_sexp_binary_atom (Some lb) (Z.of_nat (length d))) Φ.
Proof.
  iIntros "Hd Hp Hm HΦ". unfold new_sexp_binary_atom. iApply wp_bind.
  iApply (wp_sexp_t_allocate_ok with "Hp Hm"). iIntros (l e) "Hl _ Hp Hm".
  wp_modify. wp_ret. iApply ("HΦ" with "[-Hp Hm] Hp Hm"). rewrite tree_at_binary.
  iExists _, lb. iFrame. iPureIntro. by split.
Qed.

Lemma wp_new_sexp_atom lb s rest bs aty n m Φ :
  aty <> SEXP_BINARY -> Forall (fun c => c <> 0) s ->
  Z.of_nat (length s) <= bs -> bs + 1 < 2 ^ 64 ->
  lb ↦ ((Det <$> s) ++ Det 0 :: rest) -∗ pool_ok n m -∗ mem_ok -∗
  (∀ l, tree_at (Atom aty s) l None -∗ lb ↦ ((Det <$> s) ++ Det 0 :: rest) -∗
     pool_ok (pred n) m -∗ mem_ok -∗ Φ (Some l)) -∗
  wp (new_sexp_atom (Some (lb, 0)) bs aty) Φ.
Proof.
  iIntros (Haty Hs Hlen Hbs) "Hb Hp Hm HΦ". unfold new_sexp_atom.
  rewrite decide_False //. iApply wp_bind.
  iApply (wp_sexp_t_allocate_ok with "Hp Hm"). iIntros (l e) "Hl _ Hp Hm".
  wp_modify. wp_bind_head. iApply (wp_malloc_ok with "Hm"). iIntros (lv) "Hv Hm".
  rewrite u64_small; [|lia]. wp_modify. wp_modify. wp_bind_head. simpl cursor.
  iApply (wp_strcpy lv lb with "Hv Hb"); [done|rewrite length_replicate; lia|].
  iIntros "Hv Hb". wp_modify. wp_ret. iApply ("HΦ" with "[-Hb Hp Hm] Hb Hp Hm").
  rewrite tree_at_atom. iExists _, lv, _. iFrame. iPureIntro.
  assert (length ((Det <$> s) ++ Det 0 :: drop (S (length s))
            (replicate (Z.to_nat (bs + 1)) (Indet : fld Z))) = Z.to_nat (bs + 1)) as Hall.
  { rewrite length_app length_fmap /= length_drop length_replicate. lia. }
  split; try done.
  - rewrite Hall Z2Nat.id //. lia.
  - exists (Z.to_nat (bs + 1)). rewrite Hall Z2Nat.id; [|lia]. split; [done|lia].
  - by eexists.
  - rewrite Hall. lia.
Qed.

Lemma wp_new_sexp_atom_binary buf bs Φ :
  errno_own -∗ (g_sexp_errno ↦ SEXP_ERR_BAD_CONSTRUCTOR -∗ Φ None) -∗
  wp (new_sexp_atom buf bs SEXP_BINARY) Φ.
Proof.
  iIntros "He HΦ". unfold new_sexp_atom. case_decide; [|done]. wp_set_errno.
  iApply wp_ret. by iApply "HΦ".
Qed.
End specs.

Section theorems.
Context {api : MemApi} {laws : MemLaws api} {pool : PoolApi} {plaws : PoolLaws api pool}.

(** C24. [destroy_sexp] releases an expression and all that follows it, once
    each: strings and binary data go back to the allocator, the elements to
    the pool, and nothing of the expression is left. *)
Theorem destroy_sexp_releases ts p n m :
  Z.of_nat (n + forest_size ts) <= int_max ->
  ⦃ forest_at ts p ∗ pool_ok n m ∗ mem_ok ⦄ destroy_sexp p
  ⟪ _, pool_ok (n + forest_size ts) m ∗ mem_ok ⟫.
Proof.
  iIntros (Hn) "(Hts & Hp & Hm)". iApply (wp_destroy_sexp with "Hts Hp Hm"); [done|].
  iIntros "Hp Hm". iFrame.
Qed.

(** C30. The constructors: [new_sexp_atom] copies a string into a value,
    [new_sexp_list] makes a list of existing elements, which are not copied;
    a list of the new atom followed by nothing is [(s)]. *)
Theorem constructors_build lb s rest bs aty n m :
  aty <> SEXP_BINARY -> Forall (fun c => c <> 0) s ->
  Z.of_nat (length s) <= bs -> bs + 1 < 2 ^ 64 ->
  ⦃ lb ↦ ((Det <$> s) ++ Det 0 :: rest) ∗ pool_ok n m ∗ mem_ok ⦄
    a ← new_sexp_atom (Some (lb, 0)) bs aty; new_sexp_list a
  ⟪ p, forest_at [Node [Atom aty s]] p ∗ lb ↦ ((Det <$> s) ++ Det 0 :: rest) ∗
       pool_ok n m ∗ mem_ok ⟫.
Proof.
  iIntros (Haty Hs Hlen Hbs) "(Hb & Hp & Hm)". wp_bind_head.
  iApply (wp_new_sexp_atom with "Hb Hp Hm"); [done..|]. iIntros (l) "Ht Hb Hp Hm".
  iApply (wp_new_sexp_list [Atom aty s] with "[Ht] Hp Hm").
  { iExists l, None. by iFrame. }
  iIntros (l') "Ht Hp Hm". iFrame "Hb Hm". iSplitL "Ht".
  - iExists l', None. by iFrame.
  - iApply (pool_ok_mono with "Hp"); lia.
Qed.

(** [new_sexp_atom] refuses to make a binary atom. *)
Theorem new_sexp_atom_rejects_binary buf bs :
  ⦃ errno_own ⦄ new_sexp_atom buf bs SEXP_BINARY
  ⟪ p, ⌈p = None⌉ ∗ g_sexp_errno ↦ SEXP_ERR_BAD_CONSTRUCTOR ⟫.
Proof. iIntros "He". iApply (wp_new_sexp_atom_binary with "He"). iIntros "He". by iFrame. Qed.
End theorems.

#[local] Existing Instances default_mem cached_pool.

Lemma destroy_sexp_releases_witness :
  exists r h,
    destroy_sexp (Some 64%positive) (heap_of (idle ++ place_forest demo_forest 64)) = Done r h /\
    ((pool_ok (0 + forest_size demo_forest) 0 ∗ mem_ok) ∗ errno_own)%I h.
Proof.
  refine (run_frame _ _ _ _ _ (destroy_sexp_releases demo_forest _ 0 0 _) _ _).
  - by vm_compute.
  - apply (bool_decide_unpack _). by vm_compute.
  - rewrite (idle_forest demo_forest 64) //. iIntros "[($ & $ & $) $]".
Defined.

Definition demo_string : list (loc * cell) :=
  idle ++ [(64%positive, CChars [Det 97; Det 98; Det 0])].

Lemma constructors_build_witness :
  exists p h,
    (a ← new_sexp_atom (Some (64%positive, 0)) 2 SEXP_SQUOTE; new_sexp_list a)
      (heap_of demo_string) = Done p h /\
    ((forest_at [Node [Atom SEXP_SQUOTE [97; 98]]] p ∗
      64%positive ↦ ((Det <$> [97; 98]) ++ Det 0 :: []) ∗ pool_ok 0 0 ∗ mem_ok) ∗ errno_own)%I h.
Proof.
  refine (run_frame _ _ _ _ _ (constructors_build 64 [97; 98] [] 2 SEXP_SQUOTE 0 0 _ _ _ _) _ _).
  - done.
  - by repeat constructor.
  - done.
  - done.
  - apply (bool_decide_unpack _). by vm_compute.
  - unfold demo_string. rewrite cells_at_app idle_cells. iIntros "[($ & $ & $) [H _]]".
    iExact "H".
Defined.
