(* ===== verification/Print.v ===== *)
(** The printers of [src/src/sexp.c]: [print_sexp] into a buffer and
    [print_sexp_cstr] into a growable string.  Both walk the expression with
    an explicit stack whose levels point into it, starting from a copy of the
    head element that has no successor. *)
From S2P Require Import Prelude SexpTypes CMem SepLogic SexpMemory FastStack CLib CString.
From S2P Require Import ElementPool SexpOps.

(** [b], [left] and [depth] of [print_sexp]. *)
Record print_state := mk_print {
  pr_b : cptr;
  pr_left : Z;
  pr_depth : Z
}.

Section Print.
Context {api : MemApi} {pool : PoolApi}.

(** [tmp = *sx; tmp.next = tmp.list = NULL; fakehead = copy_sexp(&tmp)];
    [tmp] is a local that is not used again. *)
Definition copy_head (sx : ptr) : M ptr :=
  s ← load (A := sexp_t) sx;
  tmp ← alloc (s <| elt_list := None |> <| elt_next := None |>);
  fakehead ← copy_sexp (Some tmp);
  dealloc (Some tmp);;
  mret fakehead.

(** [top->data = top->data->next]: the level moves on to the
    next element, which is returned. *)
Definition advance (top : ptr) : M ptr :=
  lv ← load (A := stack_lvl_t) top;
  s ← load (A := sexp_t) (lvl_data lv);
  modify top (fun l => l <| lvl_data := elt_next s |>);;
  mret (elt_next s).

Section print_sexp.
Variables (stack fakehead : ptr).

(** The macro [out_of_space]. *)
Definition out_of_space {A} (b : cptr) : M (Z + A) :=
  set_errno SEXP_ERR_BUFFER_FULL;;
  store_char (cadd b (-1)) 0;;
  destroy_stack stack;;
  sexp_t_deallocate fakehead;;
  mret (inl (-1)).

(** The macro [add_char_break_full]. *)
Definition add_char_break_full (c : Z) (st : print_state) : M (Z + print_state) :=
  store_char (pr_b st) c;;
  let b := cadd (pr_b st) 1 in
  let left := u64 (pr_left st - 1) in
  if left =? 0 then out_of_space b
  else mret (inr (mk_print b left (pr_depth st))).

(** The loop that copies a value; the state carries [tc]. *)
Definition copy_chars_body (aty : atom_t) (x : (Z + cptr * print_state)) :
    M ((Z + cptr * print_state) + (Z + cptr * print_state)) :=
  match x with
  | inl r => mret (inr (inl r))
  | inr (tc, st) =>
      c ← load_char tc;
      if (c =? 0) || (pr_left st =? 0) then mret (inr (inr (tc, st)))
      else
        r ← (if ((c =? c_dquote) || (c =? c_bslash)) && bool_decide (aty = SEXP_DQUOTE)
             then add_char_break_full c_bslash st else mret (inr st));
        match r with
        | inl e => mret (inr (inl e))
        | inr st =>
            r ← add_char_break_full c st;
            match r with
            | inl e => mret (inr (inl e))
            | inr st => mret (inl (inr (cadd tc 1, st)))
            end
        end
  end.

(** A block's length bounds a walk to its NUL. *)
Definition string_fuel (v : ptr) : M nat :=
  b ← load (A := list (fld Z)) v; mret (S (length b)).

Definition print_chars (s : sexp_t) (aty : atom_t) (st : print_state) :
    M (Z + print_state) :=
  v ← det (elt_val s);
  fuel ← string_fuel v;
  r ← while fuel (copy_chars_body aty) (inr (cursor v 0, st));
  mret (match r with inl e => inl e | inr (_, st) => inr st end).

(** [snprintf(b, left, "%lu#", n)]: what fits, a NUL, and the length
    the whole text has. *)
Definition snprintf_len (b : cptr) (left n : Z) : M Z :=
  let text := digits n ++ [c_hash] in
  store_bytes b (Det <$> (take (Z.to_nat (left - 1)) text ++ [c_nul]));;
  mret (Z.of_nat (length text)).

Definition print_binary (s : sexp_t) (st : print_state) : M (Z + print_state) :=
  if 3 <? pr_left st then
    st ←? add_char_break_full c_hash st;
    st ←? add_char_break_full c_b st;
    st ←? add_char_break_full c_hash st;
    binlength ← det (elt_binlength s);
    sz ← snprintf_len (pr_b st) (pr_left st) binlength;
    if pr_left st <=? sz then out_of_space (pr_b st)
    else
      let b := cadd (pr_b st) sz in
      let left := pr_left st - sz in
      if left <? binlength then out_of_space b
      else
        st ← (if 0 <? binlength then
                bindata ← det (elt_bindata s);
                memcpy b (cursor bindata 0) binlength;;
                mret (mk_print (cadd b binlength) (left - binlength) (pr_depth st))
              else mret (mk_print b left (pr_depth st)));
        add_char_break_full c_space st
  else out_of_space (pr_b st).

(** The branch for a value. *)
Definition print_value (top : ptr) (s : sexp_t) (st : print_state) :
    M (Z + print_state) :=
  aty ← det (elt_aty s);
  st ←? (match aty with
         | SEXP_DQUOTE => add_char_break_full c_dquote st
         | SEXP_SQUOTE => add_char_break_full c_squote st
         | _ => mret (inr st)
         end);
  used ← (match aty with SEXP_BINARY => mret 0 | _ => det (elt_val_used s) end);
  st ←? (if 0 <? used then print_chars s aty st else print_binary s st);
  st ←? (if bool_decide (aty = SEXP_DQUOTE) && (0 <? pr_left st)
         then add_char_break_full c_dquote st else mret (inr st));
  if pr_left st =? 0 then out_of_space (pr_b st)
  else
    next ← advance top;
    match next with
    | Some _ => add_char_break_full c_space st
    | None => mret (inr st)
    end.

(** The branch for a level whose elements are all printed. *)
Definition print_end_of_list (st : print_state) : M (Z + (bool * print_state)) :=
  pop stack;;
  st ←? (if 0 <? pr_depth st
         then add_char_break_full c_rparen
                (mk_print (pr_b st) (pr_left st) (pr_depth st - 1))
         else mret (inr st));
  sk ← load (A := faststack_t) stack;
  match stk_top sk with
  | None => mret (inr (false, st))
  | Some _ =>
      next ← advance (stk_top sk);
      match next with
      | Some _ =>
          st ←? add_char_break_full c_space st;
          mret (inr (true, st))
      | None => mret (inr (true, st))
      end
  end.

(** The branch for a list. *)
Definition print_start_of_list (s : sexp_t) (st : print_state) : M (Z + print_state) :=
  depth ← int_incr (pr_depth st);
  st ←? add_char_break_full c_lparen (mk_print (pr_b st) (pr_left st) depth);
  push stack (elt_list s);;
  mret (inr st).

(** One iteration: a return value, or whether to go on and the state. *)
Definition print_body (st : print_state) : M (Z + (bool * print_state)) :=
  sk ← load (A := faststack_t) stack;
  match stk_top sk with
  | None => mret (inr (false, st))
  | Some _ =>
      let top := stk_top sk in
      lv ← load (A := stack_lvl_t) top;
      match lvl_data lv with
      | None => print_end_of_list st
      | Some _ =>
          s ← load (A := sexp_t) (lvl_data lv);
          ty ← det (elt_ty s);
          match ty with
          | SEXP_VALUE => st ←? print_value top s st; mret (inr (true, st))
          | SEXP_LIST => st ←? print_start_of_list s st; mret (inr (true, st))
          end
      end
  end.

Fixpoint print_loop (fuel : nat) (st : print_state) : M (Z + print_state) :=
  match fuel with
  | O => fail OutOfFuel
  | S f =>
      r ← print_body st;
      match r with
      | inl e => mret (inl e)
      | inr (true, st) => print_loop f st
      | inr (false, st) => mret (inr st)
      end
  end.

(** [while (depth != 0)] after the loop. *)
Fixpoint close_parens (fuel : nat) (st : print_state) : M (Z + print_state) :=
  match fuel with
  | O => fail OutOfFuel
  | S f =>
      if pr_depth st =? 0 then mret (inr st)
      else
        st ←? add_char_break_full c_rparen st;
        close_parens f (mk_print (pr_b st) (pr_left st) (pr_depth st - 1))
  end.
End print_sexp.

(** Every element is visited once, and every list once more when it is
    left. *)
Definition print_fuel (cells : nat) : nat := S (2 * cells).

Definition print_sexp (buf : cptr) (size : Z) (sx : ptr) : M Z :=
  match sx with
  | None => store_char buf 0;; mret 0
  | Some _ =>
      if size <? 1 then mret (-1)
      else
        fakehead ← copy_head sx;
        match fakehead with
        | None => set_errno SEXP_ERR_MEMORY;; mret (-1)
        | Some _ =>
            s ← load (A := sexp_t) sx;
            modify fakehead (fun f => f <| elt_list := elt_list s |>
                                        <| elt_next := None |>);;
            stack ← make_stack;
            match stack with
            | None =>
                set_errno SEXP_ERR_MEMORY;;
                sexp_t_deallocate fakehead;;
                mret (-1)
            | Some _ =>
                push stack fakehead;;
                fuel ← heap_fuel;
                r ← (st ←? print_loop stack fakehead (print_fuel fuel) (mk_print buf size 0);
                     close_parens stack fakehead (S (Z.to_nat (pr_depth st))) st);
                match r with
                | inl e => mret e
                | inr st =>
                    retval ← (if pr_left st =? 0 then
                                store_char (cadd (pr_b st) (-1)) 0;; mret (-1)
                              else
                                store_char (pr_b st) 0;;
                                mret (int_of_size (u64 (size - pr_left st))));
                    destroy_stack stack;;
                    sexp_t_deallocate fakehead;;
                    mret retval
                end
            end
        end
  end.

(** ** print_sexp_cstr *)

(** The loops over the characters of a value. *)
Definition cstr_chars_body (aty : atom_t) (x : cptr * ptr) : M (cptr * ptr + cptr * ptr) :=
  let '(tc, cs) := x in
  c ← load_char tc;
  if c =? 0 then mret (inr (tc, cs))
  else
    cs ← (if ((c =? c_dquote) || (c =? c_bslash)) && bool_decide (aty = SEXP_DQUOTE)
          then saddch cs c_bslash else mret cs);
    cs ← saddch cs c;
    mret (inl (cadd tc 1, cs)).

Definition cstr_bytes_body (bindata : ptr) (n : Z) (x : Z * ptr) : M (Z * ptr + Z * ptr) :=
  let '(i, cs) := x in
  if i <? n then
    c ← load_char (cursor bindata i);
    cs ← saddch cs c;
    mret (inl (u32 (i + 1), cs))
  else mret (inr (i, cs)).

Definition cstr_value (top : ptr) (s : sexp_t) (cs : ptr) : M ptr :=
  aty ← det (elt_aty s);
  cs ← (match aty with
        | SEXP_DQUOTE => saddch cs c_dquote
        | SEXP_SQUOTE => saddch cs c_squote
        | _ => mret cs
        end);
  cs ← (match aty with
        | SEXP_BINARY =>
            n ← det (elt_binlength s);
            cs ← sadd cs (Literal ([c_hash; c_b; c_hash] ++ digits n ++ [c_hash]));
            cs ← (if 0 <? n then
                    bindata ← det (elt_bindata s);
                    r ← while (S (Z.to_nat n)) (cstr_bytes_body bindata n) (0, cs);
                    mret r.2
                  else mret cs);
            saddch cs c_space
        | _ =>
            used ← det (elt_val_used s);
            if 0 <? used then
              v ← det (elt_val s);
              fuel ← string_fuel v;
              r ← while fuel (cstr_chars_body aty) (cursor v 0, cs);
              mret r.2
            else mret cs
        end);
  cs ← (if bool_decide (aty = SEXP_DQUOTE) then saddch cs c_dquote else mret cs);
  next ← advance top;
  match next with
  | Some _ => saddch cs c_space
  | None => mret cs
  end.

Definition cstr_end_of_list (stack cs : ptr) (depth : Z) : M (bool * (ptr * Z)) :=
  pop stack;;
  '(cs, depth) ← (if 0 <? depth
                  then cs ← saddch cs c_rparen; mret (cs, depth - 1)
                  else mret (cs, depth));
  sk ← load (A := faststack_t) stack;
  match stk_top sk with
  | None => mret (false, (cs, depth))
  | Some _ =>
      next ← advance (stk_top sk);
      cs ← (match next with Some _ => saddch cs c_space | None => mret cs end);
      mret (true, (cs, depth))
  end.

Definition cstr_body (stack : ptr) (x : ptr * Z) : M (bool * (ptr * Z)) :=
  let '(cs, depth) := x in
  sk ← load (A := faststack_t) stack;
  match stk_top sk with
  | None => mret (false, (cs, depth))
  | Some _ =>
      lv ← load (A := stack_lvl_t) (stk_top sk);
      match lvl_data lv with
      | None => cstr_end_of_list stack cs depth
      | Some _ =>
          s ← load (A := sexp_t) (lvl_data lv);
          ty ← det (elt_ty s);
          match ty with
          | SEXP_VALUE => cs ← cstr_value (stk_top sk) s cs; mret (true, (cs, depth))
          | SEXP_LIST =>
              depth ← int_incr depth;
              cs ← saddch cs c_lparen;
              push stack (elt_list s);;
              mret (true, (cs, depth))
          end
      end
  end.

Fixpoint cstr_loop (fuel : nat) (stack : ptr) (x : ptr * Z) : M (ptr * Z) :=
  match fuel with
  | O => fail OutOfFuel
  | S f =>
      '(go, x) ← cstr_body stack x;
      if go : bool then cstr_loop f stack x else mret x
  end.

Fixpoint cstr_close (fuel : nat) (x : ptr * Z) : M ptr :=
  match fuel with
  | O => fail OutOfFuel
  | S f =>
      let '(cs, depth) := x in
      if depth =? 0 then mret cs
      else cs ← saddch cs c_rparen; cstr_close f (cs, depth - 1)
  end.

(** [s] is the address of the caller's [CSTRING *]. *)
Definition print_sexp_cstr (s : loc) (sx : ptr) (ss : Z) : M Z :=
  match sx with
  | None => mret (-1)
  | Some _ =>
      cs ← gget (A := ptr) s;
      cs ← (match cs with None => snew ss | Some _ => mret cs end);
      fakehead ← copy_head sx;
      match fakehead with
      | None => set_errno SEXP_ERR_MEMORY;; mret (-1)
      | Some _ =>
          sx ← load (A := sexp_t) sx;
          modify fakehead (fun f => f <| elt_list := elt_list sx |>
                                      <| elt_next := None |>);;
          stack ← make_stack;
          match stack with
          | None =>
              set_errno SEXP_ERR_MEMORY;;
              sexp_t_deallocate fakehead;;
              mret (-1)
          | Some _ =>
              push stack fakehead;;
              fuel ← heap_fuel;
              x ← cstr_loop (print_fuel fuel) stack (cs, 0);
              cs ← cstr_close (S (Z.to_nat x.2)) x;
              gset_ s cs;;
              retval ← (match cs with
                        | None => mret 0
                        | Some _ => c ← load (A := CSTRING) cs; mret (int_of_size (cs_curlen c))
                        end);
              destroy_stack stack;;
              sexp_t_deallocate fakehead;;
              mret retval
          end
      end
  end.
End Print.
