(* ===== verification/ParserStates.v ===== *)
(** What the two parsers, [cparse_sexp] of parser.c and [eparse_sexp] of
    event_temp.c, have in common: the variables of the main loop, the buffer
    of the atom that is being read, the event handlers, and the states of the
    machine whose code is the same in both.  They differ in the size by which
    the buffer grows and in what happens when it cannot. *)
From S2P Require Import Prelude SexpTypes CMem SepLogic SexpMemory CLib.

(** The local variables of the parsers that the loop changes. *)
Record parser := mk_parser {
  p_t : cptr;
  p_state : Z;
  p_val : ptr;
  p_vcur : cptr;
  p_val_used : Z;
  p_val_allocated : Z;
  p_esc : Z;
  p_squoted : Z;
  p_depth : Z;
  p_qdepth : Z;
  p_elts : Z;
  p_sx : ptr;
  p_binexpected : Z;
  p_binread : Z;
  p_bindata : ptr
}.

Definition eta_parser r := mk_parser (p_t r) (p_state r) (p_val r) (p_vcur r) (p_val_used r)
  (p_val_allocated r) (p_esc r) (p_squoted r) (p_depth r) (p_qdepth r) (p_elts r) (p_sx r)
  (p_binexpected r) (p_binread r) (p_bindata r).
#[export] Instance set_p_t : Setter p_t := ltac:(setter eta_parser p_t).
#[export] Instance set_p_state : Setter p_state := ltac:(setter eta_parser p_state).
#[export] Instance set_p_val : Setter p_val := ltac:(setter eta_parser p_val).
#[export] Instance set_p_vcur : Setter p_vcur := ltac:(setter eta_parser p_vcur).
#[export] Instance set_p_val_used : Setter p_val_used := ltac:(setter eta_parser p_val_used).
#[export] Instance set_p_val_allocated : Setter p_val_allocated :=
  ltac:(setter eta_parser p_val_allocated).
#[export] Instance set_p_esc : Setter p_esc := ltac:(setter eta_parser p_esc).
#[export] Instance set_p_squoted : Setter p_squoted := ltac:(setter eta_parser p_squoted).
#[export] Instance set_p_depth : Setter p_depth := ltac:(setter eta_parser p_depth).
#[export] Instance set_p_qdepth : Setter p_qdepth := ltac:(setter eta_parser p_qdepth).
#[export] Instance set_p_elts : Setter p_elts := ltac:(setter eta_parser p_elts).
#[export] Instance set_p_sx : Setter p_sx := ltac:(setter eta_parser p_sx).
#[export] Instance set_p_binexpected : Setter p_binexpected :=
  ltac:(setter eta_parser p_binexpected).
#[export] Instance set_p_binread : Setter p_binread := ltac:(setter eta_parser p_binread).
#[export] Instance set_p_bindata : Setter p_bindata := ltac:(setter eta_parser p_bindata).

Ltac pfields := cbn beta iota zeta delta [setf cursor cadd
  p_t p_state p_val p_vcur p_val_used p_val_allocated p_esc p_squoted p_depth p_qdepth
  p_elts p_sx p_binexpected p_binread p_bindata
  set_p_t set_p_state set_p_val set_p_vcur set_p_val_used set_p_val_allocated set_p_esc
  set_p_squoted set_p_depth set_p_qdepth set_p_elts set_p_sx set_p_binexpected
  set_p_binread set_p_bindata].

(** One state's code ends in a [return] of a continuation, or in a [break]
    with new values of the variables. *)
Abbreviation step := (M (ptr + parser)).

(** [t++] *)
Definition next_char (p : parser) : parser := p <| p_t := cadd (p_t p) 1 |>.

(** The characters of an atom: not white space, not a parenthesis or a
    quote. *)
Definition is_atom_char (c : Z) : bool :=
  (c_star <=? schar c) && (schar c <=? c_tilde) || (127 <? uchar c) ||
  (schar c =? c_bang) || (c_hash <=? schar c) && (schar c <=? c_amp).

(** White space between elements. *)
Definition is_blank (c : Z) : bool :=
  (c =? c_lf) || (c =? c_space) || (c =? c_tab) || (c =? c_cr).

(** The characters a backslash can hide. *)
Definition is_escapable (c : Z) : bool :=
  (c =? c_dquote) || (c =? c_lparen) || (c =? c_rparen) || (c =? c_squote) || (c =? c_bslash).

(** [esc] after a character was stored. *)
Definition esc_after (c : Z) : Z := if c =? c_bslash then 1 else 0.

(** [if (event_handlers != NULL && event_handlers->f != NULL)] and the
    call. *)
Definition call_handler (handlers : ptr) (f : parser_event_handlers -> bool) (e : M event) :
    M unit :=
  match handlers with
  | None => mret ()
  | Some _ =>
      h ← load (A := parser_event_handlers) handlers;
      if f h then ev ← e; emit ev else mret ()
  end.

(** The characters a [characters] or [binary] handler is given. *)
Definition characters_event (val : ptr) (used : Z) (aty : atom_t) : M event :=
  data ← load_bytes (cursor val 0) used; mret (EvCharacters data used aty).
Definition binary_event (bindata : ptr) (len : Z) : M event :=
  match bindata with
  | None => mret (EvBinary [] len)
  | Some _ => data ← load_bytes (cursor bindata 0) len; mret (EvBinary data len)
  end.

Section ParserStates.
Context {api : MemApi}.
(** The growth of the buffer, and what is done when memory is short. *)
Variables (grow_size : M Z) (oom : parser -> step).
Variables (handlers : ptr).

(** [vcur[0] = c; val_used++; if (val_used == val_allocated) ... else
    vcur++] *)
Definition put_char (c : Z) (p : parser) : step :=
  store_char (p_vcur p) c;;
  let used := u64 (p_val_used p + 1) in
  if used =? p_val_allocated p then
    gs ← grow_size;
    let size := u64 (p_val_allocated p + gs) in
    valnew ← sexp_realloc (p_val p) size (p_val_allocated p);
    match valnew with
    | None => oom (p <| p_val_used := used |>)
    | Some _ =>
        mret (inr (p <| p_val_used := used |> <| p_val := valnew |>
                     <| p_vcur := cursor valnew used |> <| p_val_allocated := size |>))
    end
  else mret (inr (p <| p_val_used := used |> <| p_vcur := cadd (p_vcur p) 1 |>)).

(** The code between [#b#]'s characters and everywhere an atom goes on:
    store [c], note whether it is a backslash. *)
Definition put_atom_char (c : Z) (p : parser) : step :=
  put_char c (p <| p_esc := esc_after c |>).

(** [vcur--; vcur[0] = c; vcur++] *)
Definition replace_last (c : Z) (p : parser) : M parser :=
  let vcur := cadd (p_vcur p) (-1) in
  store_char vcur c;;
  mret (p <| p_vcur := cadd vcur 1 |>).

(** State 1: between elements. *)
Definition state1 (mode : parsermode_t) (p : parser) : step :=
  c ← load_char (p_t p);
  if is_blank c then mret (inr (next_char p))
  else if c =? c_semi then mret (inr (next_char p <| p_state := 11 |>))
  else if c =? c_lparen then
    call_handler handlers eh_start_sexpr (mret EvStart);;
    mret (inr (next_char p <| p_state := 2 |>))
  else if c =? c_rparen then mret (inr (p <| p_state := 3 |>))
  else if c =? c_dquote then
    mret (inr (next_char p <| p_state := 5 |> <| p_vcur := cursor (p_val p) 0 |>))
  else if c =? c_squote then mret (inr (next_char p <| p_state := 7 |>))
  else
    p ←? put_atom_char c (p <| p_vcur := cursor (p_val p) 0 |>);
    mret (inr (next_char p <|
      p_state := if (c =? c_hash) && bool_decide (mode = PARSER_INLINE_BINARY) then 12 else 4 |>)).

(** State 6: after a quoted string. *)
Definition state6 (p : parser) : step :=
  mret (inr (p <| p_vcur := cursor (p_val p) 0 |> <| p_state := 1 |>)).

(** State 7: after a single quote. *)
Definition state7 (p : parser) : step :=
  c ← load_char (p_t p);
  let p := p <| p_vcur := cursor (p_val p) 0 |> in
  if c =? c_dquote then
    p ←? put_char c_dquote (next_char p <| p_state := 5 |>);
    mret (inr (p <| p_squoted := 1 |>))
  else if c =? c_lparen then mret (inr (p <| p_state := 8 |>))
  else mret (inr (p <| p_state := 4 |> <| p_squoted := 1 |>)).

(** The first part of state 8, the inside of a quoted list: what the
    character means. *)
Definition quoted_char (c : Z) (p : parser) : parser :=
  if p_esc p =? 0 then
    if c =? c_lparen then p <| p_qdepth := u32 (p_qdepth p + 1) |>
    else if c =? c_rparen then
      p <| p_qdepth := u32 (p_qdepth p - 1) |> <| p_state := 9 |>
    else if c =? c_dquote then p <| p_state := 10 |>
    else p
  else p <| p_esc := 0 |>.

(** State 8; [state9] is the code it falls through to. *)
Definition state8 (state9 : parser -> step) (p : parser) : step :=
  c ← load_char (p_t p);
  p ←? put_atom_char c (quoted_char c p);
  let p := next_char p in
  if p_state p =? 9 then state9 p else mret (inr p).

(** State 10: a string inside a quoted list. *)
Definition state10 (p : parser) : step :=
  c ← load_char (p_t p);
  let p := if (c =? c_dquote) && (p_esc p =? 0) then p <| p_state := 8 |> else p in
  p ←? put_atom_char c p;
  mret (inr (next_char p)).

(** State 11: a comment. *)
Definition state11 (p : parser) : step :=
  c ← load_char (p_t p);
  mret (inr (next_char (if c =? c_lf then p <| p_state := 1 |> else p))).

(** State 12: after [#] in the mode with inline binary. *)
Definition state12 (p : parser) : step :=
  c ← load_char (p_t p);
  if c =? c_b then
    p ←? put_atom_char c p;
    mret (inr (next_char p <| p_state := 13 |>))
  else mret (inr (p <| p_state := 4 |>)).

(** State 13: after [#b]. *)
Definition state13 (p : parser) : step :=
  c ← load_char (p_t p);
  if c =? c_hash then
    p ←? put_atom_char c p;
    mret (inr (next_char p <| p_state := 14 |> <| p_vcur := cursor (p_val p) 0 |>
                           <| p_val_used := 0 |>))
  else mret (inr (p <| p_state := 4 |>)).

(** State 14: the size of the binary data, up to the second [#]; [start]
    is what follows. *)
Definition state14 (start : parser -> step) (p : parser) : step :=
  c ← load_char (p_t p);
  if c =? c_hash then
    let p := next_char p <| p_state := 15 |> in
    store_char (p_vcur p) c_nul;;
    size ← load_string (cursor (p_val p) 0);
    n ← atoi size;
    start (p <| p_binexpected := u64 n |> <| p_binread := 0 |>)
  else
    p ←? put_atom_char c p;
    mret (inr (next_char p)).

(** The end of an iteration: [if (state != 15 && t[0] == NUL) keepgoing =
    0]. *)
Definition keep_going (p : parser) : M bool :=
  if p_state p =? 15 then mret true
  else c ← load_char (p_t p); mret (negb (c =? c_nul)).

(** [while (keepgoing == 1 && t != bufEnd)]; [dispatch] is the [switch]. *)
Fixpoint parse_loop (dispatch : parser -> step) (bufEnd : cptr) (fuel : nat)
    (keepgoing : bool) (p : parser) : step :=
  match fuel with
  | O => fail OutOfFuel
  | S f =>
      if keepgoing && negb (bool_decide (p_t p = bufEnd)) then
        p ←? dispatch p;
        keepgoing ← keep_going p;
        parse_loop dispatch bufEnd f keepgoing p
      else mret (inr p)
  end.

(** No more than four iterations deal with one character of the block. *)
Definition parse_fuel (t : cptr) : M nat :=
  match t with
  | None => fail NullDeref
  | Some (l, _) => b ← load (A := list (fld Z)) (Some l); mret (4 * length b + 5)%nat
  end.
End ParserStates.

#[global] Arguments put_char : simpl never.
#[global] Arguments put_atom_char : simpl never.
#[global] Arguments replace_last : simpl never.
#[global] Arguments call_handler : simpl never.
#[global] Arguments keep_going : simpl never.
#[global] Arguments parse_fuel : simpl never.
