(* ===== verification/EventParser.v ===== *)
(** The parser of [src/src/event_temp.c], which builds no elements and only
    calls the event handlers. *)
From S2P Require Import Prelude SexpTypes CMem SepLogic SexpMemory FastStack CLib ElementPool.
From S2P Require Import ParserStates.

(** The two constants of the file. *)
Definition e_val_start_size : Z := 256.
Definition e_val_grow_size : Z := 64.

(** [stack->height] assigned, incremented, decremented. *)
Definition height_get (stack : ptr) : M Z :=
  st ← load (A := faststack_t) stack; mret (stk_height st).
Definition height_set (stack : ptr) (h : Z) : M unit :=
  modify stack (fun st => st <| stk_height := h |>).
Definition height_incr (stack : ptr) : M unit :=
  h ← height_get stack; h ← int_incr h; height_set stack h.

Section EventParser.
Context {api : MemApi} {pool : PoolApi}.

Section states.
Variables (cc : ptr) (mode : parsermode_t) (stack handlers : ptr).

(** The assignments to the continuation's fields at the returns.  Only
    some of them write [squoted]. *)
Definition esave (err : sexp_errcode_t) (lastPos : cptr) (state esc : Z)
    (squoted : option Z) (p : parser) : M unit :=
  modify cc (fun c => mk_pcont stack (Det None) (p_val p) (p_val_allocated p)
    (p_val_used p) (p_vcur p) lastPos (pc_sbuffer c) (p_depth p) (p_qdepth p) state esc
    (match squoted with Some q => Det q | None => pc_squoted c end) (Det err) mode
    (p_binexpected p) (p_binread p) (p_bindata p) handlers).

Definition ereturn (err : sexp_errcode_t) (squoted : option Z) (p : parser) : step :=
  esave err (p_t p) 1 0 squoted p;; mret (inl cc).

(** [assert(val != NULL)] *)
Definition eoom (p : parser) : step := fail AssertFailed.
Definition egrow : M Z := mret e_val_grow_size.

Definition echaracters (aty : atom_t) (p : parser) : M unit :=
  call_handler handlers eh_characters (characters_event (p_val p) (p_val_used p) aty).

(** The buffer starts over, and a lone atom ends the call. *)
Definition eatom_done (p : parser) : M (bool * parser) :=
  h ← height_get stack;
  mret (h <? 1, p <| p_vcur := cursor (p_val p) 0 |> <| p_val_used := 0 |>).

Definition estate1 : parser -> step := state1 egrow eoom handlers mode.

Definition estate2 (p : parser) : step :=
  let p := p <| p_depth := u32 (p_depth p + 1) |> <| p_elts := u32 (p_elts p + 1) |> in
  h ← height_get stack;
  (if h <? 1 then height_incr stack else mret ());;
  height_incr stack;;
  mret (inr (p <| p_state := 1 |>)).

Definition estate3 (p : parser) : step :=
  if p_depth p =? 0 then ereturn SEXP_ERR_BADFORM None p
  else
    let p := next_char p <| p_depth := u32 (p_depth p - 1) |> in
    h ← height_get stack;
    height_set stack (h - 1);;
    call_handler handlers eh_end_sexpr (mret EvEnd);;
    if p_depth p =? 0 then
      r ← ereturn SEXP_ERR_OK None p; height_set stack 0;; mret r
    else mret (inr (p <| p_state := 1 |>)).

Definition estate4 (p : parser) : step :=
  c ← load_char (p_t p);
  if (p_esc p =? 1) && is_escapable c then
    p ← replace_last c p;
    mret (inr (next_char p <| p_esc := 0 |>))
  else if negb (is_atom_char c) then
    store_char (p_vcur p) c_nul;;
    let p := p <| p_val_used := u64 (p_val_used p + 1) |>
               <| p_elts := u32 (p_elts p + 1) |> in
    echaracters (if p_squoted p =? 0 then SEXP_BASIC else SEXP_SQUOTE) p;;
    '(alone, p) ← eatom_done p;
    if alone : bool then ereturn SEXP_ERR_OK (Some 0) p
    else if is_blank c then mret (inr (next_char p <| p_state := 1 |> <| p_squoted := 0 |>))
    else if c =? c_rparen then mret (inr (p <| p_state := 3 |> <| p_squoted := 0 |>))
    else mret (inr (p <| p_state := 1 |> <| p_squoted := 0 |>))
  else
    p ←? put_atom_char egrow eoom c p;
    mret (inr (next_char p)).

(** State 5: after a hidden character it goes on with the one behind it. *)
Definition estring_char (p : parser) : step :=
  c ← load_char (p_t p);
  if c =? c_dquote then
    let p := p <| p_state := 6 |> in
    p ←? (if p_squoted p =? 1 then put_char egrow eoom c_dquote p else mret (inr p));
    store_char (p_vcur p) c_nul;;
    let p := p <| p_val_used := u64 (p_val_used p + 1) |>
               <| p_elts := u32 (p_elts p + 1) |> in
    echaracters (if p_squoted p =? 1 then SEXP_SQUOTE else SEXP_DQUOTE) p;;
    '(alone, p) ← eatom_done p;
    if alone : bool then ereturn SEXP_ERR_OK (Some 0) (next_char p)
    else mret (inr (next_char p))
  else
    p ←? put_char egrow eoom c p;
    mret (inr (next_char p <| p_esc := esc_after c |>)).

Definition estate5 (p : parser) : step :=
  c ← load_char (p_t p);
  p ← (if (p_esc p =? 1) && is_escapable c then
         p ← replace_last c p; mret (next_char p <| p_esc := 0 |>)
       else mret p);
  estring_char p.

Definition estate6 : parser -> step := state6.
Definition estate7 : parser -> step := state7 egrow eoom.

Definition estate9 (p : parser) : step :=
  if p_qdepth p =? 0 then
    let p := p <| p_state := 1 |> in
    store_char (p_vcur p) c_nul;;
    let p := p <| p_elts := u32 (p_elts p + 1) |> in
    echaracters SEXP_SQUOTE p;;
    '(alone, p) ← eatom_done p;
    if alone : bool then ereturn SEXP_ERR_OK (Some 0) p else mret (inr p)
  else mret (inr (p <| p_state := 8 |>)).

Definition estate8 : parser -> step := state8 egrow eoom estate9.
Definition estate10 : parser -> step := state10 egrow eoom.
Definition estate11 : parser -> step := state11.
Definition estate12 : parser -> step := state12 egrow eoom.
Definition estate13 : parser -> step := state13 egrow eoom.

(** Here a size of zero is a failed assertion. *)
Definition estate14 : parser -> step :=
  state14 egrow eoom (fun p =>
    if p_binexpected p =? 0 then fail AssertFailed
    else
      b ← malloc_chars (p_binexpected p);
      match b with
      | None => fail AssertFailed
      | Some _ => mret (inr (p <| p_bindata := b |>))
      end).

Definition estate15 (p : parser) : step :=
  c ← load_char (p_t p);
  store_char (cursor (p_bindata p) (p_binread p)) c;;
  let p := next_char p <| p_binread := u64 (p_binread p + 1) |> in
  if p_binread p =? p_binexpected p then
    let p := p <| p_elts := u32 (p_elts p + 1) |> in
    call_handler handlers eh_binary (binary_event (p_bindata p) (p_binread p));;
    sexp_free (p_bindata p) (p_binread p);;
    mret (inr (p <| p_bindata := None |> <| p_binread := 0 |> <| p_binexpected := 0 |>
                 <| p_state := 1 |> <| p_val_used := 0 |>
                 <| p_vcur := cursor (p_val p) 0 |>))
  else mret (inr p).

(** The [switch]; in an unknown state the loop goes on with nothing
    changed. *)
Definition edispatch (p : parser) : step :=
  match p_state p with
  | 1 => estate1 p
  | 2 => estate2 p
  | 3 => estate3 p
  | 4 => estate4 p
  | 5 => estate5 p
  | 6 => estate6 p
  | 7 => estate7 p
  | 8 => estate8 p
  | 9 => estate9 p
  | 10 => estate10 p
  | 11 => estate11 p
  | 12 => estate12 p
  | 13 => estate13 p
  | 14 => estate14 p
  | 15 => estate15 p
  | _ => mret (inr p)
  end.

(** After the loop. *)
Definition efinish (bufEnd : cptr) (p : parser) : M ptr :=
  if (p_depth p =? 0) && (0 <? p_elts p) then
    esave SEXP_ERR_OK (p_t p) 1 0 (Some (p_squoted p)) p;;
    height_set stack 0;;
    mret cc
  else
    c ← load_char (p_t p);
    let lastPos := if (c =? c_nul) || bool_decide (p_t p = bufEnd) then None else p_t p in
    esave SEXP_ERR_OK lastPos (p_state p) (p_esc p) (Some (p_squoted p)) p;;
    mret cc.
End states.

(** The loop from the state that is in [p], and what follows it. *)
Definition erun (cc : ptr) (mode : parsermode_t) (stack handlers : ptr) (len : Z)
    (p : parser) : M ptr :=
  c ← load (A := pcont_t) cc;
  let bufEnd := cadd (pc_sbuffer c) len in
  keepgoing ← keep_going p;
  fuel ← parse_fuel (p_t p);
  r ← parse_loop (edispatch cc mode stack handlers) bufEnd fuel keepgoing p;
  match r with
  | inl cc => mret cc
  | inr p => efinish cc mode stack handlers bufEnd p
  end.

(** The continuation that is made when none is given.  Fields the function
    does not set before its first return are set there, apart from
    [squoted]. *)
Definition enew_cont (str : cptr) : M ptr :=
  cc ← sexp_malloc sizeof_pcont_t ();
  match cc with
  | None => fail AssertFailed
  | Some _ =>
      val ← malloc_chars e_val_start_size;
      match val with
      | None => fail AssertFailed
      | Some _ =>
          stack ← make_stack;
          init cc (mk_pcont stack Indet val e_val_start_size 0 (cursor val 0) None str
                     0 0 1 0 Indet Indet PARSER_NORMAL 0 0 None None);;
          mret cc
      end
  end.

Definition eparse_sexp (str : cptr) (len : Z) (lc : ptr) : M ptr :=
  match str with
  | None =>
      modify lc (fun c => c <| pc_error := Det SEXP_ERR_NULLSTRING |>);;
      mret lc
  | Some _ =>
      match lc with
      | Some _ =>
          c ← load (A := pcont_t) lc;
          t ← (match pc_lastPos c with
               | Some _ => mret (pc_lastPos c)
               | None => modify lc (fun c => c <| pc_sbuffer := str |>);; mret str
               end);
          squoted ← det (pc_squoted c);
          erun lc (pc_mode c) (pc_stack c) (pc_event_handlers c) len
            (mk_parser t (pc_state c) (pc_val c) (pc_vcur c) (pc_val_used c)
               (pc_val_allocated c) (pc_esc c) squoted (pc_depth c) (pc_qdepth c)
               0 None (pc_binexpected c) (pc_binread c) (pc_bindata c))
      | None =>
          cc ← enew_cont str;
          c ← load (A := pcont_t) cc;
          erun cc PARSER_NORMAL (pc_stack c) None len
            (mk_parser str 1 (pc_val c) (pc_vcur c) 0 (pc_val_allocated c) 0 0 0 0
               0 None 0 0 None)
      end
  end.
End EventParser.
