(* ===== verification/Parser.v ===== *)
(** The continuation-based parser of [src/src/parser.c] (lines 38-64 and
    315-1689): continuations, the states of [cparse_sexp], and its two
    wrappers. *)
From S2P Require Import Prelude SexpTypes CMem SepLogic SexpMemory FastStack CLib ElementPool.
From S2P Require Import Sexp Print ParserStates EventParser.

Section Parser.
Context {api : MemApi} {pool : PoolApi}.

Definition set_parser_buffer_params (ss gs : Z) : M sexp_errcode_t :=
  if 0 <? ss then
    gset_ g_val_start_size ss;;
    if 0 <? gs then gset_ g_val_grow_size gs;; mret SEXP_ERR_OK
    else mret SEXP_ERR_BAD_PARAM
  else mret SEXP_ERR_BAD_PARAM.

(** ** Continuations *)

Definition init_continuation (str : cptr) : M ptr :=
  cc ← sexp_malloc sizeof_pcont_t ();
  match cc with
  | None => set_errno SEXP_ERR_MEMORY;; mret None
  | Some _ =>
      start ← gget (A := Z) g_val_start_size;
      val ← malloc_chars start;
      match val with
      | None =>
          set_errno SEXP_ERR_MEMORY;;
          sexp_free cc sizeof_pcont_t;;
          mret None
      | Some _ =>
          stack ← make_stack;
          match stack with
          | None =>
              set_errno SEXP_ERR_MEMORY;;
              start ← gget (A := Z) g_val_start_size;
              sexp_free val start;;
              sexp_free cc sizeof_pcont_t;;
              mret None
          | Some _ =>
              init cc (mk_pcont stack Indet val start 0 (cursor val 0) None str
                         0 0 1 0 (Det 0) Indet PARSER_NORMAL 0 0 None None);;
              mret cc
          end
      end
  end.

(** The walk down the stack of [destroy_continuation]. *)
Definition destroy_level_body (lvl : ptr) : M (ptr + ptr) :=
  match lvl with
  | None => mret (inr None)
  | Some _ =>
      lv ← load (A := stack_lvl_t) lvl;
      (match lvl_data lv with
       | None => mret ()
       | Some _ =>
           modify (lvl_data lv) (fun d => d <| pd_lst := Det None |>);;
           d ← load (A := parse_data_t) (lvl_data lv);
           fst ← det (pd_fst d);
           destroy_sexp fst;;
           modify (lvl_data lv) (fun d => d <| pd_fst := Det None |>);;
           pd_deallocate (lvl_data lv);;
           modify lvl (fun l => l <| lvl_data := None |>)
       end);;
      lv ← load (A := stack_lvl_t) lvl;
      mret (inl (lvl_below lv))
  end.

Definition destroy_continuation (pc : ptr) : M unit :=
  match pc with
  | None => mret ()
  | Some _ =>
      c ← load (A := pcont_t) pc;
      (match pc_stack c with
       | None => mret ()
       | Some _ =>
           st ← load (A := faststack_t) (pc_stack c);
           fuel ← heap_fuel;
           while fuel destroy_level_body (stk_top st);;
           destroy_stack (pc_stack c);;
           modify pc (fun c => c <| pc_stack := None |>)
       end);;
      (match pc_bindata c with
       | None => mret ()
       | Some _ =>
           sexp_free (pc_bindata c) (pc_binexpected c);;
           modify pc (fun c => c <| pc_bindata := None |>)
       end);;
      (match pc_val c with
       | None => mret ()
       | Some _ =>
           sexp_free (pc_val c) (pc_val_allocated c);;
           modify pc (fun c => c <| pc_val := None |>)
       end);;
      sexp_free pc sizeof_pcont_t
  end.

(** ** The states of cparse_sexp *)

Section states.
Variables (cc : ptr) (mode : parsermode_t) (stack handlers : ptr).

(** The macro [SAVE_CONT_STATE]. *)
Definition save_cont_state (err : sexp_errcode_t) (ls : ptr) (p : parser) : M unit :=
  modify cc (fun c => mk_pcont stack (Det ls) (p_val p) (p_val_allocated p)
    (p_val_used p) (p_vcur p) (p_t p) (pc_sbuffer c) (p_depth p) (p_qdepth p)
    (p_state p) (p_esc p) (Det (p_squoted p)) (Det err) mode
    (p_binexpected p) (p_binread p) (p_bindata p) handlers);;
  set_errno err.

Definition save_return (err : sexp_errcode_t) (ls : ptr) (p : parser) : step :=
  save_cont_state err ls p;; mret (inl cc).

Definition oom (p : parser) : step := save_return SEXP_ERR_MEMORY None p.
Definition grow : M Z := gget g_val_grow_size.

(** In state 1 the result of [sexp_realloc] is assigned to [val] before
    it is tested. *)
Definition oom1 (p : parser) : step := oom (p <| p_val := None |>).

Definition cstate1 : parser -> step := state1 grow oom1 handlers mode.

(** State 2: an open parenthesis. *)
Definition cstate2 (p : parser) : step :=
  let p := p <| p_depth := u32 (p_depth p + 1) |> in
  sx ← sexp_t_allocate;
  let p := p <| p_sx := sx |> in
  match sx with
  | None => oom p
  | Some _ =>
      let p := p <| p_elts := u32 (p_elts p + 1) |> in
      modify sx (fun s => s <| elt_ty := Det SEXP_LIST |> <| elt_next := None |>
                            <| elt_list := None |>);;
      h ← height_get stack;
      p ←? (if h <? 1 then
              data ← pd_allocate;
              match data with
              | None => sexp_t_deallocate sx;; oom p
              | Some _ =>
                  modify data (fun d => d <| pd_fst := Det sx |> <| pd_lst := Det sx |>);;
                  push stack data;;
                  mret (inr p)
              end
            else
              data ← top_data stack;
              d ← load (A := parse_data_t) data;
              lst ← det (pd_lst d);
              (match lst with
               | Some _ => modify lst (fun s => s <| elt_next := sx |>)
               | None => modify data (fun d => d <| pd_fst := Det sx |>)
               end);;
              modify data (fun d => d <| pd_lst := Det sx |>);;
              mret (inr p));
      data ← pd_allocate;
      match data with
      | None => oom p
      | Some _ =>
          modify data (fun d => d <| pd_fst := Det None |> <| pd_lst := Det None |>);;
          push stack data;;
          mret (inr (p <| p_state := 1 |>))
      end
  end.

(** [lvl = pop(stack); ... pd_deallocate(data); lvl->data = NULL]: the
    first element of the level, whose record is released. *)
Definition close_level : M ptr :=
  lvl ← pop stack;
  lv ← load (A := stack_lvl_t) lvl;
  d ← load (A := parse_data_t) (lvl_data lv);
  fst ← det (pd_fst d);
  pd_deallocate (lvl_data lv);;
  modify lvl (fun l => l <| lvl_data := None |>);;
  mret fst.

(** [while (stack->top != NULL)]: what is left of the stack. *)
Definition close_all_body (sx : ptr) : M (ptr + ptr) :=
  e ← empty_stack stack;
  if e : bool then mret (inr sx) else sx ← close_level; mret (inl sx).

Definition close_all (sx : ptr) : M ptr :=
  fuel ← heap_fuel; while fuel close_all_body sx.

(** State 3: a close parenthesis. *)
Definition cstate3 (p : parser) : step :=
  if p_depth p =? 0 then
    save_return SEXP_ERR_BADFORM None (p <| p_esc := 0 |> <| p_state := 1 |>)
  else
    let p := next_char p <| p_depth := u32 (p_depth p - 1) |> in
    sx ← close_level;
    let p := p <| p_sx := sx |> in
    e ← empty_stack stack;
    if e : bool then save_return SEXP_ERR_BAD_STACK None p
    else
      data ← top_data stack;
      d ← load (A := parse_data_t) data;
      lst ← det (pd_lst d);
      modify lst (fun s => s <| elt_list := sx |>);;
      call_handler handlers eh_end_sexpr (mret EvEnd);;
      let p := p <| p_state := 1 |> in
      if p_depth p =? 0 then
        sx ← close_all sx;
        save_return SEXP_ERR_OK sx (p <| p_sx := sx |> <| p_esc := 0 |> <| p_state := 1 |>)
      else mret (inr p).

(** The element for the atom in [val], the handler's call, and a new
    buffer: the same lines in states 4, 5 and 9.  [squoted] is the value
    of that variable once the element has its type. *)
Definition new_value (aty : atom_t) (squoted : Z) (p : parser) : step :=
  sx ← sexp_t_allocate;
  let p := p <| p_sx := sx |> in
  match sx with
  | None => oom p
  | Some _ =>
      let p := p <| p_elts := u32 (p_elts p + 1) |> <| p_squoted := squoted |> in
      modify sx (fun s => s <| elt_ty := Det SEXP_VALUE |> <| elt_val := Det (p_val p) |>
        <| elt_val_allocated := Det (p_val_allocated p) |>
        <| elt_val_used := Det (p_val_used p) |>
        <| elt_next := None |> <| elt_aty := Det aty |>);;
      call_handler handlers eh_characters (characters_event (p_val p) (p_val_used p) aty);;
      start ← gget (A := Z) g_val_start_size;
      val ← malloc_chars start;
      let p := p <| p_val := val |> in
      match val with
      | None => sexp_t_deallocate sx;; oom p
      | Some _ =>
          mret (inr (p <| p_val_allocated := start |> <| p_val_used := 0 |>
                       <| p_vcur := cursor val 0 |>))
      end
  end.

(** A value goes behind the last element of the innermost open list; is
    there one? *)
Definition attach (sx : ptr) : M bool :=
  e ← empty_stack stack;
  if e : bool then mret false
  else
    data ← top_data stack;
    d ← load (A := parse_data_t) data;
    fst ← det (pd_fst d);
    (match fst with
     | None => modify data (fun d => d <| pd_fst := Det sx |> <| pd_lst := Det sx |>)
     | Some _ =>
         lst ← det (pd_lst d);
         modify lst (fun s => s <| elt_next := sx |>);;
         modify data (fun d => d <| pd_lst := Det sx |>)
     end);;
    mret true.

(** State 4: an atom. *)
Definition cstate4 (p : parser) : step :=
  c ← load_char (p_t p);
  if (p_esc p =? 1) && is_escapable c then
    p ← replace_last c p;
    mret (inr (next_char p <| p_esc := 0 |>))
  else if negb (is_atom_char c) then
    store_char (p_vcur p) c_nul;;
    p ←? new_value (if p_squoted p =? 0 then SEXP_BASIC else SEXP_SQUOTE) (p_squoted p)
           (p <| p_val_used := u64 (p_val_used p + 1) |>);
    inside ← attach (p_sx p);
    if negb inside then
      save_return SEXP_ERR_OK (p_sx p)
        (p <| p_squoted := 0 |> <| p_state := 1 |> <| p_esc := 0 |>)
    else if is_blank c then mret (inr (next_char p <| p_state := 1 |> <| p_squoted := 0 |>))
    else if c =? c_rparen then mret (inr (p <| p_state := 3 |> <| p_squoted := 0 |>))
    else mret (inr (p <| p_state := 1 |> <| p_squoted := 0 |>))
  else
    p ←? put_atom_char grow oom c p;
    mret (inr (next_char p)).

(** State 5: a string in double quotes.  After a hidden character it goes
    on with the one behind it. *)
Definition string_char (p : parser) : step :=
  c ← load_char (p_t p);
  if c =? c_dquote then
    let p := p <| p_state := 6 |> in
    p ←? (if p_squoted p =? 1 then put_char grow oom c_dquote p else mret (inr p));
    store_char (p_vcur p) c_nul;;
    p ←? new_value (if p_squoted p =? 1 then SEXP_SQUOTE else SEXP_DQUOTE)
           (if p_squoted p =? 1 then 0 else p_squoted p)
           (p <| p_val_used := u64 (p_val_used p + 1) |>);
    inside ← attach (p_sx p);
    if negb inside then
      save_return SEXP_ERR_OK (p_sx p)
        (next_char p <| p_squoted := 0 |> <| p_esc := 0 |> <| p_state := 1 |>)
    else mret (inr (next_char p))
  else
    p ←? put_char grow oom c p;
    mret (inr (next_char p <| p_esc := esc_after c |>)).

Definition cstate5 (p : parser) : step :=
  c ← load_char (p_t p);
  p ← (if (p_esc p =? 1) && is_escapable c then
         p ← replace_last c p; mret (next_char p <| p_esc := 0 |>)
       else mret p);
  string_char p.

Definition cstate6 : parser -> step := state6.
Definition cstate7 : parser -> step := state7 grow oom.

(** State 9: the end of a quoted list, if all its parentheses are
    closed. *)
Definition cstate9 (p : parser) : step :=
  if p_qdepth p =? 0 then
    let p := p <| p_state := 1 |> in
    store_char (p_vcur p) c_nul;;
    p ←? new_value SEXP_SQUOTE (p_squoted p) p;
    inside ← attach (p_sx p);
    if negb inside then
      save_return SEXP_ERR_OK (p_sx p)
        (p <| p_squoted := 0 |> <| p_esc := 0 |> <| p_state := 1 |>)
    else mret (inr p)
  else mret (inr (p <| p_state := 8 |>)).

Definition cstate8 : parser -> step := state8 grow oom cstate9.
Definition cstate10 : parser -> step := state10 grow oom.
Definition cstate11 : parser -> step := state11.
Definition cstate12 : parser -> step := state12 grow oom.
Definition cstate13 : parser -> step := state13 grow oom.

(** State 14: the size of a binary atom. *)
Definition cstate14 : parser -> step :=
  state14 grow oom (fun p =>
    if 0 <? p_binexpected p then
      b ← malloc_chars (p_binexpected p);
      let p := p <| p_bindata := b |> in
      match b with
      | None => oom p
      | Some _ => mret (inr p)
      end
    else mret (inr (p <| p_bindata := None |>))).

(** State 15: the data of a binary atom. *)
Definition cstate15 (p : parser) : step :=
  p ← (if p_binread p <? p_binexpected p then
         c ← load_char (p_t p);
         store_char (cursor (p_bindata p) (p_binread p)) c;;
         mret (next_char p <| p_binread := u64 (p_binread p + 1) |>)
       else mret p);
  if p_binread p =? p_binexpected p then
    sx ← sexp_t_allocate;
    let p := p <| p_sx := sx |> in
    match sx with
    | None => oom p
    | Some _ =>
        let p := p <| p_elts := u32 (p_elts p + 1) |> in
        modify sx (fun s => s <| elt_ty := Det SEXP_VALUE |>
          <| elt_bindata := Det (p_bindata p) |> <| elt_binlength := Det (p_binread p) |>
          <| elt_next := None |> <| elt_aty := Det SEXP_BINARY |>);;
        call_handler handlers eh_binary (binary_event (p_bindata p) (p_binread p));;
        attach sx;;
        mret (inr (p <| p_bindata := None |> <| p_binread := 0 |> <| p_binexpected := 0 |>
                     <| p_state := 1 |> <| p_val_used := 0 |>
                     <| p_vcur := cursor (p_val p) 0 |>))
    end
  else mret (inr p).

(** The [switch]. *)
Definition dispatch (p : parser) : step :=
  match p_state p with
  | 1 => cstate1 p
  | 2 => cstate2 p
  | 3 => cstate3 p
  | 4 => cstate4 p
  | 5 => cstate5 p
  | 6 => cstate6 p
  | 7 => cstate7 p
  | 8 => cstate8 p
  | 9 => cstate9 p
  | 10 => cstate10 p
  | 11 => cstate11 p
  | 12 => cstate12 p
  | 13 => cstate13 p
  | 14 => cstate14 p
  | 15 => cstate15 p
  | _ => save_return SEXP_ERR_UNKNOWN_STATE None p
  end.

(** After the loop. *)
Definition finish (bufEnd : cptr) (p : parser) : M ptr :=
  if (p_depth p =? 0) && (0 <? p_elts p) then
    sx ← close_all (p_sx p);
    save_cont_state SEXP_ERR_OK sx (p <| p_sx := sx |> <| p_esc := 0 |> <| p_state := 1 |>);;
    mret cc
  else
    save_cont_state SEXP_ERR_INCOMPLETE None p;;
    c ← load_char (p_t p);
    modify cc (fun k => k <| pc_lastPos :=
      if (c =? c_nul) || bool_decide (p_t p = bufEnd) then None else p_t p |>);;
    mret cc.
End states.

(** The loop from the state that is in [p], and what follows it. *)
Definition run (cc : ptr) (mode : parsermode_t) (stack handlers : ptr) (len : Z)
    (p : parser) : M ptr :=
  c ← load (A := pcont_t) cc;
  let bufEnd := cadd (pc_sbuffer c) len in
  keepgoing ← keep_going p;
  fuel ← parse_fuel (p_t p);
  r ← parse_loop (dispatch cc mode stack handlers) bufEnd fuel keepgoing p;
  match r with
  | inl cc => mret cc
  | inr p => finish cc mode stack handlers bufEnd p
  end.

Definition cparse_sexp (str : cptr) (len : Z) (lc : ptr) : M ptr :=
  match str with
  | None =>
      cc ← (match lc with None => init_continuation str | Some _ => mret lc end);
      match cc with
      | None => mret None
      | Some _ =>
          modify cc (fun c => c <| pc_error := Det SEXP_ERR_NULLSTRING |>
                                <| pc_last_sexp := Det None |>);;
          mret cc
      end
  | Some _ =>
      match lc with
      | Some _ =>
          c ← load (A := pcont_t) lc;
          if decide (pc_mode c = PARSER_EVENTS_ONLY) then eparse_sexp str len lc
          else
            t ← (match pc_lastPos c with
                 | Some _ => mret (pc_lastPos c)
                 | None => modify lc (fun c => c <| pc_sbuffer := str |>);; mret str
                 end);
            squoted ← det (pc_squoted c);
            run lc (pc_mode c) (pc_stack c) (pc_event_handlers c) len
              (mk_parser t (pc_state c) (pc_val c) (pc_vcur c) (pc_val_used c)
                 (pc_val_allocated c) (pc_esc c) squoted (pc_depth c) (pc_qdepth c)
                 0 None (pc_binexpected c) (pc_binread c) (pc_bindata c))
      | None =>
          cc ← init_continuation str;
          match cc with
          | None => mret None
          | Some _ =>
              modify cc (fun c => c <| pc_mode := PARSER_NORMAL |>);;
              c ← load (A := pcont_t) cc;
              run cc PARSER_NORMAL (pc_stack c) None len
                (mk_parser str 1 (pc_val c) (cursor (pc_val c) 0) (pc_val_used c)
                   (pc_val_allocated c) 0 0 0 0 0 None 0 0 None)
          end
      end
  end.

(** [dummy] is a local array. *)
Definition parse_sexp (s : cptr) (len : Z) : M ptr :=
  match s with
  | None => mret None
  | Some _ =>
      if len <? 1 then mret None
      else
        dummy ← alloc [Det c_lf; Det c_nul];
        pc ← cparse_sexp s len None;
        sx ← (match pc with
              | None => mret None
              | Some _ =>
                  err ← gget (A := sexp_errcode_t) g_sexp_errno;
                  c ← load (A := pcont_t) pc;
                  pc ← (if bool_decide (err = SEXP_ERR_INCOMPLETE) &&
                           bool_decide (pc_lastPos c = None)
                        then cparse_sexp (Some (dummy, 0)) 2 pc else mret pc);
                  match pc with
                  | None => mret None
                  | Some _ =>
                      c ← load (A := pcont_t) pc;
                      sx ← det (pc_last_sexp c);
                      destroy_continuation pc;;
                      mret sx
                  end
              end);
        dealloc (Some dummy);;
        mret sx
  end.

Definition iparse_sexp (s : cptr) (len : Z) (cc : ptr) : M ptr :=
  match cc with
  | None => set_errno SEXP_ERR_BAD_PARAM;; mret None
  | Some _ =>
      pc ← cparse_sexp s len cc;
      match pc with
      | None => mret None
      | Some _ =>
          c ← load (A := pcont_t) cc;
          last ← det (pc_last_sexp c);
          match last with
          | None => mret None
          | Some _ => modify cc (fun c => c <| pc_last_sexp := Det None |>);; mret last
          end
      end
  end.
End Parser.

#[global] Arguments init_continuation : simpl never.
#[global] Arguments destroy_continuation : simpl never.
#[global] Arguments cparse_sexp : simpl never.
#[global] Arguments attach : simpl never.
#[global] Arguments new_value : simpl never.
#[global] Arguments close_level : simpl never.
#[global] Arguments close_all : simpl never.
#[global] Arguments save_cont_state : simpl never.
