(* ===== verification/PrintCont.v ===== *)
(** [print_pcont] (lines 315-407 of [src/src/parser.c]): the text of the
    expression that a continuation has read so far. *)
From S2P Require Import Prelude SexpTypes CMem SepLogic SexpMemory FastStack CLib ElementPool.
From S2P Require Import Sexp Print.

(** A sum of two numbers of type [int]. *)
Definition int_plus (i j : Z) : M Z :=
  if i + j <=? int_max then mret (i + j) else fail IntOverflow.

Section PrintCont.
Context {api : MemApi} {pool : PoolApi}.

(** The elements of one level; the state is [cur], [loc] and [sx]. *)
Definition pcont_level_body (buflen : Z) (x : cptr * Z * ptr) :
    M (cptr * Z * ptr + cptr * Z * ptr) :=
  let '(cur, loc, sx) := x in
  match sx with
  | None => mret (inr x)
  | Some _ =>
      s ← load (A := sexp_t) sx;
      ty ← det (elt_ty s);
      if bool_decide (ty = SEXP_LIST) && bool_decide (elt_list s = None) then
        store_char cur c_lparen;;
        loc ← int_incr loc;
        mret (inr (cadd cur 1, loc, sx))
      else
        n ← print_sexp cur (u64 (buflen - loc)) sx;
        store_char (cadd cur n) c_space;;
        n ← int_incr n;
        loc ← int_plus loc n;
        s ← load (A := sexp_t) sx;
        mret (inl (cadd cur n, loc, elt_next s))
  end.

(** The levels from the bottom; the state is [cur], [loc] and [lvl]. *)
Definition pcont_body (buflen : Z) (x : cptr * Z * ptr) :
    M (cptr * Z * ptr + cptr * Z * ptr) :=
  let '(cur, loc, lvl) := x in
  if (u64 loc <? u64 (buflen - 1)) then
    match lvl with
    | None => mret (inr x)
    | Some _ =>
        lv ← load (A := stack_lvl_t) lvl;
        match lvl_data lv with
        | None => mret (inr x)
        | Some _ =>
            d ← load (A := parse_data_t) (lvl_data lv);
            sx ← det (pd_fst d);
            fuel ← heap_fuel;
            '(cur, loc, _) ← while fuel (pcont_level_body buflen) (cur, loc, sx);
            mret (inl (cur, loc, lvl_above lv))
        end
    end
  else mret (inr x).

Definition print_pcont (pc : ptr) (buf : cptr) (buflen : Z) : M unit :=
  match buf with
  | None => mret ()
  | Some _ =>
      match pc with
      | None => mret ()
      | Some _ =>
          c ← load (A := pcont_t) pc;
          match pc_stack c with
          | None => mret ()
          | Some _ =>
              st ← load (A := faststack_t) (pc_stack c);
              fuel ← heap_fuel;
              '(cur, loc, _) ← while fuel (pcont_body buflen) (buf, 0, stk_bottom st);
              let left := u64 (buflen - loc) in
              cur ← (if pc_val_used c <? u64 (left - 1) then
                       strncpy cur (cursor (pc_val c) 0) (pc_val_used c);;
                       mret (cadd cur (pc_val_used c))
                     else if 2 <? left then
                       strncpy cur (cursor (pc_val c) 0) (left - 2);;
                       mret (cadd cur (left - 2))
                     else mret cur);
              store_char cur c_nul
          end
      end
  end.
End PrintCont.
