(* ===== verification/Io.v ===== *)
(** The reader of expressions from a file descriptor, [src/src/io.c]. *)
From S2P Require Import Prelude SexpTypes CMem SepLogic SexpMemory FastStack CLib ElementPool.
From S2P Require Import Sexp Parser.

Definition BUFSIZ : Z := 8192.

(** [read(fd, buf, BUFSIZ)]: the results of the next reads are in [g_reads];
    a read gives bytes, none at the end of the file, or fails; after the
    last of them the file is at its end. *)
Definition read_fd (buf : loc) : M Z :=
  rs ← gget (A := list (option (list Z))) g_reads;
  match rs with
  | [] => mret 0
  | r :: rs =>
      gset_ g_reads rs;;
      match r with
      | None => mret (-1)
      | Some bytes =>
          let bytes := take (Z.to_nat BUFSIZ) bytes in
          store_bytes (Some (buf, 0)) (Det <$> bytes);;
          mret (Z.of_nat (length bytes))
      end
  end.

Section Io.
Context {api : MemApi} {pool : PoolApi}.

Definition init_iowrap (fd : Z) : M ptr :=
  iow ← sexp_calloc 1 sizeof_sexp_iowrap_t ();
  match iow with
  | None => set_errno SEXP_ERR_MEMORY;; mret None
  | Some _ =>
      buf ← alloc (replicate (Z.to_nat BUFSIZ) (Det 0 : fld Z));
      init iow (mk_iowrap None fd buf 0);;
      store_char (Some (buf, 0)) c_nul;;
      mret iow
  end.

Definition destroy_iowrap (iow : ptr) : M unit :=
  match iow with
  | None => mret ()
  | Some _ =>
      w ← load (A := sexp_iowrap_t) iow;
      destroy_continuation (iow_cc w);;
      dealloc (Some (iow_buf w));;
      sexp_free iow sizeof_sexp_iowrap_t
  end.

(** [iow->cnt = (size_t) read(iow->fd, iow->buf, BUFSIZ)] *)
Definition refill (iow : ptr) : M Z :=
  w ← load (A := sexp_iowrap_t) iow;
  n ← read_fd (iow_buf w);
  let cnt := u64 n in
  modify iow (fun w => w <| iow_cnt := cnt |>);;
  mret cnt.

(** [iow->cc = cparse_sexp(iow->buf, iow->cnt, iow->cc)] *)
Definition parse_buffer (iow : ptr) : M ptr :=
  w ← load (A := sexp_iowrap_t) iow;
  cc ← cparse_sexp (Some (iow_buf w, 0)) (iow_cnt w) (iow_cc w);
  modify iow (fun w => w <| iow_cc := cc |>);;
  mret cc.

(** The expression in the continuation, if there is one; it is taken
    out. *)
Definition take_last (cc : ptr) : M ptr :=
  c ← load (A := pcont_t) cc;
  sx ← det (pc_last_sexp c);
  match sx with
  | None => mret None
  | Some _ => modify cc (fun c => c <| pc_last_sexp := Det None |>);; mret sx
  end.

(** The loop that reads on until an expression is complete: its state is
    [None], and then the result. *)
Definition read_body (iow : ptr) (x : option ptr) : M (option ptr + option ptr) :=
  w ← load (A := sexp_iowrap_t) iow;
  c ← load (A := pcont_t) (iow_cc w);
  last ← det (pc_last_sexp c);
  match last with
  | Some _ => mret (inr None)
  | None =>
      err ← det (pc_error c);
      if bool_decide (err = SEXP_ERR_OK) then
        cnt ← refill iow;
        if cnt =? 0 then set_errno SEXP_ERR_IO_EMPTY;; mret (inr (Some None))
        else
          parse_buffer iow;;
          modify iow (fun w => w <| iow_cnt := 0 |>);;
          mret (inl None)
      else set_errno err;; mret (inr (Some None))
  end.

(** There are as many rounds as results of [read], and one to find the
    end of the file. *)
Definition reads_fuel : M nat :=
  rs ← gget (A := list (option (list Z))) g_reads; mret (S (S (length rs))).

(** The second half of [read_one_sexp], with the buffer used up. *)
Definition read_more (iow : ptr) : M ptr :=
  parse_buffer iow;;
  fuel ← reads_fuel;
  r ← while fuel (read_body iow) None;
  match r with
  | Some res => mret res
  | None => w ← load (A := sexp_iowrap_t) iow; take_last (iow_cc w)
  end.

Definition read_rest (iow : ptr) : M ptr :=
  w ← load (A := sexp_iowrap_t) iow;
  if iow_cnt w =? 0 then
    cnt ← refill iow;
    if cnt =? 0 then set_errno SEXP_ERR_IO_EMPTY;; mret None
    else read_more iow
  else read_more iow.

Definition read_one_sexp (iow : ptr) : M ptr :=
  match iow with
  | None => mret None
  | Some _ =>
      w ← load (A := sexp_iowrap_t) iow;
      pending ← (match iow_cc w with
                 | None => mret false
                 | Some _ =>
                     c ← load (A := pcont_t) (iow_cc w);
                     mret (negb (bool_decide (pc_lastPos c = None)))
                 end);
      if pending : bool then
        cc ← parse_buffer iow;
        match cc with
        | None => mret None
        | Some _ =>
            sx ← take_last cc;
            match sx with
            | Some _ => mret sx
            | None => modify iow (fun w => w <| iow_cnt := 0 |>);; read_rest iow
            end
        end
      else read_rest iow
  end.
End Io.
