(* ===== verification/Vis.v ===== *)
(** The Graphviz output of [src/src/sexp_vis.c].  A function returns the
    text it writes to the file; the number of an element is its location. *)
From Stdlib Require Import Ascii String.
From S2P Require Import Prelude SexpTypes CMem SepLogic SexpMemory CLib.

#[local] Open Scope list_scope.

(** The newline as a string. *)
Definition newline : string := String (Ascii.ascii_of_nat 10) EmptyString.
Definition quote : string := String (Ascii.ascii_of_nat 34) EmptyString.

Definition txt (s : string) : list Z := bytes_of_string s.
Definition addr (l : loc) : list Z := txt "sx" ++ digits (Z.pos l).

(** ["  sxN [shape=record,label=..."] *)
Definition dot_head (l : loc) : list Z :=
  txt "  " ++ addr l ++ txt " [shape=record,label=" ++ txt quote.

Definition dot_end : list Z := txt quote ++ txt "];" ++ txt newline.

(** The edge from field [f] of [l] to [l']. *)
Definition dot_edge (l : loc) (f : string) (l' : loc) : list Z :=
  txt "  " ++ addr l ++ txt ":" ++ txt f ++ txt " -> " ++ addr l' ++ txt ":type;" ++ txt newline.

Definition dot_edge_opt (l : loc) (f : string) (p : ptr) : list Z :=
  match p with None => [] | Some l' => dot_edge l f l' end.

Definition dot_aty (aty : atom_t) : list Z :=
  txt match aty with
      | SEXP_BASIC => "SEXP_BASIC }"
      | SEXP_SQUOTE => "SEXP_SQUOTE }"
      | SEXP_DQUOTE => "SEXP_DQUOTE }"
      | SEXP_BINARY => "SEXP_BINARY }"
      end.

(** The second line of a value. *)
Definition dot_value (aty : atom_t) (s : sexp_t) : M (list Z) :=
  match aty with
  | SEXP_BINARY =>
      n ← det (elt_binlength s);
      mret (txt "| binlength=" ++ digits n ++ txt " | <next> next" ++ dot_end)
  | _ =>
      va ← det (elt_val_allocated s);
      vu ← det (elt_val_used s);
      v ← det (elt_val s);
      str ← load_string (cursor v 0);
      mret (txt "| { va=" ++ digits va ++ txt " | vu=" ++ digits vu ++ txt " } | val=" ++ str ++
            txt " | <next> next" ++ dot_end)
  end.

(** The loop of [_sexp_to_dotfile] runs along [next] and recurs on
    [list]. *)
Fixpoint sexp_to_dot_fuel (fuel : nat) (tmp : ptr) : M (list Z) :=
  match fuel with
  | O => fail OutOfFuel
  | S f =>
      match tmp with
      | None => mret []
      | Some l =>
          s ← load (A := sexp_t) tmp;
          ty ← det (elt_ty s);
          node ← (match ty with
                  | SEXP_VALUE =>
                      aty ← det (elt_aty s);
                      rest ← dot_value aty s;
                      mret (txt "{ <type> SEXP_VALUE | " ++ dot_aty aty ++ rest)
                  | SEXP_LIST =>
                      inner ← (match elt_list s with
                               | None => mret []
                               | Some l' =>
                                   t ← sexp_to_dot_fuel f (elt_list s);
                                   mret (dot_edge l "list" l' ++ t)
                               end);
                      mret (txt "<type> SEXP_LIST" ++ txt "| <list> list | <next> next" ++
                            dot_end ++ inner)
                  end);
          rest ← sexp_to_dot_fuel f (elt_next s);
          mret (dot_head l ++ node ++ dot_edge_opt l "next" (elt_next s) ++ rest)
      end
  end.

Definition _sexp_to_dotfile (sx : ptr) : M (list Z) :=
  fuel ← heap_fuel; sexp_to_dot_fuel fuel sx.

(** [fopen] may fail; the result is the error code and what was written. *)
Definition sexp_to_dotfile (sx : ptr) (fname : cptr) : M (sexp_errcode_t * list Z) :=
  match sx, fname with
  | None, _ | _, None => mret (SEXP_ERR_NULLSTRING, [])
  | Some _, Some _ =>
      ok ← sys_answer;
      if ok : bool then
        body ← _sexp_to_dotfile sx;
        mret (SEXP_ERR_OK, txt "digraph sexp {" ++ txt newline ++ body ++ txt "}" ++ txt newline)
      else mret (SEXP_ERR_IO, [])
  end.
