(* ===== verification/Binmode.v ===== *)
(** The example program [src/examples/binmode.c] in the default build: a file
    is wrapped into an expression, printed, parsed back in the mode with
    binary data, and written out. *)
From S2P Require Import Prelude SexpTypes CMem SepLogic SexpMemory FastStack CLib CString.
From S2P Require Import ElementPool Sexp Print Parser.

(** ** The text is parsed *)
Section parse.
Context {api : MemApi} {pool : PoolApi}.

(** A continuation for the mode with binary data. *)
Definition inline_continuation : M ptr :=
  pc ← init_continuation None;
  modify pc (fun c => c <| pc_mode := PARSER_INLINE_BINARY |>);;
  mret pc.

Definition parse_inline (str : cptr) (len : Z) : M ptr :=
  pc ← inline_continuation;
  cparse_sexp str len pc.

(** [cparse_sexp(s->base, s->len, pc)]: the length is that of the block. *)
Definition parse_cstring (s : ptr) : M ptr :=
  pc ← inline_continuation;
  c ← load (A := CSTRING) s;
  cparse_sexp (cursor (cs_base c) 0) (cs_len c) pc.
End parse.

(** ** The file *)

#[local] Existing Instances default_mem cached_pool.

Definition assert_ (b : bool) : M unit := if b then mret () else fail AssertFailed.

(** [p != NULL] *)
Definition nonnull {A} (p : option A) : bool := match p with Some _ => true | None => false end.

(** [read(fd, p, n)]: what the next read of [g_reads] gives, as far as there
    is room; the rest stays for the read after it. *)
Definition read_into (p : cptr) (n : Z) : M Z :=
  rs ← gget (A := list (option (list Z))) g_reads;
  match rs with
  | [] => mret 0
  | None :: rs => gset_ g_reads rs;; mret (-1)
  | Some bytes :: rs =>
      let rest := drop (Z.to_nat n) bytes in
      gset_ g_reads (match rest with [] => rs | _ => Some rest :: rs end);;
      let bytes := take (Z.to_nat n) bytes in
      store_bytes p (Det <$> bytes);;
      mret (Z.of_nat (length bytes))
  end.

(** [buf], [bused] and [ballocd]. *)
Definition fbuf : Type := ptr * Z * Z.

Definition readfile_body (bgs : Z) (x : fbuf) : M (fbuf + fbuf) :=
  let '(buf, bused, ballocd) := x in
  amt ← read_into (cursor buf bused) (u64 (ballocd - bused));
  let amt := int_of_size amt in
  if 0 <? amt then
    let bused := u64 (bused + amt) in
    if bused =? ballocd then
      tmp ← sexp_realloc buf (u64 (ballocd + bgs)) ballocd;
      assert_ (nonnull tmp);;
      mret (inl (tmp, bused, u64 (ballocd + bgs)))
    else mret (inl (buf, bused, ballocd))
  else mret (inr x).

(** Every round but the last one takes a byte. *)
Definition script_size (rs : list (option (list Z))) : nat :=
  foldr (fun r n => match r with Some bytes => S (length bytes + n) | None => S n end)%nat O rs.

Definition script_fuel : M nat :=
  rs ← gget (A := list (option (list Z))) g_reads; mret (S (script_size rs)).

(** The result and [length], which is [len] before. *)
Definition readfile (len bss bgs : Z) : M (ptr * Z) :=
  buf ← malloc_chars bss;
  assert_ (nonnull buf);;
  fuel ← script_fuel;
  '(buf, bused, _) ← while fuel (readfile_body bgs) (buf, 0, bss);
  if bused =? 0 then mret (None, len) else mret (buf, bused).

(** ** The program *)

(** From the file that was read to the expression's text in [s]. *)
Definition wrap_and_print (s : loc) (b : ptr) (l : Z) : M unit :=
  sx_binatom ← new_sexp_binary_atom b l;
  assert_ (nonnull sx_binatom);;
  sx_in ← new_sexp_list sx_binatom;
  print_sexp_cstr s sx_in (u64 (l + 1024));;
  destroy_sexp sx_in.

(** From the text to the data that [write] gets. *)
Definition parse_and_extract (s : ptr) : M (list (fld Z)) :=
  pc ← parse_cstring s;
  k ← load (A := pcont_t) pc;
  sx_out ← det (pc_last_sexp k);
  assert_ (nonnull sx_out);;
  o ← load (A := sexp_t) sx_out;
  e ← load (A := sexp_t) (elt_list o);
  b ← det (elt_bindata e);
  l ← det (elt_binlength e);
  written ← (if l =? 0 then mret [] else load_bytes (cursor b 0) l);
  sdestroy s;;
  destroy_continuation pc;;
  destroy_sexp sx_out;;
  sexp_cleanup;;
  mret written.

(** [main]: both files can be opened, the messages are left out; the result
    is what is written to the second file.  [s] is a variable of [main]. *)
Definition binmode : M (list (fld Z)) :=
  '(b, l) ← readfile 0 1024 256;
  s ← alloc (None : ptr);
  wrap_and_print s b l;;
  cs ← gget (A := ptr) s;
  written ← parse_and_extract cs;
  dealloc (Some s);;
  mret written.
