(* ===== verification/Callbacks.v ===== *)
(** The example program [src/examples/callbacks.c] in the default build: it
    reads the expressions of a file and listens to the parser, with handlers
    that find edges [((x1 y1) (x2 y2))] in the calls. *)
From Stdlib Require Import Ascii String.
From S2P Require Import Prelude SexpTypes CMem SepLogic SexpMemory FastStack CLib ElementPool.
From S2P Require Import Sexp Print Parser Io Vis Binmode.

#[local] Open Scope list_scope.

(** ** The handlers *)

Inductive state_t : Type :=
  | WAITING
  | NEXT_EDGE
  | GET_X1
  | GET_X2
  | GET_Y1
  | GET_Y2.

Section handlers.
(** The numbers, as [strtod] reads and the format [%f] shows them; [zero] is
    what they start with. *)
Context {double : Type} (strtod : list Z -> double) (show : double -> list Z) (zero : double).

(** The variables of the program, and what was written to [stdout]. *)
Record vars_t := mk_vars {
  x1 : double;
  x2 : double;
  y1 : double;
  y2 : double;
  current_state : state_t;
  depth : Z;
  stdout : list Z
}.

Definition vars_start : vars_t := mk_vars zero zero zero zero WAITING 0 [].

Definition say (s : list Z) (v : vars_t) : vars_t :=
  mk_vars (x1 v) (x2 v) (y1 v) (y2 v) (current_state v) (depth v) (stdout v ++ s).
Definition enter (st : state_t) (v : vars_t) : vars_t :=
  mk_vars (x1 v) (x2 v) (y1 v) (y2 v) st (depth v) (stdout v).

(** [depth++] and [depth--] are defined as long as the result is an [int]. *)
Definition set_depth (d : Z) (v : vars_t) : option vars_t :=
  if (- int_max <=? d) && (d <=? int_max) then
    Some (mk_vars (x1 v) (x2 v) (y1 v) (y2 v) (current_state v) d (stdout v))
  else None.

Definition edge_line (ax ay bx by_ : double) : list Z :=
  txt "EDGE DEFINED FROM (" ++ show ax ++ txt "," ++ show ay ++ txt ") to (" ++ show bx ++
  txt "," ++ show by_ ++ txt ")" ++ [c_lf].

Definition add_edge (ax ay bx by_ : double) (v : vars_t) : vars_t :=
  say (edge_line ax ay bx by_) v.

Definition enter_sexpr (v : vars_t) : option vars_t :=
  v ← set_depth (depth v + 1) v;
  Some match current_state v with
       | WAITING => enter NEXT_EDGE v
       | NEXT_EDGE | GET_X1 => enter GET_X1 v
       | GET_X2 => enter GET_X2 v
       | _ => say (txt "This is unexpected." ++ [c_lf]) v
       end.

Definition exit_sexpr (v : vars_t) : option vars_t :=
  v ← set_depth (depth v - 1) v;
  let v :=
    match current_state v with
    | GET_Y1 => enter GET_X2 v
    | GET_Y2 => enter NEXT_EDGE (add_edge (x1 v) (y1 v) (x2 v) (y2 v) v)
    | NEXT_EDGE => enter NEXT_EDGE v
    | _ => say (txt "This is also unexpected." ++ [c_lf]) v
    end in
  Some (if depth v =? 0
        then enter WAITING (say (txt "All edges for room found." ++ [c_lf]) v) else v).

(** [buf] is the text of the string. *)
Definition characters (buf : list Z) (v : vars_t) : vars_t :=
  match current_state v with
  | NEXT_EDGE => say (buf ++ [c_lf]) v
  | GET_X1 => mk_vars (strtod buf) (x2 v) (y1 v) (y2 v) GET_Y1 (depth v) (stdout v)
  | GET_X2 => mk_vars (x1 v) (strtod buf) (y1 v) (y2 v) GET_Y2 (depth v) (stdout v)
  | GET_Y1 => mk_vars (x1 v) (x2 v) (strtod buf) (y2 v) GET_Y1 (depth v) (stdout v)
  | GET_Y2 => mk_vars (x1 v) (x2 v) (y1 v) (strtod buf) GET_Y2 (depth v) (stdout v)
  | WAITING => say (txt "Also not expected." ++ [c_lf]) v
  end.

(** The string in a buffer: its characters up to the NUL.  The parser writes
    a NUL behind the [len] characters it reports. *)
Fixpoint string_in (data : list (fld Z)) : option (list Z) :=
  match data with
  | [] => Some []
  | Indet :: _ => None
  | Det c :: data => if c =? 0 then Some [] else cons c <$> string_in data
  end.

(** A call; [peh_t.binary] is not set, and the mode is one in which the
    parser never looks at it. *)
Definition handle (e : event) (v : vars_t) : option vars_t :=
  match e with
  | EvStart => enter_sexpr v
  | EvEnd => exit_sexpr v
  | EvCharacters data _ _ => s ← string_in data; Some (characters s v)
  | EvBinary _ _ => None
  end.

Fixpoint handle_all (es : list event) (v : vars_t) : option vars_t :=
  match es with
  | [] => Some v
  | e :: es => v ← handle e v; handle_all es v
  end.
End handlers.
Arguments vars_t : clear implicits.

(** ** The program *)
Section program.
Context {double : Type} (strtod : list Z -> double) (show : double -> list Z) (zero : double).

#[local] Existing Instances default_mem cached_pool.

(** One round of the loop of [main]: the expression of the round before is
    released. *)
Definition listen_body (iow sx : ptr) : M (ptr + ptr) :=
  match sx with Some _ => destroy_sexp sx | None => mret () end;;
  sx ← read_one_sexp iow;
  mret (match sx with Some _ => inl sx | None => inr None end).

(** An expression takes at least a byte of the file; there is one round for
    its end. *)
Definition listen_fuel : M nat :=
  rs ← gget (A := list (option (list Z))) g_reads; mret (S (4 * script_size rs)).

(** The handlers use nothing but their own variables and [stdout], so they
    are run on the calls that the parser has made; [None] is what is not
    defined, as an overflow of [depth]. *)
Definition hear (tr : list event) : M (list Z) :=
  match handle_all strtod show (reverse tr) (vars_start zero) with
  | Some v => mret (stdout v)
  | None => fail IntOverflow
  end.

(** [main]: the file can be opened; the result is what is written to
    [stdout]. *)
Definition callbacks (fd : Z) : M (list Z) :=
  peh_t ← alloc (mk_handlers true true true true);
  iow ← init_iowrap fd;
  cc ← init_continuation None;
  modify iow (fun w => w <| iow_cc := cc |>);;
  modify cc (fun c => c <| pc_event_handlers := Some peh_t |>);;
  fuel ← listen_fuel;
  while fuel (listen_body iow) None;;
  destroy_iowrap iow;;
  sexp_cleanup;;
  tr ← gget (A := list event) g_trace;
  out ← hear tr;
  dealloc (Some peh_t);;
  mret out.
End program.
