(* ===== verification/SimpleInterp.v ===== *)
(** The example program [src/examples/simple_interp.c] in the default build:
    an interpreter that reads one expression from every line of a file.  A
    dictionary maps names to expressions; [setq] moves an expression out of
    the one that is evaluated into the dictionary.  What is written to
    [stdout] is the text in [g_stdout]. *)
From Stdlib Require Import Ascii String.
From S2P Require Import Prelude SexpTypes CMem SepLogic SexpMemory FastStack CLib ElementPool.
From S2P Require Import Sexp Print Parser Io Vis.

#[local] Open Scope list_scope.

(** [printf] with a text that is complete, and with one [%s]. *)
Definition printf (s : list Z) : M unit :=
  o ← gget (A := list Z) g_stdout; gset_ g_stdout (o ++ s).

Definition print_line (s : string) : M unit := printf (txt s ++ [c_lf]).

Definition printf_s (pre : string) (s : cptr) (post : string) : M unit :=
  x ← load_string s; printf (txt pre ++ x ++ txt post ++ [c_lf]).

#[local] Existing Instances default_mem cached_pool.

(** ** The dictionary *)

Definition sizeof_dict_t : Z := 272.
Definition varname_size : Z := 255.

(** One round of [lookup]: the next entry, or the result. *)
Definition lookup_body (varname : cptr) (x : ptr * option ptr) :
    M (ptr * option ptr + ptr * option ptr) :=
  match x.1 with
  | None => mret (inr x)
  | Some _ =>
      e ← load (A := dict_t) x.1;
      same ← strcmp_eq varname (Some (dict_varname e, 0));
      if same : bool then mret (inr (x.1, Some (dict_valexp e)))
      else mret (inl (dict_next e, None))
  end.

Definition dict_lookup (varname : cptr) (d : ptr) : M ptr :=
  printf_s "Lookup : " varname "";;
  fuel ← heap_fuel;
  '(_, ret) ← while fuel (lookup_body varname) (d, None);
  mret (default None ret).

(** A new entry: [malloc] and the three assignments. *)
Definition new_entry (varname : cptr) (val : ptr) : M ptr :=
  _d ← sexp_malloc sizeof_dict_t ();
  match _d with
  | None => fail NullDeref
  | Some _ =>
      name ← alloc (replicate (Z.to_nat varname_size) (Indet : fld Z));
      init _d (mk_dict name val None);;
      strcpy (Some (name, 0)) varname;;
      mret _d
  end.

(** One round of the loop of [insert]: the entry with the name gets the new
    expression ([true]), the last entry ends the loop. *)
Definition insert_body (varname : cptr) (val : ptr) (x : ptr * bool) :
    M (ptr * bool + ptr * bool) :=
  e ← load (A := dict_t) x.1;
  same ← strcmp_eq (Some (dict_varname e, 0)) varname;
  if same : bool then
    destroy_sexp (dict_valexp e);;
    modify x.1 (fun e => e <| dict_valexp := val |>);;
    mret (inr (x.1, true))
  else
    match dict_next e with
    | None => mret (inr (x.1, false))
    | Some _ => mret (inl (dict_next e, false))
    end.

(** The messages of [insert]; [dbgbuf] is a variable of it. *)
Definition insert_messages (varname : cptr) (val : ptr) : M unit :=
  dbgbuf ← alloc (replicate (Z.to_nat BUFSIZ) (Indet : fld Z));
  printf_s "Inserting " varname " into dictionary.";;
  print_sexp (Some (dbgbuf, 0)) BUFSIZ val;;
  name ← load_string varname;
  value ← load_string (Some (dbgbuf, 0));
  printf (name ++ txt " value is : " ++ value ++ [c_lf]);;
  dealloc (Some dbgbuf).

Definition dict_insert (varname : cptr) (val d : ptr) : M ptr :=
  insert_messages varname val;;
  match d with
  | None => new_entry varname val
  | Some _ =>
      fuel ← heap_fuel;
      '(_d, found) ← while fuel (insert_body varname val) (d, false);
      if found : bool then mret d
      else
        n ← new_entry varname val;
        modify _d (fun e => e <| dict_next := n |>);;
        mret d
  end.

Definition purge_body (_d : ptr) : M (ptr + ptr) :=
  match _d with
  | None => mret (inr None)
  | Some _ =>
      e ← load (A := dict_t) _d;
      printf_s "PURGING: " (Some (dict_varname e, 0)) "";;
      destroy_sexp (dict_valexp e);;
      dealloc (Some (dict_varname e));;
      dealloc _d;;
      mret (inl (dict_next e))
  end.

Definition purge_all (d : ptr) : M unit :=
  fuel ← heap_fuel; while fuel purge_body d;; mret ().

(** ** The evaluator *)

(** [p->val] and [p->next]. *)
Definition val_of (p : ptr) : M cptr :=
  e ← load (A := sexp_t) p; v ← det (elt_val e); mret (cursor v 0).
Definition next_of (p : ptr) : M ptr := e ← load (A := sexp_t) p; mret (elt_next e).

(** [exp->list->next] and [exp->list->next->next]. *)
Definition first_arg (exp : ptr) : M ptr :=
  x ← load (A := sexp_t) exp; next_of (elt_list x).
Definition second_arg (exp : ptr) : M ptr := a ← first_arg exp; next_of a.

Section eval.
(** The recursive call. *)
Variable eval : ptr -> ptr -> M ptr.

Definition eval_setq (exp env : ptr) : M ptr :=
  a ← first_arg exp;
  name ← val_of a;
  val ← next_of a;
  d ← dict_insert name val env;
  a ← first_arg exp;
  modify a (fun a => a <| elt_next := None |>);;
  mret d.

(** [tmpsx = lookup(p->val, d); d = eval(tmpsx, d);] *)
Definition eval_variable (p d : ptr) : M ptr :=
  name ← val_of p;
  tmpsx ← dict_lookup name d;
  eval tmpsx d.

(** [circle] and [section]. *)
Definition eval_two_variables (title : string) (exp d : ptr) : M ptr :=
  print_line title;;
  a ← first_arg exp;
  d ← eval_variable a d;
  b ← second_arg exp;
  eval_variable b d.

Definition eval_point (exp d : ptr) : M ptr :=
  a ← first_arg exp;
  x ← val_of a;
  b ← second_arg exp;
  y ← val_of b;
  x ← load_string x;
  y ← load_string y;
  printf (txt "POINT AT: " ++ x ++ txt "," ++ y ++ [c_lf]);;
  mret d.

(** One round of the loop of [draw], in the state [tmpsx] and [d]. *)
Definition draw_body (x : ptr * ptr) : M (ptr * ptr + ptr * ptr) :=
  let '(tmpsx, d) := x in
  match tmpsx with
  | None => mret (inr x)
  | Some _ =>
      printf (txt "DRAWING: ");;
      e ← load (A := sexp_t) tmpsx;
      ty ← det (elt_ty e);
      d ← match ty with
          | SEXP_VALUE => eval_variable tmpsx d
          | SEXP_LIST => eval tmpsx d
          end;
      tmpsx ← next_of tmpsx;
      mret (inl (tmpsx, d))
  end.

Definition eval_draw (exp d : ptr) : M ptr :=
  tmpsx ← first_arg exp;
  fuel ← heap_fuel;
  '(_, d) ← while fuel draw_body (tmpsx, d);
  mret d.

Definition eval_segment (exp d : ptr) : M ptr :=
  print_line "SEGMENT:";;
  a ← first_arg exp;
  d ← eval a d;
  b ← second_arg exp;
  eval b d.

(** [point1] and [point2]. *)
Definition eval_one_variable (title : string) (exp d : ptr) : M ptr :=
  print_line title;;
  a ← first_arg exp;
  eval_variable a d.

(** The comparisons of [v] with the names of the commands. *)
Definition eval_command (v : list Z) (exp env : ptr) : M ptr :=
  let named (s : string) := bool_decide (v = txt s) in
  if named "setq" then eval_setq exp env
  else if named "circle" then eval_two_variables "CIRCLE: " exp env
  else if named "point" then eval_point exp env
  else if named "section" then eval_two_variables "SECTION: " exp env
  else if named "draw" then eval_draw exp env
  else if named "segment" then eval_segment exp env
  else if named "point1" then eval_one_variable "POINT1 OF :" exp env
  else if named "point2" then eval_one_variable "POINT2 OF :" exp env
  else printf (txt "EVAL: Unknown = " ++ v ++ [c_lf]);; mret env.
End eval.

(** The recursion is not bounded by the expression, because a variable can
    name an expression that contains it. *)
Fixpoint eval (fuel : nat) (exp env : ptr) : M ptr :=
  match fuel with
  | O => fail OutOfFuel
  | S fuel =>
      x ← load (A := sexp_t) exp;
      ty ← det (elt_ty x);
      match ty with
      | SEXP_VALUE => mret env
      | SEXP_LIST =>
          f ← load (A := sexp_t) (elt_list x);
          ty ← det (elt_ty f);
          match ty with
          | SEXP_LIST => mret env
          | SEXP_VALUE =>
              v ← det (elt_val f);
              v ← load_string (cursor v 0);
              eval_command (eval fuel) v exp env
          end
      end
  end.

(** ** The program *)

(** The first line of a text with its newline, at most [n] characters of it;
    was the end of the text met? *)
Fixpoint first_line (n : nat) (s : list Z) : list Z * bool :=
  match n, s with
  | O, _ => ([], false)
  | S _, [] => ([], true)
  | S n, c :: s =>
      if c =? c_lf then ([c], false)
      else let '(l, e) := first_line n s in (c :: l, e)
  end.

(** [fgets(buf, n, fp)] and [feof(fp)] after it: did it read anything, and
    was it the end of the file that stopped it?  [g_file] is what is left of
    the file; reads do not fail. *)
Definition fgets (buf : loc) (n : Z) : M (bool * bool) :=
  s ← gget (A := list Z) g_file;
  let '(l, eof) := first_line (Z.to_nat (n - 1)) s in
  match l with
  | [] => mret (false, eof)
  | _ =>
      gset_ g_file (drop (length l) s);;
      store_bytes (Some (buf, 0)) ((Det <$> l) ++ [Det 0]);;
      mret (true, eof)
  end.

(** One round of the loop of [main]; a [NULL] without the end of the file,
    for which [main] exits, does not occur. *)
Definition main_body (fuel : nat) (linebuf : loc) (env : ptr) : M (ptr + ptr) :=
  '(status, eof) ← fgets linebuf BUFSIZ;
  if eof : bool then mret (inr env)
  else if negb status then fail AssertFailed
  else
    sx ← parse_sexp (Some (linebuf, 0)) BUFSIZ;
    print_sexp (Some (linebuf, 0)) BUFSIZ sx;;
    env ← eval fuel sx env;
    destroy_sexp sx;;
    mret (inl env).

(** Every round but the last reads a character. *)
Definition lines_fuel : M nat :=
  s ← gget (A := list Z) g_file; mret (S (length s)).

(** [main] with a bound for the depth of [eval]. *)
Definition simple_interp (fuel : nat) : M unit :=
  linebuf ← alloc (replicate (Z.to_nat BUFSIZ) (Indet : fld Z));
  rounds ← lines_fuel;
  env ← while rounds (main_body fuel linebuf) None;
  purge_all env;;
  sexp_cleanup;;
  dealloc (Some linebuf).
