(* ===== verification/Continuations.v ===== *)
(** The example program [src/examples/continuations.c] in the default build:
    a file is parsed sixteen bytes at a time with one continuation, and every
    expression that is complete is printed. *)
From S2P Require Import Prelude SexpTypes CMem SepLogic SexpMemory FastStack CLib ElementPool.
From S2P Require Import Sexp Print ParserStates Parser Binmode SimpleInterp.

#[local] Existing Instances default_mem cached_pool.

(** The inner loop: the expressions that end in the bytes that were read. *)
Definition show_body (foo buf : loc) (len : Z) (cc sx : ptr) : M (ptr + ptr) :=
  match sx with
  | None => mret (inr None)
  | Some _ =>
      print_sexp (Some (buf, 0)) 4096 sx;;
      text ← load_string (Some (buf, 0));
      printf ([c_lf; c_lf] ++ text ++ [c_lf]);;
      destroy_sexp sx;;
      sx ← iparse_sexp (Some (foo, 0)) (u64 len) cc;
      mret (inl sx)
  end.

(** [while (len != 0)]; the state is [len], [cc] and [sx]. *)
Definition round_body (foo buf : loc) (x : Z * ptr * ptr) : M (Z * ptr * ptr + Z * ptr * ptr) :=
  let '(len, cc, sx) := x in
  if len =? 0 then mret (inr x)
  else
    len ← read_into (Some (foo, 0)) 16;
    store_char (Some (foo, len)) c_nul;;
    text ← load_string (Some (foo, 0));
    printf ([91] ++ text ++ [93; c_lf]);;
    cc ← (match cc with
          | None => init_continuation (Some (foo, 0))
          | Some _ => mret cc
          end);
    sx ← (if 0 <? len then iparse_sexp (Some (foo, 0)) (u64 len) cc else mret sx);
    fuel ← parse_fuel (Some (foo, 0));
    sx ← while fuel (show_body foo buf len cc) sx;
    mret (inl (len, cc, sx)).

(** Every round but the last one takes a byte, and one more sees the end. *)
Definition rounds_fuel : M nat :=
  rs ← gget (A := list (option (list Z))) g_reads; mret (S (S (script_size rs))).

(** [main]; the file can be opened. *)
Definition continuations : M unit :=
  foo ← alloc (replicate 255 (Indet : fld Z));
  buf ← alloc (replicate 4096 (Indet : fld Z));
  fuel ← rounds_fuel;
  '(_, cc, _) ← while fuel (round_body foo buf) (-1, None, None);
  destroy_continuation cc;;
  sexp_cleanup;;
  dealloc (Some foo);;
  dealloc (Some buf).
