(* ===== verification/Machine.v ===== *)
(** The parser as a machine on values: what [cparse_sexp] does, with the
    atom being read as a list of characters and the open lists as a stack of
    forests.  [Simulation] proves that the code refines it; the theorems
    about texts are proved here. *)
From S2P Require Import Prelude SexpTypes CMem CLib Trees ParserStates.

(** The states between two iterations of the loop, and their numbers in the
    code; state 9 is left in the iteration that enters it. *)
Inductive control : Type :=
  | Between        (* 1: white space *)
  | Open           (* 2: after an open parenthesis *)
  | Close          (* 3: at a close parenthesis *)
  | InAtom         (* 4 *)
  | InString       (* 5 *)
  | AfterString    (* 6 *)
  | Quote          (* 7: after a single quote *)
  | InQuoted       (* 8: in a quoted list *)
  | InQuotedString (* 10: in a string there *)
  | InComment      (* 11 *)
  | BinHash        (* 12: after #, in the mode with binary data *)
  | BinTag         (* 13: after #b *)
  | BinSize        (* 14: in the size *)
  | BinData (n : nat) (d : list Z). (* 15: after the bytes d, n more *)

#[export] Instance control_eq_dec : EqDecision control.
Proof. solve_decision. Defined.

Definition code (k : control) : Z :=
  match k with
  | Between => 1 | Open => 2 | Close => 3 | InAtom => 4 | InString => 5 | AfterString => 6
  | Quote => 7 | InQuoted => 8 | InQuotedString => 10 | InComment => 11
  | BinHash => 12 | BinTag => 13 | BinSize => 14 | BinData _ _ => 15
  end.

Definition is_bin (k : control) : bool :=
  match k with BinHash | BinTag | BinSize | BinData _ _ => true | _ => false end.

(** Between two iterations of the loop. *)
Record astate := mk_astate {
  a_state : control;
  a_buf : list Z;              (* the characters of the atom so far *)
  a_esc : Z;
  a_squoted : Z;
  a_qdepth : Z;
  a_stack : list (list tree);  (* the open lists, the innermost first *)
  a_inline : bool              (* the mode with binary data? *)
}.

Definition eta_astate r := mk_astate (a_state r) (a_buf r) (a_esc r) (a_squoted r)
  (a_qdepth r) (a_stack r) (a_inline r).
#[export] Instance set_a_state : Setter a_state := ltac:(setter eta_astate a_state).
#[export] Instance set_a_buf : Setter a_buf := ltac:(setter eta_astate a_buf).
#[export] Instance set_a_esc : Setter a_esc := ltac:(setter eta_astate a_esc).
#[export] Instance set_a_squoted : Setter a_squoted := ltac:(setter eta_astate a_squoted).
#[export] Instance set_a_qdepth : Setter a_qdepth := ltac:(setter eta_astate a_qdepth).
#[export] Instance set_a_stack : Setter a_stack := ltac:(setter eta_astate a_stack).
#[export] Instance set_a_inline : Setter a_inline := ltac:(setter eta_astate a_inline).

Ltac afields := cbn beta iota zeta delta [setf a_state a_buf a_esc a_squoted a_qdepth a_stack
  a_inline set_a_state set_a_buf set_a_esc set_a_squoted set_a_qdepth set_a_stack set_a_inline].

Ltac afields_in H := cbn beta iota zeta delta [setf a_state a_buf a_esc a_squoted a_qdepth a_stack
  a_inline set_a_state set_a_buf set_a_esc set_a_squoted set_a_qdepth set_a_stack set_a_inline] in H.

Definition a_start (il : bool) : astate := mk_astate Between [] 0 0 0 [] il.
Abbreviation a_init := (a_start false).

(** One iteration on the rest of the text: go on, return to the caller, or
    leave what the code is defined for ([AStuck]: a backslash remembered from
    an earlier atom, an escape that ends the text, a NUL outside binary data,
    binary data outside of lists or of a size that is no positive [int]). *)
Inductive astep_result : Type :=
  | AGo (a : astate) (rest : list Z)
  | AReturn (err : sexp_errcode_t) (t : option tree) (a : astate) (rest : list Z)
  | AStuck.

(** A complete atom: at top level it is returned, in a list it becomes the
    last element. *)
Definition a_atom (t : tree) (a : astate) (rest : list Z) (k : astate -> astep_result) :
    astep_result :=
  match a_stack a with
  | [] =>
      AReturn SEXP_ERR_OK (Some t)
        (a <| a_state := Between |> <| a_buf := [] |> <| a_esc := 0 |> <| a_squoted := 0 |>) rest
  | ts :: st => k (a <| a_buf := [] |> <| a_stack := (ts ++ [t]) :: st |>)
  end.

(** The end of the string in double quotes, or one more character of it. *)
Definition a_quoted (a : astate) (c : Z) (rest : list Z) : astep_result :=
  if c =? c_dquote then
    if a_squoted a =? 1 then
      a_atom (Atom SEXP_SQUOTE (a_buf a ++ [c_dquote])) a rest (fun a =>
        AGo (a <| a_state := AfterString |> <| a_squoted := 0 |>) rest)
    else
      a_atom (Atom SEXP_DQUOTE (a_buf a)) a rest (fun a => AGo (a <| a_state := AfterString |>) rest)
  else AGo (a <| a_buf := a_buf a ++ [c] |> <| a_esc := esc_after c |>) rest.

Definition a_store (c : Z) (a : astate) : astate :=
  a <| a_buf := a_buf a ++ [c] |> <| a_esc := esc_after c |>.

Definition a_replace_last (c : Z) (a : astate) : astate :=
  a <| a_buf := removelast (a_buf a) ++ [c] |> <| a_esc := 0 |>.

Definition astate1 (a : astate) (c : Z) (rest : list Z) : astep_result :=
  if is_blank c then AGo a rest
  else if c =? c_semi then AGo (a <| a_state := InComment |>) rest
  else if c =? c_lparen then AGo (a <| a_state := Open |>) rest
  else if c =? c_rparen then AGo (a <| a_state := Close |>) (c :: rest)
  else if c =? c_dquote then AGo (a <| a_state := InString |>) rest
  else if c =? c_squote then AGo (a <| a_state := Quote |>) rest
  else AGo (a_store c a <| a_state := if (c =? c_hash) && a_inline a then BinHash else InAtom |>)
         rest.

Definition astate3 (a : astate) (c : Z) (rest : list Z) : astep_result :=
  match a_stack a with
  | [] => AReturn SEXP_ERR_BADFORM None (a <| a_esc := 0 |> <| a_state := Between |>) (c :: rest)
  | [ts] =>
      AReturn SEXP_ERR_OK (Some (Node ts))
        (a <| a_esc := 0 |> <| a_state := Between |> <| a_stack := [] |>) rest
  | ts :: us :: st =>
      AGo (a <| a_state := Between |> <| a_stack := (us ++ [Node ts]) :: st |>) rest
  end.

Definition astate4 (a : astate) (c : Z) (rest : list Z) : astep_result :=
  if (a_esc a =? 1) && is_escapable c then
    match a_buf a with
    | [] => AStuck
    | _ => AGo (a_replace_last c a) rest
    end
  else if negb (is_atom_char c) then
    a_atom (Atom (if a_squoted a =? 0 then SEXP_BASIC else SEXP_SQUOTE) (a_buf a)) a (c :: rest)
      (fun a =>
         if is_blank c then AGo (a <| a_state := Between |> <| a_squoted := 0 |>) rest
         else if c =? c_rparen then AGo (a <| a_state := Close |> <| a_squoted := 0 |>) (c :: rest)
         else AGo (a <| a_state := Between |> <| a_squoted := 0 |>) (c :: rest))
  else AGo (a_store c a) rest.

Definition astate5 (a : astate) (c : Z) (rest : list Z) : astep_result :=
  if (a_esc a =? 1) && is_escapable c then
    match a_buf a, rest with
    | [], _ | _, [] => AStuck
    | _, c' :: rest' => if c' =? 0 then AStuck else a_quoted (a_replace_last c a) c' rest'
    end
  else a_quoted a c rest.

Definition astate7 (a : astate) (c : Z) (rest : list Z) : astep_result :=
  if c =? c_dquote then
    AGo (a <| a_state := InString |> <| a_buf := [c_dquote] |> <| a_squoted := 1 |>) rest
  else if c =? c_lparen then AGo (a <| a_state := InQuoted |>) (c :: rest)
  else AGo (a <| a_state := InAtom |> <| a_squoted := 1 |>) (c :: rest).

(** What a character means in a quoted list; is it the parenthesis that may
    end it? *)
Definition a_quoted_char (c : Z) (a : astate) : bool * astate :=
  if a_esc a =? 0 then
    if c =? c_lparen then (false, a <| a_qdepth := u32 (a_qdepth a + 1) |>)
    else if c =? c_rparen then (true, a <| a_qdepth := u32 (a_qdepth a - 1) |>)
    else if c =? c_dquote then (false, a <| a_state := InQuotedString |>)
    else (false, a)
  else (false, a).

Definition astate8 (a : astate) (c : Z) (rest : list Z) : astep_result :=
  let '(closing, a) := a_quoted_char c a in
  let a := a_store c a in
  if closing && (a_qdepth a =? 0) then
    a_atom (Atom SEXP_SQUOTE (a_buf a)) a rest (fun a => AGo (a <| a_state := Between |>) rest)
  else AGo a rest.

Definition astate10 (a : astate) (c : Z) (rest : list Z) : astep_result :=
  AGo (a_store c (if (c =? c_dquote) && (a_esc a =? 0) then a <| a_state := InQuoted |> else a))
    rest.

(** [#b] goes on, any other atom is read as in the other mode. *)
Definition astate12 (a : astate) (c : Z) (rest : list Z) : astep_result :=
  if c =? c_b then AGo (a_store c a <| a_state := BinTag |>) rest
  else AGo (a <| a_state := InAtom |>) (c :: rest).

Definition astate13 (a : astate) (c : Z) (rest : list Z) : astep_result :=
  if c =? c_hash then AGo ((a_store c a) <| a_buf := [] |> <| a_state := BinSize |>) rest
  else AGo (a <| a_state := InAtom |>) (c :: rest).

(** The size of binary data, from its characters. *)
Definition size_value (s : list Z) : option nat :=
  let n := atoi_value s in
  if (0 <? n) && (n <=? int_max) then Some (Z.to_nat n) else None.

Definition astate14 (a : astate) (c : Z) (rest : list Z) : astep_result :=
  if c =? c_hash then
    match size_value (a_buf a) with
    | Some n => AGo (a <| a_state := BinData n [] |>) rest
    | None => AStuck
    end
  else AGo (a_store c a) rest.

(** The byte [c] of binary data of which [n] bytes were missing. *)
Definition astate15 (n : nat) (d : list Z) (a : astate) (c : Z) (rest : list Z) : astep_result :=
  match n, a_stack a with
  | O, _ => AStuck
  | 1%nat, [] => AStuck
  | 1%nat, ts :: st =>
      AGo (a <| a_state := Between |> <| a_buf := [] |>
             <| a_stack := (ts ++ [Binary (d ++ [c])]) :: st |>) rest
  | S n, _ => AGo (a <| a_state := BinData n (d ++ [c]) |>) rest
  end.

(** A NUL ends the loop but in binary data. *)
Definition stops (k : control) (c : Z) : bool :=
  (c =? 0) && match k with BinData _ _ => false | _ => true end.

Definition anext (a : astate) (c : Z) (rest : list Z) : astep_result :=
  match a_state a with
  | Between => astate1 a c rest
  | Open => AGo (a <| a_state := Between |> <| a_stack := [] :: a_stack a |>) (c :: rest)
  | Close => astate3 a c rest
  | InAtom => astate4 a c rest
  | InString => astate5 a c rest
  | AfterString => AGo (a <| a_state := Between |>) (c :: rest)
  | Quote => astate7 a c rest
  | InQuoted => astate8 a c rest
  | InQuotedString => astate10 a c rest
  | InComment => AGo (if c =? c_lf then a <| a_state := Between |> else a) rest
  | BinHash => astate12 a c rest
  | BinTag => astate13 a c rest
  | BinSize => astate14 a c rest
  | BinData n d => astate15 n d a c rest
  end.

Definition astep (a : astate) (c : Z) (rest : list Z) : astep_result :=
  if stops (a_state a) c then AStuck else anext a c rest.

Lemma stops_char k c : c <> 0 -> stops k c = false.
Proof. intros Hc. unfold stops. by destruct (Z.eqb_spec c 0). Qed.

Lemma astep_next a c rest :
  astep a c rest <> AStuck -> astep a c rest = anext a c rest /\ stops (a_state a) c = false.
Proof. unfold astep. by destruct (stops _ _). Qed.

Lemma astep_char a c rest : c <> 0 -> astep a c rest = anext a c rest.
Proof. intros Hc. unfold astep. by rewrite stops_char. Qed.

(** The whole loop: the text may end in the middle of an expression
    ([AStop]). *)
Inductive arun_result : Type :=
  | AStop (a : astate)
  | ARet (err : sexp_errcode_t) (t : option tree) (a : astate) (rest : list Z)
  | AWrong.

Fixpoint arun_fuel (fuel : nat) (a : astate) (rest : list Z) : option arun_result :=
  match rest with
  | [] => Some (AStop a)
  | c :: rest =>
      match fuel with
      | O => None
      | S f =>
          match astep a c rest with
          | AGo a rest => arun_fuel f a rest
          | AReturn err t a rest => Some (ARet err t a rest)
          | AStuck => Some AWrong
          end
      end
  end.

(** How many iterations can pass before a character is used up. *)
Definition pot (a : astate) : nat :=
  match a_state a with
  | Quote | BinHash | BinTag => 3%nat
  | InAtom | Open | AfterString => 2%nat
  | Between => 1%nat
  | _ => 0%nat
  end.

Definition ameasure (a : astate) (rest : list Z) : nat := (4 * length rest + pot a)%nat.

Definition arun (a : astate) (rest : list Z) : arun_result :=
  default AWrong (arun_fuel (S (ameasure a rest)) a rest).

(** ** Termination *)

Lemma pot_le a : (pot a <= 3)%nat.
Proof. unfold pot. repeat case_match; lia. Qed.

Definition shrinks (a : astate) (rest : list Z) (r : astep_result) : Prop :=
  match r with
  | AGo a' rest' => (ameasure a' rest' < ameasure a rest)%nat
  | _ => True
  end.

Lemma shrinks_consume a a' c rest rest' :
  (length rest' <= length rest)%nat -> shrinks a (c :: rest) (AGo a' rest').
Proof. intros ?. unfold shrinks, ameasure. pose proof (pot_le a'). simpl. lia. Qed.

Lemma shrinks_atom a t a0 rest0 c rest k :
  (forall a', shrinks a (c :: rest) (k a')) -> shrinks a (c :: rest) (a_atom t a0 rest0 k).
Proof. intros Hk. unfold a_atom. by destruct (a_stack a0). Qed.

Lemma shrinks_quoted a a0 c0 rest0 c rest :
  (length rest0 <= length rest)%nat -> shrinks a (c :: rest) (a_quoted a0 c0 rest0).
Proof.
  intros ?. unfold a_quoted. repeat case_match; try (by apply shrinks_consume).
  all: by apply shrinks_atom; intros; apply shrinks_consume.
Qed.

(** State 5 looks at the character behind a hidden one. *)
#[local] Ltac nul_case :=
  match goal with |- context [if ?c =? 0 then AStuck else _] => destruct (c =? 0) end.

(** A case either uses a character up or goes to a smaller state. *)
#[local] Ltac shrink :=
  repeat case_match; try exact I; try (by apply shrinks_consume);
  unfold shrinks, ameasure, pot; afields; simpl length; lia.

Lemma astep_shrinks a c rest : shrinks a (c :: rest) (astep a c rest).
Proof.
  destruct a as [st buf esc sq qd stack il]. unfold astep.
  destruct (stops _ _); [done|]. unfold anext. destruct st; cbn [a_state].
  - unfold astate1. shrink.
  - unfold shrinks, ameasure, pot. afields. lia.
  - unfold astate3. shrink.
  - unfold astate4. case_match; [destruct buf; [exact I|by apply shrinks_consume]|].
    case_match; [|by apply shrinks_consume]. apply shrinks_atom. intros a'. shrink.
  - unfold astate5. case_match; [destruct buf, rest; try exact I; nul_case; [exact I|]|];
      apply shrinks_quoted; simpl; lia.
  - unfold shrinks, ameasure, pot. afields. lia.
  - unfold astate7. shrink.
  - unfold astate8. destruct (a_quoted_char _ _) as [closing a0].
    case_match; [|by apply shrinks_consume]. apply shrinks_atom. intros a'. by apply shrinks_consume.
  - by apply shrinks_consume.
  - by apply shrinks_consume.
  - unfold astate12. shrink.
  - unfold astate13. shrink.
  - unfold astate14. shrink.
  - unfold astate15. shrink.
Qed.

(** What is left of the text is its end. *)
Definition leaves (rest : list Z) (r : astep_result) : Prop :=
  match r with
  | AGo _ rest' | AReturn _ _ _ rest' => rest' `suffix_of` rest
  | AStuck => True
  end.

Lemma leaves_atom rest0 t a rest k :
  rest `suffix_of` rest0 -> (forall a', leaves rest0 (k a')) -> leaves rest0 (a_atom t a rest k).
Proof. intros ??. unfold a_atom. by destruct (a_stack a). Qed.

Lemma leaves_quoted rest0 a c rest :
  rest `suffix_of` rest0 -> leaves rest0 (a_quoted a c rest).
Proof.
  intros ?. unfold a_quoted. repeat case_match; try done; by apply leaves_atom.
Qed.

Lemma astep_leaves a c rest : leaves (c :: rest) (astep a c rest).
Proof.
  assert (rest `suffix_of` c :: rest) as Hs by by apply suffix_cons_r.
  assert (c :: rest `suffix_of` c :: rest) as Hs' by done.
  destruct a as [st buf esc sq qd stack il]. unfold astep.
  destruct (stops _ _); [done|]. unfold anext. destruct st; cbn [a_state]; try done.
  - unfold astate1. repeat case_match; done.
  - unfold astate3. repeat case_match; done.
  - unfold astate4. case_match; [by destruct buf|].
    case_match; [|done]. apply leaves_atom; [done|]. intros a'. repeat case_match; done.
  - unfold astate5. case_match; [|by apply leaves_quoted].
    destruct buf, rest; try done. nul_case; [done|].
    apply leaves_quoted. by do 2 apply suffix_cons_r.
  - unfold astate7. repeat case_match; done.
  - unfold astate8. destruct (a_quoted_char _ _) as [closing a0].
    case_match; [|done]. by apply leaves_atom.
  - unfold astate12. repeat case_match; done.
  - unfold astate13. repeat case_match; done.
  - unfold astate14. repeat case_match; done.
  - unfold astate15. repeat case_match; done.
Qed.

Lemma astep_forall (P : Z -> Prop) a c rest :
  Forall P (c :: rest) ->
  match astep a c rest with
  | AGo _ rest' | AReturn _ _ _ rest' => Forall P rest'
  | AStuck => True
  end.
Proof.
  intros HP. pose proof (astep_leaves a c rest) as Hl.
  destruct (astep a c rest); simpl in Hl; try done; destruct Hl as [k Hk];
    rewrite Hk in HP; by apply Forall_app in HP as [_ ?].
Qed.

(** Enough fuel gives the result. *)
Lemma arun_fuel_enough fuel a rest :
  (ameasure a rest < fuel)%nat -> arun_fuel fuel a rest = Some (arun a rest).
Proof.
  enough (forall n fuel fuel' a rest, (ameasure a rest < n)%nat -> (ameasure a rest < fuel)%nat ->
    (ameasure a rest < fuel')%nat ->
    exists r, arun_fuel fuel a rest = Some r /\ arun_fuel fuel' a rest = Some r) as H.
  { intros Hf. unfold arun.
    destruct (H (S (ameasure a rest)) fuel (S (ameasure a rest)) a rest) as (r & -> & ->);
      [lia..|done]. }
  clear. induction n as [|n IH]; intros fuel fuel' a rest Hn Hf Hf'; [lia|].
  destruct rest as [|c rest].
  { exists (AStop a). by destruct fuel, fuel'. }
  destruct fuel as [|fuel], fuel' as [|fuel']; [lia..|]. simpl.
  pose proof (astep_shrinks a c rest) as Hs.
  destruct (astep a c rest) as [a' rest'|err t a' rest'|]; simpl in Hs; eauto.
  apply IH; lia.
Qed.

(** The equations of the loop. *)
Lemma arun_nil a : arun a [] = AStop a.
Proof. reflexivity. Qed.

Lemma arun_cons a c rest :
  arun a (c :: rest) =
  match astep a c rest with
  | AGo a' rest' => arun a' rest'
  | AReturn err t a' rest' => ARet err t a' rest'
  | AStuck => AWrong
  end.
Proof.
  pose proof (astep_shrinks a c rest) as Hs.
  pose proof (arun_fuel_enough (S (ameasure a (c :: rest))) a (c :: rest)) as Heq.
  cbn [arun_fuel] in Heq. specialize (Heq ltac:(lia)).
  destruct (astep a c rest) as [a' rest'|err t a' rest'|]; simpl in Hs; [|congruence..].
  rewrite arun_fuel_enough in Heq; [congruence|lia].
Qed.

(** Induction on a run. *)
Lemma arun_ind (P : astate -> list Z -> arun_result -> Prop) :
  (forall a, P a [] (AStop a)) ->
  (forall a c rest,
     match astep a c rest with
     | AGo a' rest' => P a' rest' (arun a' rest') -> P a (c :: rest) (arun a' rest')
     | AReturn err t a' rest' => P a (c :: rest) (ARet err t a' rest')
     | AStuck => P a (c :: rest) AWrong
     end) ->
  forall a rest, P a rest (arun a rest).
Proof.
  intros Hnil Hstep a rest. remember (ameasure a rest) as n eqn:Hn. revert a rest Hn.
  induction (lt_wf n) as [n _ IH]. intros a rest ->.
  destruct rest as [|c rest]; [rewrite arun_nil; apply Hnil|]. rewrite arun_cons.
  pose proof (astep_shrinks a c rest) as Hs. specialize (Hstep a c rest).
  destruct (astep a c rest) as [a' rest'|err t a' rest'|]; [|done..].
  apply Hstep. by apply (IH _ Hs).
Qed.

(** ** The mode *)

(** Binary data is read in one mode only, and the mode stays as it is. *)
Definition mode_ok (a : astate) : Prop := a_inline a = false -> is_bin (a_state a) = false.

Definition same_mode (a : astate) (r : astep_result) : Prop :=
  match r with
  | AGo a' _ => a_inline a' = a_inline a /\ (mode_ok a -> mode_ok a')
  | AReturn _ _ a' _ => a_inline a' = a_inline a /\ is_bin (a_state a') = false
  | AStuck => True
  end.

Lemma same_mode_atom t a a0 rest k :
  a_inline a0 = a_inline a ->
  (forall a', a_inline a' = a_inline a -> same_mode a (k a')) ->
  same_mode a (a_atom t a0 rest k).
Proof. intros Hi Hk. unfold a_atom. destruct (a_stack a0); [by split|by apply Hk]. Qed.

Lemma same_mode_quoted a a0 c rest :
  a_inline a0 = a_inline a -> is_bin (a_state a0) = false -> same_mode a (a_quoted a0 c rest).
Proof.
  intros Hi Hb. unfold a_quoted. repeat case_match; [by apply same_mode_atom..|].
  split; [done|]. by intros _ _.
Qed.

Lemma astep_mode a c rest : same_mode a (astep a c rest).
Proof.
  destruct a as [st buf esc sq qd stack il]. unfold astep.
  destruct (stops _ _); [done|]. unfold anext. destruct st; cbn [a_state]; try done.
  - unfold astate1. repeat (case_match; [done|]). split; [done|]. intros _.
    unfold mode_ok, a_store. afields. intros ->. by rewrite andb_false_r.
  - unfold astate3. afields. repeat case_match; done.
  - unfold astate4. case_match; [by destruct buf|]. case_match; [|done].
    apply same_mode_atom; [done|]. intros a' Ha. repeat case_match; done.
  - unfold astate5. case_match; [destruct buf, rest; try done; nul_case; [done|]|];
      by apply same_mode_quoted.
  - unfold astate7. repeat case_match; done.
  - unfold astate8, a_quoted_char. afields.
    repeat (case_match; simplify_eq); simpl; try done; by apply same_mode_atom.
  - unfold astate10. repeat case_match; done.
  - by case_match.
  - unfold astate12. repeat case_match; done.
  - unfold astate13. repeat case_match; done.
  - unfold astate14. repeat case_match; done.
  - unfold astate15. afields. destruct n as [|[|n]], stack; done.
Qed.

Lemma arun_mode a rest :
  mode_ok a ->
  match arun a rest with
  | AStop a' => a_inline a' = a_inline a /\ mode_ok a'
  | ARet _ _ a' _ => a_inline a' = a_inline a /\ is_bin (a_state a') = false
  | AWrong => True
  end.
Proof.
  apply (arun_ind (fun a rest r => mode_ok a -> match r with
    | AStop a' => a_inline a' = a_inline a /\ mode_ok a'
    | ARet _ _ a' _ => a_inline a' = a_inline a /\ is_bin (a_state a') = false
    | AWrong => True end)); clear; [done|]. intros a c rest.
  pose proof (astep_mode a c rest) as Hm.
  destruct (astep a c rest) as [a' rest'|err t a' rest'|]; simpl in Hm; [|done..].
  destruct Hm as [<- Hm]. intros IH Ha. by apply IH, Hm.
Qed.

(** ** How many elements a text makes *)

(** The elements made so far, the open lists among them. *)
Definition stack_size (st : list (list tree)) : nat :=
  foldr (fun ts n => S (forest_size ts + n))%nat O st.

(** An element is pending in the states that are inside one. *)
Definition pending (k : control) : nat :=
  match k with
  | Open | InAtom | InString | Quote | InQuoted | InQuotedString => 1
  | BinHash | BinTag | BinSize | BinData _ _ => 1
  | _ => 0
  end%nat.

Definition weight (a : astate) (rest : list Z) : nat :=
  (stack_size (a_stack a) + pending (a_state a) + length rest)%nat.

Definition opt_size (t : option tree) : nat := match t with Some t => tree_size t | None => 0%nat end.

Definition bounded (n : nat) (r : astep_result) : Prop :=
  match r with
  | AGo a rest => (weight a rest <= n)%nat
  | AReturn _ t a rest => (opt_size t + weight a rest <= n)%nat
  | AStuck => True
  end.

Lemma bounded_atom n t a rest k :
  tree_size t = 1%nat -> (S (stack_size (a_stack a) + length rest) <= n)%nat ->
  (forall a', (stack_size (a_stack a') <= S (stack_size (a_stack a)))%nat -> bounded n (k a')) ->
  bounded n (a_atom t a rest k).
Proof.
  intros Ht Hn Hk. unfold a_atom. destruct (a_stack a) as [|ts st] eqn:Hst.
  - unfold bounded, weight. afields. rewrite Hst. simpl in *. lia.
  - apply Hk. afields. simpl. rewrite forest_size_app. simpl. lia.
Qed.

#[local] Ltac weigh :=
  unfold bounded, weight, a_store, a_replace_last; afields; cbn [pending length]; try lia.

Lemma bounded_quoted n a c rest :
  a_state a = InString -> (S (stack_size (a_stack a) + length rest) <= n)%nat ->
  bounded n (a_quoted a c rest).
Proof.
  intros Ha Hn. unfold a_quoted. repeat case_match.
  - apply bounded_atom; [done..|]. intros a' Ha'. weigh.
  - apply bounded_atom; [done..|]. intros a' Ha'. weigh.
  - weigh. rewrite Ha. simpl. lia.
Qed.

Lemma astep_bounded a c rest : bounded (weight a (c :: rest)) (astep a c rest).
Proof.
  destruct a as [st buf esc sq qd stack il]. unfold astep.
  destruct (stops _ _); [done|]. unfold anext. destruct st; cbn [a_state].
  - unfold astate1. repeat case_match; weigh.
  - weigh. simpl. lia.
  - unfold astate3. afields. destruct stack as [|ts [|us st]]; weigh; simpl;
      rewrite ?forest_size_app; unfold forest_size; simpl; lia.
  - unfold astate4. case_match; [destruct buf; weigh; done|].
    case_match; [|weigh]. apply bounded_atom; [done|weigh|]. intros a' Ha'.
    unfold weight in *. afields_in Ha'. repeat case_match; weigh.
  - unfold astate5. case_match; [destruct buf, rest; try done; nul_case; [done|]|];
      apply bounded_quoted; weigh; done.
  - weigh.
  - unfold astate7. repeat case_match; weigh.
  - unfold astate8, a_quoted_char. afields.
    repeat (case_match; simplify_eq); simpl; try weigh; try lia;
      apply bounded_atom; weigh; try done; intros a' Ha'; weigh; afields_in Ha'; lia.
  - unfold astate10. case_match; weigh.
  - case_match; weigh.
  - unfold astate12. case_match; weigh.
  - unfold astate13. case_match; weigh.
  - unfold astate14. repeat case_match; weigh; done.
  - unfold astate15. afields. destruct n as [|[|n]], stack as [|ts stk]; weigh; try done; simpl;
      rewrite ?forest_size_app; simpl; lia.
Qed.

(** The elements of the result are no more than the characters read. *)
Lemma arun_bounded a rest :
  match arun a rest with
  | AStop a' => (weight a' [] <= weight a rest)%nat
  | ARet _ t a' rest' => (opt_size t + weight a' rest' <= weight a rest)%nat
  | AWrong => True
  end.
Proof.
  pattern a, rest, (arun a rest). apply arun_ind; clear; [done|]. intros a c rest.
  pose proof (astep_bounded a c rest) as Hb.
  destruct (astep a c rest) as [a' rest'|err t a' rest'|]; [|exact Hb|exact I].
  unfold bounded in Hb. destruct (arun a' rest'); lia.
Qed.

(** ** parse_sexp *)

(** A line feed ends an atom, and nothing goes wrong with it. *)
Lemma arun_newline a : is_bin (a_state a) = false -> arun a [c_lf] <> AWrong.
Proof.
  assert (forall a, a_state a = InAtom -> arun a [c_lf] <> AWrong) as H4.
  { intros a0 Ha. rewrite arun_cons, astep_char by done. unfold anext, astate4. rewrite Ha.
    rewrite andb_false_r. simpl. unfold a_atom. by destruct (a_stack a0). }
  rewrite arun_cons, astep_char by done. destruct a as [st buf esc sq qd stack il]. unfold anext.
  destruct st; cbn [a_state]; intros Hb; try done.
  - unfold astate3. afields. by destruct stack as [|ts [|us st]].
  - unfold astate4. rewrite andb_false_r. simpl. unfold a_atom. by destruct stack.
  - unfold astate5. by rewrite andb_false_r.
  - unfold astate7. simpl. by apply H4.
  - unfold astate8, a_quoted_char. afields. by destruct (esc =? 0).
Qed.

(** What [parse_sexp] makes of a text: the error code and the tree.  A text
    that stops inside an expression gets a line feed more. *)
Definition outcome_of (r : arun_result) : sexp_errcode_t * option tree :=
  match r with
  | ARet err t _ _ => (err, t)
  | AStop a =>
      match arun a [c_lf] with
      | ARet err t _ _ => (err, t)
      | _ => (SEXP_ERR_INCOMPLETE, None)
      end
  | AWrong => (SEXP_ERR_UNKNOWN_STATE, None)
  end.

Definition parse_outcome (s : list Z) : sexp_errcode_t * option tree :=
  outcome_of (arun a_init s).

(** The texts on which the code is defined. *)
Definition parsable (s : list Z) : Prop := arun a_init s <> AWrong.

(** ** Texts in pieces *)

Definition extend (s : list Z) (r : astep_result) : astep_result :=
  match r with
  | AGo a rest => AGo a (rest ++ s)
  | AReturn err t a rest => AReturn err t a (rest ++ s)
  | AStuck => AStuck
  end.

Lemma a_atom_extend s t a rest k k' :
  (forall a', k' a' = extend s (k a')) -> a_atom t a (rest ++ s) k' = extend s (a_atom t a rest k).
Proof. intros Hk. unfold a_atom. destruct (a_stack a); [done|apply Hk]. Qed.

Lemma a_quoted_extend s a c rest : a_quoted a c (rest ++ s) = extend s (a_quoted a c rest).
Proof. unfold a_quoted. repeat case_match; try done; by apply a_atom_extend. Qed.

(** A step does not look behind the rest of the text. *)
Lemma astep_extend s a c rest :
  astep a c rest <> AStuck -> astep a c (rest ++ s) = extend s (astep a c rest).
Proof.
  destruct a as [st buf esc sq qd stack il]. unfold astep.
  destruct (stops _ _); [done|]. unfold anext. destruct st; cbn [a_state]; try done.
  - intros _. unfold astate1. repeat case_match; done.
  - intros _. unfold astate3. repeat case_match; done.
  - intros _. unfold astate4. case_match; [by destruct buf|]. case_match; [|done].
    apply (a_atom_extend s _ _ (c :: rest)). intros a'. repeat case_match; done.
  - unfold astate5. case_match; [|intros _; apply a_quoted_extend].
    destruct buf as [|b buf], rest as [|c' rest]; try done. cbn [a_buf app].
    destruct (c' =? 0); [done|]. intros _. apply a_quoted_extend.
  - intros _. unfold astate7. repeat case_match; done.
  - intros _. unfold astate8. destruct (a_quoted_char _ _) as [closing a0].
    case_match; [|done]. by apply a_atom_extend.
  - intros _. unfold astate12. repeat case_match; done.
  - intros _. unfold astate13. repeat case_match; done.
  - intros _. unfold astate14. repeat case_match; done.
  - intros _. unfold astate15. repeat case_match; done.
Qed.

(** Going on with a second piece is reading both at once. *)
Lemma arun_app a s1 s2 :
  arun a s1 <> AWrong ->
  arun a (s1 ++ s2) =
  match arun a s1 with
  | AStop a' => arun a' s2
  | ARet err t a' rest => ARet err t a' (rest ++ s2)
  | AWrong => AWrong
  end.
Proof.
  pattern a, s1, (arun a s1). apply arun_ind; clear a s1; [done|]. intros a c s1.
  pose proof (astep_extend s2 a c s1) as He. simpl app. rewrite arun_cons.
  destruct (astep a c s1) as [a' rest'|err t a' rest'|]; [|by rewrite He|done].
  intros IH Hw. rewrite He by done. by apply IH.
Qed.

(** A call that returns an expression has read something. *)
Definition progress (a : astate) (rest : list Z) (r : astep_result) : Prop :=
  match r with
  | AReturn SEXP_ERR_OK _ a' rest' => (ameasure a' rest' < ameasure a rest)%nat
  | _ => True
  end.

Lemma progress_atom a t a0 rest0 c rest k :
  (ameasure (a0 <| a_state := Between |>) rest0 < ameasure a (c :: rest))%nat ->
  (forall a', progress a (c :: rest) (k a')) -> progress a (c :: rest) (a_atom t a0 rest0 k).
Proof. intros ? Hk. unfold a_atom. by destruct (a_stack a0). Qed.

Lemma progress_quoted a a0 c0 rest0 c rest :
  (length rest0 <= length rest)%nat -> progress a (c :: rest) (a_quoted a0 c0 rest0).
Proof.
  intros ?. unfold a_quoted.
  repeat case_match; try done; apply progress_atom; try done;
    unfold ameasure, pot; afields; simpl; lia.
Qed.

Lemma astep_progress a c rest : progress a (c :: rest) (astep a c rest).
Proof.
  destruct a as [st buf esc sq qd stack il]. unfold astep.
  destruct (stops _ _); [done|]. unfold anext. destruct st; cbn [a_state]; try done.
  - unfold astate1. repeat case_match; done.
  - unfold astate3. repeat case_match; try done. unfold progress, ameasure, pot. afields.
    simpl. lia.
  - unfold astate4. case_match; [by destruct buf|]. case_match; [|done].
    apply progress_atom; [unfold ameasure, pot; afields; lia|].
    intros a'. repeat case_match; done.
  - unfold astate5. case_match; [destruct buf, rest; try done; nul_case; [done|]|];
      apply progress_quoted; simpl; lia.
  - unfold astate7. repeat case_match; done.
  - unfold astate8. destruct (a_quoted_char _ _) as [closing a0].
    case_match; [|done]. apply progress_atom; [unfold ameasure, pot; afields; simpl; lia|done].
  - unfold astate12. repeat case_match; done.
  - unfold astate13. repeat case_match; done.
  - unfold astate14. repeat case_match; done.
  - unfold astate15. repeat case_match; done.
Qed.

Lemma arun_progress a s t a' rest :
  arun a s = ARet SEXP_ERR_OK t a' rest -> (ameasure a' rest < ameasure a s)%nat.
Proof.
  pattern a, s, (arun a s). apply arun_ind; clear a s; [done|]. intros a c s.
  pose proof (astep_shrinks a c s) as Hs. pose proof (astep_progress a c s) as Hp.
  destruct (astep a c s) as [a1 rest1|err1 t1 a1 rest1|]; [|by intros [= -> -> -> ->]|done].
  intros IH Hr. specialize (IH Hr). simpl in Hs. lia.
Qed.

(** ** What is left of a text is its end *)

Lemma arun_suffix a s err t a' rest : arun a s = ARet err t a' rest -> rest `suffix_of` s.
Proof.
  pattern a, s, (arun a s). apply arun_ind; clear a s; [done|]. intros a c s.
  pose proof (astep_leaves a c s) as Hp.
  destruct (astep a c s) as [a1 rest1|err1 t1 a1 rest1|]; [|by intros [= <- <- <- <-]|done].
  intros IH Hr. by trans rest1; [apply IH|].
Qed.

(** ** The expressions of a text *)

(** In the mode without binary data there are strings and lists, all the way
    down: in the open lists of a state, and in what a step returns, which it
    does with [SEXP_ERR_OK] and never otherwise. *)
Definition texts (a : astate) : Prop :=
  a_inline a = false /\ is_bin (a_state a) = false /\
  Forall (fun ts => forallb textual ts = true) (a_stack a).

Lemma a_init_texts : texts a_init.
Proof. split_and!; [done|done|constructor]. Qed.

Lemma texts_mode a : texts a -> mode_ok a.
Proof. intros (_ & Hb & _) _. exact Hb. Qed.

Definition returns_text (r : astep_result) : Prop :=
  match r with
  | AGo a _ => texts a
  | AReturn err (Some t) a _ => err = SEXP_ERR_OK /\ textual t = true /\ texts a
  | AReturn err None a _ => err <> SEXP_ERR_OK /\ err <> SEXP_ERR_INCOMPLETE /\ texts a
  | AStuck => True
  end.

Lemma forallb_textual_snoc ts t :
  forallb textual ts = true -> textual t = true -> forallb textual (ts ++ [t]) = true.
Proof. intros H1 H2. rewrite forallb_app, H1. simpl. by rewrite H2. Qed.

Lemma returns_atom t a rest k :
  textual t = true -> texts a -> (forall a', texts a' -> returns_text (k a')) ->
  returns_text (a_atom t a rest k).
Proof.
  intros Ht (Hi & Hb & Ha) Hk. unfold a_atom. destruct (a_stack a) as [|ts st] eqn:Hst; simpl.
  - split_and!; [done|done|]. unfold texts. simpl. by rewrite Hst.
  - apply Forall_cons in Ha as [H1 H2]. apply Hk. split_and!; [done|done|]. constructor; [|done].
    by apply forallb_textual_snoc.
Qed.

Lemma returns_quoted a c rest : texts a -> returns_text (a_quoted a c rest).
Proof.
  intros Ha. unfold a_quoted. repeat case_match; [..|done];
    (apply returns_atom; [done|done|]); intros a' (? & ? & ?); by split_and!.
Qed.

Lemma astep_texts a c rest : texts a -> returns_text (astep a c rest).
Proof.
  intros Ha. pose proof Ha as (Hi & Hb & Hs).
  destruct a as [st buf esc sq qd stack il]. afields_in Hi. afields_in Hb. afields_in Hs.
  subst il. unfold astep.
  destruct (stops _ _); [done|]. unfold anext. destruct st; cbn [a_state]; try done.
  - unfold astate1. afields. rewrite andb_false_r. repeat case_match; done.
  - split_and!; [done|done|]. by constructor.
  - unfold astate3. afields. destruct stack as [|ts [|us st]]; simpl.
    + done.
    + apply Forall_inv in Hs. split_and!; [done|done|]. split_and!; [done|done|constructor].
    + apply Forall_cons in Hs as [H1 H2]. apply Forall_cons in H2 as [H2 H3].
      split_and!; [done|done|]. constructor; [|done]. by apply forallb_textual_snoc.
  - unfold astate4. case_match; [by destruct buf|]. case_match; [|done].
    apply returns_atom; [done|done|]. intros a' (? & ? & ?). repeat case_match; by split_and!.
  - unfold astate5. case_match; [destruct buf, rest; try done; nul_case; [done|]|];
      by apply returns_quoted.
  - unfold astate7. repeat case_match; done.
  - unfold astate8, a_quoted_char. afields.
    repeat (case_match; simplify_eq); try done; apply returns_atom; try done;
      intros a' (? & ? & ?); by split_and!.
  - unfold astate10. case_match; done.
  - simpl. by case_match.
Qed.

Lemma arun_texts a s :
  texts a ->
  match arun a s with
  | AStop a' => texts a'
  | ARet err (Some t) a' _ => err = SEXP_ERR_OK /\ textual t = true /\ texts a'
  | ARet err None a' _ => err <> SEXP_ERR_OK /\ err <> SEXP_ERR_INCOMPLETE /\ texts a'
  | AWrong => True
  end.
Proof.
  pattern a, s, (arun a s). apply arun_ind; clear; [done|]. intros a c s.
  pose proof (astep_texts a c s) as Hp.
  destruct (astep a c s) as [a1 rest1|err1 t1 a1 rest1|]; [|done|done].
  intros IH Ha. by apply IH, Hp.
Qed.

(** [parse_sexp] finds an expression exactly when it reports no error; it is
    made of strings and lists and has no more elements than the text has
    characters, the line feed that may be added included. *)
Lemma parse_outcome_typed s :
  parsable s ->
  match parse_outcome s with
  | (err, Some t) => err = SEXP_ERR_OK /\ textual t = true /\ (tree_size t <= S (length s))%nat
  | (err, None) => err <> SEXP_ERR_OK
  end.
Proof.
  unfold parsable, parse_outcome, outcome_of. intros Hp.
  pose proof (arun_texts a_init s a_init_texts) as Ht. pose proof (arun_bounded a_init s) as Hw.
  assert (weight a_init s = length s) as Hl by reflexivity.
  destruct (arun a_init s) as [a|err [t|] a rest|]; [|simpl in Hw; intuition lia|tauto|done].
  pose proof (arun_texts a [c_lf] Ht) as Ht2. pose proof (arun_bounded a [c_lf]) as Hw2.
  assert (weight a [c_lf] = S (weight a [])) as Hl2 by (unfold weight; simpl; lia).
  destruct (arun a [c_lf]) as [a2|err [t|] a2 rest|]; simpl in *; try done;
    [intuition lia|tauto].
Qed.
