(* ===== verification/Events.v ===== *)
(** What the parsers report to the event handlers: an expression as the
    calls for its parts, and a parser that is watched by handlers. *)
From S2P Require Import Prelude SexpTypes CMem SepLogic CLib Trees ParserStates Machine.

(** ** Expressions as calls *)

Inductive token : Type :=
  | TStart
  | TEnd
  | TAtom (aty : atom_t) (text : list Z)
  | TBinary (data : list Z).

Fixpoint tokens (t : tree) : list token :=
  match t with
  | Atom aty s => [TAtom aty s]
  | Binary d => [TBinary d]
  | Node ts => TStart :: flat_map tokens ts ++ [TEnd]
  end.

(** The handler is given the characters of an atom, with or without a NUL
    behind them, or the bytes of binary data. *)
Definition reports (e : event) (t : token) : Prop :=
  match e, t with
  | EvStart, TStart => True
  | EvEnd, TEnd => True
  | EvCharacters data used aty, TAtom aty' s =>
      aty = aty' /\ used = Z.of_nat (length data) /\
      (data = (Det <$> s) \/ data = (Det <$> s) ++ [Det 0])
  | EvBinary data len, TBinary d => data = (Det <$> d) /\ len = Z.of_nat (length d)
  | _, _ => False
  end.

(** What was reported of the lists that are open. *)
Definition level_tokens (ts : list tree) : list token := TStart :: flat_map tokens ts.
Definition open_tokens (a : astate) : list token :=
  concat (map level_tokens (reverse (a_stack a))) ++
  match a_state a with Open => [TStart] | _ => [] end.

Definition result_tokens (t : option tree) : list token :=
  match t with Some t => tokens t | None => [] end.

Lemma open_tokens_push ts st :
  concat (map level_tokens (reverse (ts :: st))) =
  concat (map level_tokens (reverse st)) ++ level_tokens ts.
Proof. by rewrite reverse_cons map_app concat_app /= app_nil_r. Qed.

Lemma level_tokens_snoc ts t : level_tokens (ts ++ [t]) = level_tokens ts ++ tokens t.
Proof. unfold level_tokens. by rewrite flat_map_app /= app_nil_r. Qed.

(** A list is closed: it becomes the last element of the one around it. *)
Lemma level_tokens_close us ts :
  level_tokens (us ++ [Node ts]) = level_tokens us ++ level_tokens ts ++ [TEnd].
Proof. by rewrite level_tokens_snoc. Qed.

(** An atom becomes the last element of the innermost list. *)
Lemma open_tokens_atom k b e q qd ts st il t :
  k <> Open ->
  open_tokens (mk_astate k b e q qd (ts :: st) il) ++ tokens t =
  open_tokens (mk_astate Between [] 0 0 0 ((ts ++ [t]) :: st) false).
Proof.
  intros Hk. unfold open_tokens. cbn [a_stack a_state].
  rewrite !open_tokens_push level_tokens_snoc app_nil_r -!(assoc_L app).
  by destruct k.
Qed.

(** An atom outside of lists is all there is to report. *)
Lemma open_tokens_alone k b e q qd il :
  k <> Open -> open_tokens (mk_astate k b e q qd [] il) = [].
Proof. intros Hk. by destruct k. Qed.

Lemma open_tokens_open b e q qd st il :
  open_tokens (mk_astate Between b e q qd st il) ++ [TStart] =
  open_tokens (mk_astate Open b e q qd st il).
Proof. unfold open_tokens. cbn [a_stack a_state]. by rewrite app_nil_r. Qed.

Lemma open_tokens_raise b e q qd st il :
  open_tokens (mk_astate Open b e q qd st il) =
  open_tokens (mk_astate Between b e q qd ([] :: st) il).
Proof. unfold open_tokens. cbn [a_stack a_state]. by rewrite open_tokens_push app_nil_r. Qed.

Lemma open_tokens_close b e q qd ts us st il :
  open_tokens (mk_astate Close b e q qd (ts :: us :: st) il) ++ [TEnd] =
  open_tokens (mk_astate Between b e q qd ((us ++ [Node ts]) :: st) il).
Proof.
  unfold open_tokens. cbn [a_stack a_state].
  rewrite !open_tokens_push level_tokens_close !app_nil_r. by rewrite -!(assoc_L app).
Qed.

Lemma open_tokens_last b e q qd ts il :
  open_tokens (mk_astate Close b e q qd [ts] il) ++ [TEnd] = tokens (Node ts).
Proof.
  unfold open_tokens. cbn [a_stack a_state]. rewrite open_tokens_push /= !app_nil_r. done.
Qed.

(** When a call has returned nothing is open. *)
Lemma astep_idle a c rest err t a' rest' :
  astep a c rest = AReturn err t a' rest' -> a_state a' = Between /\ a_stack a' = [].
Proof.
  destruct a as [st buf esc sq qd stack il]. unfold astep.
  destruct (stops _ _); [done|]. unfold anext. destruct st; cbn [a_state]; try done.
  all: unfold astate1, astate3, astate4, astate5, astate7, astate8, astate10, astate12, astate13,
    astate14, astate15, a_quoted, a_atom, a_quoted_char, a_store, a_replace_last; afields; intros H.
  all: repeat (case_match; simplify_eq; afields); done.
Qed.

Lemma arun_idle a s err t a' rest :
  arun a s = ARet err t a' rest -> open_tokens a' = [].
Proof.
  revert err t a' rest. pattern a, s, (arun a s). apply arun_ind; clear; [done|].
  intros a c s. destruct (astep a c s) as [a1 rest1|err1 t1 a1 rest1|] eqn:Hs; [|..|done].
  - intros IH err t a' rest. apply IH.
  - intros err t a' rest [= -> -> -> ->]. apply astep_idle in Hs as [Hs Hst].
    unfold open_tokens. by rewrite Hs Hst.
Qed.

(** ** The handlers and their trace *)

(** All handlers are there. *)
Definition handlers_at (hs : loc) : hprop := (hs ↦ mk_handlers true true true true)%I.

(** The calls since [before] are those for [ts]. *)
Definition trace_at (before : list event) (ts : list token) : hprop :=
  (∃ evs, g_trace ↦ (reverse evs ++ before) ∗ ⌈Forall2 reports evs ts⌉)%I.

Lemma trace_at_start before : g_trace ↦ before ⊢ trace_at before [].
Proof. iIntros "H". iExists []. by iFrame. Qed.

(** A handler is called; its argument is computed from what [R] owns. *)
Lemma wp_call_handler hs before (f : parser_event_handlers -> bool) (ev : M event) e t ts (R : hprop) Φ :
  f (mk_handlers true true true true) = true -> reports e t ->
  (forall Ψ, R -∗ (R -∗ Ψ e) -∗ wp ev Ψ) ->
  handlers_at hs -∗ trace_at before ts -∗ R -∗
  (handlers_at hs -∗ trace_at before (ts ++ [t]) -∗ R -∗ Φ ()) -∗
  wp (call_handler (Some hs) f ev) Φ.
Proof.
  iIntros (Hf He Hev) "Hh (%evs & Htr & %Hevs) HR HΦ". unfold call_handler. wp_bind_head.
  iApply (wp_load with "Hh"). iIntros "Hh". rewrite Hf. wp_bind_head.
  iApply (Hev with "HR"). iIntros "HR". iApply (wp_emit with "Htr"). iIntros "Htr".
  iApply ("HΦ" with "Hh [Htr] HR"). iExists (evs ++ [e]). rewrite reverse_snoc. iFrame.
  iPureIntro. apply Forall2_app; [done|]. by constructor.
Qed.

(** The characters of a buffer as an argument. *)
Lemma characters_reports (u : nat) aty buf vrest :
  u = length buf \/ u = S (length buf) ->
  exists data, slice 0 (Z.of_nat u) ((Det <$> buf) ++ Det 0 :: vrest) = Some data /\
    reports (EvCharacters data (Z.of_nat u) aty) (TAtom aty buf).
Proof.
  intros Hu. exists (take u ((Det <$> buf) ++ Det 0 :: vrest)).
  rewrite slice_start; [|rewrite length_app length_fmap /=; lia]. split; [done|].
  split; [done|]. split; [rewrite length_take length_app length_fmap /=; lia|].
  destruct Hu as [-> | ->].
  - left. by rewrite take_app_length' ?length_fmap.
  - right. rewrite cons_middle (assoc_L app). by rewrite take_app_length' // length_app length_fmap /= Nat.add_1_r.
Qed.

(** ** A parser with or without handlers *)

(** ... the handlers, the trace before the parser was started, and what they
    have been told before this call. *)
Inductive watch : Type :=
  | Unwatched
  | Watched (hs : loc) (before : list event) (told : list token).

Definition watch_ptr (w : watch) : ptr :=
  match w with Unwatched => None | Watched hs _ _ => Some hs end.

Definition watch_at (w : watch) (ts : list token) : hprop :=
  match w with
  | Unwatched => emp
  | Watched hs before told => handlers_at hs ∗ trace_at before (told ++ ts)
  end%I.

(** The next call starts after [ts]. *)
Definition watch_next (w : watch) (ts : list token) : watch :=
  match w with
  | Unwatched => Unwatched
  | Watched hs before told => Watched hs before (told ++ ts)
  end.

Lemma watch_at_next w ts us : watch_at (watch_next w ts) us = watch_at w (ts ++ us).
Proof. destruct w; [done|]. simpl. by rewrite (assoc_L app). Qed.

Lemma watch_ptr_next w ts : watch_ptr (watch_next w ts) = watch_ptr w.
Proof. by destruct w. Qed.

Lemma wp_watch_call w (f : parser_event_handlers -> bool) (ev : M event) e t ts (R : hprop) Φ :
  f (mk_handlers true true true true) = true -> reports e t ->
  (forall Ψ, R -∗ (R -∗ Ψ e) -∗ wp ev Ψ) ->
  watch_at w ts -∗ R -∗ (watch_at w (ts ++ [t]) -∗ R -∗ Φ ()) -∗
  wp (call_handler (watch_ptr w) f ev) Φ.
Proof.
  iIntros (Hf He Hev) "Hw HR HΦ". destruct w as [|hs before told]; simpl.
  - iApply wp_ret. iApply ("HΦ" with "Hw HR").
  - iDestruct "Hw" as "[Hh Htr]". iApply (wp_call_handler with "Hh Htr HR"); [done..|].
    rewrite -(assoc_L app). iIntros "Hh Htr HR". iApply ("HΦ" with "[$Hh $Htr] HR").
Qed.

(** ... without arguments, and with the characters of an atom. *)
Lemma wp_watch_simple w (f : parser_event_handlers -> bool) e t ts Φ :
  f (mk_handlers true true true true) = true -> reports e t ->
  watch_at w ts -∗ (watch_at w (ts ++ [t]) -∗ Φ ()) -∗
  wp (call_handler (watch_ptr w) f (mret e)) Φ.
Proof.
  iIntros (Hf He) "Hw HΦ". iApply (wp_watch_call _ _ _ e t _ emp%I with "Hw []"); [done..| |done|].
  { iIntros (Ψ) "_ HΨ". iApply wp_ret. by iApply "HΨ". }
  iIntros "Hw _". by iApply "HΦ".
Qed.

Lemma wp_watch_characters w lv (u : nat) aty buf vrest ts Φ :
  u = length buf \/ u = S (length buf) ->
  watch_at w ts -∗ lv ↦ ((Det <$> buf) ++ Det 0 :: vrest) -∗
  (watch_at w (ts ++ [TAtom aty buf]) -∗ lv ↦ ((Det <$> buf) ++ Det 0 :: vrest) -∗ Φ ()) -∗
  wp (call_handler (watch_ptr w) eh_characters (characters_event (Some lv) (Z.of_nat u) aty)) Φ.
Proof.
  iIntros (Hu) "Hw Hv HΦ". destruct (characters_reports u aty buf vrest Hu) as (data & Hs & Hr).
  iApply (wp_watch_call with "Hw Hv HΦ"); [done|exact Hr|].
  iIntros (Ψ) "Hv HΨ". unfold characters_event. simpl cursor. wp_bind_head.
  iApply (wp_load_bytes with "Hv"); [done|]. iIntros "Hv". iApply wp_ret. by iApply "HΨ".
Qed.

Lemma wp_watch_binary w lb d ts Φ :
  watch_at w ts -∗ lb ↦ (Det <$> d : list (fld Z)) -∗
  (watch_at w (ts ++ [TBinary d]) -∗ lb ↦ (Det <$> d : list (fld Z)) -∗ Φ ()) -∗
  wp (call_handler (watch_ptr w) eh_binary (binary_event (Some lb) (Z.of_nat (length d)))) Φ.
Proof.
  iIntros "Hw Hd HΦ".
  iApply (wp_watch_call _ _ _ (EvBinary (Det <$> d) (Z.of_nat (length d))) with "Hw Hd HΦ");
    [done|done|].
  iIntros (Ψ) "Hd HΨ". unfold binary_event. simpl cursor. wp_bind_head.
  assert (slice 0 (Z.of_nat (length d)) (Det <$> d : list (fld Z)) = Some (Det <$> d)) as Hs.
  { rewrite slice_start ?length_fmap // take_ge // length_fmap //. }
  iApply (wp_load_bytes with "Hd"); [exact Hs|]. iIntros "Hd". iApply wp_ret. by iApply "HΨ".
Qed.
