(* ===== verification/Simulation.v ===== *)
(** [cparse_sexp] refines the machine of [Machine]: one iteration of its
    loop is one step of the machine, with the atom's characters in the
    buffer [val] and the open lists on the parser's stack. *)
From S2P Require Import Prelude SexpTypes CMem SepLogic SexpMemory FastStack CLib ElementPool.
From S2P Require Import Trees Sexp Print ParserStates EventParser Parser Machine Events.

(** ** The buffer of the atom *)

(** [val], [vcur], [val_used] and [val_allocated] when [buf] was read; there
    is room for one more character.  The size is bounded by what the growth
    policy allows: the block grows when it is full. *)
Definition buf_at (ss gs : Z) (v : ptr) (vc : cptr) (u al : Z) (buf : list Z) : hprop :=
  (∃ lv vrest, lv ↦ ((Det <$> buf) ++ vrest) ∗
     ⌈v = Some lv /\ vc = Some (lv, Z.of_nat (length buf)) /\
      u = Z.of_nat (length buf) /\ al = Z.of_nat (length buf + length vrest) /\
      (0 < length vrest)%nat /\ al <= ss + gs + int_max⌉)%I.

Section buffer.
Context {api : MemApi} {laws : MemLaws api}.
Variables (ss gs : Z).
Hypotheses (Hss : 0 < ss) (Hgs : 0 < gs).

(** [grow] computes the growth size, from what [G] owns. *)
Lemma wp_put_char_with grow (G : hprop) oom (c : Z) t st v vc u al esc sq d q el sx be br bd buf Φ :
  (forall Ψ, G -∗ (G -∗ Ψ gs) -∗ wp grow Ψ) ->
  ss + 2 * gs + int_max < 2 ^ 64 -> Z.of_nat (length buf) < int_max ->
  buf_at ss gs v vc u al buf -∗ mem_ok -∗ G -∗
  (∀ v' vc' u' al', buf_at ss gs v' vc' u' al' (buf ++ [c]) -∗ mem_ok -∗ G -∗
     Φ (inr (mk_parser t st v' vc' u' al' esc sq d q el sx be br bd))) -∗
  wp (put_char grow oom c
        (mk_parser t st v vc u al esc sq d q el sx be br bd)) Φ.
Proof.
  iIntros (Hgrow Hsz Hlen) "(%lv & %vrest & Hv & %Hb) Hm Hg HΦ".
  destruct Hb as (-> & -> & -> & -> & Hroom & Hal). unfold put_char. pfields.
  destruct vrest as [|x vrest]; simpl in Hroom; [lia|].
  iApply wp_bind. iApply (wp_store_char with "Hv").
  { apply blk_set_app. by rewrite length_fmap. }
  iIntros "Hv". simpl length in Hal |- *. rewrite u64_small; [|lia].
  assert ((Det <$> buf) ++ Det c :: vrest = (Det <$> buf ++ [c]) ++ vrest) as Hcons.
  { by rewrite fmap_app -assoc_L. }
  rewrite Hcons.
  destruct (Z.eqb_spec (Z.of_nat (length buf) + 1)
              (Z.of_nat (length buf + S (length vrest)))).
  - wp_bind_head. iApply (Hgrow with "Hg"). iIntros "Hg".
    rewrite u64_small; [|lia]. wp_bind_head. iApply (wp_realloc_ok with "Hv Hm").
    iIntros (lv') "Hv Hm". wp_ret. pfields. iApply ("HΦ" with "[Hv] Hm Hg").
    assert (length vrest = 0%nat) as Hnil by lia. apply nil_length_inv in Hnil. subst vrest.
    rewrite app_nil_r resize_grow; [|rewrite length_fmap length_app /=; lia].
    iExists lv', _. iFrame "Hv". rewrite length_replicate length_fmap length_app /=.
    iPureIntro. unfold int_max in *. split_and!; [done|do 2 f_equal; lia|lia..].
  - wp_ret. pfields. iApply ("HΦ" with "[Hv] Hm Hg"). iExists lv, vrest. iFrame "Hv".
    rewrite length_app /=. iPureIntro. split_and!; try done; try lia.
    by rewrite Nat2Z.inj_add.
Qed.

Lemma wp_put_char oom (c : Z) t st v vc u al esc sq d q el sx be br bd buf Φ :
  ss + 2 * gs + int_max < 2 ^ 64 -> Z.of_nat (length buf) < int_max ->
  buf_at ss gs v vc u al buf -∗ mem_ok -∗ g_val_grow_size ↦ gs -∗
  (∀ v' vc' u' al', buf_at ss gs v' vc' u' al' (buf ++ [c]) -∗ mem_ok -∗
     g_val_grow_size ↦ gs -∗
     Φ (inr (mk_parser t st v' vc' u' al' esc sq d q el sx be br bd))) -∗
  wp (put_char (gget g_val_grow_size) oom c
        (mk_parser t st v vc u al esc sq d q el sx be br bd)) Φ.
Proof. apply wp_put_char_with. intros Ψ. apply wp_gget. Qed.

(** Backing up over a backslash. *)
Lemma wp_replace_last (c : Z) t st v vc u al esc sq d q el sx be br bd buf Φ :
  buf <> [] ->
  buf_at ss gs v vc u al buf -∗
  (buf_at ss gs v vc u al (removelast buf ++ [c]) -∗
     Φ (mk_parser t st v vc u al esc sq d q el sx be br bd)) -∗
  wp (replace_last c (mk_parser t st v vc u al esc sq d q el sx be br bd)) Φ.
Proof.
  iIntros (Hbuf) "(%lv & %vrest & Hv & %Hb) HΦ".
  destruct Hb as (-> & -> & -> & -> & Hroom & Hal).
  destruct buf as [|x buf _] using rev_ind; [done|]. rewrite removelast_last.
  rewrite !length_app /= in Hal |- *. unfold replace_last. pfields.
  replace (Z.of_nat (length buf + 1) + -1) with (Z.of_nat (length buf)) by lia.
  rewrite fmap_app -assoc_L /=. iApply wp_bind. iApply (wp_store_char with "Hv").
  { apply blk_set_app. by rewrite length_fmap. }
  iIntros "Hv". wp_ret.
  replace (Z.of_nat (length buf) + 1) with (Z.of_nat (length buf + 1)) by lia.
  iApply "HΦ". iExists lv, vrest. rewrite fmap_app -assoc_L /= !length_app /=.
  iFrame "Hv". iPureIntro. split_and!; done.
Qed.

(** The NUL behind the characters. *)
Lemma wp_buf_nul v vc u al buf Φ :
  buf_at ss gs v vc u al buf -∗
  (∀ lv vrest, lv ↦ ((Det <$> buf) ++ Det 0 :: vrest) -∗
     ⌈v = Some lv /\ u = Z.of_nat (length buf) /\
      al = Z.of_nat (length buf + S (length vrest)) /\
      al <= ss + gs + int_max⌉ -∗ Φ ()) -∗
  wp (store_char vc c_nul) Φ.
Proof.
  iIntros "(%lv & %vrest & Hv & %Hb) HΦ".
  destruct Hb as (-> & -> & -> & -> & Hroom & Hal).
  destruct vrest as [|x vrest]; simpl in Hroom; [lia|].
  iApply (wp_store_char with "Hv").
  { apply blk_set_app. by rewrite length_fmap. }
  iIntros "Hv". iApply ("HΦ" with "Hv"). by iPureIntro.
Qed.

(** A new buffer. *)
Lemma buf_at_fresh lv :
  lv ↦ replicate (Z.to_nat ss) Indet ⊢ buf_at ss gs (Some lv) (Some (lv, 0)) 0 ss [].
Proof.
  iIntros "Hv". iExists lv, (replicate (Z.to_nat ss) Indet). iFrame "Hv". iPureIntro.
  rewrite length_replicate /=. unfold int_max. split_and!; try done; lia.
Qed.

(** [val_used = 0; vcur = val]: the buffer starts over. *)
Lemma buf_at_reset v vc u al buf :
  buf_at ss gs v vc u al buf ⊢ buf_at ss gs v (cursor v 0) 0 al [].
Proof.
  iIntros "(%lv & %vrest & Hv & %Hb)". destruct Hb as (-> & -> & -> & -> & Hroom & Hal).
  iExists lv, ((Det <$> buf) ++ vrest). iFrame "Hv". iPureIntro.
  rewrite length_app length_fmap. split_and!; try done; simpl; lia.
Qed.
End buffer.

(** ** The open lists *)

(** The elements read so far in the innermost list: its record points to
    the first and the last of them. *)
Definition top_forest (ts : list tree) (fst lst : ptr) : hprop :=
  (⌈ts = [] /\ fst = None /\ lst = None⌉ ∨
   ∃ us t l, ⌈ts = us ++ [t] /\ lst = Some l⌉ ∗ seg us fst (Some l) ∗ tree_at t l None)%I.

(** In a list around it the last element is the list that is open, with
    nothing in it yet. *)
Definition open_forest (us : list tree) (fst lst : ptr) : hprop :=
  (∃ l e, ⌈lst = Some l /\ list_elt e None None⌉ ∗ seg us fst (Some l) ∗ l ↦ e)%I.

Definition level (forest : list tree -> ptr -> ptr -> hprop) (ts : list tree) (pd : ptr) :
    hprop :=
  (∃ d fst lst, ⌈pd = Some d⌉ ∗ d ↦ mk_pd (Det fst) (Det lst) ∗ forest ts fst lst)%I.

(** The stack: under the open lists a level with the outermost one. *)
Definition open_levels (st : list (list tree)) (pds : list ptr) : hprop :=
  ([∗ list] us;pd ∈ (st ++ [[]]);pds, level open_forest us pd)%I.

Definition levels_at (st : list (list tree)) (pds : list ptr) : hprop :=
  match st with
  | [] => ⌈pds = []⌉
  | ts :: st => ∃ pd pds', ⌈pds = pd :: pds'⌉ ∗ (level top_forest ts pd) ∗ open_levels st pds'
  end%I.

Definition stack_of (s : loc) (st : list (list tree)) : hprop :=
  (∃ pds, clear_stack s pds ∗ levels_at st pds)%I.

(** How many records are on the stack. *)
Definition height_of (st : list (list tree)) : nat :=
  match st with [] => O | _ => S (length st) end.

Lemma levels_at_length st pds : levels_at st pds ⊢ ⌜length pds = height_of st⌝.
Proof.
  destruct st as [|ts st]; simpl.
  - by iIntros "->".
  - iIntros "(%pd & %pds' & -> & _ & H)". unfold open_levels.
    iDestruct (big_sepL2_length with "H") as %Hl. iPureIntro.
    rewrite length_app /= in Hl. simpl. lia.
Qed.

Lemma top_forest_nil : ⊢ top_forest [] None None.
Proof. iLeft. done. Qed.

(** Closing a list: its first element heads its elements. *)
Lemma top_forest_at ts fst lst : top_forest ts fst lst ⊢ forest_at ts fst.
Proof.
  iIntros "[%Hn|(%us & %t & %l & %Hl & Hs & Ht)]";
    [by destruct Hn as (-> & -> & ->)|destruct Hl as [-> ->]].
  unfold forest_at. rewrite seg_app. iExists (Some l). iFrame "Hs". rewrite seg_single.
  iExists l. by iFrame.
Qed.

(** What an element put behind the last one needs. *)
Lemma top_forest_append ts fst lst :
  top_forest ts fst lst ⊢
  match lst with
  | None => ⌈ts = [] /\ fst = None⌉
  | Some l => ∃ e, l ↦ e ∗
      (∀ l', l ↦ e <| elt_next := Some l' |> -∗ seg ts fst (Some l'))
  end.
Proof.
  iIntros "[%Hn|(%us & %t & %l & %Hl & Hs & Ht)]";
    [by destruct Hn as (-> & -> & ->)|destruct Hl as [-> ->]].
  iDestruct (tree_next_acc with "Ht") as (e) "(Hl & _ & Ht)". iExists e. iFrame "Hl".
  iIntros (l') "Hl". rewrite seg_app. iExists (Some l). iFrame "Hs". rewrite seg_single.
  iExists l. iSplit; [done|]. by iApply "Ht".
Qed.

Lemma top_forest_fst ts fst lst : top_forest ts fst lst ⊢ ⌜fst = None <-> lst = None⌝.
Proof.
  iIntros "[%Hn|(%us & %t & %l & %Hl & Hs & Ht)]";
    [by destruct Hn as (-> & -> & ->)|destruct Hl as [-> ->]].
  destruct us as [|u us]; simpl.
  - iDestruct "Hs" as %->. done.
  - iDestruct "Hs" as (l' nx) "(-> & _)". done.
Qed.

Lemma top_forest_snoc ts t fst l :
  seg ts fst (Some l) ∗ tree_at t l None ⊢ top_forest (ts ++ [t]) fst (Some l).
Proof. iIntros "[Hs Ht]". iRight. iExists ts, t, l. by iFrame. Qed.

(** Closing the open list of a level. *)
Lemma open_forest_close us ts fst lst p :
  open_forest us fst lst ∗ forest_at ts p ⊢
  ∃ l e, ⌈lst = Some l⌉ ∗ l ↦ e ∗
    (l ↦ e <| elt_list := p |> -∗ top_forest (us ++ [Node ts]) fst lst).
Proof.
  iIntros "[(%l & %e & %He & Hs & Hl) Hts]". destruct He as [-> He]. iExists l, e. iFrame "Hl".
  iSplit; [done|]. iIntros "Hl". iApply top_forest_snoc. iFrame "Hs".
  rewrite tree_at_node. iExists _, p. iFrame. iPureIntro. destruct e, He. by split.
Qed.

Section stack.
Context {api : MemApi} {laws : MemLaws api} {pool : PoolApi} {plaws : PoolLaws api pool}.

(** A finished value becomes the last element of the innermost list. *)
Lemma wp_attach_top s ts st t l Φ :
  stack_of s (ts :: st) -∗ tree_at t l None -∗
  (stack_of s ((ts ++ [t]) :: st) -∗ Φ true) -∗
  wp (attach (Some s) (Some l)) Φ.
Proof.
  iIntros "(%pds & Hs & (%pd & %pds' & -> & (%d & %fst & %lst & -> & Hd & Hf) & Ho)) Ht HΦ".
  unfold attach. wp_bind_head. iApply (wp_empty_stack with "Hs"). iIntros "Hs".
  rewrite bool_decide_eq_false_2 //.
  wp_bind_head. iApply (wp_top_data with "Hs"). iIntros "Hs".
  wp_bind_head. iApply (wp_load with "Hd"). iIntros "Hd". fields. wp_det.
  iDestruct (top_forest_fst with "Hf") as %Hnil.
  iDestruct (top_forest_append with "Hf") as "Hf".
  iAssert (∀ fst, d ↦ mk_pd (Det fst) (Det (Some l)) -∗ seg ts fst (Some l) -∗
    clear_stack s (Some d :: pds') -∗ Φ true)%I with "[Ht HΦ Ho]" as "HΦ".
  { iIntros (fst') "Hd Hts Hs". iApply "HΦ". iExists _. iFrame "Hs".
    iExists (Some d), pds'. iFrame "Ho". iSplit; [done|]. iExists d, _, _.
    iFrame "Hd". iSplit; [done|]. iApply top_forest_snoc. iFrame. }
  destruct lst as [l0|].
  - destruct fst; [|by destruct Hnil as [Hnil _]; specialize (Hnil eq_refl)].
    iDestruct "Hf" as (e) "[Hl0 Hf]". wp_det. wp_modify.
    wp_bind_head. iApply (wp_modify with "Hd"). iIntros "Hd". fields. wp_ret.
    iApply ("HΦ" with "Hd [-Hs] Hs"). by iApply "Hf".
  - iDestruct "Hf" as %[-> ->]. wp_bind_head. iApply (wp_modify with "Hd").
    iIntros "Hd". fields. wp_ret. iApply ("HΦ" with "Hd [] Hs"). done.
Qed.

Lemma wp_attach_alone s sx Φ :
  stack_of s [] -∗ (stack_of s [] -∗ Φ false) -∗ wp (attach (Some s) sx) Φ.
Proof.
  iIntros "(%pds & Hs & ->) HΦ". unfold attach. wp_bind_head.
  iApply (wp_empty_stack with "Hs"). iIntros "Hs". wp_ret. iApply "HΦ".
  iExists []. by iFrame.
Qed.

(** Taking the innermost level off the stack. *)
Lemma wp_close_level s d fst lst pds n m Φ :
  Z.of_nat m < int_max ->
  clear_stack s (Some d :: pds) -∗ d ↦ mk_pd (Det fst) (Det lst) -∗ pool_ok n m -∗ mem_ok -∗
  (clear_stack s pds -∗ pool_ok n (S m) -∗ mem_ok -∗ Φ fst) -∗
  wp (close_level (Some s)) Φ.
Proof.
  iIntros (Hm) "Hs Hd Hp Hm HΦ". unfold close_level. wp_bind_head.
  iApply (wp_pop_cons with "Hs"). iIntros (l) "Hs".
  iDestruct (popped_acc with "Hs") as ([a b x]) "(Hl & %Hx & Hs)". simpl in Hx. subst x.
  wp_bind_head. iApply (wp_load with "Hl"). iIntros "Hl". fields.
  wp_bind_head. iApply (wp_load with "Hd"). iIntros "Hd". fields. wp_det. wp_bind_head.
  iApply (wp_pd_deallocate_ok with "Hd Hp Hm"); [done|]. iIntros "Hp Hm". wp_modify.
  wp_ret. iApply ("HΦ" with "[-Hp Hm] Hp Hm").
  iDestruct ("Hs" $! None with "[$]") as "Hs". by iApply popped_stack_with.
Qed.
End stack.

(** ** The invariant of the loop *)

(** The buffer is empty between atoms, and an atom holds no NUL; binary data
    is attached when it is complete. *)
Definition a_wf (a : astate) : Prop :=
  Forall (fun c => c <> 0) (a_buf a) /\
  match a_state a with
  | InAtom | InString | InQuoted | InQuotedString | BinHash | BinTag | BinSize => True
  | BinData n _ => (0 < n)%nat
  | _ => a_buf a = []
  end.

Definition mode_of (il : bool) : parsermode_t :=
  if il then PARSER_INLINE_BINARY else PARSER_NORMAL.

(** [binexpected], [binread] and [bindata]: the block for the data that is
    being read. *)
Definition has_data (k : control) : bool := match k with BinData _ _ => true | _ => false end.
Definition blob_at (k : control) (be br : Z) (bd : ptr) : hprop :=
  match k with
  | BinData n d => ∃ lb, lb ↦ ((Det <$> d) ++ replicate n Indet) ∗
      ⌈bd = Some lb /\ be = Z.of_nat (length d + n) /\ br = Z.of_nat (length d) /\
       be <= int_max⌉
  | _ => ⌈be = 0 /\ br = 0 /\ bd = None⌉
  end%I.

Lemma no_blob k : has_data k = false -> ⊢ blob_at k 0 0 None.
Proof. intros Hk. destruct k; try done; by iPureIntro. Qed.

(** Sizes that keep the counters in range: at most two records are made for
    every parenthesis that is left. *)
Definition budget (B : Z) (a : astate) (rest : list Z) (m : nat) : Prop :=
  Z.of_nat (2 * length rest + (if decide (a_state a = Open) then 2 else 0) + m +
            height_of (a_stack a))%nat <= B /\
  Z.of_nat (length (a_buf a) + length rest) <= B.

Lemma budget_start il s m : budget (Z.of_nat (m + 2 * length s)) (a_start il) s m.
Proof. split; simpl; lia. Qed.

Lemma budget_end B il m : budget B (a_start il) [] m -> Z.of_nat m <= B.
Proof. intros [Hb _]. simpl in Hb. lia. Qed.

(** The tree returned through [last_sexp]. *)
Definition tree_opt (t : option tree) (p : ptr) : hprop :=
  match t with
  | None => ⌈p = None⌉
  | Some t => ∃ l, ⌈p = Some l⌉ ∗ tree_at t l None
  end%I.

(** A continuation that stands for the machine [a]; the last call returned
    [err] and [last], and left the text at [lastPos] of the buffer [sbuf];
    [handlers] are its event handlers. *)
Definition cont_with (handlers : ptr) (ss gs : Z) (cc : loc) (a : astate) (err : sexp_errcode_t)
    (last : ptr) (lastPos sbuf : cptr) : hprop :=
  (∃ s v vc u al be br bd, cc ↦ mk_pcont (Some s) (Det last) v al u vc lastPos sbuf
        (Z.of_nat (length (a_stack a))) (a_qdepth a) (code (a_state a)) (a_esc a)
        (Det (a_squoted a)) (Det err) (mode_of (a_inline a)) be br bd handlers ∗
     blob_at (a_state a) be br bd ∗ buf_at ss gs v vc u al (a_buf a) ∗
     stack_of s (a_stack a))%I.
Abbreviation cont_at := (cont_with None).

Lemma stops_nonzero k c : stops k c = false -> has_data k = false -> c <> 0.
Proof.
  unfold stops. intros [?%Z.eqb_neq|H]%andb_false_iff Hk; [done|]. by destruct k.
Qed.

Section simulation.
Context {api : MemApi} {laws : MemLaws api} {pool : PoolApi} {plaws : PoolLaws api pool}.
(** The handlers, if there are any. *)
Variable (w : watch).
Variables (ss gs : Z).
Hypotheses (Hss : 0 < ss) (Hgs : 0 < gs) (Hsz : ss + 2 * gs + 2 ^ 31 < 2 ^ 64).
(** The continuation, its stack, the text and the bound on free
    elements. *)
Variables (cc s lin : loc) (blk : list (fld Z)) (sbuf : cptr) (term : Z)
  (post : list (fld Z)) (N : nat) (B : Z).
Hypothesis (HB : B < int_max).

(** The text from offset [i] of the block is [rest]; then comes [term]. *)
Definition at_pos (i : Z) (rest : list Z) : Prop :=
  0 <= i /\ drop (Z.to_nat i) blk = (Det <$> rest) ++ Det term :: post.

Lemma at_pos_next i c rest : at_pos i (c :: rest) -> at_pos (i + 1) rest.
Proof.
  intros [Hi Hd]. split; [lia|]. rewrite Z2Nat.inj_add; [|lia..].
  by rewrite -drop_drop Hd.
Qed.

Lemma at_pos_get i c rest : at_pos i (c :: rest) -> blk_get blk i = Some (Det c).
Proof.
  intros [Hi Hd]. unfold blk_get. rewrite (proj2 (Z.leb_le _ _) Hi).
  rewrite -(Nat.add_0_r (Z.to_nat i)) -lookup_drop Hd. done.
Qed.

Lemma at_pos_end i : at_pos i [] -> blk_get blk i = Some (Det term).
Proof.
  intros [Hi Hd]. unfold blk_get. rewrite (proj2 (Z.leb_le _ _) Hi).
  rewrite -(Nat.add_0_r (Z.to_nat i)) -lookup_drop Hd. done.
Qed.

Definition env (a : astate) (rest : list Z) : hprop :=
  (mem_ok ∗ (∃ m, pool_ok N m ∗ ⌈budget B a rest m⌉) ∗ g_val_start_size ↦ ss ∗
   g_val_grow_size ↦ gs ∗ lin ↦ blk)%I.

Definition cc_free : hprop :=
  ((∃ c, cc ↦ c ∗ ⌈pc_sbuffer c = sbuf⌉) ∗ errno_own)%I.

(** The local variables stand for the machine [a] at offset [i]. *)
Definition parser_at (a : astate) (i : Z) (p : parser) : hprop :=
  (∃ v vc u al el sx be br bd,
     ⌈p = mk_parser (Some (lin, i)) (code (a_state a)) v vc u al (a_esc a) (a_squoted a)
            (Z.of_nat (length (a_stack a))) (a_qdepth a) el sx be br bd /\
      (a_stack a = [] -> el = 0)⌉ ∗
     blob_at (a_state a) be br bd ∗ buf_at ss gs v vc u al (a_buf a) ∗ stack_of s (a_stack a) ∗
     watch_at w (open_tokens a))%I.

(** What follows an iteration. *)
Definition after (r : astep_result) (Φ : ptr + parser -> hprop) : hprop :=
  match r with
  | AGo a rest =>
      ∀ i p, ⌈at_pos i rest /\ a_wf a⌉ -∗ parser_at a i p -∗ env a rest -∗ cc_free -∗
        Φ (inr p)
  | AReturn err t a rest =>
      ∀ i last, ⌈at_pos i rest /\ a_wf a⌉ -∗
        cont_with (watch_ptr w) ss gs cc a err last (Some (lin, i)) sbuf -∗ tree_opt t last -∗
        watch_at w (result_tokens t) -∗ env a rest -∗ g_sexp_errno ↦ err -∗ Φ (inl (Some cc))
  | AStuck => False
  end%I.

(** An iteration of the code is a step of the machine. *)
Definition simulates (a : astate) (c : Z) (rest : list Z) (r : astep_result)
    (m : parser -> step) : Prop :=
  r <> AStuck -> stops (a_state a) c = false -> a_wf a ->
  forall i p Φ, at_pos i (c :: rest) ->
  parser_at a i p -∗ env a (c :: rest) -∗ cc_free -∗ after r Φ -∗ wp (m p) Φ.

Lemma wp_cur_char i c rest a rest' Φ :
  at_pos i (c :: rest) ->
  env a rest' -∗ (env a rest' -∗ Φ c) -∗ wp (load_char (Some (lin, i))) Φ.
Proof.
  iIntros (Hp) "(Hm & Hp & Hs & Hg & Hb) HΦ".
  iApply (wp_load_char with "Hb"); [by eapply at_pos_get|].
  iIntros "Hb". iApply "HΦ". iFrame.
Qed.

Lemma after_go a i rest a0 rest0 v vc u al el sx Φ :
  at_pos i rest -> a_wf a -> (forall m, budget B a0 rest0 m -> budget B a rest m) ->
  (a_stack a = [] -> el = 0) -> has_data (a_state a) = false ->
  after (AGo a rest) Φ -∗ buf_at ss gs v vc u al (a_buf a) -∗ stack_of s (a_stack a) -∗
  watch_at w (open_tokens a) -∗ env a0 rest0 -∗ cc_free -∗
  Φ (inr (mk_parser (Some (lin, i)) (code (a_state a)) v vc u al (a_esc a) (a_squoted a)
            (Z.of_nat (length (a_stack a))) (a_qdepth a) el sx 0 0 None)).
Proof.
  iIntros (Hp Hwf Hb Hel Hk) "HΦ Hbuf Hst Hw (Hm & (%m & Hpool & %Hm) & Hs & Hg & Hb) Hcc".
  iApply ("HΦ" with "[] [Hbuf Hst Hw] [-Hcc] Hcc"); [done| |].
  - iExists v, vc, u, al, el, sx, 0, 0, None. iFrame. iSplit; [done|]. by iApply no_blob.
  - iFrame. iPureIntro. by apply Hb.
Qed.

(** [vcur = val] is the start of an empty buffer. *)
Lemma buf_at_vcur v vc u al :
  buf_at ss gs v vc u al [] ⊢ ⌜vc = cursor v 0⌝.
Proof. iIntros "(%lv & %vrest & _ & %Hb)". by destruct Hb as (-> & -> & _). Qed.
End simulation.

Ltac sim_start :=
  cbv zeta; intros Hns Hc Hwf i p Φ Hpos;
  iIntros "(%v & %vc & %u & %al & %el & %sx & %be & %br & %bd & %Hp & Hblob & Hbuf & Hst & Hw) Henv Hcc HΦ";
  match goal with H : (_ = _) /\ (_ -> _) |- _ => destruct H as [-> Hel] end;
  cbn [a_state a_buf a_esc a_squoted a_qdepth a_stack a_inline code] in *;
  try (apply stops_nonzero in Hc; [|done]; iDestruct "Hblob" as %(-> & -> & ->)).

(** The pure side conditions of [after_go]. *)
Ltac sim_pure :=
  try done; try (by eapply at_pos_next);
  try (unfold budget, a_store, a_replace_last; afields; intros; rewrite ?length_app;
       cbn [length height_of] in *; repeat case_decide; try done; lia).

(** Reading [t[0]]. *)
Ltac sim_char :=
  wp_bind_head; iApply (wp_cur_char with "Henv"); [done|]; iIntros "Henv".
Ltac sim_go := iApply (after_go with "HΦ Hbuf Hst Hw Henv Hcc"); sim_pure.

Section states.
Context {api : MemApi} {laws : MemLaws api} {pool : PoolApi} {plaws : PoolLaws api pool}.
Variables (w : watch) (ss gs : Z).
Hypotheses (Hss : 0 < ss) (Hgs : 0 < gs) (Hsz : ss + 2 * gs + 2 ^ 31 < 2 ^ 64).
Variables (cc s lin : loc) (blk : list (fld Z)) (sbuf : cptr) (term : Z)
  (post : list (fld Z)) (N : nat) (B : Z).
Hypothesis (HB : B < int_max).
#[local] Abbreviation simulates :=
  (simulates w ss gs cc s lin blk sbuf term post N B).
#[local] Abbreviation env := (env ss gs lin blk N B).

(** Storing a character in the buffer. *)
Lemma wp_put_char_env oom c t st v vc u al esc sq d q el sx be br bd buf a rest Φ :
  (length buf <= length (a_buf a) + length rest)%nat ->
  buf_at ss gs v vc u al buf -∗ env a rest -∗
  (∀ v' vc' u' al', buf_at ss gs v' vc' u' al' (buf ++ [c]) -∗ env a rest -∗
     Φ (inr (mk_parser t st v' vc' u' al' esc sq d q el sx be br bd))) -∗
  wp (put_char (gget g_val_grow_size) oom c
        (mk_parser t st v vc u al esc sq d q el sx be br bd)) Φ.
Proof.
  iIntros (Hr) "Hbuf (Hm & (%m & Hpool & %Hb) & Hs & Hg & Hl) HΦ".
  destruct Hb as [Hb1 Hb2].
  iApply (wp_put_char ss gs with "Hbuf Hm Hg"); [done..|unfold int_max in *; lia|lia|].
  iIntros (v' vc' u' al') "Hbuf Hm Hg". iApply ("HΦ" with "Hbuf"). by iFrame.
Qed.

Lemma wp_put_atom_char oom c t st v vc u al esc sq d q el sx be br bd buf a rest Φ :
  (length buf <= length (a_buf a) + length rest)%nat ->
  buf_at ss gs v vc u al buf -∗ env a rest -∗
  (∀ v' vc' u' al', buf_at ss gs v' vc' u' al' (buf ++ [c]) -∗ env a rest -∗
     Φ (inr (mk_parser t st v' vc' u' al' (esc_after c) sq d q el sx be br bd))) -∗
  wp (put_atom_char (gget g_val_grow_size) oom c
        (mk_parser t st v vc u al esc sq d q el sx be br bd)) Φ.
Proof. apply wp_put_char_env. Qed.

Lemma sim_state1 buf esc sq qd stk il c rest :
  let a := mk_astate Between buf esc sq qd stk il in
  simulates a c rest (astate1 a c rest) (cstate1 (Some cc) (mode_of il) (Some s) (watch_ptr w)).
Proof.
  sim_start. destruct Hwf as [_ Hnil]. simpl in Hnil. subst buf.
  unfold cstate1, state1. pfields. sim_char.
  iDestruct (buf_at_vcur with "Hbuf") as %->. unfold astate1. afields.
  destruct (is_blank c); [iApply wp_ret; pfields; sim_go|].
  destruct (c =? c_semi); [iApply wp_ret; pfields; sim_go|].
  destruct (c =? c_lparen).
  { wp_bind_head. iApply (wp_watch_simple _ eh_start_sexpr EvStart TStart with "Hw"); [done..|].
    iIntros "Hw". iApply wp_ret. unfold next_char. pfields. rewrite open_tokens_open. sim_go. }
  destruct (c =? c_rparen); [iApply wp_ret; pfields; sim_go|].
  destruct (c =? c_dquote); [iApply wp_ret; pfields; sim_go|].
  destruct (c =? c_squote); [iApply wp_ret; pfields; sim_go|].
  iApply wp_early. iApply (wp_put_atom_char with "Hbuf Henv"); [simpl; lia|].
  iIntros (v' vc' u' al') "Hbuf Henv". iApply wp_ret.
  replace (bool_decide (mode_of il = PARSER_INLINE_BINARY)) with il by by destruct il.
  destruct ((c =? c_hash) && il); pfields; sim_go; (split; [by apply Forall_singleton|done]).
Qed.

Lemma sim_state6 buf esc sq qd stk il c rest :
  let a := mk_astate AfterString buf esc sq qd stk il in
  simulates a c rest (AGo (a <| a_state := Between |>) (c :: rest)) cstate6.
Proof.
  sim_start. destruct Hwf as [_ Hnil]. simpl in Hnil. subst buf.
  unfold cstate6, state6. pfields. iDestruct (buf_at_vcur with "Hbuf") as %->.
  iApply wp_ret. afields. sim_go.
Qed.

Lemma sim_state7 buf esc sq qd stk il c rest :
  let a := mk_astate Quote buf esc sq qd stk il in
  simulates a c rest (astate7 a c rest) (cstate7 (Some cc) (mode_of il) (Some s) (watch_ptr w)).
Proof.
  sim_start. destruct Hwf as [_ Hnil]. simpl in Hnil. subst buf.
  unfold cstate7, state7. sim_char. pfields.
  iDestruct (buf_at_vcur with "Hbuf") as %->. unfold astate7. afields.
  destruct (c =? c_dquote); [|destruct (c =? c_lparen)].
  - iApply wp_early. unfold next_char. pfields.
    iApply (wp_put_char_env with "Hbuf Henv"); [simpl; lia|].
    iIntros (v' vc' u' al') "Hbuf Henv". iApply wp_ret. pfields.
    sim_go. split; [by apply Forall_singleton|done].
  - iApply wp_ret. pfields. sim_go.
  - iApply wp_ret. pfields. sim_go.
Qed.

Lemma sim_state10 buf esc sq qd stk il c rest :
  let a := mk_astate InQuotedString buf esc sq qd stk il in
  simulates a c rest (astate10 a c rest) (cstate10 (Some cc) (mode_of il) (Some s) (watch_ptr w)).
Proof.
  sim_start. unfold cstate10, state10. pfields. sim_char. unfold astate10. afields.
  set (k := if (c =? c_dquote) && (esc =? 0) then InQuoted else InQuotedString).
  iApply wp_early.
  replace (if (c =? c_dquote) && (esc =? 0) then _ else _) with
    (mk_parser (Some (lin, i)) (code k) v vc u al esc sq (Z.of_nat (length stk)) qd el sx 0 0
       None); [|subst k; by case_match].
  iApply (wp_put_atom_char with "Hbuf Henv"); [simpl; lia|].
  iIntros (v' vc' u' al') "Hbuf Henv". iApply wp_ret. unfold next_char. pfields.
  replace (if (c =? c_dquote) && (esc =? 0) then _ else _) with (mk_astate k buf esc sq qd stk il);
    [|subst k; by case_match].
  destruct Hwf as [Hch _].
  assert (has_data k = false) as Hk by (subst k; by case_match).
  assert (open_tokens (mk_astate InQuotedString buf esc sq qd stk il) =
    open_tokens (a_store c (mk_astate k buf esc sq qd stk il))) as ->.
  { unfold a_store. afields. subst k. by destruct (_ && _). }
  sim_go. split.
  - apply Forall_app. split; [done|by apply Forall_singleton].
  - unfold a_store. afields. subst k. by destruct (_ && _).
Qed.

Lemma sim_state11 buf esc sq qd stk il c rest :
  let a := mk_astate InComment buf esc sq qd stk il in
  simulates a c rest (AGo (if c =? c_lf then a <| a_state := Between |> else a) rest) cstate11.
Proof.
  sim_start. unfold cstate11, state11. pfields. sim_char. unfold next_char.
  destruct (c =? c_lf); iApply wp_ret; pfields; afields; sim_go.
Qed.

(** [SAVE_CONT_STATE] and [return cc]. *)
Lemma wp_save_return err a rest t ls i v vc u al el sx Φ :
  at_pos blk term post i rest -> a_wf a -> has_data (a_state a) = false ->
  after w ss gs cc s lin blk sbuf term post N B (AReturn err t a rest) Φ -∗
  buf_at ss gs v vc u al (a_buf a) -∗ stack_of s (a_stack a) -∗
  watch_at w (result_tokens t) -∗ env a rest -∗
  cc_free cc sbuf -∗ tree_opt t ls -∗
  wp (save_return (Some cc) (mode_of (a_inline a)) (Some s) (watch_ptr w) err ls
        (mk_parser (Some (lin, i)) (code (a_state a)) v vc u al (a_esc a) (a_squoted a)
           (Z.of_nat (length (a_stack a))) (a_qdepth a) el sx 0 0 None)) Φ.
Proof.
  iIntros (Hp Hwf Hd) "HΦ Hbuf Hst Hw Henv [(%k & Hk & %Hk) He] Ht".
  unfold save_return, save_cont_state. wp_bind_head.
  iApply (wp_modify with "Hk"). iIntros "Hk". wp_bind_head.
  iApply (wp_set_errno with "He"). iIntros "He". iApply wp_ret. pfields. rewrite Hk.
  iApply ("HΦ" with "[] [-Henv He Ht Hw] Ht Hw Henv He"); [done|].
  iExists s, v, vc, u, al, 0, 0, None. iFrame. by iApply no_blob.
Qed.

(** The element for an atom, and the buffer for the next one. *)
Lemma wp_new_value md aty sq' t st lv vrest vc u esc sq d q el sx be br bd buf ts a rest Φ :
  aty <> SEXP_BINARY -> Forall (fun c => c <> 0) buf ->
  (0 < u)%nat -> u = length buf \/ u = S (length buf) ->
  Z.of_nat (length buf + S (length vrest)) < 2 ^ 64 ->
  lv ↦ ((Det <$> buf) ++ Det 0 :: vrest) -∗ watch_at w ts -∗ env a rest -∗
  (∀ l v' vc', tree_at (Atom aty buf) l None -∗ buf_at ss gs v' vc' 0 ss [] -∗
     watch_at w (ts ++ tokens (Atom aty buf)) -∗ env a rest -∗
     Φ (inr (mk_parser t st v' vc' 0 ss esc sq' d q (u32 (el + 1)) (Some l) be br bd))) -∗
  wp (new_value (Some cc) md (Some s) (watch_ptr w) aty sq'
        (mk_parser t st (Some lv) vc (Z.of_nat u) (Z.of_nat (length buf + S (length vrest)))
           esc sq d q el sx be br bd)) Φ.
Proof.
  iIntros (Haty Hbuf Hu Hule Hal) "Hv Hw (Hm & (%m & Hpool & %Hb) & Hs & Hg & Hl) HΦ".
  unfold new_value. pfields. wp_bind_head.
  iApply (wp_sexp_t_allocate_ok with "Hpool Hm"). iIntros (l e) "He %Hblank Hpool Hm".
  iDestruct (pool_ok_mono _ N m m with "Hpool") as "Hpool"; [lia..|].
  wp_bind_head. iApply (wp_modify with "He"). iIntros "He". pfields. wp_bind_head.
  iApply (wp_watch_characters with "Hw Hv"); [done|]. iIntros "Hw Hv".
  wp_bind_head. iApply (wp_gget with "Hs"). iIntros "Hs".
  wp_bind_head. iApply (wp_malloc_ok with "Hm"). iIntros (lv') "Hv' Hm".
  iApply wp_ret. pfields.
  iDestruct (buf_at_fresh ss gs with "Hv'") as "Hbuf"; [done..|].
  iApply ("HΦ" with "[He Hv] Hbuf Hw [-]"); [|by iFrame].
  rewrite tree_at_atom. iExists _, lv, _. iFrame. iPureIntro. destruct Hblank as [Hlist _].
  split; try done.
  - by rewrite length_app length_fmap.
  - exists u. rewrite length_app length_fmap. simpl. split_and!; try done; lia.
  - by eexists.
  - by rewrite length_app length_fmap.
Qed.

Lemma env_weaken a rest a' rest' :
  (forall m, budget B a rest m -> budget B a' rest' m) -> env a rest ⊢ env a' rest'.
Proof.
  iIntros (Hb) "(Hm & (%m & Hpool & %Hm) & Hs & Hg & Hl)". iFrame. iPureIntro. by apply Hb.
Qed.

Lemma env_lengths a rest :
  env a rest ⊢ ⌜Z.of_nat (length (a_buf a) + length rest) <= B⌝.
Proof. iIntros "(_ & (%m & _ & %Hm) & _)". iPureIntro. apply Hm. Qed.

Lemma a_wf_snoc b c k esc sq qd stk il :
  Forall (fun c => c <> 0) b -> c <> 0 ->
  match k with InAtom | InString | InQuoted | InQuotedString => True | _ => False end ->
  a_wf (mk_astate k (b ++ [c]) esc sq qd stk il).
Proof.
  intros Hb Hc Hk. split; [|by destruct k].
  apply Forall_app. split; [done|by apply Forall_singleton].
Qed.

Lemma Forall_removelast (b : list Z) :
  Forall (fun c => c <> 0) b -> Forall (fun c => c <> 0) (removelast b).
Proof.
  destruct b as [|x b _] using rev_ind; [done|]. rewrite removelast_last.
  by intros [? _]%Forall_app.
Qed.

Lemma length_removelast (b : list Z) : b <> [] -> S (length (removelast b)) = length b.
Proof.
  destruct b as [|x b _] using rev_ind; [done|]. rewrite removelast_last length_app /=. lia.
Qed.

Lemma sim_state4 buf esc sq qd stk il c rest :
  let a := mk_astate InAtom buf esc sq qd stk il in
  simulates a c rest (astate4 a c rest) (cstate4 (Some cc) (mode_of il) (Some s) (watch_ptr w)).
Proof.
  sim_start. destruct Hwf as [Hch _]. afields_in Hch.
  unfold cstate4. pfields. sim_char. unfold astate4 in *. afields. afields_in Hns.
  destruct ((esc =? 1) && is_escapable c).
  { assert (buf <> []) as Hne by by destruct buf.
    wp_bind_head. iApply (wp_replace_last with "Hbuf"); [done|]. iIntros "Hbuf".
    iApply wp_ret. unfold next_char. pfields.
    pose proof (length_removelast _ Hne).
    replace (match buf with [] => AStuck | _ :: _ => _ end) with
      (AGo (a_replace_last c (mk_astate InAtom buf esc sq qd stk il)) rest) by by destruct buf.
    sim_go. apply a_wf_snoc; [by apply Forall_removelast|done..]. }
  destruct (is_atom_char c) eqn:Hatom; simpl negb.
  { iApply wp_early. iApply (wp_put_atom_char with "Hbuf Henv"); [simpl; lia|].
    iIntros (v' vc' u' al') "Hbuf Henv". iApply wp_ret. unfold next_char. pfields.
    sim_go. by apply a_wf_snoc. }
  cbn [negb]. wp_bind_head. iApply (wp_buf_nul with "Hbuf").
  iIntros (lv vrest) "Hv %Hb". destruct Hb as (-> & -> & -> & Hal).
  iDestruct (env_lengths with "Henv") as %Hlen. afields_in Hlen.
  rewrite u64_small; [|unfold int_max in *; lia].
  replace (Z.of_nat (length buf) + 1) with (Z.of_nat (S (length buf))) by lia.
  iApply wp_early. iApply (wp_new_value with "Hv Hw Henv"); [by destruct (sq =? 0)|done|lia|lia|
    unfold int_max in *; lia|].
  iIntros (l v' vc') "Ht Hbuf Hw Henv". pfields. wp_bind_head.
  unfold a_atom. afields. destruct stk as [|ts stk].
  - iApply (wp_attach_alone with "Hst"). iIntros "Hst". simpl negb. pfields.
    rewrite open_tokens_alone //. iApply (wp_save_return with "HΦ Hbuf Hst Hw [Henv] Hcc [Ht]"); [done|done|done| |].
    + iApply (env_weaken with "Henv"). sim_pure.
    + iExists l. by iFrame.
  - iApply (wp_attach_top with "Hst Ht"). iIntros "Hst". rewrite open_tokens_atom //. simpl negb.
    destruct (is_blank c); [|destruct (c =? c_rparen)]; iApply wp_ret; unfold next_char;
      pfields; sim_go.
Qed.

(** The rest of state 5, at the character [c]. *)
Lemma sim_string_char buf esc sq qd stk il c rest :
  let a := mk_astate InString buf esc sq qd stk il in
  simulates a c rest (a_quoted a c rest)
    (string_char (Some cc) (mode_of il) (Some s) (watch_ptr w)).
Proof.
  sim_start. destruct Hwf as [Hch _]. afields_in Hch.
  unfold string_char. pfields. sim_char. unfold a_quoted in *. afields.
  destruct (Z.eqb_spec c c_dquote) as [->|Hq].
  2:{ iApply wp_early. iApply (wp_put_char_env with "Hbuf Henv"); [simpl; lia|].
      iIntros (v' vc' u' al') "Hbuf Henv". iApply wp_ret. unfold next_char. pfields.
      sim_go. by apply a_wf_snoc. }
  iDestruct (env_lengths with "Henv") as %Hlen. afields_in Hlen. simpl length in Hlen.
  destruct (sq =? 1) eqn:Hsq.
  - iApply wp_early. pfields.
    iApply (wp_put_char_env with "Hbuf Henv"); [simpl; lia|].
    iIntros (v' vc' u' al') "Hbuf Henv". pfields. wp_bind_head.
    iApply (wp_buf_nul with "Hbuf").
    iIntros (lv vrest) "Hv %Hb". destruct Hb as (-> & -> & -> & Hal).
    rewrite Hsq. rewrite u64_small; [|rewrite length_app /=; unfold int_max in *; lia].
    replace (Z.of_nat (length (buf ++ [c_dquote])) + 1) with
      (Z.of_nat (S (length (buf ++ [c_dquote])))) by lia.
    iApply wp_early. iApply (wp_new_value with "Hv Hw Henv");
      [done|apply Forall_app; split; [done|by apply Forall_singleton]|lia|lia|
       rewrite length_app /= in Hal |- *; unfold int_max in *; lia|].
    iIntros (l v2 vc2) "Ht Hbuf Hw Henv". pfields. wp_bind_head.
    unfold a_atom. afields. destruct stk as [|ts stk].
    + iApply (wp_attach_alone with "Hst"). iIntros "Hst". simpl negb. unfold next_char. pfields.
      rewrite open_tokens_alone //. iApply (wp_save_return with "HΦ Hbuf Hst Hw [Henv] Hcc [Ht]"); [by eapply at_pos_next|done|done| |].
      * iApply (env_weaken with "Henv"). sim_pure.
      * iExists l. by iFrame.
    + iApply (wp_attach_top with "Hst Ht"). iIntros "Hst". rewrite open_tokens_atom //. simpl negb.
      iApply wp_ret; unfold next_char; pfields; sim_go.
  - iApply wp_early. iApply wp_ret. pfields. wp_bind_head.
    iApply (wp_buf_nul with "Hbuf").
    iIntros (lv vrest) "Hv %Hb". destruct Hb as (-> & -> & -> & Hal).
    rewrite Hsq. rewrite u64_small; [|unfold int_max in *; lia].
    replace (Z.of_nat (length buf) + 1) with (Z.of_nat (S (length buf))) by lia.
    iApply wp_early. iApply (wp_new_value with "Hv Hw Henv"); 
      [done|done|lia|lia|unfold int_max in *; lia|].
    iIntros (l v' vc') "Ht Hbuf Hw Henv". pfields. wp_bind_head.
    unfold a_atom. afields. destruct stk as [|ts stk].
    + iApply (wp_attach_alone with "Hst"). iIntros "Hst". simpl negb. unfold next_char. pfields.
      rewrite open_tokens_alone //. iApply (wp_save_return with "HΦ Hbuf Hst Hw [Henv] Hcc [Ht]"); [by eapply at_pos_next|done|done| |].
      * iApply (env_weaken with "Henv"). sim_pure.
      * iExists l. by iFrame.
    + iApply (wp_attach_top with "Hst Ht"). iIntros "Hst". rewrite open_tokens_atom //. simpl negb.
      iApply wp_ret; unfold next_char; pfields; sim_go.
Qed.

Lemma sim_state5 buf esc sq qd stk il c rest :
  let a := mk_astate InString buf esc sq qd stk il in
  simulates a c rest (astate5 a c rest) (cstate5 (Some cc) (mode_of il) (Some s) (watch_ptr w)).
Proof.
  sim_start. destruct Hwf as [Hch _]. afields_in Hch.
  unfold cstate5. pfields. sim_char. unfold astate5 in *. afields. afields_in Hns.
  destruct ((esc =? 1) && is_escapable c).
  - assert (buf <> []) as Hne by by destruct buf.
    destruct rest as [|c' rest]; [by destruct buf|].
    wp_bind_head. iApply (wp_replace_last with "Hbuf"); [done|]. iIntros "Hbuf".
    wp_ret. unfold next_char. pfields. pose proof (length_removelast _ Hne).
    destruct (Z.eqb_spec c' 0) as [->|Hc']; [by destruct buf|].
    replace (match buf with [] => AStuck | _ :: _ => _ end) with
      (a_quoted (a_replace_last c (mk_astate InString buf esc sq qd stk il)) c' rest) in Hns |- *
      by by destruct buf.
    iApply (sim_string_char with "[Hbuf Hst Hw] [Henv] Hcc HΦ"); [done|by apply stops_char|..].
    + apply a_wf_snoc; [by apply Forall_removelast|done..].
    + by eapply at_pos_next.
    + iExists v, vc, u, al, el, sx, 0, 0, None. iFrame. by iPureIntro.
    + iApply (env_weaken with "Henv"). sim_pure.
  - wp_ret. iApply (sim_string_char with "[Hbuf Hst Hw] Henv Hcc HΦ");
      [done|by apply stops_char|done..|].
    iExists v, vc, u, al, el, sx, 0, 0, None. iFrame. by iPureIntro.
Qed.

(** State 9, into which state 8 falls: the text of a quoted list. *)
Lemma sim_state9 b esc sq qd stk il rest i v vc u al el sx Φ :
  let a := mk_astate InQuoted b esc sq qd stk il in
  at_pos blk term post i rest -> Forall (fun c => c <> 0) b -> b <> [] ->
  (stk = [] -> el = 0) ->
  buf_at ss gs v vc u al b -∗ stack_of s stk -∗ watch_at w (open_tokens a) -∗ env a rest -∗
  cc_free cc sbuf -∗
  after w ss gs cc s lin blk sbuf term post N B
    (if qd =? 0 then
       a_atom (Atom SEXP_SQUOTE b) a rest (fun a => AGo (a <| a_state := Between |>) rest)
     else AGo a rest) Φ -∗
  wp (cstate9 (Some cc) (mode_of il) (Some s) (watch_ptr w)
        (mk_parser (Some (lin, i)) 9 v vc u al esc sq (Z.of_nat (length stk)) qd el sx 0 0
           None)) Φ.
Proof.
  cbv zeta. iIntros (Hpos Hch Hne Hel) "Hbuf Hst Hw Henv Hcc HΦ". unfold cstate9. pfields.
  destruct (qd =? 0) eqn:Hqd; [|iApply wp_ret; pfields; sim_go].
  wp_bind_head. iApply (wp_buf_nul with "Hbuf").
  iIntros (lv vrest) "Hv %Hb". destruct Hb as (-> & -> & -> & Hal).
  assert (0 < length b)%nat by (destruct b; [done|simpl; lia]).
  iDestruct (env_lengths with "Henv") as %Hlen. afields_in Hlen.
  iApply wp_early. iApply (wp_new_value with "Hv Hw Henv");
    [done|done|done|lia|unfold int_max in *; lia|].
  iIntros (l v' vc') "Ht Hbuf Hw Henv". pfields. wp_bind_head.
  unfold a_atom. afields. destruct stk as [|ts stk].
  - iApply (wp_attach_alone with "Hst"). iIntros "Hst". simpl negb. pfields.
    rewrite open_tokens_alone //. iApply (wp_save_return with "HΦ Hbuf Hst Hw [Henv] Hcc [Ht]"); [done|done|done| |].
    + iApply (env_weaken with "Henv"). sim_pure.
    + iExists l. by iFrame.
  - iApply (wp_attach_top with "Hst Ht"). iIntros "Hst". rewrite open_tokens_atom //. simpl negb.
    iApply wp_ret; pfields; sim_go.
Qed.

Lemma sim_state8 buf esc sq qd stk il c rest :
  let a := mk_astate InQuoted buf esc sq qd stk il in
  simulates a c rest (astate8 a c rest) (cstate8 (Some cc) (mode_of il) (Some s) (watch_ptr w)).
Proof.
  sim_start. destruct Hwf as [Hch _]. afields_in Hch. clear Hns.
  unfold cstate8, state8. pfields. sim_char. unfold astate8 in *. afields.
  iApply wp_early. unfold quoted_char, a_quoted_char in *. afields. pfields.
  assert (forall k q e, match k with InQuoted | InQuotedString => True | _ => False end ->
    a_wf (mk_astate k (buf ++ [c]) e sq q stk il)) as Hwf.
  { intros k q e Hk. apply a_wf_snoc; [done..|by destruct k]. }
  destruct (esc =? 0); [destruct (c =? c_lparen) eqn:Hl; [|destruct (c =? c_rparen) eqn:Hr;
    [|destruct (c =? c_dquote)]]|].
  2:{ iApply (wp_put_atom_char with "Hbuf Henv"); [simpl; lia|].
      iIntros (v' vc' u' al') "Hbuf Henv". unfold next_char. pfields. unfold a_store. afields.
      iApply (sim_state9 with "Hbuf Hst Hw [Henv] Hcc HΦ"); [by eapply at_pos_next| |by destruct buf|done|].
      - apply Forall_app. split; [done|by apply Forall_singleton].
      - iApply (env_weaken with "Henv"). sim_pure. }
  all: iApply (wp_put_atom_char with "Hbuf Henv"); [simpl; lia|];
      iIntros (v' vc' u' al') "Hbuf Henv"; unfold next_char; iApply wp_ret; pfields;
      unfold a_store; afields; sim_go.
  all: by apply Hwf.
Qed.

Lemma wp_height_get s' xs Φ :
  clear_stack s' xs -∗ (clear_stack s' xs -∗ Φ (Z.of_nat (length xs))) -∗
  wp (height_get (Some s')) Φ.
Proof.
  iIntros "(%ls & %ds & (Hs & Hl & %Hn) & %Hds) HΦ". unfold height_get. wp_bind_head.
  iApply (wp_load with "Hs"). iIntros "Hs". iApply wp_ret. iApply "HΦ".
  iExists ls, ds. unfold stack_at. by iFrame.
Qed.

(** The record of a new list is pushed: the innermost list is empty. *)
Lemma wp_open_level md (p : parser) pds st n m Φ :
  Z.of_nat (length pds) < int_max ->
  clear_stack s pds -∗ open_levels st pds -∗ pool_ok n m -∗ mem_ok -∗
  (stack_of s ([] :: st) -∗ pool_ok n (pred m) -∗ mem_ok -∗
     Φ (inr (p <| p_state := 1 |>))) -∗
  wp (data ← pd_allocate;
      match data with
      | None => oom (Some cc) md (Some s) (watch_ptr w) p
      | Some _ =>
          modify data (fun d => d <| pd_fst := Det None |> <| pd_lst := Det None |>);;
          push (Some s) data;;
          mret (inr (p <| p_state := 1 |>))
      end) Φ.
Proof.
  iIntros (Hlen) "Hs Ho Hpool Hm HΦ". wp_bind_head.
  iApply (wp_pd_allocate_ok with "Hpool Hm"). iIntros (d [f l]) "Hd Hpool Hm".
  wp_bind_head. iApply (wp_modify with "Hd"). iIntros "Hd". fields. wp_bind_head.
  iApply (wp_push_ok with "Hs Hm"); [done|]. iIntros "Hs Hm". iApply wp_ret.
  iApply ("HΦ" with "[-Hpool Hm] Hpool Hm"). iExists _. iFrame "Hs".
  iExists (Some d), pds. iFrame "Ho". iSplit; [done|]. iExists d, None, None.
  iFrame "Hd". iSplit; [done|]. iApply top_forest_nil.
Qed.

(** A new list is the last element of the list around it, if there is
    one, and heads a level of its own if not. *)
Lemma wp_add_list md (p : parser) l e stk pds m Φ :
  Z.of_nat (length stk) + 1 < int_max -> list_elt e None None ->
  clear_stack s pds -∗ levels_at stk pds -∗ l ↦ e -∗ pool_ok N m -∗ mem_ok -∗
  (∀ pds m', ⌈length pds = S (length stk) /\ (m' <= m)%nat⌉ -∗ clear_stack s pds -∗
     open_levels stk pds -∗ pool_ok N m' -∗ mem_ok -∗ Φ (inr p)) -∗
  wp (if Z.of_nat (length pds) <? 1 then
        data ← pd_allocate;
        match data with
        | None => sexp_t_deallocate (Some l);; oom (Some cc) md (Some s) (watch_ptr w) p
        | Some _ =>
            modify data (fun d => d <| pd_fst := Det (Some l) |> <| pd_lst := Det (Some l) |>);;
            push (Some s) data;;
            mret (inr p)
        end
      else
        data ← top_data (Some s);
        d ← load (A := parse_data_t) data;
        lst ← det (pd_lst d);
        (match lst with
         | Some _ => modify lst (fun s => s <| elt_next := Some l |>)
         | None => modify data (fun d => d <| pd_fst := Det (Some l) |>)
         end);;
        modify data (fun d => d <| pd_lst := Det (Some l) |>);;
        mret (inr p)) Φ.
Proof.
  iIntros (Hlen He) "Hs Hlv Hl Hpool Hm HΦ". destruct stk as [|ts stk].
  - iDestruct "Hlv" as %->. simpl. wp_bind_head.
    iApply (wp_pd_allocate_ok with "Hpool Hm"). iIntros (d [f t]) "Hd Hpool Hm".
    wp_bind_head. iApply (wp_modify with "Hd"). iIntros "Hd". fields. wp_bind_head.
    iApply (wp_push_ok with "Hs Hm"); [simpl; lia|]. iIntros "Hs Hm". iApply wp_ret.
    iApply ("HΦ" with "[] Hs [-Hpool Hm] Hpool Hm"); [iPureIntro; simpl; lia|].
    unfold open_levels. simpl. iSplitL; [|done]. iExists d, _, _. iFrame "Hd".
    iSplit; [done|]. iExists l, e. by iFrame.
  - iDestruct "Hlv" as (pd pds') "(-> & (%d & %fst & %lst & -> & Hd & Hf) & Ho)".
    unfold open_levels at 1. iDestruct (big_sepL2_length with "Ho") as %Hl.
    rewrite length_app /= in Hl.
    destruct (Z.ltb_spec (Z.of_nat (length (Some d :: pds'))) 1); [simpl in *; lia|].
    wp_bind_head. iApply (wp_top_data with "Hs"). iIntros "Hs".
    wp_bind_head. iApply (wp_load with "Hd"). iIntros "Hd". fields. wp_det.
    iDestruct (top_forest_append with "Hf") as "Hf".
    iAssert (∀ fst, d ↦ mk_pd (Det fst) (Det (Some l)) -∗ seg ts fst (Some l) -∗ l ↦ e -∗
      clear_stack s (Some d :: pds') -∗ Φ (inr p))%I with "[HΦ Ho Hpool Hm]" as "HΦ".
    { iIntros (fst') "Hd Hts Hl Hs".
      iApply ("HΦ" with "[] Hs [-Hpool Hm] Hpool Hm"); [iPureIntro; simpl; lia|].
      unfold open_levels. simpl. iFrame "Ho". iExists d, _, _. iFrame "Hd".
      iSplit; [done|]. iExists l, e. by iFrame. }
    destruct lst as [l0|].
    + iDestruct "Hf" as (e0) "[Hl0 Hf]". wp_bind_head. iApply (wp_modify with "Hl0").
      iIntros "Hl0". wp_bind_head. iApply (wp_modify with "Hd"). iIntros "Hd". fields.
      iApply wp_ret. iApply ("HΦ" with "Hd [-Hl Hs] Hl Hs"). by iApply "Hf".
    + iDestruct "Hf" as %[-> ->]. wp_bind_head. iApply (wp_modify with "Hd").
      iIntros "Hd". fields. wp_bind_head. iApply (wp_modify with "Hd"). iIntros "Hd". fields.
      iApply wp_ret. iApply ("HΦ" with "Hd [] Hl Hs"). done.
Qed.

Lemma sim_state2 buf esc sq qd stk il c rest :
  let a := mk_astate Open buf esc sq qd stk il in
  simulates a c rest (AGo (a <| a_state := Between |> <| a_stack := [] :: stk |>) (c :: rest))
    (cstate2 (Some cc) (mode_of il) (Some s) (watch_ptr w)).
Proof.
  sim_start. destruct Hwf as [_ Hnil]. simpl in Hnil. subst buf.
  iDestruct "Henv" as "(Hm & (%m & Hpool & %Hb) & Hss & Hg & Hl)".
  destruct Hb as [Hb1 Hb2]. afields_in Hb1. simpl length in *.
  unfold int_max in *.
  assert (Z.of_nat (length stk) + 2 < 2 ^ 31 - 1) by (destruct stk; simpl in *; lia).
  unfold cstate2. pfields. wp_bind_head.
  iApply (wp_sexp_t_allocate_ok with "Hpool Hm"). iIntros (l e) "He _ Hpool Hm".
  iDestruct (pool_ok_mono _ N m m with "Hpool") as "Hpool"; [lia..|].
  wp_bind_head. iApply (wp_modify with "He"). iIntros "He". pfields.
  rewrite (u32_small (Z.of_nat (length stk) + 1)); [|lia].
  replace (Z.of_nat (length stk) + 1) with (Z.of_nat (S (length stk))) by lia.
  iDestruct "Hst" as (pds0) "[Hs Hlv]". wp_bind_head.
  iApply (wp_height_get with "Hs"). iIntros "Hs".
  iApply wp_early. iApply (wp_add_list with "Hs Hlv He Hpool Hm");
    [unfold int_max; lia|by destruct e|].
  iIntros (pds m') "%Hm' Hs Ho Hpool Hm". destruct Hm' as [Hpds Hm'].
  iApply (wp_open_level with "Hs Ho Hpool Hm"); [unfold int_max; lia|].
  iIntros "Hst Hpool Hm". pfields.
  rewrite open_tokens_raise.
  iApply ("HΦ" with "[] [Hbuf Hst Hw] [-Hcc] Hcc"); [done| |].
  - iExists v, vc, u, al, (u32 (el + 1)), (Some l), 0, 0, None. iFrame. done.
  - iFrame. iPureIntro. split; afields; [|done]. unfold int_max. simpl length.
    destruct stk; simpl in *; lia.
Qed.
End states.
