(* ===== verification/InlineStates.v ===== *)
(** The states of [cparse_sexp] for inline binary data, 12 to 15, are steps
    of the machine: the size is read into the atom buffer, the data into a
    block of its own that becomes the element's. *)
From S2P Require Import Prelude SexpTypes CMem SepLogic SexpMemory FastStack CLib ElementPool.
From S2P Require Import Trees Sexp Print ParserStates EventParser Parser Machine Events Simulation.

(** What a size string makes of [atoi]. *)
Lemma size_value_atoi s n :
  size_value s = Some n -> exists v, atoi_value s = v /\ 0 < v <= int_max /\ v = Z.of_nat n.
Proof.
  unfold size_value. destruct (Z.ltb_spec 0 (atoi_value s)); [|done].
  destruct (Z.leb_spec (atoi_value s) int_max); [|done]. intros [= <-].
  exists (atoi_value s). split_and!; try done. by rewrite Z2Nat.id; [|lia].
Qed.

Lemma wp_atoi s v Φ : atoi_value s = v -> 0 < v <= int_max -> Φ v -∗ wp (atoi s) Φ.
Proof.
  iIntros (<- Hv) "HΦ". unfold atoi, int_max in *.
  destruct (Z.leb_spec (- (2 ^ 31 - 1) - 1) (atoi_value s)); [|lia].
  destruct (Z.leb_spec (atoi_value s) (2 ^ 31 - 1)); [|lia]. by iApply wp_ret.
Qed.

Section states.
Context {api : MemApi} {laws : MemLaws api} {pool : PoolApi} {plaws : PoolLaws api pool}.
Variables (w : watch) (ss gs : Z).
Hypotheses (Hss : 0 < ss) (Hgs : 0 < gs) (Hsz : ss + 2 * gs + 2 ^ 31 < 2 ^ 64).
Variables (cc s lin : loc) (blk : list (fld Z)) (sbuf : cptr) (term : Z)
  (post : list (fld Z)) (N : nat) (B : Z).
Hypothesis (HB : B < int_max).
#[local] Abbreviation simulates := (simulates w ss gs cc s lin blk sbuf term post N B).
#[local] Abbreviation env := (env ss gs lin blk N B).
#[local] Abbreviation after := (after w ss gs cc s lin blk sbuf term post N B).

Lemma sim_state12 buf esc sq qd stk il c rest :
  let a := mk_astate BinHash buf esc sq qd stk il in
  simulates a c rest (astate12 a c rest) (cstate12 (Some cc) (mode_of il) (Some s) (watch_ptr w)).
Proof.
  sim_start. destruct Hwf as [Hch _]. afields_in Hch.
  unfold cstate12, state12. pfields. sim_char. unfold astate12. destruct (c =? c_b).
  - iApply wp_early. iApply (wp_put_atom_char with "Hbuf Henv"); [done..|simpl; lia|].
    iIntros (v' vc' u' al') "Hbuf Henv". iApply wp_ret. unfold next_char. pfields. sim_go.
    split; [|done]. apply Forall_app. split; [done|by apply Forall_singleton].
  - iApply wp_ret. pfields. sim_go.
Qed.

Lemma sim_state13 buf esc sq qd stk il c rest :
  let a := mk_astate BinTag buf esc sq qd stk il in
  simulates a c rest (astate13 a c rest) (cstate13 (Some cc) (mode_of il) (Some s) (watch_ptr w)).
Proof.
  sim_start. destruct Hwf as [Hch _]. afields_in Hch.
  unfold cstate13, state13. pfields. sim_char. unfold astate13. destruct (c =? c_hash).
  - iApply wp_early. iApply (wp_put_atom_char with "Hbuf Henv"); [done..|simpl; lia|].
    iIntros (v' vc' u' al') "Hbuf Henv". iApply wp_ret. unfold next_char. pfields.
    iDestruct (buf_at_reset with "Hbuf") as "Hbuf". unfold a_store. afields. sim_go.
  - iApply wp_ret. pfields. sim_go.
Qed.

(** The size string is complete. *)
Lemma wp_size_string {A} (k : list Z -> M A) v vc u al buf Φ :
  Forall (fun c => c <> 0) buf ->
  buf_at ss gs v vc u al buf -∗ (buf_at ss gs v vc u al buf -∗ wp (k buf) Φ) -∗
  wp (store_char vc c_nul;; size ← load_string (cursor v 0); k size) Φ.
Proof.
  iIntros (Hch) "(%lv & %vrest & Hv & %Hb) HΦ". destruct Hb as (-> & -> & -> & -> & Hroom & Hal).
  destruct vrest as [|x vrest]; simpl in Hroom; [lia|]. wp_bind_head.
  iApply (wp_store_char with "Hv"); [apply blk_set_app; by rewrite length_fmap|]. iIntros "Hv".
  wp_bind_head. iApply (wp_load_string with "Hv"); [done|]. iIntros "Hv". iApply "HΦ".
  iExists lv, (Det 0 :: vrest). iFrame "Hv". by iPureIntro.
Qed.

Lemma sim_state14 buf esc sq qd stk il c rest :
  let a := mk_astate BinSize buf esc sq qd stk il in
  simulates a c rest (astate14 a c rest) (cstate14 (Some cc) (mode_of il) (Some s) (watch_ptr w)).
Proof.
  sim_start. destruct Hwf as [Hch _]. afields_in Hch.
  unfold cstate14, state14. pfields. sim_char. unfold astate14 in *. destruct (c =? c_hash).
  2:{ iApply wp_early. iApply (wp_put_atom_char with "Hbuf Henv"); [done..|simpl; lia|].
      iIntros (v' vc' u' al') "Hbuf Henv". iApply wp_ret. unfold next_char. pfields. sim_go.
      split; [|done]. apply Forall_app. split; [done|by apply Forall_singleton]. }
  afields_in Hns. destruct (size_value buf) as [n|] eqn:Hn; [|done].
  destruct (size_value_atoi _ _ Hn) as (z & Hz & Hzpos & ->).
  afields. rewrite Hn.
  unfold next_char. pfields.
  iApply (wp_size_string with "Hbuf"); [done|]. iIntros "Hbuf".
  wp_bind_head. iApply (wp_atoi _ _ _ Hz Hzpos). pfields.
  unfold int_max in Hzpos. rewrite u64_small; [|lia].
  destruct (Z.ltb_spec 0 (Z.of_nat n)); [|lia].
  iDestruct "Henv" as "[Hm Hrest]". wp_bind_head. iApply (wp_malloc_ok with "Hm").
  iIntros (lb) "Hd Hm". iApply wp_ret. pfields.
  iApply ("HΦ" with "[] [Hbuf Hst Hw Hd] [Hm Hrest] Hcc").
  - iPureIntro. split; [by eapply at_pos_next|]. split; [done|]. simpl. lia.
  - iExists v, vc, u, al, el, sx, _, _, _. iSplit; [done|]. iFrame "Hbuf Hst Hw". iExists lb.
    simpl. rewrite Nat2Z.id. iFrame "Hd". iPureIntro. unfold int_max. split_and!; try done; lia.
  - iAssert (env (mk_astate BinSize buf esc sq qd stk il) (c :: rest)) with "[Hm Hrest]" as "Henv".
    { by iFrame. }
    iApply (env_weaken with "Henv"). sim_pure.
Qed.

(** [bindata], [binlength] and the element's kind. *)
Lemma binary_tree_at d l e lb :
  blank_sexp e ->
  l ↦ (e <| elt_ty := Det SEXP_VALUE |> <| elt_bindata := Det (Some lb) |>
         <| elt_binlength := Det (Z.of_nat (length d)) |> <| elt_next := None |>
         <| elt_aty := Det SEXP_BINARY |>) ∗ lb ↦ (Det <$> d) ⊢ tree_at (Binary d) l None.
Proof.
  intros [Hlist _]. iIntros "[Hl Hb]". rewrite tree_at_binary data_at_exact. iExists _, lb. iFrame.
  iPureIntro. destruct e. by split.
Qed.

Lemma sim_state15 n d buf esc sq qd stk il c rest :
  let a := mk_astate (BinData n d) buf esc sq qd stk il in
  simulates a c rest (astate15 n d a c rest) (cstate15 (Some cc) (mode_of il) (Some s) (watch_ptr w)).
Proof.
  sim_start. destruct Hwf as [Hch Hn]. afields_in Hn. unfold astate15 in *. afields. afields_in Hns.
  iDestruct "Hblob" as (lb) "[Hd %Hb]". destruct Hb as (-> & -> & -> & Hmax).
  unfold int_max in Hmax. destruct n as [|n]; [lia|]. unfold cstate15. pfields.
  destruct (Z.ltb_spec (Z.of_nat (length d)) (Z.of_nat (length d + S n))); [|lia].
  wp_bind_head. wp_bind_head. iApply (wp_cur_char with "Henv"); [done|]. iIntros "Henv".
  wp_bind_head. iApply (wp_store_char with "Hd").
  { simpl replicate. apply blk_set_app. by rewrite length_fmap. }
  iIntros "Hd". wp_ret. unfold next_char. pfields. rewrite u64_small; [|lia].
  replace ((Det <$> d) ++ Det c :: replicate n Indet) with
    ((Det <$> d ++ [c]) ++ replicate n Indet) by by rewrite fmap_app -assoc_L.
  replace (Z.of_nat (length d) + 1) with (Z.of_nat (length (d ++ [c])))
    by (rewrite length_app /=; lia).
  destruct n as [|n].
  - destruct stk as [|ts stk]; [done|].
    rewrite (proj2 (Z.eqb_eq _ _)); [|rewrite length_app /=; lia].
    iDestruct "Henv" as "(Hm & (%m & Hpool & %Hb) & Hrest)". wp_bind_head.
    iApply (wp_sexp_t_allocate_ok with "Hpool Hm"). iIntros (l e) "He %Hblank Hpool Hm".
    iDestruct (pool_ok_mono _ N m m with "Hpool") as "Hpool"; [lia..|]. pfields.
    wp_bind_head. iApply (wp_modify with "He"). iIntros "He".
    wp_bind_head. rewrite app_nil_r. iApply (wp_watch_binary with "Hw Hd"). iIntros "Hw Hd".
    change [TBinary ?b] with (tokens (Binary b)). rewrite open_tokens_atom //. wp_bind_head.
    iApply (wp_attach_top with "Hst [He Hd]"); [iApply binary_tree_at; [done|by iFrame]|].
    iIntros "Hst". iApply wp_ret. pfields. iDestruct (buf_at_reset with "Hbuf") as "Hbuf".
    iAssert (env (mk_astate (BinData 1 d) buf esc sq qd (ts :: stk) il) (c :: rest))
      with "[Hm Hpool Hrest]" as "Henv".
    { iFrame. by iPureIntro. }
    sim_go.
  - rewrite (proj2 (Z.eqb_neq _ _)); [|rewrite length_app /=; lia]. iApply wp_ret. pfields.
    iApply ("HΦ" with "[] [Hbuf Hst Hw Hd] [Henv] Hcc").
    + iPureIntro. split; [by eapply at_pos_next|]. split; [done|]. simpl. lia.
    + iExists v, vc, u, al, el, sx, _, _, _. iSplit; [done|]. iFrame "Hbuf Hst Hw". iExists lb.
      iFrame "Hd". iPureIntro. rewrite length_app /=. unfold int_max. split_and!; try done; lia.
    + iApply (env_weaken with "Henv"). sim_pure.
Qed.
End states.
