(* ===== verification/Refinement.v ===== *)
(** The loop of [cparse_sexp] refines the machine: state 3, the [switch], the
    loop and what follows it. *)
From S2P Require Import Prelude SexpTypes CMem SepLogic SexpMemory FastStack CLib ElementPool.
From S2P Require Import Trees Sexp Print ParserStates EventParser Parser Machine Events Simulation.
From S2P Require Import InlineStates.

Section refinement.
Context {api : MemApi} {laws : MemLaws api} {pool : PoolApi} {plaws : PoolLaws api pool}.
Variables (w : watch) (ss gs : Z).
Hypotheses (Hss : 0 < ss) (Hgs : 0 < gs) (Hsz : ss + 2 * gs + 2 ^ 31 < 2 ^ 64).

Section loop.
Variables (cc s lin : loc) (blk : list (fld Z)) (sbuf : cptr) (term : Z)
  (post : list (fld Z)) (N : nat) (B : Z).
Hypothesis (HB : B < int_max).
#[local] Abbreviation simulates :=
  (simulates w ss gs cc s lin blk sbuf term post N B).
#[local] Abbreviation env := (env ss gs lin blk N B).

(** The last loop of state 3 when only the outermost level is left. *)
Lemma wp_close_all_one sx ts d fst lst n m Φ :
  Z.of_nat m < int_max ->
  clear_stack s [Some d] -∗ d ↦ mk_pd (Det fst) (Det lst) -∗ top_forest ts fst lst -∗
  pool_ok n m -∗ mem_ok -∗
  (stack_of s [] -∗ forest_at ts fst -∗ pool_ok n (S m) -∗ mem_ok -∗ Φ fst) -∗
  wp (close_all (Some s) sx) Φ.
Proof.
  iIntros (Hm) "Hs Hd Hf Hpool Hm HΦ". unfold close_all. wp_bind_head.
  iApply (wp_heap_fuel 1 with "Hd"); [apply cells_points_to|].
  iIntros (fuel) "%Hf Hd". destruct fuel as [|[|fuel]]; [lia..|].
  cbn [while]. unfold close_all_body. wp_bind_head.
  iApply (wp_empty_stack with "Hs"). iIntros "Hs". rewrite bool_decide_eq_false_2 //.
  wp_bind_head. iApply (wp_close_level with "Hs Hd Hpool Hm"); [done|].
  iIntros "Hs Hpool Hm". wp_ret. wp_bind_head.
  iApply (wp_empty_stack with "Hs"). iIntros "Hs". rewrite bool_decide_eq_true_2 //.
  wp_ret. iApply wp_ret. iApply ("HΦ" with "[Hs] [Hf] Hpool Hm").
  - iExists []. by iFrame.
  - by iApply top_forest_at.
Qed.

Lemma sim_state3 buf esc sq qd stk il c rest :
  let a := mk_astate Close buf esc sq qd stk il in
  simulates a c rest (astate3 a c rest) (cstate3 (Some cc) (mode_of il) (Some s) (watch_ptr w)).
Proof.
  sim_start. destruct Hwf as [_ Hnil]. simpl in Hnil. subst buf. clear Hns.
  unfold cstate3. pfields. unfold astate3. afields. destruct stk as [|ts stk].
  { rewrite Z.eqb_refl. pfields.
    rewrite open_tokens_alone //.
    iApply (wp_save_return with "HΦ Hbuf Hst Hw [Henv] Hcc []"); [done|done|done| |done].
    iApply (env_weaken with "Henv"). sim_pure. }
  iDestruct "Henv" as "(Hm & (%m & Hpool & %Hb) & Hss & Hg & Hl)".
  destruct Hb as [Hb1 Hb2]. afields_in Hb1. afields_in Hb2. cbn [length height_of] in Hb1, Hb2.
  unfold int_max in *. cbn [length].
  destruct (Z.eqb_spec (Z.of_nat (S (length stk))) 0); [lia|].
  unfold next_char. pfields. rewrite u32_small; [|lia].
  replace (Z.of_nat (S (length stk)) - 1) with (Z.of_nat (length stk)) by lia.
  iDestruct "Hst" as (pds) "[Hs (%pd & %pds' & -> & (%d & %fst & %lst & -> & Hd & Hf) & Ho)]".
  wp_bind_head. iApply (wp_close_level with "Hs Hd Hpool Hm"); [unfold int_max; lia|].
  iIntros "Hs Hpool Hm". iDestruct (top_forest_at with "Hf") as "Hf". pfields.
  unfold open_levels.
  iAssert (∃ pd pds'' us st', ⌈pds' = pd :: pds'' /\ stk ++ [[]] = us :: st'⌉ ∗
    level open_forest us pd ∗ [∗ list] us;pd ∈ st';pds'', level open_forest us pd)%I
    with "[Ho]" as (pd pds'' us st') "(%Hlv & (%d' & %fst' & %lst' & -> & Hd' & Hf') & Ho)".
  { destruct stk as [|us st'], pds' as [|pd pds'']; simpl; try done.
    - iExists pd, pds'', [], []. by iFrame.
    - iExists pd, pds'', us, (st' ++ [[]]). by iFrame. }
  destruct Hlv as [-> Hst].
  wp_bind_head. iApply (wp_empty_stack with "Hs"). iIntros "Hs".
  rewrite bool_decide_eq_false_2 //. wp_bind_head. iApply (wp_top_data with "Hs").
  iIntros "Hs". wp_bind_head. iApply (wp_load with "Hd'"). iIntros "Hd'". fields. wp_det.
  iDestruct (open_forest_close with "[$Hf' $Hf]") as (l e) "(-> & Hle & Hf)".
  wp_bind_head. iApply (wp_modify with "Hle"). iIntros "Hle".
  iDestruct ("Hf" with "Hle") as "Hf". wp_bind_head.
  iApply (wp_watch_simple _ eh_end_sexpr EvEnd TEnd with "Hw"); [done..|]. iIntros "Hw".
  destruct stk as [|us' stk]; simpl in Hst; simplify_eq.
  - destruct pds''; [|done].
    replace (Z.of_nat (length (@nil (list tree))) =? 0) with true by done. wp_bind_head.
    iApply (wp_close_all_one with "Hs Hd' Hf Hpool Hm"); [unfold int_max; lia|].
    iIntros "Hst Hf Hpool Hm". pfields.
    unfold forest_at. rewrite (seg_single (Node ts)). iDestruct "Hf" as (l') "[-> Ht]".
    rewrite open_tokens_last. iApply (wp_save_return with "HΦ Hbuf Hst Hw [Hpool Hm Hss Hg Hl] Hcc [Ht]");
      [by eapply at_pos_next|done|done| |].
    + iFrame. iPureIntro. split; afields; simpl; unfold int_max; lia.
    + iExists l'. by iFrame.
  - cbn [length]. destruct (Z.eqb_spec (Z.of_nat (S (length stk))) 0); [lia|].
    iApply wp_ret. pfields. rewrite open_tokens_close.
    iApply ("HΦ" with "[] [-Hm Hpool Hss Hg Hl Hcc] [-Hcc] Hcc").
    + iPureIntro. split; [by eapply at_pos_next|done].
    + iExists v, vc, u, al, el, fst, 0, 0, None. iFrame.
      iSplit; [iPureIntro; split; [by pfields|done]|]. iSplit; [done|]. by iExists (Some d').
    + iFrame. iPureIntro. split; afields; cbn [length height_of] in *; unfold int_max;
        repeat case_decide; try done; lia.
Qed.

(** Every iteration. *)
Lemma sim_dispatch a c rest :
  simulates a c rest (astep a c rest) (dispatch (Some cc) (mode_of (a_inline a)) (Some s) (watch_ptr w)).
Proof.
  destruct a as [k buf esc sq qd stk il]. intros Hns Hc Hwf i p Φ Hpos.
  apply astep_next in Hns as Hnx. destruct Hnx as [Hnx _]. rewrite Hnx in Hns |- *. clear Hnx.
  iIntros "Hp". iAssert (⌜p_state p = code k⌝)%I as %Hst.
  { iDestruct "Hp" as (v vc u al el sx be br bd) "(%Hp & _)". by destruct Hp as [-> _]. }
  iRevert "Hp". iStopProof. unfold dispatch. rewrite Hst.
  destruct k; cbn [code]; iIntros "_".
  - by iApply sim_state1.
  - by iApply sim_state2.
  - by iApply sim_state3.
  - by iApply sim_state4.
  - by iApply sim_state5.
  - by iApply sim_state6.
  - by iApply sim_state7.
  - by iApply sim_state8.
  - by iApply sim_state10.
  - by iApply sim_state11.
  - by iApply sim_state12.
  - by iApply sim_state13.
  - by iApply sim_state14.
  - by iApply sim_state15.
Qed.

(** Where the text ends in its block. *)
Definition text_end : Z := Z.of_nat (length blk) - 1 - Z.of_nat (length post).

Lemma at_pos_end_eq i rest :
  at_pos blk term post i rest -> i + Z.of_nat (length rest) = text_end.
Proof.
  intros [Hi Hd]. apply (f_equal length) in Hd. unfold text_end.
  rewrite length_drop length_app length_fmap /= in Hd. lia.
Qed.

(** [bufEnd] is the end of the text, or lies behind a NUL there. *)
Definition end_ok (e : Z) : Prop := e = text_end \/ term = 0 /\ text_end < e.

(** ... but not when the text ends in binary data: there a NUL is a byte. *)
Definition stop_ok (e : Z) (r : arun_result) : Prop :=
  e = text_end \/
  term = 0 /\ text_end < e /\ match r with AStop a => has_data (a_state a) = false | _ => True end.

Lemma plain_stop_ok e a rest : a_inline a = false -> mode_ok a -> end_ok e -> stop_ok e (arun a rest).
Proof.
  intros Hi Hm [->|[Ht He]]; [by left|]. right. split_and!; [done..|].
  pose proof (arun_mode a rest Hm) as Hr. destruct (arun a rest) as [a'|? ? ? ?|]; [|done..].
  destruct Hr as [Hi' Hr]. rewrite /mode_ok Hi' in Hr. specialize (Hr Hi).
  by destruct (a_state a').
Qed.

Definition cur_char (rest : list Z) : Z := match rest with [] => term | c :: _ => c end.

Lemma wp_keep_going a rest a' rest' i p Φ :
  at_pos blk term post i rest ->
  parser_at w ss gs s lin a i p -∗ env a' rest' -∗
  (parser_at w ss gs s lin a i p -∗ env a' rest' -∗
     Φ (has_data (a_state a) || negb (cur_char rest =? 0))) -∗
  wp (keep_going p) Φ.
Proof.
  iIntros (Hp) "(%v & %vc & %u & %al & %el & %sx & %be & %br & %bd & %Heq & Hd & Hb & Hs & Hw) Henv HΦ".
  destruct Heq as [-> Hel]. unfold keep_going. pfields.
  replace (code (a_state a) =? 15) with (has_data (a_state a)) by by destruct (a_state a).
  destruct (has_data (a_state a)).
  { iApply wp_ret. iApply ("HΦ" with "[-Henv] Henv"). iExists v, vc, u, al, el, sx, be, br, bd.
    by iFrame. }
  iDestruct "Henv" as "(Hm & Hpool & Hss & Hg & Hl)".
  wp_bind_head. iApply (wp_load_char with "Hl").
  { instantiate (1 := cur_char rest).
    destruct rest; [by apply (at_pos_end _ _ _ _ Hp)|by apply (at_pos_get _ _ _ _ _ _ Hp)]. }
  iIntros "Hl". iApply wp_ret. iApply ("HΦ" with "[Hd Hb Hs Hw] [-]"); [|by iFrame].
  iExists v, vc, u, al, el, sx, be, br, bd. by iFrame.
Qed.

(** What follows the loop. *)
Definition after_loop (r : arun_result) (Φ : ptr + parser -> hprop) : hprop :=
  match r with
  | AStop a =>
      ∀ i p, ⌈at_pos blk term post i [] /\ a_wf a⌉ -∗ parser_at w ss gs s lin a i p -∗
        env a [] -∗ cc_free cc sbuf -∗ Φ (inr p)
  | ARet err t a rest =>
      ∀ i last, ⌈at_pos blk term post i rest /\ a_wf a⌉ -∗
        cont_with (watch_ptr w) ss gs cc a err last (Some (lin, i)) sbuf -∗ tree_opt t last -∗
        watch_at w (result_tokens t) -∗ env a rest -∗ g_sexp_errno ↦ err -∗ Φ (inl (Some cc))
  | AWrong => False
  end%I.

Lemma wp_loop il a rest fuel keep i p e Φ :
  arun a rest <> AWrong -> a_wf a -> a_inline a = il -> stop_ok e (arun a rest) ->
  (ameasure a rest < fuel)%nat -> keep = has_data (a_state a) || negb (cur_char rest =? 0) ->
  at_pos blk term post i rest ->
  parser_at w ss gs s lin a i p -∗ env a rest -∗ cc_free cc sbuf -∗
  after_loop (arun a rest) Φ -∗
  wp (parse_loop (dispatch (Some cc) (mode_of il) (Some s) (watch_ptr w)) (Some (lin, e)) fuel keep p) Φ.
Proof.
  revert a rest keep i p. induction fuel as [|fuel IH];
    intros a rest keep i p Hr Hwf Hil He Hf Hkeep Hpos; [lia|].
  pose proof (at_pos_end_eq _ _ Hpos) as Hend.
  iIntros "Hp Henv Hcc HΦ". iAssert (⌜p_t p = Some (lin, i)⌝)%I as %Ht.
  { iDestruct "Hp" as (v vc u al el sx be br bd) "(%Hp & _)". by destruct Hp as [-> _]. }
  cbn [parse_loop]. rewrite Ht. destruct rest as [|c rest].
  - rewrite arun_nil in He |- *. simpl in Hend. rewrite Z.add_0_r in Hend. subst i.
    assert (keep && negb (bool_decide (Some (lin, text_end) = Some (lin, e))) = false) as ->.
    { subst keep. simpl. destruct He as [-> | (-> & _ & ->)]; [|done].
      rewrite bool_decide_eq_true_2 //. by rewrite andb_false_r. }
    iApply wp_ret. iApply ("HΦ" with "[] Hp Henv Hcc"). done.
  - assert (i <> e) as Hie by (simpl in Hend; destruct He as [-> | (_ & ? & _)]; lia).
    rewrite arun_cons in Hr He |- *.
    assert (astep a c rest <> AStuck) as Hns by (intros Hst; by rewrite Hst in Hr).
    pose proof (astep_next _ _ _ Hns) as [_ Hc].
    assert (keep && negb (bool_decide (Some (lin, i) = Some (lin, e))) = true) as ->.
    { rewrite bool_decide_eq_false_2; [|congruence]. subst keep. rewrite andb_true_r.
      destruct (has_data (a_state a)) eqn:Hd; [done|]. simpl.
      by rewrite (proj2 (Z.eqb_neq _ _) (stops_nonzero _ _ Hc Hd)). }
    pose proof (astep_shrinks a c rest) as Hsh. pose proof (astep_mode a c rest) as Hmo.
    iApply wp_early. rewrite -Hil.
    iApply (sim_dispatch with "Hp Henv Hcc"); [done..|].
    destruct (astep a c rest) as [a' rest'|err t a' rest'|]; simpl; [| |done].
    + clear i p Hpos Hend Ht Hie. iIntros (i p) "%Hpos Hp Henv Hcc".
      destruct Hpos as [Hpos Hwf']. wp_bind_head.
      iApply (wp_keep_going with "Hp Henv"); [done|]. iIntros "Hp Henv".
      rewrite Hil. destruct Hmo as [Hmo _].
      iApply (IH with "Hp Henv Hcc HΦ"); try done; [congruence|]. simpl in Hsh. lia.
    + iIntros (i' last) "Hpos Hk Ht Hw Henv He". iApply ("HΦ" with "Hpos Hk Ht Hw Henv He").
Qed.

(** The continuation that a call leaves: at the end of the text, or where
    the machine returned. *)
Definition watched (r : arun_result) : hprop :=
  match r with
  | AStop a =>
      ⌈a_wf a⌉ ∗ cont_with (watch_ptr w) ss gs cc a SEXP_ERR_INCOMPLETE None None sbuf ∗
      watch_at w (open_tokens a) ∗ env a [] ∗
      g_sexp_errno ↦ SEXP_ERR_INCOMPLETE
  | ARet err t a rest =>
      ∃ i last, ⌈at_pos blk term post i rest /\ a_wf a⌉ ∗
        cont_with (watch_ptr w) ss gs cc a err last (Some (lin, i)) sbuf ∗ tree_opt t last ∗
        watch_at w (result_tokens t) ∗ env a rest ∗ g_sexp_errno ↦ err
  | AWrong => False
  end%I.

(** After the loop the text is used up inside an expression. *)
Lemma wp_finish a i p e Φ :
  a_wf a -> stop_ok e (AStop a) -> at_pos blk term post i [] ->
  parser_at w ss gs s lin a i p -∗ env a [] -∗ cc_free cc sbuf -∗
  (watched (AStop a) -∗ Φ (Some cc)) -∗
  wp (finish (Some cc) (mode_of (a_inline a)) (Some s) (watch_ptr w) (Some (lin, e)) p) Φ.
Proof.
  iIntros (Hwf He Hpos)
    "(%v & %vc & %u & %al & %el & %sx & %be & %br & %bd & %Hp & Hd & Hb & Hs & Hw) Henv Hcc HΦ".
  destruct Hp as [-> Hel]. unfold finish. pfields.
  assert ((Z.of_nat (length (a_stack a)) =? 0) && (0 <? el) = false) as ->.
  { destruct (a_stack a); [by rewrite Hel|done]. }
  iDestruct "Hcc" as "[(%k & Hk & %Hk) He]". unfold save_cont_state. wp_bind_head.
  iApply (wp_modify with "Hk"). iIntros "Hk". wp_bind_head.
  iApply (wp_set_errno with "He"). iIntros "He".
  iDestruct "Henv" as "(Hm & Hpool & Hss & Hg & Hl)". wp_bind_head.
  iApply (wp_load_char with "Hl"); [by apply (at_pos_end _ _ _ _ Hpos)|]. iIntros "Hl".
  wp_bind_head. iApply (wp_modify with "Hk"). iIntros "Hk". fields. pfields.
  iApply wp_ret. rewrite Hk.
  assert ((term =? 0) || bool_decide (Some (lin, i) = Some (lin, e)) = true) as ->.
  { pose proof (at_pos_end_eq _ _ Hpos) as Hend. simpl in Hend.
    destruct He as [-> | (-> & _)]; [|done].
    rewrite bool_decide_eq_true_2; [by rewrite orb_true_r|]. do 2 f_equal. lia. }
  iApply "HΦ". iSplit; [done|]. iFrame "He Hw". iSplitL "Hd Hb Hs Hk"; [|by iFrame].
  iExists s, v, vc, u, al, be, br, bd. iFrame.
Qed.

Lemma wp_run_watched o len a rest i p Φ :
  arun a rest <> AWrong -> a_wf a ->
  sbuf = Some (lin, o) -> stop_ok (o + len) (arun a rest) -> mode_ok a ->
  at_pos blk term post i rest ->
  parser_at w ss gs s lin a i p -∗ env a rest -∗ cc_free cc sbuf -∗
  (watched (arun a rest) -∗ Φ (Some cc)) -∗
  wp (run (Some cc) (mode_of (a_inline a)) (Some s) (watch_ptr w) len p) Φ.
Proof.
  iIntros (Hr Hwf Hsb He Hmo Hpos) "Hp Henv [(%k & Hk & %Hk) Herr] HΦ". unfold run.
  wp_bind_head. iApply (wp_load with "Hk"). iIntros "Hk". rewrite Hk Hsb. wp_bind_head.
  iApply (wp_keep_going with "Hp Henv"); [done|]. iIntros "Hp Henv".
  iAssert (⌜p_t p = Some (lin, i)⌝)%I as %Ht.
  { iDestruct "Hp" as (v vc u al el sx be br bd) "(%Hp & _)". by destruct Hp as [-> _]. }
  rewrite Ht. iDestruct "Henv" as "(Hm & Hpool & Hs & Hg & Hl)".
  unfold parse_fuel. wp_bind_head. iApply (wp_load with "Hl"). iIntros "Hl".
  iApply wp_ret. wp_bind_head. simpl cadd.
  iApply (wp_loop _ a rest with "Hp [Hm Hpool Hs Hg Hl] [Hk Herr]");
    [done..| |done|done|by iFrame|by iFrame|].
  { pose proof (at_pos_end_eq _ _ Hpos) as Hend. destruct Hpos as [Hi _].
    unfold text_end, ameasure in *. pose proof (pot_le a). lia. }
  pose proof (arun_mode a rest Hmo) as Hmo'.
  destruct (arun a rest) as [a'|err t a' rest'|]; simpl after_loop; [| |done].
  - iIntros (i' p') "%Hpos' Hp Henv Hcc". destruct Hpos' as [Hpos' Hwf'].
    destruct Hmo' as [<- _]. iApply (wp_finish with "Hp Henv Hcc HΦ"); done.
  - iIntros (i' last) "%Hpos' Hk Ht Hw Henv He". iApply wp_ret. iApply "HΦ".
    iExists i', last. by iFrame.
Qed.
End loop.
End refinement.

(** ** Without handlers *)

Section unwatched.
Context {api : MemApi} {laws : MemLaws api} {pool : PoolApi} {plaws : PoolLaws api pool}.
Variables (ss gs : Z).
Hypotheses (Hss : 0 < ss) (Hgs : 0 < gs) (Hsz : ss + 2 * gs + 2 ^ 31 < 2 ^ 64).
Variables (cc s lin : loc) (blk : list (fld Z)) (sbuf : cptr) (term : Z)
  (post : list (fld Z)) (N : nat) (B : Z).
Hypothesis (HB : B < int_max).
#[local] Abbreviation env := (env ss gs lin blk N B).

Definition parsed (r : arun_result) : hprop :=
  match r with
  | AStop a =>
      ⌈a_wf a⌉ ∗ cont_at ss gs cc a SEXP_ERR_INCOMPLETE None None sbuf ∗ env a [] ∗
      g_sexp_errno ↦ SEXP_ERR_INCOMPLETE
  | ARet err t a rest =>
      ∃ i last, ⌈at_pos blk term post i rest /\ a_wf a⌉ ∗
        cont_at ss gs cc a err last (Some (lin, i)) sbuf ∗ tree_opt t last ∗
        env a rest ∗ g_sexp_errno ↦ err
  | AWrong => False
  end%I.

Lemma unwatched_parsed r :
  watched Unwatched ss gs cc lin blk sbuf term post N B r ⊢ parsed r.
Proof.
  destruct r; simpl; [| |by iIntros "?"].
  - iIntros "($ & $ & _ & $ & $)".
  - iIntros "(%i & %last & $ & $ & $ & _ & $ & $)".
Qed.

Lemma parsed_unwatched r :
  watch_at Unwatched [] -∗ parsed r -∗ watched Unwatched ss gs cc lin blk sbuf term post N B r.
Proof.
  iIntros "He". destruct r; simpl; [| |by iIntros "?"].
  - iIntros "($ & $ & $ & $)".
  - iIntros "(%i & %last & $ & $ & $ & $ & $)".
Qed.

Lemma wp_run o len a rest i p Φ :
  arun a rest <> AWrong -> a_wf a ->
  sbuf = Some (lin, o) -> stop_ok blk term post (o + len) (arun a rest) -> mode_ok a ->
  at_pos blk term post i rest ->
  parser_at Unwatched ss gs s lin a i p -∗ env a rest -∗ cc_free cc sbuf -∗
  (parsed (arun a rest) -∗ Φ (Some cc)) -∗
  wp (run (Some cc) (mode_of (a_inline a)) (Some s) None len p) Φ.
Proof.
  iIntros (Hr Hwf Hsb He Hmo Hpos) "Hp Henv Hcc HΦ".
  iApply (wp_run_watched Unwatched ss gs Hss Hgs Hsz cc s lin blk sbuf term post N B HB
            with "Hp Henv Hcc"); [done..|].
  iIntros "Hr". iApply "HΦ". by iApply unwatched_parsed.
Qed.
End unwatched.
