(* ===== verification/ParserSpec.v ===== *)
(** What the functions of the parser promise to their callers: the calls of
    [cparse_sexp] with a new or an old continuation, [iparse_sexp],
    [parse_sexp] and [destroy_continuation]. *)
From S2P Require Import Prelude SexpTypes CMem SepLogic SexpMemory FastStack CLib ElementPool.
From S2P Require Import Trees Sexp Print ParserStates EventParser Parser Machine Events Simulation.
From S2P Require Import Refinement.

(** The text [s] is at offset [o] of a block; it holds no NUL and is followed
    by [term].  [len] is its length, or the text ends with a NUL before
    [len]. *)
Record text_at (blk : list (fld Z)) (o len : Z) (s : list Z) (term : Z)
    (post : list (fld Z)) : Prop := {
  ta_pos : at_pos blk term post o s;
  ta_chars : Forall (fun c => c <> 0) s;
  ta_len : len = Z.of_nat (length s) \/ term = 0 /\ Z.of_nat (length s) < len
}.

(** ** Releasing a continuation *)

(** The forests of the levels, the innermost first. *)
Definition level_forests (st : list (list tree)) : list (list tree) :=
  match st with
  | [] => []
  | ts :: st => ts :: ((fun us => us ++ [Node []]) <$> st ++ [[]])
  end.

Definition forests_size (tss : list (list tree)) : nat :=
  foldr (fun ts n => forest_size ts + n)%nat O tss.

Lemma level_forests_size st : forests_size (level_forests st) = stack_size st.
Proof.
  destruct st as [|ts st]; [done|]. simpl.
  enough (forests_size ((fun us => us ++ [Node []]) <$> st ++ [[]]) = S (stack_size st))
    as H by lia.
  induction st as [|us st IH]; [done|]. simpl. rewrite IH forest_size_app. simpl. lia.
Qed.

Definition levels_of (tss : list (list tree)) (pds : list ptr) : hprop :=
  ([∗ list] ts;pd ∈ tss;pds, level (fun ts fst _ => forest_at ts fst) ts pd)%I.

Lemma levels_at_forests st pds : levels_at st pds ⊢ levels_of (level_forests st) pds.
Proof.
  unfold levels_of. destruct st as [|ts st]; simpl.
  - iIntros "->". done.
  - iIntros "(%pd & %pds' & -> & (%d & %fst & %lst & -> & Hd & Hf) & Ho)". simpl.
    iSplitL "Hd Hf".
    + iExists d, fst, lst. iFrame "Hd". iSplit; [done|]. by iApply top_forest_at.
    + unfold open_levels. rewrite big_sepL2_fmap_l.
      iApply (big_sepL2_impl with "Ho"). iIntros "!>" (k us pd) "_ _".
      iIntros "(%d' & %fst' & %lst' & -> & Hd & (%l & %e & %He & Hs & Hl))".
      destruct He as [-> He]. iExists d', fst', _. iFrame "Hd". iSplit; [done|].
      unfold forest_at. rewrite seg_app. iExists (Some l). iFrame "Hs".
      rewrite seg_single. iExists l. iSplit; [done|]. rewrite tree_at_node.
      iExists e, None. by iFrame.
Qed.

(** A continuation that a call can go on with, whatever the last one
    returned, and its event handlers. *)
Definition ready_with (handlers : ptr) (ss gs : Z) (cc : loc) (a : astate) (lastPos sbuf : cptr) : hprop :=
  (∃ s v vc u al last err be br bd, cc ↦ mk_pcont (Some s) last v al u vc lastPos sbuf
        (Z.of_nat (length (a_stack a))) (a_qdepth a) (code (a_state a)) (a_esc a)
        (Det (a_squoted a)) err (mode_of (a_inline a)) be br bd handlers ∗
     blob_at (a_state a) be br bd ∗ buf_at ss gs v vc u al (a_buf a) ∗ stack_of s (a_stack a))%I.
Abbreviation cont_ready := (ready_with None).

Lemma cont_at_ready handlers ss gs cc a err last lastPos sbuf :
  cont_with handlers ss gs cc a err last lastPos sbuf ⊢
  ready_with handlers ss gs cc a lastPos sbuf.
Proof.
  iIntros "(%s & %v & %vc & %u & %al & %be & %br & %bd & Hcc & Hd & Hb & Hs)".
  iExists s, v, vc, u, al, _, _, be, br, bd. iFrame.
Qed.

Section spec.
Context {api : MemApi} {laws : MemLaws api} {pool : PoolApi} {plaws : PoolLaws api pool}.

(** The walk of [destroy_continuation] over the levels in use. *)
Lemma wp_destroy_levels tss : forall fuel ls ds i n m Φ,
  (i < fuel)%nat -> (i <= length ls)%nat ->
  Z.of_nat (n + forests_size tss) <= int_max ->
  Z.of_nat (m + i) <= int_max ->
  levels ls ds -∗ levels_of tss (reverse (take i ds)) -∗ pool_ok n m -∗ mem_ok -∗
  (∀ ds', levels ls ds' -∗
     pool_ok (n + forests_size tss) (m + i) -∗ mem_ok -∗
     Φ None) -∗
  wp (while fuel destroy_level_body (lvl_before ls i)) Φ.
Proof.
  induction tss as [|ts tss IH]; intros fuel ls ds i n m Φ Hf Hi Hn Hm;
    iIntros "Hl Ht Hp Hm HΦ"; iDestruct (levels_length with "Hl") as %Hlen;
    iDestruct (big_sepL2_length with "Ht") as %Hlt;
    rewrite length_reverse length_take_le in Hlt; [|lia| |lia];
    (destruct fuel as [|fuel]; [lia|]); cbn [while]; destruct i as [|i]; try done.
  - simpl lvl_before. unfold destroy_level_body at 2. wp_ret. iApply wp_ret.
    simpl. rewrite !Nat.add_0_r. iAssert emp%I with "[Ht]" as "_"; [done|].
    iApply ("HΦ" with "Hl Hp Hm").
  - destruct (lookup_lt_is_Some_2 ls i) as [l Hl]; [lia|].
    destruct (lookup_lt_is_Some_2 ds i) as [d Hd]; [lia|].
    rewrite (take_S_r _ _ d) // reverse_snoc.
    iDestruct "Ht" as "[(%pd & %fst & %lst & -> & Hpd & Hts) Ht]".
    iDestruct (levels_acc with "Hl") as "[Hli Hl]"; [done..|].
    simpl lvl_before. rewrite Hl. unfold destroy_level_body at 2.
    wp_bind_head. iApply (wp_load with "Hli"). iIntros "Hli". cbn [lvl_at lvl_data].
    simpl in Hn. wp_bind_head. iApply (wp_modify with "Hpd"). iIntros "Hpd". fields.
    wp_bind_head. iApply (wp_load with "Hpd"). iIntros "Hpd". fields. wp_det.
    wp_bind_head. iApply (wp_destroy_sexp with "Hts Hp Hm"); [lia|]. iIntros "Hp Hm".
    wp_bind_head. iApply (wp_modify with "Hpd"). iIntros "Hpd". fields.
    wp_bind_head. iApply (wp_pd_deallocate_ok with "Hpd Hp Hm"); [lia|]. iIntros "Hp Hm".
    wp_bind_head. iApply (wp_modify with "Hli"). iIntros "Hli". fields.
    wp_bind_head. iApply (wp_load with "Hli"). iIntros "Hli". wp_ret.
    iDestruct ("Hl" with "Hli") as "Hl".
    iApply (IH with "Hl [Ht] Hp Hm"); [lia..| |].
    { by rewrite take_insert_ge. }
    iIntros (ds') "Hl Hp Hm". simpl forests_size.
    rewrite Nat.add_assoc Nat.add_succ_r -Nat.add_succ_l. iApply ("HΦ" with "Hl Hp Hm").
Qed.

(** The block for binary data that is not complete. *)
Lemma wp_release_blob (cc : loc) (c : pcont_t) k be br bd Φ :
  cc ↦ c -∗ blob_at k be br bd -∗ mem_ok -∗ (∀ c', cc ↦ (c' : pcont_t) -∗ mem_ok -∗ Φ ()) -∗
  wp (match bd with
      | None => mret ()
      | Some _ => sexp_free bd be;; modify (Some cc) (fun c => c <| pc_bindata := None |>)
      end) Φ.
Proof.
  iIntros "Hcc Hd Hm HΦ". destruct (has_data k) eqn:Hk.
  - destruct k; try done. iDestruct "Hd" as (lb) "[Hd %Hb]". destruct Hb as (-> & _).
    wp_bind_head. iApply (wp_sexp_free_ok with "Hd Hm"). iIntros "Hm".
    iApply (wp_modify with "Hcc"). iIntros "Hcc". iApply ("HΦ" with "Hcc Hm").
  - destruct k; try done; iDestruct "Hd" as %(_ & _ & ->); iApply wp_ret;
      iApply ("HΦ" with "Hcc Hm").
Qed.

(** [destroy_continuation] gives everything a continuation owns back: the
    buffer, the stack, the elements read so far, and the block of binary
    data. *)
Lemma wp_destroy_continuation handlers ss gs cc a lastPos sbuf n m Φ :
  Z.of_nat (n + stack_size (a_stack a)) <= int_max ->
  Z.of_nat (m + height_of (a_stack a)) <= int_max ->
  ready_with handlers ss gs cc a lastPos sbuf -∗ pool_ok n m -∗ mem_ok -∗
  (pool_ok (n + stack_size (a_stack a)) (m + height_of (a_stack a)) -∗ mem_ok -∗ Φ ()) -∗
  wp (destroy_continuation (Some cc)) Φ.
Proof.
  iIntros (Hn Hm) "(%s & %v & %vc & %u & %al & %last & %err & %be & %br & %bd & Hcc & Hd & Hb &
    (%pds & Hs & Hlv)) Hp Hm HΦ".
  iDestruct (levels_at_length with "Hlv") as %Hlen.
  iDestruct (levels_at_forests with "Hlv") as "Hlv".
  iDestruct "Hs" as (ls ds) "((Hs & Hl & %Hle) & %Hds)". destruct Hds as [Hds _].
  iDestruct "Hb" as (lv vrest) "[Hv %Hb]". destruct Hb as (-> & _ & _ & -> & _).
  unfold destroy_continuation. wp_bind_head. iApply (wp_load with "Hcc"). iIntros "Hcc".
  fields. wp_bind_head. iApply (wp_load with "Hs"). iIntros "Hs". fields.
  wp_bind_head. iApply (wp_heap_fuel (length ls) with "Hl"); [apply cells_big_sepL2|].
  iIntros (fuel) "%Hfuel Hl". wp_bind_head.
  iApply (wp_destroy_levels (level_forests (a_stack a)) with "Hl [Hlv] Hp Hm"); [lia|done| | | |].
  { by rewrite level_forests_size. }
  { by rewrite Hlen. }
  { by rewrite Hds reverse_involutive. }
  iIntros (ds') "Hl Hp Hm". iDestruct (levels_length with "Hl") as %Hlds. wp_bind_head.
  iApply (wp_destroy_stack_ok anything s (reverse (take (length pds) ds')) with "[Hs Hl] Hm").
  { iExists ls, ds'. rewrite length_reverse length_take_le; [|lia]. iFrame.
    rewrite reverse_involutive. iPureIntro. split_and!; [done..|apply forall_anything]. }
  iIntros "Hm". wp_bind_head. iApply (wp_modify with "Hcc"). iIntros "Hcc". fields.
  wp_bind_head. iApply (wp_release_blob with "Hcc Hd Hm"). iIntros (c') "Hcc Hm".
  wp_bind_head. iApply (wp_sexp_free_ok with "Hv Hm"). iIntros "Hm".
  wp_bind_head. iApply (wp_modify with "Hcc"). iIntros "Hcc". fields.
  iApply (wp_sexp_free_ok with "Hcc Hm"). iIntros "Hm".
  rewrite level_forests_size Hlen. iApply ("HΦ" with "Hp Hm").
Qed.

(** ** cparse_sexp *)

Lemma text_end_ok blk o len s term post :
  text_at blk o len s term post -> end_ok blk term post (o + len).
Proof.
  intros [Hpos _ Hlen]. pose proof (at_pos_end_eq _ _ _ _ _ Hpos).
  unfold end_ok. destruct Hlen as [-> | [-> ?]]; [left|right]; lia.
Qed.

Lemma wp_init_continuation_fresh ss gs str Φ :
  0 < ss -> 0 < gs ->
  mem_ok -∗ g_val_start_size ↦ ss -∗
  (∀ cc s v vc,
     cc ↦ mk_pcont (Some s) Indet v ss 0 vc None str 0 0 1 0 (Det 0) Indet PARSER_NORMAL
            0 0 None None -∗
     ⌈vc = cursor v 0⌉ -∗ buf_at ss gs v vc 0 ss [] -∗ s ↦ mk_stack None None 0 -∗ mem_ok -∗
     g_val_start_size ↦ ss -∗ Φ (Some cc)) -∗
  wp (init_continuation str) Φ.
Proof.
  iIntros (Hss Hgs) "Hm Hs HΦ". unfold init_continuation. wp_bind_head.
  iApply (wp_malloc_ok with "Hm"). iIntros (cc) "Hcc Hm".
  wp_bind_head. iApply (wp_gget with "Hs"). iIntros "Hs".
  wp_bind_head. iApply (wp_malloc_ok with "Hm"). iIntros (lv) "Hv Hm".
  wp_bind_head. iApply (wp_make_stack_fresh with "Hm"). iIntros (s) "Hst Hm".
  wp_bind_head. iApply (wp_init with "Hcc"). iIntros "Hcc". iApply wp_ret.
  iApply ("HΦ" with "Hcc [] [Hv] Hst Hm Hs"); [done|by iApply buf_at_fresh].
Qed.

Lemma wp_init_continuation ss gs str Φ :
  0 < ss -> 0 < gs ->
  mem_ok -∗ g_val_start_size ↦ ss -∗
  (∀ cc s v vc,
     cc ↦ mk_pcont (Some s) Indet v ss 0 vc None str 0 0 1 0 (Det 0) Indet PARSER_NORMAL
            0 0 None None -∗
     ⌈vc = cursor v 0⌉ -∗ buf_at ss gs v vc 0 ss [] -∗ stack_of s [] -∗ mem_ok -∗
     g_val_start_size ↦ ss -∗ Φ (Some cc)) -∗
  wp (init_continuation str) Φ.
Proof.
  iIntros (Hss Hgs) "Hm Hs HΦ". iApply (wp_init_continuation_fresh with "Hm Hs"); [done..|].
  iIntros (cc s v vc) "Hcc Hvc Hb Hst Hm Hs". iApply ("HΦ" with "Hcc Hvc Hb [Hst] Hm Hs").
  iExists []. iDestruct (is_stack_nil with "Hst") as "$". done.
Qed.

(** The continuation a caller makes with [init_continuation]. *)
Lemma wp_init_continuation_ready ss gs str Φ :
  0 < ss -> 0 < gs ->
  mem_ok -∗ g_val_start_size ↦ ss -∗
  (∀ cc, cont_ready ss gs cc a_init None str -∗ mem_ok -∗ g_val_start_size ↦ ss -∗
     Φ (Some cc)) -∗
  wp (init_continuation str) Φ.
Proof.
  iIntros (Hss Hgs) "Hm Hs HΦ". iApply (wp_init_continuation with "Hm Hs"); [done..|].
  iIntros (cc s v vc) "Hcc -> Hb Hst Hm Hs". iApply ("HΦ" with "[-Hm Hs] Hm Hs").
  iExists s, v, _, 0, ss, _, _, 0, 0, None. iFrame. done.
Qed.

Section calls.
Variables (ss gs : Z).
Hypotheses (Hss : 0 < ss) (Hgs : 0 < gs) (Hsz : ss + 2 * gs + 2 ^ 31 < 2 ^ 64).

(** The parser's view of the globals. *)
Definition parser_env (N m : nat) : hprop :=
  (mem_ok ∗ pool_ok N m ∗ g_val_start_size ↦ ss ∗ g_val_grow_size ↦ gs)%I.

(** A first call. *)
Lemma wp_cparse_new lin blk o len s term post N m B Φ :
  text_at blk o len s term post -> arun a_init s <> AWrong ->
  B < int_max -> budget B a_init s m ->
  parser_env N m -∗ errno_own -∗ lin ↦ blk -∗
  (∀ cc, parsed ss gs cc lin blk (Some (lin, o)) term post N B (arun a_init s) -∗
     Φ (Some cc)) -∗
  wp (cparse_sexp (Some (lin, o)) len None) Φ.
Proof.
  iIntros (Ht Hr HB Hb) "(Hm & Hp & Hs & Hg) He Hl HΦ". unfold cparse_sexp. wp_bind_head.
  iApply (wp_init_continuation ss gs with "Hm Hs"); [done..|].
  iIntros (cc s' v vc) "Hcc -> Hbuf Hst Hm Hs".
  wp_bind_head. iApply (wp_modify with "Hcc"). iIntros "Hcc". fields.
  wp_bind_head. iApply (wp_load with "Hcc"). iIntros "Hcc". fields.
  pose proof (text_end_ok _ _ _ _ _ _ Ht). destruct Ht as [Hpos _ _].
  iApply (wp_run ss gs Hss Hgs Hsz cc s' lin blk (Some (lin, o)) term post N B HB o len
           a_init s o with "[Hbuf Hst] [Hm Hp Hs Hg Hl] [Hcc He]"); try done.
  - by apply plain_stop_ok.
  - iExists v, _, 0, ss, 0, None, 0, 0, None. by iFrame.
  - by iFrame.
  - iFrame. done.
Qed.

(** A later call: it goes on where the text was left, or, when that was
    used up, with a new text. *)
Lemma wp_cparse_watched w cc a lin blk str lastPos sbuf o i len s term post N m B Φ :
  match lastPos with
  | Some t => t = (lin, i) /\ sbuf = Some (lin, o) /\ is_Some str
  | None => i = o /\ str = Some (lin, o)
  end ->
  at_pos blk term post i s -> stop_ok blk term post (o + len) (arun a s) ->
  a_wf a -> mode_ok a -> arun a s <> AWrong ->
  B < int_max -> budget B a s m ->
  ready_with (watch_ptr w) ss gs cc a lastPos sbuf -∗ watch_at w (open_tokens a) -∗
  parser_env N m -∗ errno_own -∗ lin ↦ blk -∗
  (watched w ss gs cc lin blk (Some (lin, o)) term post N B (arun a s) -∗ Φ (Some cc)) -∗
  wp (cparse_sexp str len (Some cc)) Φ.
Proof.
  iIntros (Htext Hpos Hend Hwf Hmo Hr HB Hb)
    "(%s' & %v & %vc & %u & %al & %last & %err & %be & %br & %bd & Hcc & Hd & Hbuf & Hst) Hw
     (Hm & Hp & Hs & Hg) He Hl HΦ".
  unfold cparse_sexp. destruct str as [str|]; [|by destruct lastPos as [?|];
    [destruct Htext as (_ & _ & [? [=]])|destruct Htext as [_ [=]]]].
  wp_bind_head. iApply (wp_load with "Hcc"). iIntros "Hcc". fields.
  case_decide; [by destruct (a_inline a)|]. wp_bind_head.
  iAssert (∀ Ψ : cptr -> hprop,
    ((∃ k, cc ↦ k ∗ ⌈pc_sbuffer k = Some (lin, o)⌉) -∗ Ψ (Some (lin, i))) -∗
    wp (match lastPos with
        | Some _ => mret lastPos
        | None => modify (Some cc) (fun c => c <| pc_sbuffer := Some str |>);; mret (Some str)
        end) Ψ)%I with "[Hcc]" as "Ht".
  { iIntros (Ψ) "HΨ". destruct lastPos as [t|].
    - destruct Htext as (-> & -> & _). iApply wp_ret. iApply "HΨ". iExists _. by iFrame.
    - destruct Htext as (-> & [= ->]). wp_bind_head. iApply (wp_modify with "Hcc").
      iIntros "Hcc". iApply wp_ret. iApply "HΨ". iExists _. by iFrame. }
  iApply "Ht". iIntros "Hcc". wp_det.
  iApply (wp_run_watched w ss gs Hss Hgs Hsz cc s' lin blk (Some (lin, o)) term post N B HB o len
           a s i with "[Hd Hbuf Hst Hw] [Hm Hp Hs Hg Hl] [Hcc He]"); try done.
  - iExists v, vc, u, al, 0, None, be, br, bd. by iFrame.
  - by iFrame.
  - by iFrame.
Qed.
(** ... without handlers. *)
Lemma wp_cparse_resume cc a lin blk str lastPos sbuf o i len s term post N m B Φ :
  match lastPos with
  | Some t => t = (lin, i) /\ sbuf = Some (lin, o) /\ is_Some str
  | None => i = o /\ str = Some (lin, o)
  end ->
  at_pos blk term post i s -> stop_ok blk term post (o + len) (arun a s) ->
  a_wf a -> mode_ok a -> arun a s <> AWrong ->
  B < int_max -> budget B a s m ->
  cont_ready ss gs cc a lastPos sbuf -∗ parser_env N m -∗ errno_own -∗ lin ↦ blk -∗
  (parsed ss gs cc lin blk (Some (lin, o)) term post N B (arun a s) -∗ Φ (Some cc)) -∗
  wp (cparse_sexp str len (Some cc)) Φ.
Proof.
  iIntros (Htext Hpos Hend Hwf Hmo Hr HB Hb) "Hcc Henv He Hl HΦ".
  iApply (wp_cparse_watched Unwatched with "Hcc [] Henv He Hl"); [done..|].
  iIntros "H". iApply "HΦ". by iApply unwatched_parsed.
Qed.
End calls.
End spec.

Section theorems.
Context {api : MemApi} {laws : MemLaws api} {pool : PoolApi}.

(** C38. [init_continuation] under any allocator: it returns a continuation
    that is ready to parse, or, whichever of the three allocations is
    refused, NULL with [SEXP_ERR_MEMORY], after giving back the ones that
    were granted. *)
Theorem init_continuation_all_or_nothing ss gs str :
  0 < ss -> 0 < gs ->
  ⦃ mem_own ∗ errno_own ∗ g_val_start_size ↦ ss ⦄ init_continuation str
  ⟪ p, mem_own ∗ g_val_start_size ↦ ss ∗
       match p with
       | Some cc => cont_ready ss gs cc a_init None str ∗ errno_own
       | None => g_sexp_errno ↦ SEXP_ERR_MEMORY
       end ⟫.
Proof.
  iIntros (Hss Hgs) "(Hm & He & Hs)". unfold init_continuation. wp_bind_head.
  iApply (wp_malloc with "Hm He"). iIntros ([cc|]) "Hcc [Hm He]".
  2: { wp_set_errno. wp_ret. iFrame. }
  wp_bind_head. iApply (wp_gget with "Hs"). iIntros "Hs".
  wp_bind_head. iApply (wp_malloc with "Hm He"). iIntros ([lv|]) "Hv [Hm He]".
  2: { wp_bind_head. iApply (wp_set_errno with "He"). iIntros "He". wp_bind_head.
       iApply (wp_sexp_free cc with "Hcc Hm"). iIntros "Hm". wp_ret. iFrame. }
  wp_bind_head. iApply (wp_make_stack with "Hm He"). iIntros ([s|]) "Hst Hm".
  2: { wp_bind_head. iApply (wp_set_errno with "[Hst]"); [by iExists _|]. iIntros "He".
       wp_bind_head. iApply (wp_gget with "Hs"). iIntros "Hs". wp_bind_head.
       iApply (wp_sexp_free lv with "Hv Hm"). iIntros "Hm". wp_bind_head.
       iApply (wp_sexp_free cc with "Hcc Hm"). iIntros "Hm". wp_ret. iFrame. }
  iDestruct "Hst" as "[Hst He]".
  wp_bind_head. iApply (wp_init with "Hcc"). iIntros "Hcc". wp_ret. iFrame "Hm Hs He".
  iExists s, _, _, 0, ss, _, _, 0, 0, None. iFrame "Hcc". iSplit; [done|]. iSplitL "Hv".
  - by iApply buf_at_fresh.
  - iExists []. by iFrame.
Qed.

(** C39. [set_parser_buffer_params] stores a start size and a growth size
    that are not zero, and says whether both were accepted; a growth size
    is only looked at when the start size was accepted.  So the sizes are
    never zero, which is what the parser's contracts ask for. *)
Theorem set_parser_buffer_params_correct ss gs s g :
  ⦃ g_val_start_size ↦ ss ∗ g_val_grow_size ↦ gs ⦄ set_parser_buffer_params (u64 s) (u64 g)
  ⟪ r, let ok1 := 0 <? u64 s in let ok2 := ok1 && (0 <? u64 g) in
       ⌈r = if ok2 then SEXP_ERR_OK else SEXP_ERR_BAD_PARAM⌉ ∗
       g_val_start_size ↦ (if ok1 then u64 s else ss) ∗
       g_val_grow_size ↦ (if ok2 then u64 g else gs) ⟫.
Proof.
  iIntros "[Hs Hg]". unfold set_parser_buffer_params. destruct (0 <? u64 s); simpl.
  - wp_bind_head. iApply (wp_gset with "Hs"). iIntros "Hs". destruct (0 <? u64 g); simpl.
    + wp_bind_head. iApply (wp_gset with "Hg"). iIntros "Hg". wp_ret. by iFrame.
    + wp_ret. by iFrame.
  - wp_ret. by iFrame.
Qed.

(** What the parser's functions do with arguments they cannot use: an
    empty or absent text gives NULL and changes nothing, a missing
    continuation is reported in [sexp_errno], and an absent text for an
    existing continuation is recorded in the continuation. *)
Theorem bad_arguments_refused t len cc c :
  ⦃ emp ⦄ parse_sexp None len ⟪ p, ⌈p = None⌉ ⟫ /\
  ⦃ emp ⦄ parse_sexp t 0 ⟪ p, ⌈p = None⌉ ⟫ /\
  ⦃ errno_own ⦄ iparse_sexp t len None
    ⟪ p, ⌈p = None⌉ ∗ g_sexp_errno ↦ SEXP_ERR_BAD_PARAM ⟫ /\
  ⦃ cc ↦ c ⦄ cparse_sexp None len (Some cc)
    ⟪ p, ⌈p = Some cc⌉ ∗
         cc ↦ c <| pc_error := Det SEXP_ERR_NULLSTRING |> <| pc_last_sexp := Det None |> ⟫.
Proof.
  split_and!.
  - iIntros "_". unfold parse_sexp. by wp_ret.
  - iIntros "_". unfold parse_sexp. destruct t; by wp_ret.
  - iIntros "He". unfold iparse_sexp. wp_bind_head. iApply (wp_set_errno with "He").
    iIntros "He". wp_ret. by iFrame.
  - iIntros "Hcc". unfold cparse_sexp. wp_ret. wp_bind_head. iApply (wp_modify with "Hcc").
    iIntros "Hcc". wp_ret. by iFrame.
Qed.
End theorems.

#[local] Existing Instances default_mem cached_pool.

(** The allocator grants the continuation and the buffer, and refuses the
    stack. *)
Lemma init_continuation_all_or_nothing_witness :
  exists p h,
    init_continuation None
      (heap_of [(g_answers, CAnswers [true; true; false]); (g_sexp_errno, CErrno SEXP_ERR_OK);
                (g_val_start_size, CSize 256)]) = Done p h /\
    (mem_own ∗ g_val_start_size ↦ 256 ∗
       match p with
       | Some cc => cont_ready 256 64 cc a_init None None ∗ errno_own
       | None => g_sexp_errno ↦ SEXP_ERR_MEMORY
       end)%I h.
Proof.
  refine (run_triple _ _ _ _ (init_continuation_all_or_nothing 256 64 None _ _) _ _).
  - done.
  - done.
  - apply (bool_decide_unpack _). by vm_compute.
  - iIntros "(Ha & He & Hs & _)". iSplitL "Ha"; [by iExists [true; true; false]|].
    iSplitL "He"; [by iExists SEXP_ERR_OK|iExact "Hs"].
Defined.
