(* ===== verification/ParseSexp.v ===== *)
(** [parse_sexp] and [iparse_sexp]: the functions a caller parses with. *)
From S2P Require Import Prelude SexpTypes CMem SepLogic SexpMemory FastStack CLib ElementPool.
From S2P Require Import Trees Sexp Print ParserStates EventParser Parser Machine Simulation.
From S2P Require Import Refinement ParserSpec.

Section parse.
Context {api : MemApi} {laws : MemLaws api} {pool : PoolApi} {plaws : PoolLaws api pool}.
Variables (ss gs : Z).
Hypotheses (Hss : 0 < ss) (Hgs : 0 < gs) (Hsz : ss + 2 * gs + 2 ^ 31 < 2 ^ 64).
#[local] Abbreviation parser_env := (parser_env ss gs).
#[local] Abbreviation parsed := (parsed ss gs).

(** The last lines of [parse_sexp]: the result is taken out, and the
    continuation is released. *)
Lemma wp_take_result cc a err last lastPos sbuf N m N' m' Φ :
  (N + stack_size (a_stack a) <= N')%nat -> Z.of_nat N' <= int_max ->
  (m + height_of (a_stack a) <= m')%nat -> Z.of_nat m' <= int_max ->
  cont_at ss gs cc a err last lastPos sbuf -∗ parser_env N m -∗
  (parser_env N' m' -∗ Φ last) -∗
  wp (c ← load (A := pcont_t) (Some cc);
      sx ← det (pc_last_sexp c);
      destroy_continuation (Some cc);;
      mret sx) Φ.
Proof.
  iIntros (HN HN' Hm Hm') "(%s & %v & %vc & %u & %al & %be & %br & %bd & Hcc & Hbl & Hb & Hs) (Hmem & Hp & Hg) HΦ".
  wp_bind_head. iApply (wp_load with "Hcc"). iIntros "Hcc". fields. wp_det. wp_bind_head.
  iApply (wp_destroy_continuation _ ss gs _ a lastPos sbuf N m
    with "[Hcc Hbl Hb Hs] Hp Hmem"); [lia|lia| |].
  { iExists s, v, vc, u, al, _, _, be, br, bd. iFrame. }
  iIntros "Hp Hmem". iApply wp_ret. iApply "HΦ". iFrame "Hmem Hg".
  iApply (pool_ok_mono with "Hp"); lia.
Qed.

(** The text that [parse_sexp] adds when the first one ends inside an
    expression. *)
Lemma dummy_text : at_pos [Det c_lf; Det c_nul] 0 [] 0 [c_lf].
Proof. by split. Qed.

Lemma parser_env_of_env lin blk N B a rest :
  env ss gs lin blk N B a rest ⊢
  ∃ m, parser_env N m ∗ ⌈budget B a rest m⌉ ∗ lin ↦ blk.
Proof. iIntros "(Hm & (%m & Hp & Hb) & Hs & Hg & Hl)". iExists m. iFrame. Qed.

(** The sizes after a call, from what bounds them. *)
#[local] Ltac sizes :=
  try (unfold weight, budget in *; simpl in *; lia).

(** What a call leaves is released with the record [dummy]. *)
Lemma wp_parse_end cc a err t last lastPos sbuf N m N' m' dummy (b : list (fld Z)) Φ :
  (N + stack_size (a_stack a) <= N')%nat -> Z.of_nat N' <= int_max ->
  (m + height_of (a_stack a) <= m')%nat -> Z.of_nat m' <= int_max ->
  cont_at ss gs cc a err last lastPos sbuf -∗ tree_opt t last -∗ parser_env N m -∗
  dummy ↦ b -∗
  (∀ sx, tree_opt t sx -∗ parser_env N' m' -∗ Φ sx) -∗
  wp (c ← load (A := pcont_t) (Some cc);
      sx ← det (pc_last_sexp c);
      destroy_continuation (Some cc);;
      mret sx) (fun sx => wp (dealloc (Some dummy);; mret sx) Φ).
Proof.
  iIntros (HN HN' Hm Hm') "Hcc Ht Henv Hd HΦ".
  iApply (wp_take_result with "Hcc Henv"); [done..|]. iIntros "Henv". wp_bind_head.
  iApply (wp_dealloc with "Hd"). iApply wp_ret. iApply ("HΦ" with "Ht Henv").
Qed.

(** [parse_sexp] computes [parse_outcome], and keeps nothing but the
    expression it returns. *)
Lemma wp_parse_sexp lin blk o len s term post N m Φ :
  text_at blk o len s term post -> parsable s -> 0 < len ->
  Z.of_nat (N + length s + 1) <= int_max ->
  Z.of_nat (m + 2 * length s + 2) < int_max ->
  parser_env N m -∗ errno_own -∗ lin ↦ blk -∗
  (∀ sx, tree_opt (parse_outcome s).2 sx -∗ g_sexp_errno ↦ (parse_outcome s).1 -∗
     parser_env (N + length s + 1) (m + 2 * length s + 2) -∗ lin ↦ blk -∗ Φ sx) -∗
  wp (parse_sexp (Some (lin, o)) len) Φ.
Proof.
  iIntros (Ht Hp Hlen HN Hm) "Henv He Hl HΦ". unfold parse_sexp.
  destruct (Z.ltb_spec len 1); [lia|]. wp_bind_head. iApply wp_alloc. iIntros (dummy) "Hd".
  wp_bind_head. set (B := Z.of_nat (m + 2 * length s)).
  iApply (wp_cparse_new ss gs Hss Hgs Hsz lin blk o len s term post N m B
    with "Henv He Hl"); try done; [lia|split; simpl; lia|].
  iIntros (cc) "Hr". wp_bind_head.
  pose proof (arun_bounded a_init s) as Hw. pose proof (arun_texts a_init s a_init_texts) as Htx.
  unfold parsable in Hp. unfold parse_outcome, outcome_of.
  destruct (arun a_init s) as [a|err t a rest|]; [| |done]; simpl Refinement.parsed.
  - iDestruct "Hr" as "(%Hwf & Hcc & Henv & He)".
    iDestruct (parser_env_of_env with "Henv") as (m') "(Henv & %Hb & Hl)".
    destruct Htx as (Hin & Hbin & _).
    wp_bind_head. iApply (wp_gget with "He"). iIntros "He".
    iDestruct "Hcc" as (s' v vc u al be br bd) "(Hcc & Hbl & Hbuf & Hst)".
    wp_bind_head. iApply (wp_load with "Hcc"). iIntros "Hcc". fields.
    rewrite !bool_decide_eq_true_2 //. simpl. wp_bind_head.
    iApply (wp_cparse_resume ss gs Hss Hgs Hsz cc a dummy
      [Det c_lf; Det c_nul] (Some (dummy, 0)) None _ 0 0 2 [c_lf] 0 [] N m' (B + 2)
      with "[Hcc Hbl Hbuf Hst] Henv [He] Hd"); try done.
    { apply plain_stop_ok; [done|by intros _|]. right. split; [done|].
      unfold text_end. simpl. lia. }
    { by intros _. }
    { by apply arun_newline. }
    { lia. }
    { destruct Hb. split; simpl in *; case_decide; lia. }
    { iExists s', v, vc, u, al, _, _, be, br, bd. iFrame. }
    { by iExists _. }
    iIntros "Hr". pose proof (arun_newline a Hbin) as Hnl. pose proof (arun_bounded a [c_lf]) as Hw2.
    destruct (arun a [c_lf]) as [a'|err t a' rest|]; [| |done]; simpl Refinement.parsed.
    + iDestruct "Hr" as "(_ & Hcc & Henv & He)".
      iDestruct (parser_env_of_env with "Henv") as (m'') "(Henv & %Hb' & Hd)".
      iApply (wp_parse_end _ _ _ None _ _ _ _ _ (N + length s + 1) (m + 2 * length s + 2)
        with "Hcc [] Henv Hd"); sizes; [done|].
      iIntros (sx) "Ht Henv". iApply ("HΦ" with "Ht He Henv Hl").
    + iDestruct "Hr" as (i last) "(_ & Hcc & Ht & Henv & He)".
      iDestruct (parser_env_of_env with "Henv") as (m'') "(Henv & %Hb' & Hd)".
      iApply (wp_parse_end _ _ _ _ _ _ _ _ _ (N + length s + 1) (m + 2 * length s + 2)
        with "Hcc Ht Henv Hd"); sizes.
      iIntros (sx) "Ht Henv". iApply ("HΦ" with "Ht He Henv Hl").
  - iDestruct "Hr" as (i last) "(_ & Hcc & Ht & Henv & He)".
    iDestruct (parser_env_of_env with "Henv") as (m'') "(Henv & %Hb' & Hl)".
    wp_bind_head. iApply (wp_gget with "He"). iIntros "He".
    iDestruct "Hcc" as (s' v vc u al be br bd) "(Hcc & Hbl & Hbuf & Hst)".
    wp_bind_head. iApply (wp_load with "Hcc"). iIntros "Hcc". fields.
    rewrite (bool_decide_eq_false_2 (Some _ = None)) // andb_false_r. wp_ret.
    iApply (wp_parse_end cc a err t last (Some (lin, i)) _ _ _ (N + length s + 1) (m + 2 * length s + 2)
      with "[Hcc Hbl Hbuf Hst] Ht Henv Hd");
      sizes.
    { iExists s', v, vc, u, al, be, br, bd. iFrame. }
    iIntros (sx) "Ht Henv". iApply ("HΦ" with "Ht He Henv Hl").
Qed.
(** What [iparse_sexp] gives back: the expression that was completed, taken
    out of the continuation, or nothing when the text ended first. *)
Definition ianswer cc lin blk o term post N B (r : arun_result) (sx : ptr) : hprop :=
  match r with
  | AStop a =>
      ⌈a_wf a /\ sx = None⌉ ∗
        cont_at ss gs cc a SEXP_ERR_INCOMPLETE None None (Some (lin, o)) ∗
        env ss gs lin blk N B a [] ∗ g_sexp_errno ↦ SEXP_ERR_INCOMPLETE
  | ARet err t a rest =>
      ∃ i, ⌈at_pos blk term post i rest /\ a_wf a⌉ ∗ tree_opt t sx ∗
        cont_at ss gs cc a err None (Some (lin, i)) (Some (lin, o)) ∗
        env ss gs lin blk N B a rest ∗ g_sexp_errno ↦ err
  | AWrong => False
  end%I.

(** Taking the expression out of the continuation that a call left. *)
Lemma wp_take_parsed cc lin blk o term post N B r Φ :
  Refinement.parsed ss gs cc lin blk (Some (lin, o)) term post N B r -∗
  (∀ sx, ianswer cc lin blk o term post N B r sx -∗ Φ sx) -∗
  wp (c ← load (A := pcont_t) (Some cc);
      last ← det (pc_last_sexp c);
      match last with
      | None => mret None
      | Some _ => modify (Some cc) (fun c => c <| pc_last_sexp := Det None |>);; mret last
      end) Φ.
Proof.
  iIntros "Hr HΦ". destruct r as [a'|err t a' rest|]; [| |done]; simpl Refinement.parsed.
  - iDestruct "Hr" as "(%Hwf' & (%s' & %v & %vc & %u & %al & %be & %br & %bd & Hcc & Hbl & Hbuf & Hst) & Henv & He)".
    wp_bind_head. iApply (wp_load with "Hcc"). iIntros "Hcc". fields. wp_det. iApply wp_ret.
    iApply ("HΦ" $! None). iFrame "Henv He". iSplit; [done|]. iExists s', v, vc, u, al, be, br, bd. iFrame.
  - iDestruct "Hr" as
      "(%i' & %last & %Hi & (%s' & %v & %vc & %u & %al & %be & %br & %bd & Hcc & Hbl & Hbuf & Hst) & Ht & Henv & He)".
    wp_bind_head. iApply (wp_load with "Hcc"). iIntros "Hcc". fields. wp_det.
    destruct last as [l|].
    + wp_bind_head. iApply (wp_modify with "Hcc"). iIntros "Hcc". fields. iApply wp_ret.
      iApply "HΦ". iExists i'. iFrame "Ht Henv He". iSplit; [done|].
      iExists s', v, vc, u, al, be, br, bd. iFrame.
    + iApply wp_ret. iApply "HΦ". iExists i'. iFrame "Ht Henv He". iSplit; [done|].
      iExists s', v, vc, u, al, be, br, bd. iFrame.
Qed.

Lemma wp_iparse_sexp cc a lin blk str lastPos sbuf o i len s term post N m B Φ :
  match lastPos with
  | Some t => t = (lin, i) /\ sbuf = Some (lin, o) /\ is_Some str
  | None => i = o /\ str = Some (lin, o)
  end ->
  at_pos blk term post i s -> stop_ok blk term post (o + len) (arun a s) ->
  a_wf a -> mode_ok a -> arun a s <> AWrong ->
  B < int_max -> budget B a s m ->
  cont_ready ss gs cc a lastPos sbuf -∗ parser_env N m -∗ errno_own -∗ lin ↦ blk -∗
  (∀ sx, ianswer cc lin blk o term post N B (arun a s) sx -∗ Φ sx) -∗
  wp (iparse_sexp str len (Some cc)) Φ.
Proof.
  iIntros (Htext Hpos Hend Hwf Hmo Hr HB Hb) "Hcc Henv He Hl HΦ". unfold iparse_sexp.
  wp_bind_head. iApply (wp_cparse_resume with "Hcc Henv He Hl"); [done..|]. iIntros "Hr".
  iApply (wp_take_parsed with "Hr HΦ").
Qed.
End parse.

(** ** What a caller relies on *)

(** Buffer parameters that keep the sizes of the atom buffer in range. *)
Definition params_ok (ss gs : Z) : Prop := 0 < ss /\ 0 < gs /\ ss + 2 * gs + 2 ^ 31 < 2 ^ 64.

(** The globals of the library as a program starts, and a text. *)
Definition text_block : loc := 64%positive.
Definition startup (text : list Z) : list (loc * cell) :=
  [(g_answers, CAnswers []); (g_sexp_t_cache, CPtr None); (g_pd_cache, CPtr None);
   (g_val_start_size, CSize 256); (g_val_grow_size, CSize 64);
   (g_sexp_errno, CErrno SEXP_ERR_OK); (text_block, CChars ((Det <$> text) ++ [Det 0]))].

Lemma startup_env text :
  cells_at (startup text) ⊢
  @parser_env default_mem _ cached_pool cached_laws 256 64 0 0 ∗ errno_own ∗
  text_block ↦ ((Det <$> text) ++ [Det 0]).
Proof.
  iIntros "(Ha & Hc & Hd & Hs & Hg & He & Ht & _)". iSplitR "He Ht".
  - iSplitL "Ha"; [iExact "Ha"|]. iSplitR "Hs Hg"; [|iSplitL "Hs"; [iExact "Hs"|iExact "Hg"]].
    iSplitL "Hc"; iExists None; (iSplitL; [|done]); [iExact "Hc"|iExact "Hd"].
  - iSplitL "He"; [iExists SEXP_ERR_OK; iExact "He"|iExact "Ht"].
Qed.

Lemma startup_text text :
  Forall (fun c => c <> 0) text ->
  text_at ((Det <$> text) ++ [Det 0]) 0 (Z.of_nat (length text)) text 0 [].
Proof. intros ?. split; [by split|done|by left]. Qed.

Section theorems.
Context {api : MemApi} {laws : MemLaws api} {pool : PoolApi} {plaws : PoolLaws api pool}.

(** C1. [parse_sexp] computes [parse_outcome]: it returns the elements of
    the expression that the text holds (or NULL), reports the error code,
    and everything it allocated apart from the expression is given back.
    It terminates, and no step of it is undefined. *)
Theorem parse_sexp_correct ss gs lin blk o len s term post N m :
  params_ok ss gs -> text_at blk o len s term post -> parsable s -> 0 < len ->
  Z.of_nat (N + length s + 1) <= int_max -> Z.of_nat (m + 2 * length s + 2) < int_max ->
  ⦃ parser_env ss gs N m ∗ errno_own ∗ lin ↦ blk ⦄
    parse_sexp (Some (lin, o)) len
  ⟪ sx, tree_opt (parse_outcome s).2 sx ∗ g_sexp_errno ↦ (parse_outcome s).1 ∗
        parser_env ss gs (N + length s + 1) (m + 2 * length s + 2) ∗ lin ↦ blk ⟫.
Proof.
  intros (Hss & Hgs & Hsz) Ht Hp Hlen HN Hm. iIntros "(Henv & He & Hl)".
  iApply (wp_parse_sexp ss gs Hss Hgs Hsz with "Henv He Hl"); [done..|].
  iIntros (sx) "Ht He Henv Hl". iFrame.
Qed.

(** C37. [parse_sexp] returns an expression exactly when it reports no error;
    every element of it is a list or an atom with a string (never binary
    data), and there are no more elements than characters and one. *)
Theorem parse_sexp_typed ss gs lin blk o len s term post N m :
  params_ok ss gs -> text_at blk o len s term post -> parsable s -> 0 < len ->
  Z.of_nat (N + length s + 1) <= int_max -> Z.of_nat (m + 2 * length s + 2) < int_max ->
  ⦃ parser_env ss gs N m ∗ errno_own ∗ lin ↦ blk ⦄
    parse_sexp (Some (lin, o)) len
  ⟪ sx, parser_env ss gs (N + length s + 1) (m + 2 * length s + 2) ∗ lin ↦ blk ∗
        ∃ err, g_sexp_errno ↦ err ∗
          match sx with
          | Some l => ∃ t, tree_at t l None ∗
              ⌈err = SEXP_ERR_OK /\ textual t = true /\ (tree_size t <= S (length s))%nat⌉
          | None => ⌈err <> SEXP_ERR_OK⌉
          end ⟫.
Proof.
  intros (Hss & Hgs & Hsz) Ht Hp Hlen HN Hm. iIntros "(Henv & He & Hl)".
  iApply (wp_parse_sexp ss gs Hss Hgs Hsz with "Henv He Hl"); [done..|].
  iIntros (sx) "Ht He $ $". iExists _. iFrame "He". pose proof (parse_outcome_typed s Hp) as Hty.
  destruct (parse_outcome s) as [err [t|]]; simpl.
  - iDestruct "Ht" as (l) "[-> Ht]". iExists t. by iFrame.
  - by iDestruct "Ht" as %->.
Qed.
End theorems.

Example parse_sexp_correct_witness :
  let s := bytes_of_string "(a 'b (c) ; d" in
  exists sx h,
    @parse_sexp default_mem (@cached_pool default_mem) (Some (text_block, 0)) 13
      (heap_of (startup s)) = Done sx h /\
    (tree_opt (parse_outcome s).2 sx ∗ g_sexp_errno ↦ (parse_outcome s).1 ∗
     @parser_env default_mem _ cached_pool cached_laws 256 64 (0 + length s + 1) (0 + 2 * length s + 2) ∗
     text_block ↦ ((Det <$> s) ++ [Det 0]))%I h.
Proof.
  intros s. refine (run_triple _ _ _ (startup s) (parse_sexp_correct 256 64 text_block
    ((Det <$> s) ++ [Det 0]) 0 13 s 0 [] 0 0 _ _ _ _ _ _) _ (startup_env s)).
  - by vm_compute.
  - apply startup_text. repeat (constructor; [done|]). constructor.
  - by vm_compute.
  - done.
  - by vm_compute.
  - by vm_compute.
  - apply (bool_decide_unpack _). by vm_compute.
Defined.

Lemma parse_sexp_typed_witness :
  let s := bytes_of_string "(a))" in
  exists sx h,
    @parse_sexp default_mem (@cached_pool default_mem) (Some (text_block, 0)) 4
      (heap_of (startup s)) = Done sx h /\
    (@parser_env default_mem _ cached_pool cached_laws 256 64 (0 + length s + 1) (0 + 2 * length s + 2) ∗
     text_block ↦ ((Det <$> s) ++ [Det 0]) ∗
     ∃ err, g_sexp_errno ↦ err ∗
       match sx with
       | Some l => ∃ t, tree_at t l None ∗
           ⌈err = SEXP_ERR_OK /\ textual t = true /\ (tree_size t <= S (length s))%nat⌉
       | None => ⌈err <> SEXP_ERR_OK⌉
       end)%I h.
Proof.
  intros s. refine (run_triple _ _ _ (startup s) (parse_sexp_typed 256 64 text_block
    ((Det <$> s) ++ [Det 0]) 0 4 s 0 [] 0 0 _ _ _ _ _ _) _ (startup_env s)).
  - by vm_compute.
  - apply startup_text. repeat (constructor; [done|]). constructor.
  - by vm_compute.
  - done.
  - by vm_compute.
  - by vm_compute.
  - apply (bool_decide_unpack _). by vm_compute.
Defined.
