(* ===== verification/ParserClient.v ===== *)
(** Callers of the parser: a text that arrives in pieces, the expressions of
    a text one after the other, and a text given up in the middle. *)
From S2P Require Import Prelude SexpTypes CMem SepLogic SexpMemory FastStack CLib ElementPool.
From S2P Require Import Trees Sexp Print ParserStates EventParser Parser Machine Simulation.
From S2P Require Import Refinement ParserSpec ParseSexp.

(** ** The callers *)
Section client.
Context {api : MemApi} {pool : PoolApi}.

(** The text comes in two pieces. *)
Definition parse_pieces (t1 : cptr) (len1 : Z) (t2 : cptr) (len2 : Z) : M ptr :=
  cc ← cparse_sexp t1 len1 None;
  cparse_sexp t2 len2 cc.

(** [while ((sx = iparse_sexp (str, len, cc)) != NULL)] with at most [n]
    rounds: it is an error to need more. *)
Fixpoint read_all (n : nat) (str : cptr) (len : Z) (cc : ptr) : M (list ptr) :=
  match n with
  | O => fail OutOfFuel
  | S n =>
      sx ← iparse_sexp str len cc;
      match sx with
      | None => mret []
      | Some _ => r ← read_all n str len cc; mret (sx :: r)
      end
  end.

Definition read_session (n : nat) (str : cptr) (len : Z) : M (list ptr) :=
  cc ← init_continuation str;
  r ← read_all n str len cc;
  destroy_continuation cc;;
  mret r.

(** A parse that is given up wherever it stopped. *)
Definition parse_and_give_up (str : cptr) (len : Z) : M unit :=
  cc ← cparse_sexp str len None;
  c ← load (A := pcont_t) cc;
  sx ← det (pc_last_sexp c);
  destroy_sexp sx;;
  destroy_continuation cc.
End client.

(** ** What they get, by the machine *)

(** The expressions of a text; is the machine defined as far as they are
    read? *)
Fixpoint expressions (n : nat) (a : astate) (s : list Z) : list tree :=
  match n with
  | O => []
  | S n =>
      match arun a s with
      | ARet _ (Some t) a' rest => t :: expressions n a' rest
      | _ => []
      end
  end.

Fixpoint readable (n : nat) (a : astate) (s : list Z) : bool :=
  match n with
  | O => true
  | S n =>
      match arun a s with
      | ARet _ (Some t) a' rest => readable n a' rest
      | AWrong => false
      | _ => true
      end
  end.

Section contract.
Context {api : MemApi} {laws : MemLaws api} {pool : PoolApi} {plaws : PoolLaws api pool}.
Variables (ss gs : Z).
Hypotheses (Hss : 0 < ss) (Hgs : 0 < gs) (Hsz : ss + 2 * gs + 2 ^ 31 < 2 ^ 64).

Lemma wp_parse_pieces lin1 blk1 o1 len1 s1 term1 post1 lin2 blk2 o2 len2 s2 term2 post2
    a1 N m Φ :
  text_at blk1 o1 len1 s1 term1 post1 -> text_at blk2 o2 len2 s2 term2 post2 ->
  arun a_init s1 = AStop a1 -> arun a_init (s1 ++ s2) <> AWrong ->
  Z.of_nat (m + 2 * length (s1 ++ s2)) < int_max ->
  parser_env ss gs N m -∗ errno_own -∗ lin1 ↦ blk1 -∗ lin2 ↦ blk2 -∗
  (∀ cc, lin1 ↦ blk1 -∗
     parsed ss gs cc lin2 blk2 (Some (lin2, o2)) term2 post2 N
       (Z.of_nat (m + 2 * length (s1 ++ s2))) (arun a_init (s1 ++ s2)) -∗ Φ (Some cc)) -∗
  wp (parse_pieces (Some (lin1, o1)) len1 (Some (lin2, o2)) len2) Φ.
Proof.
  iIntros (Ht1 Ht2 H1 H12 Hm) "Henv He Hl1 Hl2 HΦ". unfold parse_pieces. wp_bind_head.
  rewrite length_app in Hm |- *.
  iApply (wp_cparse_new ss gs Hss Hgs Hsz lin1 blk1 o1 len1 s1 term1 post1 N m
    (Z.of_nat (m + 2 * length s1)) with "Henv He Hl1"); [done|congruence|lia|apply budget_start|].
  iIntros (cc) "Hr". rewrite H1. simpl Refinement.parsed.
  iDestruct "Hr" as "(%Hwf & Hcc & Henv & He)".
  iDestruct (parser_env_of_env with "Henv") as (m') "(Henv & %Hb & Hl1)".
  rewrite arun_app in H12 |- *; [|congruence].
  pose proof (arun_texts a_init s1 a_init_texts) as Htx. rewrite H1 in H12 Htx |- *.
  pose proof (texts_mode _ Htx). destruct Htx as (Hin & _).
  pose proof (text_end_ok _ _ _ _ _ _ Ht2). destruct Ht2 as [Hpos2 Hch2 _].
  iApply (wp_cparse_resume ss gs Hss Hgs Hsz cc a1 lin2 blk2 (Some (lin2, o2)) None
    (Some (lin1, o1)) o2 o2 len2 s2 term2 post2 N m' (Z.of_nat (m + 2 * (length s1 + length s2)))
    with "[Hcc] Henv [He] Hl2"); try done.
  { by apply plain_stop_ok. }
  { destruct Hb. split; simpl in *; lia. }
  { by iApply cont_at_ready. }
  { by iExists _. }
  iIntros "Hr". by iApply ("HΦ" with "Hl1").
Qed.

Section reading.
Variables (cc lin : loc) (blk : list (fld Z)) (o len term : Z) (post : list (fld Z))
  (N : nat) (B : Z).
Hypotheses (Hend : end_ok blk term post (o + len)) (HB : B < int_max).

(** What is left when reading stops: a continuation and at most [w] elements
    in it. *)
Definition stopped (w : nat) : hprop :=
  (∃ a lp sb m, cont_ready ss gs cc a lp sb ∗ parser_env ss gs N m ∗ errno_own ∗ lin ↦ blk ∗
     ⌈(stack_size (a_stack a) <= w)%nat /\ Z.of_nat (m + height_of (a_stack a)) <= B⌉)%I.

Lemma stopped_at a err lp sb (e : sexp_errcode_t) rest w :
  (weight a rest <= w)%nat ->
  cont_at ss gs cc a err None lp sb -∗ env ss gs lin blk N B a rest -∗ g_sexp_errno ↦ e -∗
  stopped w.
Proof.
  iIntros (Hw) "Hcc Henv He".
  iDestruct (parser_env_of_env with "Henv") as (m) "(Henv & %Hb & Hl)".
  iExists a, lp, sb, m. iFrame "Henv Hl". iSplitL "Hcc"; [by iApply cont_at_ready|].
  iSplitL; [by iExists _|]. iPureIntro. unfold weight, budget in *. lia.
Qed.

Lemma wp_read_all n : forall a s i lastPos sbuf m Φ,
  match lastPos with
  | Some t => t = (lin, i) /\ sbuf = Some (lin, o)
  | None => i = o
  end ->
  at_pos blk term post i s -> a_wf a -> (ameasure a s < n)%nat -> texts a -> readable n a s = true -> budget B a s m ->
  cont_ready ss gs cc a lastPos sbuf -∗ parser_env ss gs N m -∗ errno_own -∗ lin ↦ blk -∗
  (∀ ps, ([∗ list] t;p ∈ expressions n a s;ps, tree_opt (Some t) p) -∗ stopped (weight a s) -∗
     Φ ps) -∗
  wp (read_all n (Some (lin, o)) len (Some cc)) Φ.
Proof.
  induction n as [|n IH]; intros a s i lastPos sbuf m Φ Htext Hpos Hwf Hn Htx Hr Hb;
    [lia|iIntros "Hcc Henv He Hl HΦ"; cbn [read_all expressions]].
  cbn [readable] in Hr. pose proof (arun_bounded a s) as Hw.
  pose proof (arun_texts a s Htx) as Hty. wp_bind_head.
  iApply (wp_iparse_sexp ss gs Hss Hgs Hsz cc a lin blk (Some (lin, o)) lastPos sbuf o i len s
    term post N m B with "Hcc Henv He Hl"); try done.
  { destruct lastPos; [|done]. by destruct Htext. }
  { destruct Htx as (Hin & Hbin & _). apply plain_stop_ok; [done|by intros _|done]. }
  { by apply texts_mode. }
  { intros Hs. by rewrite Hs in Hr. }
  iIntros (sx) "Ha". destruct (arun a s) as [a'|err t a' rest|] eqn:Hs; [| |done].
  - iDestruct "Ha" as "([%Hwf' ->] & Hcc & Henv & He)". wp_ret.
    iApply ("HΦ" $! [] with "[//]"). by iApply (stopped_at with "Hcc Henv He").
  - iDestruct "Ha" as (i') "([%Hi %Hwf'] & Ht & Hcc & Henv & He)". destruct t as [t|].
    + iDestruct "Ht" as (l) "[-> Ht]". wp_bind_head.
      iDestruct (parser_env_of_env with "Henv") as (m') "(Henv & %Hb' & Hl)".
      iDestruct (cont_at_ready with "Hcc") as "Hcc".
      iApply (IH a' rest i' _ _ m' with "Hcc Henv [He] Hl"); try done.
      { destruct Hty as [-> _]. pose proof (arun_progress _ _ _ _ _ Hs). lia. }
      { by destruct Hty as (_ & _ & ?). }
      { by iExists _. }
      iIntros (ps) "Hps Hst". wp_ret. iApply ("HΦ" $! (Some l :: ps) with "[Ht Hps]").
      { iFrame "Hps". iExists l. by iFrame. }
      iDestruct "Hst" as (a2 lp sb m2) "(Hcc & Henv & He & Hl & %Hst)".
      iExists a2, lp, sb, m2. iFrame. iPureIntro. simpl in Hw. lia.
    + iDestruct "Ht" as %->. wp_ret. iApply ("HΦ" $! [] with "[//]").
      iApply (stopped_at with "Hcc Henv He"). lia.
Qed.
End reading.
End contract.

Section theorems.
Context {api : MemApi} {laws : MemLaws api} {pool : PoolApi} {plaws : PoolLaws api pool}.

(** C15. A first call of [cparse_sexp] does what the machine does on the
    text: it returns a continuation that stands for the machine's state,
    with the expression that was completed, the error code and the place
    in the text where it stopped; after a text that ends inside an
    expression it asks for more. *)
Theorem cparse_sexp_refines ss gs lin blk o len s term post N m :
  params_ok ss gs -> text_at blk o len s term post -> parsable s ->
  Z.of_nat (m + 2 * length s) < int_max ->
  ⦃ parser_env ss gs N m ∗ errno_own ∗ lin ↦ blk ⦄
    cparse_sexp (Some (lin, o)) len None
  ⟪ r, ∃ cc, ⌈r = Some cc⌉ ∗
       parsed ss gs cc lin blk (Some (lin, o)) term post N (Z.of_nat (m + 2 * length s))
         (arun a_init s) ⟫.
Proof.
  intros (Hss & Hgs & Hsz) Ht Hp Hm. iIntros "(Henv & He & Hl)".
  iApply (wp_cparse_new ss gs Hss Hgs Hsz with "Henv He Hl"); [done|done|done|apply budget_start|].
  iIntros (cc) "Hr". iExists cc. by iFrame.
Qed.

(** C6. A text may come in pieces, cut anywhere, inside a string or after a
    backslash included: a second call with the continuation of a call that
    asked for more leaves the continuation as one call with the whole text
    would. *)
Theorem pieces_parse_as_one ss gs lin1 blk1 o1 len1 s1 term1 post1 lin2 blk2 o2 len2 s2
    term2 post2 a1 N m :
  params_ok ss gs -> text_at blk1 o1 len1 s1 term1 post1 -> text_at blk2 o2 len2 s2 term2 post2 ->
  arun a_init s1 = AStop a1 -> parsable (s1 ++ s2) ->
  Z.of_nat (m + 2 * length (s1 ++ s2)) < int_max ->
  ⦃ parser_env ss gs N m ∗ errno_own ∗ lin1 ↦ blk1 ∗ lin2 ↦ blk2 ⦄
    parse_pieces (Some (lin1, o1)) len1 (Some (lin2, o2)) len2
  ⟪ r, lin1 ↦ blk1 ∗ ∃ cc, ⌈r = Some cc⌉ ∗
       parsed ss gs cc lin2 blk2 (Some (lin2, o2)) term2 post2 N
         (Z.of_nat (m + 2 * length (s1 ++ s2))) (arun a_init (s1 ++ s2)) ⟫.
Proof.
  intros (Hss & Hgs & Hsz) Ht1 Ht2 H1 H12 Hm. iIntros "(Henv & He & Hl1 & Hl2)".
  iApply (wp_parse_pieces ss gs Hss Hgs Hsz with "Henv He Hl1 Hl2"); [done..|].
  iIntros (cc) "$ Hr". iExists cc. by iFrame.
Qed.

(** C14. [iparse_sexp] called again and again with the same text gives the
    expressions of the text one after the other, each in memory of its own,
    and then NULL: the loop ends, after no more rounds than four for every
    character.  [destroy_continuation] gives back the rest. *)
Theorem read_session_reads_all ss gs n lin blk o len s term post N m :
  params_ok ss gs -> text_at blk o len s term post -> readable n a_init s = true ->
  (4 * length s + 1 < n)%nat ->
  Z.of_nat (N + length s) <= int_max -> Z.of_nat (m + 2 * length s) < int_max ->
  ⦃ parser_env ss gs N m ∗ errno_own ∗ lin ↦ blk ⦄
    read_session n (Some (lin, o)) len
  ⟪ ps, ([∗ list] t;p ∈ expressions n a_init s;ps, tree_opt (Some t) p) ∗
        parser_env ss gs (N + length s) (m + 2 * length s) ∗ errno_own ∗ lin ↦ blk ⟫.
Proof.
  intros (Hss & Hgs & Hsz) Ht Hr Hn HN Hm. iIntros "((Hmem & Hp & Hs & Hg) & He & Hl)".
  unfold read_session. wp_bind_head.
  iApply (wp_init_continuation_ready ss gs with "Hmem Hs"); [done..|].
  iIntros (cc) "Hcc Hmem Hs". wp_bind_head. pose proof (text_end_ok _ _ _ _ _ _ Ht).
  destruct Ht as [Hpos Hch Hlen].
  iApply (wp_read_all ss gs Hss Hgs Hsz cc lin blk o len term post N
    (Z.of_nat (m + 2 * length s)) with "Hcc [$Hmem $Hp $Hs $Hg] He Hl"); try done.
  { apply budget_start. }
  iIntros (ps) "Hps (%a & %lp & %sb & %m' & Hcc & (Hmem & Hp & Hs) & He & Hl & %Hst)".
  wp_bind_head. unfold weight in Hst. simpl in Hst.
  iApply (wp_destroy_continuation _ ss gs with "Hcc Hp Hmem"); [lia..|]. iIntros "Hp Hmem".
  wp_ret. iFrame. iApply (pool_ok_mono with "Hp"); lia.
Qed.

(** C16. Whatever the text, a parse can be given up where it stopped:
    [destroy_sexp] and [destroy_continuation] release the result, the
    buffer, the stack and every expression that is still open. *)
Theorem parse_given_up_leaks_nothing ss gs lin blk o len s term post N m :
  params_ok ss gs -> text_at blk o len s term post -> parsable s ->
  Z.of_nat (N + length s) <= int_max -> Z.of_nat (m + 2 * length s) < int_max ->
  ⦃ parser_env ss gs N m ∗ errno_own ∗ lin ↦ blk ⦄
    parse_and_give_up (Some (lin, o)) len
  ⟪ _, parser_env ss gs (N + length s) (m + 2 * length s) ∗ errno_own ∗ lin ↦ blk ⟫.
Proof.
  intros (Hss & Hgs & Hsz) Ht Hp HN Hm. iIntros "(Henv & He & Hl)".
  unfold parse_and_give_up. wp_bind_head.
  iApply (wp_cparse_new ss gs Hss Hgs Hsz lin blk o len s term post N m
    (Z.of_nat (m + 2 * length s)) with "Henv He Hl"); [done..|apply budget_start|].
  iIntros (cc) "Hr". pose proof (arun_bounded a_init s) as Hw. unfold parsable in Hp.
  destruct (arun a_init s) as [a|err t a rest|]; [| |done]; simpl Refinement.parsed.
  - iDestruct "Hr" as "(_ & (%s' & %v & %vc & %u & %al & %be & %br & %bd & Hcc & Hbl & Hbuf & Hst) & Henv & He)".
    iDestruct (parser_env_of_env with "Henv") as (m') "((Hmem & Hp & Hs) & %Hb & Hl)".
    unfold weight, budget in *. simpl in Hw, Hb.
    wp_bind_head. iApply (wp_load with "Hcc"). iIntros "Hcc". fields. wp_det. wp_bind_head.
    iApply (wp_destroy_sexp [] with "[//] Hp Hmem"); [simpl; lia|]. iIntros "Hp Hmem".
    simpl. rewrite Nat.add_0_r.
    iApply (wp_destroy_continuation _ ss gs cc a with "[Hcc Hbl Hbuf Hst] Hp Hmem"); [lia..| |].
    { iExists s', v, vc, u, al, _, _, be, br, bd. iFrame. }
    iIntros "Hp Hmem". iFrame "Hl Hmem Hs". iSplitL "Hp"; [|by iExists _].
    iApply (pool_ok_mono with "Hp"); lia.
  - iDestruct "Hr" as (i last) "(_ & (%s' & %v & %vc & %u & %al & %be & %br & %bd & Hcc & Hbl & Hbuf & Hst) & Ht & Henv & He)".
    iDestruct (parser_env_of_env with "Henv") as (m') "((Hmem & Hp & Hs) & %Hb & Hl)".
    unfold weight, budget in *. simpl in Hw.
    wp_bind_head. iApply (wp_load with "Hcc"). iIntros "Hcc". fields. wp_det. wp_bind_head.
    iApply (wp_destroy_sexp (option_list t) with "[Ht] Hp Hmem").
    { destruct t; simpl in *; lia. }
    { destruct t; simpl; [|by iDestruct "Ht" as %->].
      iDestruct "Ht" as (l) "[-> Ht]". iExists l, None. by iFrame. }
    iIntros "Hp Hmem". assert (forest_size (option_list t) = opt_size t) as ->.
    { destruct t; simpl; lia. }
    iApply (wp_destroy_continuation _ ss gs cc a with "[Hcc Hbl Hbuf Hst] Hp Hmem"); [lia..| |].
    { iExists s', v, vc, u, al, _, _, be, br, bd. iFrame. }
    iIntros "Hp Hmem". iFrame "Hl Hmem Hs". iSplitL "Hp"; [|by iExists _].
    iApply (pool_ok_mono with "Hp"); lia.
Qed.
End theorems.

#[local] Existing Instances default_mem cached_pool.

Lemma cparse_sexp_refines_witness :
  let s := bytes_of_string "(a 'b" in
  exists r h,
    cparse_sexp (Some (text_block, 0)) 5 None (heap_of (startup s)) = Done r h /\
    (∃ cc, ⌈r = Some cc⌉ ∗
       parsed 256 64 cc text_block ((Det <$> s) ++ [Det 0]) (Some (text_block, 0)) 0 [] 0
         (Z.of_nat (0 + 2 * length s)) (arun a_init s))%I h.
Proof.
  intros s. refine (run_triple _ _ _ (startup s) (cparse_sexp_refines 256 64 text_block
    ((Det <$> s) ++ [Det 0]) 0 5 s 0 [] 0 0 _ _ _ _) _ (startup_env s)).
  - by vm_compute.
  - apply (startup_text s). repeat (constructor; [done|]). constructor.
  - by vm_compute.
  - by vm_compute.
  - apply (bool_decide_unpack _). by vm_compute.
Defined.

(** The cut is inside a string, after a backslash. *)
Lemma pieces_parse_as_one_witness :
  let s1 := bytes_of_string "(a" ++ [32; 34; 98; 92] in
  let s2 := [34; 34] ++ bytes_of_string ")" in
  exists r h,
    parse_pieces (Some (text_block, 0)) 6 (Some (65%positive, 0)) 3
      (heap_of ((65%positive, CChars ((Det <$> s2) ++ [Det 0])) :: startup s1)) = Done r h /\
    (text_block ↦ ((Det <$> s1) ++ [Det 0]) ∗ ∃ cc, ⌈r = Some cc⌉ ∗
       parsed 256 64 cc 65 ((Det <$> s2) ++ [Det 0]) (Some (65%positive, 0)) 0 [] 0
         (Z.of_nat (0 + 2 * length (s1 ++ s2))) (arun a_init (s1 ++ s2)))%I h.
Proof.
  intros s1 s2. refine (run_triple _ _ _ ((65%positive, CChars ((Det <$> s2) ++ [Det 0])) ::
    startup s1) (pieces_parse_as_one 256 64 text_block
    ((Det <$> s1) ++ [Det 0]) 0 6 s1 0 [] 65 ((Det <$> s2) ++ [Det 0]) 0 3 s2 0 [] _ 0 0
    _ _ _ _ _ _) _ _).
  - by vm_compute.
  - apply (startup_text s1). repeat (constructor; [done|]). constructor.
  - apply (startup_text s2). repeat (constructor; [done|]). constructor.
  - vm_compute. reflexivity.
  - by vm_compute.
  - by vm_compute.
  - apply (bool_decide_unpack _). by vm_compute.
  - iIntros "[H Hs]". iDestruct (startup_env with "Hs") as "($ & $ & $)". iExact "H".
Defined.

Lemma read_session_reads_all_witness :
  let s := bytes_of_string "(a) b '(c ) d" in
  exists ps h,
    read_session 60 (Some (text_block, 0)) 13 (heap_of (startup s)) = Done ps h /\
    (([∗ list] t;p ∈ expressions 60 a_init s;ps, tree_opt (Some t) p) ∗
     parser_env 256 64 (0 + length s) (0 + 2 * length s) ∗ errno_own ∗
     text_block ↦ ((Det <$> s) ++ [Det 0]))%I h.
Proof.
  intros s. refine (run_triple _ _ _ (startup s) (read_session_reads_all 256 64 60 text_block
    ((Det <$> s) ++ [Det 0]) 0 13 s 0 [] 0 0 _ _ _ _ _ _) _ (startup_env s)).
  - by vm_compute.
  - apply (startup_text s). repeat (constructor; [done|]). constructor.
  - by vm_compute.
  - simpl. lia.
  - by vm_compute.
  - by vm_compute.
  - apply (bool_decide_unpack _). by vm_compute.
Defined.

Lemma parse_given_up_leaks_nothing_witness :
  let s := bytes_of_string "(a (b '(c" in
  exists r h,
    parse_and_give_up (Some (text_block, 0)) 9 (heap_of (startup s)) = Done r h /\
    (parser_env 256 64 (0 + length s) (0 + 2 * length s) ∗ errno_own ∗
     text_block ↦ ((Det <$> s) ++ [Det 0]))%I h.
Proof.
  intros s. refine (run_triple _ _ _ (startup s) (parse_given_up_leaks_nothing 256 64 text_block
    ((Det <$> s) ++ [Det 0]) 0 9 s 0 [] 0 0 _ _ _ _ _) _ (startup_env s)).
  - by vm_compute.
  - apply (startup_text s). repeat (constructor; [done|]). constructor.
  - by vm_compute.
  - by vm_compute.
  - by vm_compute.
  - apply (bool_decide_unpack _). by vm_compute.
Defined.
