(* ===== verification/IoSpec.v ===== *)
(** What [read_one_sexp] gives for a file that arrives in pieces, and that
    [destroy_iowrap] releases what reading left behind. *)
From S2P Require Import Prelude SexpTypes CMem SepLogic SexpMemory FastStack CLib ElementPool.
From S2P Require Import Trees Sexp Print ParserStates EventParser Parser Machine Events Simulation.
From S2P Require Import Refinement ParserSpec ParseSexp Io.

(** ** The caller *)
Section client.
Context {api : MemApi} {pool : PoolApi}.

(** [while ((sx = read_one_sexp (iow)) != NULL)] *)
Fixpoint read_on (n : nat) (iow : ptr) : M (list ptr) :=
  match n with
  | O => fail OutOfFuel
  | S n =>
      sx ← read_one_sexp iow;
      match sx with
      | None => mret []
      | Some _ => r ← read_on n iow; mret (sx :: r)
      end
  end.

Definition read_file (n : nat) (fd : Z) : M (list ptr) :=
  iow ← init_iowrap fd;
  r ← read_on n iow;
  destroy_iowrap iow;;
  mret r.
End client.

(** ** What it gets, by the machine *)

(** The next expression after a refill, with the machine behind it, the rest
    of the buffer and the reads to come: the piece has to complete it. *)
Definition next_fill (a : astate) (chunks : list (list Z)) :
    option (tree * astate * list Z * list (list Z)) :=
  match chunks with
  | [] => None
  | c :: cs =>
      match arun a c with
      | ARet _ (Some t) a' rest => Some (t, a', rest, cs)
      | _ => None
      end
  end.

Definition next_read (a : astate) (rest : option (list Z)) (chunks : list (list Z)) :
    option (tree * astate * list Z * list (list Z)) :=
  match rest with
  | None => next_fill a chunks
  | Some s =>
      match arun a s with
      | ARet _ (Some t) a' rest' => Some (t, a', rest', chunks)
      | AStop a' => next_fill a' chunks
      | _ => None
      end
  end.

Fixpoint file_expressions (n : nat) (a : astate) (rest : option (list Z))
    (chunks : list (list Z)) : list tree :=
  match n with
  | O => []
  | S n =>
      match next_read a rest chunks with
      | Some (t, a', rest', cs) => t :: file_expressions n a' (Some rest') cs
      | None => []
      end
  end.

(** The machine is defined as far as the file is read, and an error inside a
    piece comes in the last one. *)
Definition fill_defined (a : astate) (chunks : list (list Z)) : bool :=
  match chunks with
  | [] => true
  | c :: _ => match arun a c with AWrong => false | _ => true end
  end.
Definition read_defined (a : astate) (rest : option (list Z)) (chunks : list (list Z)) : bool :=
  match rest with
  | None => fill_defined a chunks
  | Some s =>
      match arun a s with
      | AWrong => false
      | ARet _ None _ _ => bool_decide (chunks = [])
      | AStop a' => fill_defined a' chunks
      | _ => true
      end
  end.
Fixpoint file_defined (n : nat) (a : astate) (rest : option (list Z))
    (chunks : list (list Z)) : bool :=
  match n with
  | O => true
  | S n =>
      read_defined a rest chunks &&
      match next_read a rest chunks with
      | Some (_, a', rest', cs) => file_defined n a' (Some rest') cs
      | None => true
      end
  end.

(** What the handlers are told of an expression that is not complete when
    there is nothing more to be had. *)
Definition fill_left (a : astate) (chunks : list (list Z)) : list token :=
  match chunks with
  | [] => open_tokens a
  | c :: _ => match arun a c with AStop a' => open_tokens a' | _ => [] end
  end.
Definition read_left (a : astate) (rest : option (list Z)) (chunks : list (list Z)) : list token :=
  match rest with
  | None => fill_left a chunks
  | Some s => match arun a s with AStop a' => fill_left a' chunks | _ => [] end
  end.

(** A piece: not empty, less than the buffer, and without a NUL. *)
Definition chunk_ok (c : list Z) : Prop :=
  c <> [] /\ Z.of_nat (length c) < BUFSIZ /\ Forall (fun c => c <> 0) c.

Definition total (chunks : list (list Z)) : nat := length (concat chunks).

Lemma total_cons c cs : total (c :: cs) = (length c + total cs)%nat.
Proof. unfold total. simpl. apply length_app. Qed.

(** A bound on the expressions to come. *)
Definition reads_left (a : astate) (rest : option (list Z)) (chunks : list (list Z)) : nat :=
  (match rest with None => 0 | Some s => ameasure a s end +
   4 * total chunks + 4 * length chunks)%nat.

Lemma next_fill_progress a chunks t a' rest cs k :
  texts a -> next_fill a chunks = Some (t, a', rest, cs) ->
  (reads_left a' (Some rest) cs < k + 4 * total chunks + 4 * length chunks)%nat.
Proof.
  intros Ha. destruct chunks as [|c cs']; [done|]. simpl.
  pose proof (arun_texts a c Ha) as Ht.
  destruct (arun a c) as [|err [t'|] a2 r|] eqn:Hr; try done. intros [= -> -> -> ->].
  destruct Ht as [-> _]. pose proof (arun_progress _ _ _ _ _ Hr) as Hp.
  unfold reads_left. rewrite total_cons. unfold ameasure in *. pose proof (pot_le a). simpl. lia.
Qed.

Lemma next_read_progress a rest chunks t a' rest' cs :
  texts a -> next_read a rest chunks = Some (t, a', rest', cs) ->
  (reads_left a' (Some rest') cs < reads_left a rest chunks)%nat.
Proof.
  intros Ha. destruct rest as [s|]; simpl.
  - pose proof (arun_texts a s Ha) as Ht.
    destruct (arun a s) as [a2|err [t'|] a2 r|] eqn:Hr; try done.
    + intros Hf. apply (next_fill_progress _ _ _ _ _ _ (ameasure a s) Ht) in Hf.
      unfold reads_left at 2. lia.
    + intros [= -> -> -> ->]. destruct Ht as [-> _].
      pose proof (arun_progress _ _ _ _ _ Hr). unfold reads_left. lia.
  - intros Hf. apply (next_fill_progress _ _ _ _ _ _ 0 Ha) in Hf. unfold reads_left at 2. lia.
Qed.

Lemma next_read_chunks a rest chunks t a' rest' cs :
  next_read a rest chunks = Some (t, a', rest', cs) ->
  Forall chunk_ok chunks -> Forall chunk_ok cs.
Proof.
  assert (forall a0, next_fill a0 chunks = Some (t, a', rest', cs) ->
    Forall chunk_ok chunks -> Forall chunk_ok cs) as Hfill.
  { intros a0. destruct chunks as [|c cs']; [done|]. simpl.
    destruct (arun a0 c) as [|? [?|] ? ?|]; try done. intros [= _ _ _ ->] [_ ?]%Forall_cons. done. }
  destruct rest as [s|]; simpl; [|apply Hfill].
  destruct (arun a s) as [a2|? [?|] ? ?|]; try done; [apply Hfill|]. by intros [= _ _ _ ->].
Qed.

Section reader.
Context {api : MemApi} {laws : MemLaws api} {pool : PoolApi} {plaws : PoolLaws api pool}.
Variables (ss gs : Z).
Hypotheses (Hss : 0 < ss) (Hgs : 0 < gs) (Hsz : ss + 2 * gs + 2 ^ 31 < 2 ^ 64).
Variables (iow buf : loc) (fd : Z) (N : nat) (B : Z).
Hypothesis (HB : B < int_max).

(** The wrapper, its buffer and the file. *)
Definition wrapper (p : ptr) (cnt : Z) (bs : list Z) (chunks : list (list Z)) : hprop :=
  (iow ↦ mk_iowrap p fd buf cnt ∗ buf ↦ (Det <$> bs) ∗ g_reads ↦ (Some <$> chunks))%I.

(** A piece is read to the start of the buffer. *)
Definition refilled (c bs : list Z) : list Z := c ++ drop (length c) bs.

Lemma refilled_length c bs :
  Z.of_nat (length bs) = BUFSIZ -> chunk_ok c -> Z.of_nat (length (refilled c bs)) = BUFSIZ.
Proof. intros Hbs (_ & Hc & _). unfold refilled. rewrite length_app length_drop. lia. Qed.

(** What follows a piece in the buffer is what was there before. *)
Lemma refilled_text c bs :
  Z.of_nat (length bs) = BUFSIZ -> chunk_ok c ->
  exists term post, text_at (Det <$> refilled c bs) 0 (Z.of_nat (length c)) c term post.
Proof.
  intros Hbs (_ & Hc & Hch). unfold refilled.
  destruct (drop (length c) bs) as [|x post] eqn:Hd.
  { apply (f_equal length) in Hd. rewrite length_drop /= in Hd. lia. }
  exists x, (Det <$> post). split; [|done|by left]. split; [done|].
  by rewrite fmap_app.
Qed.

Lemma wp_refill p cnt bs chunks Φ :
  Z.of_nat (length bs) = BUFSIZ -> Forall chunk_ok chunks ->
  wrapper p cnt bs chunks -∗
  match chunks with
  | [] => wrapper p 0 bs [] -∗ Φ 0
  | c :: cs =>
      wrapper p (Z.of_nat (length c)) (refilled c bs) cs -∗ Φ (Z.of_nat (length c))
  end -∗
  wp (refill (Some iow)) Φ.
Proof.
  iIntros (Hbs Hok) "(Hi & Hb & Hr) HΦ". unfold refill. wp_bind_head.
  iApply (wp_load with "Hi"). iIntros "Hi". fields. wp_bind_head. unfold read_fd.
  wp_bind_head. iApply (wp_gget with "Hr"). iIntros "Hr". destruct chunks as [|c cs]; simpl.
  - iApply wp_ret. wp_bind_head. iApply (wp_modify with "Hi"). iIntros "Hi". iApply wp_ret.
    iApply "HΦ". iFrame.
  - apply Forall_cons in Hok as [(Hc0 & Hc & _) _].
    wp_bind_head. iApply (wp_gset with "Hr"). iIntros "Hr".
    rewrite take_ge; [|lia]. wp_bind_head. iApply (wp_store_bytes with "Hb").
    { apply splice_start. rewrite !length_fmap. lia. }
    iIntros "Hb". iApply wp_ret. unfold BUFSIZ in Hc. rewrite u64_small; [|lia].
    wp_bind_head. iApply (wp_modify with "Hi"). iIntros "Hi". iApply wp_ret.
    iApply "HΦ". iFrame. unfold refilled. by rewrite length_fmap fmap_app fmap_drop.
Qed.

(** Between two calls there is a rest to be parsed; nothing is open, and
    [h] are the handlers, if there are any. *)
Definition pending (h : watch) (w : nat) (a : astate) (rest : list Z) (chunks : list (list Z)) : hprop :=
  (∃ cc bs i term post cnt m,
     ⌈Z.of_nat (length bs) = BUFSIZ /\ at_pos (Det <$> bs) term post i rest /\
      end_ok (Det <$> bs) term post (0 + cnt) /\
      a_wf a /\ texts a /\ budget (B - Z.of_nat (2 * total chunks)) a rest m /\
      (weight a rest + total chunks <= w)%nat /\ open_tokens a = []⌉ ∗
     wrapper (Some cc) cnt bs chunks ∗
     ready_with (watch_ptr h) ss gs cc a (Some (buf, i)) (Some (buf, 0)) ∗
     watch_at h [] ∗ parser_env ss gs N m ∗ errno_own)%I.

(** The continuation when the buffer is used up. *)
Definition cc_for (h : watch) (p : ptr) (a : astate) (lastPos : cptr) : hprop :=
  match p with
  | None => ⌈a = a_init /\ h = Unwatched⌉
  | Some cc => ∃ sb, ready_with (watch_ptr h) ss gs cc a lastPos sb
  end%I.

Definition used_up (h : watch) (w : nat) (a : astate) (lp : cptr) (chunks : list (list Z)) : hprop :=
  (∃ p bs m,
     ⌈Z.of_nat (length bs) = BUFSIZ /\ a_wf a /\ texts a /\
      budget (B - Z.of_nat (2 * total chunks)) a [] m /\
      (weight a [] + total chunks <= w)%nat⌉ ∗
     wrapper p 0 bs chunks ∗ cc_for h p a lp ∗ watch_at h (open_tokens a) ∗
     parser_env ss gs N m ∗ errno_own)%I.

(** The file is not read further. *)
Definition closed (h : watch) (w : nat) : hprop :=
  (∃ p cnt bs chunks a lp m,
     ⌈(stack_size (a_stack a) <= w)%nat /\ Z.of_nat (m + height_of (a_stack a)) <= B⌉ ∗
     wrapper p cnt bs chunks ∗ cc_for h p a lp ∗ parser_env ss gs N m ∗ errno_own)%I.

Lemma closed_mono h w w' : (w <= w')%nat -> closed h w ⊢ closed h w'.
Proof.
  iIntros (Hw) "(%p & %cnt & %bs & %chunks & %a & %lp & %m & %H & Hc)".
  iExists p, cnt, bs, chunks, a, lp, m. iFrame. iPureIntro. lia.
Qed.

(** The answer to a call: [w] counts the elements that are to come. *)
Definition read_answer (h : watch) (w : nat) (left : list token)
    (r : option (tree * astate * list Z * list (list Z))) (sx : ptr) : hprop :=
  match r with
  | Some (t, a, rest, chunks) =>
      ∃ l w', ⌈sx = Some l /\ (tree_size t + w' <= w)%nat⌉ ∗ tree_at t l None ∗
        pending (watch_next h (tokens t)) w' a rest chunks
  | None => ⌈sx = None⌉ ∗ closed h w ∗ watch_at h left
  end%I.

(** An expression is complete: the next one is to be parsed with the same
    handlers. *)
Lemma next_pending h t w a cc bs i term post cnt chunks rest m :
  Z.of_nat (length bs) = BUFSIZ /\ at_pos (Det <$> bs) term post i rest /\
    end_ok (Det <$> bs) term post (0 + cnt) /\
    a_wf a /\ texts a /\ budget (B - Z.of_nat (2 * total chunks)) a rest m /\
    (weight a rest + total chunks <= w)%nat /\ open_tokens a = [] ->
  wrapper (Some cc) cnt bs chunks -∗
  ready_with (watch_ptr h) ss gs cc a (Some (buf, i)) (Some (buf, 0)) -∗
  watch_at h (tokens t) -∗ parser_env ss gs N m -∗ errno_own -∗
  pending (watch_next h (tokens t)) w a rest chunks.
Proof.
  iIntros (H) "Hwr Hcc Hw Henv He". iExists cc, bs, i, term, post, cnt, m.
  rewrite watch_ptr_next watch_at_next app_nil_r. by iFrame.
Qed.

(** The call that parses a buffer with a new piece. *)
Lemma wp_parse_buffer h p a c cs bs m Φ :
  Z.of_nat (length bs) = BUFSIZ -> chunk_ok c -> a_wf a -> texts a -> arun a c <> AWrong ->
  budget (B - Z.of_nat (2 * total (c :: cs))) a [] m ->
  wrapper p (Z.of_nat (length c)) (refilled c bs) cs -∗ cc_for h p a None -∗
  watch_at h (open_tokens a) -∗ parser_env ss gs N m -∗ errno_own -∗
  (∀ cc term post,
     ⌈text_at (Det <$> refilled c bs) 0 (Z.of_nat (length c)) c term post⌉ -∗
     iow ↦ mk_iowrap (Some cc) fd buf (Z.of_nat (length c)) -∗ g_reads ↦ (Some <$> cs) -∗
     watched h ss gs cc buf (Det <$> refilled c bs) (Some (buf, 0)) term post N
       (B - Z.of_nat (2 * total cs)) (arun a c) -∗ Φ (Some cc)) -∗
  wp (parse_buffer (Some iow)) Φ.
Proof.
  iIntros (Hbs Hok Hwf Htx Hr Hb) "(Hi & Hbuf & Hreads) Hcc Hw Henv He HΦ".
  destruct (refilled_text c bs Hbs Hok) as (term & post & Ht).
  unfold parse_buffer. wp_bind_head. iApply (wp_load with "Hi"). iIntros "Hi". fields.
  rewrite total_cons in Hb. wp_bind_head.
  assert (budget (B - Z.of_nat (2 * total cs)) a c m) as Hb'.
  { unfold budget in *. simpl in Hb. lia. }
  iAssert (∀ cc, watched h ss gs cc buf (Det <$> refilled c bs) (Some (buf, 0)) term post N
       (B - Z.of_nat (2 * total cs)) (arun a c) -∗
     wp (modify (Some iow) (fun w : sexp_iowrap_t => w <| iow_cc := Some cc |>);;
         mret (Some cc)) Φ)%I
    with "[Hi Hreads HΦ]" as "HΦ".
  { iIntros (cc) "Hr". wp_bind_head. iApply (wp_modify with "Hi"). iIntros "Hi". fields.
    iApply wp_ret. by iApply ("HΦ" with "[] Hi Hreads Hr"). }
  destruct p as [cc|]; simpl cc_for.
  - iDestruct "Hcc" as (sb) "Hcc". pose proof (text_end_ok _ _ _ _ _ _ Ht).
    destruct Ht as [Hpos Hch _]. pose proof (texts_mode _ Htx). destruct Htx as (Hin & _).
    iApply (wp_cparse_watched ss gs Hss Hgs Hsz h cc a buf _ (Some (buf, 0)) None sb 0 0
      _ c term post N m (B - Z.of_nat (2 * total cs)) with "Hcc Hw Henv He Hbuf"); try done;
      [by apply plain_stop_ok|lia].
  - iDestruct "Hcc" as %[-> ->].
    iApply (wp_cparse_new ss gs Hss Hgs Hsz buf _ 0 _ c term post N m
      (B - Z.of_nat (2 * total cs)) with "Henv He Hbuf"); try done; [lia|].
    iIntros (cc) "Hr". iApply "HΦ". by iApply (parsed_unwatched with "Hw").
Qed.

(** The loop of [read_one_sexp] ends in its first round. *)
Lemma wp_read_body eh cc a err last lp sb cnt (x : option ptr) Φ :
  err <> SEXP_ERR_OK \/ last <> None ->
  iow ↦ mk_iowrap (Some cc) fd buf cnt -∗ cont_with eh ss gs cc a err last lp sb -∗ errno_own -∗
  (iow ↦ mk_iowrap (Some cc) fd buf cnt -∗ cont_with eh ss gs cc a err last lp sb -∗ errno_own -∗
   Φ (inr (match last with None => Some None | Some _ => None end))) -∗
  wp (read_body (Some iow) x) Φ.
Proof.
  iIntros (Herr) "Hi (%s & %v & %vc & %u & %al & %be & %br & %bd & Hcc & Hbl & Hb & Hst) He HΦ". unfold read_body.
  wp_bind_head. iApply (wp_load with "Hi"). iIntros "Hi". fields. wp_bind_head.
  iApply (wp_load with "Hcc"). iIntros "Hcc". fields. wp_det. destruct last as [l|].
  - iApply wp_ret. iApply ("HΦ" with "Hi [-He] He"). iExists s, v, vc, u, al, be, br, bd. iFrame.
  - wp_det. destruct Herr as [Herr|]; [|done]. rewrite bool_decide_eq_false_2 //.
    wp_bind_head. iApply (wp_set_errno with "He"). iIntros "He". iApply wp_ret.
    iApply ("HΦ" with "Hi [-He] [He]"); [|by iExists _]. iExists s, v, vc, u, al, be, br, bd. iFrame.
Qed.

Lemma wp_take_last eh cc a err last lp sb Φ :
  cont_with eh ss gs cc a err last lp sb -∗
  (ready_with eh ss gs cc a lp sb -∗ Φ last) -∗ wp (take_last (Some cc)) Φ.
Proof.
  iIntros "(%s & %v & %vc & %u & %al & %be & %br & %bd & Hcc & Hbl & Hb & Hst) HΦ". unfold take_last.
  wp_bind_head. iApply (wp_load with "Hcc"). iIntros "Hcc". fields. wp_det.
  destruct last as [l|].
  - wp_bind_head. iApply (wp_modify with "Hcc"). iIntros "Hcc". fields. iApply wp_ret.
    iApply "HΦ". iExists s, v, vc, u, al, _, _, be, br, bd. iFrame.
  - iApply wp_ret. iApply "HΦ". iExists s, v, vc, u, al, _, _, be, br, bd. iFrame.
Qed.

(** The second half of [read_one_sexp], from [parse_buffer] on. *)
Lemma wp_read_more h p a c cs bs m w Φ :
  Z.of_nat (length bs) = BUFSIZ -> chunk_ok c -> a_wf a -> texts a -> arun a c <> AWrong ->
  budget (B - Z.of_nat (2 * total (c :: cs))) a [] m -> (weight a c + total cs <= w)%nat ->
  wrapper p (Z.of_nat (length c)) (refilled c bs) cs -∗ cc_for h p a None -∗
  watch_at h (open_tokens a) -∗ parser_env ss gs N m -∗ errno_own -∗
  (∀ sx, read_answer h w (fill_left a (c :: cs)) (next_fill a (c :: cs)) sx -∗ Φ sx) -∗
  wp (read_more (Some iow)) Φ.
Proof.
  iIntros (Hbs Hok Hwf Htx Hr Hb Hw) "Hwr Hcc Hh Henv He HΦ". unfold read_more. wp_bind_head.
  iApply (wp_parse_buffer with "Hwr Hcc Hh Henv He"); [done..|].
  iIntros (cc term post) "%Ht Hi Hreads Hp". wp_bind_head. unfold reads_fuel. wp_bind_head.
  iApply (wp_gget with "Hreads"). iIntros "Hreads". wp_ret. cbn [while].
  pose proof (arun_texts a c Htx) as Hty. pose proof (arun_bounded a c) as Hbd.
  simpl next_fill. simpl fill_left.
  destruct (arun a c) as [a'|err t a' rest|] eqn:Hrun; [| |done]; simpl watched.
  - iDestruct "Hp" as "(%Hwf' & Hcc & Hh & Henv & He)".
    iDestruct (parser_env_of_env with "Henv") as (m') "(Henv & %Hb' & Hbuf)". wp_bind_head.
    iApply (wp_read_body with "Hi Hcc [He]"); [by left|by iExists _|]. iIntros "Hi Hcc He".
    iApply wp_ret. wp_ret. iApply ("HΦ" $! None). iSplit; [done|]. iFrame "Hh".
    iDestruct (cont_at_ready with "Hcc") as "Hcc".
    iExists (Some cc), _, _, cs, a', None, m'. iFrame.
    iPureIntro. unfold weight, budget in *. lia.
  - iDestruct "Hp" as (i last) "((%Hpos & %Hwf') & Hcc & Ht & Hh & Henv & He)".
    pose proof (arun_idle _ _ _ _ _ _ Hrun) as Hidle.
    iDestruct (parser_env_of_env with "Henv") as (m') "(Henv & %Hb' & Hbuf)". wp_bind_head.
    destruct t as [t|].
    + iDestruct "Ht" as (l) "[-> Ht]".
      iApply (wp_read_body with "Hi Hcc [He]"); [by right|by iExists _|]. iIntros "Hi Hcc He".
      iApply wp_ret. wp_bind_head. iApply (wp_load with "Hi"). iIntros "Hi". fields.
      iApply (wp_take_last with "Hcc"). iIntros "Hcc". iApply ("HΦ" $! (Some l)).
      iExists l, (weight a' rest + total cs)%nat. iFrame "Ht". simpl in Hbd.
      iSplit; [iPureIntro; split; [done|lia]|].
      iApply (next_pending h t _ a' cc _ i term post with "[$Hi $Hbuf $Hreads] Hcc Hh Henv [He]");
        [|done].
      destruct Hty as (_ & _ & Htx'). split_and!; try done.
      * by apply refilled_length.
      * by apply (text_end_ok _ _ _ _ _ _ Ht).
    + iDestruct "Ht" as %->. destruct Hty as (Herr & _).
      iApply (wp_read_body with "Hi Hcc [He]"); [by left|by iExists _|]. iIntros "Hi Hcc He".
      iApply wp_ret. wp_ret. iApply ("HΦ" $! None). iSplit; [done|]. iFrame "Hh".
      iDestruct (cont_at_ready with "Hcc") as "Hcc".
      iExists (Some cc), _, _, cs, a', (Some (buf, i)), m'.
      iFrame "Hi Hbuf Hreads Henv He".
      iSplit; [|by iExists _]. iPureIntro. unfold weight, budget in *. simpl in Hbd. lia.
Qed.

Lemma wp_read_rest h w a lp chunks Φ :
  lp = None \/ chunks = [] -> Forall chunk_ok chunks -> fill_defined a chunks = true ->
  used_up h w a lp chunks -∗
  (∀ sx, read_answer h w (fill_left a chunks) (next_fill a chunks) sx -∗ Φ sx) -∗
  wp (read_rest (Some iow)) Φ.
Proof.
  iIntros (Hlp Hok Hdef) "(%p & %bs & %m & %H & (Hi & Hbuf & Hreads) & Hcc & Hh & Henv & He) HΦ".
  destruct H as (Hbs & Hwf & Htx & Hb & Hw). unfold read_rest. wp_bind_head.
  iApply (wp_load with "Hi"). iIntros "Hi". fields. rewrite Z.eqb_refl. wp_bind_head.
  iApply (wp_refill with "[$Hi $Hbuf $Hreads]"); [done..|]. destruct chunks as [|c cs].
  - iIntros "Hwr". rewrite Z.eqb_refl. wp_bind_head. iApply (wp_set_errno with "He").
    iIntros "He". wp_ret. iApply ("HΦ" $! None). iSplit; [done|]. iFrame "Hh".
    iExists p, 0, bs, [], a, lp, m. iFrame "Hwr Hcc Henv". iSplit; [|by iExists _].
    iPureIntro. unfold weight, budget in *. lia.
  - iIntros "Hwr". destruct Hlp as [->|]; [|done]. apply Forall_cons in Hok as [Hc Hcs].
    assert (c <> []) by by destruct Hc. destruct (Z.eqb_spec (Z.of_nat (length c)) 0).
    { by destruct c. }
    simpl in Hdef. rewrite total_cons in Hw.
    iApply (wp_read_more with "Hwr Hcc Hh Henv He HΦ"); [done..| | |].
    + by destruct (arun a c).
    + done.
    + unfold weight in *. simpl in Hw. lia.
Qed.

Lemma wp_read_one h w a rest chunks Φ :
  Forall chunk_ok chunks -> read_defined a (Some rest) chunks = true ->
  pending h w a rest chunks -∗
  (∀ sx, read_answer h w (read_left a (Some rest) chunks) (next_read a (Some rest) chunks) sx -∗
     Φ sx) -∗
  wp (read_one_sexp (Some iow)) Φ.
Proof.
  iIntros (Hok Hdef) "(%cc & %bs & %i & %term & %post & %cnt & %m & %H & (Hi & Hbuf & Hreads) & Hcc & Hh & Henv & He) HΦ".
  destruct H as (Hbs & Hpos & Hend & Hwf & Htx & Hb & Hw & Hidle). rewrite -Hidle. clear Hidle.
  unfold read_one_sexp. wp_bind_head. iApply (wp_load with "Hi"). iIntros "Hi". fields.
  iDestruct "Hcc" as (s v vc u al last err be br bd) "(Hcc & Hbl & Hb & Hst)". wp_bind_head. wp_bind_head.
  iApply (wp_load with "Hcc"). iIntros "Hcc". fields. wp_ret.
  rewrite (bool_decide_eq_false_2 (Some _ = None)) //. simpl negb. cbv iota.
  wp_bind_head. unfold parse_buffer. wp_bind_head. iApply (wp_load with "Hi"). iIntros "Hi". fields.
  wp_bind_head.
  iApply (wp_cparse_watched ss gs Hss Hgs Hsz h cc a buf _ (Some (buf, 0)) (Some (buf, i))
    (Some (buf, 0)) 0 i cnt rest term post N m (B - Z.of_nat (2 * total chunks))
    with "[Hcc Hbl Hb Hst] Hh Henv He Hbuf"); try done; [| | |lia| |].
  { destruct Htx as (Hin & Hbin & _). apply plain_stop_ok; [done|by intros _|done]. }
  { by apply texts_mode. }
  { simpl in Hdef. by destruct (arun a rest). }
  { iExists s, v, vc, u, al, last, err, be, br, bd. iFrame. }
  iIntros "Hp". wp_bind_head. iApply (wp_modify with "Hi"). iIntros "Hi". fields. wp_ret.
  pose proof (arun_texts a rest Htx) as Hty. pose proof (arun_bounded a rest) as Hbd.
  simpl in Hdef. simpl next_read. simpl read_left. wp_bind_head.
  destruct (arun a rest) as [a'|err' t a' rest'|] eqn:Hrun; [| |done]; simpl watched.
  - iDestruct "Hp" as "(%Hwf' & Hcc & Hh & Henv & He)".
    iDestruct (parser_env_of_env with "Henv") as (m') "(Henv & %Hb' & Hbuf)".
    iApply (wp_take_last with "Hcc"). iIntros "Hcc". wp_bind_head.
    iApply (wp_modify with "Hi"). iIntros "Hi". fields.
    iApply (wp_read_rest h w a' None chunks with "[Hi Hbuf Hreads Hcc Hh Henv He] HΦ");
      [by left|done|done|].
    iExists (Some cc), bs, m'. iFrame "Hi Hbuf Hreads Hh Henv". iSplit.
    { iPureIntro. split_and!; try done. lia. }
    iSplitL "Hcc"; by iExists _.
  - iDestruct "Hp" as (i' last') "((%Hpos' & %Hwf') & Hcc & Ht & Hh & Henv & He)".
    pose proof (arun_idle _ _ _ _ _ _ Hrun) as Hidle.
    iDestruct (parser_env_of_env with "Henv") as (m') "(Henv & %Hb' & Hbuf)".
    iApply (wp_take_last with "Hcc"). iIntros "Hcc". destruct t as [t|].
    + iDestruct "Ht" as (l) "[-> Ht]". iApply wp_ret. iApply ("HΦ" $! (Some l)).
      iExists l, (weight a' rest' + total chunks)%nat. iFrame "Ht". simpl in Hbd.
      iSplit; [iPureIntro; split; [done|lia]|].
      iApply (next_pending h t _ a' cc _ i' term post with "[$Hi $Hbuf $Hreads] Hcc Hh Henv [He]");
        [|by iExists _].
      destruct Hty as (_ & _ & Htx'). split_and!; try done.
    + iDestruct "Ht" as %->. apply bool_decide_eq_true_1 in Hdef as ->. wp_bind_head.
      iApply (wp_modify with "Hi"). iIntros "Hi". fields.
      iApply (wp_read_rest h w a' (Some (buf, i')) [] with "[Hi Hbuf Hreads Hcc Hh Henv He] [HΦ]");
        [by right|done|done| |by rewrite /= Hidle].
      iExists (Some cc), bs, m'. rewrite Hidle. iFrame "Hi Hbuf Hreads Hh Henv". iSplit.
      { iPureIntro. destruct Hty as (_ & _ & Htx'). unfold budget, weight in *. simpl in *.
        split_and!; try done; lia. }
      iSplitL "Hcc"; by iExists _.
Qed.

Lemma pending_texts h w a rest chunks : pending h w a rest chunks ⊢ ⌜texts a⌝.
Proof. by iIntros "(% & % & % & % & % & % & % & (_ & _ & _ & _ & % & _) & _)". Qed.

Lemma wp_read_on_pending n : forall w a rest chunks Φ,
  Forall chunk_ok chunks -> file_defined n a (Some rest) chunks = true ->
  (reads_left a (Some rest) chunks < n)%nat ->
  pending Unwatched w a rest chunks -∗
  (∀ ps, ([∗ list] t;p ∈ file_expressions n a (Some rest) chunks;ps, tree_opt (Some t) p) -∗
     closed Unwatched w -∗ Φ ps) -∗
  wp (read_on n (Some iow)) Φ.
Proof.
  induction n as [|n IH]; intros w a rest chunks Φ Hok Hdef Hn; [lia|]. iIntros "Hp HΦ".
  iDestruct (pending_texts with "Hp") as %Htx. cbn [read_on file_expressions].
  cbn [file_defined] in Hdef. apply andb_true_iff in Hdef as [Hdef Hnext]. wp_bind_head.
  iApply (wp_read_one with "Hp"); [done..|]. iIntros (sx) "Ha".
  destruct (next_read a (Some rest) chunks) as [[[[t a'] rest'] cs]|] eqn:Hr; simpl read_answer.
  - iDestruct "Ha" as (l w') "(%H & Ht & Hp)". destruct H as [-> Hw']. wp_bind_head.
    pose proof (next_read_progress _ _ _ _ _ _ _ Htx Hr).
    iApply (IH with "Hp"); [by eapply next_read_chunks|done|lia|].
    iIntros (ps) "Hps Hc". iDestruct (closed_mono _ w' w with "Hc") as "Hc"; [lia|].
    wp_ret. iApply ("HΦ" $! (Some l :: ps) with "[Ht Hps] Hc").
    iFrame "Hps". iExists l. by iFrame.
  - iDestruct "Ha" as "(-> & Hc & _)". wp_ret. by iApply ("HΦ" $! [] with "[//]").
Qed.

(** A call with nothing to be parsed reads on. *)
Lemma wp_read_used_up h w a chunks Φ :
  Forall chunk_ok chunks -> fill_defined a chunks = true ->
  used_up h w a None chunks -∗
  (∀ sx, read_answer h w (fill_left a chunks) (next_fill a chunks) sx -∗ Φ sx) -∗
  wp (read_one_sexp (Some iow)) Φ.
Proof.
  iIntros (Hok Hdef) "(%p & %bs & %m & %H & (Hi & Hbuf & Hreads) & Hcc & Hrest) HΦ".
  unfold read_one_sexp. wp_bind_head. iApply (wp_load with "Hi"). iIntros "Hi". fields.
  destruct p as [cc|]; simpl cc_for.
  - iDestruct "Hcc" as (sb s v vc u al last err be br bd) "(Hcc & Hc)". wp_bind_head.
    wp_bind_head. iApply (wp_load with "Hcc"). iIntros "Hcc". fields. wp_ret.
    rewrite bool_decide_eq_true_2 //. cbv iota beta.
    iApply (wp_read_rest h w a None chunks with "[-HΦ] HΦ"); [by left|done|done|].
    iExists (Some cc), bs, m. iFrame "Hi Hbuf Hreads Hrest". iSplit; [done|].
    iExists sb, s, v, vc, u, al, last, err, be, br, bd. iFrame.
  - wp_ret. cbv iota.
    iApply (wp_read_rest h w a None chunks with "[-HΦ] HΦ"); [by left|done|done|].
    iExists None, bs, m. by iFrame.
Qed.

(** The first call makes the continuation. *)
Lemma wp_read_first w bs chunks m Φ :
  Z.of_nat (length bs) = BUFSIZ -> Forall chunk_ok chunks ->
  read_defined a_init None chunks = true -> (2 * Z.of_nat (total chunks) + Z.of_nat m <= B) ->
  (total chunks <= w)%nat ->
  wrapper None 0 bs chunks -∗ parser_env ss gs N m -∗ errno_own -∗
  (∀ sx, read_answer Unwatched w (read_left a_init None chunks) (next_read a_init None chunks) sx -∗
     Φ sx) -∗
  wp (read_one_sexp (Some iow)) Φ.
Proof.
  iIntros (Hbs Hok Hdef Hb Hw) "Hwr Henv He HΦ".
  iApply (wp_read_used_up Unwatched w a_init chunks with "[-HΦ] HΦ"); [done..|].
  iExists None, bs, m. iFrame. iSplit; [|done]. iPureIntro.
  split_and!; [done|done|by constructor| |done]. split; simpl; lia.
Qed.

Lemma wp_read_on w n bs chunks m Φ :
  Z.of_nat (length bs) = BUFSIZ -> Forall chunk_ok chunks ->
  file_defined n a_init None chunks = true -> (reads_left a_init None chunks < n)%nat ->
  2 * Z.of_nat (total chunks) + Z.of_nat m <= B -> (total chunks <= w)%nat ->
  wrapper None 0 bs chunks -∗ parser_env ss gs N m -∗ errno_own -∗
  (∀ ps, ([∗ list] t;p ∈ file_expressions n a_init None chunks;ps, tree_opt (Some t) p) -∗
     closed Unwatched w -∗ Φ ps) -∗
  wp (read_on n (Some iow)) Φ.
Proof.
  iIntros (Hbs Hok Hdef Hn Hb Hw) "Hwr Henv He HΦ". destruct n as [|n]; [lia|].
  cbn [read_on file_expressions file_defined] in *. apply andb_true_iff in Hdef as [Hdef Hnext].
  wp_bind_head. iApply (wp_read_first with "Hwr Henv He"); [done..|]. iIntros (sx) "Ha".
  destruct (next_read a_init None chunks) as [[[[t a'] rest'] cs]|] eqn:Hr; simpl read_answer.
  - iDestruct "Ha" as (l w') "(%H & Ht & Hp)". destruct H as [-> Hw']. wp_bind_head.
    pose proof a_init_texts as Htx.
    pose proof (next_read_progress _ _ _ _ _ _ _ Htx Hr).
    iApply (wp_read_on_pending with "Hp"); [by eapply next_read_chunks|done|lia|].
    iIntros (ps) "Hps Hc". iDestruct (closed_mono _ w' w with "Hc") as "Hc"; [lia|].
    wp_ret. iApply ("HΦ" $! (Some l :: ps) with "[Ht Hps] Hc").
    iFrame "Hps". iExists l. by iFrame.
  - iDestruct "Ha" as "(-> & Hc & _)". wp_ret. by iApply ("HΦ" $! [] with "[//]").
Qed.

Lemma wp_destroy_iowrap h w m' Φ :
  Z.of_nat (N + w) <= int_max -> B <= Z.of_nat m' ->
  closed h w -∗
  (parser_env ss gs (N + w) m' -∗ errno_own -∗ (∃ l, g_reads ↦ (Some <$> l : list (option (list Z)))) -∗
   Φ ()) -∗
  wp (destroy_iowrap (Some iow)) Φ.
Proof.
  iIntros (HN Hm) "(%p & %cnt & %bs & %chunks & %a & %lp & %m & %H & (Hi & Hbuf & Hreads) & Hcc & (Hmem & Hp & Hs) & He) HΦ".
  destruct H as [Hw Hh]. unfold destroy_iowrap. wp_bind_head.
  iApply (wp_load with "Hi"). iIntros "Hi". fields. wp_bind_head.
  iAssert ((pool_ok (N + w) m' -∗ mem_ok -∗ wp (dealloc (Some buf);; sexp_free (Some iow) sizeof_sexp_iowrap_t) Φ))%I
    with "[Hs HΦ Hi Hbuf Hreads He]" as "HΦ".
  { iIntros "Hp Hmem". wp_bind_head. iApply (wp_dealloc with "Hbuf").
    iApply (wp_sexp_free_ok with "Hi Hmem"). iIntros "Hmem".
    iApply ("HΦ" with "[$Hmem $Hp $Hs] He"). by iExists _. }
  destruct p as [cc|]; simpl cc_for.
  - iDestruct "Hcc" as (sb) "Hcc".
    iApply (wp_destroy_continuation _ ss gs with "Hcc Hp Hmem"); [lia..|]. iIntros "Hp Hmem".
    iApply ("HΦ" with "[Hp] Hmem"). iApply (pool_ok_mono with "Hp"); lia.
  - iDestruct "Hcc" as "_". iApply wp_ret. iApply ("HΦ" with "[Hp] Hmem").
    iApply (pool_ok_mono with "Hp"); lia.
Qed.
End reader.

Section theorems.
Context {api : MemApi} {laws : MemLaws api} {pool : PoolApi} {plaws : PoolLaws api pool}.

Lemma wp_init_iowrap fd Φ :
  mem_ok -∗
  (∀ iow buf, iow ↦ mk_iowrap None fd buf 0 -∗
     buf ↦ (Det <$> replicate (Z.to_nat BUFSIZ) 0) -∗ mem_ok -∗ Φ (Some iow)) -∗
  wp (init_iowrap fd) Φ.
Proof.
  iIntros "Hm HΦ". unfold init_iowrap. wp_bind_head. iApply (wp_calloc_ok with "Hm").
  iIntros (iow) "Hi Hm". wp_bind_head. iApply wp_alloc. iIntros (buf) "Hb".
  wp_bind_head. iApply (wp_init with "Hi"). iIntros "Hi". wp_bind_head.
  rewrite -fmap_replicate. destruct (Z.to_nat BUFSIZ) as [|k] eqn:Hk; [unfold BUFSIZ in Hk; lia|].
  iApply (wp_store_char with "Hb"); [done|]. iIntros "Hb". iApply wp_ret.
  iApply ("HΦ" with "Hi Hb Hm").
Qed.

(** C17. The loop over [read_one_sexp] gives the expressions of a file that
    arrives in pieces, and ends; [destroy_iowrap] gives back the rest. *)
Theorem read_file_correct ss gs n fd chunks N m :
  params_ok ss gs -> Forall chunk_ok chunks -> file_defined n a_init None chunks = true ->
  (4 * total chunks + 4 * length chunks < n)%nat ->
  Z.of_nat (N + total chunks) <= int_max -> Z.of_nat (m + 2 * total chunks) < int_max ->
  ⦃ parser_env ss gs N m ∗ errno_own ∗ g_reads ↦ (Some <$> chunks : list (option (list Z))) ⦄
    read_file n fd
  ⟪ ps, ([∗ list] t;p ∈ file_expressions n a_init None chunks;ps, tree_opt (Some t) p) ∗
        parser_env ss gs (N + total chunks) (m + 2 * total chunks) ∗ errno_own ∗
        ∃ l : list (list Z), g_reads ↦ (Some <$> l : list (option (list Z))) ⟫.
Proof.
  intros (Hss & Hgs & Hsz) Hok Hdef Hn HN Hm. iIntros "((Hmem & Hp & Hs) & He & Hr)".
  unfold read_file. wp_bind_head. iApply (wp_init_iowrap with "Hmem").
  iIntros (iow buf) "Hi Hb Hmem". wp_bind_head. set (B := Z.of_nat (m + 2 * total chunks)) in Hm.
  iApply (wp_read_on ss gs Hss Hgs Hsz iow buf fd N B Hm (total chunks) with
    "[$Hi $Hb $Hr] [$Hmem $Hp $Hs] He"); [|done|done| | |done|].
  { rewrite length_replicate. unfold BUFSIZ. lia. }
  { unfold reads_left. lia. }
  { unfold B. lia. }
  iIntros (ps) "Hps Hc". wp_bind_head.
  iApply (wp_destroy_iowrap ss gs iow buf fd N B Hm Unwatched (total chunks) (m + 2 * total chunks)
    with "Hc"); [done|done|].
  iIntros "Henv He Hr". wp_ret. iFrame.
Qed.
End theorems.

#[local] Existing Instances default_mem cached_pool.

(** Two reads: the second piece completes the list that the first one
    leaves open. *)
Lemma read_file_correct_witness :
  let chunks := [bytes_of_string "(a) (b "; bytes_of_string "c) d "] in
  exists ps h,
    read_file 60 0 (heap_of ((g_reads, CReads (Some <$> chunks)) :: startup [])) = Done ps h /\
    ((([∗ list] t;p ∈ file_expressions 60 a_init None chunks;ps, tree_opt (Some t) p) ∗
      parser_env 256 64 (0 + total chunks) (0 + 2 * total chunks) ∗ errno_own ∗
      ∃ l : list (list Z), g_reads ↦ (Some <$> l : list (option (list Z)))) ∗
     text_block ↦ [Det 0])%I h.
Proof.
  intros chunks. refine (run_frame _ _ _ _ ((g_reads, CReads (Some <$> chunks)) :: startup [])
    (read_file_correct 256 64 60 0 chunks 0 0 _ _ _ _ _ _) _ _).
  - by vm_compute.
  - repeat (constructor; [split_and!; [done|done|by repeat constructor]|]). constructor.
  - by vm_compute.
  - vm_compute. lia.
  - by vm_compute.
  - by vm_compute.
  - apply (bool_decide_unpack _). by vm_compute.
  - iIntros "[H Hs]". iDestruct (startup_env with "Hs") as "($ & $ & $)". iExact "H".
Defined.
