(* ===== verification/EventSpec.v ===== *)
(** The event parser reports the expressions that the other parser builds:
    in the mode [PARSER_EVENTS_ONLY] a call of [cparse_sexp] makes the
    handler calls that describe what it has read. *)
From S2P Require Import Prelude SexpTypes CMem SepLogic SexpMemory FastStack CLib ElementPool.
From S2P Require Import Trees Sexp Print ParserStates EventParser Parser Machine Events Simulation.
From S2P Require Import Refinement ParserSpec ParseSexp.

(** ** The texts *)

(** No ['] stands before a double quote. *)
Fixpoint no_quoted_string (s : list Z) : bool :=
  match s with
  | [] => true
  | c :: s' =>
      negb ((c =? c_squote) && match s' with c' :: _ => c' =? c_dquote | [] => false end) &&
      no_quoted_string s'
  end.

(** What holds between two iterations in such a text: only an atom outside
    quotes is marked as quoted. *)
Definition calm (a : astate) (rest : list Z) : Prop :=
  no_quoted_string rest = true /\
  (a_squoted a <> 0 -> a_state a = InAtom) /\
  (a_state a = Quote -> match rest with c :: _ => c <> c_dquote | [] => True end) /\
  a_inline a = false /\ is_bin (a_state a) = false.

Lemma no_quoted_string_tail c s : no_quoted_string (c :: s) = true -> no_quoted_string s = true.
Proof. by intros [_ ?]%andb_true_iff. Qed.

Section simulation.
Context {api : MemApi} {laws : MemLaws api} {pool : PoolApi} {plaws : PoolLaws api pool}.
Variables (ss : Z).
Hypotheses (Hss : 0 < ss) (Hsz : ss + 2 ^ 33 < 2 ^ 64).
(** The continuation, its stack, the handlers, the text, and the calls
    before this one. *)
Variables (cc s hs lin : loc) (blk : list (fld Z)) (sbuf : cptr) (term : Z)
  (post : list (fld Z)) (B : Z) (before : list event).
Hypothesis (HB : B < int_max).
#[local] Abbreviation at_pos := (at_pos blk term post).
#[local] Abbreviation gs := e_val_grow_size.
#[local] Abbreviation ebuf := (buf_at ss gs).
#[local] Abbreviation handlers_at := (handlers_at hs).
#[local] Abbreviation trace_at := (trace_at before).

(** Of the stack only the height is used. *)
Definition height_at (st : list (list tree)) : hprop :=
  (s ↦ mk_stack None None (Z.of_nat (height_of st)))%I.

Definition eenv (a : astate) (rest : list Z) : hprop :=
  (mem_ok ∗ handlers_at ∗ lin ↦ blk ∗ (∃ c, cc ↦ c ∗ ⌈pc_sbuffer c = sbuf /\ pc_squoted c = Det 0⌉) ∗
   ⌈budget B a rest 0⌉)%I.

Definition eparser_at (a : astate) (i : Z) (p : parser) : hprop :=
  (∃ v vc u al el sx,
     ⌈p = mk_parser (Some (lin, i)) (code (a_state a)) v vc u al (a_esc a) (a_squoted a)
            (Z.of_nat (length (a_stack a))) (a_qdepth a) el sx 0 0 None /\
      (a_stack a = [] -> el = 0)⌉ ∗
     ebuf v vc u al (a_buf a) ∗ height_at (a_stack a) ∗ trace_at (open_tokens a))%I.

(** A continuation that the event parser leaves. *)
Definition econt_at (a : astate) (err : sexp_errcode_t) (lastPos : cptr) : hprop :=
  (∃ v vc u al, cc ↦ mk_pcont (Some s) (Det None) v al u vc lastPos sbuf
        (Z.of_nat (length (a_stack a))) (a_qdepth a) (code (a_state a)) (a_esc a)
        (Det (a_squoted a)) (Det err) PARSER_EVENTS_ONLY 0 0 None (Some hs) ∗
     ebuf v vc u al (a_buf a) ∗ height_at (a_stack a))%I.

Definition eafter (r : astep_result) (Φ : ptr + parser -> hprop) : hprop :=
  match r with
  | AGo a rest =>
      ∀ i p, ⌈at_pos i rest /\ a_wf a /\ calm a rest⌉ -∗ eparser_at a i p -∗ eenv a rest -∗
        Φ (inr p)
  | AReturn err t a rest =>
      ∀ i, ⌈at_pos i rest /\ a_wf a /\ calm a rest⌉ -∗
        econt_at a err (Some (lin, i)) -∗ trace_at (result_tokens t) -∗
        mem_ok -∗ handlers_at -∗ lin ↦ blk -∗ Φ (inl (Some cc))
  | AStuck => False
  end%I.

(** An iteration of the event parser is a step of the machine. *)
Definition reports_step (a : astate) (c : Z) (rest : list Z) (r : astep_result)
    (m : parser -> step) : Prop :=
  r <> AStuck -> c <> 0 -> a_wf a -> calm a (c :: rest) ->
  forall i p Φ, at_pos i (c :: rest) ->
  eparser_at a i p -∗ eenv a (c :: rest) -∗ eafter r Φ -∗ wp (m p) Φ.

Lemma wp_echar i c rest a rest' Φ :
  at_pos i (c :: rest) ->
  eenv a rest' -∗ (eenv a rest' -∗ Φ c) -∗ wp (load_char (Some (lin, i))) Φ.
Proof.
  iIntros (Hp) "(Hm & Hh & Hb & Hc) HΦ".
  iApply (wp_load_char with "Hb"); [by eapply at_pos_get|].
  iIntros "Hb". iApply "HΦ". iFrame.
Qed.

Lemma eenv_weaken a rest a' rest' :
  (budget B a rest 0 -> budget B a' rest' 0) -> eenv a rest ⊢ eenv a' rest'.
Proof. iIntros (Hb) "($ & $ & $ & $ & %Hm)". iPureIntro. by apply Hb. Qed.

Lemma eenv_budget a rest : eenv a rest ⊢ ⌜budget B a rest 0⌝.
Proof. by iIntros "(_ & _ & _ & _ & %Hm)". Qed.

Lemma eafter_go a i rest a0 rest0 v vc u al el sx Φ :
  at_pos i rest -> a_wf a -> calm a rest ->
  (budget B a0 rest0 0 -> budget B a rest 0) -> (a_stack a = [] -> el = 0) ->
  eafter (AGo a rest) Φ -∗ ebuf v vc u al (a_buf a) -∗ height_at (a_stack a) -∗
  trace_at (open_tokens a) -∗ eenv a0 rest0 -∗
  Φ (inr (mk_parser (Some (lin, i)) (code (a_state a)) v vc u al (a_esc a) (a_squoted a)
            (Z.of_nat (length (a_stack a))) (a_qdepth a) el sx 0 0 None)).
Proof.
  iIntros (Hp Hwf Hcalm Hb Hel) "HΦ Hbuf Hst Htr Henv".
  iApply ("HΦ" with "[] [Hbuf Hst Htr]"); [done| |by iApply (eenv_weaken with "Henv")].
  iExists v, vc, u, al, el, sx. by iFrame.
Qed.

(** Storing a character. *)
Lemma wp_eput_char oom c t st v vc u al esc sq d q el sx be br bd buf a rest' Φ :
  (length buf <= length (a_buf a) + length rest')%nat ->
  ebuf v vc u al buf -∗ eenv a rest' -∗
  (∀ v' vc' u' al', ebuf v' vc' u' al' (buf ++ [c]) -∗ eenv a rest' -∗
     Φ (inr (mk_parser t st v' vc' u' al' esc sq d q el sx be br bd))) -∗
  wp (put_char egrow oom c (mk_parser t st v vc u al esc sq d q el sx be br bd)) Φ.
Proof.
  iIntros (Hl) "Hbuf (Hm & Hh & Hl & Hc & %Hb) HΦ". pose proof Hb as [_ Hb'].
  iApply (wp_put_char_with ss gs ltac:(done) ltac:(done) egrow emp%I with "Hbuf Hm []");
    [|unfold e_val_grow_size, int_max; lia|lia|done|].
  { iIntros (Ψ) "_ HΨ". iApply wp_ret. by iApply "HΨ". }
  iIntros (v' vc' u' al') "Hbuf Hm _". iApply ("HΦ" with "Hbuf"). by iFrame.
Qed.

(** A handler without arguments is called. *)
Lemma wp_call_simple (f : parser_event_handlers -> bool) e t ts a rest Φ :
  f (mk_handlers true true true true) = true -> reports e t ->
  eenv a rest -∗ trace_at ts -∗
  (eenv a rest -∗ trace_at (ts ++ [t]) -∗ Φ ()) -∗
  wp (call_handler (Some hs) f (mret e)) Φ.
Proof.
  iIntros (Hf He) "(Hm & Hh & Henv) Htr HΦ".
  iApply (wp_watch_simple (Watched hs before []) with "[$Hh $Htr]"); [done..|].
  iIntros "[Hh Htr]". iApply ("HΦ" with "[$Hm $Hh $Henv] Htr").
Qed.

(** The assignments at a return. *)
Lemma wp_esave err sq t st v vc u al esc sqp d qd el sx a0 rest0 Φ :
  match sq with Some q => q = 0 | None => True end ->
  eenv a0 rest0 -∗
  (cc ↦ mk_pcont (Some s) (Det None) v al u vc t sbuf d qd 1 0 (Det 0) (Det err)
     PARSER_EVENTS_ONLY 0 0 None (Some hs) -∗
   mem_ok -∗ handlers_at -∗ lin ↦ blk -∗ Φ (inl (Some cc))) -∗
  wp (ereturn (Some cc) PARSER_EVENTS_ONLY (Some s) (Some hs) err sq
        (mk_parser t st v vc u al esc sqp d qd el sx 0 0 None)) Φ.
Proof.
  iIntros (Hq) "(Hm & Hhs & Hl & (%k & Hk & %Hk) & _) HΦ".
  destruct Hk as [Hsb Hksq]. unfold ereturn, esave. wp_bind_head.
  iApply (wp_modify with "Hk"). iIntros "Hk". iApply wp_ret. pfields. rewrite Hsb.
  destruct sq as [q|]; [subst q|rewrite Hksq]; by iApply ("HΦ" with "Hk Hm Hhs Hl").
Qed.

Lemma wp_ereturn err a i rest t v vc u al el sx st esc sq sqp d' a0 rest0 Φ :
  at_pos i rest -> a_wf a -> calm a rest ->
  a_state a = Between -> a_esc a = 0 ->
  a_squoted a = 0 -> d' = Z.of_nat (length (a_stack a)) ->
  match sq with Some q => q = 0 | None => True end ->
  eafter (AReturn err t a rest) Φ -∗ ebuf v vc u al (a_buf a) -∗ height_at (a_stack a) -∗
  trace_at (result_tokens t) -∗ eenv a0 rest0 -∗
  wp (ereturn (Some cc) PARSER_EVENTS_ONLY (Some s) (Some hs) err sq
        (mk_parser (Some (lin, i)) st v vc u al esc sqp d' (a_qdepth a) el sx 0 0 None)) Φ.
Proof.
  iIntros (Hp Hwf Hcalm Hst Hesc Hsq -> Hq) "HΦ Hbuf Hh Htr Henv".
  iApply (wp_esave with "Henv"); [done|]. iIntros "Hk Hm Hhs Hl".
  iApply ("HΦ" with "[] [Hbuf Hh Hk] Htr Hm Hhs Hl"); [done|].
  iExists v, vc, u, al. rewrite Hst Hesc Hsq /=. iFrame.
Qed.

(** ** The end of an atom *)

(** The buffer with the NUL that ends the atom. *)
Definition ended (lv : loc) (vrest : list (fld Z)) (al : Z) (buf : list Z) : hprop :=
  (lv ↦ ((Det <$> buf) ++ Det 0 :: vrest) ∗
   ⌈al = Z.of_nat (length buf + S (length vrest)) /\ al <= ss + gs + int_max⌉)%I.

Lemma wp_ebuf_nul v vc u al buf Φ :
  ebuf v vc u al buf -∗
  (∀ lv vrest, ⌈v = Some lv /\ u = Z.of_nat (length buf)⌉ -∗ ended lv vrest al buf -∗ Φ ()) -∗
  wp (store_char vc c_nul) Φ.
Proof.
  iIntros "Hbuf HΦ". iApply (wp_buf_nul with "Hbuf").
  iIntros (lv vrest) "Hv %Hb". destruct Hb as (Hv & Hu & Hal & Hle).
  iApply ("HΦ" $! lv vrest with "[//] [$Hv]"). by iPureIntro.
Qed.

(** The buffer starts over. *)
Lemma ended_reset lv vrest al buf :
  ended lv vrest al buf ⊢ ebuf (Some lv) (Some (lv, 0)) 0 al [].
Proof.
  iIntros "(Hv & %Hal)". destruct Hal as [-> Hal].
  iExists lv, _. simpl. iFrame "Hv". iPureIntro. rewrite length_app length_fmap /=.
  split_and!; try done; lia.
Qed.

(** The characters are reported, with the NUL or without it. *)
Lemma wp_echaracters aty t st lv vrest vc (u : nat) al esc sq d q el sx be br bd buf ts
    a rest0 Φ :
  u = length buf \/ u = S (length buf) ->
  ended lv vrest al buf -∗ eenv a rest0 -∗ trace_at ts -∗
  (ended lv vrest al buf -∗ eenv a rest0 -∗ trace_at (ts ++ [TAtom aty buf]) -∗ Φ ()) -∗
  wp (echaracters (Some hs) aty
        (mk_parser t st (Some lv) vc (Z.of_nat u) al esc sq d q el sx be br bd)) Φ.
Proof.
  iIntros (Hu) "(Hv & %Hal) (Hm & Hh & Henv) Htr HΦ". unfold echaracters. pfields.
  iApply (wp_watch_characters (Watched hs before []) with "[$Hh $Htr] Hv"); [done|].
  iIntros "[Hh Htr] Hv". iApply ("HΦ" with "[$Hv] [$Hm $Hh $Henv] Htr"). done.
Qed.

Lemma wp_eheight_get st Φ :
  height_at st -∗ (height_at st -∗ Φ (Z.of_nat (height_of st))) -∗ wp (height_get (Some s)) Φ.
Proof.
  iIntros "Hs HΦ". unfold height_get. wp_bind_head. iApply (wp_load with "Hs"). iIntros "Hs".
  iApply wp_ret. by iApply "HΦ".
Qed.

(** The buffer starts over; is the atom alone? *)
Lemma wp_eatom_done t st lv vrest vc u al esc sq d q el sx be br bd buf stk Φ :
  ended lv vrest al buf -∗ height_at stk -∗
  (ebuf (Some lv) (Some (lv, 0)) 0 al [] -∗ height_at stk -∗
   Φ (match stk with [] => true | _ => false end,
      mk_parser t st (Some lv) (Some (lv, 0)) 0 al esc sq d q el sx be br bd)) -∗
  wp (eatom_done (Some s) (mk_parser t st (Some lv) vc u al esc sq d q el sx be br bd)) Φ.
Proof.
  iIntros "Hv Hs HΦ". unfold eatom_done. wp_bind_head.
  iApply (wp_eheight_get with "Hs"). iIntros "Hs". iApply wp_ret. pfields.
  assert ((Z.of_nat (height_of stk) <? 1) = match stk with [] => true | _ => false end) as ->.
  { destruct stk; [done|]. apply Z.ltb_ge. simpl. lia. }
  iApply ("HΦ" with "[Hv] Hs"). by iApply ended_reset.
Qed.

(** ** The states *)

Ltac esim_start :=
  cbv zeta; intros Hns Hc Hwf Hcalm i p Φ Hpos;
  iIntros "(%v & %vc & %u & %al & %el & %sx & %Hp & Hbuf & Hst & Htr) Henv HΦ";
  match goal with H : (_ = _) /\ (_ -> _) |- _ => destruct H as [-> Hel] end;
  destruct Hcalm as (Hnq & Hsq & Hqt & _);
  pose proof (no_quoted_string_tail _ _ Hnq) as Hnq';
  cbn [a_state a_buf a_esc a_squoted a_qdepth a_stack code] in *;
  match type of Hsq with
  | ?q <> 0 -> _ =>
      try (assert (q = 0) as -> by
             (let n := fresh in destruct (Z.eq_dec q 0) as [|n]; [done|by specialize (Hsq n)]))
  end.
Ltac esim_pure :=
  try done; try (by eapply at_pos_next);
  try (unfold calm, a_store, a_replace_last; afields; split_and!; try done; intros; (done || congruence));
  try (unfold budget, a_store, a_replace_last; afields; intros; rewrite ?length_app;
       cbn [length height_of] in *; repeat case_decide; try done; lia).
Ltac esim_char :=
  wp_bind_head; iApply (wp_echar with "Henv"); [done|]; iIntros "Henv".
Ltac esim_go := iApply (eafter_go with "HΦ Hbuf Hst Htr Henv"); esim_pure.

Lemma esim_state1 buf esc sq qd stk c rest :
  let a := mk_astate Between buf esc sq qd stk false in
  reports_step a c rest (astate1 a c rest) (estate1 PARSER_EVENTS_ONLY (Some hs)).
Proof.
  esim_start. destruct Hwf as [_ Hnil]. simpl in Hnil. subst buf.
  unfold estate1, state1. pfields. esim_char.
  iDestruct (buf_at_vcur with "Hbuf") as %->. unfold astate1. afields.
  destruct (is_blank c); [iApply wp_ret; pfields; esim_go|].
  destruct (c =? c_semi); [iApply wp_ret; pfields; esim_go|].
  destruct (c =? c_lparen).
  { wp_bind_head. iApply (wp_call_simple eh_start_sexpr EvStart TStart with "Henv Htr"); [done..|].
    iIntros "Henv Htr". iApply wp_ret. unfold next_char. pfields.
    rewrite open_tokens_open. esim_go. }
  destruct (c =? c_rparen); [iApply wp_ret; pfields; esim_go|].
  destruct (c =? c_dquote); [iApply wp_ret; pfields; esim_go|].
  destruct (Z.eqb_spec c c_squote) as [->|]; [iApply wp_ret; pfields; esim_go|].
  { unfold calm. afields. split_and!; try done. intros _. simpl in Hnq.
    destruct rest as [|c rest]; [done|]. by destruct (Z.eqb_spec c c_dquote). }
  iApply wp_early. unfold put_atom_char. pfields.
  iApply (wp_eput_char with "Hbuf Henv"); [simpl; lia|].
  iIntros (v' vc' u' al') "Hbuf Henv". iApply wp_ret. unfold next_char.
  rewrite bool_decide_eq_false_2 // andb_false_r.
  pfields. esim_go. split; [|done]. by apply Forall_singleton.
Qed.

Lemma esim_state6 buf esc sq qd stk c rest :
  let a := mk_astate AfterString buf esc sq qd stk false in
  reports_step a c rest (AGo (a <| a_state := Between |>) (c :: rest)) estate6.
Proof.
  esim_start. destruct Hwf as [_ Hnil]. simpl in Hnil. subst buf.
  unfold estate6, state6. pfields. iDestruct (buf_at_vcur with "Hbuf") as %->.
  iApply wp_ret. afields. esim_go.
Qed.

Lemma esim_state7 buf esc sq qd stk c rest :
  let a := mk_astate Quote buf esc sq qd stk false in
  reports_step a c rest (astate7 a c rest) estate7.
Proof.
  esim_start. destruct Hwf as [_ Hnil]. simpl in Hnil. subst buf.
  unfold estate7, state7. esim_char. pfields.
  iDestruct (buf_at_vcur with "Hbuf") as %->. unfold astate7. afields.
  destruct (Z.eqb_spec c c_dquote) as [->|]; [by specialize (Hqt eq_refl)|].
  destruct (c =? c_lparen).
  - iApply wp_ret. pfields. esim_go.
  - iApply wp_ret. pfields. esim_go.
Qed.

Lemma esim_state10 buf esc sq qd stk c rest :
  let a := mk_astate InQuotedString buf esc sq qd stk false in
  reports_step a c rest (astate10 a c rest) estate10.
Proof.
  esim_start. unfold estate10, state10. pfields. esim_char. unfold astate10. afields.
  set (k := if (c =? c_dquote) && (esc =? 0) then InQuoted else InQuotedString).
  iApply wp_early.
  replace (if (c =? c_dquote) && (esc =? 0) then _ else _) with
    (mk_parser (Some (lin, i)) (code k) v vc u al esc 0 (Z.of_nat (length stk)) qd el sx 0 0
       None); [|subst k; by case_match].
  unfold put_atom_char. pfields. iApply (wp_eput_char with "Hbuf Henv"); [simpl; lia|].
  iIntros (v' vc' u' al') "Hbuf Henv". iApply wp_ret. unfold next_char. pfields.
  replace (if (c =? c_dquote) && (esc =? 0) then _ else _) with (mk_astate k buf esc 0 qd stk false);
    [|subst k; by case_match].
  destruct Hwf as [Hch _]. unfold a_store. afields.
  assert (open_tokens (mk_astate InQuotedString buf esc 0 qd stk false) =
    open_tokens (mk_astate k (buf ++ [c]) (esc_after c) 0 qd stk false)) as ->.
  { subst k. by destruct (_ && _). }
  assert (k <> InAtom /\ k <> Quote /\ k <> Open /\ is_bin k = false) as (? & ? & ? & ?)
    by (subst k; by destruct (_ && _)).
  esim_go. split; [|subst k; by destruct (_ && _)].
  apply Forall_app. split; [done|by apply Forall_singleton].
Qed.

Lemma esim_state11 buf esc sq qd stk c rest :
  let a := mk_astate InComment buf esc sq qd stk false in
  reports_step a c rest (AGo (if c =? c_lf then a <| a_state := Between |> else a) rest) estate11.
Proof.
  esim_start. unfold estate11, state11. pfields. esim_char. unfold next_char.
  destruct (c =? c_lf); iApply wp_ret; pfields; afields; esim_go.
Qed.

Lemma esim_state4 buf esc sq qd stk c rest :
  let a := mk_astate InAtom buf esc sq qd stk false in
  reports_step a c rest (astate4 a c rest) (estate4 (Some cc) PARSER_EVENTS_ONLY (Some s) (Some hs)).
Proof.
  esim_start. destruct Hwf as [Hch _]. afields_in Hch.
  unfold estate4. pfields. esim_char. unfold astate4 in *. afields. afields_in Hns.
  destruct ((esc =? 1) && is_escapable c).
  { assert (buf <> []) as Hne by by destruct buf.
    wp_bind_head. iApply (wp_replace_last with "Hbuf"); [done|]. iIntros "Hbuf".
    iApply wp_ret. unfold next_char. pfields.
    pose proof (length_removelast _ Hne).
    replace (match buf with [] => AStuck | _ :: _ => _ end) with
      (AGo (a_replace_last c (mk_astate InAtom buf esc sq qd stk false)) rest) by by destruct buf.
    esim_go. apply a_wf_snoc; [by apply Forall_removelast|done..]. }
  destruct (is_atom_char c) eqn:Hatom; simpl negb.
  { iApply wp_early. unfold put_atom_char. pfields.
    iApply (wp_eput_char with "Hbuf Henv"); [simpl; lia|].
    iIntros (v' vc' u' al') "Hbuf Henv". iApply wp_ret. unfold next_char. pfields.
    esim_go. by apply a_wf_snoc. }
  cbn [negb]. wp_bind_head. iApply (wp_ebuf_nul with "Hbuf").
  iIntros (lv vrest) "%Hb Hbuf". destruct Hb as [-> ->].
  iDestruct (eenv_budget with "Henv") as %Hlen. destruct Hlen as [_ Hlen]. simpl length in Hlen.
  cbn [a_buf] in Hlen. rewrite u64_small; [|unfold int_max in *; lia].
  replace (Z.of_nat (length buf) + 1) with (Z.of_nat (S (length buf))) by lia. wp_bind_head.
  iApply (wp_echaracters with "Hbuf Henv Htr"); [by right|]. iIntros "Hbuf Henv Htr".
  wp_bind_head. iApply (wp_eatom_done with "Hbuf Hst"). iIntros "Hbuf Hst".
  change [TAtom ?aty ?b] with (tokens (Atom aty b)).
  unfold a_atom. afields. destruct stk as [|ts stk].
  - pfields. iApply (wp_ereturn with "HΦ Hbuf Hst Htr Henv"); esim_pure.
  - rewrite open_tokens_atom //.
    destruct (is_blank c); [|destruct (c =? c_rparen)]; iApply wp_ret; unfold next_char;
      pfields; esim_go.
Qed.

(** The rest of state 5, at the character [c]. *)
Lemma esim_string_char buf esc sq qd stk c rest :
  let a := mk_astate InString buf esc sq qd stk false in
  reports_step a c rest (a_quoted a c rest)
    (estring_char (Some cc) PARSER_EVENTS_ONLY (Some s) (Some hs)).
Proof.
  esim_start. destruct Hwf as [Hch _]. afields_in Hch.
  unfold estring_char. pfields. esim_char. unfold a_quoted in *. afields.
  destruct (Z.eqb_spec c c_dquote) as [->|Hq].
  2:{ iApply wp_early. iApply (wp_eput_char with "Hbuf Henv"); [simpl; lia|].
      iIntros (v' vc' u' al') "Hbuf Henv". iApply wp_ret. unfold next_char. pfields.
      esim_go. by apply a_wf_snoc. }
  iApply wp_early. iApply wp_ret. pfields. wp_bind_head. iApply (wp_ebuf_nul with "Hbuf").
  iIntros (lv vrest) "%Hb Hbuf". destruct Hb as [-> ->].
  iDestruct (eenv_budget with "Henv") as %Hlen. destruct Hlen as [_ Hlen]. simpl length in Hlen.
  cbn [a_buf] in Hlen. rewrite u64_small; [|unfold int_max in *; lia].
  replace (Z.of_nat (length buf) + 1) with (Z.of_nat (S (length buf))) by lia. wp_bind_head.
  iApply (wp_echaracters with "Hbuf Henv Htr"); [by right|]. iIntros "Hbuf Henv Htr".
  wp_bind_head. iApply (wp_eatom_done with "Hbuf Hst"). iIntros "Hbuf Hst".
  change [TAtom ?aty ?b] with (tokens (Atom aty b)). cbn [Z.eqb].
  unfold a_atom. afields. destruct stk as [|ts stk]; unfold next_char.
  - pfields. iApply (wp_ereturn with "HΦ Hbuf Hst Htr Henv"); esim_pure.
  - rewrite open_tokens_atom //. iApply wp_ret. pfields. esim_go.
Qed.

Lemma esim_state5 buf esc sq qd stk c rest :
  let a := mk_astate InString buf esc sq qd stk false in
  reports_step a c rest (astate5 a c rest)
    (estate5 (Some cc) PARSER_EVENTS_ONLY (Some s) (Some hs)).
Proof.
  esim_start. destruct Hwf as [Hch _]. afields_in Hch.
  unfold estate5. pfields. esim_char. unfold astate5 in *. afields. afields_in Hns.
  destruct ((esc =? 1) && is_escapable c).
  - assert (buf <> []) as Hne by by destruct buf.
    destruct rest as [|c' rest]; [by destruct buf|].
    destruct (Z.eqb_spec c' 0) as [|Hc']; [by destruct buf|].
    wp_bind_head. iApply (wp_replace_last with "Hbuf"); [done|]. iIntros "Hbuf".
    wp_ret. unfold next_char. pfields. pose proof (length_removelast _ Hne).
    replace (match buf with [] => AStuck | _ :: _ => _ end) with
      (a_quoted (a_replace_last c (mk_astate InString buf esc 0 qd stk false)) c' rest) in Hns |- *
      by by destruct buf.
    iApply (esim_string_char with "[Hbuf Hst Htr] [Henv] HΦ"); [done..| | | | |].
    + apply a_wf_snoc; [by apply Forall_removelast|done..].
    + split_and!; try done.
    + by eapply at_pos_next.
    + iExists v, vc, u, al, el, sx. iFrame. by iPureIntro.
    + iApply (eenv_weaken with "Henv"). esim_pure.
  - wp_ret. iApply (esim_string_char with "[Hbuf Hst Htr] Henv HΦ"); try done.
    iExists v, vc, u, al, el, sx. iFrame. by iPureIntro.
Qed.

(** State 9, into which state 8 falls. *)
Lemma esim_state9 b esc qd stk rest i v vc u al el sx Φ :
  let a := mk_astate InQuoted b esc 0 qd stk false in
  at_pos i rest -> Forall (fun c => c <> 0) b -> no_quoted_string rest = true ->
  (stk = [] -> el = 0) ->
  ebuf v vc u al b -∗ height_at stk -∗ trace_at (open_tokens a) -∗ eenv a rest -∗
  eafter
    (if qd =? 0 then
       a_atom (Atom SEXP_SQUOTE b) a rest (fun a => AGo (a <| a_state := Between |>) rest)
     else AGo a rest) Φ -∗
  wp (estate9 (Some cc) PARSER_EVENTS_ONLY (Some s) (Some hs)
        (mk_parser (Some (lin, i)) 9 v vc u al esc 0 (Z.of_nat (length stk)) qd el sx 0 0
           None)) Φ.
Proof.
  cbv zeta. iIntros (Hpos Hch Hnq Hel) "Hbuf Hst Htr Henv HΦ". unfold estate9. pfields.
  destruct (qd =? 0) eqn:Hqd; [|iApply wp_ret; pfields; esim_go].
  wp_bind_head. iApply (wp_ebuf_nul with "Hbuf").
  iIntros (lv vrest) "%Hb Hbuf". destruct Hb as [-> ->].
  iDestruct (eenv_budget with "Henv") as %Hlen. destruct Hlen as [_ Hlen].
  cbn [a_buf] in Hlen. wp_bind_head.
  iApply (wp_echaracters with "Hbuf Henv Htr"); [by left|]. iIntros "Hbuf Henv Htr".
  wp_bind_head. iApply (wp_eatom_done with "Hbuf Hst"). iIntros "Hbuf Hst".
  change [TAtom ?aty ?b] with (tokens (Atom aty b)).
  unfold a_atom. afields. destruct stk as [|ts stk].
  - pfields. iApply (wp_ereturn with "HΦ Hbuf Hst Htr Henv"); esim_pure.
  - rewrite open_tokens_atom //. iApply wp_ret. pfields. esim_go.
Qed.

Lemma esim_state8 buf esc sq qd stk c rest :
  let a := mk_astate InQuoted buf esc sq qd stk false in
  reports_step a c rest (astate8 a c rest)
    (estate8 (Some cc) PARSER_EVENTS_ONLY (Some s) (Some hs)).
Proof.
  esim_start. destruct Hwf as [Hch _]. afields_in Hch. clear Hns.
  unfold estate8, state8. pfields. esim_char. unfold astate8 in *. afields.
  iApply wp_early. unfold quoted_char, a_quoted_char in *. afields. pfields.
  assert (forall k q e, match k with InQuoted | InQuotedString => True | _ => False end ->
    a_wf (mk_astate k (buf ++ [c]) e 0 q stk false)) as Hwf.
  { intros k q e Hk. apply a_wf_snoc; [done..|by destruct k]. }
  destruct (esc =? 0); [destruct (c =? c_lparen) eqn:Hl; [|destruct (c =? c_rparen) eqn:Hr;
    [|destruct (c =? c_dquote)]]|].
  2:{ unfold put_atom_char. pfields. iApply (wp_eput_char with "Hbuf Henv"); [simpl; lia|].
      iIntros (v' vc' u' al') "Hbuf Henv". unfold next_char. pfields. unfold a_store. afields.
      iApply (esim_state9 with "Hbuf Hst Htr [Henv] HΦ"); [by eapply at_pos_next| |done|done|].
      - apply Forall_app. split; [done|by apply Forall_singleton].
      - iApply (eenv_weaken with "Henv"). esim_pure. }
  all: unfold put_atom_char; pfields; iApply (wp_eput_char with "Hbuf Henv"); [simpl; lia|];
      iIntros (v' vc' u' al') "Hbuf Henv"; unfold next_char; iApply wp_ret; pfields;
      unfold a_store; afields; esim_go.
  all: by apply Hwf.
Qed.

(** State 2. *)
Lemma wp_height_incr h Φ :
  h < int_max ->
  s ↦ mk_stack None None h -∗ (s ↦ mk_stack None None (h + 1) -∗ Φ ()) -∗
  wp (height_incr (Some s)) Φ.
Proof.
  iIntros (Hh) "Hs HΦ". unfold height_incr, height_get, height_set. wp_bind_head. wp_bind_head.
  iApply (wp_load with "Hs"). iIntros "Hs". iApply wp_ret. wp_bind_head.
  iApply wp_int_incr; [done|]. iApply (wp_modify with "Hs"). iIntros "Hs". by iApply "HΦ".
Qed.

Lemma wp_raise {A} stk (k : M A) Φ :
  Z.of_nat (length stk) + 2 < int_max ->
  height_at stk -∗ (height_at ([] :: stk) -∗ wp k Φ) -∗
  wp (h ← height_get (Some s);
      (if h <? 1 then height_incr (Some s) else mret ());;
      height_incr (Some s);; k) Φ.
Proof.
  iIntros (Hlen) "Hs HΦ". wp_bind_head. iApply (wp_eheight_get with "Hs"). iIntros "Hs".
  unfold height_at. destruct stk as [|ts stk].
  - simpl height_of. wp_bind_head. iApply (wp_height_incr with "Hs"); [done|]. iIntros "Hs".
    wp_bind_head. iApply (wp_height_incr with "Hs"); [done|]. iIntros "Hs". by iApply "HΦ".
  - simpl length in *. cbn [height_of length] in *.
    destruct (Z.ltb_spec (Z.of_nat (S (S (length stk)))) 1); [lia|].
    wp_ret. wp_bind_head. iApply (wp_height_incr with "Hs"); [lia|]. iIntros "Hs". iApply "HΦ".
    replace (Z.of_nat (S (S (S (length stk))))) with (Z.of_nat (S (S (length stk))) + 1) by lia.
    done.
Qed.

Lemma esim_state2 buf esc sq qd stk c rest :
  let a := mk_astate Open buf esc sq qd stk false in
  reports_step a c rest (AGo (a <| a_state := Between |> <| a_stack := [] :: stk |>) (c :: rest))
    (estate2 (Some s)).
Proof.
  esim_start. destruct Hwf as [_ Hnil]. simpl in Hnil. subst buf.
  iDestruct (eenv_budget with "Henv") as %Hb. destruct Hb as [Hb1 Hb2]. afields_in Hb1.
  cbn [length] in *. unfold int_max in *.
  assert (Z.of_nat (length stk) + 2 < 2 ^ 31 - 1) by (destruct stk; simpl in *; lia).
  unfold estate2. pfields. rewrite (u32_small (Z.of_nat (length stk) + 1)); [|lia].
  replace (Z.of_nat (length stk) + 1) with (Z.of_nat (S (length stk))) by lia.
  iApply (wp_raise with "Hst"); [unfold int_max; lia|]. iIntros "Hst". iApply wp_ret. pfields.
  rewrite open_tokens_raise. afields.
  iApply (eafter_go _ _ (c :: rest) with "HΦ Hbuf Hst Htr Henv"); esim_pure.
  intros _. split; afields; [|done]. destruct stk; simpl in *; lia.
Qed.

(** State 3. *)
Lemma wp_height_set h h' Φ :
  s ↦ mk_stack None None h -∗ (s ↦ mk_stack None None h' -∗ Φ ()) -∗
  wp (height_set (Some s) h') Φ.
Proof.
  iIntros "Hs HΦ". unfold height_set. iApply (wp_modify with "Hs"). iIntros "Hs". by iApply "HΦ".
Qed.

Lemma esim_state3 buf esc sq qd stk c rest :
  let a := mk_astate Close buf esc sq qd stk false in
  reports_step a c rest (astate3 a c rest)
    (estate3 (Some cc) PARSER_EVENTS_ONLY (Some s) (Some hs)).
Proof.
  esim_start. destruct Hwf as [_ Hnil]. simpl in Hnil. subst buf. clear Hns.
  unfold estate3. pfields. unfold astate3. afields. destruct stk as [|ts stk].
  { iApply (wp_ereturn with "HΦ Hbuf Hst Htr Henv"); esim_pure. }
  iDestruct (eenv_budget with "Henv") as %Hb. destruct Hb as [Hb1 Hb2]. afields_in Hb1.
  cbn [length height_of] in *. unfold int_max in *.
  destruct (Z.eqb_spec (Z.of_nat (S (length stk))) 0); [lia|].
  unfold next_char. pfields. rewrite u32_small; [|lia].
  replace (Z.of_nat (S (length stk)) - 1) with (Z.of_nat (length stk)) by lia.
  wp_bind_head. iApply (wp_eheight_get with "Hst"). iIntros "Hst".
  wp_bind_head. iApply (wp_height_set with "Hst"). iIntros "Hst". cbn [height_of length].
  replace (Z.of_nat (S (S (length stk))) - 1) with (Z.of_nat (S (length stk))) by lia.
  wp_bind_head. iApply (wp_call_simple eh_end_sexpr EvEnd TEnd with "Henv Htr"); [done..|].
  iIntros "Henv Htr". destruct stk as [|us stk].
  - replace (Z.of_nat (length (@nil (list tree))) =? 0) with true by done.
    pfields. wp_bind_head.
    iApply (wp_esave with "Henv"); [done|]. iIntros "Hk Hm Hhs Hl". wp_bind_head.
    iApply (wp_height_set with "Hst"). iIntros "Hst". iApply wp_ret.
    rewrite open_tokens_last.
    iApply ("HΦ" with "[] [Hbuf Hst Hk] Htr Hm Hhs Hl").
    { iPureIntro. split; [by eapply at_pos_next|]. split; [done|]. esim_pure. }
    iExists v, vc, u, al. iFrame.
  - cbn [length]. destruct (Z.eqb_spec (Z.of_nat (S (length stk))) 0); [lia|].
    iApply wp_ret. pfields. rewrite open_tokens_close.
    iApply (eafter_go (mk_astate Between [] esc 0 qd ((us ++ [Node ts]) :: stk) false) _ rest
      with "HΦ Hbuf Hst Htr Henv"); esim_pure.
Qed.

(** ** The loop *)

Lemma esim_dispatch a c rest :
  reports_step a c rest (astep a c rest)
    (edispatch (Some cc) PARSER_EVENTS_ONLY (Some s) (Some hs)).
Proof.
  destruct a as [k buf esc sq qd stk il]. intros Hns Hc Hwf Hcalm i p Φ Hpos.
  pose proof Hcalm as (_ & _ & _ & Hil & Hbin). simpl in Hil, Hbin. subst il.
  rewrite astep_char in Hns |- *; [|done].
  iIntros "Hp". iAssert (⌜p_state p = code k⌝)%I as %Hst.
  { iDestruct "Hp" as (v vc u al el sx) "(%Hp & _)". by destruct Hp as [-> _]. }
  iRevert "Hp". iStopProof. unfold edispatch. rewrite Hst.
  destruct k; try done; cbn [code]; iIntros "_".
  - by iApply esim_state1.
  - by iApply esim_state2.
  - by iApply esim_state3.
  - by iApply esim_state4.
  - by iApply esim_state5.
  - by iApply esim_state6.
  - by iApply esim_state7.
  - by iApply esim_state8.
  - by iApply esim_state10.
  - by iApply esim_state11.
Qed.

Lemma wp_ekeep_going a i rest a' rest' p Φ :
  at_pos i rest -> is_bin (a_state a) = false ->
  eparser_at a i p -∗ eenv a' rest' -∗
  (eparser_at a i p -∗ eenv a' rest' -∗ Φ (negb (cur_char term rest =? 0))) -∗
  wp (keep_going p) Φ.
Proof.
  iIntros (Hp Hbin) "(%v & %vc & %u & %al & %el & %sx & %Heq & Hb & Hs & Htr) (Hm & Hh & Hl & Hc) HΦ".
  destruct Heq as [-> Hel]. unfold keep_going. pfields.
  destruct (Z.eqb_spec (code (a_state a)) 15); [by destruct (a_state a)|].
  wp_bind_head. iApply (wp_load_char with "Hl").
  { instantiate (1 := cur_char term rest).
    destruct rest; [by apply (at_pos_end _ _ _ _ Hp)|by apply (at_pos_get _ _ _ _ _ _ Hp)]. }
  iIntros "Hl". iApply wp_ret. iApply ("HΦ" with "[Hb Hs Htr] [-]"); [|by iFrame].
  iExists v, vc, u, al, el, sx. by iFrame.
Qed.

Definition eafter_loop (r : arun_result) (Φ : ptr + parser -> hprop) : hprop :=
  match r with
  | AStop a =>
      ∀ i p, ⌈at_pos i [] /\ a_wf a /\ calm a []⌉ -∗ eparser_at a i p -∗ eenv a [] -∗ Φ (inr p)
  | ARet err t a rest => eafter (AReturn err t a rest) Φ
  | AWrong => False
  end%I.

Lemma wp_eloop a rest fuel keep i p e Φ :
  arun a rest <> AWrong -> a_wf a -> calm a rest ->
  end_ok blk term post e -> (ameasure a rest < fuel)%nat ->
  keep = negb (cur_char term rest =? 0) -> at_pos i rest ->
  eparser_at a i p -∗ eenv a rest -∗ eafter_loop (arun a rest) Φ -∗
  wp (parse_loop (edispatch (Some cc) PARSER_EVENTS_ONLY (Some s) (Some hs)) (Some (lin, e))
        fuel keep p) Φ.
Proof.
  revert a rest keep i p. induction fuel as [|fuel IH];
    intros a rest keep i p Hr Hwf Hcalm He Hf Hkeep Hpos; [lia|].
  pose proof (at_pos_end_eq _ _ _ _ _ Hpos) as Hend.
  iIntros "Hp Henv HΦ". iAssert (⌜p_t p = Some (lin, i)⌝)%I as %Ht.
  { iDestruct "Hp" as (v vc u al el sx) "(%Hp & _)". by destruct Hp as [-> _]. }
  cbn [parse_loop]. rewrite Ht. destruct rest as [|c rest].
  - rewrite arun_nil. simpl in Hend. rewrite Z.add_0_r in Hend.
    assert (keep && negb (bool_decide (Some (lin, i) = Some (lin, e))) = false) as ->.
    { subst keep. simpl. destruct He as [-> | [-> _]]; [|done].
      rewrite Hend bool_decide_eq_true_2 //. by rewrite andb_false_r. }
    iApply wp_ret. by iApply ("HΦ" with "[] Hp Henv").
  - assert (i <> e) as Hie by (simpl in Hend; destruct He as [-> | [_ ?]]; lia).
    rewrite arun_cons in Hr |- *.
    assert (astep a c rest <> AStuck) as Hns by (intros Hst; by rewrite Hst in Hr).
    pose proof Hcalm as (_ & _ & _ & _ & Hbin).
    assert (c <> 0) as Hc.
    { apply astep_next in Hns as [_ Hns]. apply (stops_nonzero _ _ Hns). by destruct (a_state a). }
    assert (keep && negb (bool_decide (Some (lin, i) = Some (lin, e))) = true) as ->.
    { subst keep. simpl. rewrite bool_decide_eq_false_2; [|congruence].
      by destruct (Z.eqb_spec c 0). }
    pose proof (astep_shrinks a c rest) as Hsh. iApply wp_early.
    iApply (esim_dispatch with "Hp Henv"); [done..|].
    destruct (astep a c rest) as [a' rest'|err t a' rest'|]; simpl; [|done..].
    clear i p Hpos Hend Ht Hie. iIntros (i p) "%Hpos Hp Henv".
    destruct Hpos as (Hpos & Hwf' & Hcalm'). wp_bind_head.
    iApply (wp_ekeep_going with "Hp Henv"); [done|by destruct Hcalm' as (_ & _ & _ & _ & ?)|]. iIntros "Hp Henv".
    iApply (IH with "Hp Henv HΦ"); try done. simpl in Hsh. lia.
Qed.

(** ** A call *)

(** What a call leaves: at the end of the text the calls describe the lists
    that are open, elsewhere the expression that was read. *)
Definition reported (r : arun_result) : hprop :=
  match r with
  | AStop a =>
      ⌈a_wf a /\ budget B a [] 0⌉ ∗ econt_at a SEXP_ERR_OK None ∗ trace_at (open_tokens a)
  | ARet err t a rest =>
      ∃ i, ⌈at_pos i rest /\ a_wf a⌉ ∗ econt_at a err (Some (lin, i)) ∗
        trace_at (result_tokens t)
  | AWrong => False
  end%I.

Lemma wp_efinish a i p e Φ :
  a_wf a -> end_ok blk term post e -> at_pos i [] ->
  eparser_at a i p -∗ eenv a [] -∗
  (reported (AStop a) -∗ mem_ok -∗ handlers_at -∗ lin ↦ blk -∗ Φ (Some cc)) -∗
  wp (efinish (Some cc) PARSER_EVENTS_ONLY (Some s) (Some hs) (Some (lin, e)) p) Φ.
Proof.
  iIntros (Hwf He Hpos) "(%v & %vc & %u & %al & %el & %sx & %Hp & Hb & Hs & Htr)
    (Hm & Hh & Hl & (%k & Hk & %Hk) & %Hbud) HΦ".
  destruct Hp as [-> Hel], Hk as [Hsb _]. unfold efinish. pfields.
  assert ((Z.of_nat (length (a_stack a)) =? 0) && (0 <? el) = false) as ->.
  { destruct (a_stack a); [by rewrite Hel|done]. }
  wp_bind_head. iApply (wp_load_char with "Hl"); [by apply (at_pos_end _ _ _ _ Hpos)|].
  iIntros "Hl". unfold esave. wp_bind_head.
  iApply (wp_modify with "Hk"). iIntros "Hk". pfields. iApply wp_ret. rewrite Hsb.
  assert ((term =? c_nul) || bool_decide (Some (lin, i) = Some (lin, e)) = true) as ->.
  { pose proof (at_pos_end_eq _ _ _ _ _ Hpos) as Hend. simpl in Hend.
    destruct He as [-> | [-> _]]; [|done].
    rewrite bool_decide_eq_true_2; [by rewrite orb_true_r|]. do 2 f_equal. lia. }
  iApply ("HΦ" with "[-Hm Hh Hl] Hm Hh Hl"). iSplit; [done|]. iFrame "Htr".
  iExists v, vc, u, al. iFrame.
Qed.

Lemma wp_erun o len a rest i p Φ :
  arun a rest <> AWrong -> a_wf a -> calm a rest ->
  sbuf = Some (lin, o) -> end_ok blk term post (o + len) -> at_pos i rest ->
  eparser_at a i p -∗ eenv a rest -∗
  (reported (arun a rest) -∗ mem_ok -∗ handlers_at -∗ lin ↦ blk -∗ Φ (Some cc)) -∗
  wp (erun (Some cc) PARSER_EVENTS_ONLY (Some s) (Some hs) len p) Φ.
Proof.
  iIntros (Hr Hwf Hcalm Hsb He Hpos) "Hp (Hm & Hh & Hl & (%k & Hk & %Hk) & %Hbud) HΦ".
  unfold erun. wp_bind_head. iApply (wp_load with "Hk"). iIntros "Hk".
  assert (pc_sbuffer k = sbuf) as -> by tauto. rewrite Hsb. wp_bind_head.
  iApply (wp_ekeep_going a i rest a rest with "Hp [Hm Hh Hl Hk]");
    [done|by destruct Hcalm as (_ & _ & _ & _ & ?)| |].
  { iFrame. by iPureIntro. }
  iIntros "Hp (Hm & Hh & Hl & Hc & _)".
  iAssert (⌜p_t p = Some (lin, i)⌝)%I as %Ht.
  { iDestruct "Hp" as (v vc u al el sx) "(%Hp & _)". by destruct Hp as [-> _]. }
  rewrite Ht. unfold parse_fuel. wp_bind_head. iApply (wp_load with "Hl"). iIntros "Hl".
  iApply wp_ret. wp_bind_head. simpl cadd.
  iApply (wp_eloop a rest with "Hp [Hm Hh Hl Hc]"); [done..| |done|done|by iFrame|].
  { pose proof (at_pos_end_eq _ _ _ _ _ Hpos) as Hend. destruct Hpos as [Hi _].
    unfold text_end, ameasure in *. pose proof (pot_le a). lia. }
  destruct (arun a rest) as [a'|err t a' rest'|]; simpl eafter_loop; [| |done].
  - iIntros (i' p') "%Hpos' Hp Henv". destruct Hpos' as (Hpos' & Hwf' & _).
    by iApply (wp_efinish with "Hp Henv HΦ").
  - iIntros (i') "%Hpos' Hcc Htr Hm Hh Hl". destruct Hpos' as (Hpos' & Hwf' & _).
    iApply wp_ret. iApply ("HΦ" with "[-Hm Hh Hl] Hm Hh Hl").
    iExists i'. by iFrame.
Qed.
End simulation.

(** A continuation of the event parser that a call can go on with. *)
Definition econt_ready (ss : Z) (cc s hs : loc) (a : astate) (lastPos sbuf : cptr) :
    hprop :=
  (∃ v vc u al last err, cc ↦ mk_pcont (Some s) last v al u vc lastPos sbuf
        (Z.of_nat (length (a_stack a))) (a_qdepth a) (code (a_state a)) (a_esc a)
        (Det (a_squoted a)) err PARSER_EVENTS_ONLY 0 0 None (Some hs) ∗
     buf_at ss e_val_grow_size v vc u al (a_buf a) ∗ height_at s (a_stack a))%I.

(** A client: it asks for the calls and not for the expression. *)
Definition report_events `{MemApi, PoolApi} (str : cptr) (len : Z) (handlers : ptr) : M ptr :=
  cc ← init_continuation None;
  modify cc (fun c => c <| pc_mode := PARSER_EVENTS_ONLY |>
                        <| pc_event_handlers := handlers |>);;
  cparse_sexp str len cc.

(** ... of a text in two pieces. *)
Definition report_pieces `{MemApi, PoolApi} (str1 : cptr) (len1 : Z) (str2 : cptr) (len2 : Z)
    (handlers : ptr) : M ptr :=
  cc ← report_events str1 len1 handlers;
  cparse_sexp str2 len2 cc.

Section calls.
Context {api : MemApi} {laws : MemLaws api} {pool : PoolApi} {plaws : PoolLaws api pool}.
Variables (ss : Z).
Hypotheses (Hss : 0 < ss) (Hsz : ss + 2 ^ 33 < 2 ^ 64).

(** A call with such a continuation: it goes on where the text was left, or
    with a new text. *)
Lemma wp_cparse_events cc s hs a lin blk str lastPos sbuf o i len text term post B before Φ :
  match lastPos with
  | Some t => t = (lin, i) /\ sbuf = Some (lin, o) /\ is_Some str
  | None => i = o /\ str = Some (lin, o)
  end ->
  at_pos blk term post i text ->
  end_ok blk term post (o + len) -> a_wf a -> calm a text -> a_squoted a = 0 ->
  arun a text <> AWrong -> B < int_max -> budget B a text 0 ->
  econt_ready ss cc s hs a lastPos sbuf -∗ mem_ok -∗ handlers_at hs -∗ lin ↦ blk -∗
  trace_at before (open_tokens a) -∗
  (reported ss cc s hs lin blk (Some (lin, o)) term post B before (arun a text) -∗
     mem_ok -∗ handlers_at hs -∗ lin ↦ blk -∗ Φ (Some cc)) -∗
  wp (cparse_sexp str len (Some cc)) Φ.
Proof.
  iIntros (Htext Hpos Hend Hwf Hcalm Hsq Hr HB Hbud)
    "(%v & %vc & %u & %al & %last & %err & Hcc & Hbuf & Hst) Hm Hh Hl Htr HΦ".
  unfold cparse_sexp, eparse_sexp.
  destruct str as [str|]; [|by destruct lastPos as [?|];
    [destruct Htext as (_ & _ & [? [=]])|destruct Htext as [_ [=]]]].
  wp_bind_head. iApply (wp_load with "Hcc"). iIntros "Hcc". fields.
  case_decide as Hmode; [clear Hmode|done].
  wp_bind_head. iApply (wp_load with "Hcc"). iIntros "Hcc". fields. wp_bind_head.
  iAssert (∀ Ψ : cptr -> hprop,
    ((∃ k, cc ↦ k ∗ ⌈pc_sbuffer k = Some (lin, o) /\ pc_squoted k = Det 0⌉) -∗
       Ψ (Some (lin, i))) -∗
    wp (match lastPos with
        | Some _ => mret lastPos
        | None => modify (Some cc) (fun c => c <| pc_sbuffer := Some str |>);; mret (Some str)
        end) Ψ)%I with "[Hcc]" as "Ht".
  { iIntros (Ψ) "HΨ". rewrite Hsq. destruct lastPos as [t|].
    - destruct Htext as (-> & -> & _). iApply wp_ret. iApply "HΨ". iExists _. by iFrame.
    - destruct Htext as (-> & [= ->]). wp_bind_head. iApply (wp_modify with "Hcc").
      iIntros "Hcc". iApply wp_ret. iApply "HΨ". iExists _. by iFrame. }
  iApply "Ht". iIntros "Hcc". wp_det.
  iApply (wp_erun ss Hss Hsz cc s hs lin blk (Some (lin, o)) term post B before HB o len
           a text i with "[Hbuf Hst Htr] [Hm Hh Hl Hcc] HΦ"); try done.
  - iExists v, vc, u, al, 0, None. by iFrame.
  - iFrame. by iPureIntro.
Qed.

Lemma wp_report_events hs lin blk o len text term post B before Φ :
  text_at blk o len text term post -> parsable text -> no_quoted_string text = true ->
  B < int_max -> Z.of_nat (2 * length text) <= B ->
  mem_ok -∗ g_val_start_size ↦ ss -∗ handlers_at hs -∗ lin ↦ blk -∗ g_trace ↦ before -∗
  (∀ cc s, reported ss cc s hs lin blk (Some (lin, o)) term post B before (arun a_init text) -∗
     mem_ok -∗ g_val_start_size ↦ ss -∗ handlers_at hs -∗ lin ↦ blk -∗ Φ (Some cc)) -∗
  wp (report_events (Some (lin, o)) len (Some hs)) Φ.
Proof.
  iIntros (Ht Hp Hq HB Hlen) "Hm Hs Hh Hl Htr HΦ". unfold report_events. wp_bind_head.
  iApply (wp_init_continuation_fresh ss e_val_grow_size with "Hm Hs"); [done..|].
  iIntros (cc s v vc) "Hcc -> Hbuf Hst Hm Hs".
  wp_bind_head. iApply (wp_modify with "Hcc"). iIntros "Hcc". fields.
  pose proof (text_end_ok _ _ _ _ _ _ Ht). destruct Ht as [Hpos Hch _].
  iApply (wp_cparse_events cc s hs a_init lin blk _ None None with "[Hcc Hbuf Hst] Hm Hh Hl [Htr]"); try done.
  - split; simpl; lia.
  - iExists v, _, 0, ss, _, _. iFrame.
  - iExists []. by iFrame.
  - iIntros "Hr Hm Hh Hl". iApply ("HΦ" with "Hr Hm Hs Hh Hl").
Qed.

(** Between two calls. *)
Lemma econt_at_ready cc s hs a err lastPos sbuf :
  econt_at ss cc s hs sbuf a err lastPos ⊢ econt_ready ss cc s hs a lastPos sbuf.
Proof.
  iIntros "(%v & %vc & %u & %al & Hcc & Hbuf & Hst)". iExists v, vc, u, al, _, _. iFrame.
Qed.

Lemma calm_between s a text :
  arun a_init s = AStop a -> a_squoted a = 0 -> a_state a <> Quote ->
  no_quoted_string text = true -> calm a text.
Proof.
  intros Hs Hsq Hq Htext. pose proof (arun_texts a_init s a_init_texts) as Ht.
  rewrite Hs in Ht. destruct Ht as (Hi & Hb & _). unfold calm. split_and!; try done.
Qed.
End calls.

Section theorems.
Context {api : MemApi} {laws : MemLaws api} {pool : PoolApi} {plaws : PoolLaws api pool}.

(** C18. In the mode [PARSER_EVENTS_ONLY] the handlers are called for the
    expression that the other parser would build: the start of every list,
    every atom with its characters, the end of every list, in the order of
    the text.  The error code and the place in the text are those of the
    machine, and no element is allocated.  The text holds a whole expression,
    or an error, and no ['] stands in it before a string. *)
Theorem events_describe_expression ss hs lin blk o len text term post before err t a rest :
  0 < ss -> ss + 2 ^ 33 < 2 ^ 64 -> text_at blk o len text term post ->
  no_quoted_string text = true -> Z.of_nat (2 * length text) < int_max ->
  arun a_init text = ARet err t a rest ->
  ⦃ mem_ok ∗ g_val_start_size ↦ ss ∗ handlers_at hs ∗ lin ↦ blk ∗ g_trace ↦ before ⦄
    report_events (Some (lin, o)) len (Some hs)
  ⟪ r, ∃ cc s i, ⌈r = Some cc /\ at_pos blk term post i rest⌉ ∗
       econt_at ss cc s hs (Some (lin, o)) a err (Some (lin, i)) ∗
       trace_at before (result_tokens t) ∗
       mem_ok ∗ g_val_start_size ↦ ss ∗ handlers_at hs ∗ lin ↦ blk ⟫.
Proof.
  intros Hss Hsz Ht Hq Hlen Hr. iIntros "(Hm & Hs & Hh & Hl & Htr)".
  iApply (wp_report_events ss Hss Hsz with "Hm Hs Hh Hl Htr"); [done| |done..|lia|].
  { unfold parsable. by rewrite Hr. }
  iIntros (cc s) "Hr Hm Hs Hh Hl". rewrite Hr. iDestruct "Hr" as (i) "(%Hi & Hcc & Htr)".
  iExists cc, s, i. iFrame. iPureIntro. by destruct Hi.
Qed.

(** C19. A text that is given to the event parser in two pieces is reported
    as a whole: the calls of the handlers during both are those for the
    expression in the joined text, and the second call returns with the error
    code and at the place of the machine.  The first piece ends inside the
    expression, but not in an atom behind a ['], and no ['] stands before a
    string. *)
Theorem event_pieces_report_as_one ss hs lin1 blk1 o1 len1 s1 term1 post1 a1
    lin2 blk2 o2 len2 s2 term2 post2 before err t a rest :
  0 < ss -> ss + 2 ^ 33 < 2 ^ 64 ->
  text_at blk1 o1 len1 s1 term1 post1 -> text_at blk2 o2 len2 s2 term2 post2 ->
  no_quoted_string s1 = true -> no_quoted_string s2 = true ->
  Z.of_nat (2 * length (s1 ++ s2)) < int_max ->
  arun a_init s1 = AStop a1 -> a_squoted a1 = 0 -> a_state a1 <> Quote ->
  arun a_init (s1 ++ s2) = ARet err t a rest ->
  ⦃ mem_ok ∗ g_val_start_size ↦ ss ∗ handlers_at hs ∗ lin1 ↦ blk1 ∗ lin2 ↦ blk2 ∗
    g_trace ↦ before ⦄
    report_pieces (Some (lin1, o1)) len1 (Some (lin2, o2)) len2 (Some hs)
  ⟪ r, ∃ cc s i, ⌈r = Some cc /\ at_pos blk2 term2 post2 i rest⌉ ∗
       econt_at ss cc s hs (Some (lin2, o2)) a err (Some (lin2, i)) ∗
       trace_at before (result_tokens t) ∗
       mem_ok ∗ g_val_start_size ↦ ss ∗ handlers_at hs ∗ lin1 ↦ blk1 ∗ lin2 ↦ blk2 ⟫.
Proof.
  intros Hss Hsz Ht1 Ht2 Hq1 Hq2 Hlen Hs1 Hsq Hquote Hr. rewrite length_app in Hlen.
  assert (arun a1 s2 = ARet err t a rest) as Hs2 by (by rewrite arun_app Hs1 in Hr).
  iIntros "(Hm & Hs & Hh & Hl1 & Hl2 & Htr)". unfold report_pieces. wp_bind_head.
  iApply (wp_report_events ss Hss Hsz hs lin1 blk1 o1 len1 s1 term1 post1
    (Z.of_nat (2 * length s1)) before with "Hm Hs Hh Hl1 Htr"); [done| |done|lia|done|].
  { unfold parsable. by rewrite Hs1. }
  iIntros (cc s) "Hr Hm Hs Hh Hl1". rewrite Hs1. iDestruct "Hr" as "(%Ha & Hcc & Htr)".
  destruct Ha as [Hwf [Hb1 Hb2]]. pose proof (text_end_ok _ _ _ _ _ _ Ht2).
  iApply (wp_cparse_events ss Hss Hsz cc s hs a1 lin2 blk2 _ None _ o2 o2 len2 s2 term2 post2
    (Z.of_nat (2 * length s1 + 2 * length s2)) with "[Hcc] Hm Hh Hl2 Htr"); try done.
  - by destruct Ht2.
  - by eapply calm_between.
  - by rewrite Hs2.
  - lia.
  - split; simpl in *; lia.
  - by iApply econt_at_ready.
  - rewrite Hs2. iIntros "(%i & %Hi & Hcc & Htr) Hm Hh Hl2". iExists cc, s, i. iFrame.
    iPureIntro. by destruct Hi.
Qed.
End theorems.

#[local] Existing Instances default_mem cached_pool.

(** A list in a list, a quoted atom and a string. *)
Definition demo_tree : tree :=
  Node [Atom SEXP_BASIC [97]; Node [Atom SEXP_SQUOTE [98]]; Atom SEXP_DQUOTE [34; 99];
        Atom SEXP_BASIC [100; 101]].
Definition demo_piece1 : list Z := bytes_of_string "(a ('b) " ++ [34; 92; 34; 99; 34].
Definition demo_piece2 : list Z := bytes_of_string " de) f".

Definition demo_events (cells : list (loc * cell)) : list (loc * cell) :=
  (g_trace, CTrace []) :: (65%positive, CHandlers (mk_handlers true true true true)) :: cells.

Lemma events_describe_expression_witness :
  let text := demo_piece1 ++ demo_piece2 in
  exists r h,
    report_events (Some (text_block, 0)) 19 (Some 65%positive)
      (heap_of (demo_events (startup text))) = Done r h /\
    ((∃ cc s i, ⌈r = Some cc /\ at_pos ((Det <$> text) ++ [Det 0]) 0 [] i [32; 102]⌉ ∗
       econt_at 256 cc s 65 (Some (text_block, 0)) a_init SEXP_ERR_OK (Some (text_block, i)) ∗
       trace_at [] (tokens demo_tree) ∗
       mem_ok ∗ g_val_start_size ↦ 256 ∗ handlers_at 65 ∗
       text_block ↦ ((Det <$> text) ++ [Det 0])) ∗
     ((pool_ok 0 0 ∗ errno_own) ∗ g_val_grow_size ↦ 64))%I h.
Proof.
  intros text. refine (run_frame _ _ _ _ (demo_events (startup text))
    (events_describe_expression 256 65 text_block ((Det <$> text) ++ [Det 0]) 0 19 text 0 [] []
      SEXP_ERR_OK (Some demo_tree) a_init [32; 102] _ _ _ _ _ _) _ _).
  - by vm_compute.
  - by vm_compute.
  - apply (startup_text text). repeat (constructor; [done|]). constructor.
  - by vm_compute.
  - by vm_compute.
  - by vm_compute.
  - apply (bool_decide_unpack _). by vm_compute.
  - iIntros "(Htr & Hh & Hs)". iDestruct (startup_env with "Hs") as "((Hm & Hp & Hs & Hg) & He & Hl)".
    iFrame.
Defined.

(** The same text, cut behind the string. *)
Lemma event_pieces_report_as_one_witness :
  let blk2 := (Det <$> demo_piece2) ++ [Det 0] in
  let cells := (66%positive, CChars blk2) :: startup demo_piece1 in
  exists r h,
    report_pieces (Some (text_block, 0)) 13 (Some (66%positive, 0)) 6 (Some 65%positive)
      (heap_of (demo_events cells)) = Done r h /\
    ((∃ cc s i, ⌈r = Some cc /\ at_pos blk2 0 [] i [32; 102]⌉ ∗
       econt_at 256 cc s 65 (Some (66%positive, 0)) a_init SEXP_ERR_OK (Some (66%positive, i)) ∗
       trace_at [] (tokens demo_tree) ∗
       mem_ok ∗ g_val_start_size ↦ 256 ∗ handlers_at 65 ∗
       text_block ↦ ((Det <$> demo_piece1) ++ [Det 0]) ∗ 66%positive ↦ blk2) ∗
     ((pool_ok 0 0 ∗ errno_own) ∗ g_val_grow_size ↦ 64))%I h.
Proof.
  intros blk2 cells. refine (run_frame _ _ _ _ (demo_events cells)
    (event_pieces_report_as_one 256 65 text_block ((Det <$> demo_piece1) ++ [Det 0]) 0 13
      demo_piece1 0 [] (mk_astate AfterString [] 0 0 0
        [[Atom SEXP_BASIC [97]; Node [Atom SEXP_SQUOTE [98]]; Atom SEXP_DQUOTE [34; 99]]] false)
      66 blk2 0 6 demo_piece2 0 [] []
      SEXP_ERR_OK (Some demo_tree) a_init [32; 102] _ _ _ _ _ _ _ _ _ _ _) _ _).
  - by vm_compute.
  - by vm_compute.
  - apply (startup_text demo_piece1). repeat (constructor; [done|]). constructor.
  - apply (startup_text demo_piece2). repeat (constructor; [done|]). constructor.
  - by vm_compute.
  - by vm_compute.
  - by vm_compute.
  - vm_compute. reflexivity.
  - done.
  - done.
  - by vm_compute.
  - apply (bool_decide_unpack _). by vm_compute.
  - iIntros "(Htr & Hh & H2 & Hs)".
    iDestruct (startup_env with "Hs") as "((Hm & Hp & Hs & Hg) & He & Hl)". by iFrame.
Defined.
