(* ===== verification/WatchSpec.v ===== *)
(** Event handlers in the mode that builds expressions: they are called for
    the parts of the expression, which is the same with them and without
    them. *)
From S2P Require Import Prelude SexpTypes CMem SepLogic SexpMemory FastStack CLib ElementPool.
From S2P Require Import Trees Sexp Print Parser Machine Events Simulation Refinement ParserSpec.
From S2P Require Import ParseSexp.

(** A client: it asks for the calls and for the expression. *)
Definition parse_watched `{MemApi, PoolApi} (str : cptr) (len : Z) (handlers : ptr) : M ptr :=
  cc ← init_continuation None;
  modify cc (fun c => c <| pc_event_handlers := handlers |>);;
  cparse_sexp str len cc.

Section theorems.
Context {api : MemApi} {laws : MemLaws api} {pool : PoolApi} {plaws : PoolLaws api pool}.

(** C20. A parser with handlers builds the expression that it builds without
    them, with the same error code and place in the text, and it makes the
    calls that describe the expression: the start and the end of every list
    and every atom with its characters, in the order of the text.  When the
    text ends inside an expression the calls are those for the lists that
    are open and what is in them. *)
Theorem watched_parser_reports ss gs hs lin blk o len text term post before N m :
  params_ok ss gs -> text_at blk o len text term post -> parsable text ->
  Z.of_nat (m + 2 * length text) < int_max ->
  ⦃ parser_env ss gs N m ∗ errno_own ∗ handlers_at hs ∗ lin ↦ blk ∗ g_trace ↦ before ⦄
    parse_watched (Some (lin, o)) len (Some hs)
  ⟪ r, ∃ cc, ⌈r = Some cc⌉ ∗
       watched (Watched hs before []) ss gs cc lin blk (Some (lin, o)) term post N
         (Z.of_nat (m + 2 * length text)) (arun a_init text) ⟫.
Proof.
  intros (Hss & Hgs & Hsz) Ht Hp Hlen. iIntros "((Hm & Hpool & Hs & Hg) & He & Hh & Hl & Htr)".
  unfold parse_watched. wp_bind_head.
  iApply (wp_init_continuation ss gs with "Hm Hs"); [done..|].
  iIntros (cc s v vc) "Hcc -> Hbuf Hst Hm Hs". wp_bind_head.
  iApply (wp_modify with "Hcc"). iIntros "Hcc". fields.
  pose proof (text_end_ok _ _ _ _ _ _ Ht) as Hend. destruct Ht as [Hpos _ _].
  iApply (wp_cparse_watched ss gs Hss Hgs Hsz (Watched hs before []) cc a_init lin blk _ None None
            o o len text term post N m with "[Hcc Hbuf Hst] [Hh Htr] [$Hm $Hpool $Hs $Hg] He Hl");
    try done.
  - by apply plain_stop_ok.
  - apply budget_start.
  - iExists s, v, _, 0, ss, _, _, 0, 0, None. by iFrame.
  - simpl. iFrame. by iApply trace_at_start.
  - iIntros "Hr". iExists cc. by iFrame.
Qed.
End theorems.

#[local] Existing Instances default_mem cached_pool.

(** A list in a list, a quoted atom, a string with an escape, and an atom
    that the text cuts. *)
Lemma watched_parser_reports_witness :
  let text := bytes_of_string "(a ('b) " ++ [34; 92; 34; 99; 34] ++ bytes_of_string " de" in
  let cells := (g_trace, CTrace []) :: (65%positive, CHandlers (mk_handlers true true true true))
                 :: startup text in
  exists r h,
    parse_watched (Some (text_block, 0)) 16 (Some 65%positive) (heap_of cells) = Done r h /\
    (∃ cc, ⌈r = Some cc⌉ ∗
       watched (Watched 65 [] []) 256 64 cc text_block ((Det <$> text) ++ [Det 0])
         (Some (text_block, 0)) 0 [] 0 32 (arun a_init text))%I h.
Proof.
  intros text cells. refine (run_triple _ _ _ cells
    (watched_parser_reports 256 64 65 text_block ((Det <$> text) ++ [Det 0]) 0 16 text 0 [] [] 0 0
      _ _ _ _) _ _).
  - by vm_compute.
  - apply (startup_text text). repeat (constructor; [done|]). constructor.
  - by vm_compute.
  - by vm_compute.
  - apply (bool_decide_unpack _). by vm_compute.
  - iIntros "(Htr & Hh & Hs)". iDestruct (startup_env with "Hs") as "($ & $ & $)". iFrame.
Defined.
