(* ===== verification/Syntax.v ===== *)
(** The text of an expression, and the texts from which the parser gets the
    expression back. *)
From S2P Require Import Prelude SexpTypes CMem SepLogic CLib Trees ParserStates Machine.

(** ** What the printers write *)

(** Double quotes and backslashes of a string get a backslash. *)
Definition escape_char (c : Z) : list Z :=
  if (c =? c_dquote) || (c =? c_bslash) then [c_bslash; c] else [c].
Definition escape (s : list Z) : list Z := s ≫= escape_char.

Definition atom_text (aty : atom_t) (s : list Z) : list Z :=
  match aty with
  | SEXP_DQUOTE => [c_dquote] ++ escape s ++ [c_dquote]
  | SEXP_SQUOTE => c_squote :: s
  | _ => s
  end.

Definition binary_text (d : list Z) : list Z :=
  [c_hash; c_b; c_hash] ++ digits (Z.of_nat (length d)) ++ [c_hash] ++ d ++ [c_space].

(** The elements of a list with a space between them. *)
Section join.
Variable text : tree -> list Z.
Fixpoint join (ts : list tree) : list Z :=
  match ts with
  | [] => []
  | [t] => text t
  | t :: ts => text t ++ c_space :: join ts
  end.
End join.

Fixpoint tree_text (t : tree) : list Z :=
  match t with
  | Atom aty s => atom_text aty s
  | Binary d => binary_text d
  | Node ts => c_lparen :: join tree_text ts ++ [c_rparen]
  end.
Definition forest_text (ts : list tree) : list Z := join tree_text ts.

Example tree_text_ex :
  tree_text (Node [Atom SEXP_BASIC (bytes_of_string "ab"); Node [];
                   Atom SEXP_DQUOTE [c_dquote; c_bslash]]) =
  bytes_of_string "(ab () " ++ [34; 92; 34; 92; 92; 34; 41].
Proof. reflexivity. Qed.

(** ** Expressions that survive printing *)

(** A character of a word: no syntax, no white space, no backslash. *)
Definition word_char (c : Z) : bool := is_atom_char c && negb (c =? c_bslash).

(** The first character of a word at the start of an element. *)
Definition word_start (c : Z) : bool :=
  word_char c && negb (c =? c_semi) && negb (is_blank c).

(** A word that the mode with binary data takes for the start of it. *)
Definition binary_start (s : list Z) : bool :=
  match s with
  | c1 :: c2 :: c3 :: _ => (c1 =? c_hash) && (c2 =? c_b) && (c3 =? c_hash)
  | _ => false
  end.

(** The size of binary data is a positive [int]. *)
Definition blob_ok (d : list Z) : bool :=
  (0 <? Z.of_nat (length d)) && (Z.of_nat (length d) <=? int_max).

Definition printable_atom (aty : atom_t) (s : list Z) : bool :=
  match aty with
  | SEXP_BASIC =>
      match s with [] => false | c :: s => word_start c && forallb word_char s end
  | SEXP_SQUOTE => forallb word_char s
  | SEXP_DQUOTE => forallb (fun c => negb (c =? 0)) s
  | SEXP_BINARY => false
  end.

(** The elements of a list that the parser reads back, in the mode with
    binary data or without. *)
Fixpoint printable (il : bool) (t : tree) : bool :=
  match t with
  | Atom aty s =>
      printable_atom aty s &&
      match aty with SEXP_BASIC => negb (il && binary_start s) | _ => true end
  | Binary d => il && blob_ok d
  | Node ts => forallb (printable il) ts
  end.

(** ** The parser reads them back *)

(** Between two elements of a list. *)
Definition between (il : bool) (q : Z) (stk : list (list tree)) : astate :=
  mk_astate Between [] 0 0 q stk il.

Lemma atom_char_pos c : is_atom_char c = true -> c <> 0.
Proof. by intros Hc ->. Qed.

Lemma word_char_is c : word_char c = true -> is_atom_char c = true /\ c <> c_bslash.
Proof.
  unfold word_char. rewrite andb_true_iff negb_true_iff Z.eqb_neq. done.
Qed.

(** A syntax character is no character of a word. *)
Lemma atom_char_not c : is_atom_char c = true ->
  c <> c_dquote /\ c <> c_squote /\ c <> c_lparen /\ c <> c_rparen /\ is_blank c = false.
Proof.
  intros Hc.
  assert (forall d, is_atom_char d = false -> c <> d) as Hne by (intros d Hd ->; congruence).
  split_and!; try (apply Hne; reflexivity).
  unfold is_blank. rewrite !orb_false_iff !Z.eqb_neq.
  split_and!; apply Hne; reflexivity.
Qed.

(** The characters of a word go into the buffer. *)
Lemma arun_word il s : forall buf sq q stk rest,
  forallb word_char s = true ->
  arun (mk_astate InAtom buf 0 sq q stk il) (s ++ rest) =
  arun (mk_astate InAtom (buf ++ s) 0 sq q stk il) rest.
Proof.
  induction s as [|c s IH]; intros buf sq q stk rest Hs.
  { by rewrite app_nil_r. }
  simpl in Hs. apply andb_true_iff in Hs as [Hc Hs].
  apply word_char_is in Hc as [Hc Hb]. simpl app. rewrite arun_cons.
  rewrite astep_char; [|by apply atom_char_pos]. unfold anext, astate4. cbn [a_state a_esc]. simpl (0 =? 1). cbv iota. simpl andb. rewrite Hc.
  cbn [negb]. unfold a_store, esc_after. destruct (Z.eqb_spec c c_bslash); [done|]. afields.
  rewrite (IH (buf ++ [c])) // -(assoc_L app). done.
Qed.

(** The end of an element: a space or a closing parenthesis. *)
Definition delimiter (c : Z) : Prop := c = c_space \/ c = c_rparen.

Lemma arun_word_end il buf sq q ts stk c rest :
  delimiter c ->
  arun (mk_astate InAtom buf 0 sq q (ts :: stk) il) (c :: rest) =
  arun (between il q ((ts ++ [Atom (if sq =? 0 then SEXP_BASIC else SEXP_SQUOTE) buf]) :: stk))
    (c :: rest).
Proof. intros [-> | ->]; rewrite !arun_cons; reflexivity. Qed.

(** A hidden character takes the place of its backslash. *)
Lemma arun_hidden il c c' buf q stk rest :
  is_escapable c = true -> c' <> 0 ->
  arun (mk_astate InString buf 0 0 q stk il) (c_bslash :: c :: c' :: rest) =
  arun (mk_astate InString (buf ++ [c]) 0 0 q stk il) (c' :: rest).
Proof.
  intros Hc Hc'. rewrite arun_cons /=. unfold a_quoted. simpl. afields.
  rewrite !arun_cons (astep_char _ c); [|by intros ->]. rewrite (astep_char _ c'); [|done].
  unfold anext, astate5. cbn [a_state a_esc a_buf]. rewrite Hc. simpl.
  destruct (Z.eqb_spec c' 0); [done|].
  destruct buf as [|b buf]; [done|]. simpl app.
  unfold a_replace_last. afields. by rewrite app_comm_cons removelast_last.
Qed.

(** What follows a hidden character is no NUL. *)
Lemma escape_next s rest :
  forallb (fun c => negb (c =? 0)) s = true ->
  exists c k, escape s ++ c_dquote :: rest = c :: k /\ c <> 0.
Proof.
  destruct s as [|c s]; intros Hs; [by eexists _, _|]. simpl in Hs.
  apply andb_true_iff in Hs as [Hc%negb_true_iff%Z.eqb_neq _].
  change (escape (c :: s)) with (escape_char c ++ escape s). unfold escape_char.
  destruct (_ || _); by eexists _, _.
Qed.

(** The characters of a string. *)
Lemma arun_escape il s : forall buf q stk rest,
  forallb (fun c => negb (c =? 0)) s = true ->
  arun (mk_astate InString buf 0 0 q stk il) (escape s ++ c_dquote :: rest) =
  arun (mk_astate InString (buf ++ s) 0 0 q stk il) (c_dquote :: rest).
Proof.
  induction s as [|c s IH]; intros buf q stk rest Hs.
  { by rewrite app_nil_r. }
  change (escape (c :: s)) with (escape_char c ++ escape s).
  simpl in Hs. apply andb_true_iff in Hs as [Hc0%negb_true_iff%Z.eqb_neq Hs].
  rewrite (cons_middle c) (assoc_L app) -IH // -(assoc_L app). unfold escape_char.
  destruct ((c =? c_dquote) || (c =? c_bslash)) eqn:Hc.
  - destruct (escape_next s rest Hs) as (c' & k & -> & Hc').
    apply arun_hidden; [|done].
    apply orb_true_iff in Hc as [Hc|Hc]; apply Z.eqb_eq in Hc; by subst.
  - apply orb_false_iff in Hc as [H1 H2]. simpl app. rewrite arun_cons astep_char //.
    unfold anext, astate5. cbn [a_state a_esc]. simpl (0 =? 1). simpl andb. cbv iota.
    unfold a_quoted. rewrite H1. unfold esc_after. by rewrite H2.
Qed.

(** The steps from the characters of the syntax. *)
Lemma step_squote il q stk rest :
  arun (between il q stk) (c_squote :: rest) = arun (mk_astate Quote [] 0 0 q stk il) rest.
Proof. by rewrite arun_cons. Qed.

Lemma step_dquote il q stk rest :
  arun (between il q stk) (c_dquote :: rest) = arun (mk_astate InString [] 0 0 q stk il) rest.
Proof. by rewrite arun_cons. Qed.

Lemma step_space il q stk rest : arun (between il q stk) (c_space :: rest) = arun (between il q stk) rest.
Proof. by rewrite arun_cons. Qed.

Lemma step_lparen il q stk c rest :
  c <> 0 ->
  arun (between il q stk) (c_lparen :: c :: rest) = arun (between il q ([] :: stk)) (c :: rest).
Proof.
  intros Hc. transitivity (arun (mk_astate Open [] 0 0 q stk il) (c :: rest)); rewrite arun_cons;
    [done|]. by rewrite astep_char.
Qed.

Lemma step_rparen il q ts us stk c rest :
  arun (between il q (ts :: us :: stk)) (c_rparen :: c :: rest) =
  arun (between il q ((us ++ [Node ts]) :: stk)) (c :: rest).
Proof.
  transitivity (arun (mk_astate Close [] 0 0 q (ts :: us :: stk) il) (c_rparen :: c :: rest));
    by rewrite arun_cons.
Qed.

Lemma step_string_end il buf q ts stk c rest :
  c <> 0 ->
  arun (mk_astate InString buf 0 0 q (ts :: stk) il) (c_dquote :: c :: rest) =
  arun (between il q ((ts ++ [Atom SEXP_DQUOTE buf]) :: stk)) (c :: rest).
Proof.
  intros Hc.
  transitivity (arun (mk_astate AfterString [] 0 0 q ((ts ++ [Atom SEXP_DQUOTE buf]) :: stk) il)
    (c :: rest)); rewrite arun_cons; [done|]. by rewrite astep_char.
Qed.

(** Reading an element inside a list. *)
Definition reads (il : bool) (t : tree) : Prop := forall q ts stk c rest,
  delimiter c ->
  arun (between il q (ts :: stk)) (tree_text t ++ c :: rest) =
  arun (between il q ((ts ++ [t]) :: stk)) (c :: rest).

(** ** Words *)

Lemma between_start il c q stk rest :
  is_atom_char c = true -> c <> c_semi -> c <> c_bslash ->
  arun (between il q stk) (c :: rest) =
  arun (mk_astate (if (c =? c_hash) && il then BinHash else InAtom) [c] 0 0 q stk il) rest.
Proof.
  intros Hc Hs Hb. pose proof (atom_char_pos _ Hc). apply atom_char_not in Hc as (H1 & H2 & H3 & H4 & H5).
  rewrite arun_cons astep_char //. unfold between, anext, astate1. cbn [a_state]. rewrite H5.
  rewrite (proj2 (Z.eqb_neq _ _) Hs) (proj2 (Z.eqb_neq _ _) H3) (proj2 (Z.eqb_neq _ _) H4)
    (proj2 (Z.eqb_neq _ _) H1) (proj2 (Z.eqb_neq _ _) H2).
  unfold a_store, esc_after. by rewrite (proj2 (Z.eqb_neq _ _) Hb).
Qed.

(** A word that starts like binary data but is none: the states 12 and 13
    give it back to state 4. *)
Lemma arun_hash_word s q stk c rest :
  forallb word_char s = true -> binary_start (c_hash :: s) = false -> delimiter c ->
  arun (mk_astate BinHash [c_hash] 0 0 q stk true) (s ++ c :: rest) =
  arun (mk_astate InAtom (c_hash :: s) 0 0 q stk true) (c :: rest).
Proof.
  intros Hs Hb Hd.
  assert (forall k x s', k <> c_b -> k <> 0 ->
    arun (mk_astate BinHash x 0 0 q stk true) (k :: s') =
    arun (mk_astate InAtom x 0 0 q stk true) (k :: s')) as Hhash.
  { intros k x s' Hk Hk0. rewrite arun_cons astep_char //. unfold anext, astate12. cbn [a_state].
    by rewrite (proj2 (Z.eqb_neq _ _) Hk). }
  assert (forall k x s', k <> c_hash -> k <> 0 ->
    arun (mk_astate BinTag x 0 0 q stk true) (k :: s') =
    arun (mk_astate InAtom x 0 0 q stk true) (k :: s')) as Htag.
  { intros k x s' Hk Hk0. rewrite arun_cons astep_char //. unfold anext, astate13. cbn [a_state].
    by rewrite (proj2 (Z.eqb_neq _ _) Hk). }
  destruct s as [|x s]; [by rewrite Hhash; [|destruct Hd as [-> | ->]..]|].
  rewrite -(arun_word _ (x :: s) [c_hash]) //. simpl in Hs. apply andb_true_iff in Hs as [Hx Hs].
  apply word_char_is in Hx as [Hx%atom_char_pos _].
  destruct (Z.eq_dec x c_b) as [->|Hxb]; [|by apply Hhash]. simpl app.
  transitivity (arun (mk_astate BinTag [c_hash; c_b] 0 0 q stk true) (s ++ c :: rest));
    [by rewrite arun_cons|].
  transitivity (arun (mk_astate InAtom [c_hash; c_b] 0 0 q stk true) (s ++ c :: rest));
    [|by rewrite (arun_cons (mk_astate InAtom _ _ _ _ _ _))].
  destruct s as [|y s]; [by apply Htag; destruct Hd as [-> | ->]|].
  simpl in Hs. apply andb_true_iff in Hs as [[Hy%atom_char_pos _]%word_char_is _].
  apply Htag; [|done]. intros ->. done.
Qed.

Lemma reads_basic il s :
  printable_atom SEXP_BASIC s = true -> il && binary_start s = false ->
  reads il (Atom SEXP_BASIC s).
Proof.
  intros Hs Hil q ts stk c rest Hd. destruct s as [|x s]; [done|]. simpl in Hs.
  apply andb_true_iff in Hs as [Hx Hs]. unfold word_start in Hx.
  apply andb_true_iff in Hx as [Hx _]. apply andb_true_iff in Hx as [Hx Hsemi].
  apply negb_true_iff, Z.eqb_neq in Hsemi. apply word_char_is in Hx as [Hx Hb].
  simpl tree_text. simpl app. rewrite between_start //.
  transitivity (arun (mk_astate InAtom (x :: s) 0 0 q (ts :: stk) il) (c :: rest));
    [|by rewrite arun_word_end].
  destruct (Z.eqb_spec x c_hash) as [->|]; simpl andb; [destruct il|].
  - by apply arun_hash_word.
  - by apply arun_word.
  - by apply arun_word.
Qed.

Lemma reads_squote il s : printable_atom SEXP_SQUOTE s = true -> reads il (Atom SEXP_SQUOTE s).
Proof.
  intros Hs q ts stk c rest Hd. simpl tree_text. simpl app. rewrite step_squote.
  assert (arun (mk_astate Quote [] 0 0 q (ts :: stk) il) (s ++ c :: rest) =
    arun (mk_astate InAtom [] 0 1 q (ts :: stk) il) (s ++ c :: rest)) as ->.
  { assert (exists c' k, s ++ c :: rest = c' :: k /\ c' <> 0 /\ c' <> c_dquote /\ c' <> c_lparen)
      as (c' & k & -> & H0 & H1 & H2).
    { destruct s as [|x s]; simpl.
      - exists c, rest. by destruct Hd as [-> | ->].
      - exists x, (s ++ c :: rest). simpl in Hs. apply andb_true_iff in Hs as [Hx _].
        apply word_char_is in Hx as [Hx _]. pose proof (atom_char_pos _ Hx).
        by apply atom_char_not in Hx as (? & ? & ? & _). }
    rewrite arun_cons astep_char //. unfold anext, astate7. cbn [a_state].
    destruct (Z.eqb_spec c' c_dquote); [done|]. by destruct (Z.eqb_spec c' c_lparen). }
  rewrite arun_word //. by rewrite arun_word_end.
Qed.

Lemma delimiter_pos c : delimiter c -> c <> 0.
Proof. by intros [-> | ->]. Qed.

Lemma reads_dquote il s : printable_atom SEXP_DQUOTE s = true -> reads il (Atom SEXP_DQUOTE s).
Proof.
  intros Hs q ts stk c rest Hd%delimiter_pos. simpl tree_text. simpl app. rewrite step_dquote.
  by rewrite -(assoc_L app) /= arun_escape // app_nil_l step_string_end.
Qed.

(** ** Binary data *)

Lemma arun_size s : forall buf q stk rest,
  forallb is_digit s = true ->
  arun (mk_astate BinSize buf 0 0 q stk true) (s ++ rest) =
  arun (mk_astate BinSize (buf ++ s) 0 0 q stk true) rest.
Proof.
  induction s as [|c s IH]; intros buf q stk rest Hs; [by rewrite app_nil_r|].
  simpl in Hs. apply andb_true_iff in Hs as [Hc%is_digit_range Hs]. simpl app.
  rewrite arun_cons astep_char; [|lia]. unfold anext, astate14. cbn [a_state].
  destruct (Z.eqb_spec c c_hash); [lia|].
  unfold a_store, esc_after. destruct (Z.eqb_spec c c_bslash); [lia|].
  afields. by rewrite IH // -(assoc_L app).
Qed.

(** All bytes of the data are read, whatever they are. *)
Lemma arun_data d : forall d0 buf q ts stk rest,
  d <> [] ->
  arun (mk_astate (BinData (length d) d0) buf 0 0 q (ts :: stk) true) (d ++ rest) =
  arun (between true q ((ts ++ [Binary (d0 ++ d)]) :: stk)) rest.
Proof.
  induction d as [|c d IH]; intros d0 buf q ts stk rest Hd; [done|]. simpl app.
  rewrite arun_cons. unfold astep, stops. cbn [a_state]. rewrite andb_false_r.
  unfold anext, astate15. cbn [a_state a_stack length]. destruct d as [|c' d]; [done|].
  afields. cbn [length]. rewrite (IH (d0 ++ [c])) // -(assoc_L app). done.
Qed.

Lemma size_value_digits d :
  blob_ok d = true -> size_value (digits (Z.of_nat (length d))) = Some (length d).
Proof.
  unfold blob_ok, size_value. intros Hd. rewrite atoi_digits.
  2:{ apply andb_true_iff in Hd as [H1%Z.ltb_lt H2%Z.leb_le]. unfold int_max in H2. lia. }
  by rewrite Hd Nat2Z.id.
Qed.

Lemma reads_binary d : blob_ok d = true -> reads true (Binary d).
Proof.
  intros Hd q ts stk c rest _. simpl tree_text. unfold binary_text.
  set (n := digits (Z.of_nat (length d))).
  transitivity (arun (mk_astate BinHash [c_hash] 0 0 q (ts :: stk) true)
    (([c_b; c_hash] ++ n ++ [c_hash] ++ d ++ [c_space]) ++ c :: rest)); [by rewrite arun_cons|].
  transitivity (arun (mk_astate BinTag [c_hash; c_b] 0 0 q (ts :: stk) true)
    (([c_hash] ++ n ++ [c_hash] ++ d ++ [c_space]) ++ c :: rest)); [by rewrite arun_cons|].
  transitivity (arun (mk_astate BinSize [] 0 0 q (ts :: stk) true)
    (n ++ c_hash :: d ++ c_space :: c :: rest)).
  { simpl app. rewrite -!(assoc_L app) /= -!(assoc_L app) /=. by rewrite arun_cons. }
  rewrite arun_size; [|apply digits_digits; lia].
  transitivity (arun (mk_astate (BinData (length d) []) n 0 0 q (ts :: stk) true)
    (d ++ c_space :: c :: rest)).
  { rewrite arun_cons astep_char //. unfold anext, astate14. cbn [a_state a_buf].
    by rewrite app_nil_l size_value_digits. }
  rewrite arun_data; [by rewrite step_space|]. by destruct d.
Qed.

(** ** Lists *)

(** A list of elements that are read is read. *)
Lemma reads_join il ts : Forall (reads il) ts -> forall q us stk rest,
  arun (between il q (us :: stk)) (join tree_text ts ++ c_rparen :: rest) =
  arun (between il q ((us ++ ts) :: stk)) (c_rparen :: rest).
Proof.
  induction 1 as [|t ts Ht Hts IH]; intros q us stk rest.
  { by rewrite app_nil_r. }
  simpl join. destruct ts as [|t' ts].
  - rewrite Ht //. by right.
  - rewrite -(assoc_L app) Ht; [|by left]. simpl app. by rewrite step_space IH -(assoc_L app).
Qed.

(** The first character of an element. *)
Lemma text_next il t s : printable il t = true -> exists c k, tree_text t ++ s = c :: k /\ c <> 0.
Proof.
  destruct t as [aty x|d|ts]; intros Hp; [|by eexists _, _..].
  destruct aty; [|by eexists _, _..|done].
  destruct x as [|c x]; [done|]. simpl in Hp. unfold word_start in Hp.
  rewrite !andb_true_iff in Hp. destruct Hp as [[[[[Hc%atom_char_pos _] _] _] _] _].
  by eexists _, _.
Qed.

Lemma join_next il ts s :
  forallb (printable il) ts = true ->
  exists c k, join tree_text ts ++ c_rparen :: s = c :: k /\ c <> 0.
Proof.
  destruct ts as [|t ts]; [by eexists _, _|]. simpl forallb. intros [Ht _]%andb_true_iff.
  simpl join. destruct ts; [by eapply text_next|]. rewrite -(assoc_L app). by eapply text_next.
Qed.

Lemma reads_list il ts q stk rest :
  forallb (printable il) ts = true -> Forall (reads il) ts ->
  arun (between il q stk) (tree_text (Node ts) ++ rest) =
  arun (between il q (ts :: stk)) (c_rparen :: rest).
Proof.
  intros Hp Hts. simpl tree_text. rewrite -app_comm_cons -(assoc_L app) /=.
  destruct (join_next il ts rest Hp) as (c & k & Hk & Hc).
  by rewrite Hk step_lparen // -Hk reads_join.
Qed.

Lemma reads_node il ts :
  forallb (printable il) ts = true -> Forall (reads il) ts -> reads il (Node ts).
Proof.
  intros Hp Hts q us stk c rest Hd. by rewrite reads_list // step_rparen.
Qed.

Lemma printable_forest il ts :
  forallb (printable il) ts = true -> Forall (fun t => printable il t = true) ts.
Proof.
  induction ts as [|t ts IH]; simpl; [done|]. intros [? ?]%andb_true_iff. constructor; auto.
Qed.

Lemma printable_reads il t : printable il t = true -> reads il t.
Proof.
  induction t as [aty s|d|ts IH] using tree_forest_ind; intros Hp.
  - simpl in Hp. apply andb_true_iff in Hp as [Hs Hil].
    destruct aty; [apply negb_true_iff in Hil; by apply reads_basic|by apply reads_squote|
      by apply reads_dquote|done].
  - simpl in Hp. destruct il; [by apply reads_binary|done].
  - apply reads_node; [done|]. simpl in Hp. apply printable_forest in Hp. revert Hp.
    induction IH as [|t ts Ht _ IHts]; intros Hp; [done|].
    inversion_clear Hp. constructor; auto.
Qed.

Lemma printable_reads_all il ts : forallb (printable il) ts = true -> Forall (reads il) ts.
Proof.
  intros Hp%printable_forest. eapply Forall_impl; [done|]. apply printable_reads.
Qed.

(** The parser returns the list that was printed. *)
Lemma arun_list il ts :
  forallb (printable il) ts = true ->
  arun (a_start il) (tree_text (Node ts)) =
  ARet SEXP_ERR_OK (Some (Node ts)) (a_start il) [].
Proof.
  intros Hp. pose proof (printable_reads_all _ _ Hp).
  change (a_start il) with (between il 0 []). rewrite -(app_nil_r (tree_text _)).
  by rewrite reads_list.
Qed.

(** The word that a text ends with is complete at the line feed. *)
Lemma arun_word_outcome buf sq s :
  forallb word_char s = true ->
  match arun (mk_astate InAtom buf 0 sq 0 [] false) s with
  | AStop a =>
      exists a' rest, arun a [c_lf] = ARet SEXP_ERR_OK
        (Some (Atom (if sq =? 0 then SEXP_BASIC else SEXP_SQUOTE) (buf ++ s))) a' rest
  | _ => False
  end.
Proof.
  intros Hs. rewrite -(app_nil_r s) arun_word // arun_nil app_nil_r. eexists _, _.
  by rewrite arun_cons.
Qed.

Lemma outcome_word buf sq s t :
  forallb word_char s = true ->
  t = Atom (if sq =? 0 then SEXP_BASIC else SEXP_SQUOTE) (buf ++ s) ->
  arun (mk_astate InAtom buf 0 sq 0 [] false) s <> AWrong /\
  outcome_of (arun (mk_astate InAtom buf 0 sq 0 [] false) s) = (SEXP_ERR_OK, Some t).
Proof.
  intros Hs ->. pose proof (arun_word_outcome buf sq s Hs) as H.
  destruct (arun _ s); try done. simpl. by destruct H as (? & ? & ->).
Qed.

(** [parse_sexp] finds the printed expression. *)
Lemma parse_outcome_text t :
  printable false t = true ->
  parsable (tree_text t) /\ parse_outcome (tree_text t) = (SEXP_ERR_OK, Some t).
Proof.
  intros Hp. unfold parse_outcome, parsable.
  destruct t as [aty s|d|ts]; [|done|by rewrite arun_list].
  change a_init with (between false 0 []). simpl in Hp. apply andb_true_iff in Hp as [Hp _].
  destruct aty; [| | |done]; simpl tree_text.
  - destruct s as [|x s]; [done|]. simpl in Hp. unfold word_start, word_char in Hp.
    rewrite !andb_true_iff !negb_true_iff !Z.eqb_neq in Hp. destruct_and! Hp.
    rewrite between_start // andb_false_r. by apply outcome_word.
  - rewrite step_squote. destruct s as [|x s]; [done|].
    pose proof Hp as Hx. simpl in Hx. apply andb_true_iff in Hx as [Hx _].
    apply word_char_is in Hx as [Hx _]. pose proof (atom_char_pos _ Hx).
    apply atom_char_not in Hx as (H1 & _ & H3 & _).
    rewrite arun_cons astep_char //. unfold anext, astate7. cbn [a_state].
    destruct (Z.eqb_spec x c_dquote); [done|]. destruct (Z.eqb_spec x c_lparen); [done|].
    by apply (outcome_word [] 1 (x :: s)).
  - by rewrite step_dquote arun_escape.
Qed.
