(* ===== verification/PrintSpec.v ===== *)
(** What [print_sexp] writes: the text of the expression, or the part of it
    that fits. *)
From S2P Require Import Prelude SexpTypes CMem SepLogic SexpMemory FastStack CLib CString.
From S2P Require Import ElementPool Trees Layout SexpOps SexpOpsSpec Sexp Print ParserStates Machine.
From S2P Require Import Syntax.

(** The text of a forest, element by element. *)
Definition separator (ts : list tree) : list Z :=
  match ts with [] => [] | _ => [c_space] end.

Lemma forest_text_cons t ts :
  forest_text (t :: ts) = tree_text t ++ separator ts ++ forest_text ts.
Proof. destruct ts; simpl; [by rewrite app_nil_r|done]. Qed.

#[global] Arguments forest_text : simpl never.

(** The iterations of the printing loop. *)
Fixpoint tree_cost (t : tree) : nat :=
  match t with
  | Node ts => S (S (foldr (fun t n => tree_cost t + n)%nat O ts))
  | _ => 1%nat
  end.
Definition forest_cost (ts : list tree) : nat := foldr (fun t n => tree_cost t + n)%nat O ts.

Lemma forest_cost_le ts : (forest_cost ts <= 2 * forest_size ts)%nat.
Proof.
  induction ts as [|aty s ts IH|d ts IH|us ts IHu IH] using forest_ind; simpl; [lia..|].
  fold (forest_cost us) (forest_cost ts) (forest_size us) (forest_size ts). lia.
Qed.

Section print.
Context {api : MemApi} {laws : MemLaws api} {pool : PoolApi} {plaws : PoolLaws api pool}.
(** The buffer: [pre], then [tail], of which [size] bytes may be written. *)
Variables (lb stk fk : loc) (pre tail : list (fld Z)) (size : Z).
Hypotheses (Hsize : 0 < size < 2 ^ 64) (Htail : size <= Z.of_nat (length tail)).
(** The whole text, the sizes of the pools, and what is left over when the
    buffer is full. *)
Variables (T : list Z) (n m : nat) (K : hprop).
Hypothesis (Hn : Z.of_nat n < int_max).

Definition out (w : list Z) : hprop :=
  (lb ↦ (pre ++ (Det <$> w) ++ drop (length w) tail))%I.
Definition pst (w : list Z) (d : Z) : print_state :=
  mk_print (Some (lb, Z.of_nat (length pre + length w))) (size - Z.of_nat (length w)) d.

(** What the loop owns besides the expression and the stack. *)
Definition live : hprop := (mem_ok ∗ pool_ok n m ∗ errno_own)%I.

(** What is released when the buffer is full, and what is left. *)
Definition wreck : hprop :=
  ((∃ xs, is_stack stk xs) ∗ (∃ e, fk ↦ e ∗ owned_val e) ∗ K)%I.

Definition full : hprop :=
  (⌈size <= Z.of_nat (length T)⌉ ∗ K ∗ mem_ok ∗ pool_ok (S n) m ∗
   g_sexp_errno ↦ SEXP_ERR_BUFFER_FULL ∗ out (take (Z.to_nat (size - 1)) T ++ [c_nul]))%I.

Lemma wp_out_store w c Φ :
  Z.of_nat (length w) < size ->
  out w -∗ (out (w ++ [c]) -∗ Φ ()) -∗
  wp (store_char (Some (lb, Z.of_nat (length pre + length w))) c) Φ.
Proof.
  iIntros (Hw) "Ho HΦ". unfold out. destruct (drop (length w) tail) as [|x tl] eqn:Hd.
  { apply (f_equal length) in Hd. rewrite length_drop /= in Hd. lia. }
  iApply (wp_store_char with "Ho").
  { rewrite assoc_L. apply blk_set_app. by rewrite length_app length_fmap. }
  iIntros "Ho". iApply "HΦ". rewrite length_app fmap_app /= -!assoc_L /=.
  rewrite -drop_drop Hd. done.
Qed.

(** Another character in place of the last one. *)
Lemma wp_out_back w c c' Φ :
  Z.of_nat (length w) < size ->
  out (w ++ [c]) -∗ (out (w ++ [c']) -∗ Φ ()) -∗
  wp (store_char (Some (lb, Z.of_nat (length pre + length w))) c') Φ.
Proof.
  iIntros (Hw) "Ho HΦ". unfold out. rewrite !fmap_app !length_app /= -!assoc_L /=.
  iApply (wp_store_char with "Ho").
  { rewrite assoc_L. apply blk_set_app. by rewrite length_app length_fmap. }
  iIntros "Ho". iApply "HΦ". by rewrite -assoc_L.
Qed.

(** One character: there is room behind it, or the buffer is full. *)
Lemma wp_add_char c w s d R Φ :
  (R ⊢ wreck) -> T = w ++ c :: s -> Z.of_nat (length w) < size ->
  out w -∗ live -∗ R -∗
  (⌈Z.of_nat (length (w ++ [c])) < size⌉ -∗ out (w ++ [c]) -∗ live -∗ R -∗
     Φ (inr (pst (w ++ [c]) d))) ∧ (full -∗ Φ (inl (-1))) -∗
  wp (add_char_break_full (Some stk) (Some fk) c (pst w d)) Φ.
Proof.
  iIntros (HR HT Hw) "Ho (Hm & Hp & He) HR HΦ". unfold add_char_break_full, pst. cbn.
  wp_bind_head. iApply (wp_out_store with "Ho"); [done|]. iIntros "Ho".
  rewrite u64_small; [|lia].
  assert (Z.of_nat (length (w ++ [c])) = Z.of_nat (length w) + 1) as Hlen.
  { rewrite length_app /=. lia. }
  destruct (Z.eqb_spec (size - Z.of_nat (length w) - 1) 0).
  - iDestruct "HΦ" as "[_ HΦ]". unfold out_of_space. wp_bind_head.
    iApply (wp_set_errno with "He"). iIntros "He". simpl cadd.
    replace (Z.of_nat (length pre + length w) + 1 + -1) with
      (Z.of_nat (length pre + length w)) by lia.
    wp_bind_head. iApply (wp_out_back with "Ho"); [done|]. iIntros "Ho".
    iDestruct (HR with "HR") as "([%xs Hs] & (%sx & He' & Hv) & HK)".
    wp_bind_head. iApply (wp_destroy_stack_ok with "Hs Hm"). iIntros "Hm". wp_bind_head.
    iApply (wp_sexp_t_deallocate_val with "He' Hv Hp Hm"); [done|]. iIntros "Hp Hm".
    iApply wp_ret. iApply "HΦ". iFrame. subst T. rewrite length_app /=.
    iSplit; [iPureIntro; lia|].
    replace (Z.to_nat (size - 1)) with (length w) by lia. by rewrite take_app_length.
  - iDestruct "HΦ" as "[HΦ _]". iApply wp_ret.
    replace (size - Z.of_nat (length w) - 1) with (size - Z.of_nat (length (w ++ [c]))) by lia.
    replace (Z.of_nat (length pre + length w) + 1) with
      (Z.of_nat (length pre + length (w ++ [c]))) by lia.
    iApply ("HΦ" with "[] Ho [Hm Hp He] HR"); [iPureIntro; lia|iFrame].
Qed.
(** A character of a value, with the backslash that hides it. *)
Definition chars_text (aty : atom_t) (s : list Z) : list Z :=
  if decide (aty = SEXP_DQUOTE) then escape s else s.

Definition is_hidden (aty : atom_t) (c : Z) : bool :=
  ((c =? c_dquote) || (c =? c_bslash)) && bool_decide (aty = SEXP_DQUOTE).
Definition char_text (aty : atom_t) (c : Z) : list Z :=
  if is_hidden aty c then [c_bslash; c] else [c].

Lemma chars_text_cons aty c s : chars_text aty (c :: s) = char_text aty c ++ chars_text aty s.
Proof.
  unfold chars_text, char_text, is_hidden. destruct (decide (aty = SEXP_DQUOTE)).
  - by rewrite bool_decide_eq_true_2 // andb_true_r.
  - by rewrite bool_decide_eq_false_2 // andb_false_r.
Qed.

Lemma atom_text_chars aty s :
  atom_text aty s =
  match aty with SEXP_DQUOTE => [c_dquote] | SEXP_SQUOTE => [c_squote] | _ => [] end ++
  chars_text aty s ++ (if bool_decide (aty = SEXP_DQUOTE) then [c_dquote] else []).
Proof. destruct aty; simpl; rewrite ?app_nil_r //. Qed.

(** One character of a value. *)
Lemma wp_copy_char aty c (tc : cptr) w s d R
    (Φ : (Z + cptr * print_state) + (Z + cptr * print_state) -> hprop) :
  (R ⊢ wreck) -> T = w ++ char_text aty c ++ s -> Z.of_nat (length w) < size ->
  out w -∗ live -∗ R -∗
  (⌈Z.of_nat (length (w ++ char_text aty c)) < size⌉ -∗ out (w ++ char_text aty c) -∗
     live -∗ R -∗ Φ (inl (inr (cadd tc 1, pst (w ++ char_text aty c) d)))) ∧
  (full -∗ Φ (inr (inl (-1)))) -∗
  wp (r ← (if is_hidden aty c then add_char_break_full (Some stk) (Some fk) c_bslash (pst w d)
           else mret (inr (pst w d)));
      match r with
      | inl e => mret (inr (inl e))
      | inr st =>
          r ← add_char_break_full (Some stk) (Some fk) c st;
          match r with
          | inl e => mret (inr (inl e))
          | inr st => mret (inl (inr (cadd tc 1, st)))
          end
      end) Φ.
Proof.
  unfold char_text. iIntros (HR HT Hw) "Ho Hlive HR HΦ". wp_bind_head.
  destruct (is_hidden aty c).
  - iApply (wp_add_char c_bslash w (c :: s) d with "Ho Hlive HR"); [done..|]. iSplit.
    + iIntros "%Hw2 Ho Hlive HR". wp_bind_head.
      iApply (wp_add_char c (w ++ [c_bslash]) s d with "Ho Hlive HR");
        [done|by rewrite -assoc_L|done|].
      rewrite -assoc_L /=. iSplit.
      * iIntros "Hw3 Ho Hlive HR". iApply wp_ret. iDestruct "HΦ" as "[HΦ _]".
        iApply ("HΦ" with "Hw3 Ho Hlive HR").
      * iIntros "Hfull". iApply wp_ret. iDestruct "HΦ" as "[_ HΦ]". by iApply "HΦ".
    + iIntros "Hfull". iApply wp_ret. iDestruct "HΦ" as "[_ HΦ]". by iApply "HΦ".
  - iApply wp_ret. wp_bind_head.
    iApply (wp_add_char c w s d with "Ho Hlive HR"); [done..|]. iSplit.
    + iIntros "Hw3 Ho Hlive HR". iApply wp_ret. iDestruct "HΦ" as "[HΦ _]".
      iApply ("HΦ" with "Hw3 Ho Hlive HR").
    + iIntros "Hfull". iApply wp_ret. iDestruct "HΦ" as "[_ HΦ]". by iApply "HΦ".
Qed.

(** The loop that copies a value. *)
Lemma wp_copy_chars aty lv s2 : forall s1 rest fuel w s d R Φ,
  (lv ↦ ((Det <$> s1 ++ s2) ++ Det c_nul :: rest) ∗ R ⊢ wreck) ->
  Forall (fun c => c <> 0) s2 -> T = w ++ chars_text aty s2 ++ s ->
  Z.of_nat (length w) < size -> (length s2 < fuel)%nat ->
  out w -∗ live -∗ lv ↦ ((Det <$> s1 ++ s2) ++ Det c_nul :: rest) -∗ R -∗
  (⌈Z.of_nat (length (w ++ chars_text aty s2)) < size⌉ -∗ out (w ++ chars_text aty s2) -∗
     live -∗ lv ↦ ((Det <$> s1 ++ s2) ++ Det c_nul :: rest) -∗ R -∗
     ∀ tc, Φ (inr (tc, pst (w ++ chars_text aty s2) d))) ∧ (full -∗ Φ (inl (-1))) -∗
  wp (while fuel (copy_chars_body (Some stk) (Some fk) aty)
        (inr (Some (lv, Z.of_nat (length s1)), pst w d))) Φ.
Proof.
  induction s2 as [|c s2 IH]; intros s1 rest [|fuel] w s d R Φ HR Hs2 HT Hw Hf;
    simpl in Hf; try lia; iIntros "Ho Hlive Hv HR HΦ"; cbn [while];
    unfold copy_chars_body at 2; wp_bind_head.
  - iApply (wp_load_char with "Hv").
    { rewrite app_nil_r. apply blk_get_app. by rewrite length_fmap. }
    iIntros "Hv". rewrite Z.eqb_refl. wp_ret. iApply wp_ret.
    iDestruct "HΦ" as "[HΦ _]". unfold chars_text. destruct (decide _); simpl;
      rewrite app_nil_r; by iApply ("HΦ" with "[] Ho Hlive Hv HR").
  - inversion_clear Hs2 as [|? ? Hc Hs2'].
    iApply (wp_load_char with "Hv").
    { rewrite fmap_app -assoc_L /=. apply blk_get_app. by rewrite length_fmap. }
    iIntros "Hv". destruct (Z.eqb_spec c 0); [done|]. cbn [pr_left pst orb].
    destruct (Z.eqb_spec (size - Z.of_nat (length w)) 0); [lia|].
    rewrite chars_text_cons in HT |- *. rewrite -!assoc_L in HT. fold (is_hidden aty c).
    iApply (wp_copy_char aty c _ w _ d
      (lv ↦ ((Det <$> s1 ++ c :: s2) ++ Det c_nul :: rest) ∗ R) with "Ho Hlive [$Hv $HR]");
      [done..|]. iSplit.
    + iIntros "%Hw2 Ho Hlive [Hv HR]". simpl cadd.
      replace (Z.of_nat (length s1) + 1) with (Z.of_nat (length (s1 ++ [c])))
        by (rewrite length_app /=; lia).
      rewrite (cons_middle c s1 s2) (assoc_L app s1) (assoc_L app w).
      iApply (IH (s1 ++ [c]) with "Ho Hlive Hv HR"); try done.
      * by rewrite -(assoc_L app).
      * by rewrite -(assoc_L app).
      * lia.
    + iIntros "Hfull". iApply wp_ret. iDestruct "HΦ" as "[_ HΦ]". by iApply "HΦ".
Qed.
(** One character, or none. *)
Lemma wp_maybe_char (b : bool) c w s d R Φ :
  (R ⊢ wreck) -> T = w ++ (if b then [c] else []) ++ s -> Z.of_nat (length w) < size ->
  out w -∗ live -∗ R -∗
  (⌈Z.of_nat (length (w ++ if b then [c] else [])) < size⌉ -∗
     out (w ++ if b then [c] else []) -∗ live -∗ R -∗
     Φ (inr (pst (w ++ if b then [c] else []) d))) ∧ (full -∗ Φ (inl (-1))) -∗
  wp (if b then add_char_break_full (Some stk) (Some fk) c (pst w d) else mret (inr (pst w d)))
    Φ.
Proof.
  iIntros (HR HT Hw) "Ho Hlive HR HΦ". destruct b.
  - by iApply (wp_add_char with "Ho Hlive HR HΦ").
  - rewrite app_nil_r. iApply wp_ret. iDestruct "HΦ" as "[HΦ _]".
    by iApply ("HΦ" with "[] Ho Hlive HR").
Qed.

(** The quote before a value. *)
Definition quote_text (aty : atom_t) : list Z :=
  match aty with SEXP_DQUOTE => [c_dquote] | SEXP_SQUOTE => [c_squote] | _ => [] end.

Lemma wp_open_quote aty w s d R Φ :
  (R ⊢ wreck) -> T = w ++ quote_text aty ++ s -> Z.of_nat (length w) < size ->
  out w -∗ live -∗ R -∗
  (⌈Z.of_nat (length (w ++ quote_text aty)) < size⌉ -∗
     out (w ++ quote_text aty) -∗ live -∗ R -∗
     Φ (inr (pst (w ++ quote_text aty) d))) ∧ (full -∗ Φ (inl (-1))) -∗
  wp (match aty with
      | SEXP_DQUOTE => add_char_break_full (Some stk) (Some fk) c_dquote (pst w d)
      | SEXP_SQUOTE => add_char_break_full (Some stk) (Some fk) c_squote (pst w d)
      | _ => mret (inr (pst w d))
      end) Φ.
Proof.
  intros HR HT Hw. destruct aty.
  - by apply (wp_maybe_char false c_nul w s).
  - by apply (wp_maybe_char true c_squote w s).
  - by apply (wp_maybe_char true c_dquote w s).
  - by apply (wp_maybe_char false c_nul w s).
Qed.

Lemma wp_advance l el (e : sexp_t) xs Φ :
  is_stack_top stk l (Some el) xs -∗ el ↦ e -∗
  (is_stack_top stk l (elt_next e) xs -∗ el ↦ e -∗ Φ (elt_next e)) -∗
  wp (advance (Some l)) Φ.
Proof.
  iIntros "Hs He HΦ". unfold advance. iDestruct (is_stack_top_acc with "Hs") as (lv) "(Hl & %Hd & Hs)".
  wp_bind_head. iApply (wp_load with "Hl"). iIntros "Hl". rewrite Hd.
  wp_bind_head. iApply (wp_load with "He"). iIntros "He".
  wp_bind_head. iApply (wp_modify with "Hl"). iIntros "Hl". iApply wp_ret.
  iApply ("HΦ" with "[Hs Hl] He"). by iApply "Hs".
Qed.

(** What a full buffer releases besides the stack. *)
Definition scrap : hprop := ((∃ e, fk ↦ e ∗ owned_val e) ∗ K)%I.

Lemma wreck_stack l x xs R :
  (R ⊢ scrap) -> is_stack_top stk l x xs ∗ R ⊢ wreck.
Proof.
  intros HR. iIntros "[Hs HR]". iDestruct (HR with "HR") as "[Hf HK]". iFrame.
  iExists _. by iApply is_stack_top_elim.
Qed.

Definition next_text (nx : ptr) : list Z := match nx with Some _ => [c_space] | None => [] end.

(** Going on to the next element of a level. *)
Lemma wp_next_element l el (e : sexp_t) xs w s d R Φ :
  (el ↦ e ∗ R ⊢ scrap) -> T = w ++ next_text (elt_next e) ++ s -> Z.of_nat (length w) < size ->
  out w -∗ live -∗ is_stack_top stk l (Some el) xs -∗ el ↦ e -∗ R -∗
  (⌈Z.of_nat (length (w ++ next_text (elt_next e))) < size⌉ -∗
     out (w ++ next_text (elt_next e)) -∗ live -∗ is_stack_top stk l (elt_next e) xs -∗
     el ↦ e -∗ R -∗ Φ (inr (pst (w ++ next_text (elt_next e)) d))) ∧
  (full -∗ Φ (inl (-1))) -∗
  wp (next ← advance (Some l);
      match next with
      | Some _ => add_char_break_full (Some stk) (Some fk) c_space (pst w d)
      | None => mret (inr (pst w d))
      end) Φ.
Proof.
  iIntros (HR HT Hw) "Ho Hlive Hs He HR HΦ". wp_bind_head.
  iApply (wp_advance with "Hs He"). iIntros "Hs He".
  destruct (elt_next e) as [nx|]; simpl next_text in *.
  - iApply (wp_add_char c_space w s d (is_stack_top stk l (Some nx) xs ∗ el ↦ e ∗ R)
      with "Ho Hlive [Hs He HR]"); [by apply wreck_stack|done|done|iFrame|]. iSplit.
    + iIntros "Hw2 Ho Hlive (Hs & He & HR)". iDestruct "HΦ" as "[HΦ _]".
      iApply ("HΦ" with "Hw2 Ho Hlive Hs He HR").
    + iDestruct "HΦ" as "[_ HΦ]". iExact "HΦ".
  - iApply wp_ret. rewrite app_nil_r. iDestruct "HΦ" as "[HΦ _]".
    by iApply ("HΦ" with "[] Ho Hlive Hs He HR").
Qed.
(** The characters of a value. *)
Lemma wp_print_chars e aty s lv b nx w s' d R Φ :
  atom_elt e aty s lv b nx -> (lv ↦ b ∗ R ⊢ wreck) -> T = w ++ chars_text aty s ++ s' ->
  Z.of_nat (length w) < size ->
  out w -∗ live -∗ lv ↦ b -∗ R -∗
  (⌈Z.of_nat (length (w ++ chars_text aty s)) < size⌉ -∗ out (w ++ chars_text aty s) -∗
     live -∗ lv ↦ b -∗ R -∗ Φ (inr (pst (w ++ chars_text aty s) d))) ∧
  (full -∗ Φ (inl (-1))) -∗
  wp (print_chars (Some stk) (Some fk) e aty (pst w d)) Φ.
Proof.
  iIntros (He HR HT Hw) "Ho Hlive Hv HR HΦ". unfold print_chars.
  rewrite (ae_val _ _ _ _ _ _ He). wp_det. unfold string_fuel. wp_bind_head.
  iApply (wp_load with "Hv"). iIntros "Hv". wp_ret. wp_bind_head.
  destruct (ae_string _ _ _ _ _ _ He) as [rest Hb]. simpl cursor.
  iApply (wp_copy_chars aty lv s [] rest _ w s' d R with "Ho Hlive [Hv] HR").
  - simpl. by rewrite -Hb.
  - apply He.
  - done.
  - done.
  - rewrite Hb length_app length_fmap /=. lia.
  - simpl. by rewrite -Hb.
  - simpl app. rewrite -Hb. iSplit.
    + iIntros "Hw2 Ho Hlive Hv HR" (tc). iApply wp_ret. iDestruct "HΦ" as "[HΦ _]".
      iApply ("HΦ" with "Hw2 Ho Hlive Hv HR").
    + iIntros "Hfull". iApply wp_ret. iDestruct "HΦ" as "[_ HΦ]". by iApply "HΦ".
Qed.

Lemma pr_left_pst w d : pr_left (pst w d) = size - Z.of_nat (length w).
Proof. done. Qed.

(** An atom, and the space behind it when it is not the last element. *)
Lemma wp_print_value l el e aty s lv b nx xs w s' d R Φ :
  atom_elt e aty s lv b nx -> (el ↦ e ∗ lv ↦ b ∗ R ⊢ scrap) ->
  T = w ++ atom_text aty s ++ next_text nx ++ s' -> Z.of_nat (length w) < size ->
  out w -∗ live -∗ is_stack_top stk l (Some el) xs -∗ el ↦ e -∗ lv ↦ b -∗ R -∗
  (⌈Z.of_nat (length (w ++ atom_text aty s ++ next_text nx)) < size⌉ -∗
     out (w ++ atom_text aty s ++ next_text nx) -∗ live -∗ is_stack_top stk l nx xs -∗
     el ↦ e -∗ lv ↦ b -∗ R -∗ Φ (inr (pst (w ++ atom_text aty s ++ next_text nx) d))) ∧
  (full -∗ Φ (inl (-1))) -∗
  wp (print_value (Some stk) (Some fk) (Some l) e (pst w d)) Φ.
Proof.
  iIntros (He HR HT Hw) "Ho Hlive Hs Hel Hv HR HΦ". unfold print_value.
  rewrite (ae_aty _ _ _ _ _ _ He). wp_det. rewrite atom_text_chars in HT |- *.
  fold (quote_text aty) in HT |- *. rewrite -!(assoc_L app) in HT |- *.
  set (Rs := (is_stack_top stk l (Some el) xs ∗ el ↦ e ∗ R)%I).
  assert (lv ↦ b ∗ Rs ⊢ wreck) as Hwreck.
  { rewrite -(wreck_stack l (Some el) xs (el ↦ e ∗ lv ↦ b ∗ R)) //. unfold Rs.
    iIntros "(Hv & Hs & He & HR)". iFrame. }
  iAssert (lv ↦ b ∗ Rs)%I with "[Hv Hs Hel HR]" as "HR"; [iFrame|].
  iApply wp_early. iApply (wp_open_quote aty w _ d with "Ho Hlive HR"); [done..|].
  iSplit; [|by iDestruct "HΦ" as "[_ HΦ]"]. iIntros "%Hw1 Ho Hlive [Hv HR]".
  assert (forall A (x y : A), match aty with SEXP_BINARY => x | _ => y end = y) as Haty.
  { pose proof (ae_text _ _ _ _ _ _ He). by destruct aty. }
  destruct (ae_used _ _ _ _ _ _ He) as (u & Hu & Hpos & Hle). rewrite Haty Hu. wp_det.
  destruct (Z.ltb_spec 0 (Z.of_nat u)); [|lia].
  iApply wp_early. iApply (wp_print_chars with "Ho Hlive Hv HR"); [done|done| |done|].
  { rewrite -(assoc_L app). exact HT. }
  iSplit; [|by iDestruct "HΦ" as "[_ HΦ]"]. iIntros "%Hw2 Ho Hlive Hv HR".
  iApply wp_early. rewrite -(assoc_L app) in Hw2 |- *. rewrite pr_left_pst.
  destruct (Z.ltb_spec 0 (size - Z.of_nat (length (w ++ quote_text aty ++ chars_text aty s))));
    [|lia]. rewrite andb_true_r.
  iApply (wp_maybe_char (bool_decide (aty = SEXP_DQUOTE)) c_dquote
    (w ++ quote_text aty ++ chars_text aty s) (next_text nx ++ s') d (lv ↦ b ∗ Rs)
    with "Ho Hlive [$Hv $HR]"); [done|by rewrite -!(assoc_L app)|done|].
  iSplit; [|by iDestruct "HΦ" as "[_ HΦ]"]. iIntros "%Hw3 Ho Hlive (Hv & Hs & He & HR)".
  rewrite -!(assoc_L app) in Hw3 |- *. rewrite pr_left_pst.
  set (w3 := w ++ quote_text aty ++ chars_text aty s ++
    (if bool_decide (aty = SEXP_DQUOTE) then [c_dquote] else [])) in Hw3 |- *.
  destruct (Z.eqb_spec (size - Z.of_nat (length w3)) 0); [lia|].
  pose proof (ae_next _ _ _ _ _ _ He) as Hnx. rewrite -Hnx.
  iApply (wp_next_element l el e xs w3 s' d (lv ↦ b ∗ R) with "Ho Hlive Hs He [$Hv $HR]");
    [done|by rewrite /w3 Hnx -!(assoc_L app)|done|].
  rewrite Hnx /w3 -!(assoc_L app). iSplit; [|by iDestruct "HΦ" as "[_ HΦ]"].
  iIntros "Hw4 Ho Hlive Hs He [Hv HR]". iDestruct "HΦ" as "[HΦ _]".
  iApply ("HΦ" with "Hw4 Ho Hlive Hs He Hv HR").
Qed.
(** Bytes behind [w], over what may be there already. *)
Lemma wp_out_over w x ys Φ :
  (length x <= length ys)%nat -> Z.of_nat (length w + length ys) <= size ->
  out (w ++ x) -∗ (out (w ++ ys) -∗ Φ ()) -∗
  wp (store_bytes (Some (lb, Z.of_nat (length pre + length w))) (Det <$> ys)) Φ.
Proof.
  iIntros (Hx Hys) "Ho HΦ". unfold out. rewrite !fmap_app !length_app.
  rewrite -(take_drop (length ys - length x) (drop (length w + length x) tail)) drop_drop.
  replace (length w + length x + (length ys - length x))%nat with (length w + length ys)%nat by lia.
  iApply (wp_store_bytes with "Ho").
  { rewrite -(assoc_L app (Det <$> w)) (assoc_L app pre) (assoc_L app (Det <$> x)).
    apply splice_app; [by rewrite length_app length_fmap|].
    rewrite length_app !length_fmap length_take length_drop. lia. }
  by rewrite -!(assoc_L app).
Qed.

(** A character, when there is room for it and one more. *)
Lemma wp_add_char_room c w x d Φ :
  (length x <= 1)%nat -> Z.of_nat (length w) + 1 < size ->
  out (w ++ x) -∗ (out (w ++ [c]) -∗ Φ (inr (pst (w ++ [c]) d))) -∗
  wp (add_char_break_full (Some stk) (Some fk) c (pst w d)) Φ.
Proof.
  iIntros (Hx Hw) "Ho HΦ". unfold add_char_break_full, pst. cbn. wp_bind_head.
  iAssert (∀ Ψ, (out (w ++ [c]) -∗ Ψ ()) -∗
    wp (store_char (Some (lb, Z.of_nat (length pre + length w))) c) Ψ)%I with "[Ho]" as "Hst".
  { iIntros (Ψ) "HΨ". destruct x as [|c' [|? ?]]; simpl in Hx; [|by iApply (wp_out_back with "Ho HΨ"); lia|lia].
    rewrite app_nil_r. iApply (wp_out_store with "Ho HΨ"). lia. }
  iApply "Hst". iIntros "Ho". rewrite u64_small; [|lia].
  destruct (Z.eqb_spec (size - Z.of_nat (length w) - 1) 0); [lia|]. iApply wp_ret.
  replace (size - Z.of_nat (length w) - 1) with (size - Z.of_nat (length (w ++ [c])))
    by (rewrite length_app /=; lia).
  replace (Z.of_nat (length pre + length w) + 1) with (Z.of_nat (length pre + length (w ++ [c])))
    by (rewrite length_app /=; lia).
  by iApply "HΦ".
Qed.

Lemma wp_add_char_fits c w d Φ :
  Z.of_nat (length w) + 1 < size ->
  out w -∗ (out (w ++ [c]) -∗ Φ (inr (pst (w ++ [c]) d))) -∗
  wp (add_char_break_full (Some stk) (Some fk) c (pst w d)) Φ.
Proof.
  iIntros (Hw) "Ho HΦ". iApply (wp_add_char_room c w [] d with "[Ho] HΦ"); [simpl; lia|done|].
  by rewrite app_nil_r.
Qed.

(** The size: a NUL stays behind it. *)
Lemma wp_snprintf_len w num k Φ :
  Z.of_nat (length w + length (digits num ++ [c_hash])) < size ->
  out w -∗
  (out ((w ++ digits num ++ [c_hash]) ++ [c_nul]) -∗
     Φ (Z.of_nat (length (digits num ++ [c_hash])))) -∗
  wp (snprintf_len (pr_b (pst w k)) (pr_left (pst w k)) num) Φ.
Proof.
  iIntros (Hw) "Ho HΦ". unfold snprintf_len. cbn [pst pr_b pr_left].
  rewrite take_ge; [|lia]. wp_bind_head.
  iApply (wp_out_over w [] ((digits num ++ [c_hash]) ++ [c_nul]) with "[Ho]").
  { simpl. lia. } { rewrite (length_app (digits num ++ [c_hash])) /=. lia. }
  { by rewrite app_nil_r. }
  iIntros "Ho". wp_ret. iApply "HΦ". by rewrite -!(assoc_L app).
Qed.

(** The data itself, over the NUL. *)
Lemma wp_blob_data (e : sexp_t) d lbd nx w k Φ :
  binary_elt e d lbd nx -> Z.of_nat (length w) + Z.of_nat (length d) + 1 < size ->
  out (w ++ [c_nul]) -∗ data_at lbd d -∗
  (out ((w ++ d) ++ [c_space]) -∗ data_at lbd d -∗ Φ (inr (pst ((w ++ d) ++ [c_space]) k))) -∗
  wp (let b := Some (lb, Z.of_nat (length pre + length w)) in
      let left := size - Z.of_nat (length w) in
      st ← (if 0 <? Z.of_nat (length d) then
              bindata ← det (elt_bindata e);
              memcpy b (cursor bindata 0) (Z.of_nat (length d));;
              mret (mk_print (cadd b (Z.of_nat (length d))) (left - Z.of_nat (length d)) k)
            else mret (mk_print b left k));
      add_char_break_full (Some stk) (Some fk) c_space st) Φ.
Proof.
  iIntros (He Hfit) "Ho [%rest Hd] HΦ". cbv zeta.
  destruct d as [|c d]; [|set (dd := c :: d) in *].
  - simpl. wp_ret. fold (pst w k). rewrite app_nil_r.
    iApply (wp_add_char_room c_space w [c_nul] k with "Ho"); [simpl; lia|lia|].
    iIntros "Ho". iApply ("HΦ" with "Ho"). by iExists rest.
  - destruct (Z.ltb_spec 0 (Z.of_nat (length dd))); [|simpl in *; lia].
    rewrite (be_bindata _ _ _ _ He). wp_det. wp_bind_head. unfold memcpy. wp_bind_head.
    iApply (wp_load_bytes with "Hd").
    { rewrite slice_start; [done|]. rewrite length_app length_fmap. lia. }
    iIntros "Hd". rewrite take_app_length'; [|by rewrite length_fmap].
    iApply (wp_out_over w [c_nul] dd with "Ho"); [simpl; lia|lia|]. iIntros "Ho". wp_ret.
    assert (mk_print (Some (lb, Z.of_nat (length pre + length w) + Z.of_nat (length dd)))
      (size - Z.of_nat (length w) - Z.of_nat (length dd)) k = pst (w ++ dd) k) as ->.
    { unfold pst. rewrite length_app. f_equal; [do 2 f_equal|]; lia. }
    iApply (wp_add_char_fits with "Ho"); [rewrite length_app; lia|].
    iIntros "Ho". iApply ("HΦ" with "Ho"). by iExists rest.
Qed.

(** Binary data, when there is room for it. *)
Lemma wp_print_blob (e : sexp_t) d lbd nx w k Φ :
  binary_elt e d lbd nx -> Z.of_nat (length (w ++ binary_text d)) < size ->
  out w -∗ data_at lbd d -∗
  (out (w ++ binary_text d) -∗ data_at lbd d -∗ Φ (inr (pst (w ++ binary_text d) k))) -∗
  wp (print_binary (Some stk) (Some fk) e (pst w k)) Φ.
Proof.
  unfold binary_text. remember (digits (Z.of_nat (length d)) ++ [c_hash]) as num eqn:Hnum.
  iIntros (He Hfit) "Ho [%rest Hd] HΦ".
  assert (w ++ [c_hash; c_b; c_hash] ++ digits (Z.of_nat (length d)) ++ [c_hash] ++ d ++ [c_space] =
    (((((w ++ [c_hash]) ++ [c_b]) ++ [c_hash]) ++ num) ++ d) ++ [c_space]) as Ht.
  { rewrite Hnum. by rewrite -!(assoc_L app). }
  rewrite Ht in Hfit |- *. clear Ht. rewrite !length_app /= in Hfit.
  unfold print_binary. rewrite pr_left_pst.
  destruct (Z.ltb_spec 3 (size - Z.of_nat (length w))); [|lia].
  iApply wp_early. iApply (wp_add_char_fits with "Ho"); [lia|]. iIntros "Ho".
  iApply wp_early. iApply (wp_add_char_fits with "Ho"); [rewrite !length_app /=; lia|]. iIntros "Ho".
  iApply wp_early. iApply (wp_add_char_fits with "Ho"); [rewrite !length_app /=; lia|]. iIntros "Ho".
  set (w3 := ((w ++ [c_hash]) ++ [c_b]) ++ [c_hash]).
  assert (length w3 = length w + 3)%nat as Hw3 by (rewrite /w3 !length_app /=; lia).
  rewrite (be_binlength _ _ _ _ He). wp_det. wp_bind_head.
  iApply (wp_snprintf_len w3 with "Ho"); rewrite -Hnum; [lia|]. iIntros "Ho".
  rewrite pr_left_pst. cbn [pst pr_b pr_depth].
  destruct (Z.leb_spec (size - Z.of_nat (length w3)) (Z.of_nat (length num))); [lia|].
  destruct (Z.ltb_spec (size - Z.of_nat (length w3) - Z.of_nat (length num)) (Z.of_nat (length d)));
    [lia|].
  assert (Z.of_nat (length (w3 ++ num)) = Z.of_nat (length w3) + Z.of_nat (length num)) as Hw4.
  { rewrite length_app. lia. }
  assert (cadd (Some (lb, Z.of_nat (length pre + length w3))) (Z.of_nat (length num)) =
    Some (lb, Z.of_nat (length pre + length (w3 ++ num)))) as ->.
  { simpl. do 2 f_equal. lia. }
  replace (size - Z.of_nat (length w3) - Z.of_nat (length num)) with
    (size - Z.of_nat (length (w3 ++ num))) by lia.
  assert (Z.of_nat (length (w3 ++ num)) + Z.of_nat (length d) + 1 < size) as Hfit4 by lia.
  set (w4 := w3 ++ num) in *. clearbody w4.
  iApply (wp_blob_data with "Ho [Hd] HΦ"); [done|done|by iExists rest].
Qed.

(** An element with binary data. *)
Lemma wp_print_blob_value l el e d lbd nx xs w s' k R Φ :
  binary_elt e d lbd nx -> (el ↦ e ∗ data_at lbd d ∗ R ⊢ scrap) ->
  T = w ++ binary_text d ++ next_text nx ++ s' -> Z.of_nat (length T) < size ->
  out w -∗ live -∗ is_stack_top stk l (Some el) xs -∗ el ↦ e -∗ data_at lbd d -∗ R -∗
  (⌈Z.of_nat (length (w ++ binary_text d ++ next_text nx)) < size⌉ -∗
     out (w ++ binary_text d ++ next_text nx) -∗ live -∗ is_stack_top stk l nx xs -∗
     el ↦ e -∗ data_at lbd d -∗ R -∗ Φ (inr (pst (w ++ binary_text d ++ next_text nx) k))) ∧
  (full -∗ Φ (inl (-1))) -∗
  wp (print_value (Some stk) (Some fk) (Some l) e (pst w k)) Φ.
Proof.
  iIntros (He HR HT Hfit) "Ho Hlive Hs Hel Hd HR HΦ". unfold print_value.
  assert (Z.of_nat (length (w ++ binary_text d)) < size) as Hw.
  { rewrite HT (assoc_L app) length_app in Hfit. lia. }
  rewrite (be_aty _ _ _ _ He). wp_det. iApply wp_early. iApply wp_ret. wp_ret.
  rewrite Z.ltb_irrefl. iApply wp_early. iApply (wp_print_blob with "Ho Hd"); [done..|].
  iIntros "Ho Hd". rewrite bool_decide_eq_false_2 //. iApply wp_early. iApply wp_ret.
  rewrite pr_left_pst.
  destruct (Z.eqb_spec (size - Z.of_nat (length (w ++ binary_text d))) 0); [lia|].
  pose proof (be_next _ _ _ _ He) as Hnx. rewrite -Hnx.
  iApply (wp_next_element l el e xs (w ++ binary_text d) s' k (data_at lbd d ∗ R)
    with "Ho Hlive Hs Hel [$Hd $HR]"); [done|by rewrite HT Hnx (assoc_L app w)|done|].
  rewrite Hnx -(assoc_L app w). iSplit; [|by iDestruct "HΦ" as "[_ HΦ]"].
  iIntros "Hw4 Ho Hlive Hs He [Hd HR]". iDestruct "HΦ" as "[HΦ _]".
  iApply ("HΦ" with "Hw4 Ho Hlive Hs He Hd HR").
Qed.

(** The loads at the start of an iteration that meets an element. *)
Lemma wp_print_body l el (e : sexp_t) ty xs st Φ :
  elt_ty e = Det ty ->
  is_stack_top stk l (Some el) xs -∗ el ↦ e -∗
  (is_stack_top stk l (Some el) xs -∗ el ↦ e -∗
   wp (match ty with
       | SEXP_VALUE =>
           st ←? print_value (Some stk) (Some fk) (Some l) e st; mret (inr (true, st))
       | SEXP_LIST =>
           st ←? print_start_of_list (Some stk) (Some fk) e st; mret (inr (true, st))
       end) Φ) -∗
  wp (print_body (Some stk) (Some fk) st) Φ.
Proof.
  iIntros (Hty) "Hs He HΦ". unfold print_body. wp_bind_head.
  iApply (wp_stack_top with "Hs"). iIntros (sk) "%Hsk Hs". rewrite Hsk.
  iDestruct (is_stack_top_acc with "Hs") as (lv) "(Hl & %Hd & Hs)".
  wp_bind_head. iApply (wp_load with "Hl"). iIntros "Hl". rewrite Hd.
  wp_bind_head. iApply (wp_load with "He"). iIntros "He". rewrite Hty. wp_det.
  iApply ("HΦ" with "[Hs Hl] He"). iDestruct ("Hs" $! (Some el) with "[Hl]") as "Hs"; [|done].
  destruct lv. simpl in Hd. by subst.
Qed.

(** An open parenthesis. *)
Lemma wp_print_open l el (e : sexp_t) q nx xs w s R Φ :
  list_elt e q nx -> (el ↦ e ∗ R ⊢ scrap) -> T = w ++ c_lparen :: s ->
  Z.of_nat (length w) < size -> Z.of_nat (S (length xs)) < int_max ->
  out w -∗ live -∗ is_stack_top stk l (Some el) xs -∗ el ↦ e -∗ R -∗
  (⌈Z.of_nat (length (w ++ [c_lparen])) < size⌉ -∗ out (w ++ [c_lparen]) -∗ live -∗
     is_stack stk (q :: Some el :: xs) -∗ el ↦ e -∗ R -∗
     Φ (inr (pst (w ++ [c_lparen]) (Z.of_nat (S (length xs)))))) ∧ (full -∗ Φ (inl (-1))) -∗
  wp (print_start_of_list (Some stk) (Some fk) e (pst w (Z.of_nat (length xs)))) Φ.
Proof.
  iIntros (He HR HT Hw Hxs) "Ho Hlive Hs Hel HR HΦ". unfold print_start_of_list.
  wp_bind_head. iApply wp_int_incr; [simpl; lia|]. simpl pr_depth.
  replace (Z.of_nat (length xs) + 1) with (Z.of_nat (S (length xs))) by lia. simpl pr_b.
  simpl pr_left. fold (pst w (Z.of_nat (S (length xs)))). iApply wp_early.
  iApply (wp_add_char c_lparen w s _ (is_stack_top stk l (Some el) xs ∗ el ↦ e ∗ R)
    with "Ho Hlive [Hs Hel HR]"); [by apply wreck_stack|done|done|iFrame|].
  iSplit; [|by iDestruct "HΦ" as "[_ HΦ]"].
  iIntros "%Hw2 Ho (Hm & Hp & He) (Hs & Hel & HR)". wp_bind_head.
  iDestruct (is_stack_top_elim with "Hs") as "Hs".
  iApply (wp_push_ok with "Hs Hm"); [simpl; lia|]. iIntros "Hs Hm". iApply wp_ret.
  iDestruct "HΦ" as "[HΦ _]". rewrite (le_list _ _ _ He).
  iApply ("HΦ" with "[] Ho [Hm Hp He] Hs Hel HR"); [done|iFrame].
Qed.

(** The end of a list: a close parenthesis, and on to its successor. *)
Lemma wp_print_close el (e : sexp_t) xs w s R Φ :
  (el ↦ e ∗ R ⊢ scrap) -> T = w ++ c_rparen :: next_text (elt_next e) ++ s ->
  Z.of_nat (length w) < size ->
  out w -∗ live -∗ is_stack stk (None :: Some el :: xs) -∗ el ↦ e -∗ R -∗
  (⌈Z.of_nat (length (w ++ c_rparen :: next_text (elt_next e))) < size⌉ -∗
     out (w ++ c_rparen :: next_text (elt_next e)) -∗ live -∗
     is_stack stk (elt_next e :: xs) -∗ el ↦ e -∗ R -∗
     Φ (inr (true, pst (w ++ c_rparen :: next_text (elt_next e)) (Z.of_nat (length xs))))) ∧
  (full -∗ Φ (inl (-1))) -∗
  wp (print_body (Some stk) (Some fk) (pst w (Z.of_nat (S (length xs))))) Φ.
Proof.
  iIntros (HR HT Hw) "Ho Hlive Hs Hel HR HΦ". unfold print_body.
  iDestruct (is_stack_top_intro with "Hs") as (l) "Hs". wp_bind_head.
  iApply (wp_stack_top with "Hs"). iIntros (sk) "%Hsk Hs". rewrite Hsk.
  iDestruct (is_stack_top_acc with "Hs") as (lv) "(Hl & %Hd & Hs)".
  wp_bind_head. iApply (wp_load with "Hl"). iIntros "Hl". rewrite Hd.
  iDestruct ("Hs" $! None with "[Hl]") as "Hs"; [destruct lv; simpl in Hd; by subst|].
  iDestruct (is_stack_top_elim with "Hs") as "Hs". clear Hsk l.
  unfold print_end_of_list. wp_bind_head. iApply (wp_pop_cons with "Hs"). iIntros (l) "Hs".
  iDestruct (popped_is_stack with "Hs") as "Hs". clear l. simpl pr_depth.
  destruct (Z.ltb_spec 0 (Z.of_nat (S (length xs)))); [|lia].
  replace (Z.of_nat (S (length xs)) - 1) with (Z.of_nat (length xs)) by lia. simpl pr_b.
  simpl pr_left. fold (pst w (Z.of_nat (length xs))). iApply wp_early.
  iDestruct (is_stack_top_intro with "Hs") as (l) "Hs".
  iApply (wp_add_char c_rparen w _ _ (is_stack_top stk l (Some el) xs ∗ el ↦ e ∗ R)
    with "Ho Hlive [Hs Hel HR]"); [by apply wreck_stack|exact HT|done|iFrame|].
  iSplit; [|by iDestruct "HΦ" as "[_ HΦ]"].
  iIntros "%Hw2 Ho Hlive (Hs & Hel & HR)". wp_bind_head.
  iApply (wp_stack_top with "Hs"). iIntros (sk2) "%Hsk2 Hs". rewrite Hsk2. wp_bind_head.
  iApply (wp_advance with "Hs Hel"). iIntros "Hs Hel".
  iAssert (is_stack stk (elt_next e :: xs)) with "[Hs]" as "Hs"; [by iApply is_stack_top_elim|].
  destruct (elt_next e) as [nx|] eqn:Hnx; simpl next_text in *.
  - iDestruct (is_stack_top_intro with "Hs") as (l2) "Hs". iApply wp_early.
    iApply (wp_add_char c_space (w ++ [c_rparen]) s _ (is_stack_top stk l2 (Some nx) xs ∗ el ↦ e ∗ R)
      with "Ho Hlive [Hs Hel HR]"); [by apply wreck_stack|by rewrite -(assoc_L app)|done|iFrame|].
    iSplit; [|by iDestruct "HΦ" as "[_ HΦ]"].
    rewrite -(assoc_L app) /=. iIntros "Hw3 Ho Hlive (Hs & Hel & HR)". iApply wp_ret.
    iDestruct "HΦ" as "[HΦ _]". iDestruct (is_stack_top_elim with "Hs") as "Hs".
    iApply ("HΦ" with "Hw3 Ho Hlive Hs Hel HR").
  - iApply wp_ret. iDestruct "HΦ" as "[HΦ _]". by iApply ("HΦ" with "[] Ho Hlive Hs Hel HR").
Qed.

(** The end of the outermost level. *)
Lemma wp_print_last st Φ :
  pr_depth st = 0 ->
  is_stack stk [None] -∗ (is_stack stk [] -∗ Φ (inr (false, st))) -∗
  wp (print_body (Some stk) (Some fk) st) Φ.
Proof.
  iIntros (Hd0) "Hs HΦ". unfold print_body.
  iDestruct (is_stack_top_intro with "Hs") as (l) "Hs". wp_bind_head.
  iApply (wp_stack_top with "Hs"). iIntros (sk) "%Hsk Hs". rewrite Hsk.
  iDestruct (is_stack_top_acc with "Hs") as (lv) "(Hl & %Hd & Hs)".
  wp_bind_head. iApply (wp_load with "Hl"). iIntros "Hl". rewrite Hd.
  iDestruct ("Hs" $! None with "[Hl]") as "Hs"; [destruct lv; simpl in Hd; by subst|].
  iDestruct (is_stack_top_elim with "Hs") as "Hs". clear Hsk l.
  unfold print_end_of_list. wp_bind_head. iApply (wp_pop_cons with "Hs"). iIntros (l) "Hs".
  iDestruct (popped_is_stack with "Hs") as "Hs". rewrite Hd0 /=. iApply wp_early. iApply wp_ret.
  wp_bind_head. iApply (wp_stack_empty with "Hs"). iIntros (sk2) "%Hsk2 Hs". rewrite Hsk2.
  iApply wp_ret. by iApply "HΦ".
Qed.

Lemma print_loop_S f st :
  print_loop (Some stk) (Some fk) (S f) st =
  r ← print_body (Some stk) (Some fk) st;
  match r with
  | inl e => mret (inl e)
  | inr (true, st) => print_loop (Some stk) (Some fk) f st
  | inr (false, st) => mret (inr st)
  end.
Proof. reflexivity. Qed.

Lemma forest_next ts nx : forest_at ts nx ⊢ ⌜next_text nx = separator ts⌝.
Proof.
  destruct ts as [|t ts]; simpl; [by iIntros "->"|].
  by iIntros "(%l & %nx' & -> & _)".
Qed.

(** What the loop can print: binary data only when there is room for the
    whole text. *)
Definition prints (ts : list tree) : Prop :=
  Z.of_nat (length T) < size \/ forallb textual ts = true.

Lemma prints_tl t ts : prints (t :: ts) -> prints ts.
Proof. intros [?|[_ ?]%andb_prop]; [by left|by right]. Qed.

Lemma prints_node us ts : prints (Node us :: ts) -> prints us.
Proof. intros [?|[? _]%andb_prop]; [by left|by right]. Qed.

(** An element that is no list. *)
Definition is_leaf (t : tree) : bool := match t with Node _ => false | _ => true end.

Lemma wp_print_leaf t tp l nx xs w s k R (Φ : Z + bool * print_state -> hprop) :
  is_leaf t = true -> prints [t] -> (tree_at t l nx ∗ R ⊢ scrap) ->
  T = w ++ tree_text t ++ next_text nx ++ s -> Z.of_nat (length w) < size ->
  out w -∗ live -∗ is_stack_top stk tp (Some l) xs -∗ tree_at t l nx -∗ R -∗
  (⌈Z.of_nat (length (w ++ tree_text t ++ next_text nx)) < size⌉ -∗
     out (w ++ tree_text t ++ next_text nx) -∗ live -∗ is_stack_top stk tp nx xs -∗
     tree_at t l nx -∗ R -∗ Φ (inr (true, pst (w ++ tree_text t ++ next_text nx) k))) ∧
  (full -∗ Φ (inl (-1))) -∗
  wp (print_body (Some stk) (Some fk) (pst w k)) Φ.
Proof.
  iIntros (Hleaf Hpr HR HT Hw) "Ho Hlive Hs Ht HR HΦ". destruct t as [aty str|d|us]; [| |done].
  - rewrite tree_at_atom in HR |- *. iDestruct "Ht" as "(%e & %lv & %b & %He & Hl & Hv)".
    iApply (wp_print_body with "Hs Hl"); [by apply He|]. iIntros "Hs Hl". iApply wp_early.
    iApply (wp_print_value tp l e aty str lv b nx xs w s k R with "Ho Hlive Hs Hl Hv HR");
      [done| |exact HT|done|].
    { rewrite -HR. iIntros "(Hl & Hv & $)". iExists e, lv, b. by iFrame. }
    iSplit; [|by iDestruct "HΦ" as "[_ HΦ]"].
    iIntros "Hw2 Ho Hlive Hs Hl Hv HR". iDestruct "HΦ" as "[HΦ _]". iApply wp_ret.
    iApply ("HΦ" with "Hw2 Ho Hlive Hs [Hl Hv] HR"). iExists e, lv, b. by iFrame.
  - destruct Hpr as [Hfit|?]; [|done]. rewrite tree_at_binary in HR |- *.
    iDestruct "Ht" as "(%e & %lbd & %He & Hl & Hd)".
    iApply (wp_print_body with "Hs Hl"); [by apply He|]. iIntros "Hs Hl". iApply wp_early.
    iApply (wp_print_blob_value tp l e d lbd nx xs w s k R with "Ho Hlive Hs Hl Hd HR");
      [done| |exact HT|done|].
    { rewrite -HR. iIntros "(Hl & Hd & $)". iExists e, lbd. by iFrame. }
    iSplit; [|by iDestruct "HΦ" as "[_ HΦ]"].
    iIntros "Hw2 Ho Hlive Hs Hl Hd HR". iDestruct "HΦ" as "[HΦ _]". iApply wp_ret.
    iApply ("HΦ" with "Hw2 Ho Hlive Hs [Hl Hd] HR"). iExists e, lbd. by iFrame.
Qed.

(** ... at the head of a level. *)
Lemma wp_print_forest_leaf t ts p xs w s fuel R Φ :
  is_leaf t = true -> (forest_at (t :: ts) p ∗ R ⊢ scrap) -> prints (t :: ts) ->
  T = w ++ forest_text (t :: ts) ++ s -> Z.of_nat (length w) < size ->
  out w -∗ live -∗ is_stack stk (p :: xs) -∗ forest_at (t :: ts) p -∗ R -∗
  (∀ l nx, let w' := w ++ tree_text t ++ separator ts in
     ⌈Z.of_nat (length w') < size /\ p = Some l⌉ -∗ out w' -∗ live -∗ is_stack stk (nx :: xs) -∗
     tree_at t l nx -∗ forest_at ts nx -∗ R -∗
     wp (print_loop (Some stk) (Some fk) fuel (pst w' (Z.of_nat (length xs)))) Φ) ∧
  (full -∗ Φ (inl (-1))) -∗
  wp (print_loop (Some stk) (Some fk) (S fuel) (pst w (Z.of_nat (length xs)))) Φ.
Proof.
  iIntros (Hleaf HR Hpr HT Hw) "Ho Hlive Hs (%l & %nx & -> & Ht & Hts) HR HΦ".
  assert (prints [t]) as Hpr1.
  { destruct Hpr as [?|[? _]%andb_prop]; [by left|right]. by apply andb_true_intro. }
  iDestruct (forest_next with "Hts") as %Hnx. rewrite forest_text_cons in HT.
  rewrite -(assoc_L app (tree_text t)) -(assoc_L app (separator ts)) in HT. rewrite -Hnx in HT |- *.
  iDestruct (is_stack_top_intro with "Hs") as (tp) "Hs". rewrite print_loop_S. wp_bind_head.
  iApply (wp_print_leaf t tp l nx xs w _ _ (forest_at ts nx ∗ R) with "Ho Hlive Hs Ht [$Hts $HR]");
    [done|done| |exact HT|done|].
  { rewrite -HR. iIntros "(Ht & Hts & $)". iExists l, nx. by iFrame. }
  iSplit.
  - iIntros "%Hw2 Ho Hlive Hs Ht [Hts HR]". iDestruct "HΦ" as "[HΦ _]".
    iDestruct (is_stack_top_elim with "Hs") as "Hs".
    by iApply ("HΦ" with "[] Ho Hlive Hs Ht Hts HR").
  - iIntros "Hfull". iDestruct "HΦ" as "[_ HΦ]". iApply wp_ret. by iApply "HΦ".
Qed.

(** The loop prints the elements of a level. *)
Lemma wp_print_forest ts : forall p xs w s fuel R Φ,
  (forest_at ts p ∗ R ⊢ scrap) -> prints ts -> T = w ++ forest_text ts ++ s ->
  Z.of_nat (length w) < size -> Z.of_nat (length xs + forest_size ts) < int_max ->
  out w -∗ live -∗ is_stack stk (p :: xs) -∗ forest_at ts p -∗ R -∗
  (⌈Z.of_nat (length (w ++ forest_text ts)) < size⌉ -∗ out (w ++ forest_text ts) -∗ live -∗
     is_stack stk (None :: xs) -∗ forest_at ts p -∗ R -∗
     wp (print_loop (Some stk) (Some fk) fuel (pst (w ++ forest_text ts) (Z.of_nat (length xs))))
       Φ) ∧ (full -∗ Φ (inl (-1))) -∗
  wp (print_loop (Some stk) (Some fk) (forest_cost ts + fuel) (pst w (Z.of_nat (length xs)))) Φ.
Proof.
  induction ts as [|aty s ts IH|d ts IH|us ts IHu IH] using forest_ind;
    iIntros (p xs w s' fuel R Φ HR Hpr HT Hw Hxs) "Ho Hlive Hs Hts HR HΦ"; simpl in Hxs;
    try pose proof (prints_tl _ _ Hpr) as Htx.
  - iDestruct "Hts" as %->. iDestruct "HΦ" as "[HΦ _]". rewrite app_nil_r.
    by iApply ("HΦ" with "[] Ho Hlive Hs [] HR").
  - iApply (wp_print_forest_leaf (Atom aty s) ts p xs w s' (forest_cost ts + fuel) R
      with "Ho Hlive Hs Hts HR"); [done..|].
    iSplit; [|by iDestruct "HΦ" as "[_ HΦ]"].
    iIntros (l nx). cbv zeta. iIntros "%Hw2 Ho Hlive Hs Ht Hts HR". destruct Hw2 as [Hw2 ->].
    rewrite forest_text_cons in HT |- *.
    iApply (IH nx xs _ s' fuel (tree_at ((Atom aty s)) l nx ∗ R)%I
      with "Ho Hlive Hs Hts [$HR $Ht]"); [|done| |done|lia|].
    { rewrite -HR. iIntros "(Hts & Ht & $)". iExists l, nx. by iFrame. }
    { by rewrite HT -?(assoc_L app). }
    rewrite -!(assoc_L app). iSplit; [|by iDestruct "HΦ" as "[_ HΦ]"].
    iIntros "Hw3 Ho Hlive Hs Hts [Ht HR]". iDestruct "HΦ" as "[HΦ _]".
    iApply ("HΦ" with "Hw3 Ho Hlive Hs [Ht Hts] HR"). iExists l, nx. by iFrame.
  - iApply (wp_print_forest_leaf (Binary d) ts p xs w s' (forest_cost ts + fuel) R
      with "Ho Hlive Hs Hts HR"); [done..|].
    iSplit; [|by iDestruct "HΦ" as "[_ HΦ]"].
    iIntros (l nx). cbv zeta. iIntros "%Hw2 Ho Hlive Hs Ht Hts HR". destruct Hw2 as [Hw2 ->].
    rewrite forest_text_cons in HT |- *.
    iApply (IH nx xs _ s' fuel (tree_at ((Binary d)) l nx ∗ R)%I
      with "Ho Hlive Hs Hts [$HR $Ht]"); [|done| |done|lia|].
    { rewrite -HR. iIntros "(Hts & Ht & $)". iExists l, nx. by iFrame. }
    { by rewrite HT -?(assoc_L app). }
    rewrite -!(assoc_L app). iSplit; [|by iDestruct "HΦ" as "[_ HΦ]"].
    iIntros "Hw3 Ho Hlive Hs Hts [Ht HR]". iDestruct "HΦ" as "[HΦ _]".
    iApply ("HΦ" with "Hw3 Ho Hlive Hs [Ht Hts] HR"). iExists l, nx. by iFrame.
  - pose proof (prints_node _ _ Hpr) as Htu. fold (forest_size us) in Hxs.
    iDestruct "Hts" as (l nx) "(-> & Ht & Hts)". rewrite tree_at_node.
    iDestruct "Ht" as "(%e & %q & %He & Hl & Hus)".
    assert (forest_cost (Node us :: ts) + fuel =
      S (forest_cost us + S (forest_cost ts + fuel)))%nat as ->.
    { simpl. fold (forest_cost us) (forest_cost ts). lia. }
    rewrite print_loop_S.
    iDestruct (forest_next with "Hts") as %Hnx. rewrite forest_text_cons in HT |- *.
    simpl tree_text in *. fold (forest_text us) in *.
    iDestruct (is_stack_top_intro with "Hs") as (tp) "Hs". wp_bind_head.
    iApply (wp_print_body with "Hs Hl"); [by apply He|]. iIntros "Hs Hl". iApply wp_early.
    assert (l ↦ e ∗ forest_at us q ∗ forest_at ts nx ∗ R ⊢ scrap) as HR2.
    { rewrite -HR. iIntros "(Hl & Hus & Hts & $)". iExists l, nx. iSplit; [done|].
      iFrame "Hts". rewrite tree_at_node. iExists e, q. by iFrame. }
    iApply (wp_print_open tp l e q nx xs w _ (forest_at us q ∗ forest_at ts nx ∗ R)
      with "Ho Hlive Hs Hl [$Hus $Hts $HR]"); [done|done|exact HT|done|lia|].
    iSplit; [|by iIntros "Hfull"; iDestruct "HΦ" as "[_ HΦ]"; iApply wp_ret; iApply "HΦ"].
    iIntros "%Hw2 Ho Hlive Hs Hl (Hus & Hts & HR)". iApply wp_ret.
    iApply (IHu q (Some l :: xs) _ _ (S (forest_cost ts + fuel))
      (l ↦ e ∗ forest_at ts nx ∗ R)%I with "Ho Hlive Hs Hus [$Hl $Hts $HR]");
      [|done| |done|simpl; lia|].
    { rewrite -HR2. iIntros "(Hus & Hl & Hts & $)". iFrame. }
    { rewrite HT /= -?(assoc_L app) /= -?(assoc_L app). done. }
    iSplit; [|by iDestruct "HΦ" as "[_ HΦ]"].
    iIntros "%Hw3 Ho Hlive Hs Hus (Hl & Hts & HR)". rewrite print_loop_S. wp_bind_head.
    iApply (wp_print_close l e xs _ (forest_text ts ++ s') (forest_at us q ∗ forest_at ts nx ∗ R)
      with "Ho Hlive Hs Hl [$Hus $Hts $HR]"); [done| |done|].
    { rewrite HT (le_next _ _ _ He) Hnx -?(assoc_L app) /= -?(assoc_L app). done. }
    iSplit; [|by iIntros "Hfull"; iDestruct "HΦ" as "[_ HΦ]"; iApply wp_ret; iApply "HΦ"].
    iIntros "%Hw4 Ho Hlive Hs Hl (Hus & Hts & HR)". rewrite (le_next _ _ _ He) Hnx in Hw4 |- *.
    iApply (IH nx xs _ s' fuel (tree_at (Node us) l nx ∗ R)%I
      with "Ho Hlive Hs Hts [$HR Hl Hus]"); [|done| |done|lia| |].
    + rewrite -HR. iIntros "(Hts & Ht & $)". iExists l, nx. by iFrame.
    + rewrite HT -?(assoc_L app) /= -?(assoc_L app). done.
    + rewrite tree_at_node. iExists e, q. by iFrame.
    + rewrite -?(assoc_L app) /= -?(assoc_L app) /=. iSplit; [|by iDestruct "HΦ" as "[_ HΦ]"].
      iIntros "Hw5 Ho Hlive Hs Hts [Ht HR]". iDestruct "HΦ" as "[HΦ _]".
      iApply ("HΦ" with "Hw5 Ho Hlive Hs [Ht Hts] HR"). iExists l, nx. by iFrame.
Qed.
(** What the loop does for the whole expression: it reaches the end of the
    text, or finds the buffer full. *)
Definition loop_result (Ψ : Z + print_state -> hprop) : hprop :=
  ((⌈Z.of_nat (length T) < size⌉ -∗ out T -∗ live -∗ is_stack stk [] -∗ scrap -∗
      Ψ (inr (pst T 0))) ∧ (full -∗ Ψ (inl (-1))))%I.

(** An atom alone. *)
Lemma wp_loop_atom e aty s lv b fuel Ψ :
  atom_elt e aty s lv b None -> T = atom_text aty s ->
  out [] -∗ live -∗ is_stack stk [Some fk] -∗ fk ↦ e -∗ lv ↦ b -∗ K -∗ loop_result Ψ -∗
  wp (print_loop (Some stk) (Some fk) (S (S fuel)) (pst [] 0)) Ψ.
Proof.
  iIntros (He HT) "Ho Hlive Hs Hf Hv HK HΨ". unfold loop_result. rewrite print_loop_S.
  assert (fk ↦ e ∗ lv ↦ b ∗ K ⊢ scrap) as Hscrap.
  { iIntros "(Hf & Hv & $)". iExists e. iFrame. iRight. iExists lv, b, _. iFrame. iPureIntro.
    by destruct He. }
  iDestruct (is_stack_top_intro with "Hs") as (tp) "Hs". wp_bind_head.
  iApply (wp_print_body with "Hs Hf"); [by apply He|]. iIntros "Hs Hf". iApply wp_early.
  iApply (wp_print_value tp fk e aty s lv b None [] [] [] 0 K
    with "Ho Hlive Hs Hf Hv HK"); [done..|by rewrite HT /= !app_nil_r|simpl; lia|].
  iSplit; [|by iIntros "Hfull"; iDestruct "HΨ" as "[_ HΨ]"; iApply wp_ret; iApply "HΨ"].
  iIntros "%Hw Ho Hlive Hs Hf Hv HK". simpl next_text in *. rewrite app_nil_l app_nil_r -HT in Hw |- *.
  iApply wp_ret. rewrite print_loop_S. wp_bind_head.
  iDestruct (is_stack_top_elim with "Hs") as "Hs".
  iApply (wp_print_last with "Hs"); [done|]. iIntros "Hs". iApply wp_ret.
  iDestruct "HΨ" as "[HΨ _]". iApply ("HΨ" with "[] Ho Hlive Hs [Hf Hv HK]"); [done|].
  iApply Hscrap. iFrame.
Qed.

(** A list: its elements are shared with the expression that is printed. *)
Lemma wp_loop_list e us q fuel (R : hprop) Ψ :
  list_elt e q None -> (forest_at us q ∗ R ⊢ K) -> prints us ->
  T = tree_text (Node us) -> Z.of_nat (S (forest_size us)) < int_max ->
  out [] -∗ live -∗ is_stack stk [Some fk] -∗ fk ↦ e -∗ forest_at us q -∗ R -∗
  loop_result Ψ -∗
  wp (print_loop (Some stk) (Some fk) (S (forest_cost us + S (S fuel))) (pst [] 0)) Ψ.
Proof.
  iIntros (He HK Htx HT Hsz) "Ho Hlive Hs Hf Hus HR HΨ". unfold loop_result.
  rewrite print_loop_S. simpl tree_text in HT. fold (forest_text us) in HT.
  assert (fk ↦ e ∗ forest_at us q ∗ R ⊢ scrap) as Hscrap.
  { rewrite HK. iIntros "(Hf & $)". iExists e. iFrame. iLeft. iPureIntro. left. by destruct He. }
  iDestruct (is_stack_top_intro with "Hs") as (tp) "Hs". wp_bind_head.
  iApply (wp_print_body with "Hs Hf"); [by apply He|]. iIntros "Hs Hf". iApply wp_early.
  iApply (wp_print_open tp fk e q None [] [] _ (forest_at us q ∗ R)
    with "Ho Hlive Hs Hf [$Hus $HR]"); [done|done|exact HT|simpl; lia|simpl; lia|].
  iSplit; [|by iIntros "Hfull"; iDestruct "HΨ" as "[_ HΨ]"; iApply wp_ret; iApply "HΨ"].
  iIntros "%Hw2 Ho Hlive Hs Hf (Hus & HR)". iApply wp_ret.
  iApply (wp_print_forest us q [Some fk] _ [c_rparen] (S (S fuel)) (fk ↦ e ∗ R)
    with "Ho Hlive Hs Hus [$Hf $HR]"); [|done|done|done|simpl; lia|].
  { rewrite -Hscrap. iIntros "($ & $ & $)". }
  iSplit; [|by iDestruct "HΨ" as "[_ HΨ]"].
  iIntros "%Hw3 Ho Hlive Hs Hus (Hf & HR)". rewrite print_loop_S. wp_bind_head.
  iApply (wp_print_close fk e [] _ [] (forest_at us q ∗ R)
    with "Ho Hlive Hs Hf [$Hus $HR]"); [done|by rewrite HT (le_next _ _ _ He)|done|].
  iSplit; [|by iIntros "Hfull"; iDestruct "HΨ" as "[_ HΨ]"; iApply wp_ret; iApply "HΨ"].
  iIntros "%Hw4 Ho Hlive Hs Hf (Hus & HR)". rewrite (le_next _ _ _ He) in Hw4 |- *.
  assert ((([] ++ [c_lparen]) ++ forest_text us) ++ c_rparen :: next_text None = T) as Htext
    by by rewrite HT.
  rewrite Htext in Hw4 |- *. rewrite print_loop_S. wp_bind_head.
  iApply (wp_print_last with "Hs"); [done|]. iIntros "Hs". iApply wp_ret.
  iDestruct "HΨ" as "[HΨ _]". iApply ("HΨ" with "[] Ho Hlive Hs [Hf Hus HR]"); [done|].
  iApply Hscrap. iFrame.
Qed.

(** What follows the loop. *)
Lemma wp_print_after fuel Φ :
  (∀ Ψ, loop_result Ψ -∗ wp (print_loop (Some stk) (Some fk) fuel (pst [] 0)) Ψ) -∗
  ((⌈Z.of_nat (length T) < size⌉ -∗ out (T ++ [c_nul]) -∗ mem_ok -∗ pool_ok (S n) m -∗
      errno_own -∗ K -∗ Φ (int_of_size (Z.of_nat (length T)))) ∧ (full -∗ Φ (-1))) -∗
  wp (r ← (st ←? print_loop (Some stk) (Some fk) fuel (pst [] 0);
           close_parens (Some stk) (Some fk) (S (Z.to_nat (pr_depth st))) st);
      match r with
      | inl e => mret e
      | inr st =>
          retval ← (if pr_left st =? 0 then
                      store_char (cadd (pr_b st) (-1)) 0;; mret (-1)
                    else
                      store_char (pr_b st) 0;;
                      mret (int_of_size (u64 (size - pr_left st))));
          destroy_stack (Some stk);;
          sexp_t_deallocate (Some fk);;
          mret retval
      end) Φ.
Proof.
  iIntros "Hloop HΦ". wp_bind_head. iApply wp_early. iApply "Hloop". unfold loop_result.
  iSplit; [|by iIntros "Hfull"; iDestruct "HΦ" as "[_ HΦ]"; iApply wp_ret; iApply "HΦ"].
  iIntros "%Hw Ho (Hm & Hp & He) Hs [(%sx & Hf & Hv) HK]". iApply wp_ret.
  rewrite pr_left_pst. destruct (Z.eqb_spec (size - Z.of_nat (length T)) 0); [lia|].
  wp_bind_head. iApply (wp_out_store with "Ho"); [done|]. iIntros "Ho". wp_ret.
  wp_bind_head. iApply (wp_destroy_stack_ok with "Hs Hm"). iIntros "Hm". wp_bind_head.
  iApply (wp_sexp_t_deallocate_val with "Hf Hv Hp Hm"); [done|]. iIntros "Hp Hm".
  iApply wp_ret. iDestruct "HΦ" as "[HΦ _]".
  replace (size - (size - Z.of_nat (length T))) with (Z.of_nat (length T)) by lia.
  rewrite u64_small; [|lia]. by iApply ("HΦ" with "[] Ho Hm Hp He HK").
Qed.
End print.

Section print_sexp.
Context {api : MemApi} {laws : MemLaws api} {pool : PoolApi} {plaws : PoolLaws api pool}.

(** The copy of the head: an atom with a string of its own, or a list
    without its elements. *)
Definition head_copy (t : tree) : tree :=
  match t with Node _ => Node [] | _ => t end.

Lemma wp_copy_head t l nx n m Φ :
  is_blob t = false ->
  tree_at t l nx -∗ pool_ok n m -∗ mem_ok -∗
  (∀ fk, tree_at t l nx -∗ tree_at (head_copy t) fk None -∗ pool_ok n m -∗ mem_ok -∗
     Φ (Some fk)) -∗
  wp (copy_head (Some l)) Φ.
Proof.
  iIntros (Htx) "Ht Hp Hm HΦ". unfold copy_head. destruct t as [aty s|d|us]; [|done|].
  - iEval (rewrite tree_at_atom) in "Ht". iDestruct "Ht" as "(%e & %lv & %b & %He & Hl & Hv)".
    wp_bind_head. iApply (wp_load with "Hl"). iIntros "Hl".
    wp_bind_head. iApply wp_alloc. iIntros (tmp) "Htmp". wp_bind_head. unfold copy_sexp.
    wp_bind_head. iApply (wp_heap_fuel 1 with "Htmp"); [apply cells_points_to|].
    iIntros (fuel) "%Hf Htmp". destruct fuel as [|fuel]; [lia|].
    iApply (wp_copy_atom _ _ _ aty s lv b None with "Htmp Hv Hp Hm"); [by destruct e, He|].
    iIntros (fk) "Htmp Hv Hfk Hp Hm". wp_bind_head.
    iApply (wp_load with "Htmp"). iIntros "Htmp". destruct fuel as [|fuel]; [lia|].
    wp_ret. iDestruct (tree_next_acc with "Hfk") as (e') "(Hl' & _ & Hfk)".
    wp_bind_head. iApply (wp_modify with "Hl'"). iIntros "Hl'". iApply wp_ret.
    wp_bind_head. iApply (wp_dealloc with "Htmp"). iApply wp_ret.
    iApply ("HΦ" with "[Hl Hv] [Hl' Hfk] Hp Hm"); [|by iApply "Hfk"].
    iExists e, lv, b. by iFrame.
  - iEval (rewrite tree_at_node) in "Ht". iDestruct "Ht" as "(%e & %q & %He & Hl & Hus)".
    wp_bind_head. iApply (wp_load with "Hl"). iIntros "Hl".
    wp_bind_head. iApply wp_alloc. iIntros (tmp) "Htmp". wp_bind_head.
    iApply (wp_copy_sexp [Node []] with "[Htmp] Hp Hm").
    { iExists tmp, None. rewrite tree_at_node. iSplit; [done|]. iSplit; [|done].
      iExists _, None. iFrame. iSplit; [|done]. iPureIntro. by destruct e, He. }
    iIntros (fk) "(%tmp' & %nx' & %Heq & Ht & %Hnx) (%fk' & %nx2 & -> & Hfk & %Hnx2) Hp Hm".
    injection Heq as <-. subst nx' nx2.
    iEval (rewrite tree_at_node) in "Ht". iDestruct "Ht" as "(%e' & %q' & _ & Htmp & _)".
    wp_bind_head. iApply (wp_dealloc with "Htmp"). iApply wp_ret.
    iApply ("HΦ" with "[Hl Hus] Hfk Hp Hm"). rewrite tree_at_node. iExists e, q. by iFrame.
Qed.

(** The copied head with the elements of the original. *)
Definition head_ready (t : tree) (l : loc) (nx : ptr) (fk : loc) : hprop :=
  match t with
  | Atom aty s =>
      ∃ e lv b, ⌈atom_elt e aty s lv b None⌉ ∗ fk ↦ e ∗ lv ↦ b ∗ tree_at (Atom aty s) l nx
  | Binary _ => False
  | Node us =>
      ∃ e q, ⌈list_elt e q None⌉ ∗ fk ↦ e ∗ forest_at us q ∗
        (forest_at us q -∗ tree_at (Node us) l nx)
  end%I.

Lemma wp_link_head {A} t l nx fk (k : M A) Φ :
  is_blob t = false ->
  tree_at t l nx -∗ tree_at (head_copy t) fk None -∗ (head_ready t l nx fk -∗ wp k Φ) -∗
  wp (s ← load (A := sexp_t) (Some l);
      modify (Some fk) (fun f => f <| elt_list := elt_list s |> <| elt_next := None |>);; k) Φ.
Proof.
  iIntros (Htx) "Ht Hfk HΦ". destruct t as [aty s|d|us]; [|done|]; simpl head_copy.
  - iEval (rewrite tree_at_atom) in "Ht". iDestruct "Ht" as "(%e & %lv & %b & %He & Hl & Hv)".
    iEval (rewrite tree_at_atom) in "Hfk".
    iDestruct "Hfk" as "(%e' & %lv' & %b' & %He' & Hl' & Hv')".
    wp_bind_head. iApply (wp_load with "Hl"). iIntros "Hl".
    wp_bind_head. iApply (wp_modify with "Hl'"). iIntros "Hl'".
    iApply "HΦ". iExists _, lv', b'. iFrame "Hl' Hv'". iSplit.
    { iPureIntro. rewrite (ae_list _ _ _ _ _ _ He). by destruct e', He'. }
    rewrite tree_at_atom. iExists e, lv, b. by iFrame.
  - iEval (rewrite tree_at_node) in "Ht". iDestruct "Ht" as "(%e & %q & %He & Hl & Hus)".
    iEval (rewrite tree_at_node) in "Hfk". iDestruct "Hfk" as "(%e' & %q' & %He' & Hl' & ->)".
    wp_bind_head. iApply (wp_load with "Hl"). iIntros "Hl".
    wp_bind_head. iApply (wp_modify with "Hl'"). iIntros "Hl'".
    iApply "HΦ". iExists _, q. iFrame "Hl' Hus". iSplit.
    { iPureIntro. rewrite (le_list _ _ _ He). by destruct e', He'. }
    iIntros "Hus". rewrite tree_at_node. iExists e, q. by iFrame.
Qed.

Lemma head_ready_cells t l nx fk : head_ready t l nx fk ⊢ cells (tree_size t).
Proof.
  destruct t as [aty s|d|us]; simpl.
  - iIntros "(%e & %lv & %b & _ & H)". iDestruct "H" as "(Hf & H)".
    iDestruct (cells_points_to with "Hf") as "Hf". iDestruct (cells_any with "H") as "H".
    by iDestruct (cells_sep with "[$Hf $H]") as "H".
  - by iIntros "[]".
  - fold (forest_size us). iIntros "(%e & %q & _ & Hf & Hus & H)".
    iDestruct (cells_points_to with "Hf") as "Hf". iDestruct (seg_cells with "Hus") as "Hus".
    iDestruct (cells_any with "H") as "H". iDestruct (cells_sep with "[$Hus $H]") as "Hus".
    iDestruct (cells_sep with "[$Hf $Hus]") as "H". iApply (cells_le with "H"). lia.
Qed.

(** The expressions that are printed: text, or, when it fits into [size]
    bytes, any expression that is not binary data itself. *)
Definition printed_within (size : Z) (t : tree) : Prop :=
  is_blob t = false /\ (Z.of_nat (length (tree_text t)) < size \/ textual t = true).

Lemma textual_printed size t : textual t = true -> printed_within size t.
Proof. intros Ht. split; [by apply textual_not_blob|by right]. Qed.

Lemma pst_start lb pre size :
  mk_print (Some (lb, Z.of_nat (length pre))) size 0 = pst lb pre size [] 0.
Proof. unfold pst. simpl. by rewrite Nat.add_0_r Z.sub_0_r. Qed.

Section loop.
Variables (lb stk fk : loc) (pre tail : list (fld Z)) (size : Z).
Hypotheses (Hsize : 0 < size < 2 ^ 64) (Htail : size <= Z.of_nat (length tail)).

(** The loop on the copied head, with enough iterations. *)
Lemma wp_print_loop t l nx n m fuel Ψ :
  printed_within size t -> Z.of_nat n < int_max -> Z.of_nat (tree_size t) < int_max ->
  (tree_size t < fuel)%nat ->
  out lb pre tail [] -∗ live n m -∗ is_stack stk [Some fk] -∗ head_ready t l nx fk -∗
  loop_result lb stk fk pre tail size (tree_text t) n m (tree_at t l nx) Ψ -∗
  wp (print_loop (Some stk) (Some fk) (print_fuel fuel) (pst lb pre size [] 0)) Ψ.
Proof.
  iIntros ([Hleaf Hpr] Hn Hts Hf) "Ho Hlive Hs Ht HΨ". destruct t as [aty s|d|us]; [|done|].
  - iDestruct "Ht" as "(%e & %lv & %b & %He & Hf & Hv & Ht)".
    replace (print_fuel fuel) with (S (S (2 * fuel - 1))) by (unfold print_fuel; lia).
    by iApply (wp_loop_atom with "Ho Hlive Hs Hf Hv Ht HΨ").
  - iDestruct "Ht" as "(%e & %q & %He & Hf & Hus & Ht)". simpl in Hf, Hts.
    fold (forest_size us) in Hf, Hts. pose proof (forest_cost_le us).
    replace (print_fuel fuel) with
      (S (forest_cost us + S (S (2 * fuel - forest_cost us - 2)))) by (unfold print_fuel; lia).
    iApply (wp_loop_list with "Ho Hlive Hs Hf Hus Ht HΨ"); [done..| |done|done|lia].
    iIntros "[Hus Ht]". by iApply "Ht".
Qed.
End loop.

(** [print_sexp] writes the text of the expression and a NUL, or as much of
    it as fits; the expression is not changed and nothing is leaked. *)
Lemma wp_print_sexp_any lb pre tail size t l nx n m Φ :
  0 < size < 2 ^ 64 -> size <= Z.of_nat (length tail) -> printed_within size t ->
  Z.of_nat n < int_max -> Z.of_nat (tree_size t) < int_max ->
  lb ↦ (pre ++ tail) -∗ tree_at t l nx -∗ mem_ok -∗ pool_ok n m -∗ errno_own -∗
  (⌈Z.of_nat (length (tree_text t)) < size⌉ -∗
     out lb pre tail (tree_text t ++ [c_nul]) -∗ mem_ok -∗ pool_ok (S n) m -∗ errno_own -∗
     tree_at t l nx -∗ Φ (int_of_size (Z.of_nat (length (tree_text t))))) ∧
  (full lb pre tail size (tree_text t) n m (tree_at t l nx) -∗ Φ (-1)) -∗
  wp (print_sexp (Some (lb, Z.of_nat (length pre))) size (Some l)) Φ.
Proof.
  iIntros (Hsize Htail Htx Hn Hts) "Ho Ht Hm Hp He HΦ". unfold print_sexp.
  destruct (Z.ltb_spec size 1); [lia|]. pose proof (proj1 Htx) as Hblob.
  wp_bind_head. iApply (wp_copy_head with "Ht Hp Hm"); [done|].
  iIntros (fk) "Ht Hfk Hp Hm". iApply (wp_link_head with "Ht Hfk"); [done|]. iIntros "Ht".
  wp_bind_head. iApply (wp_make_stack_ok with "Hm"). iIntros (stk) "Hs Hm".
  wp_bind_head. iApply (wp_push_ok with "Hs Hm"); [simpl; lia|]. iIntros "Hs Hm".
  wp_bind_head. iApply (wp_heap_fuel (tree_size t) with "Ht"); [apply head_ready_cells|].
  iIntros (fuel) "%Hf Ht". rewrite (pst_start lb pre size).
  iApply (wp_print_after lb stk fk pre tail size Hsize Htail (tree_text t) n m
    (tree_at t l nx) with "[Ho Ht Hs Hm Hp He]"); [done| |].
  - iIntros (Ψ) "HΨ". iApply (wp_print_loop with "[Ho] [$Hm $Hp $He] Hs Ht HΨ"); [done..|].
    iExact "Ho".
  - iSplit; [|by iDestruct "HΦ" as "[_ HΦ]"]. iDestruct "HΦ" as "[HΦ _]". iExact "HΦ".
Qed.

(** ... of text. *)
Lemma wp_print_sexp lb pre tail size t l nx n m Φ :
  0 < size < 2 ^ 64 -> size <= Z.of_nat (length tail) -> textual t = true ->
  Z.of_nat n < int_max -> Z.of_nat (tree_size t) < int_max ->
  lb ↦ (pre ++ tail) -∗ tree_at t l nx -∗ mem_ok -∗ pool_ok n m -∗ errno_own -∗
  (⌈Z.of_nat (length (tree_text t)) < size⌉ -∗
     out lb pre tail (tree_text t ++ [c_nul]) -∗ mem_ok -∗ pool_ok (S n) m -∗ errno_own -∗
     tree_at t l nx -∗ Φ (int_of_size (Z.of_nat (length (tree_text t))))) ∧
  (full lb pre tail size (tree_text t) n m (tree_at t l nx) -∗ Φ (-1)) -∗
  wp (print_sexp (Some (lb, Z.of_nat (length pre))) size (Some l)) Φ.
Proof. intros ?? Ht. by apply wp_print_sexp_any, textual_printed. Qed.
End print_sexp.

Section theorems.
Context {api : MemApi} {laws : MemLaws api} {pool : PoolApi} {plaws : PoolLaws api pool}.

(** C3. [print_sexp] writes the text of the expression and a NUL and returns
    the length of the text; if the text and the NUL do not fit into [size]
    bytes it returns -1, reports [SEXP_ERR_BUFFER_FULL] and leaves the first
    [size - 1] characters and a NUL.  No byte outside those [size] changes,
    the expression does not change, and what it allocates is given back.
    [t] is an expression without binary data, or, if the buffer is large
    enough, a list with binary data in it; [l] may have successors, which
    are not printed. *)
Theorem print_sexp_correct lb pre tail size t l nx n m :
  0 < size < 2 ^ 64 -> size <= Z.of_nat (length tail) -> printed_within size t ->
  Z.of_nat n < int_max -> Z.of_nat (tree_size t) < int_max ->
  ⦃ lb ↦ (pre ++ tail) ∗ tree_at t l nx ∗ mem_ok ∗ pool_ok n m ∗ errno_own ⦄
    print_sexp (Some (lb, Z.of_nat (length pre))) size (Some l)
  ⟪ r, tree_at t l nx ∗ mem_ok ∗ pool_ok (S n) m ∗
       if decide (Z.of_nat (length (tree_text t)) < size) then
         ⌈r = int_of_size (Z.of_nat (length (tree_text t)))⌉ ∗ errno_own ∗
         out lb pre tail (tree_text t ++ [c_nul])
       else
         ⌈r = -1⌉ ∗ g_sexp_errno ↦ SEXP_ERR_BUFFER_FULL ∗
         out lb pre tail (take (Z.to_nat (size - 1)) (tree_text t) ++ [c_nul]) ⟫.
Proof.
  iIntros (Hsize Htail Htx Hn Ht) "(Ho & Ht & Hm & Hp & He)".
  iApply (wp_print_sexp_any with "Ho Ht Hm Hp He"); [done..|]. iSplit.
  - iIntros "%Hlt Ho Hm Hp He Ht". rewrite decide_True //. by iFrame.
  - iIntros "(%Hge & Ht & Hm & Hp & He & Ho)". rewrite decide_False; [|lia]. by iFrame.
Qed.
End theorems.

#[local] Existing Instances default_mem cached_pool.

(** The expression [(a 'b ("c"))] and a buffer that is too small for it, at
    an offset in its block. *)
Definition demo_printed : tree :=
  Node [Atom SEXP_BASIC [97]; Atom SEXP_SQUOTE [98]; Node [Atom SEXP_DQUOTE [99]]].

Lemma print_sexp_correct_witness :
  exists r h,
    print_sexp (Some (60%positive, 2)) 6 (Some 64%positive)
      (heap_of (idle ++ (60%positive, CChars (replicate 10 Indet)) ::
                place_forest [demo_printed] 64)) = Done r h /\
    (tree_at demo_printed 64 None ∗ mem_ok ∗ pool_ok 1 0 ∗
     ⌈r = -1⌉ ∗ g_sexp_errno ↦ SEXP_ERR_BUFFER_FULL ∗
     out 60 [Indet; Indet] (replicate 8 Indet) (take 5 (tree_text demo_printed) ++ [c_nul]))%I h.
Proof.
  refine (run_triple _ _ _ _ (print_sexp_correct 60 [Indet; Indet] (replicate 8 Indet) 6
    demo_printed 64 None 0 0 _ _ _ _ _) _ _).
  - done.
  - done.
  - by apply textual_printed.
  - done.
  - done.
  - apply (bool_decide_unpack _). by vm_compute.
  - rewrite cells_at_app idle_cells. iIntros "[($ & $ & $) [Hb Ht]]".
    iSplitL "Hb"; [iExact "Hb"|]. iDestruct (place_forest_at [demo_printed] eq_refl with "Ht") as
      (l nx) "(%Hl & Ht & %Hnx)". injection Hl as <-. subst nx. iExact "Ht".
Defined.
