(* ===== verification/RoundTrip.v ===== *)
(** Printing and parsing are inverse to each other, and a program that
    parses, prints and cleans up keeps no memory. *)
From S2P Require Import Prelude SexpTypes CMem SepLogic SexpMemory FastStack CLib ElementPool.
From S2P Require Import Trees Layout SexpOps Sexp Print ParserStates EventParser Parser Machine.
From S2P Require Import Simulation Refinement ParserSpec ParseSexp Syntax PrintSpec.

(** ** Texts of expressions *)

Lemma printable_textual t : printable false t = true -> textual t = true.
Proof.
  induction t as [aty s|d|ts IH] using tree_forest_ind; [done..|]. simpl.
  induction IH as [|t ts Ht _ IHts]; [done|]. simpl. intros [H1 H2]%andb_prop.
  by rewrite Ht // IHts.
Qed.

Lemma printable_text_pos t : printable false t = true -> (0 < length (tree_text t))%nat.
Proof.
  destruct t as [[] s|d|ts]; simpl; try done; intros H; try lia.
  destruct s; [done|simpl; lia].
Qed.

Definition no_nul (s : list Z) : Prop := Forall (fun c => c <> 0) s.

Lemma no_nul_escape s : no_nul s -> no_nul (escape s).
Proof.
  intros Hs. apply Forall_bind. eapply Forall_impl; [exact Hs|]. intros c Hc. simpl in Hc.
  change (no_nul (escape_char c)). unfold escape_char, no_nul.
  destruct ((c =? c_dquote) || (c =? c_bslash)); repeat (constructor; [done|]); constructor.
Qed.

Lemma no_nul_join ts : Forall (fun t => no_nul (tree_text t)) ts -> no_nul (join tree_text ts).
Proof.
  induction 1 as [|t ts Ht Hts IH]; [constructor|]. destruct ts as [|u ts]; [done|].
  change (no_nul (tree_text t ++ c_space :: join tree_text (u :: ts))).
  apply Forall_app. split; [done|]. by constructor.
Qed.

Lemma seg_no_nul ts : forall p q, forallb textual ts = true ->
  seg ts p q ⊢ ⌜Forall (fun t => no_nul (tree_text t)) ts⌝.
Proof.
  induction ts as [|aty s ts IH|d ts IH|us ts IHu IH] using forest_ind; intros p q Hts;
    simpl in Hts.
  - iIntros "_". iPureIntro. constructor.
  - iIntros "(%l & %nx & _ & Ht & Hts)". iDestruct (IH with "Hts") as %H; [done|].
    iEval (rewrite tree_at_atom) in "Ht". iDestruct "Ht" as "(%e & %lv & %b & %He & _)".
    iPureIntro. constructor; [|done]. pose proof (ae_chars _ _ _ _ _ _ He) as Hs.
    destruct aty; simpl; [done|by constructor| |by destruct (ae_text _ _ _ _ _ _ He)].
    constructor; [done|]. apply Forall_app. split; [by apply no_nul_escape|by repeat constructor].
  - done.
  - apply andb_prop in Hts as [Hus Hts]. iIntros "(%l & %nx & _ & Ht & Hts)".
    iDestruct (IH with "Hts") as %H; [done|].
    iEval (rewrite tree_at_node) in "Ht". iDestruct "Ht" as "(%e & %r & %He & _ & Hus)".
    iDestruct (IHu with "Hus") as %Hu; [done|]. iPureIntro. constructor; [|done].
    simpl. constructor; [done|]. apply Forall_app.
    split; [by apply no_nul_join|by repeat constructor].
Qed.

Lemma tree_no_nul t l nx : textual t = true -> tree_at t l nx ⊢ ⌜no_nul (tree_text t)⌝.
Proof.
  intros Ht. iIntros "H". iDestruct (seg_no_nul [t] (Some l) nx with "[H]") as %Hf.
  - simpl. by rewrite Ht.
  - iExists l, nx. by iFrame.
  - iPureIntro. by apply Forall_inv in Hf.
Qed.

(** What [print_sexp] leaves is a text for [parse_sexp]. *)
Lemma printed_text pre tail s :
  no_nul s ->
  text_at (pre ++ (Det <$> s ++ [c_nul]) ++ drop (length (s ++ [c_nul])) tail)
    (Z.of_nat (length pre)) (Z.of_nat (length s)) s c_nul (drop (length (s ++ [c_nul])) tail).
Proof.
  intros Hs. split; [|done|by left]. split; [lia|].
  rewrite Nat2Z.id drop_app_length fmap_app -assoc_L. done.
Qed.

(** ** Print, then parse *)
Section sessions.
Context {api : MemApi} {pool : PoolApi}.

(** A caller that hands the text it printed to the parser. *)
Definition print_and_parse (buf : cptr) (size : Z) (sx : ptr) : M ptr :=
  n ← print_sexp buf size sx; parse_sexp buf n.

(** A program: it parses a text, prints the expression, releases it and
    cleans up. *)
Definition whole_session (text : cptr) (len : Z) (buf : cptr) (size : Z) : M Z :=
  sx ← parse_sexp text len;
  n ← print_sexp buf size sx;
  destroy_sexp sx;;
  sexp_cleanup;;
  mret n.
End sessions.

Section theorems.
Context {api : MemApi} {laws : MemLaws api} {pool : PoolApi} {plaws : PoolLaws api pool}.

(** C2. What [print_sexp] writes, [parse_sexp] reads back: the second
    expression has the value of the first, in memory of its own, and the
    first is untouched.  [printable] admits words that hold no syntax
    character, strings with any character in double quotes, and lists. *)
Theorem print_parse_round_trip ss gs lb pre tail size t l nx N m :
  let text := tree_text t in
  params_ok ss gs -> printable false t = true ->
  Z.of_nat (length text) < size < 2 ^ 64 -> size <= Z.of_nat (length tail) ->
  Z.of_nat (tree_size t) < int_max ->
  Z.of_nat (S N + length text + 1) <= int_max ->
  Z.of_nat (m + 2 * length text + 2) < int_max ->
  ⦃ lb ↦ (pre ++ tail) ∗ tree_at t l nx ∗ parser_env ss gs N m ∗ errno_own ⦄
    print_and_parse (Some (lb, Z.of_nat (length pre))) size (Some l)
  ⟪ sx, forest_at [t] sx ∗ tree_at t l nx ∗ g_sexp_errno ↦ SEXP_ERR_OK ∗
        parser_env ss gs (S N + length text + 1) (m + 2 * length text + 2) ∗
        out lb pre tail (text ++ [c_nul]) ⟫.
Proof.
  intros text (Hss & Hgs & Hsz) Hp Hsize Htail Hts HN Hm.
  iIntros "(Hb & Ht & (Hmem & Hpool & Hg) & He)".
  iDestruct (tree_no_nul with "Ht") as %Hnul; [by apply printable_textual|].
  destruct (parse_outcome_text t Hp) as [Hpars Hout].
  unfold print_and_parse. wp_bind_head.
  iApply (wp_print_sexp with "Hb Ht Hmem Hpool He"); [lia|done|by apply printable_textual|lia|done|].
  iSplit; [|iIntros "[%Hge Hrest]"; unfold text in Hsize; lia].
  iIntros "_ Hb Hmem Hpool He Ht". fold text. unfold int_max in HN.
  rewrite int_of_size_small; [|lia]. unfold out.
  iApply (wp_parse_sexp ss gs Hss Hgs Hsz with "[$Hmem $Hpool $Hg] He Hb");
    [by apply printed_text|done| |done|done|].
  { pose proof (printable_text_pos t Hp). fold text in H. lia. }
  iIntros (sx) "Hsx He Henv Hb". rewrite Hout. iDestruct "Hsx" as (l') "[-> Hsx]".
  by iFrame.
Qed.
End theorems.

(** ** The pools as they are kept between calls *)
Section cached.
Context {api : MemApi} {laws : MemLaws api}.
#[local] Existing Instance cached_pool.

(** The globals of the library before the first and after the last call. *)
Definition globals (ss gs : Z) : hprop :=
  (mem_ok ∗ (g_sexp_t_cache ↦ (None : ptr) ∗ g_pd_cache ↦ (None : ptr)) ∗
   g_val_start_size ↦ ss ∗ g_val_grow_size ↦ gs)%I.

Lemma globals_env ss gs : globals ss gs ⊢ parser_env ss gs 0 0.
Proof.
  iIntros "($ & [Hs Hd] & $ & $)". iSplitL "Hs"; iExists None; by iFrame.
Qed.

(** C5. A program that parses a text, prints the expression, destroys it and
    calls [sexp_cleanup] gets the printed text, and when it is done the
    library owns no memory: no cell is left over but the globals, the
    program's text and its buffer. *)
Theorem whole_session_leaks_nothing ss gs lin blk o len s term post lb pre tail size t :
  params_ok ss gs -> text_at blk o len s term post -> parsable s -> 0 < len ->
  parse_outcome s = (SEXP_ERR_OK, Some t) ->
  Z.of_nat (length (tree_text t)) < size < 2 ^ 64 -> size <= Z.of_nat (length tail) ->
  Z.of_nat (3 * length s + 3) < int_max ->
  ⦃ lin ↦ blk ∗ lb ↦ (pre ++ tail) ∗ globals ss gs ∗ errno_own ⦄
    whole_session (Some (lin, o)) len (Some (lb, Z.of_nat (length pre))) size
  ⟪ n, ⌈n = int_of_size (Z.of_nat (length (tree_text t)))⌉ ∗ lin ↦ blk ∗
       out lb pre tail (tree_text t ++ [c_nul]) ∗ globals ss gs ∗ errno_own ⟫.
Proof.
  intros (Hss & Hgs & Hsz) Htext Hpars Hlen Hout Hsize Htail Hsizes.
  pose proof (parse_outcome_typed s Hpars) as Hty. rewrite Hout in Hty.
  destruct Hty as (_ & Htx & Ht).
  iIntros "(Hl & Hb & Hg & He)". iDestruct (globals_env with "Hg") as "Hg". unfold whole_session. wp_bind_head.
  iApply (wp_parse_sexp ss gs Hss Hgs Hsz with "Hg He Hl"); [done|done|done|lia..|].
  iIntros (sx) "Hsx He (Hm & Hp & Hg) Hl". rewrite Hout. simpl tree_opt.
  iDestruct "Hsx" as (l) "[-> Ht]". wp_bind_head.
  iApply (wp_print_sexp with "Hb Ht Hm Hp [He]"); [lia|done|done|lia|lia|by iExists _|].
  iSplit; [|iIntros "[%Hge Hrest]"; lia]. iIntros "_ Hb Hm Hp He Ht". wp_bind_head.
  iApply (wp_destroy_sexp [t] with "[Ht] Hp Hm"); [simpl; lia| |].
  { iExists l, None. by iFrame. }
  iIntros "Hp Hm". wp_bind_head. iApply (wp_sexp_cleanup with "Hp Hm").
  iIntros "Hs Hd Hm". wp_ret. by iFrame.
Qed.
End cached.

#[local] Existing Instances default_mem cached_pool.

(** The globals, a text, a buffer. *)
Definition demo_globals (cs : list (loc * cell)) : list (loc * cell) :=
  [(g_answers, CAnswers []); (g_sexp_t_cache, CPtr None); (g_pd_cache, CPtr None);
   (g_val_start_size, CSize 256); (g_val_grow_size, CSize 64);
   (g_sexp_errno, CErrno SEXP_ERR_OK); (60%positive, CChars (replicate 40 Indet))] ++ cs.

Lemma demo_globals_cells cs :
  cells_at (demo_globals cs) ⊢
  globals 256 64 ∗ errno_own ∗ 60%positive ↦ ([] ++ replicate 40 (Indet : fld Z)) ∗ cells_at cs.
Proof.
  unfold demo_globals. rewrite cells_at_app.
  iIntros "[(Ha & Hc & Hd & Hs & Hg & He & Hb & _) $]". iSplitR "He Hb".
  - iSplitL "Ha"; [iExact "Ha"|]. iSplitL "Hc Hd"; [iSplitL "Hc"; [iExact "Hc"|iExact "Hd"]|].
    iSplitL "Hs"; [iExact "Hs"|iExact "Hg"].
  - iSplitL "He"; [iExists SEXP_ERR_OK; iExact "He"|iExact "Hb"].
Qed.

Lemma print_parse_round_trip_witness :
  exists sx h,
    print_and_parse (Some (60%positive, 0)) 40 (Some 64%positive)
      (heap_of (demo_globals (place_forest [demo_printed] 64))) = Done sx h /\
    (forest_at [demo_printed] sx ∗ tree_at demo_printed 64 None ∗
     g_sexp_errno ↦ SEXP_ERR_OK ∗ parser_env 256 64 (1 + 12 + 1) (0 + 2 * 12 + 2) ∗
     out 60 [] (replicate 40 Indet) (tree_text demo_printed ++ [c_nul]))%I h.
Proof.
  refine (run_triple _ _ _ _ (print_parse_round_trip 256 64 60 [] (replicate 40 Indet) 40
    demo_printed 64 None 0 0 _ _ _ _ _ _ _) _ _).
  - by vm_compute.
  - done.
  - done.
  - done.
  - done.
  - by vm_compute.
  - by vm_compute.
  - apply (bool_decide_unpack _). by vm_compute.
  - rewrite demo_globals_cells globals_env. iIntros "($ & $ & $ & Ht)".
    iDestruct (place_forest_at [demo_printed] eq_refl with "Ht") as (l nx) "(%Hl & Ht & %Hnx)".
    injection Hl as <-. subst nx. iExact "Ht".
Defined.

Lemma whole_session_leaks_nothing_witness :
  let s := bytes_of_string "(a  (b) 'c )" in
  exists n h,
    whole_session (Some (64%positive, 0)) 12 (Some (60%positive, 0)) 40
      (heap_of (demo_globals [(64%positive, CChars ((Det <$> s) ++ [Det 0]))])) = Done n h /\
    (⌈n = int_of_size 10⌉ ∗ 64%positive ↦ ((Det <$> s) ++ [Det 0]) ∗
     out 60 [] (replicate 40 Indet) (bytes_of_string "(a (b) 'c)" ++ [c_nul]) ∗
     globals 256 64 ∗ errno_own)%I h.
Proof.
  intros s. refine (run_triple _ _ _ _ (whole_session_leaks_nothing 256 64 64
    ((Det <$> s) ++ [Det 0]) 0 12 s 0 [] 60 [] (replicate 40 Indet) 40
    (Node [Atom SEXP_BASIC [97]; Node [Atom SEXP_BASIC [98]]; Atom SEXP_SQUOTE [99]])
    _ _ _ _ _ _ _ _) _ _).
  - by vm_compute.
  - apply (startup_text s). repeat (constructor; [done|]). constructor.
  - by vm_compute.
  - done.
  - by vm_compute.
  - done.
  - done.
  - by vm_compute.
  - apply (bool_decide_unpack _). by vm_compute.
  - rewrite demo_globals_cells. iIntros "($ & $ & $ & [Ht _])". iExact "Ht".
Defined.
