(* ===== verification/PrintContSpec.v ===== *)
(** What [print_pcont] writes: the elements that were read, level by level,
    and the atom that is being read. *)
From S2P Require Import Prelude SexpTypes CMem SepLogic SexpMemory FastStack CLib ElementPool.
From S2P Require Import Trees Sexp Print ParserStates Parser PrintCont Machine Events Simulation.
From S2P Require Import ParserSpec ParseSexp Syntax PrintSpec.

(** ** The text *)

(** A list without elements stands for one that is open: its elements are on
    the next level, and what follows it in the chain is not looked at. *)
Definition hollow (t : tree) : bool := match t with Node [] => true | _ => false end.

Fixpoint level_text (ts : list tree) : list Z :=
  match ts with
  | [] => []
  | t :: ts => if hollow t then [c_lparen] else tree_text t ++ c_space :: level_text ts
  end.

(** The elements on the stack, the outermost level first. *)
Definition levels_text (st : list (list tree)) : list Z :=
  concat (map level_text (reverse (level_forests st))).

Lemma level_text_app ts us :
  level_text (ts ++ us) =
  if existsb hollow ts then level_text ts else level_text ts ++ level_text us.
Proof.
  induction ts as [|t ts IH]; [done|]. simpl. destruct (hollow t); [done|]. simpl.
  rewrite IH. destruct (existsb hollow ts); [done|]. by rewrite -(assoc_L app).
Qed.

(** Where no element that was read is an empty list, everything is shown: the
    elements of a level, each followed by a space, and a parenthesis in front
    of every level. *)
Abbreviation all_solid := (forallb (fun t => negb (hollow t))).

Definition elements_text (ts : list tree) : list Z :=
  flat_map (fun t => tree_text t ++ [c_space]) ts.

Fixpoint open_text (st : list (list tree)) : list Z :=
  match st with
  | [] => []
  | ts :: st => open_text st ++ c_lparen :: elements_text ts
  end.

Lemma level_text_solid ts : all_solid ts = true -> level_text ts = elements_text ts.
Proof.
  induction ts as [|t ts IH]; [done|]. cbn [forallb]. intros [Ht%negb_true_iff Hts]%andb_prop.
  simpl. by rewrite Ht IH // -(assoc_L app).
Qed.

Lemma level_text_open ts :
  all_solid ts = true -> level_text (ts ++ [Node []]) = level_text ts ++ [c_lparen].
Proof.
  intros Hts. rewrite level_text_app. assert (existsb hollow ts = false) as ->; [|done].
  induction ts as [|t ts IH]; [done|]. cbn [forallb] in Hts.
  apply andb_prop in Hts as [Ht%negb_true_iff Hts]. simpl. by rewrite Ht IH.
Qed.

(** What is under the innermost open list, its parenthesis included. *)
Definition opening (st : list (list tree)) : list Z :=
  concat (map level_text (reverse ((fun us => us ++ [Node []]) <$> st ++ [[]]))).

Lemma opening_cons us st :
  all_solid us = true -> opening (us :: st) = opening st ++ level_text us ++ [c_lparen].
Proof.
  intros Hus. unfold opening. cbn [app fmap list_fmap]. rewrite reverse_cons map_app concat_app /=.
  by rewrite app_nil_r level_text_open.
Qed.

Lemma levels_text_cons us st : levels_text (us :: st) = opening st ++ level_text us.
Proof.
  unfold levels_text, opening. simpl level_forests.
  by rewrite reverse_cons map_app concat_app /= app_nil_r.
Qed.

Lemma opening_text st : forallb all_solid st = true -> opening st = open_text st ++ [c_lparen].
Proof.
  induction st as [|us st IH]; [done|]. cbn [forallb]. intros [Hus Hst]%andb_prop.
  rewrite opening_cons // IH // level_text_solid //= -!(assoc_L app) //.
Qed.

Lemma levels_text_solid st : forallb all_solid st = true -> levels_text st = open_text st.
Proof.
  destruct st as [|us st]; [done|]. cbn [forallb]. intros [Hus Hst]%andb_prop.
  by rewrite levels_text_cons opening_text // level_text_solid // -(assoc_L app).
Qed.

(** ** The levels *)

(** An open level ends in a list without elements. *)
Lemma open_forest_top us fst lst : open_forest us fst lst ⊣⊢ top_forest (us ++ [Node []]) fst lst.
Proof.
  iSplit.
  - iIntros "(%l & %e & %He & Hs & Hl)". destruct He as [-> He]. iRight.
    iExists us, (Node []), l. iSplit; [done|]. iFrame "Hs". rewrite tree_at_node.
    iExists e, None. by iFrame.
  - iIntros "[%Hn|(%us' & %t & %l & %Hl & Hs & Ht)]"; [by destruct us, Hn|].
    destruct Hl as [[-> <-]%app_inj_tail ->]. rewrite tree_at_node.
    iDestruct "Ht" as (e p) "(%He & Hl & Hf)". unfold forest_at. rewrite seg_nil.
    iDestruct "Hf" as %->. iExists l, e. by iFrame.
Qed.

Definition tops (tss : list (list tree)) (pds : list ptr) : hprop :=
  ([∗ list] ts;pd ∈ tss;pds, level top_forest ts pd)%I.

Lemma level_open us pd : level open_forest us pd ⊣⊢ level top_forest (us ++ [Node []]) pd.
Proof. unfold level. by setoid_rewrite open_forest_top. Qed.

Lemma levels_at_tops st pds : levels_at st pds ⊣⊢ tops (level_forests st) pds.
Proof.
  unfold tops. destruct st as [|ts st]; simpl.
  - destruct pds; simpl; [by iSplit; iIntros|]. iSplit; [by iIntros "%"|by iIntros "?"].
  - unfold open_levels. destruct pds as [|pd pds]; simpl.
    + iSplit; [by iIntros "(% & % & % & _)"|by iIntros "?"].
    + iSplit.
      * iIntros "(%pd' & %pds' & %H & Ht & Ho)". injection H as <- <-. iFrame "Ht".
        rewrite big_sepL2_fmap_l. setoid_rewrite level_open. done.
      * iIntros "[Ht Ho]". iExists pd, pds. iFrame "Ht". iSplit; [done|].
        rewrite big_sepL2_fmap_l. setoid_rewrite level_open. done.
Qed.

(** [strncpy] of a part of a string. *)
Lemma copied_take s rest : forall k,
  Forall (fun c => c <> 0) s -> (k <= length s)%nat ->
  copied k ((Det <$> s) ++ rest) = inr (Det <$> take k s).
Proof.
  induction s as [|c s IH]; intros [|k] Hs Hk; simpl in *; try done; [lia|].
  inversion_clear Hs. destruct (Z.eqb_spec c 0); [done|]. by rewrite IH; [|done|lia].
Qed.

Section walk.
Context {api : MemApi} {laws : MemLaws api} {pool : PoolApi} {plaws : PoolLaws api pool}.
(** The buffer: [pre], then [tail], of which [size] bytes may be written. *)
Variables (lb : loc) (pre tail : list (fld Z)) (size : Z).
Hypotheses (Hsize : size <= int_max) (Htail : size <= Z.of_nat (length tail)).
#[local] Abbreviation out := (out lb pre tail).

Definition cur_at (w : list Z) : cptr := Some (lb, Z.of_nat (length pre + length w)).
#[local] Abbreviation len w := (Z.of_nat (length w)).

Lemma out_split w : out w ⊣⊢ lb ↦ ((pre ++ (Det <$> w)) ++ drop (length w) tail).
Proof. unfold PrintSpec.out. by rewrite (assoc_L app). Qed.

(** One character at the end. *)
Lemma wp_cur_store w c Φ :
  len w < size -> out w -∗ (out (w ++ [c]) -∗ Φ ()) -∗ wp (store_char (cur_at w) c) Φ.
Proof.
  iIntros (Hw) "Ho HΦ". by iApply (wp_out_store lb pre tail size Htail 0 with "Ho HΦ").
Qed.

Lemma cur_at_app w s : cadd (cur_at w) (len s) = cur_at (w ++ s).
Proof. unfold cur_at, cadd. rewrite !length_app. do 2 f_equal. lia. Qed.

Lemma cur_at_pre w : cur_at w = Some (lb, len (pre ++ (Det <$> w))).
Proof. unfold cur_at. by rewrite length_app length_fmap. Qed.

Lemma out_after w s :
  PrintSpec.out lb (pre ++ (Det <$> w)) (drop (length w) tail) s ⊣⊢ out (w ++ s).
Proof.
  unfold PrintSpec.out. rewrite fmap_app drop_drop length_app -!(assoc_L app). done.
Qed.

(** An element that fits with its NUL. *)
Lemma wp_print_at w t l nx n m Φ :
  textual t = true -> Z.of_nat n < int_max -> Z.of_nat (tree_size t) < int_max ->
  len w + len (tree_text t) < size ->
  out w -∗ tree_at t l nx -∗ mem_ok -∗ pool_ok n m -∗ errno_own -∗
  (out ((w ++ tree_text t) ++ [c_nul]) -∗ tree_at t l nx -∗ mem_ok -∗ pool_ok (S n) m -∗
     errno_own -∗ Φ (len (tree_text t))) -∗
  wp (print_sexp (cur_at w) (u64 (size - len w)) (Some l)) Φ.
Proof.
  iIntros (Htx Hn Ht Hfit) "Ho Ht Hm Hp He HΦ". unfold int_max in Hsize.
  rewrite u64_small; [|lia]. rewrite cur_at_pre out_split.
  iApply (wp_print_sexp lb (pre ++ (Det <$> w)) (drop (length w) tail) with "Ho Ht Hm Hp He");
    [lia|rewrite length_drop; lia|done|done|done|].
  iSplit; [|iIntros "[%Hge Hrest]"; lia]. iIntros "_ Ho Hm Hp He Ht".
  rewrite (int_of_size_small (len (tree_text t))); [|lia].
  rewrite out_after (assoc_L app). iApply ("HΦ" with "Ho Ht Hm Hp He").
Qed.

(** An element, and the space that replaces the NUL behind it. *)
Lemma wp_print_part w t l nx n m (Φ : cptr * Z * ptr + cptr * Z * ptr -> hprop) :
  textual t = true -> Z.of_nat n < int_max -> Z.of_nat (tree_size t) < int_max ->
  len w + len (tree_text t) + 1 < size ->
  out w -∗ tree_at t l nx -∗ mem_ok -∗ pool_ok n m -∗ errno_own -∗
  (out (w ++ tree_text t ++ [c_space]) -∗ tree_at t l nx -∗ mem_ok -∗ pool_ok (S n) m -∗
     errno_own -∗ wp (s ← load (A := sexp_t) (Some l);
       mret (inl (cur_at (w ++ tree_text t ++ [c_space]),
             len (w ++ tree_text t ++ [c_space]), elt_next s))) Φ) -∗
  wp (n ← print_sexp (cur_at w) (u64 (size - len w)) (Some l);
      store_char (cadd (cur_at w) n) c_space;;
      n ← int_incr n;
      loc ← int_plus (len w) n;
      s ← load (A := sexp_t) (Some l);
      mret (inl (cadd (cur_at w) n, loc, elt_next s))) Φ.
Proof.
  iIntros (Htx Hn Ht Hfit) "Ho Ht Hm Hp He HΦ". wp_bind_head.
  iApply (wp_print_at with "Ho Ht Hm Hp He"); [done..|lia|]. iIntros "Ho Ht Hm Hp He".
  wp_bind_head. rewrite cur_at_app.
  iApply (wp_out_back lb pre tail size (w ++ tree_text t) with "Ho"); [rewrite length_app; lia|].
  iIntros "Ho". wp_bind_head. iApply wp_int_incr; [lia|]. wp_bind_head. unfold int_plus.
  destruct (Z.leb_spec (len w + (len (tree_text t) + 1)) int_max); [|lia]. wp_ret.
  rewrite -(assoc_L app).
  replace (cadd (cur_at w) (len (tree_text t) + 1))
    with (cur_at (w ++ tree_text t ++ [c_space])).
  2: { rewrite -cur_at_app length_app. do 2 f_equal. simpl. lia. }
  replace (len w + (len (tree_text t) + 1)) with (len (w ++ tree_text t ++ [c_space])).
  2: { rewrite !length_app /=. lia. }
  iApply ("HΦ" with "Ho Ht Hm Hp He").
Qed.

(** The element at the head of a tree, and whether it is an open list. *)
Lemma tree_elt_acc t l nx :
  tree_at t l nx ⊢ ∃ e ty, l ↦ e ∗
    ⌈elt_next e = nx /\ elt_ty e = Det ty /\
     bool_decide (ty = SEXP_LIST) && bool_decide (elt_list e = None) = hollow t⌉ ∗
    (l ↦ e -∗ tree_at t l nx).
Proof.
  iIntros "Ht". destruct t as [aty s|d|ts].
  - iEval (rewrite tree_at_atom) in "Ht". iDestruct "Ht" as "(%e & %lv & %b & %He & Hl & Hv)". iExists e, SEXP_VALUE.
    iFrame "Hl". iSplit; [by destruct He|]. iIntros "Hl". rewrite tree_at_atom. iExists e, lv, b. by iFrame.
  - iEval (rewrite tree_at_binary) in "Ht". iDestruct "Ht" as "(%e & %lv & %He & Hl & Hv)". iExists e, SEXP_VALUE.
    iFrame "Hl". iSplit; [by destruct He|]. iIntros "Hl". rewrite tree_at_binary. iExists e, lv. by iFrame.
  - iEval (rewrite tree_at_node) in "Ht". iDestruct "Ht" as "(%e & %p & %He & Hl & Hf)".
    iAssert (⌜bool_decide (p = None) = hollow (Node ts)⌝)%I as %Hh.
    { unfold forest_at. destruct ts as [|t ts]; simpl; [iDestruct "Hf" as %Hp|iDestruct "Hf" as (l' nx') "(%Hp & _)"];
        by rewrite Hp. }
    iExists e, SEXP_LIST. iFrame "Hl". iSplit.
    + iPureIntro. destruct He as [-> -> ->]. rewrite bool_decide_eq_true_2 //.
    + iIntros "Hl". rewrite tree_at_node. iExists e, p. by iFrame.
Qed.

(** One element of a level. *)
Definition elt_text (t : tree) : list Z :=
  if hollow t then [c_lparen] else tree_text t ++ [c_space].

Lemma level_text_cons t ts :
  level_text (t :: ts) = elt_text t ++ if hollow t then [] else level_text ts.
Proof. unfold elt_text. simpl. destruct (hollow t); [done|]. by rewrite -(assoc_L app). Qed.

Lemma wp_level_body w t l nx n m Φ :
  textual t = true -> Z.of_nat (n + tree_size t) < int_max -> len w + len (elt_text t) < size ->
  tree_at t l nx -∗ out w -∗ mem_ok -∗ pool_ok n m -∗ errno_own -∗
  (tree_at t l nx -∗ out (w ++ elt_text t) -∗ mem_ok -∗ pool_ok (S n) m -∗ errno_own -∗
     Φ (let st := (cur_at (w ++ elt_text t), len (w ++ elt_text t)) in
        if hollow t then inr (st, Some l) else inl (st, nx))) -∗
  wp (pcont_level_body size (cur_at w, len w, Some l)) Φ.
Proof.
  iIntros (Ht Hn Hfit) "Ht Ho Hm Hp He HΦ". pose proof (tree_size_pos t).
  unfold pcont_level_body, elt_text in *. wp_bind_head.
  iDestruct (tree_elt_acc with "Ht") as (e ty) "(Hl & %Hel & Ht)". destruct Hel as (Hnx & Hty & Hh).
  iApply (wp_load with "Hl"). iIntros "Hl". rewrite Hty. wp_det. rewrite Hh.
  iDestruct ("Ht" with "Hl") as "Ht". destruct (hollow t) eqn:Hhollow.
  - simpl in Hfit. wp_bind_head. iApply (wp_cur_store with "Ho"); [lia|]. iIntros "Ho".
    wp_bind_head. iApply wp_int_incr; [lia|]. wp_ret.
    iDestruct (pool_ok_mono n (S n) m m with "Hp") as "Hp"; [lia..|].
    replace (cadd (cur_at w) 1) with (cur_at (w ++ [c_lparen])) by by rewrite -cur_at_app.
    replace (len w + 1) with (len (w ++ [c_lparen])) by (rewrite length_app /=; lia).
    iApply ("HΦ" with "Ht Ho Hm Hp He").
  - rewrite length_app /= in Hfit.
    iApply (wp_print_part with "Ho Ht Hm Hp He"); [done|lia|lia|lia|].
    iIntros "Ho Ht Hm Hp He". iDestruct (tree_elt_acc with "Ht") as (e' ty') "(Hl & %Hel & Ht)".
    destruct Hel as (<- & _). wp_bind_head. iApply (wp_load with "Hl"). iIntros "Hl".
    iDestruct ("Ht" with "Hl") as "Ht". wp_ret. iApply ("HΦ" with "Ht Ho Hm Hp He").
Qed.

(** The elements of a level: the walk ends at an open list, or goes on behind
    them. *)
Lemma wp_level_seg ts : forall p q w n m fuel Φ,
  forallb textual ts = true -> (length ts <= fuel)%nat ->
  Z.of_nat (n + forest_size ts) < int_max -> len w + len (level_text ts) < size ->
  seg ts p q -∗ out w -∗ mem_ok -∗ pool_ok n m -∗ errno_own -∗
  (∀ x, seg ts p q -∗ out (w ++ level_text ts) -∗ mem_ok -∗ pool_ok (n + length ts) m -∗
     errno_own -∗ ⌈x.1 = (cur_at (w ++ level_text ts), len (w ++ level_text ts))⌉ -∗
     if existsb hollow ts then Φ x
     else ⌈x.2 = q⌉ -∗ wp (while (fuel - length ts) (pcont_level_body size) x) Φ) -∗
  wp (while fuel (pcont_level_body size) (cur_at w, len w, p)) Φ.
Proof.
  induction ts as [|t ts IH]; intros p q w n m fuel Φ Htx Hf Hn Hfit.
  { iIntros "-> Ho Hm Hp He HΦ". rewrite /= Nat.sub_0_r Nat.add_0_r app_nil_r.
    by iApply ("HΦ" $! (cur_at w, len w, q) with "[//] Ho Hm Hp He"). }
  rewrite level_text_cons in Hfit |- *. rewrite length_app in Hfit.
  cbn [forallb length existsb] in *. apply andb_prop in Htx as [Ht Hts].
  simpl in Hn. fold (forest_size ts) in Hn. pose proof (tree_size_pos t).
  destruct fuel as [|fuel]; [lia|]. rewrite {1}seg_cons.
  iIntros "(%l & %nx & -> & Ht & Hts) Ho Hm Hp He HΦ".
  cbn [while]. wp_bind_head. iApply (wp_level_body with "Ht Ho Hm Hp He"); [done|lia|lia|].
  iIntros "Ht Ho Hm Hp He". destruct (hollow t) eqn:Hhollow; simpl negb; cbv iota zeta.
  - iApply wp_ret. rewrite app_nil_r.
    iDestruct (pool_ok_mono (S n) (n + S (length ts)) m m with "Hp") as "Hp"; [lia..|].
    iApply ("HΦ" with "[Ht Hts] Ho Hm Hp He"); [|done]. iExists l, nx. by iFrame.
  - iApply (IH with "Hts Ho Hm Hp He"); [done|lia|lia|rewrite length_app; lia|].
    iIntros (x) "Hts Ho Hm Hp He Hx". rewrite -(assoc_L app w).
    rewrite Nat.sub_succ Nat.add_succ_comm.
    iApply ("HΦ" with "[Ht Hts] Ho Hm Hp He Hx"). iExists l, nx. by iFrame.
Qed.

Lemma top_forest_cells ts fst lst : top_forest ts fst lst ⊢ cells (length ts).
Proof.
  rewrite -(cells_le _ _ (forest_length ts)).
  iIntros "[%Hn|(%us & %t & %l & %Hl & Hs & Ht)]".
  - destruct Hn as [-> _]. by iApply (cells_any emp%I).
  - destruct Hl as [-> ->]. iApply (seg_cells _ fst None). rewrite seg_app.
    iExists (Some l). iFrame "Hs". rewrite seg_single. iExists l. by iFrame.
Qed.

(** A level from its first element. *)
Lemma wp_level ts fst lst w n m fuel (Φ : cptr * Z * ptr -> hprop) :
  forallb textual ts = true -> (length ts < fuel)%nat ->
  Z.of_nat (n + forest_size ts) < int_max -> len w + len (level_text ts) < size ->
  top_forest ts fst lst -∗ out w -∗ mem_ok -∗ pool_ok n m -∗ errno_own -∗
  (∀ sx, top_forest ts fst lst -∗ out (w ++ level_text ts) -∗ mem_ok -∗
     pool_ok (n + length ts) m -∗ errno_own -∗
     Φ (cur_at (w ++ level_text ts), len (w ++ level_text ts), sx)) -∗
  wp (while fuel (pcont_level_body size) (cur_at w, len w, fst)) Φ.
Proof.
  iIntros (Htx Hf Hn Hfit) "[%Hnil|(%us & %t & %l & %Hl & Hs & Ht)] Ho Hm Hp He HΦ".
  { destruct Hnil as (-> & -> & ->). destruct fuel as [|fuel]; [lia|]. cbn [while].
    wp_bind_head. wp_ret. iApply wp_ret. rewrite Nat.add_0_r app_nil_r.
    iApply ("HΦ" with "[] Ho Hm Hp He"). by iLeft. }
  destruct Hl as [-> ->]. rewrite length_app /= in Hf |- *. rewrite forest_size_app /= in Hn.
  rewrite forallb_app /= in Htx. apply andb_prop in Htx as [Hus Ht].
  rewrite level_text_app in Hfit |- *.
  iApply (wp_level_seg with "Hs Ho Hm Hp He"); [done|lia|lia| |].
  { destruct (existsb hollow us); [done|]. rewrite length_app in Hfit. lia. }
  iIntros ([[cur k] sx]) "Hs Ho Hm Hp He %Hx". simpl in Hx. injection Hx as -> ->.
  destruct (existsb hollow us).
  - iDestruct (pool_ok_mono (n + length us) (n + (length us + 1)) m m with "Hp") as "Hp"; [lia..|].
    iApply ("HΦ" with "[Hs Ht] Ho Hm Hp He"). iRight. iExists us, t, l. by iFrame.
  - iIntros "%Hsx". simpl in Hsx. subst sx. rewrite length_app in Hfit.
    pose proof (forest_length us).     iApply (wp_level_seg [t] (Some l) None with "[Ht] Ho Hm Hp He").
    { simpl. by rewrite Ht. } { simpl. lia. } { simpl. lia. } { rewrite length_app. lia. }
    { rewrite seg_single. iExists l. by iFrame. }
    iIntros ([[cur k] sx]) "Ht Ho Hm Hp He %Hx". simpl in Hx. injection Hx as -> ->.
    rewrite -(assoc_L app w). rewrite seg_single. iDestruct "Ht" as (l') "[%Hl Ht]". injection Hl as <-.
    rewrite -Nat.add_assoc.
    iAssert (top_forest (us ++ [t]) fst (Some l)) with "[Hs Ht]" as "Hts".
    { iRight. iExists us, t, l. by iFrame. }
    simpl. destruct (hollow t); simpl.
    + iApply ("HΦ" with "Hts Ho Hm Hp He").
    + iIntros "->". destruct (fuel - length us - 1)%nat eqn:Hfl; [lia|]. cbn [while].
      wp_bind_head. wp_ret. iApply wp_ret. iApply ("HΦ" with "Hts Ho Hm Hp He").
Qed.

(** One level. *)
Lemma wp_pcont_body ts i ls ds l pd w n m Φ :
  ls !! i = Some l -> ds !! i = Some pd -> forallb textual ts = true ->
  Z.of_nat (n + forest_size ts) < int_max -> len w + len (level_text ts) + 1 < size ->
  levels ls ds -∗ level top_forest ts pd -∗ out w -∗ mem_ok -∗ pool_ok n m -∗ errno_own -∗
  (levels ls ds -∗ level top_forest ts pd -∗ out (w ++ level_text ts) -∗ mem_ok -∗
     pool_ok (n + forest_size ts) m -∗ errno_own -∗
     Φ (inl (cur_at (w ++ level_text ts), len (w ++ level_text ts), ls !! S i))) -∗
  wp (pcont_body size (cur_at w, len w, Some l)) Φ.
Proof.
  iIntros (Hl Hd Htx Hn Hfit) "Hls (%d & %fst & %lst & -> & Hpd & Hts) Ho Hm Hp He HΦ".
  unfold pcont_body. unfold int_max in Hsize.
  rewrite !u64_small; [|lia..]. destruct (Z.ltb_spec (len w) (size - 1)); [|lia].
  iDestruct (levels_acc with "Hls") as "[Hli Hls]"; [done..|]. wp_bind_head.
  iApply (wp_load with "Hli"). iIntros "Hli". cbn [lvl_at lvl_data lvl_above].
  iDestruct ("Hls" with "Hli") as "Hls". rewrite list_insert_id; [|done]. wp_bind_head.
  iApply (wp_load with "Hpd"). iIntros "Hpd". fields. wp_det. wp_bind_head.
  iApply (wp_heap_fuel (length ts) with "Hts"); [apply top_forest_cells|].
  iIntros (fuel) "%Hf Hts". wp_bind_head.
  iApply (wp_level with "Hts Ho Hm Hp He"); [done..|lia|]. iIntros (sx) "Hts Ho Hm Hp He". wp_ret.
  pose proof (forest_length ts).
  iDestruct (pool_ok_mono _ (n + forest_size ts) m m with "Hp") as "Hp"; [lia..|].
  iApply ("HΦ" with "Hls [Hpd Hts] Ho Hm Hp He"). iExists d, fst, lst. by iFrame.
Qed.

(** Behind the last level that is in use. *)
Lemma wp_pcont_above i ls ds w (Φ : cptr * Z * ptr + cptr * Z * ptr -> hprop) :
  (forall l d, ls !! i = Some l -> ds !! i = Some d -> d = None) -> len w + 1 < size ->
  levels ls ds -∗ (levels ls ds -∗ Φ (inr (cur_at w, len w, ls !! i))) -∗
  wp (pcont_body size (cur_at w, len w, ls !! i)) Φ.
Proof.
  iIntros (Hi Hfit) "Hls HΦ". unfold int_max in Hsize. unfold pcont_body.
  rewrite !u64_small; [|lia..]. destruct (Z.ltb_spec (len w) (size - 1)); [|lia].
  destruct (ls !! i) as [l|] eqn:Hl; [|wp_ret; by iApply "HΦ"].
  iDestruct (levels_length with "Hls") as %Hlen. pose proof (lookup_lt_Some _ _ _ Hl).
  destruct (lookup_lt_is_Some_2 ds i) as [d Hd]; [lia|]. pose proof (Hi l d eq_refl Hd). subst d.
  iDestruct (levels_acc with "Hls") as "[Hli Hls]"; [done..|]. wp_bind_head.
  iApply (wp_load with "Hli"). iIntros "Hli". cbn [lvl_at lvl_data].
  iDestruct ("Hls" with "Hli") as "Hls". rewrite list_insert_id; [|done]. wp_ret.
  iApply ("HΦ" with "Hls").
Qed.

(** All levels: the one above the top holds NULL, or there is none. *)
Lemma wp_pcont_levels tss : forall i ls ds pds unused w n m fuel (Φ : cptr * Z * ptr -> hprop),
  drop i ds = pds ++ unused -> Forall (eq None) unused ->
  (i <= length ls < fuel + i)%nat -> Forall (fun ts => forallb textual ts = true) tss ->
  Z.of_nat (n + forests_size tss) < int_max ->
  len w + len (concat (map level_text tss)) + 1 < size ->
  levels ls ds -∗ tops tss pds -∗ out w -∗ mem_ok -∗ pool_ok n m -∗ errno_own -∗
  (∀ p, let w' := w ++ concat (map level_text tss) in
     levels ls ds -∗ tops tss pds -∗ out w' -∗ mem_ok -∗ pool_ok (n + forests_size tss) m -∗
     errno_own -∗ Φ (cur_at w', len w', p)) -∗
  wp (while fuel (pcont_body size) (cur_at w, len w, ls !! i)) Φ.
Proof.
  induction tss as [|ts tss IH]; intros i ls ds pds unused w n m fuel Φ Hds Hun Hf Htx Hn Hfit;
    iIntros "Hls Ht Ho Hm Hp He HΦ"; iDestruct (levels_length with "Hls") as %Hlen;
    iDestruct (big_sepL2_length with "Ht") as %Hlt; destruct pds as [|pd pds]; try done.
  - destruct fuel as [|fuel]; [lia|]. cbn [while]. wp_bind_head.
    iApply (wp_pcont_above with "Hls"); [|simpl in Hfit; lia|].
    { intros l d Hl Hd. rewrite -(Nat.add_0_r i) -lookup_drop Hds in Hd. simpl in Hd.
      symmetry. by eapply (proj1 (Forall_lookup _ _)). }
    iIntros "Hls". iApply wp_ret. rewrite Nat.add_0_r app_nil_r.
    iApply ("HΦ" with "Hls Ht Ho Hm Hp He").
  - assert (ds !! i = Some pd) as Hd.
    { by rewrite -(Nat.add_0_r i) -lookup_drop Hds. }
    pose proof (lookup_lt_Some _ _ _ Hd). destruct fuel as [|fuel]; [lia|].
    destruct (lookup_lt_is_Some_2 ls i) as [l Hl]; [lia|].
    simpl in Hn, Hfit |- *. rewrite length_app in Hfit. inversion_clear Htx.
    iDestruct "Ht" as "[Ht Hts]". rewrite Hl. cbn [while]. wp_bind_head.
    iApply (wp_pcont_body ts with "Hls Ht Ho Hm Hp He"); [done..|lia|lia|].
    iIntros "Hls Ht Ho Hm Hp He".
    iApply (IH (S i) with "Hls Hts Ho Hm Hp He").
    { rewrite -Nat.add_1_r -drop_drop Hds. done. }
    { done. } { lia. } { done. } { lia. } { rewrite length_app. lia. }
    iIntros (p) "Hls Hts Ho Hm Hp He". rewrite -!(assoc_L app) Nat.add_assoc.
    iApply ("HΦ" with "Hls [$Ht $Hts] Ho Hm Hp He").
Qed.

(** A part of the atom that is being read. *)
Lemma wp_copy_buf w buf lv vrest k Φ :
  Forall (fun c => c <> 0) buf -> (k <= length buf)%nat -> len w + Z.of_nat k < size ->
  lv ↦ ((Det <$> buf) ++ vrest) -∗ out w -∗
  (lv ↦ ((Det <$> buf) ++ vrest) -∗ out (w ++ take k buf) -∗ Φ ()) -∗
  wp (strncpy (cur_at w) (Some (lv, 0)) (Z.of_nat k)) Φ.
Proof.
  iIntros (Hbuf Hk Hfit) "Hv Ho HΦ". unfold strncpy. wp_bind_head.
  iApply (wp_load with "Hv"). iIntros "Hv". rewrite Z.leb_refl.
  destruct (Z.leb_spec 0 (len ((Det <$> buf) ++ vrest))); [|lia]. simpl andb. cbv iota.
  rewrite drop_0 Nat2Z.id copied_take; [|done..].
  iApply (wp_out_over lb pre tail size Htail 0 w [] (take k buf) with "[Ho]").
  { simpl. lia. } { rewrite length_take_le; lia. } { by rewrite app_nil_r. }
  iIntros "Ho". iApply ("HΦ" with "Hv Ho").
Qed.

(** The text: the elements on the stack, and as much of the atom as leaves
    room for the NUL and one byte more. *)
Definition pcont_text (a : astate) : list Z :=
  let w := levels_text (a_stack a) in
  w ++ take (Z.to_nat (size - len w - 2)) (a_buf a).

(** The end of it. *)
Lemma wp_pcont_tail w buf lv vrest u Φ :
  Forall (fun c => c <> 0) buf -> u = len buf -> len w + 1 < size ->
  lv ↦ ((Det <$> buf) ++ vrest) -∗ out w -∗
  (lv ↦ ((Det <$> buf) ++ vrest) -∗
     out ((w ++ take (Z.to_nat (size - len w - 2)) buf) ++ [c_nul]) -∗ Φ ()) -∗
  wp (let left := u64 (size - len w) in
      cur ← (if u <? u64 (left - 1) then
               strncpy (cur_at w) (Some (lv, 0)) u;; mret (cadd (cur_at w) u)
             else if 2 <? left then
               strncpy (cur_at w) (Some (lv, 0)) (left - 2);; mret (cadd (cur_at w) (left - 2))
             else mret (cur_at w));
      store_char cur c_nul) Φ.
Proof.
  iIntros (Hbuf -> Hfit) "Hv Ho HΦ". unfold int_max in Hsize. cbv zeta.
  rewrite !u64_small; [|lia..].
  set (k := Z.to_nat (size - len w - 2)).
  assert (length (take k buf) = k `min` length buf)%nat as Hlen by apply length_take.
  iAssert (lv ↦ ((Det <$> buf) ++ vrest) -∗ out (w ++ take k buf) -∗
    wp (store_char (cur_at (w ++ take k buf)) c_nul) Φ)%I with "[HΦ]" as "Hend".
  { iIntros "Hv Ho". iApply (wp_cur_store with "Ho"); [rewrite length_app; lia|].
    iIntros "Ho". iApply ("HΦ" with "Hv Ho"). }
  wp_bind_head. destruct (Z.ltb_spec (len buf) (size - len w - 1)).
  - wp_bind_head. iApply (wp_copy_buf w buf with "Hv Ho"); [done|done|lia|].
    iIntros "Hv Ho". wp_ret. rewrite cur_at_app (take_ge buf k); [|lia].
    rewrite firstn_all. iApply ("Hend" with "Hv Ho").
  - destruct (Z.ltb_spec 2 (size - len w)).
    + replace (size - len w - 2) with (Z.of_nat k) by lia. wp_bind_head.
      iApply (wp_copy_buf w buf with "Hv Ho"); [done|lia..|]. iIntros "Hv Ho". wp_ret.
      replace (Z.of_nat k) with (len (take k buf)) by lia. rewrite cur_at_app.
      iApply ("Hend" with "Hv Ho").
    + wp_ret. replace k with 0%nat by lia. rewrite /= app_nil_r. iApply ("Hend" with "Hv Ho").
Qed.

Lemma forests_size_app tss uss : forests_size (tss ++ uss) = (forests_size tss + forests_size uss)%nat.
Proof. induction tss as [|ts tss IH]; simpl; [done|]. rewrite IH. lia. Qed.

Lemma levels_sizes st : forests_size (reverse (level_forests st)) = stack_size st.
Proof.
  rewrite -level_forests_size. generalize (level_forests st). intros tss.
  induction tss as [|ts tss IH]; [done|]. rewrite reverse_cons forests_size_app IH /=. lia.
Qed.

Lemma levels_textual st :
  Forall (fun ts => forallb textual ts = true) st ->
  Forall (fun ts => forallb textual ts = true) (reverse (level_forests st)).
Proof.
  intros Hst. apply Forall_reverse. destruct Hst as [|ts st Hts Hst]; [done|]. constructor; [done|].
  apply Forall_fmap, Forall_app_2; [|by repeat constructor].
  eapply Forall_impl; [exact Hst|]. intros us Hus. by rewrite /= forallb_app Hus.
Qed.

Lemma tops_reverse tss pds : tops tss pds ⊣⊢ tops (reverse tss) (reverse pds).
Proof.
  unfold tops. by rewrite big_sepL2_reverse.
Qed.

(** [print_pcont], when everything but the atom fits. *)
Lemma wp_print_pcont handlers ss gs cc a lastPos sbuf n m Φ :
  texts a -> a_wf a -> len (levels_text (a_stack a)) + 1 < size ->
  Z.of_nat (n + stack_size (a_stack a)) < int_max ->
  ready_with handlers ss gs cc a lastPos sbuf -∗ out [] -∗ mem_ok -∗ pool_ok n m -∗ errno_own -∗
  (ready_with handlers ss gs cc a lastPos sbuf -∗ out (pcont_text a ++ [c_nul]) -∗ mem_ok -∗
     pool_ok (n + stack_size (a_stack a)) m -∗ errno_own -∗ Φ ()) -∗
  wp (print_pcont (Some cc) (cur_at []) size) Φ.
Proof.
  iIntros ((_ & _ & Htx) [Hbuf _] Hfit Hn) "(%s & %v & %vc & %u & %al & %last & %err & %be & %br &
    %bd & Hcc & Hd & (%lv & %vrest & Hv & %Hb) & (%pds & Hs & Hlv)) Ho Hm Hp He HΦ".
  destruct Hb as (-> & Hvc & Hu & Hb). rewrite levels_at_tops.
  iDestruct (big_sepL2_length with "Hlv") as %Hlen.
  iDestruct "Hs" as (ls ds) "((Hs & Hl & %Hle) & %Hds)". destruct Hds as [Hds Hun].
  unfold print_pcont. cbn [cur_at]. wp_bind_head. iApply (wp_load with "Hcc"). iIntros "Hcc".
  fields. wp_bind_head. iApply (wp_load with "Hs"). iIntros "Hs". fields. wp_bind_head.
  iApply (wp_heap_fuel (length ls) with "Hl"); [apply cells_big_sepL2|].
  iIntros (fuel) "%Hfuel Hl". wp_bind_head.
  iApply (wp_pcont_levels (reverse (level_forests (a_stack a))) 0 ls ds (reverse pds)
    (drop (length pds) ds) []
    with "Hl [Hlv] Ho Hm Hp He").
  { by rewrite drop_0 -Hds take_drop. } { done. } { lia. }
  { by apply levels_textual. }
  { rewrite levels_sizes. lia. } { simpl. unfold levels_text in Hfit. lia. }
  { by rewrite -tops_reverse. }
  iIntros (p) "Hl Hlv Ho Hm Hp He". fold (levels_text (a_stack a)). simpl app.
  iApply (wp_pcont_tail _ (a_buf a) with "Hv Ho"); [done..|]. iIntros "Hv Ho".
  rewrite levels_sizes.
  iApply ("HΦ" with "[Hcc Hd Hv Hs Hl Hlv] Ho Hm Hp He").
  iExists s, _, vc, u, al, last, err, be, br, bd. iFrame "Hcc Hd". iSplitL "Hv".
  { iExists lv, vrest. by iFrame. }
  iExists pds. rewrite levels_at_tops. iSplitR "Hlv".
  { iExists ls, ds. by iFrame. }
  by rewrite -tops_reverse.
Qed.
End walk.

(** ** What a caller sees *)
Section client.
Context {api : MemApi} {pool : PoolApi}.

(** A text that ends inside an expression is parsed, and what was read is
    printed. *)
Definition print_unfinished (text : cptr) (len : Z) (buf : cptr) (buflen : Z) : M ptr :=
  cc ← cparse_sexp text len None;
  print_pcont cc buf buflen;;
  mret cc.
End client.

Section contract.
Context {api : MemApi} {laws : MemLaws api} {pool : PoolApi} {plaws : PoolLaws api pool}.

Lemma wp_print_unfinished ss gs lin blk o len s term post N m lb tail size a Φ :
  params_ok ss gs -> text_at blk o len s term post -> arun a_init s = AStop a ->
  Z.of_nat (N + length s) < int_max -> Z.of_nat (m + 2 * length s) < int_max ->
  Z.of_nat (length (levels_text (a_stack a))) + 1 < size ->
  size <= int_max -> size <= Z.of_nat (length tail) ->
  parser_env ss gs N m -∗ errno_own -∗ lin ↦ blk -∗ lb ↦ tail -∗
  (∀ cc, cont_ready ss gs cc a None (Some (lin, o)) -∗
     out lb [] tail (pcont_text size a ++ [c_nul]) -∗
     parser_env ss gs (N + length s) (m + 2 * length s) -∗ errno_own -∗ lin ↦ blk -∗
     Φ (Some cc)) -∗
  wp (print_unfinished (Some (lin, o)) len (Some (lb, 0)) size) Φ.
Proof.
  iIntros ((Hss & Hgs & Hsz) Ht Hs HN Hm Hfit Hsize Htail) "Henv He Hl Hb HΦ".
  unfold print_unfinished. wp_bind_head.
  iApply (wp_cparse_new ss gs Hss Hgs Hsz lin blk o len s term post N m
    (Z.of_nat (m + 2 * length s)) with "Henv He Hl"); [done|congruence|lia|apply budget_start|].
  iIntros (cc) "Hr". pose proof (arun_texts a_init s a_init_texts) as Htx.
  pose proof (arun_bounded a_init s) as Hw. rewrite Hs in Htx Hw |- *. simpl Refinement.parsed.
  unfold weight in Hw. simpl in Hw.
  iDestruct "Hr" as "(%Hwf & Hcc & Henv & He)". rewrite cont_at_ready.
  iDestruct (parser_env_of_env with "Henv") as (m') "((Hm & Hp & Hg) & %Hb & Hl)". wp_bind_head.
  iApply (wp_print_pcont lb [] tail size with "Hcc Hb Hm Hp [He]"); [done..|lia|by iExists _|].
  destruct Hb as [Hb _]. simpl in Hb. iIntros "Hcc Ho Hm Hp He". wp_ret.
  iApply ("HΦ" with "Hcc Ho [$Hm $Hg Hp] He Hl"). iApply (pool_ok_mono with "Hp"); lia.
Qed.

End contract.

