(* ===== verification/Resume.v ===== *)
(** The text that [print_pcont] writes stands for the continuation: the
    parser gets from it to where it was. *)
From S2P Require Import Prelude SexpTypes CMem SepLogic SexpMemory FastStack CLib ElementPool.
From S2P Require Import Trees Sexp Print ParserStates EventParser Parser PrintCont Machine.
From S2P Require Import Simulation Refinement ParserSpec ParseSexp ParserClient Syntax PrintSpec.
From S2P Require Import RoundTrip PrintContSpec.

(** ** The text of the levels *)

(** An element that [print_pcont] shows as it is. *)
Definition shown (t : tree) : bool := printable false t && negb (hollow t).
Abbreviation all_shown := (forallb shown).

Lemma shown_spec t : shown t = true -> printable false t = true /\ hollow t = false.
Proof. by intros [? ?%negb_true_iff]%andb_prop. Qed.

Lemma all_shown_solid us : all_shown us = true -> all_solid us = true.
Proof.
  rewrite !forallb_forall. intros H t Ht. apply H, shown_spec in Ht as [_ Ht]. by rewrite Ht.
Qed.

Lemma opening_shown us st :
  all_shown us = true -> opening (us :: st) = opening st ++ level_text us ++ [c_lparen].
Proof. intros Hus. by apply opening_cons, all_shown_solid. Qed.

(** ** Reading it *)

Lemma level_reads us : forall ts stk rest,
  all_shown us = true ->
  arun (between false 0 (ts :: stk)) (level_text us ++ rest) =
  arun (between false 0 ((ts ++ us) :: stk)) rest.
Proof.
  induction us as [|t us IH]; intros ts stk rest; [by rewrite app_nil_r|].
  cbn [forallb]. intros [Ht Hus]%andb_prop. apply shown_spec in Ht as [Hp Hh]. simpl.
  rewrite Hh -(assoc_L app) /= (printable_reads _ _ Hp); [|by left].
  by rewrite step_space IH // -(assoc_L app).
Qed.

Lemma level_next us c rest :
  all_shown us = true -> c <> 0 ->
  exists d k, level_text us ++ c :: rest = d :: k /\ d <> 0.
Proof.
  destruct us as [|t us]; [by eexists _, _|]. cbn [forallb]. intros [Ht _]%andb_prop Hc.
  apply shown_spec in Ht as [Hp Hh]. simpl. rewrite Hh -(assoc_L app). by eapply text_next.
Qed.

Lemma opening_reads st : forall c rest,
  forallb all_shown st = true -> c <> 0 ->
  arun a_init (opening st ++ c :: rest) = arun (between false 0 ([] :: st)) (c :: rest).
Proof.
  induction st as [|us st IH]; intros c rest; [intros _ Hc; by apply step_lparen|].
  cbn [forallb]. intros [Hus Hst]%andb_prop Hc. rewrite opening_shown // -!(assoc_L app).
  destruct (level_next us c_lparen (c :: rest) Hus) as (d & k & Hk & Hd); [done|].
  simpl app. rewrite Hk IH // -Hk level_reads // app_nil_l. by apply step_lparen.
Qed.

Lemma opening_stops st :
  forallb all_shown st = true -> exists a, arun a_init (opening st) = AStop a.
Proof.
  destruct st as [|us st]; [by eexists|]. cbn [forallb]. intros [Hus Hst]%andb_prop.
  rewrite opening_shown //. destruct (level_next us c_lparen [] Hus) as (d & k & Hk & Hd); [done|].
  rewrite Hk opening_reads // -Hk level_reads //. by eexists.
Qed.

(** The parser gets from the text to the stack ... *)
Lemma levels_read st c rest :
  forallb all_shown st = true -> c <> 0 ->
  arun a_init (levels_text st ++ c :: rest) = arun (between false 0 st) (c :: rest).
Proof.
  destruct st as [|us st]; [done|]. cbn [forallb]. intros [Hus Hst]%andb_prop Hc.
  rewrite levels_text_cons -(assoc_L app).
  destruct (level_next us c rest Hus) as (d & k & Hk & Hd); [done|].
  by rewrite Hk opening_reads // -Hk level_reads.
Qed.

(** ... and at the end of the text it asks for more. *)
Lemma levels_stop st :
  forallb all_shown st = true -> exists a, arun a_init (levels_text st) = AStop a.
Proof.
  destruct st as [|us st]; [by eexists|]. cbn [forallb]. intros [Hus Hst]%andb_prop.
  rewrite levels_text_cons. destruct us as [|t us].
  { rewrite app_nil_r. by apply opening_stops. }
  pose proof Hus as Ht. cbn [forallb] in Ht. apply andb_prop in Ht as [[Hp Hh]%shown_spec _].
  destruct (text_next false t (c_space :: level_text us) Hp) as (c & k & Hk & Hc).
  assert (level_text (t :: us) = c :: k) as Hl by (simpl; by rewrite Hh).
  rewrite Hl opening_reads // -Hl -(app_nil_r (level_text _)) level_reads //. by eexists.
Qed.

(** It is a string. *)
Lemma forallb_no_nul (f : Z -> bool) s :
  (forall c, f c = true -> c <> 0) -> forallb f s = true -> no_nul s.
Proof.
  intros Hf. induction s as [|c s IH]; [constructor|]. simpl. intros [Hc Hs]%andb_prop.
  constructor; [by apply Hf|by apply IH].
Qed.

Lemma word_no_nul s : forallb word_char s = true -> no_nul s.
Proof. apply forallb_no_nul. intros c [Hc _]%word_char_is. by apply atom_char_pos. Qed.

Lemma atom_no_nul aty s : printable_atom aty s = true -> no_nul (atom_text aty s).
Proof.
  destruct aty; simpl; [|intros Hs| |done].
  - destruct s as [|c s]; [done|]. intros [Hc Hs]%andb_prop. unfold word_start in Hc.
    apply andb_prop in Hc as [[Hc _]%andb_prop _]. apply word_no_nul. simpl. by rewrite Hc.
  - constructor; [done|]. by apply word_no_nul.
  - intros Hs. constructor; [done|]. apply Forall_app. split; [|by repeat constructor].
    apply no_nul_escape. eapply forallb_no_nul; [|exact Hs].
    by intros c Hc%negb_true_iff%Z.eqb_neq.
Qed.

Lemma printable_no_nul t : printable false t = true -> no_nul (tree_text t).
Proof.
  induction t as [aty s|d|ts IH] using tree_forest_ind; simpl; [|done|].
  - intros [Hs _]%andb_prop. by apply atom_no_nul.
  - intros Hp%printable_forest. constructor; [done|]. apply Forall_app.
    split; [|by repeat constructor]. apply no_nul_join. revert Hp.
    induction IH as [|t ts Ht _ IHts]; intros Hp; [constructor|]. inversion_clear Hp. constructor; auto.
Qed.

Lemma level_no_nul us : all_shown us = true -> no_nul (level_text us).
Proof.
  induction us as [|t us IH]; [constructor|]. cbn [forallb].
  intros [[Hp Hh]%shown_spec Hus]%andb_prop. simpl. rewrite Hh. apply Forall_app.
  split; [by apply printable_no_nul|]. constructor; [done|by apply IH].
Qed.

Lemma opening_no_nul st : forallb all_shown st = true -> no_nul (opening st).
Proof.
  induction st as [|us st IH]; [by repeat constructor|]. cbn [forallb].
  intros [Hus Hst]%andb_prop. rewrite opening_shown //. apply Forall_app. split; [by apply IH|].
  apply Forall_app. split; [by apply level_no_nul|by repeat constructor].
Qed.

Lemma levels_no_nul st : forallb all_shown st = true -> no_nul (levels_text st).
Proof.
  destruct st as [|us st]; [constructor|]. cbn [forallb]. intros [Hus Hst]%andb_prop.
  rewrite levels_text_cons. apply Forall_app. split; [by apply opening_no_nul|by apply level_no_nul].
Qed.

(** ** The caller *)
Section client.
Context {api : MemApi} {pool : PoolApi}.

(** What was read is printed, and a second parser reads the text in place of
    the first, and goes on with the rest. *)
Definition print_and_resume (text : cptr) (len : Z) (buf : cptr) (buflen : Z) (rest : cptr)
    (rlen : Z) : M (ptr * ptr) :=
  cc ← print_unfinished text len buf buflen;
  n ← strlen buf;
  cc2 ← parse_pieces buf n rest rlen;
  mret (cc, cc2).
End client.

Section contract.
Context {api : MemApi} {laws : MemLaws api} {pool : PoolApi} {plaws : PoolLaws api pool}.

(** C21. What [print_pcont] writes between two elements is as good as the
    continuation: a parser that reads it and then the rest of the text ends
    as the parser that read the whole text does, as long as nothing that was
    read is an empty list and the atoms are printable. *)
Theorem print_pcont_resumes ss gs lin blk o len s term post N m lb (tail : list (fld Z)) size st
    lin2 blk2 o2 len2 r term2 post2 :
  params_ok ss gs -> text_at blk o len s term post -> text_at blk2 o2 len2 r term2 post2 ->
  arun a_init s = AStop (between false 0 st) -> r <> [] -> forallb all_shown st = true ->
  parsable (s ++ r) ->
  Z.of_nat (N + length s) < int_max ->
  Z.of_nat (m + 2 * length s + 2 * length (levels_text st ++ r)) < int_max ->
  Z.of_nat (length (levels_text st)) + 1 < size ->
  size <= int_max -> size <= Z.of_nat (length tail) ->
  ⦃ parser_env ss gs N m ∗ errno_own ∗ lin ↦ blk ∗ lb ↦ tail ∗ lin2 ↦ blk2 ⦄
    print_and_resume (Some (lin, o)) len (Some (lb, 0)) size (Some (lin2, o2)) len2
  ⟪ p, ∃ cc cc2 b, ⌈p = (Some cc, Some cc2)⌉ ∗ lin ↦ blk ∗ lb ↦ (b : list (fld Z)) ∗
       cont_ready ss gs cc (between false 0 st) None (Some (lin, o)) ∗
       parsed ss gs cc2 lin2 blk2 (Some (lin2, o2)) term2 post2 (N + length s)
         (Z.of_nat (m + 2 * length s + 2 * length (levels_text st ++ r))) (arun a_init (s ++ r)) ⟫.
Proof.
  intros Hpar Ht Htr Hs Hr Hst Hp HN Hm Hfit Hsize Htail. iIntros "(Henv & He & Hl & Hb & Hl2)".
  unfold print_and_resume. wp_bind_head.
  iApply (wp_print_unfinished with "Henv He Hl Hb"); [done..|lia|done|done|done|].
  iIntros (cc) "Hcc Ho Henv He Hl". unfold pcont_text. cbn [between a_buf a_stack].
  rewrite take_nil app_nil_r. unfold out. cbn [app]. rewrite fmap_app -(assoc_L app). cbn [fmap list_fmap app].
  wp_bind_head. iApply (wp_strlen with "Ho"); [by apply levels_no_nul|]. iIntros "Ho".
  assert (arun a_init (s ++ r) = arun a_init (levels_text st ++ r)) as Heq.
  { destruct r as [|c r]; [done|]. rewrite arun_app Hs //. rewrite levels_read //.
    destruct Htr as [_ Hch _]. by inversion_clear Hch. }
  destruct (levels_stop st Hst) as [a1 Ha1]. destruct Hpar as (Hss & Hgs & Hsz).
  wp_bind_head. rewrite Heq. unfold parsable in Hp. rewrite Heq in Hp.
  iApply (wp_parse_pieces ss gs Hss Hgs Hsz with "Henv He Ho Hl2"); [|done..|].
  { split; [by split|by apply levels_no_nul|by left]. }
  iIntros (cc2) "Ho Hr". wp_ret. iExists cc, cc2, _. by iFrame.
Qed.
End contract.

(** The second parser reads [(a (b) (c ] in place of the first text. *)
Lemma print_pcont_resumes_witness :
  let s := bytes_of_string "( a(b)  ( c " in
  let r := bytes_of_string "d))" in
  let st := [[Atom SEXP_BASIC [99]]; [Atom SEXP_BASIC [97]; Node [Atom SEXP_BASIC [98]]]] in
  let tail := replicate 16 (Indet : fld Z) in
  let cells := (65%positive, CChars tail) :: (66%positive, CChars ((Det <$> r) ++ [Det 0])) ::
    startup s in
  exists p h,
    @print_and_resume default_mem (@cached_pool default_mem) (Some (text_block, 0)) 12
      (Some (65%positive, 0)) 16 (Some (66%positive, 0)) 3 (heap_of cells) = Done p h /\
    (∃ cc cc2 b, ⌈p = (Some cc, Some cc2)⌉ ∗ text_block ↦ ((Det <$> s) ++ [Det 0]) ∗
       65%positive ↦ (b : list (fld Z)) ∗
       cont_ready 256 64 cc (between false 0 st) None (Some (text_block, 0)) ∗
       @parsed default_mem _ cached_pool cached_laws 256 64 cc2 66 ((Det <$> r) ++ [Det 0])
         (Some (66%positive, 0)) 0 [] (0 + length s)
         (Z.of_nat (0 + 2 * length s + 2 * length (levels_text st ++ r))) (arun a_init (s ++ r)))%I h.
Proof.
  intros s r st tail cells. refine (run_triple _ _ _ cells
    (print_pcont_resumes 256 64 text_block ((Det <$> s) ++ [Det 0]) 0 12 s 0 [] 0 0 65 tail 16 st
       66 ((Det <$> r) ++ [Det 0]) 0 3 r 0 [] _ _ _ _ _ _ _ _ _ _ _ _) _ _).
  - by vm_compute.
  - apply (startup_text s). repeat (constructor; [done|]). constructor.
  - apply (startup_text r). repeat (constructor; [done|]). constructor.
  - vm_compute. reflexivity.
  - done.
  - by vm_compute.
  - by vm_compute.
  - by vm_compute.
  - by vm_compute.
  - by vm_compute.
  - by vm_compute.
  - by vm_compute.
  - apply (bool_decide_unpack _). by vm_compute.
  - iIntros "(H & H2 & Hs)". iDestruct (startup_env with "Hs") as "($ & $ & $)". iSplitL "H"; [iExact "H"|iExact "H2"].
Defined.
