(* ===== verification/PrintCstrSpec.v ===== *)
(** What [print_sexp_cstr] appends to a growable string: the text that
    [print_sexp] writes, whatever its length. *)
From S2P Require Import Prelude SexpTypes CMem SepLogic SexpMemory FastStack CLib CString.
From S2P Require Import ElementPool Trees Layout SexpOps SexpOpsSpec Sexp Print ParserStates.
From S2P Require Import Machine Syntax PrintSpec.

(** Binary data that the counter of the printing loop can count. *)
Fixpoint short_blobs (t : tree) : bool :=
  match t with
  | Atom _ _ => true
  | Binary d => Z.of_nat (length d) <? 2 ^ 32
  | Node ts => forallb short_blobs ts
  end.

(** ... as it can what a parser could read back. *)
Lemma printable_short il t : printable il t = true -> short_blobs t = true.
Proof.
  induction t as [aty s|d|ts IH] using tree_forest_ind; simpl; [done| |].
  - intros [_ [_ Hd%Z.leb_le]%andb_prop]%andb_prop. apply Z.ltb_lt. unfold int_max in Hd. lia.
  - induction IH as [|t ts Ht _ IHts]; simpl; [done|]. intros [? ?]%andb_prop.
    apply andb_true_iff. auto.
Qed.

(** What introduces binary data: its size in at most twenty digits. *)
Definition blob_start (d : list Z) : list Z :=
  [c_hash; c_b; c_hash] ++ digits (Z.of_nat (length d)) ++ [c_hash].

Lemma blob_start_length d : (length (blob_start d) <= 24)%nat.
Proof.
  unfold blob_start. rewrite !length_app. simpl. pose proof (digits_length (Z.of_nat (length d))).
  lia.
Qed.

Lemma binary_text_start d : binary_text d = blob_start d ++ d ++ [c_space].
Proof. unfold binary_text, blob_start. by rewrite -!(assoc_L app). Qed.

Lemma blob_start_eq d :
  [c_hash; c_b; c_hash] ++ digits (Z.of_nat (length d)) ++ [c_hash] = blob_start d.
Proof. done. Qed.

Section print.
Context {api : MemApi} {laws : MemLaws api} {pool : PoolApi} {plaws : PoolLaws api pool}.
(** The string, what it holds already, the size of its first block and the
    growth size; [T] is what is appended. *)
Variables (cs stk : loc) (pre T : list Z) (c0 : nat) (g : Z).
Hypotheses (Hg : 0 < g) (Hc0 : Z.of_nat c0 + g + 24 < 2 ^ 64)
  (HT64 : Z.of_nat (length pre + length T) + 2 * g + 26 < 2 ^ 64).

(** The string so far; the block is the first one or has at most [g + 25]
    bytes to spare. *)
Definition cout (w : list Z) : hprop :=
  (∃ rest, cstring_at cs (pre ++ w) (Det 0 :: rest) ∗
     ⌈(length (pre ++ w) + S (length rest) <= c0)%nat \/ Z.of_nat (length rest) <= g + 24⌉ ∗
     g_cstring_growsize ↦ g)%I.

Lemma wp_cput c w s Φ :
  T = w ++ c :: s ->
  cout w -∗ mem_ok -∗ (cout (w ++ [c]) -∗ mem_ok -∗ Φ (Some cs)) -∗ wp (saddch (Some cs) c) Φ.
Proof.
  iIntros (HT) "(%rest & Hs & %Hcap & Hg) Hm HΦ".
  assert (length (pre ++ w) <= length pre + length T)%nat as Hlen.
  { rewrite HT !length_app. lia. }
  iApply (wp_saddch_ok with "Hs Hg Hm"); [done|simpl; lia|].
  iIntros (rest') "[Hs %Hgrown] Hg Hm". iApply ("HΦ" with "[Hs Hg] Hm").
  iExists rest'. rewrite -(assoc_L app) in Hgrown |- *. iFrame. iPureIntro.
  assert (length (pre ++ w ++ [c]) = S (length (pre ++ w))) as Hlen'.
  { rewrite !length_app /=. lia. }
  unfold grown in Hgrown. simpl length in Hgrown. rewrite Hlen' in Hgrown |- *.
  destruct (Nat.leb_spec (length (pre ++ w) + S (length rest)) (length (pre ++ w) + 1)); lia.
Qed.

(** A short string at once. *)
Lemma wp_cadd a w s Φ :
  T = w ++ a ++ s -> (length a <= 24)%nat ->
  cout w -∗ mem_ok -∗ (cout (w ++ a) -∗ mem_ok -∗ Φ (Some cs)) -∗
  wp (sadd (Some cs) (Literal a)) Φ.
Proof.
  iIntros (HT Ha) "(%rest & Hs & %Hcap & Hg) Hm HΦ".
  assert (length (pre ++ w) + length a <= length pre + length T)%nat as Hlen.
  { rewrite HT !length_app. lia. }
  iApply (wp_sadd_ok _ _ _ (Literal a) a with "Hs [] Hg Hm"); [done|simpl; lia|done|].
  iIntros (rest') "[Hs %Hgrown] _ Hg Hm". iApply ("HΦ" with "[Hs Hg] Hm").
  iExists rest'. rewrite -(assoc_L app) in Hgrown |- *. iFrame. iPureIntro.
  assert (length (pre ++ w ++ a) = length (pre ++ w) + length a)%nat as Hlen'.
  { rewrite !length_app /=. lia. }
  unfold grown in Hgrown. simpl length in Hgrown. rewrite Hlen' in Hgrown |- *.
  destruct (Nat.leb_spec (length (pre ++ w) + S (length rest)) (length (pre ++ w) + length a)); lia.
Qed.

Lemma wp_cmaybe (b : bool) c w s Φ :
  T = w ++ (if b then [c] else []) ++ s ->
  cout w -∗ mem_ok -∗ (cout (w ++ if b then [c] else []) -∗ mem_ok -∗ Φ (Some cs)) -∗
  wp (if b then saddch (Some cs) c else mret (Some cs)) Φ.
Proof.
  iIntros (HT) "Ho Hm HΦ". destruct b.
  - by iApply (wp_cput with "Ho Hm HΦ").
  - iApply wp_ret. rewrite app_nil_r. iApply ("HΦ" with "Ho Hm").
Qed.

(** The characters of a value. *)
Lemma wp_cstr_chars aty lv s2 : forall s1 rest fuel w s Φ,
  Forall (fun c => c <> 0) s2 -> T = w ++ chars_text aty s2 ++ s -> (length s2 < fuel)%nat ->
  cout w -∗ mem_ok -∗ lv ↦ ((Det <$> s1 ++ s2) ++ Det c_nul :: rest) -∗
  (∀ tc, cout (w ++ chars_text aty s2) -∗ mem_ok -∗
     lv ↦ ((Det <$> s1 ++ s2) ++ Det c_nul :: rest) -∗ Φ (tc, Some cs)) -∗
  wp (while fuel (cstr_chars_body aty) (Some (lv, Z.of_nat (length s1)), Some cs)) Φ.
Proof.
  induction s2 as [|c s2 IH]; intros s1 rest [|fuel] w s Φ Hs2 HT Hf; simpl in Hf; try lia;
    iIntros "Ho Hm Hv HΦ"; cbn [while]; unfold cstr_chars_body at 2; wp_bind_head.
  - iApply (wp_load_char with "Hv").
    { rewrite app_nil_r. apply blk_get_app. by rewrite length_fmap. }
    iIntros "Hv". rewrite Z.eqb_refl. wp_ret. iApply wp_ret. unfold chars_text.
    destruct (decide _); simpl; rewrite app_nil_r; iApply ("HΦ" with "Ho Hm Hv").
  - inversion_clear Hs2 as [|? ? Hc Hs2'].
    iApply (wp_load_char with "Hv").
    { rewrite fmap_app -assoc_L /=. apply blk_get_app. by rewrite length_fmap. }
    iIntros "Hv". destruct (Z.eqb_spec c 0); [done|].
    rewrite chars_text_cons in HT |- *. fold (is_hidden aty c). unfold char_text in HT |- *.
    assert (T = w ++ (if is_hidden aty c then [c_bslash] else []) ++
              [c] ++ chars_text aty s2 ++ s) as HT2.
    { rewrite HT. by destruct (is_hidden aty c). }
    wp_bind_head. iApply (wp_cmaybe _ _ w with "Ho Hm"); [exact HT2|]. iIntros "Ho Hm".
    wp_bind_head. iApply (wp_cput with "Ho Hm"); [by rewrite -(assoc_L app)|].
    iIntros "Ho Hm". wp_ret. simpl cadd.
    replace (Z.of_nat (length s1) + 1) with (Z.of_nat (length (s1 ++ [c])))
      by (rewrite length_app /=; lia).
    rewrite (cons_middle c s1 s2) (assoc_L app s1).
    assert ((w ++ (if is_hidden aty c then [c_bslash] else [])) ++ [c] =
      w ++ (if is_hidden aty c then [c_bslash; c] else [c])) as ->.
    { rewrite -(assoc_L app). by destruct (is_hidden aty c). }
    rewrite (assoc_L app w). iApply (IH (s1 ++ [c]) with "Ho Hm Hv"); [done| |lia|].
    + by rewrite HT -!(assoc_L app).
    + iIntros (tc) "Ho Hm Hv". iApply ("HΦ" with "Ho Hm Hv").
Qed.

(** The space before the next element of a level. *)
Lemma wp_cspace (nx : ptr) w s Φ :
  T = w ++ next_text nx ++ s ->
  cout w -∗ mem_ok -∗ (cout (w ++ next_text nx) -∗ mem_ok -∗ Φ (Some cs)) -∗
  wp (match nx with Some _ => saddch (Some cs) c_space | None => mret (Some cs) end) Φ.
Proof.
  intros HT. destruct nx.
  - by apply (wp_cmaybe true c_space w s).
  - by apply (wp_cmaybe false c_nul w s).
Qed.

Lemma wp_cquote aty w s Φ :
  T = w ++ quote_text aty ++ s ->
  cout w -∗ mem_ok -∗ (cout (w ++ quote_text aty) -∗ mem_ok -∗ Φ (Some cs)) -∗
  wp (match aty with
      | SEXP_DQUOTE => saddch (Some cs) c_dquote
      | SEXP_SQUOTE => saddch (Some cs) c_squote
      | _ => mret (Some cs)
      end) Φ.
Proof.
  intros HT. destruct aty.
  - by apply (wp_cmaybe false c_nul w s).
  - by apply (wp_cmaybe true c_squote w s).
  - by apply (wp_cmaybe true c_dquote w s).
  - by apply (wp_cmaybe false c_nul w s).
Qed.

(** An atom. *)
Lemma wp_cstr_value l el e aty s lv b nx xs w s' Φ :
  atom_elt e aty s lv b nx -> T = w ++ atom_text aty s ++ next_text nx ++ s' ->
  cout w -∗ mem_ok -∗ is_stack_top stk l (Some el) xs -∗ el ↦ e -∗ lv ↦ b -∗
  (cout (w ++ atom_text aty s ++ next_text nx) -∗ mem_ok -∗ is_stack stk (nx :: xs) -∗
     el ↦ e -∗ lv ↦ b -∗ Φ (Some cs)) -∗
  wp (cstr_value (Some l) e (Some cs)) Φ.
Proof.
  iIntros (He HT) "Ho Hm Hs Hel Hv HΦ". unfold cstr_value.
  rewrite (ae_aty _ _ _ _ _ _ He). wp_det. rewrite atom_text_chars in HT |- *.
  fold (quote_text aty) in HT |- *. rewrite -!(assoc_L app) in HT |- *.
  wp_bind_head. iApply (wp_cquote with "Ho Hm"); [exact HT|]. iIntros "Ho Hm".
  assert (forall A (x y : A), match aty with SEXP_BINARY => x | _ => y end = y) as Haty.
  { pose proof (ae_text _ _ _ _ _ _ He). by destruct aty. }
  destruct (ae_used _ _ _ _ _ _ He) as (u & Hu & Hpos & Hle). rewrite Haty Hu. wp_det.
  destruct (Z.ltb_spec 0 (Z.of_nat u)); [|lia].
  rewrite (ae_val _ _ _ _ _ _ He). wp_det. unfold string_fuel. wp_bind_head.
  iApply (wp_load with "Hv"). iIntros "Hv". wp_ret. wp_bind_head.
  destruct (ae_string _ _ _ _ _ _ He) as [rest Hb]. simpl cursor. rewrite Hb.
  iApply (wp_cstr_chars aty lv s [] rest with "Ho Hm Hv").
  { apply He. }
  { rewrite -(assoc_L app). exact HT. }
  { rewrite length_app length_fmap /=. lia. }
  iIntros (tc) "Ho Hm Hv". simpl app. rewrite -Hb. wp_ret.
  wp_bind_head. iApply (wp_cmaybe (bool_decide (aty = SEXP_DQUOTE)) c_dquote with "Ho Hm").
  { rewrite -!(assoc_L app). exact HT. }
  iIntros "Ho Hm". rewrite -!(assoc_L app). pose proof (ae_next _ _ _ _ _ _ He) as Hnx.
  wp_bind_head. iApply (wp_advance with "Hs Hel"). iIntros "Hs Hel". rewrite Hnx.
  iApply (wp_cspace with "Ho Hm").
  { rewrite -!(assoc_L app). exact HT. }
  rewrite -!(assoc_L app). iIntros "Ho Hm". iDestruct (is_stack_top_elim with "Hs") as "Hs".
  iApply ("HΦ" with "Ho Hm Hs Hel Hv").
Qed.

(** The bytes of binary data. *)
Lemma wp_cstr_bytes lb d2 : forall d1 fuel w s Φ,
  Z.of_nat (length (d1 ++ d2)) < 2 ^ 32 -> T = w ++ d2 ++ s -> (length d2 < fuel)%nat ->
  cout w -∗ mem_ok -∗ data_at lb (d1 ++ d2) -∗
  (∀ i, cout (w ++ d2) -∗ mem_ok -∗ data_at lb (d1 ++ d2) -∗ Φ (i, Some cs)) -∗
  wp (while fuel (cstr_bytes_body (Some lb) (Z.of_nat (length (d1 ++ d2))))
        (Z.of_nat (length d1), Some cs)) Φ.
Proof.
  induction d2 as [|c d2 IH]; intros d1 [|fuel] w s Φ Hd HT Hf; simpl in Hf; try lia;
    iIntros "Ho Hm Hv HΦ"; cbn [while]; unfold cstr_bytes_body at 2; wp_bind_head.
  - rewrite app_nil_r Z.ltb_irrefl. wp_ret. iApply wp_ret. rewrite app_nil_r.
    iApply ("HΦ" with "Ho Hm Hv").
  - assert (length (d1 ++ c :: d2) = length d1 + S (length d2))%nat as Hlen
      by by rewrite length_app.
    destruct (Z.ltb_spec (Z.of_nat (length d1)) (Z.of_nat (length (d1 ++ c :: d2)))); [|lia].
    simpl cursor. iDestruct "Hv" as (r) "Hv". wp_bind_head. iApply (wp_load_char with "Hv").
    { rewrite fmap_app -(assoc_L app). apply blk_get_app. by rewrite length_fmap. }
    iIntros "Hv". iAssert (data_at lb (d1 ++ c :: d2)) with "[Hv]" as "Hv"; [by iExists r|].
    wp_bind_head. iApply (wp_cput with "Ho Hm"); [exact HT|].
    iIntros "Ho Hm". wp_ret. rewrite u32_small; [|lia].
    replace (Z.of_nat (length d1) + 1) with (Z.of_nat (length (d1 ++ [c])))
      by (rewrite length_app /=; lia).
    rewrite (cons_middle c d1 d2) (assoc_L app d1) in Hd |- *.
    rewrite (cons_middle c w d2) (assoc_L app w) in HT |- *.
    iApply (IH (d1 ++ [c]) with "Ho Hm Hv"); [done|by rewrite HT -!(assoc_L app)|lia|].
    iIntros (i) "Ho Hm Hv". rewrite -(assoc_L app w). iApply ("HΦ" with "Ho Hm Hv").
Qed.

(** Binary data: behind it stands a space, and one more before the next
    element. *)
Lemma wp_cstr_blob l el e d lb nx xs w s' Φ :
  binary_elt e d lb nx -> Z.of_nat (length d) < 2 ^ 32 ->
  T = w ++ binary_text d ++ next_text nx ++ s' ->
  cout w -∗ mem_ok -∗ is_stack_top stk l (Some el) xs -∗ el ↦ e -∗ data_at lb d -∗
  (cout (w ++ binary_text d ++ next_text nx) -∗ mem_ok -∗ is_stack stk (nx :: xs) -∗
     el ↦ e -∗ data_at lb d -∗ Φ (Some cs)) -∗
  wp (cstr_value (Some l) e (Some cs)) Φ.
Proof.
  iIntros (He Hd HT) "Ho Hm Hs Hel Hv HΦ". unfold cstr_value.
  pose proof (blob_start_length d) as Hstart. rewrite binary_text_start in HT |- *.
  remember (blob_start d) as start eqn:Heq. rewrite -!(assoc_L app) in HT |- *.
  rewrite (be_aty _ _ _ _ He). wp_det. wp_ret.
  rewrite (be_binlength _ _ _ _ He). wp_det. wp_bind_head. rewrite blob_start_eq -Heq.
  wp_bind_head. iApply (wp_cadd with "Ho Hm"); [exact HT|done|].
  iIntros "Ho Hm".
  iAssert (∀ Ψ : ptr -> hprop, cout (w ++ start) -∗ mem_ok -∗ data_at lb d -∗
    (cout ((w ++ start) ++ d) -∗ mem_ok -∗ data_at lb d -∗ Ψ (Some cs)) -∗
    wp (if 0 <? Z.of_nat (length d)
        then bindata ← det (elt_bindata e);
             r ← while (S (Z.to_nat (Z.of_nat (length d))))
                   (cstr_bytes_body bindata (Z.of_nat (length d))) (0, Some cs);
             mret r.2
        else mret (Some cs)) Ψ)%I as "Hbytes".
  { iIntros (Ψ) "Ho Hm Hv HΨ". destruct (Z.ltb_spec 0 (Z.of_nat (length d))).
    - rewrite (be_bindata _ _ _ _ He). wp_det. wp_bind_head.
      iApply (wp_cstr_bytes lb d [] with "Ho Hm Hv"); [done|by rewrite -!(assoc_L app)|lia|].
      iIntros (i) "Ho Hm Hv". wp_ret. iApply ("HΨ" with "Ho Hm Hv").
    - assert (d = []) as -> by by destruct d. wp_ret. rewrite app_nil_r.
      iApply ("HΨ" with "Ho Hm Hv"). }
  wp_bind_head. iApply ("Hbytes" with "Ho Hm Hv"). iIntros "Ho Hm Hv".
  iApply (wp_cput with "Ho Hm"); [by rewrite -!(assoc_L app)|]. iIntros "Ho Hm".
  rewrite bool_decide_eq_false_2 //. wp_ret.
  wp_bind_head. iApply (wp_advance with "Hs Hel"). iIntros "Hs Hel".
  rewrite (be_next _ _ _ _ He).
  iApply (wp_cspace with "Ho Hm"); [by rewrite -!(assoc_L app)|].
  rewrite -!(assoc_L app). iIntros "Ho Hm". iDestruct (is_stack_top_elim with "Hs") as "Hs".
  iApply ("HΦ" with "Ho Hm Hs Hel Hv").
Qed.

(** An iteration that meets an element ... *)
Lemma wp_cstr_element l el (e : sexp_t) ty xs d Φ :
  elt_ty e = Det ty ->
  is_stack_top stk l (Some el) xs -∗ el ↦ e -∗
  (is_stack_top stk l (Some el) xs -∗ el ↦ e -∗
   wp (match ty with
       | SEXP_VALUE => cs ← cstr_value (Some l) e (Some cs); mret (true, (cs, d))
       | SEXP_LIST =>
           depth ← int_incr d;
           cs ← saddch (Some cs) c_lparen;
           push (Some stk) (elt_list e);;
           mret (true, (cs, depth))
       end) Φ) -∗
  wp (cstr_body (Some stk) (Some cs, d)) Φ.
Proof.
  iIntros (Hty) "Hs He HΦ". unfold cstr_body. wp_bind_head.
  iApply (wp_stack_top with "Hs"). iIntros (sk) "%Hsk Hs". rewrite Hsk.
  iDestruct (is_stack_top_acc with "Hs") as (lv) "(Hl & %Hd & Hs)".
  wp_bind_head. iApply (wp_load with "Hl"). iIntros "Hl". rewrite Hd.
  wp_bind_head. iApply (wp_load with "He"). iIntros "He". rewrite Hty. wp_det.
  iApply ("HΦ" with "[Hs Hl] He"). iDestruct ("Hs" $! (Some el) with "[Hl]") as "Hs"; [|done].
  destruct lv. simpl in Hd. by subst.
Qed.

(** ... and one that is at the end of a level. *)
Lemma wp_cstr_end xs d Φ :
  is_stack stk (None :: xs) -∗
  (is_stack stk (None :: xs) -∗ wp (cstr_end_of_list (Some stk) (Some cs) d) Φ) -∗
  wp (cstr_body (Some stk) (Some cs, d)) Φ.
Proof.
  iIntros "Hs HΦ". unfold cstr_body.
  iDestruct (is_stack_top_intro with "Hs") as (l) "Hs". wp_bind_head.
  iApply (wp_stack_top with "Hs"). iIntros (sk) "%Hsk Hs". rewrite Hsk.
  iDestruct (is_stack_top_acc with "Hs") as (lv) "(Hl & %Hd & Hs)".
  wp_bind_head. iApply (wp_load with "Hl"). iIntros "Hl". rewrite Hd.
  iDestruct ("Hs" $! None with "[Hl]") as "Hs"; [destruct lv; simpl in Hd; by subst|].
  iApply "HΦ". by iApply is_stack_top_elim.
Qed.

Lemma wp_cstr_close el (e : sexp_t) xs w s Φ :
  T = w ++ c_rparen :: next_text (elt_next e) ++ s ->
  cout w -∗ mem_ok -∗ is_stack stk (None :: Some el :: xs) -∗ el ↦ e -∗
  (cout (w ++ c_rparen :: next_text (elt_next e)) -∗ mem_ok -∗
     is_stack stk (elt_next e :: xs) -∗ el ↦ e -∗
     Φ (true, (Some cs, Z.of_nat (length xs)))) -∗
  wp (cstr_body (Some stk) (Some cs, Z.of_nat (S (length xs)))) Φ.
Proof.
  iIntros (HT) "Ho Hm Hs Hel HΦ". iApply (wp_cstr_end with "Hs"). iIntros "Hs".
  unfold cstr_end_of_list. wp_bind_head. iApply (wp_pop_cons with "Hs"). iIntros (l) "Hs".
  iDestruct (popped_is_stack with "Hs") as "Hs". clear l.
  destruct (Z.ltb_spec 0 (Z.of_nat (S (length xs)))); [|lia].
  replace (Z.of_nat (S (length xs)) - 1) with (Z.of_nat (length xs)) by lia.
  wp_bind_head. iApply (wp_cput with "Ho Hm"); [exact HT|]. iIntros "Ho Hm". wp_ret.
  iDestruct (is_stack_top_intro with "Hs") as (l) "Hs". wp_bind_head.
  iApply (wp_stack_top with "Hs"). iIntros (sk2) "%Hsk2 Hs". rewrite Hsk2.
  wp_bind_head. iApply (wp_advance with "Hs Hel"). iIntros "Hs Hel".
  iDestruct (is_stack_top_elim with "Hs") as "Hs". wp_bind_head.
  iApply (wp_cspace _ (w ++ [c_rparen]) s with "Ho Hm"); [by rewrite -(assoc_L app)|].
  iIntros "Ho Hm". wp_ret. rewrite -(assoc_L app). iApply ("HΦ" with "Ho Hm Hs Hel").
Qed.

Lemma wp_cstr_last Φ :
  is_stack stk [None] -∗ (is_stack stk [] -∗ Φ (false, (Some cs, 0))) -∗
  wp (cstr_body (Some stk) (Some cs, 0)) Φ.
Proof.
  iIntros "Hs HΦ". iApply (wp_cstr_end with "Hs"). iIntros "Hs".
  unfold cstr_end_of_list. wp_bind_head. iApply (wp_pop_cons with "Hs"). iIntros (l) "Hs".
  iDestruct (popped_is_stack with "Hs") as "Hs". simpl. wp_ret.
  wp_bind_head. iApply (wp_stack_empty with "Hs"). iIntros (sk2) "%Hsk2 Hs". rewrite Hsk2.
  iApply wp_ret. by iApply "HΦ".
Qed.

(** An open parenthesis. *)
Lemma wp_cstr_open l el (e : sexp_t) q nx xs w s Φ :
  list_elt e q nx -> T = w ++ c_lparen :: s -> Z.of_nat (S (length xs)) < int_max ->
  cout w -∗ mem_ok -∗ is_stack_top stk l (Some el) xs -∗ el ↦ e -∗
  (cout (w ++ [c_lparen]) -∗ mem_ok -∗ is_stack stk (q :: Some el :: xs) -∗ el ↦ e -∗
     Φ (true, (Some cs, Z.of_nat (S (length xs))))) -∗
  wp (cstr_body (Some stk) (Some cs, Z.of_nat (length xs))) Φ.
Proof.
  iIntros (He HT Hxs) "Ho Hm Hs Hel HΦ".
  iApply (wp_cstr_element with "Hs Hel"); [by apply He|]. iIntros "Hs Hel". wp_bind_head.
  iApply wp_int_incr; [lia|].
  replace (Z.of_nat (length xs) + 1) with (Z.of_nat (S (length xs))) by lia.
  wp_bind_head. iApply (wp_cput with "Ho Hm"); [exact HT|]. iIntros "Ho Hm". wp_bind_head.
  iDestruct (is_stack_top_elim with "Hs") as "Hs".
  iApply (wp_push_ok with "Hs Hm"); [simpl; lia|]. iIntros "Hs Hm". iApply wp_ret.
  rewrite (le_list _ _ _ He). iApply ("HΦ" with "Ho Hm Hs Hel").
Qed.

Lemma cstr_loop_S f x :
  cstr_loop (S f) (Some stk) x =
  '(go, x) ← cstr_body (Some stk) x; if go : bool then cstr_loop f (Some stk) x else mret x.
Proof. reflexivity. Qed.

(** The loop prints the elements of a level. *)
Lemma wp_cstr_forest ts : forall p xs w s fuel Φ,
  forallb short_blobs ts = true -> T = w ++ forest_text ts ++ s ->
  Z.of_nat (length xs + forest_size ts) < int_max ->
  cout w -∗ mem_ok -∗ is_stack stk (p :: xs) -∗ forest_at ts p -∗
  (cout (w ++ forest_text ts) -∗ mem_ok -∗ is_stack stk (None :: xs) -∗ forest_at ts p -∗
     wp (cstr_loop fuel (Some stk) (Some cs, Z.of_nat (length xs))) Φ) -∗
  wp (cstr_loop (forest_cost ts + fuel) (Some stk) (Some cs, Z.of_nat (length xs))) Φ.
Proof.
  induction ts as [|aty s ts IH|d ts IH|us ts IHu IH] using forest_ind;
    iIntros (p xs w s' fuel Φ Htx HT Hxs) "Ho Hm Hs Hts HΦ"; simpl in Htx, Hxs.
  - iDestruct "Hts" as %->. rewrite app_nil_r. by iApply ("HΦ" with "Ho Hm Hs").
  - iDestruct "Hts" as (l nx) "(-> & Ht & Hts)".
    iEval (rewrite tree_at_atom) in "Ht". iDestruct "Ht" as "(%e & %lv & %b & %He & Hl & Hv)".
    iDestruct (forest_next with "Hts") as %Hnx. rewrite forest_text_cons in HT |- *.
    change (forest_cost (Atom aty s :: ts) + fuel)%nat with (S (forest_cost ts + fuel)).
    rewrite cstr_loop_S.
    iDestruct (is_stack_top_intro with "Hs") as (tp) "Hs". wp_bind_head.
    iApply (wp_cstr_element with "Hs Hl"); [by apply He|]. iIntros "Hs Hl". simpl tree_text in *.
    wp_bind_head.
    iApply (wp_cstr_value tp l e aty s lv b nx xs w (forest_text ts ++ s')
      with "Ho Hm Hs Hl Hv"); [done|by rewrite HT Hnx -!(assoc_L app)|].
    iIntros "Ho Hm Hs Hl Hv". wp_ret.
    iApply (IH with "Ho Hm Hs Hts"); [done|by rewrite HT Hnx -!(assoc_L app)|lia|].
    iIntros "Ho Hm Hs Hts". rewrite Hnx -!(assoc_L app). iApply ("HΦ" with "Ho Hm Hs").
    iExists l, nx. iFrame "Hts". iSplit; [done|]. rewrite tree_at_atom. iExists e, lv, b. by iFrame.
  - apply andb_true_iff in Htx as [Hd%Z.ltb_lt Htx]. iDestruct "Hts" as (l nx) "(-> & Ht & Hts)".
    iEval (rewrite tree_at_binary) in "Ht". iDestruct "Ht" as "(%e & %lb & %He & Hl & Hv)".
    iDestruct (forest_next with "Hts") as %Hnx. rewrite forest_text_cons in HT |- *.
    change (forest_cost (Binary d :: ts) + fuel)%nat with (S (forest_cost ts + fuel)).
    rewrite cstr_loop_S.
    iDestruct (is_stack_top_intro with "Hs") as (tp) "Hs". wp_bind_head.
    iApply (wp_cstr_element with "Hs Hl"); [by apply He|]. iIntros "Hs Hl".
    change (tree_text (Binary d)) with (binary_text d) in *.
    wp_bind_head.
    iApply (wp_cstr_blob tp l e d lb nx xs w (forest_text ts ++ s')
      with "Ho Hm Hs Hl Hv"); [done..|by rewrite HT Hnx -!(assoc_L app)|].
    iIntros "Ho Hm Hs Hl Hv". wp_ret.
    iApply (IH with "Ho Hm Hs Hts"); [done|by rewrite HT Hnx -!(assoc_L app)|lia|].
    iIntros "Ho Hm Hs Hts". rewrite Hnx -!(assoc_L app). iApply ("HΦ" with "Ho Hm Hs").
    iExists l, nx. iFrame "Hts". iSplit; [done|]. rewrite tree_at_binary. iExists e, lb. by iFrame.
  - apply andb_true_iff in Htx as [Htu Htx]. fold (forest_size us) in Hxs.
    iDestruct "Hts" as (l nx) "(-> & Ht & Hts)".
    iEval (rewrite tree_at_node) in "Ht". iDestruct "Ht" as "(%e & %q & %He & Hl & Hus)".
    assert (forest_cost (Node us :: ts) + fuel =
      S (forest_cost us + S (forest_cost ts + fuel)))%nat as ->.
    { simpl. fold (forest_cost us) (forest_cost ts). lia. }
    rewrite cstr_loop_S.
    iDestruct (forest_next with "Hts") as %Hnx. rewrite forest_text_cons in HT |- *.
    simpl tree_text in *. fold (forest_text us) in *.
    iDestruct (is_stack_top_intro with "Hs") as (tp) "Hs". wp_bind_head.
    iApply (wp_cstr_open with "Ho Hm Hs Hl"); [done|exact HT|lia|]. iIntros "Ho Hm Hs Hl".
    iApply (IHu q (Some l :: xs) with "Ho Hm Hs Hus"); [done| |simpl; lia|].
    { rewrite HT -!(assoc_L app) /=. by rewrite -!(assoc_L app). }
    iIntros "Ho Hm Hs Hus". rewrite cstr_loop_S. wp_bind_head.
    iApply (wp_cstr_close l e xs _ (forest_text ts ++ s') with "Ho Hm Hs Hl").
    { rewrite HT (le_next _ _ _ He) Hnx -!(assoc_L app) /=. by rewrite -!(assoc_L app). }
    iIntros "Ho Hm Hs Hl". rewrite (le_next _ _ _ He) Hnx.
    iApply (IH with "Ho Hm Hs Hts"); [done| |lia|].
    { rewrite HT -!(assoc_L app) /=. by rewrite -!(assoc_L app). }
    iIntros "Ho Hm Hs Hts". rewrite -!(assoc_L app) /= -!(assoc_L app) /=.
    iApply ("HΦ" with "Ho Hm Hs"). iExists l, nx. iFrame "Hts". iSplit; [done|].
    rewrite tree_at_node. iExists e, q. by iFrame.
Qed.

(** What follows the loop finds: the whole text, an empty stack, and the
    head, which can be released. *)
Definition cstr_result (fk : loc) (K : hprop) (Ψ : ptr * Z -> hprop) : hprop :=
  (cout T -∗ mem_ok -∗ is_stack stk [] -∗ scrap fk K -∗ Ψ (Some cs, 0))%I.

Lemma wp_cstr_loop_end fuel Ψ :
  is_stack stk [None] -∗ (is_stack stk [] -∗ Ψ (Some cs, 0)) -∗
  wp (cstr_loop (S fuel) (Some stk) (Some cs, 0)) Ψ.
Proof.
  iIntros "Hs HΨ". rewrite cstr_loop_S. wp_bind_head.
  iApply (wp_cstr_last with "Hs"). iIntros "Hs". iApply wp_ret. by iApply "HΨ".
Qed.

(** An atom alone ... *)
Lemma wp_cstr_loop_atom fk e aty s lv b fuel K Ψ :
  atom_elt e aty s lv b None -> T = atom_text aty s ->
  cout [] -∗ mem_ok -∗ is_stack stk [Some fk] -∗ fk ↦ e -∗ lv ↦ b -∗ K -∗
  cstr_result fk K Ψ -∗ wp (cstr_loop (S (S fuel)) (Some stk) (Some cs, 0)) Ψ.
Proof.
  iIntros (He HT) "Ho Hm Hs Hf Hv HK HΨ". rewrite cstr_loop_S.
  iDestruct (is_stack_top_intro with "Hs") as (tp) "Hs". wp_bind_head.
  iApply (wp_cstr_element with "Hs Hf"); [by apply He|]. iIntros "Hs Hf". wp_bind_head.
  iApply (wp_cstr_value tp fk e aty s lv b None [] [] [] with "Ho Hm Hs Hf Hv");
    [done|by rewrite HT /= !app_nil_r|].
  rewrite /= app_nil_r -HT. iIntros "Ho Hm Hs Hf Hv". wp_ret.
  iApply (wp_cstr_loop_end with "Hs"). iIntros "Hs". iApply ("HΨ" with "Ho Hm Hs").
  iFrame "HK". iExists e. iFrame. iRight. iExists lv, b, _. iFrame. iPureIntro. by destruct He.
Qed.

(** ... and a list. *)
Lemma wp_cstr_loop_list fk e us q fuel (R K : hprop) Ψ :
  list_elt e q None -> (forest_at us q ∗ R ⊢ K) -> forallb short_blobs us = true ->
  T = tree_text (Node us) -> Z.of_nat (S (forest_size us)) < int_max ->
  cout [] -∗ mem_ok -∗ is_stack stk [Some fk] -∗ fk ↦ e -∗ forest_at us q -∗ R -∗
  cstr_result fk K Ψ -∗
  wp (cstr_loop (S (forest_cost us + S (S fuel))) (Some stk) (Some cs, 0)) Ψ.
Proof.
  iIntros (He HK Htx HT Hsz) "Ho Hm Hs Hf Hus HR HΨ". rewrite cstr_loop_S.
  simpl tree_text in HT. fold (forest_text us) in HT.
  iDestruct (is_stack_top_intro with "Hs") as (tp) "Hs". wp_bind_head.
  iApply (wp_cstr_open tp fk e q None [] [] with "Ho Hm Hs Hf");
    [done|exact HT|simpl; lia|]. iIntros "Ho Hm Hs Hf".
  iApply (wp_cstr_forest us q [Some fk] _ [c_rparen] with "Ho Hm Hs Hus");
    [done|by rewrite HT|simpl; lia|].
  iIntros "Ho Hm Hs Hus". rewrite cstr_loop_S. wp_bind_head.
  iApply (wp_cstr_close fk e [] _ [] with "Ho Hm Hs Hf"); [by rewrite HT (le_next _ _ _ He)|].
  rewrite (le_next _ _ _ He). iIntros "Ho Hm Hs Hf".
  assert ((([] ++ [c_lparen]) ++ forest_text us) ++ c_rparen :: next_text None = T) as ->
    by by rewrite HT.
  iApply (wp_cstr_loop_end with "Hs"). iIntros "Hs". iApply ("HΨ" with "Ho Hm Hs [Hf Hus HR]").
  iDestruct (HK with "[$Hus $HR]") as "$". iExists e. iFrame. iLeft. iPureIntro. left. by destruct He.
Qed.

Lemma wp_cstr_loop t l nx fk fuel Ψ :
  is_blob t = false -> short_blobs t = true ->
  Z.of_nat (tree_size t) < int_max -> (tree_size t < fuel)%nat -> T = tree_text t ->
  cout [] -∗ mem_ok -∗ is_stack stk [Some fk] -∗ head_ready t l nx fk -∗
  cstr_result fk (tree_at t l nx) Ψ -∗
  wp (cstr_loop (print_fuel fuel) (Some stk) (Some cs, 0)) Ψ.
Proof.
  iIntros (Hblob Hshort Hts Hf HT) "Ho Hm Hs Ht HΨ". destruct t as [aty s|d|us]; [|done|].
  - iDestruct "Ht" as "(%e & %lv & %b & %He & Hf & Hv & Ht)".
    replace (print_fuel fuel) with (S (S (2 * fuel - 1))) by (unfold print_fuel; lia).
    by iApply (wp_cstr_loop_atom with "Ho Hm Hs Hf Hv Ht HΨ").
  - iDestruct "Ht" as "(%e & %q & %He & Hf & Hus & Ht)". simpl in Hf, Hts.
    fold (forest_size us) in Hf, Hts. pose proof (forest_cost_le us).
    replace (print_fuel fuel) with
      (S (forest_cost us + S (S (2 * fuel - forest_cost us - 2)))) by (unfold print_fuel; lia).
    iApply (wp_cstr_loop_list with "Ho Hm Hs Hf Hus Ht HΨ"); [done| |done|done|lia].
    iIntros "[Hus Ht]". by iApply "Ht".
Qed.
End print.

Section theorems.
Context {api : MemApi} {laws : MemLaws api} {pool : PoolApi} {plaws : PoolLaws api pool}.

(** The caller's string: none, and one of [ss] bytes is made, or a string
    that holds [pre] in a block of [c0] bytes. *)
Definition cstr_arg_at (p : ptr) (ss : Z) (pre : list Z) (c0 : nat) : hprop :=
  match p with
  | None => ⌈pre = [] /\ 0 < ss /\ c0 = Z.to_nat ss⌉
  | Some cs => ∃ rest, cstring_at cs pre (Det 0 :: rest) ∗ ⌈(length pre + S (length rest) = c0)%nat⌉
  end%I.

Lemma wp_cstr_start p ss pre c0 g Φ :
  ss < 2 ^ 64 ->
  cstr_arg_at p ss pre c0 -∗ mem_ok -∗ g_cstring_growsize ↦ g -∗
  (∀ cs, ⌈p = None \/ p = Some cs⌉ -∗ cout cs pre c0 g [] -∗ mem_ok -∗ Φ (Some cs)) -∗
  wp (match p with None => snew ss | Some _ => mret p end) Φ.
Proof.
  iIntros (Hss) "Hp Hm Hg HΦ". destruct p as [cs|]; simpl.
  - iDestruct "Hp" as "(%rest & Hs & %Hc)". iApply wp_ret. iApply ("HΦ" with "[] [Hs Hg] Hm").
    + iPureIntro. by right.
    + iExists rest. rewrite app_nil_r. iFrame. iPureIntro. lia.
  - iDestruct "Hp" as %(-> & Hpos & ->). iApply (wp_snew_ok with "Hm"); [lia|].
    iIntros (s) "Hs Hm". iApply ("HΦ" with "[] [Hs Hg] Hm"); [iPureIntro; by left|].
    destruct (Z.to_nat ss) as [|k] eqn:Hk; [lia|]. iExists (replicate k (Det 0)).
    rewrite length_replicate. iFrame. iPureIntro. simpl. lia.
Qed.

Lemma wp_print_sexp_cstr s p ss pre c0 g t l nx n m Φ :
  0 < g -> ss < 2 ^ 64 -> Z.of_nat c0 + g + 24 < 2 ^ 64 ->
  Z.of_nat (length pre + length (tree_text t)) + 2 * g + 26 < 2 ^ 64 ->
  is_blob t = false -> short_blobs t = true -> Z.of_nat n < int_max ->
  Z.of_nat (tree_size t) < int_max ->
  s ↦ p -∗ cstr_arg_at p ss pre c0 -∗ g_cstring_growsize ↦ g -∗ tree_at t l nx -∗
  mem_ok -∗ pool_ok n m -∗
  (∀ cs rest, ⌈p = None \/ p = Some cs⌉ -∗ s ↦ Some cs -∗
     cstring_at cs (pre ++ tree_text t) (Det 0 :: rest) -∗ g_cstring_growsize ↦ g -∗
     tree_at t l nx -∗ mem_ok -∗ pool_ok (S n) m -∗
     Φ (int_of_size (Z.of_nat (length (pre ++ tree_text t))))) -∗
  wp (print_sexp_cstr s (Some l) ss) Φ.
Proof.
  iIntros (Hg Hss Hc0 HT64 Hblob Hshort Hn Hts) "Hsl Hp Hg Ht Hm Hpl HΦ". unfold print_sexp_cstr.
  wp_bind_head. iApply (wp_gget with "Hsl"). iIntros "Hsl". wp_bind_head. iApply (wp_cstr_start with "Hp Hm Hg"); [done|].
  iIntros (cs) "%Hcs Ho Hm". wp_bind_head. iApply (wp_copy_head with "Ht Hpl Hm"); [done|].
  iIntros (fk) "Ht Hfk Hpl Hm". iApply (wp_link_head with "Ht Hfk"); [done|]. iIntros "Ht".
  wp_bind_head. iApply (wp_make_stack_ok with "Hm"). iIntros (stk) "Hs Hm".
  wp_bind_head. iApply (wp_push_ok with "Hs Hm"); [simpl; lia|]. iIntros "Hs Hm".
  wp_bind_head. iApply (wp_heap_fuel (tree_size t) with "Ht"); [apply head_ready_cells|].
  iIntros (fuel) "%Hf Ht". wp_bind_head.
  iApply (wp_cstr_loop cs stk pre (tree_text t) c0 g Hg Hc0 HT64 t l nx fk
    with "Ho Hm Hs Ht"); [done..|].
  iIntros "(%rest & Ho & _ & Hg) Hm Hs [(%sx & Hf & Hv) Ht]". wp_bind_head. iApply wp_ret.
  wp_bind_head. iApply (wp_gset with "Hsl"). iIntros "Hsl". wp_bind_head. wp_bind_head.
  iApply (wp_cstring_load with "Ho"). iIntros (base) "Ho". wp_ret.
  wp_bind_head. iApply (wp_destroy_stack_ok with "Hs Hm"). iIntros "Hm". wp_bind_head.
  iApply (wp_sexp_t_deallocate_val with "Hf Hv Hpl Hm"); [done|]. iIntros "Hpl Hm".
  iApply wp_ret. by iApply ("HΦ" with "[] Hsl Ho Hg Ht Hm Hpl").
Qed.

(** C4. [print_sexp_cstr] appends the text of the expression to the caller's
    string or to one that it makes, and returns the length of the whole
    string; the block grows as often as the text needs.  The text of an
    expression without binary data is the one that [print_sexp] would write
    in a buffer without bound; binary data in a list is written too, its
    size and its bytes.  The expression does not change and what was
    allocated besides the string is given back. *)
Theorem print_sexp_cstr_correct s p ss pre c0 g t l nx n m :
  0 < g -> ss < 2 ^ 64 -> Z.of_nat c0 + g + 24 < 2 ^ 64 ->
  Z.of_nat (length pre + length (tree_text t)) + 2 * g + 26 < 2 ^ 64 ->
  is_blob t = false -> short_blobs t = true -> Z.of_nat n < int_max ->
  Z.of_nat (tree_size t) < int_max ->
  ⦃ s ↦ p ∗ cstr_arg_at p ss pre c0 ∗ g_cstring_growsize ↦ g ∗ tree_at t l nx ∗
    mem_ok ∗ pool_ok n m ⦄
    print_sexp_cstr s (Some l) ss
  ⟪ r, ⌈r = int_of_size (Z.of_nat (length (pre ++ tree_text t)))⌉ ∗
       (∃ cs rest, s ↦ Some cs ∗ cstring_at cs (pre ++ tree_text t) (Det 0 :: rest) ∗
          ⌈p = None \/ p = Some cs⌉) ∗
       g_cstring_growsize ↦ g ∗ tree_at t l nx ∗ mem_ok ∗ pool_ok (S n) m ⟫.
Proof.
  iIntros (Hg Hss Hc0 HT64 Hblob Hshort Hn Hts) "(Hsl & Hp & Hg & Ht & Hm & Hpl)".
  iApply (wp_print_sexp_cstr with "Hsl Hp Hg Ht Hm Hpl"); [done..|].
  iIntros (cs rest) "%Hcs Hsl Hs Hg Ht Hm Hpl". iFrame "Hg Ht Hm Hpl". iSplit; [done|].
  iExists cs, rest. by iFrame.
Qed.
End theorems.

#[local] Existing Instances default_mem cached_pool.

(** An atom, binary data with a NUL, a parenthesis and a byte above 127, and
    a list. *)
Definition demo_blob : tree :=
  Node [Atom SEXP_BASIC [97]; Binary [0; 41; 255]; Node [Atom SEXP_DQUOTE [98; 34]]].

(** The expression is appended to a string that holds a character, in a block
    of three bytes that grows by two. *)
Definition demo_target : list (loc * cell) :=
  [(58%positive, CPtr (Some 59%positive)); (59%positive, CCstring (mk_cstring (Some 60%positive) 3 1));
   (60%positive, CChars [Det 120; Det 0; Indet]); (g_cstring_growsize, CSize 2)].

Lemma print_sexp_cstr_correct_witness :
  exists r h,
    print_sexp_cstr 58 (Some 64%positive) 1
      (heap_of (idle ++ demo_target ++ place_forest [demo_blob] 64)) = Done r h /\
    ((⌈r = int_of_size (Z.of_nat (length ([120] ++ tree_text demo_blob)))⌉ ∗
      (∃ cs rest, 58%positive ↦ Some cs ∗
         cstring_at cs ([120] ++ tree_text demo_blob) (Det 0 :: rest) ∗
         ⌈Some 59%positive = None \/ Some 59%positive = Some cs⌉) ∗
      g_cstring_growsize ↦ 2 ∗ tree_at demo_blob 64 None ∗ mem_ok ∗ pool_ok 1 0) ∗
     errno_own)%I h.
Proof.
  refine (run_frame _ _ _ _ _ (print_sexp_cstr_correct 58 (Some 59%positive) 1 [120] 3 2
    demo_blob 64 None 0 0 _ _ _ _ _ _ _ _) _ _).
  - done.
  - done.
  - done.
  - done.
  - done.
  - done.
  - done.
  - done.
  - apply (bool_decide_unpack _). by vm_compute.
  - rewrite cells_at_app (cells_at_app demo_target) idle_cells. iIntros "[(Hm & Hp & $) [(Hs & Hc & Hb & Hg & _) Ht]]".
    iSplitL "Hs"; [iExact "Hs"|]. iSplitL "Hc Hb".
    { iExists [Indet]. iSplitL; [|done]. iExists 60%positive. iSplitL "Hc"; [iExact "Hc"|iExact "Hb"]. }
    iSplitL "Hg"; [iExact "Hg"|]. iFrame "Hm Hp".
    iDestruct (place_forest_at [demo_blob] eq_refl with "Ht") as
      (l nx) "(%Hl & Ht & %Hnx)". injection Hl as <-. subst nx. iExact "Ht".
Defined.
