(* ===== verification/InlineSpec.v ===== *)
(** The mode [PARSER_INLINE_BINARY]: binary data in a text, in one piece or
    cut anywhere, and the way from an expression to its text and back. *)
From S2P Require Import Prelude SexpTypes CMem SepLogic SexpMemory FastStack CLib CString.
From S2P Require Import ElementPool Trees Layout SexpOps Sexp Print ParserStates EventParser.
From S2P Require Import Parser Binmode Machine Simulation Refinement ParserSpec ParseSexp Syntax.
From S2P Require Import PrintSpec PrintCstrSpec RoundTrip.

(** ** The callers *)
Section client.
Context {api : MemApi} {pool : PoolApi}.

(** The text comes in two pieces. *)
Definition parse_inline_pieces (t1 : cptr) (len1 : Z) (t2 : cptr) (len2 : Z) : M ptr :=
  pc ← parse_inline t1 len1;
  cparse_sexp t2 len2 pc.

Definition print_and_parse_inline (s : loc) (sx : ptr) (ss : Z) : M ptr :=
  print_sexp_cstr s sx ss;;
  cs ← gget (A := ptr) s;
  parse_cstring cs.
End client.

(** The text [s] is at offset [o] of a block, any bytes; [e] is the end of
    it, or the text ends outside binary data and a NUL follows. *)
Definition bytes_at (blk : list (fld Z)) (o len : Z) (s : list Z) (term : Z)
    (post : list (fld Z)) (r : arun_result) : Prop :=
  at_pos blk term post o s /\ stop_ok blk term post (o + len) r.

Section contract.
Context {api : MemApi} {laws : MemLaws api} {pool : PoolApi} {plaws : PoolLaws api pool}.
Variables (ss gs : Z).
Hypotheses (Hss : 0 < ss) (Hgs : 0 < gs) (Hsz : ss + 2 * gs + 2 ^ 31 < 2 ^ 64).

Lemma wp_inline_continuation Φ :
  mem_ok -∗ g_val_start_size ↦ ss -∗
  (∀ cc, cont_ready ss gs cc (a_start true) None None -∗ mem_ok -∗ g_val_start_size ↦ ss -∗
     Φ (Some cc)) -∗
  wp inline_continuation Φ.
Proof.
  iIntros "Hm Hs HΦ". unfold inline_continuation. wp_bind_head.
  iApply (wp_init_continuation ss gs with "Hm Hs"); [done..|].
  iIntros (cc s v vc) "Hcc -> Hbuf Hst Hm Hs".
  wp_bind_head. iApply (wp_modify with "Hcc"). iIntros "Hcc". wp_ret. fields.
  iApply ("HΦ" with "[Hcc Hbuf Hst] Hm Hs").
  iExists s, v, _, 0, ss, _, _, 0, 0, None. iFrame. done.
Qed.

(** The first call with such a continuation. *)
Lemma wp_cparse_inline cc lin blk o len s term post N m B Φ :
  bytes_at blk o len s term post (arun (a_start true) s) ->
  arun (a_start true) s <> AWrong -> B < int_max -> budget B (a_start true) s m ->
  cont_ready ss gs cc (a_start true) None None -∗ parser_env ss gs N m -∗ errno_own -∗
  lin ↦ blk -∗
  (parsed ss gs cc lin blk (Some (lin, o)) term post N B (arun (a_start true) s) -∗
     Φ (Some cc)) -∗
  wp (cparse_sexp (Some (lin, o)) len (Some cc)) Φ.
Proof.
  iIntros ([Hpos Hend] Hr HB Hb) "Hcc Henv He Hl HΦ".
  by iApply (wp_cparse_resume ss gs Hss Hgs Hsz cc (a_start true) lin blk _ None None o o len s
    term post N m B with "Hcc Henv He Hl").
Qed.

Lemma wp_parse_inline lin blk o len s term post N m B Φ :
  bytes_at blk o len s term post (arun (a_start true) s) ->
  arun (a_start true) s <> AWrong -> B < int_max -> budget B (a_start true) s m ->
  parser_env ss gs N m -∗ errno_own -∗ lin ↦ blk -∗
  (∀ cc, parsed ss gs cc lin blk (Some (lin, o)) term post N B (arun (a_start true) s) -∗
     Φ (Some cc)) -∗
  wp (parse_inline (Some (lin, o)) len) Φ.
Proof.
  iIntros (Ht Hr HB Hb) "(Hm & Hp & Hs & Hg) He Hl HΦ". unfold parse_inline.
  wp_bind_head. iApply (wp_inline_continuation with "Hm Hs"). iIntros (cc) "Hcc Hm Hs".
  iApply (wp_cparse_inline with "Hcc [$Hm $Hp $Hs $Hg] He Hl"); [done..|].
  iIntros "Hr". by iApply "HΦ".
Qed.

(** The machine's run on the text of a list stops behind its parenthesis, so
    that it does not matter that the block is longer than the text. *)
Lemma printed_bytes ts rest :
  forallb (printable true) ts = true ->
  let text := tree_text (Node ts) in
  let blk := (Det <$> text) ++ Det c_nul :: rest in
  bytes_at blk 0 (Z.of_nat (length text + S (length rest))) text c_nul rest
    (arun (a_start true) text).
Proof.
  intros Hp text blk. split; [by split|]. right. rewrite (arun_list true) //.
  split_and!; try done. unfold text_end, blk. rewrite length_app length_fmap /=. lia.
Qed.

(** Parsing the text of a list gives the list. *)
Lemma wp_parse_cstring ts s rest N m Φ :
  forallb (printable true) ts = true ->
  let text := tree_text (Node ts) in
  Z.of_nat (m + 2 * length text) < int_max ->
  parser_env ss gs N m -∗ errno_own -∗ cstring_at s text (Det c_nul :: rest) -∗
  (∀ cc l lp sb, cont_at ss gs cc (a_start true) SEXP_ERR_OK (Some l) lp sb -∗
     tree_at (Node ts) l None -∗ parser_env ss gs N (m + 2 * length text) -∗
     g_sexp_errno ↦ SEXP_ERR_OK -∗ cstring_at s text (Det c_nul :: rest) -∗ Φ (Some cc)) -∗
  wp (parse_cstring (Some s)) Φ.
Proof.
  intros Hp text Hm. iIntros "(Hmem & Hpl & Hst & Hgr) He (%b & Hs & Hb) HΦ". unfold parse_cstring.
  wp_bind_head. iApply (wp_inline_continuation with "Hmem Hst"). iIntros (cc) "Hcc Hmem Hst".
  wp_bind_head. iApply (wp_load with "Hs"). iIntros "Hs". fields. simpl cursor.
  pose proof (arun_list true ts Hp) as Hrun. fold text in Hrun.
  set (B := Z.of_nat (m + 2 * length text)) in *.
  iApply (wp_cparse_inline cc b _ 0 _ text c_nul rest N m B
    with "Hcc [$Hmem $Hpl $Hst $Hgr] He Hb"); [by apply printed_bytes|by rewrite Hrun|done|apply budget_start|].
  iIntros "Hr". rewrite Hrun. simpl Refinement.parsed.
  iDestruct "Hr" as (i last) "(_ & Hcc & (%l & -> & Ht) & Henv & He)".
  iDestruct (parser_env_of_env with "Henv") as (m') "((Hm & Hpool & Hg) & %Hb & Hb)".
  iApply ("HΦ" with "Hcc Ht [Hm Hpool Hg] He [Hs Hb]"); [|iExists b; by iFrame].
  iFrame "Hm Hg". iApply (pool_ok_mono with "Hpool"); [done|].
  apply budget_end in Hb. lia.
Qed.
End contract.

Section theorems.
Context {api : MemApi} {laws : MemLaws api} {pool : PoolApi} {plaws : PoolLaws api pool}.

(** C12. In the mode [PARSER_INLINE_BINARY] a call of [cparse_sexp] does what
    the machine does in that mode: [#b#n#] in a list is followed by [n]
    bytes, NULs and parentheses among them, which become an element. *)
Theorem inline_parse_refines ss gs lin blk o len s term post N m :
  params_ok ss gs -> bytes_at blk o len s term post (arun (a_start true) s) ->
  arun (a_start true) s <> AWrong -> Z.of_nat (m + 2 * length s) < int_max ->
  ⦃ parser_env ss gs N m ∗ errno_own ∗ lin ↦ blk ⦄
    parse_inline (Some (lin, o)) len
  ⟪ r, ∃ cc, ⌈r = Some cc⌉ ∗
       parsed ss gs cc lin blk (Some (lin, o)) term post N (Z.of_nat (m + 2 * length s))
         (arun (a_start true) s) ⟫.
Proof.
  intros (Hss & Hgs & Hsz) Ht Hp Hm. iIntros "(Henv & He & Hl)".
  iApply (wp_parse_inline ss gs Hss Hgs Hsz with "Henv He Hl"); [done|done|done|apply budget_start|].
  iIntros (cc) "Hr". iExists cc. by iFrame.
Qed.

(** C13. In that mode too a text may be cut anywhere, in the size or in the
    data included: what a call has read of the data is kept, and the next
    call reads the rest. *)
Theorem inline_pieces_parse_as_one ss gs lin1 blk1 o1 len1 s1 term1 post1 lin2 blk2 o2 len2 s2
    term2 post2 a1 N m :
  params_ok ss gs -> bytes_at blk1 o1 len1 s1 term1 post1 (AStop a1) ->
  bytes_at blk2 o2 len2 s2 term2 post2 (arun a1 s2) ->
  arun (a_start true) s1 = AStop a1 -> arun (a_start true) (s1 ++ s2) <> AWrong ->
  Z.of_nat (m + 2 * length (s1 ++ s2)) < int_max ->
  ⦃ parser_env ss gs N m ∗ errno_own ∗ lin1 ↦ blk1 ∗ lin2 ↦ blk2 ⦄
    parse_inline_pieces (Some (lin1, o1)) len1 (Some (lin2, o2)) len2
  ⟪ r, lin1 ↦ blk1 ∗ ∃ cc, ⌈r = Some cc⌉ ∗
       parsed ss gs cc lin2 blk2 (Some (lin2, o2)) term2 post2 N
         (Z.of_nat (m + 2 * length (s1 ++ s2))) (arun (a_start true) (s1 ++ s2)) ⟫.
Proof.
  intros (Hss & Hgs & Hsz) Ht1 [Hpos2 Hend2] H1 H12 Hm. iIntros "(Henv & He & Hl1 & Hl2)".
  rewrite length_app in Hm |- *. unfold parse_inline_pieces. wp_bind_head.
  iApply (wp_parse_inline ss gs Hss Hgs Hsz lin1 blk1 o1 len1 s1 term1 post1 N m
    (Z.of_nat (m + 2 * length s1)) with "Henv He Hl1");
    [by rewrite H1|by rewrite H1|lia|apply budget_start|].
  iIntros (cc) "Hr". pose proof (arun_mode (a_start true) s1) as Hmode. rewrite H1 in Hmode |- *.
  simpl Refinement.parsed. iDestruct "Hr" as "(%Hwf & Hcc & Henv & He)".
  iDestruct (parser_env_of_env with "Henv") as (m') "(Henv & %Hb & Hl1)".
  rewrite arun_app in H12 |- *; [|by rewrite H1]. rewrite H1 in H12 |- *.
  iApply (wp_cparse_resume ss gs Hss Hgs Hsz cc a1 lin2 blk2 (Some (lin2, o2)) None
    (Some (lin1, o1)) o2 o2 len2 s2 term2 post2 N m' (Z.of_nat (m + 2 * (length s1 + length s2)))
    with "[Hcc] Henv [He] Hl2"); try done.
  { by apply Hmode. }
  { destruct Hb. split; simpl in *; lia. }
  { by iApply cont_at_ready. }
  { by iExists _. }
  iIntros "Hr". iFrame "Hl1". iExists cc. by iFrame.
Qed.

(** C11. With binary data there is a way back too: what [print_sexp_cstr]
    writes of a list, a parser in the mode [PARSER_INLINE_BINARY] reads back,
    when binary data is in lists and not empty, and no word starts like it.
    The first list is untouched. *)
Theorem print_parse_inline_round_trip ss gs s bs g ts l nx N m :
  let t := Node ts in let text := tree_text t in
  params_ok ss gs -> forallb (printable true) ts = true ->
  0 < bs < 2 ^ 63 -> 0 < g < 2 ^ 62 -> Z.of_nat (tree_size t) < int_max ->
  Z.of_nat N < int_max -> Z.of_nat (m + 2 * length text) < int_max ->
  ⦃ s ↦ (None : ptr) ∗ g_cstring_growsize ↦ g ∗ tree_at t l nx ∗ parser_env ss gs N m ∗
    errno_own ⦄
    print_and_parse_inline s (Some l) bs
  ⟪ r, ∃ cc l' lp sb, ⌈r = Some cc⌉ ∗
         cont_at ss gs cc (a_start true) SEXP_ERR_OK (Some l') lp sb ∗ tree_at t l' None ∗
         tree_at t l nx ∗ g_sexp_errno ↦ SEXP_ERR_OK ∗ g_cstring_growsize ↦ g ∗
         parser_env ss gs (S N) (m + 2 * length text) ∗
         ∃ cs rest, s ↦ Some cs ∗ cstring_at cs text (Det c_nul :: rest) ⟫.
Proof.
  intros t text (Hss & Hgs & Hsz) Hp Hbs Hg Hts HN Hm.
  iIntros "(Hs & Hg & Ht & (Hmem & Hpool & Henv) & He)". unfold print_and_parse_inline.
  wp_bind_head. pose proof Hm as Hm'. unfold int_max in Hm'.
  iApply (wp_print_sexp_cstr s None bs [] (Z.to_nat bs) g t l nx N m
    with "Hs [] Hg Ht Hmem Hpool"); try done; try lia.
  { change (tree_text t) with text. rewrite Nat.add_0_l. lia. }
  { by apply (printable_short true). }
  { iPureIntro. split_and!; [done|lia|done]. }
  iIntros (cs rest) "_ Hs Hcs Hg Ht Hmem Hpool". wp_bind_head.
  iApply (wp_gget with "Hs"). iIntros "Hs".
  iApply (wp_parse_cstring ss gs Hss Hgs Hsz ts cs rest (S N) m
    with "[$Hmem $Hpool $Henv] He Hcs"); [done|exact Hm|].
  iIntros (cc l' lp sb) "Hcc Ht' Henv He Hcs". iExists cc, l', lp, sb. by iFrame.
Qed.
End theorems.

#[local] Existing Instances default_mem cached_pool.

(** The data holds a NUL, a parenthesis and a byte above 127. *)
Definition demo_inline : list Z :=
  bytes_of_string "(a #b#3#" ++ [0; 41; 255] ++ bytes_of_string " #bc) d".

Lemma inline_parse_refines_witness :
  let s := demo_inline in
  exists r h,
    parse_inline (Some (text_block, 0)) 18 (heap_of (startup s)) = Done r h /\
    (∃ cc, ⌈r = Some cc⌉ ∗
       parsed 256 64 cc text_block ((Det <$> s) ++ [Det 0]) (Some (text_block, 0)) 0 [] 0
         (Z.of_nat (0 + 2 * length s)) (arun (a_start true) s))%I h.
Proof.
  intros s. refine (run_triple _ _ _ (startup s) (inline_parse_refines 256 64 text_block
    ((Det <$> s) ++ [Det 0]) 0 18 s 0 [] 0 0 _ _ _ _) _ (startup_env s)).
  - by vm_compute.
  - split; [by split|by left].
  - by vm_compute.
  - by vm_compute.
  - apply (bool_decide_unpack _). by vm_compute.
Defined.

(** The cut is behind the NUL. *)
Lemma inline_pieces_parse_as_one_witness :
  let s1 := take 9 demo_inline in
  let s2 := drop 9 demo_inline in
  exists r h,
    parse_inline_pieces (Some (text_block, 0)) 9 (Some (65%positive, 0)) 9
      (heap_of ((65%positive, CChars ((Det <$> s2) ++ [Det 0])) :: startup s1)) = Done r h /\
    (text_block ↦ ((Det <$> s1) ++ [Det 0]) ∗ ∃ cc, ⌈r = Some cc⌉ ∗
       parsed 256 64 cc 65 ((Det <$> s2) ++ [Det 0]) (Some (65%positive, 0)) 0 [] 0
         (Z.of_nat (0 + 2 * length (s1 ++ s2))) (arun (a_start true) (s1 ++ s2)))%I h.
Proof.
  intros s1 s2. refine (run_triple _ _ _ ((65%positive, CChars ((Det <$> s2) ++ [Det 0])) ::
    startup s1) (inline_pieces_parse_as_one 256 64 text_block
    ((Det <$> s1) ++ [Det 0]) 0 9 s1 0 [] 65 ((Det <$> s2) ++ [Det 0]) 0 9 s2 0 [] _ 0 0
    _ _ _ _ _ _) _ _).
  - by vm_compute.
  - split; [by split|by left].
  - split; [by split|by left].
  - vm_compute. reflexivity.
  - by vm_compute.
  - by vm_compute.
  - apply (bool_decide_unpack _). by vm_compute.
  - iIntros "[H Hs]". iDestruct (startup_env with "Hs") as "($ & $ & $)". iExact "H".
Defined.

Lemma print_parse_inline_round_trip_witness :
  exists r h,
    print_and_parse_inline 58 (Some 64%positive) 8
      (heap_of (demo_globals ((58%positive, CPtr None) :: (g_cstring_growsize, CSize 4) ::
                              place_forest [demo_blob] 64))) = Done r h /\
    ((∃ cc l' lp sb, ⌈r = Some cc⌉ ∗
        cont_at 256 64 cc (a_start true) SEXP_ERR_OK (Some l') lp sb ∗ tree_at demo_blob l' None ∗
        tree_at demo_blob 64 None ∗ g_sexp_errno ↦ SEXP_ERR_OK ∗ g_cstring_growsize ↦ 4 ∗
        parser_env 256 64 1 (0 + 2 * length (tree_text demo_blob)) ∗
        ∃ cs rest, 58 ↦ Some cs ∗ cstring_at cs (tree_text demo_blob) (Det c_nul :: rest)) ∗
     60%positive ↦ ([] ++ replicate 40 (Indet : fld Z)))%I h.
Proof.
  refine (run_frame _ _ _ _ _ (print_parse_inline_round_trip 256 64 58 8 4
    [Atom SEXP_BASIC [97]; Binary [0; 41; 255]; Node [Atom SEXP_DQUOTE [98; 34]]] 64 None 0 0
    _ _ _ _ _ _ _) _ _).
  - by vm_compute.
  - by vm_compute.
  - done.
  - done.
  - by vm_compute.
  - done.
  - by vm_compute.
  - apply (bool_decide_unpack _). by vm_compute.
  - rewrite demo_globals_cells globals_env. iIntros "($ & $ & $ & [Hs [Hg Ht]])".
    iSplitL "Hs"; [iExact "Hs"|]. iSplitL "Hg"; [iExact "Hg"|].
    iDestruct (place_forest_at [demo_blob] eq_refl with "Ht") as (l nx) "(%Hl & Ht & %Hnx)".
    injection Hl as <-. subst nx. iExact "Ht".
Defined.
