(* ===== verification/BinmodeSpec.v ===== *)
(** The example program of [Binmode] writes what it read, whatever the bytes
    are and in whatever portions they arrive, and keeps no memory. *)
From S2P Require Import Prelude SexpTypes CMem SepLogic SexpMemory FastStack CLib CString.
From S2P Require Import ElementPool Trees Layout SexpOps Sexp Print ParserStates EventParser.
From S2P Require Import Parser Binmode Machine Simulation Refinement ParserSpec ParseSexp Syntax.
From S2P Require Import PrintSpec PrintCstrSpec RoundTrip InlineSpec.

#[local] Existing Instances default_mem cached_pool.

(** ** Reading the file *)

(** The bytes of the file that were not read yet; a read never fails and
    gives nothing at the end only. *)
Definition file_at (d : list Z) : hprop :=
  (∃ chunks : list (list Z), g_reads ↦ (Some <$> chunks : list (option (list Z))) ∗
     ⌈Forall (fun c => c <> []) chunks /\ concat chunks = d⌉)%I.

Lemma wp_read_into lb b1 b2 n d Φ :
  (0 < n <= length b2)%nat ->
  lb ↦ (b1 ++ b2) -∗ file_at d -∗
  (∀ now d', ⌈d = now ++ d' /\ (length now <= n)%nat /\ (now = [] -> d' = [])⌉ -∗
     lb ↦ (b1 ++ (Det <$> now) ++ drop (length now) b2) -∗ file_at d' -∗
     Φ (Z.of_nat (length now))) -∗
  wp (read_into (Some (lb, Z.of_nat (length b1))) (Z.of_nat n)) Φ.
Proof.
  iIntros (Hn) "Hb (%chunks & Hr & %H) HΦ". destruct H as [Hne <-]. unfold read_into.
  wp_bind_head. iApply (wp_gget with "Hr"). iIntros "Hr". destruct chunks as [|c cs]; simpl.
  { iApply wp_ret. iApply ("HΦ" $! [] [] with "[] Hb"); [iPureIntro; split_and!; simpl; done || lia|].
    iExists []. by iFrame. }
  rewrite Nat2Z.id. apply Forall_cons in Hne as [Hc Hcs].
  wp_bind_head. iApply (wp_gset with "Hr"). iIntros "Hr". wp_bind_head.
  assert (length (take n c) <= n)%nat as Hlen by (rewrite length_take; lia).
  iApply (wp_store_bytes with "Hb").
  { rewrite -{1}(take_drop (length (take n c)) b2).
    apply splice_app; [done|]. rewrite length_fmap !length_take. lia. }
  iIntros "Hb". iApply wp_ret.
  iApply ("HΦ" $! (take n c) (drop n c ++ concat cs) with "[] Hb").
  { iPureIntro. rewrite (assoc_L app) take_drop. split_and!; [done|done|].
    intros Hnow. destruct c, n; [done..|lia|done]. }
  iExists (match drop n c with [] => cs | _ => drop n c :: cs end).
  destruct (drop n c) as [|x c'] eqn:Hd; simpl; iFrame; iPureIntro; split; try done.
  by constructor.
Qed.

Lemma script_size_data chunks :
  (length (concat chunks) <= script_size (Some <$> chunks))%nat.
Proof.
  induction chunks as [|c cs IH]; [done|]. simpl concat. rewrite length_app.
  change (script_size _) with (S (length c + script_size (Some <$> cs))). lia.
Qed.

Section readfile.
Variables (bgs : nat) (K : Z).
Hypotheses (Hbgs : (0 < bgs)%nat) (HK : Z.of_nat bgs <= K) (HK2 : K < 2 ^ 31).

(** The loop appends what is left of the file; there is always room. *)
Lemma wp_readfile_loop fuel : forall d1 d2 lb (rest : list (fld Z)) Φ,
  (length d2 < fuel)%nat -> 0 < Z.of_nat (length rest) <= K ->
  Z.of_nat (length d1 + length d2) + 2 * K < 2 ^ 64 ->
  lb ↦ ((Det <$> d1) ++ rest) -∗ file_at d2 -∗ mem_ok -∗
  (∀ lb' rest' al, lb' ↦ ((Det <$> d1 ++ d2) ++ rest') -∗ file_at [] -∗ mem_ok -∗
     Φ (Some lb', Z.of_nat (length (d1 ++ d2)), al)) -∗
  wp (while fuel (readfile_body (Z.of_nat bgs))
        (Some lb, Z.of_nat (length d1), Z.of_nat (length d1 + length rest))) Φ.
Proof.
  induction fuel as [|fuel IH]; intros d1 d2 lb rest Φ Hf Hrest Hsz; [lia|].
  iIntros "Hb Hd Hm HΦ". cbn [while]. unfold readfile_body at 2. wp_bind_head. wp_bind_head.
  rewrite u64_small; [|lia].
  replace (Z.of_nat (length d1 + length rest) - Z.of_nat (length d1)) with
    (Z.of_nat (length rest)) by lia. simpl cursor.
  rewrite -{1}(length_fmap (Det : Z -> fld Z) d1).
  iApply (wp_read_into with "Hb Hd"); [lia|].
  iIntros (now d') "%H Hb Hd". destruct H as (-> & Hlen & Hnil).
  rewrite int_of_size_small; [|lia]. rewrite length_app in Hf, Hsz.
  destruct (Z.ltb_spec 0 (Z.of_nat (length now))) as [Hpos|Hz].
  2:{ assert (now = []) as -> by (destruct now; [done|simpl in Hz; lia]). rewrite (Hnil eq_refl).
      wp_ret. iApply wp_ret. simpl. rewrite app_nil_r. iApply ("HΦ" with "Hb Hd Hm"). }
  rewrite u64_small; [|lia]. rewrite -Nat2Z.inj_add -length_app.
  rewrite (assoc_L app (Det <$> d1)) -fmap_app (assoc_L app d1).
  destruct (Z.eqb_spec (Z.of_nat (length (d1 ++ now))) (Z.of_nat (length d1 + length rest)))
    as [Hfull|Hroom]; rewrite length_app in Hfull || rewrite length_app in Hroom.
  - rewrite drop_ge; [|lia]. rewrite app_nil_r u64_small; [|lia]. wp_bind_head.
    iApply (wp_realloc_ok with "Hb Hm"). iIntros (lb') "Hb Hm". wp_ret. wp_ret.
    assert (length (d1 ++ now) = length d1 + length rest)%nat as Heq by (rewrite length_app; lia).
    rewrite resize_grow; [|rewrite length_fmap Heq; lia].
    replace (Z.to_nat (Z.of_nat (length d1 + length rest) + Z.of_nat bgs) -
      length ((Det : Z -> fld Z) <$> d1 ++ now))%nat with bgs by (rewrite length_fmap Heq; lia).
    replace (Z.of_nat (length d1 + length rest) + Z.of_nat bgs) with
      (Z.of_nat (length (d1 ++ now) + length (replicate bgs (Indet : fld Z))))
      by (rewrite length_replicate Heq; lia).
    iApply (IH with "Hb Hd Hm HΦ"); rewrite ?length_replicate ?Heq; lia.
  - wp_ret. replace (length d1 + length rest)%nat with
      (length (d1 ++ now) + length (drop (length now) rest))%nat
      by (rewrite length_app length_drop; lia).
    iApply (IH with "Hb Hd Hm HΦ"); rewrite ?length_drop ?length_app; lia.
Qed.

Lemma wp_readfile d len (bss : nat) Φ :
  d <> [] -> 0 < Z.of_nat bss <= K -> Z.of_nat (length d) + 2 * K < 2 ^ 64 ->
  file_at d -∗ mem_ok -∗
  (∀ lb, data_at lb d -∗ file_at [] -∗ mem_ok -∗ Φ (Some lb, Z.of_nat (length d))) -∗
  wp (readfile len (Z.of_nat bss) (Z.of_nat bgs)) Φ.
Proof.
  iIntros (Hd Hbss Hsz) "(%chunks & Hr & %H) Hm HΦ". unfold readfile. wp_bind_head.
  iApply (wp_malloc_ok with "Hm"). iIntros (lb) "Hb Hm". wp_ret. unfold script_fuel.
  wp_bind_head. wp_bind_head. iApply (wp_gget with "Hr"). iIntros "Hr". wp_ret. wp_bind_head.
  pose proof (script_size_data chunks) as Hfuel. rewrite (proj2 H) in Hfuel.
  rewrite Nat2Z.id -{2}(length_replicate bss (Indet : fld Z)).
  iApply (wp_readfile_loop _ [] d lb with "Hb [Hr] Hm"); [lia| | | |].
  { by rewrite length_replicate. }
  { simpl. lia. }
  { iExists chunks. by iFrame. }
  iIntros (lb' rest' al) "Hb Hd Hm". simpl app.
  destruct (Z.eqb_spec (Z.of_nat (length d)) 0); [by destruct d|].
  iApply wp_ret. iApply ("HΦ" with "[Hb] Hd Hm"). by iExists rest'.
Qed.
End readfile.

(** ** The program *)

Lemma list_text_length d : (length (tree_text (Node [Binary d])) <= length d + 27)%nat.
Proof.
  pose proof (digits_length (Z.of_nat (length d))).
  change (tree_text _) with (c_lparen :: binary_text d ++ [c_rparen]). unfold binary_text.
  simpl length. rewrite !length_app /= !length_app /=. lia.
Qed.

Lemma wp_wrap_and_print s g d lb n m Φ :
  0 < g < 2 ^ 62 -> blob_ok d = true -> Z.of_nat n + 2 < int_max ->
  s ↦ (None : ptr) -∗ g_cstring_growsize ↦ g -∗ data_at lb d -∗ mem_ok -∗ pool_ok n m -∗
  (∀ cs rest, s ↦ Some cs -∗
     cstring_at cs (tree_text (Node [Binary d])) (Det c_nul :: rest) -∗
     g_cstring_growsize ↦ g -∗ mem_ok -∗ pool_ok (n + 3) m -∗ Φ ()) -∗
  wp (wrap_and_print s (Some lb) (Z.of_nat (length d))) Φ.
Proof.
  iIntros (Hg Hd Hn) "Hs Hg Hb Hm Hp HΦ". unfold wrap_and_print.
  pose proof Hd as [H1%Z.ltb_lt H2%Z.leb_le]%andb_prop. unfold int_max in H2, Hn.
  wp_bind_head. iApply (wp_new_sexp_binary_atom with "Hb Hp Hm"). iIntros (l) "Ht Hp Hm". wp_ret.
  wp_bind_head. iApply (wp_new_sexp_list [Binary d] with "[Ht] Hp Hm").
  { iExists l, None. by iFrame. }
  iIntros (l') "Ht Hp Hm". wp_bind_head.
  pose proof (list_text_length d) as Htext.
  rewrite u64_small; [|lia].
  iApply (wp_print_sexp_cstr s None (Z.of_nat (length d) + 1024) []
    (Z.to_nat (Z.of_nat (length d) + 1024)) g _ l' None with "Hs [] Hg Ht Hm Hp");
    try done; try lia.
  { rewrite Nat.add_0_l. lia. }
  { simpl. rewrite andb_true_r. apply Z.ltb_lt. lia. }
  { unfold int_max. lia. }
  { iPureIntro. split_and!; [done|lia|done]. }
  iIntros (cs rest) "_ Hs Hcs Hg Ht Hm Hp".
  iApply (wp_destroy_sexp [Node [Binary d]] with "[Ht] Hp Hm"); [simpl; unfold int_max; lia| |].
  { iExists l', None. by iFrame. }
  iIntros "Hp Hm". iApply ("HΦ" with "Hs Hcs Hg Hm").
  iApply (pool_ok_mono with "Hp"); simpl; lia.
Qed.

Section extract.
Variables (ss gs : Z).
Hypotheses (Hss : 0 < ss) (Hgs : 0 < gs) (Hsz : ss + 2 * gs + 2 ^ 31 < 2 ^ 64).

Lemma wp_parse_and_extract cs d rest m Φ :
  blob_ok d = true -> let text := tree_text (Node [Binary d]) in
  Z.of_nat (m + 2 * length text) < int_max ->
  parser_env ss gs 3 m -∗ errno_own -∗ cstring_at cs text (Det c_nul :: rest) -∗
  (globals ss gs -∗ errno_own -∗ Φ (Det <$> d)) -∗
  wp (parse_and_extract (Some cs)) Φ.
Proof.
  intros Hd text Hm. iIntros "Henv He Hcs HΦ". unfold parse_and_extract.
  pose proof Hd as [H1%Z.ltb_lt H2%Z.leb_le]%andb_prop.
  wp_bind_head. iApply (wp_parse_cstring ss gs Hss Hgs Hsz [Binary d] with "Henv He Hcs");
    [by rewrite /= Hd|done|].
  iIntros (cc l lp sb) "Hcc Ht (Hmem & Hp & Hg) He Hcs".
  iDestruct "Hcc" as "(%s & %v & %vc & %u & %al & %be & %br & %bd & Hcc & Hbl & Hb & Hst)".
  wp_bind_head. iApply (wp_load with "Hcc"). iIntros "Hcc". fields. wp_det. wp_ret.
  rewrite tree_at_node. iDestruct "Ht" as (o p) "(%Ho & Hl & (%l2 & %nx & -> & Ht & %Hnx))".
  subst nx. wp_bind_head. iApply (wp_load with "Hl"). iIntros "Hl".
  rewrite (le_list _ _ _ Ho). rewrite tree_at_binary.
  iDestruct "Ht" as (e lb) "(%He & Hl2 & (%r & Hd))".
  wp_bind_head. iApply (wp_load with "Hl2"). iIntros "Hl2".
  rewrite (be_bindata _ _ _ _ He) (be_binlength _ _ _ _ He). wp_det. wp_det.
  destruct (Z.eqb_spec (Z.of_nat (length d)) 0); [lia|]. simpl cursor. wp_bind_head.
  iApply (wp_load_bytes with "Hd").
  { rewrite slice_start; [|rewrite length_app length_fmap; lia].
    by rewrite take_app_length' ?length_fmap. }
  iIntros "Hd". wp_bind_head. iApply (wp_sdestroy_ok with "Hcs Hmem"). iIntros "Hmem".
  wp_bind_head. iApply (wp_destroy_continuation _ ss gs cc (a_start true) lp sb 3
    with "[Hcc Hbl Hb Hst] Hp Hmem"); [done|change (tree_text _) with text; change (height_of _) with 0%nat; lia| |].
  { iExists s, v, vc, u, al, _, _, be, br, bd. iFrame. }
  iIntros "Hp Hmem". wp_bind_head.
  iApply (wp_destroy_sexp [Node [Binary d]] with "[Hl Hl2 Hd] Hp Hmem"); [done| |].
  { iExists l, None. iSplit; [done|]. iSplit; [|done]. rewrite tree_at_node. iExists o, (Some l2).
    iFrame "Hl". iSplit; [done|]. iExists l2, None. iSplit; [done|]. iSplit; [|done].
    rewrite tree_at_binary. iExists e, lb. iFrame "Hl2". iSplit; [done|]. by iExists r. }
  iIntros "Hp Hmem". wp_bind_head. iApply (wp_sexp_cleanup with "Hp Hmem").
  iIntros "Hc1 Hc2 Hmem". wp_ret. iApply ("HΦ" with "[$Hmem $Hc1 $Hc2 $Hg]"). by iExists _.
Qed.
End extract.

(** C7. The program [binmode.c] writes the bytes it read: the file becomes
    binary data in a list, the list a text, the text a list again.  It does
    not matter in which portions the file arrives, or which bytes it
    contains, and at the end the library owns no memory. *)
Theorem binmode_copies_file ss gs g d :
  params_ok ss gs -> 0 < g < 2 ^ 62 -> d <> [] -> Z.of_nat (length d) + 32 < 2 ^ 30 ->
  ⦃ file_at d ∗ g_cstring_growsize ↦ g ∗ globals ss gs ∗ errno_own ⦄ binmode
  ⟪ written, ⌈written = Det <$> d⌉ ∗ file_at [] ∗ g_cstring_growsize ↦ g ∗ globals ss gs ∗
      errno_own ⟫.
Proof.
  intros (Hss & Hgs & Hsz) Hg Hd Hlen. iIntros "(Hf & Hgr & Hglob & He)".
  assert (blob_ok d = true) as Hok.
  { apply andb_true_iff. rewrite Z.ltb_lt Z.leb_le. unfold int_max. destruct d; [done|]. cbn [length] in *. lia. }
  iDestruct (globals_env with "Hglob") as "(Hmem & Hp & Henv)". unfold binmode. wp_bind_head.
  iApply (wp_readfile 256 1024 ltac:(lia) ltac:(done) ltac:(done) d 0 1024 with "Hf Hmem");
    [done|done|lia|].
  iIntros (lb) "Hb Hf Hmem". wp_bind_head. iApply wp_alloc. iIntros (s) "Hs". wp_bind_head.
  iApply (wp_wrap_and_print with "Hs Hgr Hb Hmem Hp"); [done|done|done|].
  iIntros (cs rest) "Hs Hcs Hgr Hmem Hp". wp_bind_head. iApply (wp_gget with "Hs"). iIntros "Hs".
  wp_bind_head.
  iApply (wp_parse_and_extract ss gs Hss Hgs Hsz cs d rest 0
    with "[$Hmem $Hp $Henv] He Hcs"); [done| |].
  { pose proof (list_text_length d). unfold int_max. lia. }
  iIntros "Hglob He". wp_bind_head. iApply (wp_dealloc with "Hs"). wp_ret. by iFrame.
Qed.

(** The file arrives in three portions. *)
Lemma binmode_copies_file_witness :
  let chunks := [[1; 0]; [41; 255; 35]; [10]] in
  let cells := (g_reads, CReads (Some <$> chunks)) :: (g_cstring_growsize, CSize 4) ::
               demo_globals [] in
  exists written h,
    binmode (heap_of cells) = Done written h /\
    ((⌈written = Det <$> concat chunks⌉ ∗ file_at [] ∗ g_cstring_growsize ↦ 4 ∗
      globals 256 64 ∗ errno_own) ∗ 60%positive ↦ ([] ++ replicate 40 (Indet : fld Z)))%I h.
Proof.
  intros chunks cells. refine (run_frame _ _ _ _ cells
    (binmode_copies_file 256 64 4 (concat chunks) _ _ _ _) _ _).
  - by vm_compute.
  - done.
  - done.
  - by vm_compute.
  - apply (bool_decide_unpack _). by vm_compute.
  - iIntros "(Hr & Hg & H)". iDestruct (demo_globals_cells with "H") as "($ & $ & $ & _)".
    iSplitL "Hr"; [|iExact "Hg"]. iExists chunks. iSplitL; [iExact "Hr"|]. iPureIntro.
    split; [|done]. by repeat constructor.
Defined.
