(* ===== verification/Frozen.v ===== *)
(** A part of the heap that a program only reads.

    [own h] owns exactly the cells of [h].  [has h P] says that [P] holds of
    a part of [h]; it is a fact and owns nothing, so a program that only
    reads can use overlapping parts of the same memory: the definition of a
    variable while it evaluates it, and the dictionary that holds it. *)
From S2P Require Import Prelude SexpTypes CMem SepLogic CLib Trees.

Definition own (h : heap) : hprop := HProp (fun h' => h' = h).

Definition has (h : heap) (P : hprop) : Prop :=
  exists h1 h2, h = h1 ∪ h2 /\ h1 ##ₘ h2 /\ P h1.

(** Memory that holds [P] can be named, and is given back with what it
    held. *)
Lemma freeze (P : hprop) : P ⊢ ∃ h, ⌈P h⌉ ∗ own h.
Proof.
  split. intros h HP. exists h, ∅, h.
  rewrite left_id_L. split_and!; [done|apply map_disjoint_empty_l|by split|done].
Qed.

Lemma thaw (P : hprop) h : P h -> own h ⊢ P.
Proof. intros HP. by split; intros h' ->. Qed.

Lemma has_all (P : hprop) h : P h -> has h P.
Proof.
  intros HP. exists h, ∅. rewrite right_id_L. split_and!; try done. apply map_disjoint_empty_r.
Qed.

(** ** What a part holds *)

Lemma has_mono (P Q : hprop) h : (P ⊢ Q) -> has h P -> has h Q.
Proof. intros [HPQ] (h1 & h2 & -> & Hd & HP). exists h1, h2. auto. Qed.

Lemma has_sep (P Q : hprop) h : has h (P ∗ Q)%I -> has h P /\ has h Q.
Proof.
  intros (h1 & h2 & -> & Hd & (h3 & h4 & -> & Hd' & HP & HQ)).
  apply map_disjoint_union_l in Hd as [Hd3 Hd4]. split.
  - exists h3, (h4 ∪ h2). split_and!; [by rewrite assoc_L|by apply map_disjoint_union_r|done].
  - exists h4, (h3 ∪ h2). split_and!; [|by apply map_disjoint_union_r|done].
    by rewrite (map_union_comm h3 h4) // assoc_L.
Qed.

Lemma has_exist {A} (Ψ : A -> hprop) h : has h (∃ a, Ψ a)%I -> exists a, has h (Ψ a).
Proof. intros (h1 & h2 & -> & Hd & (a & Ha)). exists a, h1, h2. auto. Qed.

Lemma has_pure φ h : has h ⌈φ⌉%I -> φ.
Proof. intros (h1 & h2 & -> & Hd & [_ Hφ]). done. Qed.

Lemma has_cell `{CType A} l (a : A) h : has h (l ↦ a)%I -> h !! l = Some (CMem.inj a).
Proof.
  intros (h1 & h2 & -> & Hd & ->). rewrite lookup_union_l' ?lookup_singleton_eq //.
Qed.

Lemma has_size (P : hprop) n h : (P ⊢ cells n) -> has h P -> (n <= size h)%nat.
Proof.
  intros [HP] (h1 & h2 & -> & Hd & Hh). apply HP in Hh. simpl in Hh.
  rewrite map_size_disj_union //. lia.
Qed.

Lemma own_cells h : own h ⊢ cells (size h).
Proof. split. intros h' ->. simpl. lia. Qed.

(** ** Reading *)

Lemma own_acc `{CType A} l (a : A) h :
  h !! l = Some (CMem.inj a) -> own h ⊢ l ↦ a ∗ (l ↦ a -∗ own h).
Proof.
  intros Hl. split. intros h' ->. exists {[l := CMem.inj a]}, (delete l h). split_and!.
  - by rewrite -insert_union_singleton_l insert_delete_eq insert_id.
  - apply map_disjoint_singleton_l. apply lookup_delete_eq.
  - done.
  - intros h' Hd ->. simpl. rewrite map_union_comm; [|done].
    by rewrite -insert_union_singleton_l insert_delete_eq insert_id.
Qed.

Lemma wp_load_own `{CType A} l (a : A) h Φ :
  h !! l = Some (CMem.inj a) -> own h -∗ (own h -∗ Φ a) -∗ wp (load (Some l)) Φ.
Proof.
  iIntros (Hl) "Hh HΦ". iDestruct (own_acc l a with "Hh") as "[Hl Hh]"; [done|].
  iApply (wp_load with "Hl"). iIntros "Hl". iApply "HΦ". by iApply "Hh".
Qed.

Lemma wp_load_string_own l s rest h Φ :
  Forall (fun c => c <> 0) s -> h !! l = Some (CChars ((Det <$> s) ++ Det 0 :: rest)) ->
  own h -∗ (own h -∗ Φ s) -∗ wp (load_string (Some (l, 0))) Φ.
Proof.
  iIntros (Hs Hl) "Hh HΦ". iDestruct (own_acc l ((Det <$> s) ++ Det 0 :: rest) with "Hh") as "[Hl Hh]"; [done|].
  iApply (wp_load_string with "Hl"); [done|]. iIntros "Hl". iApply "HΦ". by iApply "Hh".
Qed.

(** ** Expressions *)

Lemma has_atom h aty s l nx :
  has h (tree_at (Atom aty s) l nx) ->
  exists e lv rest, h !! l = Some (CSexp e) /\
    h !! lv = Some (CChars ((Det <$> s) ++ Det 0 :: rest)) /\
    atom_elt e aty s lv ((Det <$> s) ++ Det 0 :: rest) nx.
Proof.
  intros H. eapply has_mono in H; [|by rewrite tree_at_atom].
  apply has_exist in H as [e H]. apply has_exist in H as [lv H]. apply has_exist in H as [b H].
  apply has_sep in H as [He%has_pure [Hl%has_cell Hv%has_cell]%has_sep].
  destruct (ae_string _ _ _ _ _ _ He) as [rest ->]. by exists e, lv, rest.
Qed.

Lemma has_node h ts l nx :
  has h (tree_at (Node ts) l nx) ->
  exists e p, h !! l = Some (CSexp e) /\ list_elt e p nx /\ has h (forest_at ts p).
Proof.
  intros H. eapply has_mono in H; [|by rewrite tree_at_node].
  apply has_exist in H as [e H]. apply has_exist in H as [p H].
  apply has_sep in H as [He%has_pure [Hl%has_cell Hp]%has_sep]. by exists e, p.
Qed.

Lemma has_forest_cons h t ts p :
  has h (forest_at (t :: ts) p) ->
  exists l nx, p = Some l /\ has h (tree_at t l nx) /\ has h (forest_at ts nx).
Proof.
  intros H. apply has_exist in H as [l H]. apply has_exist in H as [nx H].
  apply has_sep in H as [Hp%has_pure [Ht Hts]%has_sep]. by exists l, nx.
Qed.

Lemma has_forest_nil h p : has h (forest_at [] p) -> p = None.
Proof. apply has_pure. Qed.

Definition elt_kind (t : tree) : elt_t := match t with Node _ => SEXP_LIST | _ => SEXP_VALUE end.

(** The element at the head of a tree. *)
Lemma has_head h t l nx :
  has h (tree_at t l nx) ->
  exists e, h !! l = Some (CSexp e) /\ elt_ty e = Det (elt_kind t) /\ elt_next e = nx.
Proof.
  destruct t as [aty s|d|ts].
  - intros (e & lv & rest & Hl & _ & He)%has_atom. exists e. by destruct He.
  - intros H. eapply has_mono in H; [|by rewrite tree_at_binary].
    apply has_exist in H as [e H]. apply has_exist in H as [lb H].
    apply has_sep in H as [He%has_pure [Hl%has_cell _]%has_sep]. exists e. by destruct He.
  - intros (e & p & Hl & He & _)%has_node. exists e. by destruct He.
Qed.

Lemma has_nil h : has h (forest_at [] None).
Proof.
  exists ∅, h. rewrite left_id_L. split_and!; [done|apply map_disjoint_empty_l|].
  unfold forest_at, seg. by split.
Qed.
