(* ===== verification/DictSpec.v ===== *)
(** The dictionary of the interpreter [SimpleInterp] is a list of names with
    the expressions they are bound to. *)
From S2P Require Import Prelude SexpTypes CMem SepLogic SexpMemory FastStack CLib ElementPool.
From S2P Require Import Trees Sexp Print Parser Io Vis Machine Syntax PrintSpec Frozen SimpleInterp.

(** ** Dictionaries as values *)

(** A name is bound to an expression and the successors it had where it was
    defined. *)
Definition denv : Type := list (list Z * list tree).

Fixpoint binding (env : denv) (x : list Z) : option (list tree) :=
  match env with
  | [] => None
  | (y, ts) :: env => if bool_decide (x = y) then Some ts else binding env x
  end.

(** A new name comes last. *)
Fixpoint bind (x : list Z) (ts : list tree) (env : denv) : denv :=
  match env with
  | [] => [(x, ts)]
  | (y, us) :: env => if bool_decide (y = x) then (y, ts) :: env else (y, us) :: bind x ts env
  end.

Lemma binding_bind x ts env : binding (bind x ts env) x = Some ts.
Proof.
  induction env as [|[y us] env IH]; simpl; [by rewrite bool_decide_eq_true_2|].
  destruct (decide (y = x)) as [->|Hne].
  - rewrite bool_decide_eq_true_2 //=. by rewrite bool_decide_eq_true_2.
  - rewrite bool_decide_eq_false_2 //=. by rewrite bool_decide_eq_false_2.
Qed.

Lemma binding_bind_ne x y ts env : x <> y -> binding (bind x ts env) y = binding env y.
Proof.
  intros Hne. induction env as [|[z us] env IH]; simpl.
  - by rewrite bool_decide_eq_false_2.
  - destruct (decide (z = x)) as [->|Hz].
    + rewrite bool_decide_eq_true_2 //=. by rewrite !bool_decide_eq_false_2.
    + rewrite (bool_decide_eq_false_2 (z = x)) //=. by destruct (bool_decide (y = z)).
Qed.

(** The elements that are bound to a name. *)
Definition bound (env : denv) (x : list Z) : list tree := default [] (binding env x).

(** All elements of the dictionary. *)
Definition env_size (env : denv) : nat :=
  foldr (fun e n => forest_size e.2 + n)%nat O env.

Lemma env_size_bind x ts env :
  (env_size (bind x ts env) + forest_size (bound env x) = env_size env + forest_size ts)%nat.
Proof.
  induction env as [|[y us] env IH]; simpl; [lia|]. unfold bound in *. simpl.
  destruct (decide (y = x)) as [->|Hne].
  - rewrite !bool_decide_eq_true_2 //=. lia.
  - rewrite !bool_decide_eq_false_2 //=. lia.
Qed.

Lemma bound_size env x : (forest_size (bound env x) <= env_size env)%nat.
Proof.
  induction env as [|[y us] env IH]; simpl; [done|]. unfold bound in *. simpl.
  destruct (bool_decide (x = y)); simpl; lia.
Qed.

(** ** ... and in memory *)

Definition name_in (l : loc) (x : list Z) (b : list (fld Z)) : hprop :=
  (l ↦ b ∗ ⌈Forall (fun c => c <> 0) x /\ exists rest, b = (Det <$> x) ++ Det 0 :: rest⌉)%I.
Definition name_at (l : loc) (x : list Z) : hprop := (∃ b, name_in l x b)%I.

Definition entry_at (x : list Z) (ts : list tree) (l : loc) (next : ptr) : hprop :=
  (∃ name v, l ↦ mk_dict name v next ∗ name_at name x ∗ forest_at ts v)%I.

Fixpoint dict_at (env : denv) (d : ptr) : hprop :=
  match env with
  | [] => ⌈d = None⌉
  | (x, ts) :: env => ∃ l nx, ⌈d = Some l⌉ ∗ entry_at x ts l nx ∗ dict_at env nx
  end%I.

Lemma entry_cells x ts l nx : entry_at x ts l nx ⊢ cells 1.
Proof.
  iIntros "(%name & %v & Hl & Hn & Hts)". iDestruct (cells_points_to with "Hl") as "Hl".
  iDestruct (cells_any with "Hn") as "Hn". iDestruct (cells_any with "Hts") as "Hts".
  iDestruct (cells_sep with "[$Hl $Hn]") as "H". by iDestruct (cells_sep with "[$H $Hts]") as "H".
Qed.

Lemma dict_cells env d : dict_at env d ⊢ cells (length env).
Proof.
  revert d. induction env as [|[x ts] env IH]; intros d; simpl; [apply cells_any|].
  iIntros "(%l & %nx & _ & He & Hd)". iDestruct (entry_cells with "He") as "He".
  iDestruct (IH with "Hd") as "Hd". by iDestruct (cells_sep with "[$He $Hd]") as "H".
Qed.

(** ** The printed texts *)

Lemma wp_printf s o Φ : g_stdout ↦ o -∗ (g_stdout ↦ (o ++ s) -∗ Φ ()) -∗ wp (printf s) Φ.
Proof.
  iIntros "Ho HΦ". unfold printf. wp_bind_head. iApply (wp_gget with "Ho"). iIntros "Ho".
  iApply (wp_gset with "Ho HΦ").
Qed.

Lemma name_string l x b Φ :
  name_in l x b -∗ (name_in l x b -∗ Φ x) -∗ wp (load_string (Some (l, 0))) Φ.
Proof.
  iIntros "(Hl & %Hx) HΦ". destruct Hx as (Hx & rest & ->).
  iApply (wp_load_string with "Hl"); [done|]. iIntros "Hl". iApply "HΦ". iFrame.
  iPureIntro. split; [done|by exists rest].
Qed.

Lemma wp_printf_s pre l x b post o Φ :
  name_in l x b -∗ g_stdout ↦ o -∗
  (name_in l x b -∗ g_stdout ↦ (o ++ txt pre ++ x ++ txt post ++ [c_lf]) -∗ Φ ()) -∗
  wp (printf_s pre (Some (l, 0)) post) Φ.
Proof.
  iIntros "Hl Ho HΦ". unfold printf_s. wp_bind_head. iApply (name_string with "Hl").
  iIntros "Hl". iApply (wp_printf with "Ho"). iIntros "Ho". iApply ("HΦ" with "Hl Ho").
Qed.

Lemma wp_strcmp_names l x b k y b' Φ :
  name_in l x b -∗ name_in k y b' -∗
  (name_in l x b -∗ name_in k y b' -∗ Φ (bool_decide (x = y))) -∗
  wp (strcmp_eq (Some (l, 0)) (Some (k, 0))) Φ.
Proof.
  iIntros "Hl Hk HΦ". unfold strcmp_eq. wp_bind_head. iApply (name_string with "Hl").
  iIntros "Hl". wp_bind_head. iApply (name_string with "Hk"). iIntros "Hk". iApply wp_ret.
  iApply ("HΦ" with "Hl Hk").
Qed.

(** The text of an expression has no NUL, for the strings of its atoms have
    none. *)
Lemma Forall_escape s : Forall (fun c => c <> 0) s -> Forall (fun c => c <> 0) (escape s).
Proof.
  induction 1 as [|c s Hc _ IH]; [done|]. unfold escape. simpl. apply Forall_app. split; [|done].
  unfold escape_char. destruct (_ || _); repeat constructor; done.
Qed.

Lemma atom_text_no_nul aty s :
  Forall (fun c => c <> 0) s -> Forall (fun c => c <> 0) (atom_text aty s).
Proof.
  intros Hs. destruct aty; simpl; try done; constructor; try done.
  apply Forall_app. split; [by apply Forall_escape|by constructor].
Qed.

Lemma join_chars t ts :
  Forall (fun c => c <> 0) (tree_text t) -> Forall (fun c => c <> 0) (join tree_text ts) ->
  Forall (fun c => c <> 0) (join tree_text (t :: ts)).
Proof.
  intros Ht Hts. destruct ts; simpl; [done|]. apply Forall_app. split; [done|by constructor].
Qed.

Lemma forest_text_chars ts : forall p q,
  seg ts p q ⊢ ⌜forallb textual ts = true -> Forall (fun c => c <> 0) (join tree_text ts)⌝.
Proof.
  induction ts as [|aty s ts IH|d ts IH|us ts IHu IH] using forest_ind; intros p q.
  - by iIntros "_ !%".
  - rewrite seg_cons. iIntros "(%l & %nx & _ & Ht & Hts)". rewrite tree_at_atom.
    iDestruct "Ht" as (e lv b) "(%He & _)". iDestruct (IH with "Hts") as %Hts.
    iPureIntro. intros Htx. apply join_chars; [|by apply Hts].
    apply atom_text_no_nul, (ae_chars _ _ _ _ _ _ He).
  - by iIntros "_ !%".
  - rewrite seg_cons. iIntros "(%l & %nx & _ & Ht & Hts)". rewrite tree_at_node.
    iDestruct "Ht" as (e r) "(_ & _ & Hus)". iDestruct (IH with "Hts") as %Hts.
    iDestruct (IHu with "Hus") as %Hus. iPureIntro. simpl forallb. intros [Hu Ht]%andb_true_iff.
    apply join_chars; [|by apply Hts]. constructor; [done|]. apply Forall_app.
    split; [by apply Hus|by constructor].
Qed.

Lemma tree_text_chars t l nx :
  textual t = true -> tree_at t l nx ⊢ ⌜Forall (fun c => c <> 0) (tree_text t)⌝.
Proof.
  intros Ht. iIntros "H". iDestruct (forest_text_chars [t] (Some l) nx with "[H]") as %Hf.
  { rewrite seg_single. iExists l. by iFrame. }
  iPureIntro. apply Hf. by rewrite /= Ht.
Qed.

#[local] Existing Instances default_mem cached_pool.

(** [print_sexp] into a whole block: the text or the part that fits. *)
Definition printed (size : Z) (t : tree) : list Z := take (Z.to_nat (size - 1)) (tree_text t).

Lemma wp_print_block lb (b : list (fld Z)) size t l nx n m Φ :
  0 < size < 2 ^ 64 -> size = Z.of_nat (length b) -> textual t = true ->
  Z.of_nat n < int_max -> Z.of_nat (tree_size t) < int_max ->
  lb ↦ b -∗ tree_at t l nx -∗ mem_ok -∗ pool_ok n m -∗ errno_own -∗
  (∀ r (b' : list (fld Z)), lb ↦ b' -∗
     ⌈Forall (fun c => c <> 0) (printed size t) /\ length b' = length b /\
      exists rest, b' = (Det <$> printed size t) ++ Det 0 :: rest⌉ -∗
     tree_at t l nx -∗ mem_ok -∗ pool_ok (S n) m -∗ errno_own -∗ Φ r) -∗
  wp (print_sexp (Some (lb, 0)) size (Some l)) Φ.
Proof.
  iIntros (Hsize Hb Htx Hn Hts) "Hb Ht Hm Hp He HΦ".
  iDestruct (tree_text_chars with "Ht") as %Hch; [done|].
  assert (Forall (fun c => c <> 0) (printed size t)) as Hpr by by apply Forall_take.
  set (b' := (Det <$> printed size t ++ [c_nul]) ++ drop (length (printed size t ++ [c_nul])) b).
  assert (Forall (fun c => c <> 0) (printed size t) /\ length b' = length b /\
    exists rest, b' = (Det <$> printed size t) ++ Det 0 :: rest) as Hb'.
  { split_and!; [done| |].
    - unfold b'. rewrite length_app length_fmap length_drop !length_app /=.
      unfold printed. rewrite length_take. lia.
    - unfold b'. rewrite fmap_app -assoc_L /=. by eexists. }
  iApply (wp_print_sexp lb [] b with "Hb Ht Hm Hp He"); try done; [lia|]. iSplit.
  - iIntros "%Hlt Ho Hm Hp He Ht". iApply ("HΦ" $! _ b' with "[Ho] [//] Ht Hm Hp He").
    unfold b', printed. rewrite take_ge //. lia.
  - iIntros "(%Hge & Ht & Hm & Hp & He & Ho)".
    iApply ("HΦ" $! _ b' with "[Ho] [//] Ht Hm Hp [He]"); [iExact "Ho"|by iExists _].
Qed.

(** ** [insert] *)

(** What [insert] writes. *)
Definition insert_text (x : list Z) (t : tree) : list Z :=
  txt "Inserting " ++ x ++ txt " into dictionary." ++ [c_lf] ++
  x ++ txt " value is : " ++ printed BUFSIZ t ++ [c_lf].

Lemma wp_insert_messages k x kb t l nx o n m Φ :
  textual t = true -> Z.of_nat n < int_max -> Z.of_nat (tree_size t) < int_max ->
  name_in k x kb -∗ tree_at t l nx -∗ mem_ok -∗ pool_ok n m -∗ errno_own -∗ g_stdout ↦ o -∗
  (name_in k x kb -∗ tree_at t l nx -∗ mem_ok -∗ pool_ok (S n) m -∗ errno_own -∗
     g_stdout ↦ (o ++ insert_text x t) -∗ Φ ()) -∗
  wp (insert_messages (Some (k, 0)) (Some l)) Φ.
Proof.
  iIntros (Ht Hn Hts) "Hk Hl Hm Hp He Ho HΦ". unfold insert_messages.
  wp_bind_head. iApply wp_alloc. iIntros (db) "Hb". wp_bind_head.
  iApply (wp_printf_s with "Hk Ho"). iIntros "Hk Ho". wp_bind_head.
  iApply (wp_print_block with "Hb Hl Hm Hp He"); try done. iIntros (r b) "Hb %Hb Hl Hm Hp He".
  destruct Hb as (Hch & _ & rest & ->). wp_bind_head. iApply (name_string with "Hk").
  iIntros "Hk". wp_bind_head. iApply (wp_load_string with "Hb"); [done|]. iIntros "Hb".
  wp_bind_head.
  iApply (wp_printf with "Ho"). iIntros "Ho". iApply (wp_dealloc with "Hb").
  iApply ("HΦ" with "Hk Hl Hm Hp He"). unfold insert_text. by rewrite -!(assoc_L app).
Qed.

Lemma wp_new_entry k x kb v ts Φ :
  (length x < Z.to_nat varname_size)%nat ->
  name_in k x kb -∗ forest_at ts v -∗ mem_ok -∗
  (∀ l, name_in k x kb -∗ dict_at [(x, ts)] (Some l) -∗ mem_ok -∗ Φ (Some l)) -∗
  wp (new_entry (Some (k, 0)) v) Φ.
Proof.
  iIntros (Hx) "(Hk & %Hkb) Hts Hm HΦ". destruct Hkb as (Hch & rest & ->). unfold new_entry. wp_bind_head.
  iApply (wp_malloc_ok with "Hm"). iIntros (l) "Hl Hm". wp_bind_head. iApply wp_alloc.
  iIntros (name) "Hn". wp_bind_head. iApply (wp_init with "Hl"). iIntros "Hl". wp_bind_head.
  iApply (wp_strcpy with "Hn Hk"); [done|by rewrite length_replicate|]. iIntros "Hn Hk".
  iApply wp_ret. iApply ("HΦ" with "[Hk] [Hl Hn Hts] Hm"); [iFrame; eauto|].
  iExists l, None. iSplit; [done|]. iSplit; [|done]. iExists name, v. iFrame "Hl Hts".
  iExists _. iFrame. eauto.
Qed.

(** The loop finds the name and replaces its expression, or ends at the last
    entry. *)
Lemma wp_insert_loop k x kb v ts env : forall l fuel n m Φ,
  env <> [] -> (length env < fuel)%nat -> Z.of_nat (n + forest_size (bound env x)) <= int_max ->
  name_in k x kb -∗ forest_at ts v -∗ dict_at env (Some l) -∗ mem_ok -∗ pool_ok n m -∗
  (∀ p found, name_in k x kb -∗ mem_ok -∗ pool_ok (n + forest_size (bound env x)) m -∗
     (if found : bool then dict_at (bind x ts env) (Some l)
      else ∃ e q, ⌈p = Some q⌉ ∗ q ↦ e ∗ forest_at ts v ∗
        ∀ n', q ↦ (e <| dict_next := n' |>) -∗ dict_at [(x, ts)] n' -∗
          dict_at (bind x ts env) (Some l)) -∗ Φ (p, found)) -∗
  wp (while fuel (insert_body (Some (k, 0)) v) (Some l, false)) Φ.
Proof.
  induction env as [|[y us] env IH]; intros l fuel n m Φ Hne Hf Hn; [done|].
  destruct fuel as [|fuel]; [lia|]. simpl in Hf. unfold bound in *.
  iIntros "Hk Hts (%l' & %nx & %Hl & (%name & %w & Hl & (%nb & Hname) & Hus) & Hd) Hm Hp HΦ".
  injection Hl as <-. cbn [while]. unfold insert_body at 2. wp_bind_head. simpl fst.
  wp_bind_head. iApply (wp_load with "Hl"). iIntros "Hl". fields. wp_bind_head.
  iApply (wp_strcmp_names with "Hname Hk"). iIntros "Hname Hk".
  cbn [bind binding] in *. destruct (decide (y = x)) as [->|Hyx].
  - rewrite !(bool_decide_eq_true_2 (x = x)) // in Hn |- *. simpl default in *.
    wp_bind_head. iApply (wp_destroy_sexp with "Hus Hp Hm"); [done|]. iIntros "Hp Hm".
    wp_bind_head. iApply (wp_modify with "Hl"). iIntros "Hl". fields. wp_ret. iApply wp_ret.
    iApply ("HΦ" with "Hk Hm Hp"). iExists l, nx. iFrame "Hd". iSplit; [done|].
    iExists name, v. iFrame.
  - rewrite (bool_decide_eq_false_2 (y = x)) // in Hn |- *.
    rewrite (bool_decide_eq_false_2 (x = y)) // in Hn |- *.
    destruct nx as [l'|].
    + destruct env as [|[z vs] env].
      { iDestruct "Hd" as %?. done. }
      wp_ret. iApply (IH with "Hk Hts Hd Hm Hp"); [done|lia|done|].
      iIntros (p found) "Hk Hm Hp H". iApply ("HΦ" with "Hk Hm Hp").
      set (env' := (z, vs) :: env) in *. destruct found.
      * iExists l, (Some l'). iFrame "H". iSplit; [done|]. iExists name, w. iFrame.
      * iDestruct "H" as (e q) "(-> & Hq & Hts & H)". iExists e, q. iFrame "Hq Hts".
        iSplit; [done|]. iIntros (n') "Hq Hn'". iExists l, (Some l').
        iSplit; [done|]. iSplitL "Hl Hname Hus"; [iExists name, w; iFrame|].
        iApply ("H" with "Hq Hn'").
    + destruct env as [|[z vs] env]; [|iDestruct "Hd" as (? ?) "[%Hnil Hd]"; done].
      iDestruct "Hd" as "_". wp_ret. iApply wp_ret. simpl forest_size in *. rewrite Nat.add_0_r.
      iApply ("HΦ" with "Hk Hm Hp"). iExists _, l. iFrame "Hl Hts". iSplit; [done|].
      iIntros (n') "Hl Hn'". fields. iExists l, n'. iSplit; [done|]. iFrame "Hn'".
      iExists name, w. iFrame.
Qed.

(** [insert] binds a name. *)
Lemma wp_dict_insert k x kb t ts l nx env d o n m Φ :
  textual t = true -> (length x < Z.to_nat varname_size)%nat ->
  Z.of_nat (tree_size t) < int_max ->
  Z.of_nat (S n + forest_size (bound env x)) <= int_max ->
  name_in k x kb -∗ tree_at t l nx -∗ forest_at ts nx -∗ dict_at env d -∗
  mem_ok -∗ pool_ok n m -∗ errno_own -∗ g_stdout ↦ o -∗
  (∀ d', name_in k x kb -∗ dict_at (bind x (t :: ts) env) d' -∗
     mem_ok -∗ pool_ok (S n + forest_size (bound env x)) m -∗ errno_own -∗
     g_stdout ↦ (o ++ insert_text x t) -∗ Φ d') -∗
  wp (dict_insert (Some (k, 0)) (Some l) d) Φ.
Proof.
  iIntros (Ht Hx Hts Hn) "Hk Hl Hts Hd Hm Hp He Ho HΦ". unfold dict_insert. wp_bind_head.
  iApply (wp_insert_messages with "Hk Hl Hm Hp He Ho"); [done|lia|done|].
  iIntros "Hk Hl Hm Hp He Ho".
  iAssert (forest_at (t :: ts) (Some l)) with "[Hl Hts]" as "Hts".
  { iExists l, nx. by iFrame. }
  destruct env as [|e env].
  - iDestruct "Hd" as %->. iApply (wp_new_entry with "Hk Hts Hm"); [done|].
    iIntros (l') "Hk Hd Hm". rewrite /bound /= Nat.add_0_r.
    iApply ("HΦ" with "Hk Hd Hm Hp He Ho").
  - iAssert (∃ l', ⌈d = Some l'⌉ ∗ dict_at (e :: env) (Some l'))%I with "[Hd]" as (l') "[-> Hd]".
    { destruct e as [y us]. iDestruct "Hd" as (l' nx') "(-> & Hd)". iExists l'.
      iSplit; [done|]. iExists l', nx'. by iFrame. }
    wp_bind_head. iApply (wp_heap_fuel (length (e :: env)) with "Hd"); [apply dict_cells|].
    iIntros (fuel) "%Hf Hd". wp_bind_head.
    iApply (wp_insert_loop with "Hk Hts Hd Hm Hp"); [done|done|lia|].
    iIntros (p found) "Hk Hm Hp H". destruct found.
    { iApply wp_ret. iApply ("HΦ" with "Hk H Hm Hp He Ho"). }
    iDestruct "H" as (e' q) "(-> & Hq & Hts & Hd)". wp_bind_head.
    iApply (wp_new_entry with "Hk Hts Hm"); [done|]. iIntros (l2) "Hk Hn Hm". wp_bind_head.
    iApply (wp_modify with "Hq"). iIntros "Hq". iApply wp_ret.
    iApply ("HΦ" with "Hk [Hq Hn Hd] Hm Hp He Ho"). iApply ("Hd" with "Hq Hn").
Qed.

(** ** [purge_all] *)

Definition purge_text (env : denv) : list Z :=
  env ≫= fun e => txt "PURGING: " ++ e.1 ++ [c_lf].

Lemma wp_purge_loop env : forall d fuel o n m Φ,
  (length env < fuel)%nat -> Z.of_nat (n + env_size env) <= int_max ->
  dict_at env d -∗ mem_ok -∗ pool_ok n m -∗ g_stdout ↦ o -∗
  (mem_ok -∗ pool_ok (n + env_size env) m -∗ g_stdout ↦ (o ++ purge_text env) -∗ Φ None) -∗
  wp (while fuel purge_body d) Φ.
Proof.
  induction env as [|[x ts] env IH]; intros d [|fuel] o n m Φ Hf Hn; simpl in Hf; try lia.
  - iIntros "-> Hm Hp Ho HΦ". cbn [while]. unfold purge_body at 2. wp_ret. iApply wp_ret.
    rewrite /= Nat.add_0_r app_nil_r. iApply ("HΦ" with "Hm Hp Ho").
  - iIntros "(%l & %nx & -> & (%name & %v & Hl & (%nb & Hname) & Hts) & Hd) Hm Hp Ho HΦ".
    simpl in Hn. cbn [while]. unfold purge_body at 2. wp_bind_head. wp_bind_head.
    iApply (wp_load with "Hl"). iIntros "Hl". fields. wp_bind_head.
    iApply (wp_printf_s with "Hname Ho"). iIntros "[Hname _] Ho". wp_bind_head.
    iApply (wp_destroy_sexp with "Hts Hp Hm"); [lia|]. iIntros "Hp Hm". wp_bind_head.
    iApply (wp_dealloc with "Hname"). wp_bind_head. iApply (wp_dealloc with "Hl"). wp_ret.
    iApply (IH with "Hd Hm Hp Ho"); [lia|lia|]. iIntros "Hm Hp Ho".
    change (env_size ((x, ts) :: env)) with (forest_size ts + env_size env)%nat.
    rewrite Nat.add_assoc. iApply ("HΦ" with "Hm Hp"). unfold purge_text.
    rewrite bind_cons -!(assoc_L app). iExact "Ho".
Qed.

Lemma wp_purge_all env d o n m Φ :
  Z.of_nat (n + env_size env) <= int_max ->
  dict_at env d -∗ mem_ok -∗ pool_ok n m -∗ g_stdout ↦ o -∗
  (mem_ok -∗ pool_ok (n + env_size env) m -∗ g_stdout ↦ (o ++ purge_text env) -∗ Φ ()) -∗
  wp (purge_all d) Φ.
Proof.
  iIntros (Hn) "Hd Hm Hp Ho HΦ". unfold purge_all. wp_bind_head.
  iApply (wp_heap_fuel (length env) with "Hd"); [apply dict_cells|].
  iIntros (fuel) "%Hf Hd". wp_bind_head. iApply (wp_purge_loop with "Hd Hm Hp Ho"); [done|done|].
  iIntros "Hm Hp Ho". iApply wp_ret. iApply ("HΦ" with "Hm Hp Ho").
Qed.
