(* ===== verification/SimpleInterpSpec.v ===== *)
(** What the interpreter [SimpleInterp] prints: an evaluator on values, and
    the program against it. *)
From Stdlib Require Import Ascii String.
From S2P Require Import Prelude SexpTypes CMem SepLogic SexpMemory FastStack CLib ElementPool.
From S2P Require Import Trees Sexp Print Parser Io Vis Machine Syntax PrintSpec Frozen SimpleInterp.
From S2P Require Import DictSpec.

#[local] Open Scope list_scope.
#[local] Existing Instances default_mem cached_pool.

(** ** The evaluator on values *)

Section command.
Variables (env : denv) (rec : tree -> option (list Z)).

(** An expression or a command that the program is not defined for has no
    result: a name without a definition, a missing argument, [()], a [setq]
    that is not a whole line. *)
Definition e_variable (t : tree) : option (list Z) :=
  match t with
  | Atom _ x =>
      match bound env x with
      | u :: _ => o ← rec u; Some (txt "Lookup : " ++ x ++ [c_lf] ++ o)
      | [] => None
      end
  | _ => None
  end.

Definition e_two_variables (title : string) (args : list tree) : option (list Z) :=
  match args with
  | a :: b :: _ =>
      o1 ← e_variable a; o2 ← e_variable b; Some (txt title ++ [c_lf] ++ o1 ++ o2)
  | _ => None
  end.

Definition e_one_variable (title : string) (args : list tree) : option (list Z) :=
  match args with
  | a :: _ => o ← e_variable a; Some (txt title ++ [c_lf] ++ o)
  | _ => None
  end.

Definition e_point (args : list tree) : option (list Z) :=
  match args with
  | Atom _ x :: Atom _ y :: _ => Some (txt "POINT AT: " ++ x ++ txt "," ++ y ++ [c_lf])
  | _ => None
  end.

Definition e_drawing (t : tree) : option (list Z) :=
  o ← match t with Node _ => rec t | _ => e_variable t end; Some (txt "DRAWING: " ++ o).

Fixpoint e_draw (args : list tree) : option (list Z) :=
  match args with
  | [] => Some []
  | t :: args => o1 ← e_drawing t; o2 ← e_draw args; Some (o1 ++ o2)
  end.

Definition e_segment (args : list tree) : option (list Z) :=
  match args with
  | a :: b :: _ => o1 ← rec a; o2 ← rec b; Some (txt "SEGMENT:" ++ [c_lf] ++ o1 ++ o2)
  | _ => None
  end.

Definition e_command (v : list Z) (args : list tree) : option (list Z) :=
  let named (s : string) := bool_decide (v = txt s) in
  if named "setq" then None
  else if named "circle" then e_two_variables "CIRCLE: " args
  else if named "point" then e_point args
  else if named "section" then e_two_variables "SECTION: " args
  else if named "draw" then e_draw args
  else if named "segment" then e_segment args
  else if named "point1" then e_one_variable "POINT1 OF :" args
  else if named "point2" then e_one_variable "POINT2 OF :" args
  else Some (txt "EVAL: Unknown = " ++ v ++ [c_lf]).
End command.

(** The bound is on the depth of the recursion. *)
Fixpoint evaluate (n : nat) (env : denv) (t : tree) : option (list Z) :=
  match n with
  | O => None
  | S n =>
      match t with
      | Node (Atom _ v :: args) => e_command env (evaluate n env) v args
      | Node (Node _ :: _) => Some []
      | Node _ => None
      | _ => Some []
      end
  end.

(** ** Reading the dictionary *)

Lemma has_name h l x :
  has h (name_at l x) ->
  Forall (fun c => c <> 0) x /\
  exists rest, h !! l = Some (CChars ((Det <$> x) ++ Det 0 :: rest)).
Proof.
  intros [b [Hl%has_cell (Hx & rest & ->)%has_pure]%has_sep]%has_exist. eauto.
Qed.

Lemma has_atom_name h aty x l nx :
  has h (tree_at (Atom aty x) l nx) ->
  exists e k, h !! l = Some (CSexp e) /\ elt_val e = Det (Some k) /\
    Forall (fun c => c <> 0) x /\
    exists rest, h !! k = Some (CChars ((Det <$> x) ++ Det 0 :: rest)).
Proof.
  intros (e & k & rest & Hl & Hk & He)%has_atom. exists e, k.
  destruct He. split_and!; try done. by exists rest.
Qed.

Section frozen.
Variables (h : heap) (k : loc) (x : list Z) (krest : list (fld Z)).
Hypotheses (Hx : Forall (fun c => c <> 0) x)
  (Hk : h !! k = Some (CChars ((Det <$> x) ++ Det 0 :: krest))).

Lemma wp_lookup_loop env : forall d fuel Φ,
  has h (dict_at env d) -> (length env < fuel)%nat ->
  own h -∗
  (∀ p r, ⌈has h (forest_at (bound env x) (default None r))⌉ -∗ own h -∗ Φ (p, r)) -∗
  wp (while fuel (lookup_body (Some (k, 0))) (d, None)) Φ.
Proof.
  induction env as [|[y ts] env IH]; intros d [|fuel] Φ Hd Hf; simpl in Hf; try lia;
    iIntros "Hh HΦ"; cbn [while]; unfold lookup_body at 2; simpl fst.
  - apply has_pure in Hd as ->. wp_ret. iApply wp_ret. iApply ("HΦ" with "[] Hh").
    iPureIntro. apply has_nil.
  - apply has_exist in Hd as [l Hd]. apply has_exist in Hd as [nx Hd].
    apply has_sep in Hd as [->%has_pure [He Hd]%has_sep].
    apply has_exist in He as [name He]. apply has_exist in He as [v He].
    apply has_sep in He as [Hl%has_cell [[Hy [rest Hname]]%has_name Hts]%has_sep].
    wp_bind_head. wp_bind_head. iApply (wp_load_own with "Hh"); [exact Hl|]. iIntros "Hh".
    fields. wp_bind_head. unfold strcmp_eq. wp_bind_head.
    iApply (wp_load_string_own with "Hh"); [exact Hx|exact Hk|]. iIntros "Hh". wp_bind_head.
    iApply (wp_load_string_own with "Hh"); [exact Hy|exact Hname|]. iIntros "Hh". wp_ret.
    unfold bound in *. cbn [binding]. destruct (bool_decide (x = y)).
    + wp_ret. iApply wp_ret. by iApply ("HΦ" with "[] Hh").
    + wp_ret. iApply (IH with "Hh HΦ"); [done|lia].
Qed.

(** [lookup] finds the first element that is bound to the name. *)
Lemma wp_dict_lookup env d o Φ :
  has h (dict_at env d) ->
  own h -∗ g_stdout ↦ o -∗
  (∀ v, ⌈has h (forest_at (bound env x) v)⌉ -∗ own h -∗
     g_stdout ↦ (o ++ txt "Lookup : " ++ x ++ [c_lf]) -∗ Φ v) -∗
  wp (dict_lookup (Some (k, 0)) d) Φ.
Proof.
  iIntros (Hd) "Hh Ho HΦ". unfold dict_lookup, printf_s. wp_bind_head. wp_bind_head.
  iApply (wp_load_string_own with "Hh"); [exact Hx|exact Hk|]. iIntros "Hh".
  iApply (wp_printf with "Ho"). iIntros "Ho". wp_bind_head.
  iApply (wp_heap_fuel (size h) with "Hh"); [apply own_cells|]. iIntros (fuel) "%Hf Hh".
  pose proof (has_size _ _ _ (dict_cells env d) Hd). wp_bind_head.
  iApply (wp_lookup_loop with "Hh"); [done|lia|]. iIntros (p r) "%Hr Hh". iApply wp_ret.
  by iApply ("HΦ" with "[] Hh Ho").
Qed.
End frozen.

(** ** The evaluator of the program *)

Section commands.
(** Memory that holds the dictionary, and a recursive call that is right for
    the expressions in it. *)
Variables (h : heap) (env : denv) (d : ptr) (rec : tree -> option (list Z))
  (call : ptr -> ptr -> M ptr).
Hypotheses (Hd : has h (dict_at env d))
  (Hcall : forall t l nx out o Φ, rec t = Some out -> has h (tree_at t l nx) ->
    own h -∗ g_stdout ↦ o -∗ (own h -∗ g_stdout ↦ (o ++ out) -∗ Φ d) -∗
    wp (call (Some l) d) Φ).

(** [m] writes [out], leaves the memory as it is and returns the
    dictionary. *)
Definition writes (m : M ptr) (out : list Z) : Prop :=
  forall o Φ, own h -∗ g_stdout ↦ o -∗ (own h -∗ g_stdout ↦ (o ++ out) -∗ Φ d) -∗ wp m Φ.

Lemma wp_val_of aty x l nx Φ :
  has h (tree_at (Atom aty x) l nx) ->
  own h -∗
  (∀ k rest, ⌈Forall (fun c => c <> 0) x /\
     h !! k = Some (CChars ((Det <$> x) ++ Det 0 :: rest))⌉ -∗ own h -∗ Φ (Some (k, 0))) -∗
  wp (val_of (Some l)) Φ.
Proof.
  iIntros (Ht) "Hh HΦ". destruct (has_atom_name _ _ _ _ _ Ht) as (e & k & Hl & Hv & Hx & rest & Hk).
  unfold val_of. wp_bind_head. iApply (wp_load_own with "Hh"); [exact Hl|]. iIntros "Hh".
  rewrite Hv. wp_det. iApply wp_ret. by iApply ("HΦ" with "[] Hh").
Qed.

Lemma wp_next_of t ts p Φ :
  has h (forest_at (t :: ts) p) ->
  own h -∗ (∀ q, ⌈has h (forest_at ts q)⌉ -∗ own h -∗ Φ q) -∗ wp (next_of p) Φ.
Proof.
  iIntros (Hts) "Hh HΦ". apply has_forest_cons in Hts as (l & nx & -> & Ht & Hts).
  apply has_head in Ht as (e & Hl & _ & He). unfold next_of. wp_bind_head.
  iApply (wp_load_own with "Hh"); [exact Hl|]. iIntros "Hh". rewrite He. iApply wp_ret.
  by iApply ("HΦ" with "[] Hh").
Qed.

Section args.
Variables (v : tree) (args : list tree) (l : loc) (nx : ptr).
Hypothesis Hexp : has h (tree_at (Node (v :: args)) l nx).

Lemma wp_first_arg Φ :
  own h -∗ (∀ p, ⌈has h (forest_at args p)⌉ -∗ own h -∗ Φ p) -∗ wp (first_arg (Some l)) Φ.
Proof.
  iIntros "Hh HΦ". apply has_node in Hexp as (e & p & Hl & He & Hp). unfold first_arg.
  wp_bind_head. iApply (wp_load_own with "Hh"); [exact Hl|]. iIntros "Hh".
  rewrite (le_list _ _ _ He). by iApply (wp_next_of with "Hh").
Qed.

Lemma wp_second_arg a args' Φ :
  args = a :: args' ->
  own h -∗ (∀ p, ⌈has h (forest_at args' p)⌉ -∗ own h -∗ Φ p) -∗ wp (second_arg (Some l)) Φ.
Proof.
  iIntros (Hargs) "Hh HΦ". unfold second_arg. wp_bind_head.
  iApply (wp_first_arg with "Hh"). iIntros (p) "%Hp Hh". rewrite Hargs in Hp.
  by iApply (wp_next_of with "Hh").
Qed.
End args.

Lemma writes_variable t ts p out :
  has h (forest_at (t :: ts) p) -> e_variable env rec t = Some out ->
  writes (eval_variable call p d) out.
Proof.
  iIntros (Hts Ht o Φ) "Hh Ho HΦ". apply has_forest_cons in Hts as (l & nx & -> & Hl & _).
  destruct t as [aty x| |]; [|done..]. simpl in Ht.
  destruct (bound env x) as [|u us] eqn:Hb; [done|]. apply bind_Some in Ht as (o1 & Ho1 & [= <-]).
  unfold eval_variable. wp_bind_head. iApply (wp_val_of with "Hh"); [done|].
  iIntros (k rest) "%Hk Hh". destruct Hk as [Hx Hk]. wp_bind_head.
  iApply (wp_dict_lookup with "Hh Ho"); [done..|]. iIntros (w) "%Hw Hh Ho".
  rewrite Hb in Hw. apply has_forest_cons in Hw as (l' & nx' & -> & Hu & _).
  iApply (Hcall with "Hh Ho"); [exact Ho1|exact Hu|]. iIntros "Hh Ho". iApply ("HΦ" with "Hh").
  by rewrite -!(assoc_L app).
Qed.

Lemma writes_two_variables title v args l nx out :
  has h (tree_at (Node (v :: args)) l nx) -> e_two_variables env rec title args = Some out ->
  writes (eval_two_variables call title (Some l) d) out.
Proof.
  iIntros (Hexp Hout o Φ) "Hh Ho HΦ". destruct args as [|a [|b args]]; [done..|].
  apply bind_Some in Hout as (o1 & Ho1 & (o2 & Ho2 & [= <-])%bind_Some).
  unfold eval_two_variables, print_line. wp_bind_head. iApply (wp_printf with "Ho"). iIntros "Ho".
  wp_bind_head. iApply (wp_first_arg with "Hh"); [done|]. iIntros (p) "%Hp Hh". wp_bind_head.
  iApply (writes_variable with "Hh Ho"); [done..|]. iIntros "Hh Ho". wp_bind_head.
  iApply (wp_second_arg with "Hh"); [done..|]. iIntros (q) "%Hq Hh".
  iApply (writes_variable with "Hh Ho"); [done..|]. iIntros "Hh Ho". iApply ("HΦ" with "Hh").
  by rewrite -!(assoc_L app).
Qed.

Lemma writes_one_variable title v args l nx out :
  has h (tree_at (Node (v :: args)) l nx) -> e_one_variable env rec title args = Some out ->
  writes (eval_one_variable call title (Some l) d) out.
Proof.
  iIntros (Hexp Hout o Φ) "Hh Ho HΦ". destruct args as [|a args]; [done|].
  apply bind_Some in Hout as (o1 & Ho1 & [= <-]).
  unfold eval_one_variable, print_line. wp_bind_head. iApply (wp_printf with "Ho"). iIntros "Ho".
  wp_bind_head. iApply (wp_first_arg with "Hh"); [done|]. iIntros (p) "%Hp Hh".
  iApply (writes_variable with "Hh Ho"); [done..|]. iIntros "Hh Ho". iApply ("HΦ" with "Hh").
  by rewrite -!(assoc_L app).
Qed.

Lemma writes_point v args l nx out :
  has h (tree_at (Node (v :: args)) l nx) -> e_point args = Some out ->
  writes (eval_point (Some l) d) out.
Proof.
  iIntros (Hexp Hout o Φ) "Hh Ho HΦ".
  destruct args as [|[aty x| |] [|[aty' y| |] args]]; try done. injection Hout as <-.
  unfold eval_point. wp_bind_head. iApply (wp_first_arg with "Hh"); [done|].
  iIntros (p) "%Hp Hh". apply has_forest_cons in Hp as (l1 & n1 & -> & Ht1 & _). wp_bind_head.
  iApply (wp_val_of with "Hh"); [done|]. iIntros (k1 r1) "%Hk1 Hh". destruct Hk1 as [Hx Hk1].
  wp_bind_head. iApply (wp_second_arg with "Hh"); [done..|].
  iIntros (q) "%Hq Hh". apply has_forest_cons in Hq as (l2 & n2 & -> & Ht2 & _). wp_bind_head.
  iApply (wp_val_of with "Hh"); [done|]. iIntros (k2 r2) "%Hk2 Hh". destruct Hk2 as [Hy Hk2].
  wp_bind_head. iApply (wp_load_string_own with "Hh"); [exact Hx|exact Hk1|]. iIntros "Hh".
  wp_bind_head. iApply (wp_load_string_own with "Hh"); [exact Hy|exact Hk2|]. iIntros "Hh".
  wp_bind_head. iApply (wp_printf with "Ho"). iIntros "Ho". iApply wp_ret.
  iApply ("HΦ" with "Hh Ho").
Qed.

(** One round of the loop of [draw]. *)
Lemma wp_drawing t ts p out o Φ :
  has h (forest_at (t :: ts) p) -> e_drawing env rec t = Some out ->
  own h -∗ g_stdout ↦ o -∗
  (∀ q, ⌈has h (forest_at ts q)⌉ -∗ own h -∗ g_stdout ↦ (o ++ out) -∗ Φ (inl (q, d))) -∗
  wp (draw_body call (p, d)) Φ.
Proof.
  iIntros (Hts Ht) "Hh Ho HΦ". apply bind_Some in Ht as (o1 & Ho1 & [= <-]).
  pose proof (has_forest_cons _ _ _ _ Hts) as (l & nx & -> & Hl & _).
  pose proof (has_head _ _ _ _ Hl) as (e & He & Hty & _). unfold draw_body. wp_bind_head.
  iApply (wp_printf with "Ho"). iIntros "Ho". wp_bind_head.
  iApply (wp_load_own with "Hh"); [exact He|]. iIntros "Hh". rewrite Hty. wp_det. wp_bind_head.
  iAssert (wp (match elt_kind t with
               | SEXP_VALUE => eval_variable call (Some l) d | SEXP_LIST => call (Some l) d end)
             (fun d' => ⌈d' = d⌉ ∗ own h ∗ g_stdout ↦ ((o ++ txt "DRAWING: ") ++ o1)))%I
    with "[Hh Ho]" as "H".
  { destruct t as [aty x|b|us]; simpl elt_kind; cbv iota.
    - iApply (writes_variable with "Hh Ho"); [done..|]. iIntros "$ $". done.
    - iApply (writes_variable with "Hh Ho"); [done..|]. iIntros "$ $". done.
    - iApply (Hcall with "Hh Ho"); [done..|]. iIntros "$ $". done. }
  iApply (wp_frame_wand with "H"). iIntros (d') "(-> & Hh & Ho)". wp_bind_head.
  iApply (wp_next_of with "Hh"); [done|]. iIntros (q) "%Hq Hh". iApply wp_ret.
  iApply ("HΦ" with "[//] Hh"). by rewrite -!(assoc_L app).
Qed.

Lemma wp_draw_loop args : forall p fuel out o Φ,
  has h (forest_at args p) -> e_draw env rec args = Some out -> (length args < fuel)%nat ->
  own h -∗ g_stdout ↦ o -∗ (own h -∗ g_stdout ↦ (o ++ out) -∗ Φ (None, d)) -∗
  wp (while fuel (draw_body call) (p, d)) Φ.
Proof.
  induction args as [|t args IH]; intros p [|fuel] out o Φ Hp Hout Hf; simpl in Hf; try lia;
    iIntros "Hh Ho HΦ"; cbn [while].
  - apply has_forest_nil in Hp as ->. injection Hout as <-. unfold draw_body at 2. wp_ret.
    iApply wp_ret. iApply ("HΦ" with "Hh"). by rewrite app_nil_r.
  - apply bind_Some in Hout as (o1 & Ho1 & (o2 & Ho2 & [= <-])%bind_Some). wp_bind_head.
    iApply (wp_drawing with "Hh Ho"); [done..|]. iIntros (q) "%Hq Hh Ho".
    iApply (IH with "Hh Ho"); [done..|lia|]. iIntros "Hh Ho". iApply ("HΦ" with "Hh").
    by rewrite -!(assoc_L app).
Qed.

Lemma writes_draw v args l nx out :
  has h (tree_at (Node (v :: args)) l nx) -> e_draw env rec args = Some out ->
  writes (eval_draw call (Some l) d) out.
Proof.
  iIntros (Hexp Hout o Φ) "Hh Ho HΦ". unfold eval_draw. wp_bind_head.
  iApply (wp_first_arg with "Hh"); [done|]. iIntros (p) "%Hp Hh". wp_bind_head.
  iApply (wp_heap_fuel (size h) with "Hh"); [apply own_cells|]. iIntros (fuel) "%Hf Hh".
  pose proof (has_size _ _ _ (seg_cells args p None) Hp).
  pose proof (forest_length args). wp_bind_head.
  iApply (wp_draw_loop with "Hh Ho"); [done..|lia|]. iIntros "Hh Ho". iApply wp_ret.
  iApply ("HΦ" with "Hh Ho").
Qed.

Lemma writes_segment v args l nx out :
  has h (tree_at (Node (v :: args)) l nx) -> e_segment rec args = Some out ->
  writes (eval_segment call (Some l) d) out.
Proof.
  iIntros (Hexp Hout o Φ) "Hh Ho HΦ". destruct args as [|a [|b args]]; [done..|].
  apply bind_Some in Hout as (o1 & Ho1 & (o2 & Ho2 & [= <-])%bind_Some).
  unfold eval_segment, print_line. wp_bind_head. iApply (wp_printf with "Ho"). iIntros "Ho".
  wp_bind_head. iApply (wp_first_arg with "Hh"); [done|]. iIntros (p) "%Hp Hh". wp_bind_head.
  apply has_forest_cons in Hp as (l1 & n1 & -> & Ht1 & _).
  iApply (Hcall with "Hh Ho"); [exact Ho1|exact Ht1|]. iIntros "Hh Ho". wp_bind_head.
  iApply (wp_second_arg with "Hh"); [done..|]. iIntros (q) "%Hq Hh".
  apply has_forest_cons in Hq as (l2 & n2 & -> & Ht2 & _).
  iApply (Hcall with "Hh Ho"); [exact Ho2|exact Ht2|]. iIntros "Hh Ho". iApply ("HΦ" with "Hh").
  by rewrite -!(assoc_L app).
Qed.

Lemma writes_command v args l nx out :
  has h (tree_at (Node args) l nx) ->
  match args with Atom _ w :: rest => w = v /\ e_command env rec v rest = Some out | _ => False end ->
  writes (eval_command call v (Some l) d) out.
Proof.
  intros Hexp Hout. destruct args as [|[aty w| |] args]; [done| |done..].
  destruct Hout as [-> Hout]. unfold e_command in Hout. unfold eval_command. cbv zeta in *.
  destruct (bool_decide (v = txt "setq")); [done|].
  destruct (bool_decide (v = txt "circle")); [by eapply writes_two_variables|].
  destruct (bool_decide (v = txt "point")); [by eapply writes_point|].
  destruct (bool_decide (v = txt "section")); [by eapply writes_two_variables|].
  destruct (bool_decide (v = txt "draw")); [by eapply writes_draw|].
  destruct (bool_decide (v = txt "segment")); [by eapply writes_segment|].
  destruct (bool_decide (v = txt "point1")); [by eapply writes_one_variable|].
  destruct (bool_decide (v = txt "point2")); [by eapply writes_one_variable|].
  injection Hout as <-. iIntros (o Φ) "Hh Ho HΦ". wp_bind_head. iApply (wp_printf with "Ho").
  iIntros "Ho". iApply wp_ret. iApply ("HΦ" with "Hh Ho").
Qed.
End commands.

(** [eval] up to the name of the command. *)
Lemma wp_eval_header h fuel aty v args l nx d Φ :
  has h (tree_at (Node (Atom aty v :: args)) l nx) ->
  own h -∗ (own h -∗ wp (eval_command (eval fuel) v (Some l) d) Φ) -∗
  wp (eval (S fuel) (Some l) d) Φ.
Proof.
  iIntros (Ht) "Hh HΦ". destruct (has_node _ _ _ _ Ht) as (e & p & He & Hle & Hp).
  destruct (has_forest_cons _ _ _ _ Hp) as (l' & nx' & -> & Ht' & _).
  destruct (has_atom _ _ _ _ _ Ht') as (f & k & rest & Hf & Hk & Hfe). cbn [eval].
  wp_bind_head. iApply (wp_load_own with "Hh"); [exact He|]. iIntros "Hh".
  rewrite (le_ty _ _ _ Hle). wp_det. rewrite (le_list _ _ _ Hle). wp_bind_head.
  iApply (wp_load_own with "Hh"); [exact Hf|]. iIntros "Hh".
  rewrite (ae_ty _ _ _ _ _ _ Hfe). wp_det. rewrite (ae_val _ _ _ _ _ _ Hfe). wp_det.
  wp_bind_head. iApply (wp_load_string_own with "Hh");
    [apply (ae_chars _ _ _ _ _ _ Hfe)|exact Hk|]. iIntros "Hh". by iApply "HΦ".
Qed.

(** [eval] writes what [evaluate] computes. *)
Lemma wp_eval h env d n : forall fuel t l nx out,
  has h (dict_at env d) -> has h (tree_at t l nx) -> evaluate n env t = Some out ->
  (n <= fuel)%nat -> writes h d (eval fuel (Some l) d) out.
Proof.
  induction n as [|n IH]; intros [|fuel] t l nx out Hd Ht Hout Hf; try done; [lia|].
  iIntros (o Φ) "Hh Ho HΦ". destruct t as [aty x|b|[|[aty v|b|us] args]]; try done.
  3: { iApply (wp_eval_header with "Hh"); [done|]. iIntros "Hh".
       iApply (writes_command h env d (evaluate n env) (eval fuel) Hd with "Hh Ho HΦ");
         [|done|done]. intros u lu nu outu o' Ψ Hu Hhu. eapply IH; [done..|lia]. }
  all: injection Hout as <-; cbn [eval];
    destruct (has_head _ _ _ _ Ht) as (e & He & Hty & _); wp_bind_head;
    iApply (wp_load_own with "Hh"); [exact He|]; iIntros "Hh"; rewrite Hty; wp_det.
  1,2: iApply wp_ret; iApply ("HΦ" with "Hh"); by rewrite app_nil_r.
  destruct (has_node _ _ _ _ Ht) as (e' & p & He' & Hle & Hp).
  rewrite He in He'. injection He' as <-. rewrite (le_list _ _ _ Hle).
  destruct (has_forest_cons _ _ _ _ Hp) as (l' & nx' & -> & Ht' & _).
  destruct (has_head _ _ _ _ Ht') as (f & Hl' & Hfty & _). simpl elt_kind. cbv iota. wp_bind_head.
  iApply (wp_load_own with "Hh"); [exact Hl'|]. iIntros "Hh". rewrite Hfty. wp_det.
  iApply wp_ret. iApply ("HΦ" with "Hh"). by rewrite app_nil_r.
Qed.
