(* ===== verification/InterpMain.v ===== *)
(** The interpreter [SimpleInterp] as a whole: it prints what the program in
    its file means, and gives all memory back. *)
From Stdlib Require Import Ascii String.
From S2P Require Import Prelude SexpTypes CMem SepLogic SexpMemory FastStack CLib ElementPool.
From S2P Require Import Trees Layout Sexp Print Parser Io Vis Machine Simulation ParserSpec.
From S2P Require Import ParseSexp Syntax PrintSpec RoundTrip Frozen SimpleInterp DictSpec.
From S2P Require Import SimpleInterpSpec.

#[local] Open Scope list_scope.
#[local] Existing Instances default_mem cached_pool.

(** ** Programs as values *)

(** A command: [setq] binds a name, every other one is evaluated. *)
Definition run_command (n : nat) (env : denv) (t : tree) : option (denv * list Z) :=
  match t with
  | Node (Atom _ v :: Atom _ x :: u :: us) =>
      if bool_decide (v = txt "setq") then
        if Z.of_nat (length x) <? varname_size
        then Some (bind x (u :: us) env, insert_text x u) else None
      else pair env <$> evaluate n env t
  | _ => pair env <$> evaluate n env t
  end.

Definition run_line (n : nat) (env : denv) (l : list Z) : option (denv * list Z) :=
  t ← (parse_outcome l).2; run_command n env t.

Fixpoint run_lines (n : nat) (env : denv) (ls : list (list Z)) : option (denv * list Z) :=
  match ls with
  | [] => Some (env, [])
  | l :: ls =>
      '(env, o1) ← run_line n env l;
      '(env, o2) ← run_lines n env ls;
      Some (env, o1 ++ o2)
  end.

(** The text that the interpreter writes. *)
Definition run_program (n : nat) (ls : list (list Z)) : option (list Z) :=
  '(env, o) ← run_lines n [] ls; Some (o ++ purge_text env).

(** A line ends with its newline and fits into the buffer; what is left at
    the end of the file has none. *)
Definition line_char (c : Z) : bool := negb (c =? 0) && negb (c =? c_lf).
Definition line_ok (l : list Z) : Prop :=
  exists b, l = b ++ [c_lf] /\ forallb line_char b = true /\ Z.of_nat (length l) < BUFSIZ.
Definition rest_ok (r : list Z) : Prop :=
  forallb line_char r = true /\ Z.of_nat (length r) + 1 < BUFSIZ.

Lemma line_char_spec c : line_char c = true <-> c <> 0 /\ c <> c_lf.
Proof. unfold line_char. by rewrite andb_true_iff !negb_true_iff !Z.eqb_neq. Qed.

Lemma line_chars l : line_ok l -> Forall (fun c => c <> 0) l.
Proof.
  intros (b & -> & Hb & _). apply Forall_app. split; [|by constructor].
  apply Forall_forall. intros c Hc. rewrite forallb_forall in Hb.
  apply line_char_spec, Hb. by apply list_elem_of_In.
Qed.

Lemma first_line_ok b s n :
  forallb line_char b = true -> (length b < n)%nat -> first_line n (b ++ c_lf :: s) = (b ++ [c_lf], false).
Proof.
  revert n. induction b as [|c b IH]; intros [|n] Hb Hn; simpl in *; try lia; [done|].
  apply andb_prop in Hb as [[_ Hc]%line_char_spec Hb]. rewrite (proj2 (Z.eqb_neq _ _) Hc).
  rewrite IH //. lia.
Qed.

Lemma first_line_rest r n :
  forallb line_char r = true -> (length r < n)%nat -> first_line n r = (r, true).
Proof.
  revert n. induction r as [|c r IH]; intros [|n] Hr Hn; simpl in *; try lia; [done|].
  apply andb_prop in Hr as [[_ Hc]%line_char_spec Hr]. rewrite (proj2 (Z.eqb_neq _ _) Hc).
  rewrite IH //. lia.
Qed.

(** ** [fgets] *)

(** The buffer of [main]. *)
Definition linebuf_at (lb : loc) : hprop :=
  (∃ b : list (fld Z), lb ↦ b ∗ ⌈length b = Z.to_nat BUFSIZ⌉)%I.

Lemma wp_fgets_line lb l s Φ :
  line_ok l ->
  linebuf_at lb -∗ g_file ↦ (l ++ s) -∗
  (∀ post, lb ↦ ((Det <$> l) ++ Det 0 :: post) -∗
     ⌈length ((Det <$> l) ++ Det 0 :: post) = Z.to_nat BUFSIZ⌉ -∗ g_file ↦ s -∗ Φ (true, false)) -∗
  wp (fgets lb BUFSIZ) Φ.
Proof.
  iIntros ((b & -> & Hb & Hlen)) "(%blk & Hl & %Hblk) Hf HΦ". unfold fgets. wp_bind_head.
  iApply (wp_gget with "Hf"). iIntros "Hf". rewrite length_app /= in Hlen. unfold BUFSIZ in *.
  rewrite -(assoc_L app). change ([c_lf] ++ s) with (c_lf :: s). rewrite first_line_ok //; [|lia].
  assert (exists c k, b ++ [c_lf] = c :: k) as (c & k & Hck) by (destruct b; by eexists _, _).
  rewrite Hck -Hck. rewrite (cons_middle c_lf b s) (assoc_L app) drop_app_length. wp_bind_head.
  iApply (wp_gset with "Hf"). iIntros "Hf". wp_bind_head.
  iApply (wp_store_bytes with "Hl").
  { apply splice_start. rewrite length_app length_fmap !length_app /=. lia. }
  iIntros "Hl". wp_ret. rewrite -(assoc_L app _ [Det 0]) /=.
  iApply ("HΦ" with "Hl [] Hf"). iPureIntro. rewrite length_app length_fmap /= length_drop.
  rewrite !length_app length_fmap !length_app /=. lia.
Qed.

Lemma wp_fgets_end lb r Φ :
  rest_ok r ->
  linebuf_at lb -∗ g_file ↦ r -∗
  (∀ status, linebuf_at lb -∗ g_file ↦ ([] : list Z) -∗ Φ (status, true)) -∗
  wp (fgets lb BUFSIZ) Φ.
Proof.
  iIntros ((Hr & Hlen)) "(%blk & Hl & %Hblk) Hf HΦ". unfold fgets. wp_bind_head.
  iApply (wp_gget with "Hf"). iIntros "Hf". unfold BUFSIZ in *.
  rewrite first_line_rest //; [|lia]. destruct r as [|c r].
  { wp_ret. iApply ("HΦ" with "[Hl] Hf"). iExists blk. by iFrame. }
  remember (c :: r) as s eqn:Hs.
  wp_bind_head. iApply (wp_gset with "Hf"). iIntros "Hf". wp_bind_head.
  iApply (wp_store_bytes with "Hl").
  { apply splice_start. rewrite length_app length_fmap /=. lia. }
  iIntros "Hl". wp_ret. rewrite drop_all. iApply ("HΦ" with "[Hl] Hf").
  iExists _. iFrame. iPureIntro. rewrite length_app length_drop !length_app length_fmap.
  unfold BUFSIZ. cbn [length] in *. lia.
Qed.

(** ** A command *)

(** [setq] moves the expression and what follows it to the dictionary. *)
Lemma wp_setq aty v aty' x u us l env d o n m Φ :
  textual u = true -> (length x < Z.to_nat varname_size)%nat ->
  Z.of_nat (tree_size u) < int_max ->
  Z.of_nat (S n + forest_size (bound env x)) <= int_max ->
  tree_at (Node (Atom aty v :: Atom aty' x :: u :: us)) l None -∗ dict_at env d -∗
  mem_ok -∗ pool_ok n m -∗ errno_own -∗ g_stdout ↦ o -∗
  (∀ d', tree_at (Node [Atom aty v; Atom aty' x]) l None -∗ dict_at (bind x (u :: us) env) d' -∗
     mem_ok -∗ pool_ok (S n + forest_size (bound env x)) m -∗ errno_own -∗
     g_stdout ↦ (o ++ insert_text x u) -∗ Φ d') -∗
  wp (eval_setq (Some l) d) Φ.
Proof.
  iIntros (Hu Hx Hus Hn) "Ht Hd Hm Hp He Ho HΦ". rewrite tree_at_node.
  iDestruct "Ht" as (e p) "(%Hexp & Hl & (%l1 & %n1 & -> & Ht1 & (%l2 & %n2 & -> & Ht2 &
    (%l3 & %n3 & -> & Hu & Hus))))".
  iDestruct (tree_next_acc with "Ht1") as (e1) "(Hl1 & %He1 & Ht1)".
  rewrite tree_at_atom. iDestruct "Ht2" as (e2 k b) "(%He2 & Hl2 & Hk)".
  destruct (ae_string _ _ _ _ _ _ He2) as [rest Hrest].
  unfold eval_setq, first_arg, next_of. wp_bind_head. wp_bind_head.
  iApply (wp_load with "Hl"). iIntros "Hl". rewrite (le_list _ _ _ Hexp). wp_bind_head.
  iApply (wp_load with "Hl1"). iIntros "Hl1". rewrite He1. wp_ret. unfold val_of.
  wp_bind_head. wp_bind_head. iApply (wp_load with "Hl2"). iIntros "Hl2".
  rewrite (ae_val _ _ _ _ _ _ He2). wp_det. wp_ret. wp_bind_head. wp_bind_head.
  iApply (wp_load with "Hl2"). iIntros "Hl2". rewrite (ae_next _ _ _ _ _ _ He2). wp_ret.
  wp_bind_head.
  iApply (wp_dict_insert with "[Hk] Hu Hus Hd Hm Hp He Ho"); [done..| |].
  { iFrame "Hk". iPureIntro. split; [apply (ae_chars _ _ _ _ _ _ He2)|by exists rest]. }
  iIntros (d') "(Hk & _) Hd Hm Hp He Ho". wp_bind_head. wp_bind_head.
  iApply (wp_load with "Hl"). iIntros "Hl". rewrite (le_list _ _ _ Hexp). wp_bind_head.
  iApply (wp_load with "Hl1"). iIntros "Hl1". rewrite He1. wp_ret. wp_bind_head.
  iApply (wp_modify with "Hl2"). iIntros "Hl2". wp_ret.
  iApply ("HΦ" with "[Hl Hl1 Ht1 Hl2 Hk] Hd Hm Hp He Ho"). rewrite tree_at_node.
  iExists e, (Some l1). iFrame "Hl". iSplit; [done|]. iExists l1, (Some l2). iSplit; [done|].
  iSplitL "Hl1 Ht1".
  { replace e1 with (e1 <| elt_next := Some l2 |>) by (destruct e1; by simplify_eq/=).
    by iApply "Ht1". }
  iExists l2, None. iSplit; [done|]. iSplit; [|done]. rewrite tree_at_atom. iExists _, k, b.
  iFrame. iPureIntro. destruct e2, He2. by split.
Qed.

Lemma run_command_cases n env t env' out :
  run_command n env t = Some (env', out) ->
  (evaluate n env t = Some out /\ env' = env) \/
  (exists aty v aty' x u us, t = Node (Atom aty v :: Atom aty' x :: u :: us) /\
     bool_decide (v = txt "setq") = true /\ Z.of_nat (length x) < varname_size /\
     env' = bind x (u :: us) env /\ out = insert_text x u).
Proof.
  assert (pair env <$> evaluate n env t = Some (env', out) -> evaluate n env t = Some out /\ env' = env)
    as Hev by by intros (o & -> & [= -> ->])%fmap_Some.
  unfold run_command.
  destruct t as [|b|[|[aty v| |] [|[aty' x| |] [|u us]]]]; try (by left; apply Hev).
  destruct (bool_decide (v = txt "setq")) eqn:Hv; [|by left; apply Hev].
  destruct (Z.ltb_spec (Z.of_nat (length x)) varname_size) as [Hx|]; [|done].
  intros [= <- <-]. right. by exists aty, v, aty', x, u, us.
Qed.

(** A command leaves a part of its expression; what it binds moves to the
    dictionary, and what was bound before goes to the pool. *)
Lemma wp_run_command n fuel env env' t l d o out N m Φ :
  run_command n env t = Some (env', out) -> (0 < fuel)%nat -> (n <= fuel)%nat -> textual t = true ->
  Z.of_nat (S N + env_size env + tree_size t) <= int_max ->
  tree_at t l None -∗ dict_at env d -∗ mem_ok -∗ pool_ok N m -∗ errno_own -∗ g_stdout ↦ o -∗
  (∀ d' t' N', ⌈(N' + env_size env' + tree_size t' <= S N + env_size env + tree_size t)%nat⌉ -∗
     tree_at t' l None -∗ dict_at env' d' -∗ mem_ok -∗ pool_ok N' m -∗ errno_own -∗
     g_stdout ↦ (o ++ out) -∗ Φ d') -∗
  wp (eval fuel (Some l) d) Φ.
Proof.
  iIntros (Hrun Hpos Hf Htx Hsz) "Ht Hd Hm Hp He Ho HΦ".
  destruct (run_command_cases _ _ _ _ _ Hrun)
    as [[Hev ->]|(aty & v & aty' & x & u & us & -> & Hv & Hx & -> & ->)].
  - iAssert (tree_at t l None ∗ dict_at env d)%I with "[$Ht $Hd]" as "H".
    iDestruct (freeze with "H") as (h) "[%Hh Hh]".
    destruct (has_sep _ _ _ (has_all _ _ Hh)) as [Ht Hd].
    iApply (wp_eval with "Hh Ho"); [done..|]. iIntros "Hh Ho".
    iDestruct (thaw _ _ Hh with "Hh") as "[Ht Hd]".
    iApply ("HΦ" with "[] Ht Hd Hm Hp He Ho"). iPureIntro. lia.
  - simpl in Htx, Hsz. apply andb_prop in Htx as [Hu _].
    pose proof (env_size_bind x (u :: us) env) as Hbind. simpl in Hbind.
    assert (forest_size (bound env x) <= env_size env)%nat by apply bound_size.
    iDestruct (freeze with "Ht") as (h) "[%Hh Hh]". destruct fuel as [|fuel]; [lia|].
    iApply (wp_eval_header with "Hh"); [by apply has_all|]. iIntros "Hh".
    iDestruct (thaw _ _ Hh with "Hh") as "Ht". unfold eval_command. cbv zeta. rewrite Hv.
    iApply (wp_setq with "Ht Hd Hm Hp He Ho"); [done|lia|lia|lia|].
    iIntros (d') "Ht Hd Hm Hp He Ho". iApply ("HΦ" with "[] Ht Hd Hm Hp He Ho").
    iPureIntro. simpl. fold (forest_size us). lia.
Qed.

(** ** The loop of [main] *)

Section main.
Variables (ss gs : Z).
Hypotheses (Hss : 0 < ss) (Hgs : 0 < gs) (Hsz : ss + 2 * gs + 2 ^ 31 < 2 ^ 64).

Lemma run_line_parsable n env l r :
  run_line n env l = Some r ->
  parsable l /\ exists t, parse_outcome l = (SEXP_ERR_OK, Some t) /\ run_command n env t = Some r /\
    textual t = true /\ (tree_size t <= S (length l))%nat.
Proof.
  intros (t & Ht & Hr)%bind_Some.
  assert (parsable l) as Hp.
  { intros Hw. unfold parse_outcome in Ht. by rewrite Hw in Ht. }
  split; [done|]. exists t. pose proof (parse_outcome_typed l Hp) as Hty.
  destruct (parse_outcome l) as [err o]. simpl in Ht. subst o. by destruct Hty as (-> & ? & ?).
Qed.

(** A line: what it costs is bounded by its length. *)
Lemma wp_main_body n fuel env env' l s lb d o out N m Φ :
  line_ok l -> run_line n env l = Some (env', out) -> (0 < fuel)%nat -> (n <= fuel)%nat ->
  Z.of_nat (N + env_size env + 6 * length l) < int_max ->
  Z.of_nat (m + 4 * length l) < int_max ->
  linebuf_at lb -∗ g_file ↦ (l ++ s) -∗ dict_at env d -∗ parser_env ss gs N m -∗ errno_own -∗
  g_stdout ↦ o -∗
  (∀ d' N' m', ⌈(N' + env_size env' <= N + env_size env + 6 * length l /\
       m' <= m + 4 * length l)%nat⌉ -∗
     linebuf_at lb -∗ g_file ↦ s -∗ dict_at env' d' -∗ parser_env ss gs N' m' -∗ errno_own -∗
     g_stdout ↦ (o ++ out) -∗ Φ (inl d')) -∗
  wp (main_body fuel lb d) Φ.
Proof.
  iIntros (Hl Hrun Hpos Hf HN Hm) "Hlb Hfile Hd Henv He Ho HΦ". unfold main_body.
  destruct (run_line_parsable _ _ _ _ Hrun) as (Hp & t & Hout & Hcmd & Htx & Ht).
  pose proof (line_chars l Hl) as Hch.
  assert (Z.of_nat (length l) < BUFSIZ /\ (0 < length l)%nat) as [Hlen Hlpos].
  { destruct Hl as (b & -> & _ & ?). rewrite length_app /= in H |- *. lia. }
  wp_bind_head. iApply (wp_fgets_line with "Hlb Hfile"); [done|].
  iIntros (post) "Hlb %Hblk Hfile". cbn [negb]. cbv iota. wp_bind_head.
  iApply (wp_parse_sexp ss gs Hss Hgs Hsz with "Henv He Hlb"); try done; try lia.
  { split; [by split|done|by right]. }
  iIntros (sx) "Hsx He (Hmem & Hpool & Hg) Hlb". rewrite Hout. simpl tree_opt.
  iDestruct "Hsx" as (r) "[-> Ht]". wp_bind_head.
  iApply (wp_print_block with "Hlb Ht Hmem Hpool [He]"); [done| |done|lia|lia|by iExists _|].
  { rewrite Hblk. by vm_compute. }
  iIntros (z b') "Hlb %Hb Ht Hmem Hpool He". destruct Hb as (_ & Hb & _). wp_bind_head.
  iApply (wp_run_command with "Ht Hd Hmem Hpool He Ho"); [done..|lia|].
  iIntros (d' t' N') "%HN' Ht Hd Hmem Hpool He Ho". wp_bind_head.
  iApply (wp_destroy_sexp [t'] with "[Ht] Hpool Hmem"); [simpl; lia| |].
  { iExists r, None. by iFrame. }
  iIntros "Hpool Hmem". iApply wp_ret.
  iApply ("HΦ" with "[] [Hlb] Hfile Hd [$Hmem $Hpool $Hg] He Ho").
  - iPureIntro. simpl. lia.
  - iExists b'. iFrame. iPureIntro. by rewrite Hb.
Qed.

Lemma wp_main_loop n fuel ls : forall env env' r rounds lb d o out N m Φ,
  Forall line_ok ls -> rest_ok r -> run_lines n env ls = Some (env', out) ->
  (0 < fuel)%nat -> (n <= fuel)%nat -> (length ls < rounds)%nat ->
  Z.of_nat (N + env_size env + 6 * length (concat ls)) < int_max ->
  Z.of_nat (m + 4 * length (concat ls)) < int_max ->
  linebuf_at lb -∗ g_file ↦ (concat ls ++ r) -∗ dict_at env d -∗ parser_env ss gs N m -∗
  errno_own -∗ g_stdout ↦ o -∗
  (∀ d' N' m', ⌈(N' + env_size env' <= N + env_size env + 6 * length (concat ls))%nat⌉ -∗
     linebuf_at lb -∗ g_file ↦ ([] : list Z) -∗ dict_at env' d' -∗ parser_env ss gs N' m' -∗
     errno_own -∗ g_stdout ↦ (o ++ out) -∗ Φ d') -∗
  wp (while rounds (main_body fuel lb) d) Φ.
Proof.
  induction ls as [|l ls IH]; intros env env' r [|rounds] lb d o out N m Φ Hls Hr Hrun Hpos Hf
    Hrounds HN Hm; simpl in Hrounds; try lia; iIntros "Hlb Hfile Hd Henv He Ho HΦ"; cbn [while].
  - injection Hrun as <- <-. unfold main_body at 2. wp_bind_head. wp_bind_head.
    iApply (wp_fgets_end with "Hlb Hfile"); [done|]. iIntros (status) "Hlb Hfile". wp_ret.
    iApply wp_ret. iApply ("HΦ" with "[] Hlb Hfile Hd Henv He"); [iPureIntro; simpl; lia|].
    by rewrite app_nil_r.
  - apply Forall_cons in Hls as [Hl Hls]. cbn [concat] in *. rewrite length_app in HN, Hm.
    apply bind_Some in Hrun as ([env1 o1] & Hrun1 & ([env2 o2] & Hrun2 & [= <- <-])%bind_Some).
    rewrite -(assoc_L app). wp_bind_head.
    iApply (wp_main_body with "Hlb Hfile Hd Henv He Ho"); [done..|lia|lia|].
    iIntros (d' N' m') "%HN' Hlb Hfile Hd Henv He Ho".
    iApply (IH with "Hlb Hfile Hd Henv He Ho"); [done..|lia|lia|lia|].
    iIntros (d2 N2 m2) "%HN2 Hlb Hfile Hd Henv He Ho".
    iApply ("HΦ" with "[] Hlb Hfile Hd Henv He"); [iPureIntro; rewrite length_app; lia|].
    by rewrite (assoc_L app).
Qed.
End main.

Lemma lines_length ls : Forall line_ok ls -> (length ls <= length (concat ls))%nat.
Proof.
  induction 1 as [|l ls (b & -> & _) _ IH]; [done|]. simpl. rewrite !length_app /=. lia.
Qed.

(** C8. The interpreter prints what its file means: the commands are read
    one per line, [setq] binds its name to an expression (which is shown and
    replaces an older one), and every other command writes what it evaluates
    to under the bindings made so far, however deep the definitions refer to
    each other and however often one is used.  The dictionary, the
    expressions and the buffers are all given back.  A last line without a
    newline is not looked at. *)
Theorem simple_interp_prints ss gs n fuel ls r out :
  params_ok ss gs -> Forall line_ok ls -> rest_ok r -> run_program n ls = Some out ->
  (0 < fuel)%nat -> (n <= fuel)%nat -> Z.of_nat (6 * length (concat ls)) < int_max ->
  ⦃ g_file ↦ (concat ls ++ r) ∗ g_stdout ↦ ([] : list Z) ∗ globals ss gs ∗ errno_own ⦄
    simple_interp fuel
  ⟪ _, g_file ↦ ([] : list Z) ∗ g_stdout ↦ out ∗ globals ss gs ∗ errno_own ⟫.
Proof.
  intros (Hss & Hgs & Hsz) Hls Hr Hrun Hpos Hf Hlen. iIntros "(Hfile & Ho & Hg & He)".
  apply bind_Some in Hrun as ([env o] & Hrun & [= <-]).
  iDestruct (globals_env with "Hg") as "Henv". unfold simple_interp. wp_bind_head.
  iApply wp_alloc. iIntros (lb) "Hlb". unfold lines_fuel. wp_bind_head. wp_bind_head.
  iApply (wp_gget with "Hfile"). iIntros "Hfile". wp_ret. wp_bind_head.
  pose proof (lines_length ls Hls).
  iApply (wp_main_loop ss gs Hss Hgs Hsz n fuel ls [] with "[Hlb] Hfile [] Henv He Ho");
    try done; try (rewrite length_app; lia); try (simpl; lia).
  { iExists _. iFrame. iPureIntro. by rewrite length_replicate. }
  iIntros (d N m) "%HN (%b & Hlb & _) Hfile Hd (Hmem & Hpool & Hv) He Ho". simpl in HN.
  wp_bind_head. iApply (wp_purge_all with "Hd Hmem Hpool Ho"); [lia|].
  iIntros "Hmem Hpool Ho". wp_bind_head. iApply (wp_sexp_cleanup with "Hpool Hmem").
  iIntros "Hc1 Hc2 Hmem". iApply (wp_dealloc with "Hlb"). by iFrame.
Qed.

(** The example that comes with the program, and a line that is cut off. *)
Definition demo_program : list (list Z) :=
  map (fun s => txt s ++ [c_lf])
    ["(setq a (point 1 2))"; "(setq b (point 5 7))"; "(setq k1 (circle a b))";
     "(setq k2 (circle b a))"; "(setq tmp (section k1 k2))";
     "(draw a b (segment (point1 tmp) (point2 tmp)))"].

Lemma simple_interp_prints_witness :
  let out := default [] (run_program 6 demo_program) in
  let cells := (g_file, CText (concat demo_program ++ txt "(draw")) :: (g_stdout, CText []) ::
               demo_globals [] in
  length out = 783%nat /\
  exists x h, simple_interp 6 (heap_of cells) = Done x h /\
    ((g_file ↦ ([] : list Z) ∗ g_stdout ↦ out ∗ globals 256 64 ∗ errno_own) ∗
     60%positive ↦ ([] ++ replicate 40 (Indet : fld Z)))%I h.
Proof.
  intros out cells. split; [by vm_compute|].
  refine (run_frame _ _ _ _ cells
    (simple_interp_prints 256 64 6 6 demo_program (txt "(draw") out _ _ _ _ _ _ _) _ _).
  - by vm_compute.
  - repeat constructor; eexists; (split; [reflexivity|split; by vm_compute]).
  - by vm_compute.
  - by vm_compute.
  - lia.
  - done.
  - by vm_compute.
  - apply (bool_decide_unpack _). by vm_compute.
  - iIntros "(Hf & Ho & H)". iDestruct (demo_globals_cells with "H") as "($ & $ & $ & _)".
    iSplitL "Hf"; [iExact "Hf"|iExact "Ho"].
Defined.

Example run_program_ex :
  run_program 3 (map (fun s => txt s ++ [c_lf]) ["(setq a (point 1 2))"; "(draw (point1 a))"]) =
  Some (txt "Inserting a into dictionary." ++ [c_lf] ++ txt "a value is : (point 1 2)" ++ [c_lf] ++
        txt "DRAWING: POINT1 OF :" ++ [c_lf] ++ txt "Lookup : a" ++ [c_lf] ++
        txt "POINT AT: 1,2" ++ [c_lf] ++ txt "PURGING: a" ++ [c_lf]).
Proof. by vm_compute. Qed.
