(* ===== verification/CallbacksSpec.v ===== *)
(** What the program [Callbacks] writes for the rooms in its file. *)
From Stdlib Require Import Ascii String.
From S2P Require Import Prelude SexpTypes CMem SepLogic SexpMemory FastStack CLib ElementPool.
From S2P Require Import Trees Sexp Print Parser Io Vis Machine Events Simulation Refinement.
From S2P Require Import ParserSpec ParseSexp IoSpec RoundTrip Binmode BinmodeSpec Callbacks.

#[local] Open Scope list_scope.

(** ** The handlers on an expression *)
Section rooms.
Context {double : Type} (strtod : list Z -> double) (show : double -> list Z) (zero : double).
#[local] Abbreviation vars_t := (vars_t double).

(** A call, given what it is for. *)
Definition hear_token (t : token) (v : vars_t) : option vars_t :=
  match t with
  | TStart => enter_sexpr v
  | TEnd => exit_sexpr show v
  | TAtom _ s => Some (characters strtod s v)
  | TBinary _ => None
  end.

Definition hear_tokens (ts : list token) (v : vars_t) : option vars_t :=
  foldl (fun v t => v ← v; hear_token t v) (Some v) ts.

(** The characters are those of a string. *)
Definition spoken (t : token) : Prop := match t with TAtom _ s => no_nul s | _ => True end.

Lemma string_in_text s rest :
  no_nul s -> rest = [] \/ rest = [Det 0] -> string_in ((Det <$> s) ++ rest) = Some s.
Proof.
  intros Hs Hr. induction Hs as [|c s Hc Hs IH]; simpl; [by destruct Hr as [-> | ->]|].
  rewrite (proj2 (Z.eqb_neq _ _) Hc). by rewrite IH.
Qed.

Lemma handle_reports e t v :
  reports e t -> spoken t -> handle strtod show e v = hear_token t v.
Proof.
  destruct e as [| |data len aty|], t as [| |aty' s|]; try done.
  intros (_ & _ & Hd) Hs. simpl.
  assert (string_in data = Some s) as ->; [|done].
  destruct Hd as [-> | ->]; [rewrite -(app_nil_r (Det <$> s))|]; apply string_in_text; auto.
Qed.

Lemma handle_all_reports es ts v :
  Forall2 reports es ts -> Forall spoken ts -> handle_all strtod show es v = hear_tokens ts v.
Proof.
  intros H. revert v. induction H as [|e t es ts He _ IH]; intros v Ht; [done|].
  apply Forall_cons in Ht as [Ht Hts]. unfold hear_tokens. simpl.
  rewrite (handle_reports e t) //. destruct (hear_token t v) as [v'|]; simpl; [by apply IH|].
  clear. induction ts; [done|]. done.
Qed.

Lemma hear_tokens_app ts us v : hear_tokens (ts ++ us) v = hear_tokens ts v ≫= hear_tokens us.
Proof.
  unfold hear_tokens. rewrite foldl_app. destruct (foldl _ _ ts) as [v'|]; [done|]. simpl.
  by induction us.
Qed.

(** What is written for the parts of a room: a name, or an edge. *)
Definition item_text (t : tree) : option (list Z) :=
  match t with
  | Atom _ s => Some (s ++ [c_lf])
  | Node [Node [Atom _ a; Atom _ b]; Node [Atom _ c; Atom _ d]] =>
      Some (edge_line show (strtod a) (strtod b) (strtod c) (strtod d))
  | _ => None
  end.

(** ... and for an expression of the file. *)
Definition room_text (t : tree) : option (list Z) :=
  match t with
  | Atom _ _ => Some (txt "Also not expected." ++ [c_lf])
  | Node ts =>
      os ← mapM item_text ts; Some (concat os ++ txt "All edges for room found." ++ [c_lf])
  | Binary _ => None
  end.

(** Between two items of a room, and between two rooms. *)
Definition in_room (o : list Z) (v : vars_t) : Prop :=
  current_state v = NEXT_EDGE /\ depth v = 1 /\ stdout v = o.
Definition outside (o : list Z) (v : vars_t) : Prop :=
  current_state v = WAITING /\ depth v = 0 /\ stdout v = o.

(** An edge is the calls for its four numbers between the parentheses. *)
Lemma hear_edge a b c d o v :
  in_room o v ->
  exists v', hear_tokens [TStart; TStart; TAtom a.1 a.2; TAtom b.1 b.2; TEnd;
               TStart; TAtom c.1 c.2; TAtom d.1 d.2; TEnd; TEnd] v = Some v' /\
    in_room (o ++ edge_line show (strtod a.2) (strtod b.2) (strtod c.2) (strtod d.2)) v'.
Proof.
  intros (Hst & Hd & Ho). destruct v as [p q r s st dp out].
  simpl in Hst, Hd, Ho. subst st dp out.
  exists (mk_vars (strtod a.2) (strtod c.2) (strtod b.2) (strtod d.2) NEXT_EDGE 1
            (o ++ edge_line show (strtod a.2) (strtod b.2) (strtod c.2) (strtod d.2))).
  split; [|done]. vm_compute. reflexivity.
Qed.

Lemma item_text_cases t s :
  item_text t = Some s ->
  (exists aty x, t = Atom aty x /\ s = x ++ [c_lf]) \/
  (exists a b c d, t = Node [Node [Atom a.1 a.2; Atom b.1 b.2]; Node [Atom c.1 c.2; Atom d.1 d.2]] /\
     s = edge_line show (strtod a.2) (strtod b.2) (strtod c.2) (strtod d.2)).
Proof.
  unfold item_text. intros H. repeat case_match; try discriminate H; injection H as <-; subst.
  - left. by eexists _, _.
  - right. by eexists (_, _), (_, _), (_, _), (_, _).
Qed.

Lemma hear_item t s o v :
  item_text t = Some s -> in_room o v ->
  exists v', hear_tokens (tokens t) v = Some v' /\ in_room (o ++ s) v'.
Proof.
  intros [(aty & x & -> & ->)|(a & b & c & d & -> & ->)]%item_text_cases Hv;
    [|by apply hear_edge].
  destruct v as [p q r w st dp out], Hv as (Hst & Hd & Ho).
  simpl in Hst, Hd, Ho. subst st dp out. by eexists.
Qed.

Lemma hear_items ts os o v :
  mapM item_text ts = Some os -> in_room o v ->
  exists v', hear_tokens (flat_map tokens ts) v = Some v' /\ in_room (o ++ concat os) v'.
Proof.
  revert os o v. induction ts as [|t ts IH]; intros os o v Hos Hv.
  - injection Hos as <-. exists v. split; [done|]. by rewrite app_nil_r.
  - simpl in Hos. apply bind_Some in Hos as (s & Hs & (os' & Hos & [= <-])%bind_Some).
    destruct (hear_item _ _ _ _ Hs Hv) as (v1 & Hv1 & Hr1).
    destruct (IH _ _ _ Hos Hr1) as (v2 & Hv2 & Hr2).
    exists v2. simpl. rewrite hear_tokens_app Hv1. split; [done|]. by rewrite (assoc_L app).
Qed.

Lemma hear_room t s o v :
  room_text t = Some s -> outside o v ->
  exists v', hear_tokens (tokens t) v = Some v' /\ outside (o ++ s) v'.
Proof.
  intros Ht (Hst & Hd & Ho). destruct v as [a b c d st dp out]. simpl in Hst, Hd, Ho. subst st dp out.
  destruct t as [aty x| |ts]; [| |]; simpl in Ht; simplify_eq; [by eexists|].
  apply bind_Some in Ht as (os & Hos & [= <-]). simpl tokens.
  destruct (hear_items ts os o (mk_vars a b c d NEXT_EDGE 1 o)) as (v1 & Hv1 & Hr1); [done..|].
  destruct v1 as [a1 b1 c1 d1 st1 dp1 out1], Hr1 as (Hst & Hd & Ho). simpl in Hst, Hd, Ho. subst.
  change (hear_tokens (TStart :: ?l) _) with (hear_tokens l (mk_vars a b c d NEXT_EDGE 1 o)).
  rewrite hear_tokens_app Hv1. eexists. split; [reflexivity|]. split_and!; [done..|].
  simpl. by rewrite (assoc_L app).
Qed.

(** The whole file. *)
Lemma hear_rooms ts os o v :
  mapM room_text ts = Some os -> outside o v ->
  exists v', hear_tokens (flat_map tokens ts) v = Some v' /\ outside (o ++ concat os) v'.
Proof.
  revert os o v. induction ts as [|t ts IH]; intros os o v Hos Hv.
  - injection Hos as <-. exists v. split; [done|]. by rewrite app_nil_r.
  - simpl in Hos. apply bind_Some in Hos as (s & Hs & (os' & Hos & [= <-])%bind_Some).
    destruct (hear_room _ _ _ _ Hs Hv) as (v1 & Hv1 & Hr1).
    destruct (IH _ _ _ Hos Hr1) as (v2 & Hv2 & Hr2).
    exists v2. simpl. rewrite hear_tokens_app Hv1. split; [done|]. by rewrite (assoc_L app).
Qed.
End rooms.

(** The texts in an expression that is stored are strings. *)
Lemma seg_spoken ts : forall p q, seg ts p q ⊢ ⌜Forall spoken (flat_map tokens ts)⌝.
Proof.
  induction ts as [|aty s ts IH|d ts IH|us ts IHu IH] using forest_ind; intros p q; simpl.
  - iIntros "_". done.
  - iIntros "(%l & %nx & _ & Ht & Hts)". iDestruct (IH with "Hts") as %H.
    iEval (rewrite tree_at_atom) in "Ht". iDestruct "Ht" as "(%e & %lv & %b & %He & _)".
    iPureIntro. constructor; [|done]. apply (ae_chars _ _ _ _ _ _ He).
  - iIntros "(%l & %nx & _ & _ & Hts)". iDestruct (IH with "Hts") as %H. iPureIntro. by constructor.
  - iIntros "(%l & %nx & _ & Ht & Hts)". iDestruct (IH with "Hts") as %H.
    iEval (rewrite tree_at_node) in "Ht". iDestruct "Ht" as "(%e & %r & %He & _ & Hus)".
    iDestruct (IHu with "Hus") as %Hu. iPureIntro. constructor; [done|].
    rewrite !Forall_app. split_and!; [done|by repeat constructor|done].
Qed.

Lemma tree_spoken t l nx : tree_at t l nx ⊢ ⌜Forall spoken (tokens t)⌝.
Proof.
  iIntros "H". iDestruct (seg_spoken [t] (Some l) nx with "[H]") as %H.
  - iExists l, nx. by iFrame.
  - iPureIntro. simpl in H. by rewrite app_nil_r in H.
Qed.

(** ** The file *)

(** What is told of an expression that the file does not complete. *)
Fixpoint file_left (n : nat) (a : astate) (rest : option (list Z)) (chunks : list (list Z)) :
    list token :=
  match n with
  | O => []
  | S n =>
      match next_read a rest chunks with
      | Some (_, a', rest', cs) => file_left n a' (Some rest') cs
      | None => read_left a rest chunks
      end
  end.

#[local] Existing Instances default_mem cached_pool.

Section listen.
Variables (ss gs : Z).
Hypotheses (Hss : 0 < ss) (Hgs : 0 < gs) (Hsz : ss + 2 * gs + 2 ^ 31 < 2 ^ 64).
Variables (iow buf : loc) (fd : Z) (B : Z).
Hypothesis (HB : B < int_max).
#[local] Abbreviation pending := (pending ss gs iow buf fd).
#[local] Abbreviation used_up := (used_up ss gs iow buf fd).
#[local] Abbreviation closed := (closed ss gs iow buf fd).
#[local] Abbreviation read_answer := (read_answer ss gs iow buf fd).

(** Before a call: there is a rest to be parsed, or none. *)
Definition listening (N : nat) (h : watch) (w : nat) (a : astate) (rest : option (list Z))
    (chunks : list (list Z)) : hprop :=
  match rest with
  | None => used_up N B h w a None chunks
  | Some s => pending N B h w a s chunks
  end.

Lemma listening_texts N h w a rest chunks : listening N h w a rest chunks ⊢ ⌜texts a⌝.
Proof.
  destruct rest as [s|]; [apply pending_texts|].
  by iIntros "(% & % & % & (_ & _ & % & _) & _)".
Qed.

(** The free elements meanwhile. *)
Lemma listening_pool N h w a rest chunks :
  listening N h w a rest chunks ⊢
  ∃ m, pool_ok N m ∗ mem_ok ∗
    (∀ N', pool_ok N' m -∗ mem_ok -∗ listening N' h w a rest chunks).
Proof.
  destruct rest as [s|]; simpl.
  - iIntros "(%cc & %bs & %i & %term & %post & %cnt & %m & % & Hw & Hcc & Hh & (Hm & Hp & Hg) & He)".
    iExists m. iFrame "Hp Hm". iIntros (N') "Hp Hm".
    iExists cc, bs, i, term, post, cnt, m. by iFrame.
  - iIntros "(%p & %bs & %m & % & Hw & Hcc & Hh & (Hm & Hp & Hg) & He)".
    iExists m. iFrame "Hp Hm". iIntros (N') "Hp Hm". iExists p, bs, m. by iFrame.
Qed.

Lemma wp_read_next N h w a rest chunks Φ :
  Forall chunk_ok chunks -> read_defined a rest chunks = true ->
  listening N h w a rest chunks -∗
  (∀ sx, read_answer N B h w (read_left a rest chunks) (next_read a rest chunks) sx -∗ Φ sx) -∗
  wp (read_one_sexp (Some iow)) Φ.
Proof.
  intros Hok Hdef. destruct rest as [s|]; simpl listening.
  - by apply (wp_read_one ss gs Hss Hgs Hsz iow buf fd N B HB).
  - iIntros "Hu HΦ".
    iApply (wp_read_used_up ss gs Hss Hgs Hsz iow buf fd N B HB with "Hu HΦ"); done.
Qed.

Lemma closed_next N h ts w : closed N B (watch_next h ts) w ⊢ closed N B h w.
Proof.
  iIntros "(%p & %cnt & %bs & %chunks & %a & %lp & %m & %H & Hw & Hcc & Hrest)".
  iExists p, cnt, bs, chunks, a, lp, m. iFrame "Hw Hrest". iSplit; [done|].
  destruct p as [cc|]; simpl; [by rewrite watch_ptr_next|].
  iDestruct "Hcc" as %[-> H']. by destruct h.
Qed.

(** The expression of the round before is released. *)
Lemma wp_release prev sx N h w a rest chunks Φ :
  Z.of_nat (N + opt_size prev) <= int_max ->
  tree_opt prev sx -∗ listening N h w a rest chunks -∗
  (listening (N + opt_size prev) h w a rest chunks -∗ Φ ()) -∗
  wp (match sx with Some _ => destroy_sexp sx | None => mret () end) Φ.
Proof.
  iIntros (HN) "Ht Hp HΦ". destruct prev as [t|]; simpl in *.
  - iDestruct "Ht" as (l) "[-> Ht]".
    iDestruct (listening_pool with "Hp") as (m) "(Hpool & Hm & Hp)".
    iApply (wp_destroy_sexp [t] with "[Ht] Hpool Hm"); [simpl; lia|iExists l, None; by iFrame|].
    iIntros "Hpool Hm". rewrite /= Nat.add_0_r. iApply "HΦ". iApply ("Hp" with "Hpool Hm").
  - iDestruct "Ht" as %->. wp_ret. rewrite Nat.add_0_r. by iApply "HΦ".
Qed.

(** The loop: every expression is told to the handlers, and released. *)
Lemma wp_listen fuel : forall n N h w a rest chunks prev sx Φ,
  Forall chunk_ok chunks -> file_defined n a rest chunks = true ->
  (reads_left a rest chunks < fuel)%nat -> (reads_left a rest chunks < n)%nat ->
  Z.of_nat (N + opt_size prev + w) <= int_max ->
  tree_opt prev sx -∗ listening N h w a rest chunks -∗
  (∀ N' w', ⌈(N' + w' <= N + opt_size prev + w)%nat /\
       Forall spoken (flat_map tokens (file_expressions n a rest chunks))⌉ -∗
     closed N' B h w' -∗
     watch_at h (flat_map tokens (file_expressions n a rest chunks) ++
                 file_left n a rest chunks) -∗ Φ None) -∗
  wp (while fuel (listen_body (Some iow)) sx) Φ.
Proof.
  induction fuel as [|fuel IH]; intros [|n] N h w a rest chunks prev sx Φ Hok Hdef Hf Hn HN;
    try lia.
  iIntros "Ht Hp HΦ". cbn [while]. unfold listen_body at 2. wp_bind_head. wp_bind_head.
  iApply (wp_release with "Ht Hp"); [lia|]. iIntros "Hp". clear sx.
  iDestruct (listening_texts with "Hp") as %Htx.
  cbn [file_defined] in Hdef. apply andb_true_iff in Hdef as [Hdef Hnext]. wp_bind_head.
  iApply (wp_read_next with "Hp"); [done..|]. iIntros (sx) "Ha". wp_ret.
  cbn [file_expressions file_left].
  destruct (next_read a rest chunks) as [[[[t a'] rest'] cs]|] eqn:Hr; simpl IoSpec.read_answer.
  - iDestruct "Ha" as (l w') "(%H & Ht & Hp)". destruct H as [-> Hw'].
    iDestruct (tree_spoken with "Ht") as %Hsp.
    pose proof (next_read_progress _ _ _ _ _ _ _ Htx Hr).
    iApply (IH n _ _ w' a' (Some rest') cs (Some t) (Some l) with "[Ht] Hp");
      [by eapply next_read_chunks|done|lia|lia|simpl; lia|iExists l; by iFrame|].
    iIntros (N' w2) "%H2 Hc Hw". destruct H2 as [HN' Hsp'].
    iDestruct (closed_next with "Hc") as "Hc". rewrite watch_at_next.
    iApply ("HΦ" with "[] Hc [Hw]").
    + iPureIntro. simpl in HN'. split; [lia|]. simpl. by apply Forall_app.
    + simpl. by rewrite (assoc_L app).
  - iDestruct "Ha" as "(-> & Hc & Hw)". iApply wp_ret. iApply ("HΦ" with "[] Hc Hw").
    iPureIntro. split; [lia|constructor].
Qed.
End listen.

(** ** The program *)

(** The expressions that the program is told of, and what is left then. *)
Definition listen_rounds (chunks : list (list Z)) : nat :=
  S (4 * total chunks + 4 * length chunks).
Definition file_rooms (chunks : list (list Z)) : list tree :=
  file_expressions (listen_rounds chunks) a_init None chunks.
Definition file_rest (chunks : list (list Z)) : list token :=
  file_left (listen_rounds chunks) a_init None chunks.

Lemma listen_fuel_rounds chunks :
  S (4 * script_size (Some <$> chunks)) = listen_rounds chunks.
Proof.
  unfold listen_rounds, total.
  enough (script_size (Some <$> chunks) = length (concat chunks) + length chunks)%nat by lia.
  induction chunks as [|c cs IH]; [done|].
  change (script_size _) with (S (length c + script_size (Some <$> cs))).
  rewrite IH /= length_app. lia.
Qed.

Lemma wp_listen_fuel chunks Φ :
  g_reads ↦ (Some <$> chunks : list (option (list Z))) -∗
  (g_reads ↦ (Some <$> chunks : list (option (list Z))) -∗ Φ (listen_rounds chunks)) -∗
  wp listen_fuel Φ.
Proof.
  iIntros "Hr HΦ". unfold listen_fuel. wp_bind_head. iApply (wp_gget with "Hr").
  iIntros "Hr". wp_ret. rewrite listen_fuel_rounds. by iApply "HΦ".
Qed.

(** The continuation with the handlers, before anything is read. *)
Lemma first_used_up ss gs iow buf fd B hs cc s v vc chunks :
  0 < ss -> 0 < gs -> Z.of_nat (2 * total chunks) <= B ->
  iow ↦ mk_iowrap (Some cc) fd buf 0 -∗ buf ↦ (Det <$> replicate (Z.to_nat BUFSIZ) 0) -∗
  g_reads ↦ (Some <$> chunks : list (option (list Z))) -∗
  cc ↦ mk_pcont (Some s) Indet v ss 0 vc None None 0 0 1 0 (Det 0) Indet PARSER_NORMAL
         0 0 None (Some hs) -∗
  ⌈vc = cursor v 0⌉ -∗ buf_at ss gs v vc 0 ss [] -∗ s ↦ mk_stack None None 0 -∗
  handlers_at hs -∗ g_trace ↦ ([] : list event) -∗ parser_env ss gs 0 0 -∗ errno_own -∗
  used_up ss gs iow buf fd 0 B (Watched hs [] []) (total chunks) a_init None chunks.
Proof.
  iIntros (Hss Hgs HB) "Hi Hb Hr Hcc -> Hbuf Hst Hh Htr Henv He".
  iExists (Some cc), (replicate (Z.to_nat BUFSIZ) 0), 0%nat. iFrame "Hi Hb Hr Henv He".
  iSplit.
  { iPureIntro. split_and!; [by rewrite length_replicate|by split|by apply a_init_texts| |simpl; lia].
    split; simpl; lia. }
  iSplitL "Hcc Hbuf Hst".
  - iExists None, s, v, _, 0, ss, _, _, 0, 0, None. iFrame. iSplit; [done|].
    iExists []. by iDestruct (is_stack_nil with "Hst") as "$".
  - simpl. iFrame. by iApply trace_at_start.
Qed.

Section theorems.
Context {double : Type} (strtod : list Z -> double) (show : double -> list Z) (zero : double).

Lemma hear_trace evs ts os :
  mapM (room_text strtod show) ts = Some os -> Forall spoken (flat_map tokens ts) ->
  Forall2 reports evs (flat_map tokens ts) ->
  hear strtod show zero (reverse evs ++ []) = mret (concat os).
Proof.
  intros Hos Hsp Hevs. unfold hear.
  rewrite app_nil_r reverse_involutive (handle_all_reports strtod show _ _ _ Hevs Hsp).
  by destruct (hear_rooms strtod show ts os [] (vars_start zero) Hos) as (v & -> & _ & _ & ->).
Qed.

(** C9. The program prints, for every room of its file, the names in it and
    its edges in the order of the text, each with the numbers of its two
    points, and a line at its end.  The rooms are the expressions that the
    reader gets from the pieces of the file ([file_expressions]); the parser
    calls the handlers for their parts while it builds them, also when a room
    goes on in the next piece.  Afterwards the library owns no memory. *)
Theorem callbacks_prints_edges ss gs fd chunks os :
  params_ok ss gs -> Forall chunk_ok chunks ->
  file_defined (listen_rounds chunks) a_init None chunks = true ->
  mapM (room_text strtod show) (file_rooms chunks) = Some os -> file_rest chunks = [] ->
  Z.of_nat (2 * total chunks) < int_max ->
  ⦃ g_reads ↦ (Some <$> chunks : list (option (list Z))) ∗ g_trace ↦ ([] : list event) ∗
    globals ss gs ∗ errno_own ⦄
    callbacks strtod show zero fd
  ⟪ out, ⌈out = concat os⌉ ∗ (∃ l : list (list Z), g_reads ↦ (Some <$> l : list (option (list Z)))) ∗
         (∃ tr : list event, g_trace ↦ tr) ∗ globals ss gs ∗ errno_own ⟫.
Proof.
  intros (Hss & Hgs & Hsz) Hok Hdef Hos Hrest Hlen. iIntros "(Hr & Htr & Hg & He)".
  iDestruct (globals_env with "Hg") as "(Hm & Hp & Hs & Hg)". unfold callbacks. wp_bind_head.
  iApply wp_alloc. iIntros (hs) "Hh". wp_bind_head.
  iApply (wp_init_iowrap with "Hm"). iIntros (iow buf) "Hi Hb Hm". wp_bind_head.
  iApply (wp_init_continuation_fresh ss gs with "Hm Hs"); [done..|].
  iIntros (cc s v vc) "Hcc Hvc Hbuf Hst Hm Hs". wp_bind_head.
  iApply (wp_modify with "Hi"). iIntros "Hi". fields. wp_bind_head.
  iApply (wp_modify with "Hcc"). iIntros "Hcc". fields. wp_bind_head.
  iApply (wp_listen_fuel with "Hr"). iIntros "Hr". wp_bind_head.
  iApply (wp_listen ss gs Hss Hgs Hsz iow buf fd (Z.of_nat (2 * total chunks)) Hlen _
            (listen_rounds chunks) 0 (Watched hs [] []) (total chunks) a_init None chunks None None
            with "[] [Hi Hb Hr Hcc Hvc Hbuf Hst Hh Htr Hm Hp Hs Hg He]");
    [done|done|unfold listen_rounds, reads_left; lia..|simpl; lia|done| |].
  { iApply (first_used_up with "Hi Hb Hr Hcc Hvc Hbuf Hst Hh Htr [$Hm $Hp $Hs $Hg] He"); done. }
  iIntros (N w) "%H Hc Hw". destruct H as [HN Hsp]. fold (file_rooms chunks) in Hsp |- *.
  fold (file_rest chunks). rewrite Hrest app_nil_r. wp_bind_head.
  iApply (wp_destroy_iowrap ss gs iow buf fd N _ Hlen _ w (2 * total chunks) with "Hc");
    [simpl in HN; lia|done|].
  iIntros "(Hm & Hp & Hs & Hg) He Hr". wp_bind_head.
  iApply (wp_sexp_cleanup with "Hp Hm"). iIntros "Hc1 Hc2 Hm".
  iDestruct "Hw" as "[Hh (%evs & Htr & %Hevs)]". wp_bind_head.
  iApply (wp_gget with "Htr"). iIntros "Htr". rewrite (hear_trace _ _ _ Hos Hsp Hevs). wp_ret.
  wp_bind_head. iApply (wp_dealloc with "Hh"). iApply wp_ret. by iFrame.
Qed.
End theorems.

(** Two rooms; the second piece of the file goes on inside an edge. *)
Definition demo_rooms : list (list Z) :=
  [txt "(none) (edges ; a room" ++ [c_lf] ++ txt "( ( 1.1 2.2 ) (2.";
   txt "2 3.3) ) ((2.2 3.3) (0 0)) )" ++ [c_lf]].

Lemma callbacks_prints_edges_witness :
  let strtod s := s in
  let os := default [] (mapM (room_text strtod strtod) (file_rooms demo_rooms)) in
  let cells := (g_reads, CReads (Some <$> demo_rooms)) :: (g_trace, CTrace []) ::
               demo_globals [] in
  (concat os = txt "none" ++ [c_lf] ++ txt "All edges for room found." ++ [c_lf] ++
     txt "edges" ++ [c_lf] ++
     txt "EDGE DEFINED FROM (1.1,2.2) to (2.2,3.3)" ++ [c_lf] ++
     txt "EDGE DEFINED FROM (2.2,3.3) to (0,0)" ++ [c_lf] ++
     txt "All edges for room found." ++ [c_lf]) /\
  exists x h, callbacks strtod strtod [] 0 (heap_of cells) = Done x h /\
    ((⌈x = concat os⌉ ∗ (∃ l : list (list Z), g_reads ↦ (Some <$> l : list (option (list Z)))) ∗
      (∃ tr : list event, g_trace ↦ tr) ∗ globals 256 64 ∗ errno_own) ∗
     60%positive ↦ ([] ++ replicate 40 (Indet : fld Z)))%I h.
Proof.
  intros strtod os cells. split; [by vm_compute|].
  refine (run_frame _ _ _ _ cells
    (callbacks_prints_edges strtod strtod [] 256 64 0 demo_rooms os _ _ _ _ _ _) _ _).
  - by vm_compute.
  - repeat (constructor; [split_and!; [done|by vm_compute|apply (bool_decide_unpack _); by vm_compute]|]).
    constructor.
  - by vm_compute.
  - by vm_compute.
  - by vm_compute.
  - by vm_compute.
  - apply (bool_decide_unpack _). by vm_compute.
  - iIntros "(Hr & Ht & H)". iDestruct (demo_globals_cells with "H") as "($ & $ & $ & _)".
    iSplitL "Hr"; [iExact "Hr"|iExact "Ht"].
Defined.
