(* ===== verification/ContinuationsSpec.v ===== *)
(** What [Continuations] prints: every piece of the file, and behind it the
    expressions that end in it. *)
From S2P Require Import Prelude SexpTypes CMem SepLogic SexpMemory FastStack CLib CString.
From S2P Require Import ElementPool Trees Layout SexpOps Sexp Print ParserStates EventParser.
From S2P Require Import Parser Binmode SimpleInterp Continuations Machine Simulation Refinement.
From S2P Require Import ParserSpec ParseSexp Syntax PrintSpec RoundTrip Frozen DictSpec.

#[local] Existing Instances default_mem cached_pool.

(** ** The text that is printed *)

(** The expressions that are complete in a piece, and what the parser is in
    the middle of at its end; none if there is an error. *)
Fixpoint drain (n : nat) (a : astate) (s : list Z) : option (list tree * astate) :=
  match n with
  | O => None
  | S n =>
      match arun a s with
      | AStop a' => Some ([], a')
      | ARet _ (Some t) a' rest => '(ts, a') ← drain n a' rest; Some (t :: ts, a')
      | _ => None
      end
  end.

(** As much of an expression as the buffer holds. *)
Definition shown (t : tree) : list Z := [c_lf; c_lf] ++ take 4095 (tree_text t) ++ [c_lf].
Definition echo (c : list Z) : list Z := [91] ++ c ++ [93; c_lf].

Fixpoint session (a : astate) (chunks : list (list Z)) : option (list Z * astate) :=
  match chunks with
  | [] => Some (echo [], a)
  | c :: cs =>
      '(ts, a) ← drain (S (ameasure a c)) a c;
      '(out, a) ← session a cs;
      Some (echo c ++ concat (map shown ts) ++ out, a)
  end.

(** A read gives some of the sixteen bytes, none of them NUL. *)
Definition piece_ok (c : list Z) : Prop :=
  c <> [] /\ (length c <= 16)%nat /\ Forall (fun c => c <> 0) c.

Section rounds.
Variables (ss gs : Z) (foo buf : loc).
Hypotheses (Hss : 0 < ss) (Hgs : 0 < gs) (Hsz : ss + 2 * gs + 2 ^ 31 < 2 ^ 64).

(** The buffer that expressions are printed into. *)
Definition room : hprop := (∃ b : list (fld Z), ⌈Z.of_nat (length b) = 4096⌉ ∗ buf ↦ b)%I.

(** A complete expression is printed and released. *)
Lemma wp_show t l n m o (k : M (ptr + ptr)) Φ :
  textual t = true -> Z.of_nat (n + tree_size t) < int_max ->
  tree_at t l None -∗ room -∗ mem_ok -∗ pool_ok n m -∗ errno_own -∗ g_stdout ↦ o -∗
  (room -∗ mem_ok -∗ pool_ok (S n + tree_size t) m -∗ errno_own -∗ g_stdout ↦ (o ++ shown t) -∗
     wp k Φ) -∗
  wp (print_sexp (Some (buf, 0)) 4096 (Some l);;
      text ← load_string (Some (buf, 0));
      printf ([c_lf; c_lf] ++ text ++ [c_lf]);;
      destroy_sexp (Some l);;
      k) Φ.
Proof.
  iIntros (Htx Hn) "Ht (%b & %Hb & Hb) Hm Hp He Ho HΦ". wp_bind_head.
  iAssert (∀ r : Z, out buf [] b (take 4095 (tree_text t) ++ [c_nul]) -∗ tree_at t l None -∗ mem_ok -∗
    pool_ok (S n) m -∗ errno_own -∗
    wp (text ← load_string (Some (buf, 0)); printf ([c_lf; c_lf] ++ text ++ [c_lf]);;
        destroy_sexp (Some l);; k) Φ)%I with "[Ho HΦ]" as "Hrest".
  { iIntros (_) "Hb Ht Hm Hp He". iDestruct (tree_no_nul with "Ht") as %Hnul; [done|].
    assert (no_nul (take 4095 (tree_text t))) as Hnul2 by by apply Forall_take.
    unfold out. cbn [app]. rewrite fmap_app -(assoc_L app). cbn [fmap list_fmap app]. wp_bind_head.
    iApply (wp_load_string with "Hb"); [done|]. iIntros "Hb". wp_bind_head.
    iApply (wp_printf with "Ho"). iIntros "Ho". wp_bind_head.
    iApply (wp_destroy_sexp [t] with "[Ht] Hp Hm"); [simpl; lia|iExists l, None; by iFrame|].
    iIntros "Hp Hm". rewrite /= Nat.add_0_r. iApply ("HΦ" with "[Hb] Hm Hp He Ho").
    iExists _. iFrame "Hb". iPureIntro.
    rewrite length_app length_fmap /= length_drop length_app /= length_take. lia. }
  iApply (wp_print_sexp buf [] b 4096 t l None n m with "Hb Ht Hm Hp He"); [lia|lia|done|lia..|].
  iSplit.
  - iIntros "%Hlt Hb Hm Hp He Ht". rewrite take_ge; [|lia].
    iApply ("Hrest" $! 0 with "Hb Ht Hm Hp He").
  - iIntros "(_ & Ht & Hm & Hp & He & Hb)". iApply ("Hrest" $! 0 with "Hb Ht Hm Hp [He]").
    by iExists _.
Qed.

(** Between two reads: what the parser is in the middle of. *)
Definition waiting (cc : loc) (a : astate) (N : nat) (B : Z) : hprop :=
  (∃ sb m, cont_ready ss gs cc a None sb ∗ parser_env ss gs N m ∗ errno_own ∗
     ⌈budget B a [] m /\ a_wf a /\ texts a⌉)%I.

Section piece.
Variables (cc : loc) (blk : list (fld Z)) (len term : Z) (post : list (fld Z)) (B : Z).
Hypotheses (Hlen : 0 <= len < 2 ^ 31) (Hend : end_ok blk term post (0 + len)) (HB : B < int_max).

(** The rest of a piece is parsed and shown. *)
Lemma wp_show_loop n : forall a s ts a' sx N o fuel Φ,
  drain n a s = Some (ts, a') -> texts a -> (n <= fuel)%nat ->
  Z.of_nat (N + 2 * weight a s) < int_max ->
  ianswer ss gs cc foo blk 0 term post N B (arun a s) sx -∗ room -∗ g_stdout ↦ o -∗
  (∀ N', ⌈(N' + 2 * weight a' [] <= N + 2 * weight a s)%nat⌉ -∗ waiting cc a' N' B -∗
     foo ↦ blk -∗ room -∗ g_stdout ↦ (o ++ concat (map shown ts)) -∗ Φ None) -∗
  wp (while fuel (show_body foo buf len (Some cc)) sx) Φ.
Proof.
  induction n as [|n IH]; intros a s ts a' sx N o fuel Φ Hdr Htx Hf HN; [done|].
  destruct fuel as [|fuel]; [lia|]. iIntros "Ha Hb Ho HΦ". cbn [drain while] in *.
  pose proof (arun_bounded a s) as Hw. pose proof (arun_texts a s Htx) as Hty.
  destruct (arun a s) as [a1|err t a1 rest|] eqn:Hs; [| |done]; simpl ianswer.
  - injection Hdr as <- <-. iDestruct "Ha" as "([%Hwf ->] & Hcc & Henv & He)".
    iDestruct (parser_env_of_env with "Henv") as (m) "(Henv & %Hbud & Hl)".
    wp_bind_head. wp_ret. iApply wp_ret. rewrite app_nil_r.
    iApply ("HΦ" $! N with "[] [Hcc Henv He] Hl Hb Ho"); [iPureIntro; lia|].
    iExists _, m. rewrite cont_at_ready. iFrame "Hcc Henv". iSplitL; [by iExists _|done].
  - destruct t as [t|]; [|done]. destruct Hty as (_ & Htt & Htx1).
    apply bind_Some in Hdr as ([ts1 a2] & Hdr & [= <- <-]).
    iDestruct "Ha" as (i) "([%Hi %Hwf] & Ht & Hcc & Henv & He)". iDestruct "Ht" as (l) "[-> Ht]".
    iDestruct (parser_env_of_env with "Henv") as (m) "((Hm & Hp & Hg) & %Hbud & Hl)".
    simpl in Hw. unfold show_body at 2. iApply wp_bind.
    iApply (wp_show t l N m o with "Ht Hb Hm Hp [He] Ho"); [done|lia|by iExists _|].
    iIntros "Hb Hm Hp He Ho". wp_bind_head. rewrite (u64_small len); [|lia].
    rewrite cont_at_ready. pose proof (texts_mode _ Htx1).
    iApply (wp_iparse_sexp ss gs Hss Hgs Hsz cc a1 foo blk _ _ _ 0 i len rest term post _ m B
      with "Hcc [$Hm $Hp $Hg] He Hl"); try done.
    { destruct Htx1 as (Hin & _). by apply plain_stop_ok. }
    { intros Hr. destruct n; [done|]. cbn [drain] in Hdr. by rewrite Hr in Hdr. }
    iIntros (sx) "Ha". wp_ret. pose proof (tree_size_pos t).
    iApply (IH with "Ha Hb Ho"); [done|done|lia|lia|]. iIntros (N') "%HN' Hw Hl Hb Ho".
    iApply ("HΦ" with "[] Hw Hl Hb [Ho]"); [iPureIntro; lia|].
    cbn [map concat]. by rewrite -(assoc_L app o).
Qed.
End piece.

(** Before the first read there is no continuation. *)
Definition begun (cc : ptr) (a : astate) (N : nat) (B : Z) : hprop :=
  match cc with
  | Some l => waiting l a N B
  | None =>
      ⌈a = a_init⌉ ∗ (∃ m, parser_env ss gs N m ∗ ⌈budget B a_init [] m⌉) ∗ errno_own
  end%I.

Lemma wp_begin cc a N B Φ :
  begun cc a N B -∗ (∀ l, waiting l a N B -∗ Φ (Some l)) -∗
  wp (match cc with
      | None => init_continuation (Some (foo, 0))
      | Some _ => mret cc
      end) Φ.
Proof.
  iIntros "Hc HΦ". destruct cc as [l|]; simpl; [iApply wp_ret; by iApply "HΦ"|].
  iDestruct "Hc" as "(-> & (%m & (Hm & Hp & Hs & Hg) & %Hb) & He)".
  iApply (wp_init_continuation_ready ss gs with "Hm Hs"); [done..|]. iIntros (l) "Hcc Hm Hs".
  iApply "HΦ". iExists _, m. iFrame. iPureIntro. split_and!; [done|by split|apply a_init_texts].
Qed.

(** The sixteen bytes. *)
Definition bytes_at : hprop := (∃ b : list (fld Z), ⌈length b = 255%nat⌉ ∗ foo ↦ b)%I.

Lemma wp_read_piece c cs (b : list (fld Z)) Φ :
  piece_ok c -> length b = 255%nat ->
  foo ↦ b -∗ g_reads ↦ (Some <$> c :: cs : list (option (list Z))) -∗
  (foo ↦ ((Det <$> c) ++ drop (length c) b) -∗
     g_reads ↦ (Some <$> cs : list (option (list Z))) -∗ Φ (Z.of_nat (length c))) -∗
  wp (read_into (Some (foo, 0)) 16) Φ.
Proof.
  iIntros ((_ & Hc & _) Hb) "Hf Hr HΦ". unfold read_into. wp_bind_head.
  iApply (wp_gget with "Hr"). iIntros "Hr". cbn [fmap list_fmap].
  change (Z.to_nat 16) with 16%nat. rewrite (drop_ge c) // (take_ge c) //. wp_bind_head.
  iApply (wp_gset with "Hr"). iIntros "Hr". wp_bind_head. iApply (wp_store_bytes with "Hf").
  { apply splice_start. rewrite length_fmap. lia. }
  rewrite length_fmap. iIntros "Hf". wp_ret. iApply ("HΦ" with "Hf Hr").
Qed.

(** The bytes are shown. *)
Lemma wp_echo {A} c (x : list (fld Z)) o (k : M A) Φ :
  no_nul c -> (0 < length x)%nat ->
  foo ↦ ((Det <$> c) ++ x) -∗ g_stdout ↦ o -∗
  (foo ↦ ((Det <$> c) ++ Det c_nul :: drop 1 x) -∗ g_stdout ↦ (o ++ echo c) -∗ wp k Φ) -∗
  wp (store_char (Some (foo, Z.of_nat (length c))) c_nul;;
      text ← load_string (Some (foo, 0));
      printf ([91] ++ text ++ [93; c_lf]);;
      k) Φ.
Proof.
  iIntros (Hc Hx) "Hf Ho HΦ". destruct x as [|y x]; simpl in Hx; [lia|]. wp_bind_head.
  iApply (wp_store_char with "Hf").
  { apply blk_set_app. by rewrite length_fmap. }
  iIntros "Hf". wp_bind_head. iApply (wp_load_string with "Hf"); [done|]. iIntros "Hf".
  wp_bind_head. iApply (wp_printf with "Ho"). iIntros "Ho". iApply ("HΦ" with "Hf Ho").
Qed.

(** The bound on the inner loop looks at the bytes. *)
Lemma wp_show_fuel cc blk term post N B r sx Φ :
  ianswer ss gs cc foo blk 0 term post N B r sx -∗
  (ianswer ss gs cc foo blk 0 term post N B r sx -∗ Φ (4 * length blk + 5)%nat) -∗
  wp (parse_fuel (Some (foo, 0))) Φ.
Proof.
  iIntros "Ha HΦ". unfold parse_fuel. destruct r as [a|err t a rest|]; [| |done]; simpl ianswer.
  - iDestruct "Ha" as "(H & Hcc & (Hm & Hp & Hs & Hg & Hl) & He)". wp_bind_head.
    iApply (wp_load with "Hl"). iIntros "Hl". wp_ret. iApply "HΦ". iFrame.
  - iDestruct "Ha" as (i) "(H & Ht & Hcc & (Hm & Hp & Hs & Hg & Hl) & He)". wp_bind_head.
    iApply (wp_load with "Hl"). iIntros "Hl". wp_ret. iApply "HΦ". iExists i. iFrame.
Qed.

(** A round with a piece of the file. *)
Lemma wp_round c cs a ts a' len cc N B o Φ :
  piece_ok c -> drain (S (ameasure a c)) a c = Some (ts, a') -> len <> 0 ->
  Z.of_nat (N + 2 * weight a c) < int_max -> B + 2 * Z.of_nat (length c) < int_max ->
  bytes_at -∗ room -∗ g_stdout ↦ o -∗
  g_reads ↦ (Some <$> c :: cs : list (option (list Z))) -∗ begun cc a N B -∗
  (∀ l N', ⌈(N' + 2 * weight a' [] <= N + 2 * weight a c)%nat⌉ -∗
     bytes_at -∗ room -∗ g_stdout ↦ (o ++ echo c ++ concat (map shown ts)) -∗
     g_reads ↦ (Some <$> cs : list (option (list Z))) -∗
     begun (Some l) a' N' (B + 2 * Z.of_nat (length c)) -∗
     Φ (inl (Z.of_nat (length c), Some l, None))) -∗
  wp (round_body foo buf (len, cc, None)) Φ.
Proof.
  iIntros (Hc Hdr Hnz HN HB) "(%b & %Hb & Hf) Hbuf Ho Hr Hcc HΦ". unfold round_body.
  destruct (Z.eqb_spec len 0); [done|]. wp_bind_head.
  iApply (wp_read_piece c cs b with "Hf Hr"); [done..|]. iIntros "Hf Hr".
  destruct Hc as (Hne & Hlen & Hnul).
  iApply (wp_echo c (drop (length c) b) o with "Hf Ho"); [done|rewrite length_drop; lia|].
  rewrite drop_drop. iIntros "Hf Ho". wp_bind_head.
  iApply (wp_begin with "Hcc"). iIntros (l) "(%sb & %m & Hcc & Henv & He & %H)".
  destruct H as (Hbud & Hwf & Htx). wp_bind_head.
  destruct (Z.ltb_spec 0 (Z.of_nat (length c))); [|destruct c; [done|simpl in *; lia]].
  rewrite u64_small; [|lia].
  set (post := drop (length c + 1) b). set (blk := (Det <$> c) ++ Det c_nul :: post).
  assert (length blk = 255%nat) as Hblk.
  { unfold blk, post. rewrite length_app length_fmap /= length_drop. lia. }
  assert (end_ok blk 0 post (0 + Z.of_nat (length c))) as Hend.
  { left. unfold text_end, blk. rewrite length_app length_fmap /=. lia. }
  pose proof (texts_mode _ Htx).
  iApply (wp_iparse_sexp ss gs Hss Hgs Hsz l a foo blk _ None sb 0 0 (Z.of_nat (length c)) c 0 post N m
    (B + 2 * Z.of_nat (length c)) with "Hcc Henv He Hf"); try done.
  { destruct Htx as (Hin & _). by apply plain_stop_ok. }
  { intros Hr. cbn [drain] in Hdr. by rewrite Hr in Hdr. }
  { destruct Hbud as [H1 H2]. split; simpl in *; case_decide; lia. }
  iIntros (sx) "Ha". wp_bind_head. iApply (wp_show_fuel with "Ha"). iIntros "Ha". wp_bind_head.
  pose proof (pot_le a). assert (0 <= Z.of_nat (length c) < 2 ^ 31) as Hrange by lia.
  iApply (wp_show_loop l blk _ 0 post _ Hrange Hend with "Ha Hbuf Ho"); [|done|done| |done|].
  { done. } { unfold ameasure. lia. }
  iIntros (N') "HN' Hw Hf Hbuf Ho". wp_ret.
  iApply ("HΦ" $! l N' with "HN' [Hf] Hbuf [Ho] Hr Hw").
  - iExists blk. by iFrame.
  - by rewrite (assoc_L app).
Qed.

(** The end of the file: an empty piece is shown, and nothing is parsed. *)
Lemma wp_last_round a len cc N B o Φ :
  len <> 0 ->
  bytes_at -∗ room -∗ g_stdout ↦ o -∗
  g_reads ↦ ([] : list (option (list Z))) -∗ begun cc a N B -∗
  (∀ l, bytes_at -∗ room -∗ g_stdout ↦ (o ++ echo []) -∗
     g_reads ↦ ([] : list (option (list Z))) -∗ waiting l a N B -∗ Φ (inl (0, Some l, None))) -∗
  wp (round_body foo buf (len, cc, None)) Φ.
Proof.
  iIntros (Hnz) "(%b & %Hb & Hf) Hbuf Ho Hr Hcc HΦ". unfold round_body.
  destruct (Z.eqb_spec len 0); [done|]. wp_bind_head. unfold read_into. wp_bind_head.
  iApply (wp_gget with "Hr"). iIntros "Hr". wp_ret.
  iApply (wp_echo [] b o with "Hf Ho"); [constructor|lia|]. iIntros "Hf Ho". wp_bind_head.
  iApply (wp_begin with "Hcc"). iIntros (l) "Hw". wp_ret. unfold parse_fuel. wp_bind_head. wp_bind_head.
  iApply (wp_load with "Hf"). iIntros "Hf". wp_ret. wp_bind_head.
  set (blk := (Det <$> []) ++ Det c_nul :: drop 1 b).
  replace (4 * length blk + 5)%nat with (S (4 * length blk + 4)) by lia. cbn [while].
  wp_bind_head. unfold show_body. wp_ret. iApply wp_ret. wp_ret.
  iApply ("HΦ" with "[Hf] Hbuf Ho Hr Hw"). iExists blk. iFrame "Hf". iPureIntro.
  unfold blk. rewrite /= length_drop. lia.
Qed.

(** The whole file. *)
Lemma wp_rounds chunks : forall a len cc N B o out a' fuel Φ,
  Forall piece_ok chunks -> session a chunks = Some (out, a') -> len <> 0 ->
  (S (length chunks) < fuel)%nat ->
  Z.of_nat (N + 2 * weight a (concat chunks)) < int_max ->
  B + 2 * Z.of_nat (length (concat chunks)) < int_max ->
  bytes_at -∗ room -∗ g_stdout ↦ o -∗
  g_reads ↦ (Some <$> chunks : list (option (list Z))) -∗ begun cc a N B -∗
  (∀ l N', ⌈(N' + 2 * weight a' [] <= N + 2 * weight a (concat chunks))%nat⌉ -∗
     bytes_at -∗ room -∗ g_stdout ↦ (o ++ out) -∗ g_reads ↦ ([] : list (option (list Z))) -∗
     waiting l a' N' (B + 2 * Z.of_nat (length (concat chunks))) -∗ Φ (0, Some l, None)) -∗
  wp (while fuel (round_body foo buf) (len, cc, None)) Φ.
Proof.
  induction chunks as [|c cs IH]; intros a len cc N B o out a' fuel Φ Hok Hses Hnz Hf HN HB;
    (destruct fuel as [|fuel]; [lia|]); iIntros "Hf Hbuf Ho Hr Hcc HΦ"; cbn [while]; wp_bind_head.
  - injection Hses as <- <-. simpl in Hf. destruct fuel as [|fuel]; [lia|].
    iApply (wp_last_round with "Hf Hbuf Ho Hr Hcc"); [done|]. iIntros (l) "Hf Hbuf Ho Hr Hw".
    cbn [while]. wp_bind_head. unfold round_body at 1. wp_ret. iApply wp_ret.
    rewrite Z.add_0_r. by iApply ("HΦ" $! l N with "[] Hf Hbuf Ho Hr Hw").
  - apply Forall_cons in Hok as [Hc Hok]. simpl in Hses, Hf.
    apply bind_Some in Hses as ([ts a1] & Hdr & Hses).
    apply bind_Some in Hses as ([out1 a2] & Hses & [= <- <-]).
    assert (weight a (concat (c :: cs)) = weight a c + length (concat cs))%nat as Hw.
    { unfold weight. simpl. rewrite length_app. lia. }
    rewrite Hw in HN |- *. simpl concat in HB |- *. rewrite length_app in HB |- *.
    iApply (wp_round with "Hf Hbuf Ho Hr Hcc"); [done..|lia|lia|].
    iIntros (l N1) "%HN1 Hf Hbuf Ho Hr Hcc".
    assert (weight a1 (concat cs) = weight a1 [] + length (concat cs))%nat as Hw1.
    { unfold weight. simpl. lia. }
    destruct Hc as (Hne & _).
    iApply (IH with "Hf Hbuf Ho Hr Hcc"); [done|done| |lia|lia|lia|].
    { destruct c; [done|simpl; lia]. }
    iIntros (l' N2) "%HN2 Hf Hbuf Ho Hr Hw". rewrite -!(assoc_L app).
    replace (B + 2 * Z.of_nat (length c + length (concat cs))) with
      (B + 2 * Z.of_nat (length c) + 2 * Z.of_nat (length (concat cs))) by lia.
    iApply ("HΦ" with "[] Hf Hbuf Ho Hr Hw"). iPureIntro. lia.
Qed.
End rounds.

Lemma script_size_length chunks : (length chunks <= script_size (Some <$> chunks))%nat.
Proof.
  induction chunks as [|c cs IH]; [simpl; lia|].
  change (script_size _) with (S (length c + script_size (Some <$> cs))). simpl. lia.
Qed.

(** C10. The program shows its file in the pieces that [read] gives it, at
    most sixteen bytes each, and behind every piece the expressions that end
    in it, cut off where they do not fit into the buffer: an expression goes
    on in the next piece wherever the file is cut.  At the end it shows an
    empty piece and releases what is still open; the library then owns no
    memory. *)
Theorem continuations_prints ss gs chunks text a :
  params_ok ss gs -> Forall piece_ok chunks -> session a_init chunks = Some (text, a) ->
  Z.of_nat (2 * length (concat chunks)) < int_max ->
  ⦃ g_reads ↦ (Some <$> chunks : list (option (list Z))) ∗ g_stdout ↦ ([] : list Z) ∗
    globals ss gs ∗ errno_own ⦄
    continuations
  ⟪ _, g_reads ↦ ([] : list (option (list Z))) ∗ g_stdout ↦ text ∗ globals ss gs ∗ errno_own ⟫.
Proof.
  intros (Hss & Hgs & Hsz) Hok Hses Hlen. iIntros "(Hr & Ho & Hg & He)".
  iDestruct (globals_env with "Hg") as "Henv". unfold continuations. wp_bind_head.
  iApply wp_alloc. iIntros (foo) "Hf". wp_bind_head. iApply wp_alloc. iIntros (buf) "Hb".
  unfold rounds_fuel. wp_bind_head. wp_bind_head. iApply (wp_gget with "Hr"). iIntros "Hr". wp_ret.
  pose proof (script_size_length chunks). wp_bind_head.
  assert (weight a_init (concat chunks) = length (concat chunks)) as Hw by done.
  iApply (wp_rounds ss gs foo buf Hss Hgs Hsz chunks a_init (-1) None 0 0
    with "[Hf] [Hb] Ho Hr [Henv He]"); [done|done|done|lia|rewrite Hw; lia|lia| | | |].
  { iExists _. iFrame "Hf". iPureIntro. by rewrite length_replicate. }
  { iExists _. iFrame "Hb". iPureIntro. by rewrite length_replicate. }
  { iSplit; [done|]. iFrame "He". iExists 0%nat. iFrame "Henv". iPureIntro. by split. }
  iIntros (l N) "%HN (%b & _ & Hf) (%b2 & _ & Hb) Ho Hr
    (%sb & %m & Hcc & (Hm & Hp & Hs & Hg) & He & %Hend)".
  destruct Hend as ([Hbud _] & _). rewrite Hw in HN. unfold weight in HN. simpl in HN, Hbud.
  wp_bind_head. iApply (wp_destroy_continuation _ ss gs with "Hcc Hp Hm"); [lia|lia|].
  iIntros "Hp Hm". wp_bind_head. iApply (wp_sexp_cleanup with "Hp Hm"). iIntros "Hc1 Hc2 Hm".
  wp_bind_head. iApply (wp_dealloc with "Hf"). iApply (wp_dealloc with "Hb"). by iFrame.
Qed.

(** An expression that goes on in the second piece, a word that ends with it,
    and a list that is never closed. *)
Definition demo_pieces : list (list Z) :=
  [bytes_of_string "(a (b c) d) (e f"; bytes_of_string " ) g "; bytes_of_string "(h"].

Lemma continuations_prints_witness :
  let text := echo (bytes_of_string "(a (b c) d) (e f") ++
    [c_lf; c_lf] ++ bytes_of_string "(a (b c) d)" ++ [c_lf] ++
    echo (bytes_of_string " ) g ") ++
    [c_lf; c_lf] ++ bytes_of_string "(e f)" ++ [c_lf] ++
    [c_lf; c_lf] ++ bytes_of_string "g" ++ [c_lf] ++
    echo (bytes_of_string "(h") ++ echo [] in
  let cells := (g_reads, CReads (Some <$> demo_pieces)) :: (g_stdout, CText []) ::
               demo_globals [] in
  exists x h, continuations (heap_of cells) = Done x h /\
    ((g_reads ↦ ([] : list (option (list Z))) ∗ g_stdout ↦ text ∗ globals 256 64 ∗ errno_own) ∗
     60%positive ↦ ([] ++ replicate 40 (Indet : fld Z)))%I h.
Proof.
  intros text cells. refine (run_frame _ _ _ _ cells
    (continuations_prints 256 64 demo_pieces text _ _ _ _ _) _ _).
  - by vm_compute.
  - repeat (constructor; [split_and!; [done|apply (bool_decide_unpack _); by vm_compute..]|]).
    constructor.
  - vm_compute. reflexivity.
  - by vm_compute.
  - apply (bool_decide_unpack _). by vm_compute.
  - iIntros "(Hr & Ho & H)". iDestruct (demo_globals_cells with "H") as "($ & $ & $ & _)".
    iSplitL "Hr"; [iExact "Hr"|iExact "Ho"].
Defined.
