(* ===== verification/VisSpec.v ===== *)
(** What the Graphviz output shows: a node for every element of the
    expression, and an edge for every link. *)
From Stdlib Require Import String.
From S2P Require Import Prelude SexpTypes CMem SepLogic SexpMemory FastStack CLib ElementPool.
From S2P Require Import Trees Layout SexpSearch Vis.

#[local] Open Scope list_scope.

#[local] Opaque txt dot_head dot_end dot_edge dot_aty.

(** A line of the output. *)
Inductive dot_line : Type :=
  | DNode (l : loc) (label : list Z)
  | DEdge (l : loc) (field : string) (l' : loc).

Definition render (x : dot_line) : list Z :=
  match x with
  | DNode l label => dot_head l ++ label ++ dot_end
  | DEdge l f l' => dot_edge l f l'
  end.
Definition render_all (xs : list dot_line) : list Z := flat_map render xs.

Definition children (t : ltree) : list ltree :=
  match t with LNode _ ts => ts | _ => [] end.

(** The label of an element; an atom shows its string and the sizes of its
    block and of the string in it. *)
Inductive label_of : ltree -> list Z -> Prop :=
  | label_atom l aty s va vu :
      aty <> SEXP_BINARY -> Z.of_nat (length s) <= vu <= va ->
      label_of (LAtom l aty s)
        (txt "{ <type> SEXP_VALUE | " ++ dot_aty aty ++ txt "| { va=" ++ digits va ++
         txt " | vu=" ++ digits vu ++ txt " } | val=" ++ s ++ txt " | <next> next")
  | label_binary l d :
      label_of (LBinary l d)
        (txt "{ <type> SEXP_VALUE | " ++ dot_aty SEXP_BINARY ++ txt "| binlength=" ++
         digits (Z.of_nat (length d)) ++ txt " | <next> next")
  | label_list l ts :
      label_of (LNode l ts) (txt "<type> SEXP_LIST" ++ txt "| <list> list | <next> next").

Definition link (l : loc) (field : string) (p : ptr) : list dot_line :=
  match p with None => [] | Some l' => [DEdge l field l'] end.

(** The drawing of the elements of a level, with what is below them. *)
Inductive draws : list ltree -> list dot_line -> Prop :=
  | draws_nil : draws [] []
  | draws_cons t ts label below rest :
      label_of t label -> draws (children t) below -> draws ts rest ->
      draws (t :: ts)
        (DNode (lloc t) label :: link (lloc t) "list" (lstart (children t)) ++ below ++
         link (lloc t) "next" (lstart ts) ++ rest).

Lemma render_all_app xs ys : render_all (xs ++ ys) = render_all xs ++ render_all ys.
Proof. apply flat_map_app. Qed.

Lemma render_link l f p : render_all (link l f p) = dot_edge_opt l f p.
Proof. destruct p; simpl; by rewrite ?app_nil_r. Qed.

Lemma render_cons l label (below rest : list dot_line) p q :
  render_all (DNode l label :: link l "list" p ++ below ++ link l "next" q ++ rest) =
  dot_head l ++ (label ++ dot_end ++ dot_edge_opt l "list" p ++ render_all below) ++
  dot_edge_opt l "next" q ++ render_all rest.
Proof.
  change (render_all (DNode l label :: ?xs)) with (render (DNode l label) ++ render_all xs).
  rewrite !render_all_app !render_link. unfold render. by rewrite -!(assoc_L app).
Qed.

Section spec.
Context {api : MemApi} {pool : PoolApi}.

(** The text of an element, what is below it and what follows it. *)
Lemma drawn t ts label below xs text (R : hprop) Φ :
  label_of t label -> draws (children t) below -> draws ts xs ->
  text = dot_head (lloc t) ++
         (label ++ dot_end ++ dot_edge_opt (lloc t) "list" (lstart (children t)) ++
          render_all below) ++ dot_edge_opt (lloc t) "next" (lstart ts) ++ render_all xs ->
  (∀ ys, ⌈draws (t :: ts) ys⌉ -∗ R -∗ Φ (render_all ys)) -∗ R -∗ Φ text.
Proof.
  iIntros (Hl Hb Hxs ->) "HΦ HR". rewrite -render_cons.
  iApply ("HΦ" with "[] HR"). iPureIntro. by constructor.
Qed.

Lemma wp_dot_value e aty s lv b nx Φ :
  atom_elt e aty s lv b nx ->
  lv ↦ b -∗
  (∀ va vu, ⌈Z.of_nat (length s) <= vu <= va⌉ -∗ lv ↦ b -∗
     Φ (txt "| { va=" ++ digits va ++ txt " | vu=" ++ digits vu ++ txt " } | val=" ++ s ++
        txt " | <next> next" ++ dot_end)) -∗
  wp (dot_value aty e) Φ.
Proof.
  iIntros (He) "Hv HΦ". unfold dot_value.
  assert (forall A (x y : A), match aty with SEXP_BINARY => x | _ => y end = y) as ->.
  { pose proof (ae_text _ _ _ _ _ _ He). by destruct aty. }
  rewrite (ae_allocated _ _ _ _ _ _ He). wp_det.
  destruct (ae_used _ _ _ _ _ _ He) as (u & Hu & _ & Hle). rewrite Hu. wp_det.
  rewrite (ae_val _ _ _ _ _ _ He). wp_det. destruct (ae_string _ _ _ _ _ _ He) as [r Hb].
  wp_bind_head. iEval (rewrite Hb) in "Hv".
  iApply (wp_load_string with "Hv"); [by apply He|]. iIntros "Hv". wp_ret.
  iApply ("HΦ" $! (Z.of_nat (length b)) (Z.of_nat u) with "[]"); [iPureIntro; lia|].
  by rewrite Hb.
Qed.

(** What is below a list. *)
Lemma wp_dot_inner fuel l us Φ :
  (forall Ψ, lforest_at us -∗ (∀ xs, ⌈draws us xs⌉ -∗ lforest_at us -∗ Ψ (render_all xs)) -∗
     wp (sexp_to_dot_fuel fuel (lstart us)) Ψ) ->
  lforest_at us -∗
  (∀ below, ⌈draws us below⌉ -∗ lforest_at us -∗
     Φ (dot_edge_opt l "list" (lstart us) ++ render_all below)) -∗
  wp (match lstart us with
      | None => mret []
      | Some l' => t ← sexp_to_dot_fuel fuel (lstart us); mret (dot_edge l "list" l' ++ t)
      end) Φ.
Proof.
  iIntros (IH) "Hus HΦ". destruct us as [|u us].
  - iApply wp_ret. iApply ("HΦ" $! [] with "[] Hus"). iPureIntro. constructor.
  - iApply wp_bind. iApply (IH with "Hus"). iIntros (xs) "%Hxs Hus". iApply wp_ret.
    by iApply ("HΦ" $! xs with "[] Hus").
Qed.

Lemma wp_sexp_to_dot ts : forall fuel Φ,
  (lforest_size ts < fuel)%nat ->
  lforest_at ts -∗
  (∀ xs, ⌈draws ts xs⌉ -∗ lforest_at ts -∗ Φ (render_all xs)) -∗
  wp (sexp_to_dot_fuel fuel (lstart ts)) Φ.
Proof.
  induction ts as [|l aty s ts IH|l d ts IH|l us ts IHu IH] using lforest_ind;
    intros [|fuel] Φ Hf; simpl in Hf; try lia; iIntros "Hts HΦ"; cbn [sexp_to_dot_fuel lstart].
  - iApply wp_ret. iApply ("HΦ" $! [] with "[] Hts"). iPureIntro. constructor.
  - iDestruct "Hts" as "[Ht Hts]". iEval (rewrite ltree_at_atom) in "Ht".
    iDestruct "Ht" as "(%e & %lv & %b & %He & Hl & Hv)".
    wp_bind_head. iApply (wp_load with "Hl"). iIntros "Hl". rewrite (ae_ty _ _ _ _ _ _ He).
    wp_det. wp_bind_head. rewrite (ae_aty _ _ _ _ _ _ He). wp_det.
    wp_bind_head. iApply (wp_dot_value with "Hv"); [done|]. iIntros (va vu) "%Hvu Hv".
    wp_ret. wp_bind_head. rewrite (ae_next _ _ _ _ _ _ He).
    iApply (IH with "Hts"); [lia|]. iIntros (xs) "%Hxs Hts". iApply wp_ret.
    iApply (drawn (LAtom l aty s) ts _ [] xs with "HΦ").
    + apply (label_atom l aty s va vu); [by apply He|done].
    + constructor.
    + done.
    + simpl. by rewrite -!(assoc_L app).
    + simpl lforest_at. iFrame "Hts". rewrite ltree_at_atom. iExists e, lv, b. by iFrame.
  - iDestruct "Hts" as "[Ht Hts]". iEval (rewrite ltree_at_binary) in "Ht".
    iDestruct "Ht" as "(%e & %lb & [%He %Hval] & Hl & Hv)".
    wp_bind_head. iApply (wp_load with "Hl"). iIntros "Hl". rewrite (be_ty _ _ _ _ He).
    wp_det. wp_bind_head. rewrite (be_aty _ _ _ _ He). wp_det.
    wp_bind_head. unfold dot_value. rewrite (be_binlength _ _ _ _ He). wp_det. wp_ret.
    wp_ret. wp_bind_head. rewrite (be_next _ _ _ _ He).
    iApply (IH with "Hts"); [lia|]. iIntros (xs) "%Hxs Hts". iApply wp_ret.
    iApply (drawn (LBinary l d) ts _ [] xs with "HΦ").
    + constructor.
    + constructor.
    + done.
    + simpl. by rewrite -!(assoc_L app).
    + simpl lforest_at. iFrame "Hts". rewrite ltree_at_binary. iExists e, lb. by iFrame.
  - fold (lforest_size us) in Hf. iDestruct "Hts" as "[Ht Hts]".
    iEval (rewrite ltree_at_node) in "Ht". iDestruct "Ht" as "(%e & %He & Hl & Hus)".
    wp_bind_head. iApply (wp_load with "Hl"). iIntros "Hl". rewrite (le_ty _ _ _ He).
    wp_det. wp_bind_head. rewrite (le_list _ _ _ He). wp_bind_head.
    iApply (wp_dot_inner with "Hus"); [intros Ψ; apply IHu; lia|].
    iIntros (below) "%Hbelow Hus". wp_ret. wp_bind_head. rewrite (le_next _ _ _ He).
    iApply (IH with "Hts"); [lia|]. iIntros (xs) "%Hxs Hts". iApply wp_ret.
    iApply (drawn (LNode l us) ts _ below xs with "HΦ").
    + constructor.
    + exact Hbelow.
    + done.
    + simpl. by rewrite -!(assoc_L app).
    + simpl lforest_at. iFrame "Hts". rewrite ltree_at_node. iExists e. by iFrame.
Qed.

Lemma wp_sys_answers (answers : list bool) Φ :
  g_answers ↦ answers -∗ (g_answers ↦ tail answers -∗ Φ (default true (head answers))) -∗
  wp sys_answer Φ.
Proof.
  iIntros "Ha HΦ". unfold sys_answer. wp_gget. destruct answers as [|b answers]; simpl.
  - wp_ret. by iApply "HΦ".
  - wp_gset. wp_ret. by iApply "HΦ".
Qed.

(** C29. [sexp_to_dotfile] draws an expression and leaves it as it is: the
    file has one node for every element, with the label of its type and its
    contents, in the order of the expression, an edge to the first element
    of each list that has one and an edge to each successor, and nothing
    else; without a file to write to, nothing is written and the result is
    [SEXP_ERR_IO]. *)
Theorem sexp_to_dotfile_draws t ts fname answers :
  ⦃ lforest_at (t :: ts) ∗ g_answers ↦ answers ⦄
    sexp_to_dotfile (Some (lloc t)) (Some fname)
  ⟪ r, lforest_at (t :: ts) ∗ g_answers ↦ tail answers ∗
       if default true (head answers) then
         ∃ lines, ⌈draws (t :: ts) lines /\
           r = (SEXP_ERR_OK, txt "digraph sexp {" ++ txt newline ++ render_all lines ++
                             txt "}" ++ txt newline)⌉
       else ⌈r = (SEXP_ERR_IO, [])⌉ ⟫.
Proof.
  iIntros "[Ht Ha]". unfold sexp_to_dotfile. wp_bind_head.
  iApply (wp_sys_answers with "Ha"). iIntros "Ha".
  destruct (default true (head answers)).
  - wp_bind_head. unfold _sexp_to_dotfile. wp_bind_head.
    iApply (wp_heap_fuel (lforest_size (t :: ts)) with "Ht"); [apply lforest_cells|].
    iIntros (fuel) "%Hf Ht". iApply (wp_sexp_to_dot (t :: ts) with "Ht"); [done|].
    iIntros (xs) "%Hxs Ht". iApply wp_ret. iFrame. iExists xs. by iPureIntro.
  - iApply wp_ret. by iFrame.
Qed.
End spec.

(** The expression [((b)) b] in the file "b". *)
Lemma sexp_to_dotfile_draws_witness :
  exists r h,
    sexp_to_dotfile (lstart demo_lforest) (Some (60%positive, 0))
      (heap_of ((g_answers, CAnswers []) :: demo_search)) = Done r h /\
    ((lforest_at demo_lforest ∗ g_answers ↦ ([] : list bool) ∗
      ∃ lines, ⌈draws demo_lforest lines /\
        r = (SEXP_ERR_OK, txt "digraph sexp {" ++ txt newline ++ render_all lines ++
                          txt "}" ++ txt newline)⌉) ∗ name_at 60 [98] [])%I h.
Proof.
  refine (run_frame _ _ _ _ _ (sexp_to_dotfile_draws _ _ (60%positive, 0) []) _ _).
  - apply (bool_decide_unpack _). by vm_compute.
  - iIntros "[Ha H]". iDestruct (demo_search_cells with "H") as "[$ $]". iExact "Ha".
Defined.
