(* ===== verification/Defects.v ===== *)
(** Runs on which the code does not do what it means to do: each theorem
    evaluates the modelled functions on a concrete memory. *)
From S2P Require Import Prelude SexpTypes CMem SepLogic SexpMemory FastStack CLib CString.
From S2P Require Import ElementPool Trees Layout SexpOps Sexp Print ParserStates EventParser.
From S2P Require Import Parser PrintCont Io Binmode SimpleInterp ParseSexp.

#[local] Existing Instances default_mem cached_pool.

(** [parse_sexp] on a text that is followed by a NUL. *)
Definition parse_text (s : list Z) : outcome ptr :=
  parse_sexp (Some (text_block, 0)) (Z.of_nat (length s)) (heap_of (startup s)).

(** A backslash at the end of an atom is remembered beyond the atom: on
    [(a\ "")], where it hides the quote that ends the empty string, the
    parser leaves the atom's buffer. *)
Theorem stale_escape_writes_below_buffer :
  parse_text ([c_lparen; 97; c_bslash; c_space; c_dquote; c_dquote; c_rparen]) =
  Fault OutOfBounds.
Proof. vm_compute. reflexivity. Qed.

(** A string cut off after an escaped quote makes the parser step over
    the NUL behind the text and read on. *)
Theorem escape_at_end_reads_beyond_text :
  parse_text [c_dquote; c_bslash; c_dquote] = Fault OutOfBounds.
Proof. vm_compute. reflexivity. Qed.

(** ** Binary data in the printer *)

Definition demo_binary : tree := Binary [1; 2].
Definition print_binary_atom {p : PoolApi} (block : nat) (size : Z) : outcome Z :=
  print_sexp (Some (60%positive, 0)) size (Some 64%positive)
    (heap_of (idle ++ (60%positive, CChars (replicate block (Indet : fld Z))) ::
              place_forest [demo_binary] 64)).

(** The text of the atom is eight characters.  In a buffer of seven the
    data ends where the buffer ends; the space and the NUL are written
    behind it (the block has room for them here), and the length of the
    whole text is returned as if it had fitted. *)
Theorem print_binary_writes_past_size :
  (exists h, print_binary_atom 9 7 = Done 8 h /\
     h !! 60%positive = Some (CChars (Det <$> [c_hash; c_b; c_hash; 50; c_hash; 1; 2; c_space; 0]))) /\
  print_binary_atom 7 7 = Fault OutOfBounds.
Proof. split; [eexists; split|]; vm_compute; reflexivity. Qed.

(** With at most three bytes the NUL goes to the byte before the
    buffer. *)
Theorem print_binary_writes_before_buffer :
  print_binary_atom 3 3 = Fault OutOfBounds.
Proof. vm_compute. reflexivity. Qed.

(** The data of a binary atom is copied for the walk and never freed:
    with elements that are not cached, one cell is left over after printing. *)
Theorem print_binary_leaks_data :
  exists h, print_binary_atom (p := plain_pool) 20 20 = Done 8 h /\
    size h = S (length (idle ++ (60%positive, CChars (replicate 20 (Indet : fld Z))) ::
                        place_forest [demo_binary] 64)) /\
    h !! 65%positive = Some (CChars [Det 1; Det 2]) /\
    h !! 68%positive = Some (CChars [Det 1; Det 2]).
Proof. eexists. split_and!; vm_compute; reflexivity. Qed.

(** ** Events *)

(** The handler calls for a text, and the error code. *)
Definition events_of (s : list Z) : M (list event * sexp_errcode_t) :=
  cc ← init_continuation None;
  hs ← alloc (mk_handlers true true true true);
  modify cc (fun c => c <| pc_mode := PARSER_EVENTS_ONLY |> <| pc_event_handlers := Some hs |>);;
  cparse_sexp (Some (text_block, 0)) (Z.of_nat (length s)) cc;;
  tr ← gget (A := list event) g_trace;
  err ← gget (A := sexp_errcode_t) g_sexp_errno;
  mret (reverse tr, err).

(** The event parser does not forget that a string in a list was quoted
    with ': in [('"a" "b")] the string after it is reported as a quoted atom
    too, with its closing quote and without its opening one. *)
Theorem event_parser_keeps_quote :
  let s := [c_lparen; c_squote; c_dquote; 97; c_dquote; c_space; c_dquote; 98; c_dquote; c_rparen] in
  exists h,
    events_of s (heap_of ((g_trace, CTrace []) :: startup s)) =
    Done ([EvStart;
           EvCharacters (Det <$> [c_dquote; 97; c_dquote; 0]) 4 SEXP_SQUOTE;
           EvCharacters (Det <$> [98; c_dquote; 0]) 3 SEXP_SQUOTE;
           EvEnd], SEXP_ERR_OK) h.
Proof. eexists. vm_compute. reflexivity. Qed.

(** ** Reading from a descriptor *)

(** Two calls of [read_one_sexp] on a new reader. *)
Definition read_twice : M (ptr * ptr) :=
  iow ← init_iowrap 0;
  x ← read_one_sexp iow;
  y ← read_one_sexp iow;
  mret (x, y).

(** An expression that does not arrive in one piece is not read: when
    [(a b] comes first, both calls return NULL with
    [SEXP_ERR_INCOMPLETE], and the second did not even ask for the rest. *)
Theorem read_one_sexp_stuck_on_partial_read :
  let part1 := bytes_of_string "(a b" in
  let part2 := bytes_of_string "c)" in
  exists h,
    read_twice (heap_of ((g_reads, CReads [Some part1; Some part2]) :: startup [])) =
      Done (None, None) h /\
    h !! g_sexp_errno = Some (CErrno SEXP_ERR_INCOMPLETE) /\
    h !! g_reads = Some (CReads [Some part2]).
Proof. eexists. split_and!; vm_compute; reflexivity. Qed.

(** A failed [read] is taken for a very large number of bytes: what the
    buffer holds is parsed a second time, and the expression that was already
    returned is returned again. *)
Theorem read_failure_repeats_expression :
  exists x y s s' h,
    read_twice (heap_of ((g_reads, CReads [Some (bytes_of_string "abc "); None]) :: startup [])) =
      Done (Some x, Some y) h /\
    x <> y /\ h !! x = Some (CSexp s) /\ h !! y = Some (CSexp s') /\
    elt_val s <> elt_val s' /\
    (forall v, elt_val s = Det (Some v) \/ elt_val s' = Det (Some v) ->
       exists rest, h !! v = Some (CChars ((Det <$> bytes_of_string "abc") ++ Det 0 :: rest))).
Proof.
  do 5 eexists. split_and!; try (vm_compute; reflexivity); [vm_compute; discriminate..|].
  intros v [[= <-]|[= <-]]; eexists; vm_compute; reflexivity.
Qed.

(** A [read] that fills the buffer leaves no room for the character the
    parser looks at behind the text. *)
Theorem read_full_buffer_overruns :
  read_twice (heap_of ((g_reads, CReads [Some (replicate (Z.to_nat BUFSIZ) c_space)]) ::
                       startup [])) = Fault OutOfBounds.
Proof. vm_compute. reflexivity. Qed.

(** ** The printer without memory *)

(** [(a)] is printed while the allocator gives these answers, and then grants
    every request: the result, the buffer and the error code. *)
Definition print_answers (answers : list bool) : outcome (Z * list (fld Z) * sexp_errcode_t) :=
  (r ← print_sexp (Some (60%positive, 0)) 8 (Some 64%positive);
   b ← load (Some 60%positive);
   e ← gget g_sexp_errno;
   mret (r, b, e))
  (<[g_answers := CAnswers answers]>
     (heap_of (idle ++ (60%positive, CChars (replicate 8 (Indet : fld Z))) ::
               place_forest [Node [Atom SEXP_BASIC [97]]] 64))).

(** The result of [push] is not looked at.  Without memory for the first
    level of the stack nothing is printed, and the result is the length of an
    empty text; without memory for the level of the list its parenthesis is
    printed twice, and the result is the length of that. *)
Theorem print_sexp_ignores_refused_levels :
  (exists h, print_answers [true; true; true; false] =
     Done (0, Det 0 :: replicate 7 Indet, SEXP_ERR_MEMORY) h) /\
  (exists h, print_answers [true; true; true; true; false] =
     Done (5, (Det <$> bytes_of_string "((a))") ++ [Det 0; Indet; Indet], SEXP_ERR_MEMORY) h).
Proof. split; eexists; vm_compute; reflexivity. Qed.

(** ** Printing a continuation *)

(** [print_pcont] with [size] bytes of a block of [block] bytes, after the
    text [(ab c]. *)
Definition print_partial (block : nat) (size : Z) : M (list (fld Z)) :=
  cc ← cparse_sexp (Some (text_block, 0)) 5 None;
  buf ← alloc (replicate block (Indet : fld Z));
  print_pcont cc (Some (buf, 0)) size;;
  load (Some buf).

(** When the elements that were read end exactly where the buffer ends,
    the room that is left is 0 and one less than it is [SIZE_MAX]: the atom
    that is being read and a NUL are written behind the buffer. *)
Theorem print_pcont_writes_past_size :
  let h0 := heap_of (startup (bytes_of_string "(ab c")) in
  (exists h, print_partial 6 4 h0 =
     Done (Det <$> [c_lparen; 97; 98; c_space; 99; c_nul]) h) /\
  print_partial 4 4 h0 = Fault OutOfBounds.
Proof. split; [eexists|]; vm_compute; reflexivity. Qed.

(** After the text [(() a] the complete list without elements is taken for
    one that is open: the text is that of [((a]. *)
Theorem print_pcont_opens_empty_list :
  exists h, print_partial 8 8 (heap_of (startup (bytes_of_string "(() a"))) =
    Done ((Det <$> bytes_of_string "((a") ++ Det 0 :: replicate 4 Indet) h.
Proof. eexists. vm_compute. reflexivity. Qed.

(** ** Inline binary data *)

(** A call in the mode with binary data: the continuation and what it holds. *)
Definition parse_data (s : list Z) : M (ptr * ptr) :=
  pc ← parse_inline (Some (text_block, 0)) (Z.of_nat (length s));
  k ← load (A := pcont_t) pc;
  sx ← det (pc_last_sexp k);
  mret (pc, sx).

(** State 15 does not set [val]: when there is no data, [destroy_sexp] looks
    at it. *)
Theorem inline_empty_binary_cannot_be_destroyed :
  let s := bytes_of_string "(#b#0#)" in
  ('(_, sx) ← parse_data s; destroy_sexp sx) (heap_of (startup s)) = Fault Indeterminate.
Proof. vm_compute. reflexivity. Qed.

(** [find_sexp] looks at [val] of any value. *)
Theorem find_sexp_reads_unset_val :
  let s := bytes_of_string "(#b#1#x)" in
  ('(_, sx) ← parse_data s;
   e ← load (A := sexp_t) sx;
   find_sexp (Some (text_block, 0)) (elt_list e)) (heap_of (startup s)) = Fault Indeterminate.
Proof. vm_compute. reflexivity. Qed.

(** Binary data outside of lists is not returned when something follows it:
    the atom behind it is, and of the binary data nobody keeps a pointer. *)
Theorem inline_binary_at_top_level_leaks :
  let s := bytes_of_string "#b#1#xy " in
  exists h l e lb,
    ('(pc, sx) ← parse_data s; destroy_sexp sx;; destroy_continuation pc) (heap_of (startup s)) =
      Done tt h /\
    h !! l = Some (CSexp e) /\ elt_aty e = Det SEXP_BINARY /\
    elt_bindata e = Det (Some lb) /\ h !! lb = Some (CChars [Det 120]).
Proof. eexists _, 70%positive, _, 68%positive. split_and!; vm_compute; reflexivity. Qed.

(** ** The example interpreter *)

(** The interpreter on the lines of a file. *)
Definition interpreter_fails (ls : list (list Z)) (f : fault) : Prop :=
  simple_interp 50 (heap_of ((g_file, CText (concat (map (fun l => l ++ [c_lf]) ls))) ::
                             (g_stdout, CText []) :: startup [])) = Fault f.

(** A name without a definition, and a line without an expression, are
    evaluated as NULL. *)
Theorem interpreter_evaluates_null :
  interpreter_fails [bytes_of_string "(draw x)"] NullDeref /\ interpreter_fails [[]] NullDeref.
Proof. split; vm_compute; reflexivity. Qed.

(** A definition that binds its own name again destroys the expression that
    is evaluated. *)
Theorem interpreter_destroys_its_program :
  interpreter_fails [bytes_of_string "(setq a (draw (setq a (point 1 2))))";
                     bytes_of_string "(draw a)"] NullDeref.
Proof. vm_compute. reflexivity. Qed.

(** A name of 255 characters does not fit into its entry. *)
Theorem interpreter_name_overflows :
  interpreter_fails [bytes_of_string "(setq " ++ replicate 255 97 ++ bytes_of_string " 1)"]
    OutOfBounds.
Proof. vm_compute. reflexivity. Qed.
